(* ===== verification/_CoqProject ===== *)
-Q . S2P
Prelude.v
BinStream.v
Dag.v
DagRunner.v
Specs.v
Program.v
Actors.v
Executors.v
Index.v
Messages.v
Partition.v
MapOutput.v
Partitions.v
BlockReader.v
PlanFunctions.v
TypedCache.v
PlanController.v
PlanFrame.v
PlanExclusion.v
PlanTokens.v
PlanProgress.v
PlanCluster.v
PlanDrain.v
PlanComplete.v
PlanSim.v
PlanEvents.v
PlanResult.v
PlanInputs.v
MapFunctions.v
MapWith.v
PlanLedger.v
PlanBsp.v
PlanStart.v
Controller.v
Fetcher.v
FetcherProofs.v
CollectionStatus.v
Assigner.v
Hdfs.v
SchedulerState.v
Managers.v
ControlManager.v
ControlVersions.v
PlanRun.v
PlanCompletes.v
PlanPlay.v
Applications.v
Scheduler.v
SchedulerProofs.v
SchedulerRuns.v
Worker.v
Cluster.v
Mailbox.v
Engine.v
