(* ===== verification/Prelude.v ===== *)
(** * A verification library for Tangram

    Tangram runs iterative data-parallel programs on a cluster.  A program is a list of
    plans over collections; a collection is divided into partitions that live on the
    nodes.  One process is the scheduler, the others are workers.

    ** The program and its parts

    - _Program construction_ (src/core/plan).  User code calls the static functions of
      [Context], each of which adds a collection, a plan and a node of the dependency
      graph; the result is a [ProgramContext].
    - _Scheduler_ (src/core/scheduler).  An actor that receives the program, runs the plans
      that the graph allows through managers (load, distribute, checkpoint, write, control),
      keeps the status of the collections, and recovers the plans of a failed node.
    - _Worker and controller_ (src/core/scheduler/worker.cpp, src/core/worker).  The actors
      of a node.  The worker creates, checkpoints and writes partitions; the controller runs
      map/update plans through one [PlanController] each, which tracks versions, runs map,
      join, fetch and checkpoint tasks on executors and migrates partitions.
    - _Data_ (src/core/partition, map_output, cache, index, collection_map).  Partitions,
      the outputs of map tasks, the fetcher with its cache, and the mappers from keys to
      partitions and from partitions to nodes.
    - _Communication and files_ (src/base, src/comm, src/io).  The byte stream all messages
      go through, the mailboxes, the readers of blocks and the assignment of blocks.

    Actors handle one message at a time and interact only by messages, and with their
    executors by submitted tasks.  A handler is here a function in the monad [M] below:
    explicit state, failure ([CHECK], undefined behaviour) and the list of outputs
    (messages, tasks) in program order.  Code that runs concurrently is a step relation or
    an executable step function over a system of such handlers.

    ** The files

    - [Prelude]: the monad, [wp] and its rules, record update, C++ maps as [gmap] with
      their iteration order.
    - [BinStream]: base/sarray_binstream; class [Serial], whose law is the round trip.
    - [Dag], [DagRunner]: core/plan/dag, core/scheduler/dag_runner; class [DagRunner] is the
      interface of the two runners, against which complete runs are proved.
    - [Specs], [Program]: core/plan/spec_wrapper, program_context, context.
    - [Actors]: base/actor, base/threadsafe_queue.  [Executors]: core/executor.  Both as step
      relations over threads, their critical sections and notifications.
    - [Index]: the mappers, [CollectionView], [CollectionMap].  [Messages]: the contents of
      the control messages, queue ids.
    - [Partition]: the stores of partitions and streams.  [MapOutput], [Partitions]: map
      outputs, the containers of objects and their refinement to functions of keys.
    - [BlockReader]: io/hdfs_block_reader.  [Hdfs]: io/hdfs_browser, io/hdfs_writer, and the
      loading of a directory.  [PlanFunctions]: the function store and the functions of
      distribute, load and write plans.  [TypedCache]: core/cache/typed_cache and the getter
      of a collection.
    - [PlanController]: every handler of core/worker/plan_controller and delayed_combiner.
      [PlanFrame]: a program logic for tracking what a handler does.  [PlanExclusion]: mutual
      exclusion on a node.  [PlanTokens], [PlanProgress], [PlanDrain]: counting updates,
      iterations and waiting work on a node.
    - [PlanCluster], [PlanComplete]: the plan controllers of a cluster that exchange updates,
      and what is done when they rest.  [PlanEvents], [PlanResult], [PlanInputs]: what the
      updates carry, what the partitions hold, what maps read.  [PlanSim]: such runs, executed.
    - [MapFunctions]: the functions that map/update plans register, and what a plan computes
      with them.  [MapWith]: plans whose map function reads a second collection through a
      cache; class [AbstractFetcher] is the interface, class [Serves] its contract.
    - [PlanLedger], [PlanBsp], [PlanStart]: what a node knows of the progress of a plan with
      staleness 0.  [PlanRun], [PlanCompletes], [PlanPlay]: plan controllers and control
      manager together, their end, and such runs executed.  [Applications]: what
      [Context::count] and examples/tfidf/wordcount.cpp compute under the scheduler.
    - [Controller]: the actor that owns the plan controllers.
    - [Fetcher]: one definition per critical section, and the system of threads, queue,
      executor and controllers around them; [FetcherProofs]: its safety and progress.
    - [CollectionStatus], [Assigner], [SchedulerState], [Managers], [ControlManager],
      [Scheduler]: the scheduler with its managers; [ControlVersions], [SchedulerProofs],
      [SchedulerRuns]: their properties.
    - [Worker]: the worker actor and its tasks; [Cluster]: scheduler and workers together.
    - [Mailbox]: the mailboxes of scheduler and workers.  [Engine]: core/engine and
      core/plan/runner, the start of a worker process.

    State records carry the members of the class under their names (with a prefix where
    two classes share one); an operation has the name of its method.

    ** What is shown

    - _Plans_ ([PlanCompletes], [MapFunctions], [Applications], [PlanCluster],
      [PlanComplete]): a run of a map/update plan with staleness 0 under the control manager
      comes to rest only at its end, every map and update of it done; every update reaches
      its partition exactly once; when the nodes rest in an iteration all its updates are applied; the partitions
      then hold the fold of the updates that the maps gave, with or without combining; so
      counting and the word count give the numbers they should.
    - _Plan controller_ ([PlanExclusion]): no task changes a partition while another task
      uses it.  With staleness an iteration that is overtaken stalls the plan
      ([PlanSim.overtaken_iteration_stalls]).
    - _Second collections_ ([MapWith]): against a fetcher that keeps its contract, such a
      plan is a map plan whose function knows the collection.
    - _Programs_: the program of any sequence of [Context] calls is well formed and its
      specifications have the type of their plan; any runner that meets its interface runs
      each plan of it once, after what it depends on, and ends; the sequential runner runs
      them in program order.
    - _Scheduler_: what a step of the scheduler does for each kind of plan; that
      distribute, write and checkpoint plans complete for every order of replies; that
      loading assigns every block once and ends; that the status of a collection is that of
      the plans that use it; recovery of a failed node and where it fails.
    - _Control_: the version of a plan is the minimum over its partitions whatever reports
      and migrations happen, reports never fail; where migration breaks this.
    - _Actors and executors_: an actor handles what is pushed in order, one at a time; an
      executor runs every task once, and its destructor returns.
    - _Data_: combining keeps the total update, the remote join equals the local one, both
      containers refine functions of keys, serialized partitions come back unchanged; the
      mappers stay in bounds; distributed data is dealt out without loss; a file loaded by
      blocks, and a directory of files, gives its lines; the cache returns the objects of
      the keys for every order of replies.
    - _Fetcher_: a partition handed out is present until it is released, and a remote fetch
      completes; two cases where the code does not keep this.
    - _Cluster_: a distribute plan puts every partition where the view says, and a
      checkpoint restores a collection on another set of nodes; both for every order of
      messages.
    - _Processes_: registration numbers and connects all nodes; barriers; late
      registrations are not answered; a worker process has a queue for each actor when it
      tells the scheduler that it is ready.

    ** Bounds and fuel

    Loops that are not structural carry fuel, and the theorems about them are stated for
    the fuel the definition passes.  Reading pairs or objects to the end of a stream has as
    much fuel as there are bytes, which is enough because every element takes one.  The
    loop of waiting joins has the number of waiting joins.  A block reader has one more than
    the length of the file for the chunks of one line, one more than the block size for the
    reads of a block, and three more for its lines; the reader of a whole file has its
    length.  When a node's
    partitions are recounted the code starts from a minimum of 1000000, and the theorems about
    it assume versions up to that.  [int] and [size_t] values are
    integers with the range stated where a claim depends on it; serialization uses their
    widths.  The executed runs of [PlanSim] and [PlanPlay] carry fuel, are used on concrete
    plans, and are shown to come to rest there by evaluation.

    ** Not modelled

    - Map functions that change the partition they read, as in examples/sssp.cpp; a map
      function is a function of the objects, or of them and its cache.  The other example
      programs are uses of the same plans.
    - The end of plans with staleness, with migration or with a failing node; for these the
      safety theorems hold and the stall above is shown.
    - A bound on the steps of a plan: rounds of the combiner that find nothing and fetches
      from other nodes may go on for ever, so the theorems about plans say what holds when
      nothing is left to do, whatever the order of steps.  That no handler of a plan's run
      fails a [CHECK] is not shown; a run here is one in which none does.
    - What runs on several threads inside one call: futures, and the interleaving within a
      critical section.
    - zmq, HDFS and the operating system are parameters: a socket is an address, a file
      system a map from urls to bytes, a read returns some of the bytes.
    - The intermediate stores, which forward to the mailbox; timing and logging; the code
      under WITH_LB and WITH_LB_JOIN, which is not compiled; third-party code under
      src/base/third_party.

    ** Plan

    Possible next steps are the fetcher of [Fetcher] as an instance of the contract of
    [MapWith], and the end of plans during which partitions migrate. *)

From stdpp Require Export base gmap strings list fin_maps sorting.
From stdpp Require Export relations pretty.
From Stdlib Require Export ZArith Lia.

Global Open Scope Z_scope.

(** ** Failure: glog CHECK and undefined behaviour *)

(** A C++ run either ends normally, is aborted by a failed [CHECK...] macro, or
    runs into undefined behaviour (an index out of range, a null dereference). *)
Inductive err :=
| CheckFailed (what : string)
| Undefined (what : string).

Inductive res (A : Type) :=
| Ok (a : A)
| Err (e : err).
Arguments Ok {_} _.
Arguments Err {_} _.

(** ** The effect of a handler

    A handler runs on a state [S], may abort, and emits outputs [O] (messages
    sent, tasks submitted to an executor) in program order. *)
Definition M (S O A : Type) : Type := S -> res (A * S * list O).

Section monad.
Context {S O : Type}.

Definition ret {A} (a : A) : M S O A := fun s => Ok (a, s, []).

Definition bind {A B} (m : M S O A) (k : A -> M S O B) : M S O B :=
  fun s =>
    match m s with
    | Err e => Err e
    | Ok (a, s1, o1) =>
        match k a s1 with
        | Err e => Err e
        | Ok (b, s2, o2) => Ok (b, s2, o1 ++ o2)
        end
    end.

Definition get : M S O S := fun s => Ok (s, s, []).
Definition gets {A} (f : S -> A) : M S O A := fun s => Ok (f s, s, []).
Definition put (s' : S) : M S O unit := fun _ => Ok (tt, s', []).
Definition modify (f : S -> S) : M S O unit := fun s => Ok (tt, f s, []).
Definition emit (o : O) : M S O unit := fun s => Ok (tt, s, [o]).
Definition emits (os : list O) : M S O unit := fun s => Ok (tt, s, os).
Definition throw {A} (e : err) : M S O A := fun _ => Err e.

(** [CHECK(b) << what] *)
Definition check (b : bool) (what : string) : M S O unit :=
  if b then ret tt else throw (CheckFailed what).

(** Reading through an index or a pointer that must be valid. *)
Definition deref {A} (o : option A) (what : string) : M S O A :=
  match o with Some a => ret a | None => throw (Undefined what) end.

Definition when (b : bool) (m : M S O unit) : M S O unit :=
  if b then m else ret tt.

(** [for (auto x : l) body] *)
Fixpoint for_each {A} (l : list A) (body : A -> M S O unit) : M S O unit :=
  match l with
  | [] => ret tt
  | x :: l' => bind (body x) (fun _ => for_each l' body)
  end.
End monad.

Declare Scope cpp_scope.
Delimit Scope cpp_scope with cpp.
Notation "x <-- c1 ;; c2" := (bind c1 (fun x => c2))
  (at level 60, c1 at next level, right associativity) : cpp_scope.
Notation "c1 ;;; c2" := (bind c1 (fun _ => c2))
  (at level 60, right associativity) : cpp_scope.
Global Open Scope cpp_scope.

(** Running a component's handler inside a larger state. *)
Definition zoom {S T O O' A} (sub : T -> S) (upd : S -> T -> T) (out : O -> O')
    (m : M S O A) : M T O' A :=
  fun t =>
    match m (sub t) with
    | Err e => Err e
    | Ok (a, s', os) => Ok (a, upd s' t, out <$> os)
    end.

(** ** Record fields as assignable members

    [s <| f := v |>] is [s] after the assignment [f = v]; a record type gets the
    notation for all its fields from one [Eta] instance, which rebuilds a value
    from its fields. *)
Class Eta (R : Type) := eta : R -> R.
Class Upd {R T : Type} (fld : R -> T) := upd : (T -> T) -> R -> R.
Arguments upd {R T} fld {_} _ _ /.

Ltac derive_upd :=
  lazymatch goal with
  | |- @Upd ?R ?T ?fld =>
      let e := constr:(_ : Eta R) in
      let e := eval hnf in e in
      let h := eval pattern fld in e in
      lazymatch h with
      | ?g fld => exact (fun (f : T -> T) => g (fun r : R => f (fld r)))
      end
  end.
#[export] Hint Extern 1 (Upd _) => derive_upd : typeclass_instances.

Notation "s <| f := v |>" := (upd f (fun _ => v) s)
  (at level 1, left associativity, f at next level, format "s  <| f  :=  v |>") : cpp_scope.
Notation "s <| f ::= g |>" := (upd f g s)
  (at level 1, left associativity, f at next level, format "s  <| f  ::=  g |>") : cpp_scope.


(** ** Reasoning about handlers

    [wp E m s Q]: running [m] from [s] ends normally in a result, state and outputs
    that satisfy [Q], or fails with an error that satisfies [E].  With [E := none]
    it says that no CHECK fails; with [E := any] it is partial correctness. *)
Definition wp {S O A} (E : err -> Prop) (m : M S O A) (s : S)
    (Q : A -> S -> list O -> Prop) : Prop :=
  match m s with
  | Ok (a, s', os) => Q a s' os
  | Err e => E e
  end.

Arguments wp : simpl never.
Arguments bind : simpl never.
Arguments ret : simpl never.
Arguments get : simpl never.
Arguments gets : simpl never.
Arguments put : simpl never.
Arguments modify : simpl never.
Arguments emit : simpl never.
Arguments emits : simpl never.
Arguments throw : simpl never.
Arguments check : simpl never.
Arguments deref : simpl never.
Arguments when : simpl never.

Definition any : err -> Prop := fun _ => True.
Definition none : err -> Prop := fun _ => False.

Section wp_rules.
Context {S O : Type} (E : err -> Prop).
Implicit Types (s : S).

Lemma wp_ret {A} (a : A) s (Q : A -> S -> list O -> Prop) :
  Q a s [] -> wp E (ret a) s Q.
Proof. done. Qed.

Lemma wp_bind {A B} (m : M S O A) (k : A -> M S O B) s Q :
  wp E m s (fun a s1 o1 => wp E (k a) s1 (fun b s2 o2 => Q b s2 (o1 ++ o2))) ->
  wp E (bind m k) s Q.
Proof.
  unfold wp, bind. destruct (m s) as [[[a s1] o1]|e]; [|done].
  destruct (k a s1) as [[[b s2] o2]|e]; done.
Qed.

Lemma wp_get s (Q : S -> S -> list O -> Prop) : Q s s [] -> wp E get s Q.
Proof. done. Qed.

Lemma wp_gets {A} (f : S -> A) s (Q : A -> S -> list O -> Prop) :
  Q (f s) s [] -> wp E (gets f) s Q.
Proof. done. Qed.

Lemma wp_put s' s (Q : unit -> S -> list O -> Prop) : Q tt s' [] -> wp E (put s') s Q.
Proof. done. Qed.

Lemma wp_modify f s (Q : unit -> S -> list O -> Prop) :
  Q tt (f s) [] -> wp E (modify f) s Q.
Proof. done. Qed.

Lemma wp_emit o s (Q : unit -> S -> list O -> Prop) : Q tt s [o] -> wp E (emit o) s Q.
Proof. done. Qed.

Lemma wp_emits os s (Q : unit -> S -> list O -> Prop) : Q tt s os -> wp E (emits os) s Q.
Proof. done. Qed.

Lemma wp_throw {A} e s (Q : A -> S -> list O -> Prop) : E e -> wp E (throw e) s Q.
Proof. done. Qed.

Lemma wp_check b what s (Q : unit -> S -> list O -> Prop) :
  (b = true -> Q tt s []) -> (b = false -> E (CheckFailed what)) ->
  wp E (check b what) s Q.
Proof. destruct b; unfold wp, check, ret, throw; auto. Qed.

Lemma wp_deref {A} (o : option A) what s (Q : A -> S -> list O -> Prop) :
  (forall a, o = Some a -> Q a s []) -> (o = None -> E (Undefined what)) ->
  wp E (deref o what) s Q.
Proof. destruct o; unfold wp, deref, ret, throw; auto. Qed.

Lemma wp_if {A} (b : bool) (m1 m2 : M S O A) s Q :
  (b = true -> wp E m1 s Q) -> (b = false -> wp E m2 s Q) ->
  wp E (if b then m1 else m2) s Q.
Proof. destruct b; auto. Qed.

Lemma wp_when b (m : M S O unit) s Q :
  (b = true -> wp E m s Q) -> (b = false -> Q tt s []) -> wp E (when b m) s Q.
Proof. destruct b; intros H1 H2; [by apply H1|by apply H2]. Qed.

Lemma wp_mono {A} (m : M S O A) s (Q Q' : A -> S -> list O -> Prop) :
  wp E m s Q -> (forall a s' os, Q a s' os -> Q' a s' os) -> wp E m s Q'.
Proof. unfold wp. destruct (m s) as [[[a s'] os]|e]; auto. Qed.

Lemma wp_conj {A} (m : M S O A) s (Q Q' : A -> S -> list O -> Prop) :
  wp E m s Q -> wp E m s Q' -> wp E m s (fun a s' os => Q a s' os /\ Q' a s' os).
Proof. unfold wp. destruct (m s) as [[[a s'] os]|e]; auto. Qed.

(** A loop keeps an invariant of the elements still to be visited. *)
Lemma wp_for_each {A} (I : list A -> S -> list O -> Prop) (l : list A) body s Q :
  I l s [] ->
  (forall x l' s1 os, I (x :: l') s1 os ->
     wp E (body x) s1 (fun _ s2 os' => I l' s2 (os ++ os'))) ->
  (forall s' os, I [] s' os -> Q tt s' os) ->
  wp E (for_each l body) s Q.
Proof.
  intros H0 Hstep Hend.
  assert (forall l s os0, I l s os0 ->
    wp E (for_each l body) s (fun _ s' os => Q tt s' (os0 ++ os))) as Hgen.
  { clear l s H0. intros l; induction l as [|x l IH]; intros s os0 HI; cbn.
    - apply wp_ret. rewrite app_nil_r. auto.
    - apply wp_bind. eapply wp_mono; [by apply Hstep|].
      intros [] s1 os1 HI1. eapply wp_mono; [by apply IH|].
      intros [] s2 os2. by rewrite app_assoc. }
  eapply wp_mono; [by apply Hgen|]. by intros [] s' os.
Qed.

(** The frequent case: the invariant is about the state only. *)
Lemma wp_for_each_state {A} (I : S -> Prop) (l : list A) (body : A -> M S O unit) s Q :
  I s ->
  (forall x s1, x ∈ l -> I s1 -> wp E (body x) s1 (fun _ s2 _ => I s2)) ->
  (forall s' os, I s' -> Q tt s' os) ->
  wp E (for_each l body) s Q.
Proof.
  intros H0 Hstep Hend.
  eapply (wp_for_each (fun l' s' _ => (forall x, x ∈ l' -> x ∈ l) /\ I s')).
  - done.
  - intros x l' s1 os [Hin HI]. eapply wp_mono.
    + apply Hstep; [apply Hin; set_solver|done].
    + intros [] s2 os2 HI2. split; [set_solver|done].
  - intros s' os [_ HI]. auto.
Qed.
End wp_rules.

Lemma wp_weaken {S O A} (E E' : err -> Prop) (m : M S O A) s (Q Q' : A -> S -> list O -> Prop) :
  wp E m s Q -> (forall e, E e -> E' e) -> (forall a s' os, Q a s' os -> Q' a s' os) -> wp E' m s Q'.
Proof. unfold wp. destruct (m s) as [[[a s'] os]|e]; auto. Qed.

Lemma wp_Ok {S O A} E (m : M S O A) s a s' os Q :
  m s = Ok (a, s', os) -> wp E m s Q -> Q a s' os.
Proof. unfold wp. by intros ->. Qed.

Lemma wp_none_Ok {S O A} (m : M S O A) s Q :
  wp none m s Q -> exists a s' os, m s = Ok (a, s', os) /\ Q a s' os.
Proof. unfold wp. destruct (m s) as [[[a s'] os]|e]; [eauto 10|done]. Qed.

Lemma wp_exact {S O A} (m : M S O A) s a s' os :
  wp none m s (fun b t us => b = a /\ t = s' /\ us = os) -> m s = Ok (a, s', os).
Proof. unfold wp. destruct (m s) as [[[b t] us]|e]; [by intros (-> & -> & ->)|done]. Qed.

(** A loop over a concatenation is a loop over the first part and one over the second. *)
Lemma for_each_app {S O A} (l k : list A) (body : A -> M S O unit) s Q E :
  wp E (for_each l body) s (fun _ s1 o1 => wp E (for_each k body) s1 (fun _ s2 o2 => Q tt s2 (o1 ++ o2))) ->
  wp E (for_each (l ++ k) body) s Q.
Proof.
  revert s Q. induction l as [|x l IH]; intros s Q H; cbn in *.
  - apply (wp_Ok E (ret tt) s tt s []) in H; [|done]. eapply wp_mono; [exact H|]. by intros [] s' os.
  - apply wp_bind. unfold wp, bind in *. destruct (body x s) as [[[[] s1] o1]|e]; [|done].
    apply IH. destruct (for_each l body s1) as [[[[] s2] o2]|e]; [|done].
    destruct (for_each k body s2) as [[[[] s3] o3]|e]; [|done]. by rewrite app_assoc.
Qed.

Lemma for_each_fmap {S O A B} (f : A -> B) (l : list A) (body : B -> M S O unit) s :
  for_each (f <$> l) body s = for_each l (fun x => body (f x)) s.
Proof.
  revert s. induction l as [|x l IH]; intros s; [done|]. cbn. unfold bind.
  destruct (body (f x) s) as [[[[] s1] o1]|e]; [|done]. by rewrite IH.
Qed.

(** A first step that sends nothing. *)
Lemma bind_silent {S O A B} (m : M S O A) (k : A -> M S O B) s a s' :
  m s = Ok (a, s', []) -> bind m k s = k a s'.
Proof. unfold bind. intros ->. by destruct (k a s') as [[[b s2] o2]|e]. Qed.

Lemma check_true {S O} b what (s : S) : b = true -> check (O := O) b what s = Ok (tt, s, []).
Proof. by intros ->. Qed.

Lemma zoom_wp {S T O O' A} E (sub : T -> S) upd (out : O -> O') (m : M S O A) t Q :
  wp E m (sub t) (fun a s' os => Q a (upd s' t) (out <$> os)) ->
  wp E (zoom sub upd out m) t Q.
Proof. unfold wp, zoom. by destruct (m (sub t)) as [[[a s'] os]|e]. Qed.

(** One symbolic execution step of a handler. *)
Ltac wstep :=
  lazymatch goal with
  | |- wp _ (bind _ _) _ _ => apply wp_bind
  | |- wp _ (ret _) _ _ => apply wp_ret
  | |- wp _ get _ _ => apply wp_get
  | |- wp _ (gets _) _ _ => apply wp_gets
  | |- wp _ (put _) _ _ => apply wp_put
  | |- wp _ (modify _) _ _ => apply wp_modify
  | |- wp _ (emit _) _ _ => apply wp_emit
  | |- wp _ (emits _) _ _ => apply wp_emits
  | |- wp _ (throw _) _ _ => apply wp_throw
  | |- wp _ (check _ _) _ _ =>
      apply wp_check; [let H := fresh "Hck" in intros H
                      | try (intros _; exact I)]
  | |- wp _ (deref _ _) _ _ =>
      apply wp_deref; [let x := fresh "x" in let H := fresh "Hx" in intros x H
                      | try (intros _; exact I)]
  | |- wp _ (if _ then _ else _) _ _ =>
      apply wp_if; let H := fresh "Hif" in intros H
  | |- wp _ (when _ _) _ _ =>
      apply wp_when; let H := fresh "Hif" in intros H
  | |- wp _ (match ?x with _ => _ end) _ _ => let H := fresh "Hm" in destruct x eqn:H
  end.
Ltac wsteps := repeat (wstep; cbn beta iota).

(** ** C++ containers

    [std::map<int,V>] is a [gmap Z V]; its iteration visits the keys in increasing
    order.  [m[k]] default-constructs a missing entry, which [touch] does. *)
Definition lookup_or {A} (d : A) (k : Z) (m : gmap Z A) : A := default d (m !! k).
Definition touch {A} (d : A) (k : Z) (m : gmap Z A) : gmap Z A :=
  <[k := lookup_or d k m]> m.
Arguments lookup_or : simpl never.
Arguments touch : simpl never.

Definition key_le {A} (x y : Z * A) : Prop := x.1 <= y.1.
#[export] Instance key_le_dec {A} (x y : Z * A) : Decision (key_le x y).
Proof. unfold key_le. apply _. Defined.
#[export] Instance key_le_total {A} : Total (@key_le A).
Proof. intros x y. unfold key_le. lia. Qed.

Definition entries {A} (m : gmap Z A) : list (Z * A) :=
  merge_sort key_le (map_to_list m).
Definition keys {A} (m : gmap Z A) : list Z := (entries m).*1.
Definition members (s : gset Z) : list Z := merge_sort Z.le (elements s).

Section containers.
Context {A : Type}.
Implicit Types (m : gmap Z A) (d : A).

Lemma lookup_or_Some d k m a : m !! k = Some a -> lookup_or d k m = a.
Proof. unfold lookup_or. by intros ->. Qed.
Lemma lookup_or_None d k m : m !! k = None -> lookup_or d k m = d.
Proof. unfold lookup_or. by intros ->. Qed.
Lemma lookup_or_insert d k m a : lookup_or d k (<[k := a]> m) = a.
Proof. unfold lookup_or. by rewrite lookup_insert_eq. Qed.
Lemma lookup_or_insert_ne d k k' m a :
  k <> k' -> lookup_or d k' (<[k := a]> m) = lookup_or d k' m.
Proof. intros. unfold lookup_or. by rewrite lookup_insert_ne. Qed.
Lemma lookup_or_touch d k k' m : lookup_or d k' (touch d k m) = lookup_or d k' m.
Proof.
  unfold touch. destruct (decide (k = k')) as [->|];
    [by rewrite lookup_or_insert|by rewrite lookup_or_insert_ne].
Qed.
Lemma touch_present d k m : is_Some (m !! k) -> touch d k m = m.
Proof.
  intros [a Ha]. unfold touch. rewrite (lookup_or_Some _ _ _ _ Ha).
  by apply insert_id.
Qed.
Lemma entries_Permutation m : entries m ≡ₚ map_to_list m.
Proof. apply merge_sort_Permutation. Qed.
Lemma elem_of_entries m k a : (k, a) ∈ entries m <-> m !! k = Some a.
Proof. rewrite entries_Permutation. apply elem_of_map_to_list. Qed.
Lemma elem_of_keys m k : k ∈ keys m <-> is_Some (m !! k).
Proof.
  unfold keys. rewrite list_elem_of_fmap. split.
  - intros ([k' a] & -> & Hin%elem_of_entries). by eexists.
  - intros [a Ha%elem_of_entries]. by exists (k, a).
Qed.
Lemma NoDup_keys m : NoDup (keys m).
Proof. unfold keys. rewrite entries_Permutation. apply NoDup_fst_map_to_list. Qed.
Lemma length_entries m : length (entries m) = size m.
Proof. rewrite entries_Permutation. apply length_map_to_list. Qed.
End containers.

Lemma elem_of_members (s : gset Z) k : k ∈ members s <-> k ∈ s.
Proof. unfold members. rewrite merge_sort_Permutation. apply elem_of_elements. Qed.

Lemma NoDup_members s : NoDup (members s).
Proof. unfold members. rewrite merge_sort_Permutation. apply NoDup_elements. Qed.

(** The keys of a map are visited in the order of the members of its domain. *)
Lemma keys_members {A} (m : gmap Z A) (R : gset Z) :
  (forall k, is_Some (m !! k) <-> k ∈ R) -> keys m = members R.
Proof.
  intros HR. apply (StronglySorted_unique Z.le).
  - unfold keys, entries. apply (StronglySorted_fmap fst key_le).
    + by intros x y.
    + apply StronglySorted_merge_sort; try apply _.
      intros x y z. unfold key_le. lia.
  - unfold members. apply StronglySorted_merge_sort; apply _.
  - apply NoDup_Permutation; [apply NoDup_keys|apply NoDup_members|].
    intros k. by rewrite elem_of_keys, elem_of_members, HR.
Qed.

Lemma filter_ext_in {A} (P Q : A -> Prop) `{!forall x, Decision (P x), !forall x, Decision (Q x)}
    (l : list A) :
  (forall x, x ∈ l -> P x <-> Q x) -> filter P l = filter Q l.
Proof.
  induction l as [|x l IH]; intros HPQ; [done|].
  rewrite !filter_cons, IH by set_solver.
  specialize (HPQ x ltac:(set_solver)).
  do 2 case_decide; tauto.
Qed.

Lemma filter_all {A} (P : A -> Prop) `{!forall x, Decision (P x)} (l : list A) :
  (forall x, x ∈ l -> P x) -> filter P l = l.
Proof.
  induction l as [|x l IH]; intros HP; [done|].
  rewrite filter_cons, decide_True, IH; [done|set_solver..].
Qed.

Lemma filter_none {A} (Q : A -> Prop) `{!forall x, Decision (Q x)} (l : list A) :
  (forall x, x ∈ l -> ~ Q x) -> filter Q l = [].
Proof.
  induction l as [|x l IH]; intros Hl; [done|]. rewrite filter_cons, decide_False, IH; [done|set_solver..].
Qed.

Lemma NoDup_mjoin {A} (ls : list (list A)) : Forall NoDup ls ->
  (forall i j li lj x, ls !! i = Some li -> ls !! j = Some lj -> x ∈ li -> x ∈ lj -> i = j) -> NoDup (mjoin ls).
Proof.
  induction 1 as [|l ls Hl _ IH]; intros Hd; [constructor|]. cbn. apply NoDup_app. split_and!; [done| |].
  - intros x Hx (l' & Hxl & [j Hj]%list_elem_of_lookup)%list_elem_of_join. by specialize (Hd 0%nat (S j) l l' x eq_refl Hj Hx Hxl).
  - apply IH. intros i j li lj x Hi Hj H1 H2. specialize (Hd (S i) (S j) li lj x Hi Hj H1 H2). congruence.
Qed.

Lemma NoDup_mjoin_inv {A} (ls : list (list A)) i j li lj x :
  NoDup (mjoin ls) -> ls !! i = Some li -> ls !! j = Some lj -> x ∈ li -> x ∈ lj -> i = j.
Proof.
  revert i j. induction ls as [|l ls IH]; intros i j Hd Hi Hj Hx Hy; [done|]. cbn in Hd.
  apply NoDup_app in Hd as (_ & Hdis & Hd).
  assert (forall k lk, ls !! k = Some lk -> x ∈ lk -> x ∈ l -> False) as Hn.
  { intros k lk Hk%list_elem_of_lookup_2 Hxk Hxl. apply (Hdis x Hxl), list_elem_of_join. by exists lk. }
  destruct i as [|i], j as [|j]; cbn in Hi, Hj; simplify_eq; [done|by exfalso; eapply Hn..|]. f_equal. by eapply IH.
Qed.

Lemma list_fmap_concat {A B} (f : A -> B) (ls : list (list A)) :
  fmap (M := list) f (concat ls) = concat (fmap (M := list) (fmap (M := list) f) ls).
Proof. induction ls as [|l ls IH]; [done|]. cbn. by rewrite fmap_app, IH. Qed.

Lemma permuted_fmap {A B} (f : A -> B) (l : list A) (o : list B) :
  o ≡ₚ f <$> l -> exists l', o = f <$> l' /\ l' ≡ₚ l.
Proof.
  intros H'. destruct (Permutation_map_inv f l H') as (l' & -> & Hl'). exists l'. by split.
Qed.

Lemma length_zip_seqZ {A} (l : list A) : length (seqZ 0 (Z.of_nat (length l))) = length l.
Proof. rewrite length_seqZ. lia. Qed.

Lemma seqZ_snoc n : seqZ 0 (Z.of_nat (S n)) = seqZ 0 (Z.of_nat n) ++ [Z.of_nat n].
Proof.
  replace (Z.of_nat (S n)) with (Z.of_nat n + 1) by lia.
  rewrite seqZ_app by lia. f_equal.
Qed.

(** ** Occurrences in a list *)

Section counting.
Context {A : Type} `{!EqDecision A}.
Implicit Types (t x : A) (ts : list A).

Definition cnt t ts : Z := Z.of_nat (length (filter (fun x => x = t) ts)).

Lemma cnt_app t ts ts' : cnt t (ts ++ ts') = cnt t ts + cnt t ts'.
Proof. unfold cnt. rewrite filter_app, length_app. lia. Qed.
Lemma cnt_cons t x ts : cnt t (x :: ts) = (if decide (x = t) then 1 else 0) + cnt t ts.
Proof. unfold cnt. rewrite filter_cons. case_decide; cbn [length]; lia. Qed.
Lemma cnt_nil t : cnt t [] = 0.
Proof. done. Qed.
Lemma cnt_nonneg t ts : 0 <= cnt t ts.
Proof. unfold cnt. lia. Qed.
Lemma cnt_perm t ts ts' : ts ≡ₚ ts' -> cnt t ts = cnt t ts'.
Proof. intros Hp. unfold cnt. by rewrite Hp. Qed.
Lemma cnt_pos t ts : t ∈ ts -> 0 < cnt t ts.
Proof.
  intros Ht. apply list_elem_of_split in Ht as (l1 & l2 & ->).
  rewrite cnt_app, cnt_cons, decide_True by done. pose proof (cnt_nonneg t l1). pose proof (cnt_nonneg t l2). lia.
Qed.
Lemma cnt_zero t ts : t ∉ ts -> cnt t ts = 0.
Proof.
  induction ts as [|x ts IH]; intros Hn; [done|]. rewrite cnt_cons, decide_False, IH by set_solver. lia.
Qed.
Lemma cnt_elem t ts : 0 < cnt t ts -> t ∈ ts.
Proof. intros Hc. destruct (decide (t ∈ ts)); [done|]. rewrite cnt_zero in Hc by done. lia. Qed.
End counting.

Create HintDb tangram.
#[export] Hint Rewrite @lookup_or_insert @lookup_or_touch : tangram.
#[export] Hint Resolve NoDup_keys : tangram.
