(* ===== verification/BinStream.v ===== *)
(** * The binary stream (base/sarray_binstream.hpp, base/sarray_binstream.cpp)

    [SArrayBinStream] is the byte buffer through which every message, plan
    specification and migrated partition goes.  The file models the stream
    (a buffer and a read position), the [operator<<]/[operator>>] pairs of the
    standard types, and proves for each pair that reading back what was written
    gives the value and stops right after it.  The pairs are instances of the class
    [Serial], whose law is the round trip, so the struct types of other files only
    list their fields.

    The machine is x86-64: [int] is 4 bytes two's complement, [size_t] 8 bytes, [bool]
    and the [char] enums 1 byte, little endian. *)

From S2P Require Import Prelude.
From Stdlib Require Import Strings.Byte.

Abbreviation bytes := (list byte).

(** ** Fixed-width integers in memory *)

Definition byte_of_Z (z : Z) : byte :=
  match Byte.of_N (Z.to_N (z mod 256)) with Some b => b | None => x00 end.
Definition Z_of_byte (b : byte) : Z := Z.of_N (Byte.to_N b).

Fixpoint le_bytes (n : nat) (z : Z) : bytes :=
  match n with
  | O => []
  | S n' => byte_of_Z z :: le_bytes n' (z / 256)
  end.

Fixpoint le_value (bs : bytes) : Z :=
  match bs with
  | [] => 0
  | b :: bs' => Z_of_byte b + 256 * le_value bs'
  end.

(** Two's complement reading of a value of [8 * n] bits. *)
Definition signed (n : nat) (z : Z) : Z :=
  if z <? 2 ^ (8 * Z.of_nat n - 1) then z else z - 2 ^ (8 * Z.of_nat n).

Definition in_int (z : Z) : Prop := - 2 ^ 31 <= z < 2 ^ 31.
Definition in_size_t (z : Z) : Prop := 0 <= z < 2 ^ 64.

Lemma Z_of_byte_of_Z z : Z_of_byte (byte_of_Z z) = z mod 256.
Proof.
  unfold Z_of_byte, byte_of_Z.
  assert (0 <= z mod 256 < 256) as Hb by (apply Z.mod_pos_bound; lia).
  destruct (Byte.of_N (Z.to_N (z mod 256))) as [b|] eqn:E.
  - apply Byte.to_of_N in E. rewrite E. lia.
  - apply Byte.of_N_None_iff in E. lia.
Qed.

Lemma le_value_bytes n z : le_value (le_bytes n z) = z mod 2 ^ (8 * Z.of_nat n).
Proof.
  revert z. induction n as [|n IH]; intros z; cbn [le_bytes le_value].
  - rewrite Z.mod_1_r. done.
  - rewrite IH, Z_of_byte_of_Z.
    replace (8 * Z.of_nat (S n)) with (8 + 8 * Z.of_nat n) by lia.
    rewrite Z.pow_add_r by lia. change (2 ^ 8) with 256.
    rewrite Z.rem_mul_r by lia. lia.
Qed.

Lemma length_le_bytes n z : length (le_bytes n z) = n.
Proof. revert z. induction n as [|n IH]; intros z; cbn; [done|]. by rewrite IH. Qed.

Lemma signed_mod n z : (0 < n)%nat ->
  - 2 ^ (8 * Z.of_nat n - 1) <= z < 2 ^ (8 * Z.of_nat n - 1) ->
  signed n (z mod 2 ^ (8 * Z.of_nat n)) = z.
Proof.
  intros Hn Hz. unfold signed.
  assert (2 ^ (8 * Z.of_nat n) = 2 * 2 ^ (8 * Z.of_nat n - 1)) as Hp.
  { rewrite <- Z.pow_succ_r by lia. f_equal. lia. }
  set (h := 2 ^ (8 * Z.of_nat n - 1)) in *. rewrite Hp in *.
  assert (0 < h) by (subst h; apply Z.pow_pos_nonneg; lia).
  destruct (Z.lt_ge_cases z 0).
  - rewrite <- (Z.mod_unique_pos z (2 * h) (-1) (z + 2 * h)) by lia.
    destruct (Z.ltb_spec (z + 2 * h) h); lia.
  - rewrite Z.mod_small by lia. destruct (Z.ltb_spec z h); lia.
Qed.

(** ** The stream *)

Record BinStream := { buffer : bytes; front : nat }.
#[export] Instance eta_BinStream : Eta BinStream :=
  fun s => {| buffer := buffer s; front := front s |}.

Definition empty_stream : BinStream := {| buffer := []; front := 0 |}.

Definition Size (s : BinStream) : nat := length (buffer s) - front s.
Definition AddBin (bin : bytes) (s : BinStream) : BinStream :=
  s <| buffer ::= fun b => b ++ bin |>.

(** A reader consumes a stream; it emits nothing. *)
Abbreviation Reader := (M BinStream Empty_set).

Definition PopBin (sz : nat) : Reader bytes :=
  s <-- get ;;
  check (bool_decide (front s + sz <= length (buffer s))%nat)
    "front_ + sz <= buffer_.size()" ;;;
  modify (fun s => s <| front ::= fun f => (f + sz)%nat |>) ;;;
  ret (take sz (drop (front s) (buffer s))).

(** [ToSArray] hands out the whole buffer, the part already read included, and
    [FromSArray] starts reading at its beginning. *)
Definition ToSArray (s : BinStream) : bytes := buffer s.
Definition FromSArray (b : bytes) : BinStream := {| buffer := b; front := 0 |}.
(** The bytes [GetPtr()] points at, up to the end of the buffer. *)
Definition GetPtr (s : BinStream) : bytes := drop (front s) (buffer s).

(** ** Readers that undo a writer

    [reads m bs x]: wherever the bytes [bs] stand next in a stream, the reader [m]
    returns [x] and advances exactly past them. *)
Definition reads {A} (m : Reader A) (bs : bytes) (x : A) : Prop :=
  forall pre post,
    m {| buffer := pre ++ bs ++ post; front := length pre |} =
    Ok (x, {| buffer := pre ++ bs ++ post; front := length pre + length bs |}, []).

Lemma reads_ret {A} (x : A) : reads (ret x) [] x.
Proof. intros pre post. unfold ret. cbn. by rewrite Nat.add_0_r. Qed.

Lemma reads_bind {A B} (m : Reader A) (k : A -> Reader B) bs1 bs2 x y :
  reads m bs1 x -> reads (k x) bs2 y -> reads (bind m k) (bs1 ++ bs2) y.
Proof.
  intros H1 H2 pre post. unfold bind. rewrite <- app_assoc, H1.
  specialize (H2 (pre ++ bs1) post). rewrite length_app in H2.
  rewrite <- app_assoc in H2. rewrite H2, length_app. by rewrite Nat.add_assoc.
Qed.

Lemma reads_bind_ret {A B} (m : Reader A) (f : A -> B) bs x y :
  reads m bs x -> f x = y -> reads (a <-- m ;; ret (f a)) bs y.
Proof.
  intros H <-. rewrite <- (app_nil_r bs).
  eapply reads_bind; [done|apply reads_ret].
Qed.

Lemma reads_PopBin bs : reads (PopBin (length bs)) bs bs.
Proof.
  intros pre post. unfold PopBin, bind, get, check, modify, ret. cbn.
  rewrite bool_decide_eq_true_2 by (rewrite !length_app; lia). cbn.
  rewrite drop_app_length, take_app_length. done.
Qed.

(** ** The serialization interface *)

Class Serial (A : Type) := {
  enc : A -> bytes;        (* what [stream << x] appends *)
  dec : Reader A;          (* [stream >> x] *)
  storable : A -> Prop;    (* the C++ type can hold the value *)
  dec_enc : forall x, storable x -> reads dec (enc x) x
}.

Arguments enc : simpl never.
Arguments dec : simpl never.
Arguments storable : simpl never.
Arguments le_bytes : simpl never.

Definition shl {A} `{Serial A} (s : BinStream) (x : A) : BinStream := AddBin (enc x) s.
Notation "s << x" := (shl s x) (at level 40, left associativity) : cpp_scope.

(** The round trip through a message part: writing into an empty stream,
    [ToSArray], [FromSArray] and reading. *)
Lemma round_trip {A} `{Serial A} (x : A) : storable x ->
  dec (FromSArray (ToSArray (empty_stream << x))) =
  Ok (x, {| buffer := enc x; front := length (enc x) |}, []).
Proof.
  intros Hx. pose proof (dec_enc x Hx [] []) as E. cbn in E.
  rewrite app_nil_r in E. done.
Qed.

Ltac reads_step :=
  lazymatch goal with
  | |- reads (bind _ _) (_ ++ _) _ => eapply reads_bind
  | |- reads (bind _ (fun a => ret _)) _ _ => eapply reads_bind_ret
  | |- reads (ret _) [] _ => apply reads_ret
  | |- reads dec (enc _) _ => apply dec_enc
  end.
(** Closes the law of a struct whose fields are written and read in order. *)
Ltac solve_reads :=
  intros [] ?; cbn in *; destruct_and?; repeat reads_step; auto.

(** ** Trivially copyable types *)

#[export] Instance Serial_int : Serial Z | 10.
Proof.
  refine {| enc := le_bytes 4;
            dec := (bs <-- PopBin 4 ;; ret (signed 4 (le_value bs)));
            storable := in_int |}.
  intros z Hz. eapply reads_bind_ret.
  - rewrite <- (length_le_bytes 4 z) at 1. apply reads_PopBin.
  - rewrite le_value_bytes. apply signed_mod; [lia|exact Hz].
Defined.

(** [size_t] and [uint64_t]; the values of [length] below 2^64. *)
Record size_t := SizeT { size_val : Z }.
#[export] Instance Serial_size_t : Serial size_t.
Proof.
  refine {| enc := fun z => le_bytes 8 (size_val z);
            dec := (bs <-- PopBin 8 ;; ret (SizeT (le_value bs)));
            storable := fun z => in_size_t (size_val z) |}.
  intros [z] Hz. eapply reads_bind_ret.
  - rewrite <- (length_le_bytes 8 z) at 1. apply reads_PopBin.
  - rewrite le_value_bytes. f_equal. apply Z.mod_small. unfold in_size_t in Hz. cbn in *. lia.
Defined.

#[export] Instance Serial_byte : Serial byte.
Proof.
  refine {| enc := fun b => [b];
            dec := (bs <-- PopBin 1 ;; ret (hd x00 bs));
            storable := fun _ => True |}.
  intros b _. eapply reads_bind_ret; [apply (reads_PopBin [b])|done].
Defined.

#[export] Instance Serial_bool : Serial bool.
Proof.
  refine {| enc := fun b : bool => [if b then x01 else x00];
            dec := (bs <-- PopBin 1 ;;
                    match bs with
                    | [x00] => ret false
                    | [x01] => ret true
                    | _ => throw (Undefined "bool")
                    end);
            storable := fun _ => True |}.
  intros b _. apply (reads_bind _ _ [if b then x01 else x00] [] _ _ (reads_PopBin _)).
  destruct b; apply reads_ret.
Defined.

(** ** Containers: the length as a [size_t], then the elements *)

Definition put_len (n : nat) : bytes := enc (SizeT (Z.of_nat n)).
Arguments put_len : simpl never.
Definition take_len : Reader nat := n <-- dec ;; ret (Z.to_nat (size_val n)).

(** The loops count with an [int], which holds every length below 2^31. *)
Definition length_fits {A} (l : list A) : Prop := Z.of_nat (length l) < 2 ^ 31.

Lemma reads_len {A} (l : list A) : length_fits l ->
  reads take_len (put_len (length l)) (length l).
Proof.
  intros Hl. eapply reads_bind_ret; [apply dec_enc|apply Nat2Z.id].
  unfold length_fits in Hl. unfold storable. cbn. unfold in_size_t. lia.
Qed.

Section sequences.
Context {A : Type} `{Serial A}.

(** [for (i = 0; i < len; i++) { T elem; stream >> elem; push_back(elem); }] *)
Fixpoint dec_n (n : nat) : Reader (list A) :=
  match n with
  | O => ret []
  | S n' => x <-- dec ;; xs <-- dec_n n' ;; ret (x :: xs)
  end.

Definition enc_all (l : list A) : bytes := concat (enc <$> l).

Lemma reads_dec_n l : Forall storable l -> reads (dec_n (length l)) (enc_all l) l.
Proof.
  induction 1 as [|x l Hx Hl IH]; [apply reads_ret|].
  change (enc_all (x :: l)) with (enc x ++ enc_all l). cbn [dec_n length].
  eapply reads_bind; [by apply dec_enc|].
  by eapply (reads_bind_ret _ (fun xs => x :: xs)).
Qed.
End sequences.

(** [std::vector], [std::deque] and [std::string] (of [char]) share the format. *)
#[export] Instance Serial_vector {A} `{Serial A} : Serial (list A).
Proof.
  refine {| enc := fun l => put_len (length l) ++ enc_all l;
            dec := (n <-- take_len ;; dec_n n);
            storable := fun l => length_fits l /\ Forall storable l |}.
  intros l [Hlen Hl]. eapply reads_bind; [by apply reads_len|by apply reads_dec_n].
Defined.

#[export] Instance Serial_pair {A B} `{Serial A, Serial B} : Serial (A * B).
Proof.
  refine {| enc := fun p => enc p.1 ++ enc p.2;
            dec := (x <-- dec ;; y <-- dec ;; ret (x, y));
            storable := fun p => storable p.1 /\ storable p.2 |}.
  solve_reads.
Defined.

(** [std::set<int>]: the elements in increasing order; reading inserts them. *)
#[export] Instance Serial_set : Serial (gset Z).
Proof.
  refine {| enc := fun s => enc (members s);
            dec := (l <-- (dec : Reader (list Z)) ;; ret (list_to_set l));
            storable := fun s => storable (members s) |}.
  intros s Hs. eapply reads_bind_ret; [by apply dec_enc|].
  apply set_eq. intros k. rewrite elem_of_list_to_set. apply elem_of_members.
Defined.

(** [std::map<int,V>] writes its entries in key order; reading inserts each pair,
    [insert] keeping the first of two equal keys. *)
Definition insert_new {V} (m : gmap Z V) (kv : Z * V) : gmap Z V :=
  match m !! kv.1 with Some _ => m | None => <[kv.1 := kv.2]> m end.

Lemma insert_new_all {V} (l : list (Z * V)) m0 :
  NoDup l.*1 -> (forall k, k ∈ l.*1 -> m0 !! k = None) ->
  foldl insert_new m0 l = list_to_map l ∪ m0.
Proof.
  revert m0. induction l as [|[k v] l IH]; intros m0 Hnd Hf; cbn.
  - by rewrite (left_id_L ∅ (∪)).
  - apply NoDup_cons in Hnd as [Hk Hnd]. unfold insert_new at 2. cbn.
    rewrite Hf by set_solver. rewrite IH; [|done|].
    + rewrite <- insert_union_l, insert_union_r; [done|].
      by apply not_elem_of_list_to_map_1.
    + intros k' Hk'. rewrite lookup_insert_ne; [apply Hf; set_solver|].
      intros ->. done.
Qed.

Section maps.
Context {V : Type} `{Serial V}.

(** Writing the entries in some order [l]: [std::map] uses the key order, an
    [std::unordered_map] whatever order its buckets give. *)
Definition enc_map_as (l : list (Z * V)) : bytes := enc l.
Definition dec_map : Reader (gmap Z V) :=
  l <-- (dec : Reader (list (Z * V))) ;; ret (foldl insert_new ∅ l).
Definition map_storable (m : gmap Z V) : Prop :=
  length_fits (map_to_list m) /\ map_Forall (fun k v => storable k /\ storable v) m.

Lemma reads_map_as (m : gmap Z V) l :
  l ≡ₚ map_to_list m -> map_storable m -> reads dec_map (enc_map_as l) m.
Proof.
  intros Hl [Hlen Hm]. eapply reads_bind_ret.
  - apply dec_enc. split.
    + unfold length_fits in *. by rewrite Hl.
    + rewrite Hl. apply Forall_forall. intros [k v] Hkv%elem_of_map_to_list.
      by apply (Hm k v).
  - rewrite insert_new_all.
    + rewrite (right_id_L ∅ (∪)). rewrite (list_to_map_proper l (map_to_list m)).
      * apply list_to_map_to_list.
      * rewrite Hl. apply NoDup_fst_map_to_list.
      * done.
    + rewrite Hl. apply NoDup_fst_map_to_list.
    + intros k _. apply lookup_empty.
Qed.

#[export] Instance Serial_map : Serial (gmap Z V).
Proof.
  refine {| enc := fun m => enc_map_as (entries m);
            dec := dec_map;
            storable := map_storable |}.
  intros m Hm. apply reads_map_as; [apply entries_Permutation|done].
Defined.
End maps.

(** A nested stream: the unread part, preceded by its size. *)
#[export] Instance Serial_BinStream : Serial BinStream.
Proof.
  refine {| enc := fun b => put_len (Size b) ++ GetPtr b;
            dec := (n <-- take_len ;; bs <-- PopBin n ;; ret (FromSArray bs));
            storable := fun b => length_fits (buffer b) /\ front b = 0%nat |}.
  intros [b f] [Hb Hf]. cbn in *. subst f. unfold Size, GetPtr. cbn.
  rewrite Nat.sub_0_r. eapply reads_bind; [by apply reads_len|].
  eapply (reads_bind_ret _ FromSArray); [apply reads_PopBin|done].
Defined.

(** [std::string]: its length, then one byte per character. *)
#[export] Instance Serial_string : Serial string.
Proof.
  refine {| enc := fun s => enc (String.list_byte_of_string s);
            dec := (l <-- (dec : Reader bytes) ;; ret (String.string_of_list_byte l));
            storable := fun s => length_fits (String.list_byte_of_string s) |}.
  intros s Hs. eapply reads_bind_ret.
  - apply dec_enc. split; [done|]. by apply Forall_forall.
  - apply String.string_of_list_byte_of_string.
Defined.
