(* ===== verification/Dag.v ===== *)
(** * The plan graph (core/plan/dag.hpp, core/plan/dag.cpp)

    A program is a sequence of plans, each reading and writing collections.  [Dag]
    records the dependencies between them and [DagVistor] hands out the plans whose
    dependencies are finished.  The runners of core/scheduler/dag_runner.cpp are in
    DagRunner.v. *)

From S2P Require Import Prelude BinStream.

(** ** Data *)

Record Col := { col_id : Z; read_queue : list Z; write_queue : list Z }.
#[export] Instance eta_Col : Eta Col := fun c =>
  {| col_id := col_id c; read_queue := read_queue c; write_queue := write_queue c |}.

Record DagNode := { node_id : Z; out : list Z; in_ : list Z }.
#[export] Instance eta_DagNode : Eta DagNode := fun n =>
  {| node_id := node_id n; out := out n; in_ := in_ n |}.

Record Dag := { nodes_ : gmap Z DagNode; cols_ : gmap Z Col }.
#[export] Instance eta_Dag : Eta Dag := fun d =>
  {| nodes_ := nodes_ d; cols_ := cols_ d |}.

Definition mkCol (id : Z) : Col := {| col_id := id; read_queue := []; write_queue := [] |}.
Definition mkDagNode (id : Z) : DagNode := {| node_id := id; out := []; in_ := [] |}.
Definition empty_dag : Dag := {| nodes_ := ∅; cols_ := ∅ |}.

(** [write_queue.empty() ? -1 : write_queue.back()] *)
Definition GetLastWrite (c : Col) : Z := default (-1) (last (write_queue c)).
Definition AppendRead (r : Z) (c : Col) : Col := c <| read_queue ::= fun q => q ++ [r] |>.
Definition AppendWrite (w : Z) (c : Col) : Col := c <| write_queue ::= fun q => q ++ [w] |>.
Definition AddOut (i : Z) (n : DagNode) : DagNode := n <| out ::= fun l => l ++ [i] |>.
Definition AddIn (i : Z) (n : DagNode) : DagNode := n <| in_ ::= fun l => l ++ [i] |>.

#[export] Instance Serial_Col : Serial Col.
Proof.
  refine {| enc := fun c => enc (col_id c) ++ enc (read_queue c) ++ enc (write_queue c);
            dec := (i <-- dec ;; r <-- dec ;; w <-- dec ;;
                    ret {| col_id := i; read_queue := r; write_queue := w |});
            storable := fun c => storable (col_id c) /\ storable (read_queue c) /\
                                 storable (write_queue c) |}.
  solve_reads.
Defined.

#[export] Instance Serial_DagNode : Serial DagNode.
Proof.
  refine {| enc := fun n => enc (node_id n) ++ enc (out n) ++ enc (in_ n);
            dec := (i <-- dec ;; o <-- dec ;; n <-- dec ;;
                    ret {| node_id := i; out := o; in_ := n |});
            storable := fun n => storable (node_id n) /\ storable (out n) /\
                                 storable (in_ n) |}.
  solve_reads.
Defined.

#[export] Instance Serial_Dag : Serial Dag.
Proof.
  refine {| enc := fun d => enc (nodes_ d) ++ enc (cols_ d);
            dec := (n <-- dec ;; c <-- dec ;; ret {| nodes_ := n; cols_ := c |});
            storable := fun d => storable (nodes_ d) /\ storable (cols_ d) |}.
  solve_reads.
Defined.

(** ** Building the graph *)

Definition GetOrCreateDagNode (id : Z) (d : Dag) : Dag :=
  match nodes_ d !! id with
  | Some _ => d
  | None => d <| nodes_ ::= <[id := mkDagNode id]> |>
  end.

Definition GetOrCreateCol (id : Z) (d : Dag) : Dag :=
  match cols_ d !! id with
  | Some _ => d
  | None => d <| cols_ ::= <[id := mkCol id]> |>
  end.

Definition AddEdge (src dst : Z) (d : Dag) : Dag :=
  let d := GetOrCreateDagNode src d in
  let d := GetOrCreateDagNode dst d in
  let d := d <| nodes_ ::= alter (AddOut dst) src |> in
  d <| nodes_ ::= alter (AddIn src) dst |>.

(** One turn of the loop over [read] (over [write]): the column is created if
    needed, its last writer joins the dependencies, and the plan is queued. *)
Definition visit (append : Col -> Col) (st : Dag * gset Z) (c : Z) : Dag * gset Z :=
  let '(d, dependencies) := st in
  let d := GetOrCreateCol c d in
  let col := default (mkCol c) (cols_ d !! c) in
  let p := GetLastWrite col in
  let dependencies := if decide (p = -1) then dependencies else {[p]} ∪ dependencies in
  (d <| cols_ ::= <[c := append col]> |>, dependencies).

Definition AddDagNode (id : Z) (read write : list Z) (d : Dag) : Dag :=
  let d := GetOrCreateDagNode id d in
  let '(d, dependencies) := foldl (visit (AppendRead id)) (d, ∅) read in
  let '(d, dependencies) := foldl (visit (AppendWrite id)) (d, dependencies) write in
  foldl (fun d p => AddEdge p id d) d (members dependencies).

(** A program: the reads and writes of its plans; [Store::make] of
    core/plan/context.hpp numbers the plans 0, 1, 2, ... *)
Abbreviation plan_rw := (list Z * list Z)%type.
Definition build (ps : list plan_rw) : Dag :=
  (foldl (fun '(i, d) p => (i + 1, AddDagNode i p.1 p.2 d)) (0, empty_dag) ps).2.

(** ** Visiting *)

Record DagVistor := { v_nodes : gmap Z DagNode; indegrees_ : gmap Z Z; v_cols : gmap Z Col }.
#[export] Instance eta_DagVistor : Eta DagVistor := fun v =>
  {| v_nodes := v_nodes v; indegrees_ := indegrees_ v; v_cols := v_cols v |}.

Definition mkDagVistor (dag : Dag) : DagVistor :=
  {| v_nodes := nodes_ dag;
     v_cols := cols_ dag;
     indegrees_ := foldl (fun ds kv => <[node_id kv.2 := Z.of_nat (length (in_ kv.2))]> ds)
                     ∅ (entries (nodes_ dag)) |}.

Abbreviation VM := (M DagVistor Empty_set).

Fixpoint front_of (l : list (Z * DagNode)) : VM (list Z) :=
  match l with
  | [] => ret []
  | (_, node) :: l' =>
      modify (fun v => v <| indegrees_ ::= touch 0 (node_id node) |>) ;;;
      deg <-- gets (fun v => lookup_or 0 (node_id node) (indegrees_ v)) ;;
      rest <-- front_of l' ;;
      ret (if deg =? 0 then node_id node :: rest else rest)
  end.
Definition GetFront : VM (list Z) :=
  l <-- gets (fun v => entries (v_nodes v)) ;; front_of l.

Definition Finish (id : Z) : VM unit :=
  modify (fun v => v <| indegrees_ ::= touch 0 id |>) ;;;
  deg <-- gets (fun v => lookup_or 0 id (indegrees_ v)) ;;
  check (deg =? 0) "indegrees_[id] == 0" ;;;
  (* &nodes_[id] default-constructs a missing node; its lists are empty *)
  modify (fun v => v <| v_nodes ::= touch (mkDagNode 0) id |>) ;;;
  children <-- gets (fun v => out (lookup_or (mkDagNode 0) id (v_nodes v))) ;;
  for_each children (fun child =>
    modify (fun v => v <| indegrees_ ::= fun m =>
              <[child := lookup_or 0 child m - 1]> m |>) ;;;
    deg <-- gets (fun v => lookup_or 0 child (indegrees_ v)) ;;
    check (0 <=? deg) "indegrees_[child] >= 0") ;;;
  modify (fun v => v <| v_nodes ::= delete id |> <| indegrees_ ::= delete id |>).

Definition GetNumDagNodes (v : DagVistor) : Z := Z.of_nat (size (v_nodes v)).

(** ** What the graph contains *)

(** The plans of [ps] that write collection [c], in program order. *)
Definition writers (ps : list plan_rw) (c : Z) : list Z :=
  (filter (fun ip => c ∈ ip.2.2) (zip (seqZ 0 (Z.of_nat (length ps))) ps)).*1.

(** The plans a plan [p] placed after [ps] must wait for: the last writer of each
    collection it reads or writes. *)
Definition deps (ps : list plan_rw) (p : plan_rw) : gset Z :=
  list_to_set (omap (fun c => last (writers ps c)) (p.1 ++ p.2)).

Definition preds (ps : list plan_rw) (j : Z) : list Z :=
  match ps !! Z.to_nat j with
  | Some p => members (deps (take (Z.to_nat j) ps) p)
  | None => []
  end.

Definition succs (ps : list plan_rw) (i : Z) : list Z :=
  filter (fun j => i ∈ preds ps j) (seqZ 0 (Z.of_nat (length ps))).

Definition spec_node (ps : list plan_rw) (i : Z) : DagNode :=
  {| node_id := i; out := succs ps i; in_ := preds ps i |}.

Definition well_written (ps : list plan_rw) : Prop := Forall (fun p => NoDup p.2) ps.

Lemma writers_snoc ps p c :
  writers (ps ++ [p]) c =
  writers ps c ++ (if decide (c ∈ p.2) then [Z.of_nat (length ps)] else []).
Proof.
  unfold writers. rewrite length_app, Nat.add_1_r, seqZ_snoc.
  rewrite zip_with_app by apply length_zip_seqZ. cbn.
  rewrite filter_app, fmap_app. f_equal. rewrite filter_cons, filter_nil.
  destruct (decide (c ∈ p.2)); by rewrite ?decide_True, ?decide_False by done.
Qed.

Lemma elem_of_writers ps c i :
  i ∈ writers ps c <-> 0 <= i /\ exists p, ps !! Z.to_nat i = Some p /\ c ∈ p.2.
Proof.
  induction ps as [|p ps IH] using rev_ind.
  - cbn. split; [set_solver|]. intros (_ & p & Hp & _). by rewrite lookup_nil in Hp.
  - rewrite writers_snoc, elem_of_app, IH. split.
    + intros [(Hi & q & Hq & Hc)|Hin].
      * split; [done|]. exists q. split; [|done]. by apply lookup_app_l_Some.
      * destruct (decide (c ∈ p.2)); [|set_solver].
        apply list_elem_of_singleton in Hin as ->. split; [lia|]. exists p.
        rewrite Nat2Z.id, lookup_app_r, Nat.sub_diag by lia. done.
    + intros (Hi & q & Hq & Hc). apply lookup_app_Some in Hq as [Hq|[Hge Hq]].
      * left. eauto.
      * right. destruct (Z.to_nat i - length ps)%nat eqn:E; [|done].
        cbn in Hq. injection Hq as ->. rewrite decide_True by done.
        apply list_elem_of_singleton. lia.
Qed.

Lemma writers_lt ps c i : i ∈ writers ps c -> 0 <= i < Z.of_nat (length ps).
Proof.
  intros (Hi & p & Hp & _)%elem_of_writers. apply lookup_lt_Some in Hp. lia.
Qed.

Lemma elem_of_deps ps p i :
  i ∈ deps ps p <-> exists c, c ∈ p.1 ++ p.2 /\ last (writers ps c) = Some i.
Proof. unfold deps. rewrite elem_of_list_to_set, list_elem_of_omap. done. Qed.

Lemma deps_lt ps p i : i ∈ deps ps p -> 0 <= i < Z.of_nat (length ps).
Proof.
  intros (c & _ & Hl)%elem_of_deps. apply (writers_lt ps c).
  by apply last_Some_elem_of.
Qed.

Lemma preds_lt ps j i : i ∈ preds ps j -> 0 <= i < j.
Proof.
  unfold preds. destruct (ps !! Z.to_nat j) as [p|] eqn:Hp; [|set_solver].
  intros Hi%elem_of_members%deps_lt. rewrite length_take in Hi. lia.
Qed.

Lemma NoDup_preds ps j : NoDup (preds ps j).
Proof. unfold preds. destruct (ps !! _); [apply NoDup_members|constructor]. Qed.

Lemma preds_snoc ps p j :
  0 <= j < Z.of_nat (length ps) -> preds (ps ++ [p]) j = preds ps j.
Proof.
  intros Hj. unfold preds. rewrite lookup_app_l by lia. by rewrite take_app_le by lia.
Qed.

Lemma preds_last ps p : preds (ps ++ [p]) (Z.of_nat (length ps)) = members (deps ps p).
Proof.
  unfold preds. rewrite Nat2Z.id, lookup_app_r, Nat.sub_diag by lia. cbn.
  by rewrite take_app_length.
Qed.

Lemma succs_snoc ps p i :
  succs (ps ++ [p]) i =
  succs ps i ++ (if decide (i ∈ deps ps p) then [Z.of_nat (length ps)] else []).
Proof.
  unfold succs. rewrite length_app, Nat.add_1_r, seqZ_snoc, filter_app. f_equal.
  - apply filter_ext_in. intros j Hj%elem_of_seqZ. by rewrite preds_snoc by lia.
  - rewrite filter_cons, filter_nil, preds_last.
    destruct (decide (i ∈ deps ps p)); [rewrite decide_True|rewrite decide_False];
      rewrite ?elem_of_members; done.
Qed.

Lemma elem_of_succs ps i j :
  j ∈ succs ps i <-> i ∈ preds ps j /\ 0 <= j < Z.of_nat (length ps).
Proof. unfold succs. by rewrite list_elem_of_filter, elem_of_seqZ. Qed.

Lemma NoDup_succs ps i : NoDup (succs ps i).
Proof. apply NoDup_filter, NoDup_seqZ. Qed.

Lemma succs_ge ps i : Z.of_nat (length ps) <= i -> succs ps i = [].
Proof.
  intros Hi. apply elem_of_nil_inv. intros j [Hj%preds_lt ?]%elem_of_succs. lia.
Qed.

(** ** [build] constructs exactly that graph *)

Definition wq (d : Dag) (c : Z) : list Z := write_queue (default (mkCol c) (cols_ d !! c)).

Lemma GetOrCreateCol_wq c d c' : wq (GetOrCreateCol c d) c' = wq d c'.
Proof.
  unfold GetOrCreateCol, wq. destruct (cols_ d !! c) eqn:E; [done|]. cbn.
  destruct (decide (c = c')) as [->|Hne].
  - by rewrite lookup_insert_eq, E.
  - by rewrite lookup_insert_ne.
Qed.

Lemma visit_spec f d ds c d' ds' :
  visit f (d, ds) c = (d', ds') -> -1 ∉ wq d c ->
  (forall col, write_queue (f col) = write_queue col ++ write_queue (f (mkCol c))) ->
  nodes_ d' = nodes_ d /\
  (forall i, i ∈ ds' <-> i ∈ ds \/ last (wq d c) = Some i) /\
  (forall c', wq d' c' = wq d c' ++ if decide (c' = c) then write_queue (f (mkCol c)) else []).
Proof.
  intros Hv Hneg Hf. unfold visit in Hv.
  set (d1 := GetOrCreateCol c d) in *.
  assert (nodes_ d1 = nodes_ d) as Hn.
  { subst d1. unfold GetOrCreateCol. by destruct (cols_ d !! c). }
  assert (write_queue (default (mkCol c) (cols_ d1 !! c)) = wq d c) as Hc.
  { apply (GetOrCreateCol_wq c d c). }
  injection Hv as <- <-. split_and!; [done| |].
  - intros i. unfold GetLastWrite. rewrite Hc.
    destruct (last (wq d c)) as [p|] eqn:Hl; cbn.
    + rewrite decide_False; [set_solver|].
      intros ->. apply Hneg. by apply last_Some_elem_of.
    + set_solver.
  - intros c'. unfold wq at 1. cbn. destruct (decide (c' = c)) as [->|Hne].
    + rewrite lookup_insert_eq. cbn. by rewrite Hf, Hc.
    + rewrite lookup_insert_ne by done. rewrite app_nil_r. apply (GetOrCreateCol_wq c d c').
Qed.

(** The loop over [read] ([q = []]) or over [write] ([q = [id]]). *)
Lemma visit_all f q l d ds d' ds' :
  foldl (visit f) (d, ds) l = (d', ds') ->
  (forall c, -1 ∉ wq d c) -> -1 ∉ q -> (q = [] \/ NoDup l) ->
  (forall col, write_queue (f col) = write_queue col ++ q) ->
  nodes_ d' = nodes_ d /\
  (forall i, i ∈ ds' <-> i ∈ ds \/ exists c, c ∈ l /\ last (wq d c) = Some i) /\
  (forall c, wq d' c = wq d c ++ if decide (c ∈ l) then q else []).
Proof.
  intros Hfold Hneg Hq Hnd Hf. revert d ds Hfold Hneg.
  induction l as [|c l IH]; intros d ds Hfold Hneg.
  { injection Hfold as <- <-. split_and!; [done|set_solver|].
    intros c. rewrite decide_False by set_solver. by rewrite app_nil_r. }
  assert (write_queue (f (mkCol c)) = q) as Hfc by apply Hf.
  cbn [foldl] in Hfold. destruct (visit f (d, ds) c) as [d1 ds1] eqn:Hv.
  eapply visit_spec in Hv as (Hn1 & Hds1 & Hw1); [|done|by rewrite Hfc].
  rewrite Hfc in Hw1.
  assert (q = [] \/ NoDup l) as Hnd' by (destruct Hnd as [?|[_ ?]%NoDup_cons]; auto).
  destruct (IH Hnd' d1 ds1 Hfold) as (Hn2 & Hds2 & Hw2).
  { intros c'. rewrite Hw1. destruct (decide (c' = c)); set_solver. }
  assert (forall c', c' ∈ l -> last (wq d1 c') = last (wq d c')) as Hlast.
  { intros c' Hc'. rewrite Hw1. destruct (decide (c' = c)) as [->|]; [|by rewrite app_nil_r].
    destruct Hnd as [->|[Hni _]%NoDup_cons]; [by rewrite app_nil_r|done]. }
  split_and!; [congruence| |].
  - intros i. rewrite Hds2, Hds1. setoid_rewrite elem_of_cons.
    clear IH Hn1 Hn2 Hw1 Hw2 Hnd Hnd' Hds1 Hds2 Hfold. split.
    + intros [[?|?]|(c' & Hc' & Hl)]; [by left|by right; eauto|].
      right. exists c'. rewrite <- Hlast by done. auto.
    + intros [?|(c' & [->|Hc'] & Hl)]; [by left; left|by left; right|].
      right. exists c'. by rewrite Hlast.
  - intros c'. rewrite Hw2, Hw1. rewrite <- app_assoc. f_equal.
    destruct Hnd as [->|[Hni _]%NoDup_cons]; [by repeat case_decide|].
    destruct (decide (c' = c)) as [->|Hne].
    + rewrite (decide_False (P := c ∈ l)), (decide_True (P := c ∈ c :: l)) by set_solver.
      apply app_nil_r.
    + cbn. by destruct (decide (c' ∈ l)); [rewrite decide_True|rewrite decide_False]; try set_solver.
Qed.

Definition edge_added (id : Z) (l : list Z) (x : Z) (n : DagNode) : DagNode :=
  if decide (x = id) then n <| in_ ::= fun i => i ++ l |>
  else if decide (x ∈ l) then n <| out ::= fun o => o ++ [id] |> else n.

Lemma AddEdge_all id l d :
  NoDup l -> id ∉ l -> is_Some (nodes_ d !! id) ->
  (forall p, p ∈ l -> is_Some (nodes_ d !! p)) ->
  let d' := foldl (fun d p => AddEdge p id d) d l in
  cols_ d' = cols_ d /\ forall x, nodes_ d' !! x = edge_added id l x <$> nodes_ d !! x.
Proof.
  intros Hnd Hid Hsome Hall. revert d Hsome Hall.
  induction l as [|p l IH]; intros d Hsome Hall; cbn.
  { split; [done|]. intros x. unfold edge_added.
    destruct (nodes_ d !! x) as [[i o n]|]; cbn; [|done].
    rewrite (decide_False (P := x ∈ [])) by set_solver.
    destruct (decide (x = id)); cbn; by rewrite ?app_nil_r. }
  apply NoDup_cons in Hnd as [Hp Hnd]. apply not_elem_of_cons in Hid as [Hne Hid].
  set (d1 := AddEdge p id d).
  assert (nodes_ d1 = alter (AddIn p) id (alter (AddOut id) p (nodes_ d))) as Hd1.
  { unfold d1, AddEdge, GetOrCreateDagNode.
    destruct (Hall p ltac:(set_solver)) as [np ->].
    destruct Hsome as [nid Hid']. by rewrite Hid'. }
  assert (cols_ d1 = cols_ d) as Hc1.
  { unfold d1, AddEdge, GetOrCreateDagNode. destruct (nodes_ d !! p); cbn.
    - by destruct (nodes_ d !! id).
    - destruct (<[p:=mkDagNode p]> (nodes_ d) !! id); done. }
  destruct (IH Hnd Hid d1) as [HIHc HIHn].
  { rewrite Hd1, lookup_alter_eq, lookup_alter_ne by done.
    destruct Hsome as [n ->]. by eexists. }
  { intros q Hq. rewrite Hd1, lookup_alter_ne by (intros ->; set_solver).
    rewrite lookup_alter_ne by (intros ->; set_solver). apply Hall. set_solver. }
  split; [congruence|]. intros x. rewrite HIHn, Hd1. unfold edge_added.
  destruct (decide (x = id)) as [->|Hx].
  - rewrite lookup_alter_eq, lookup_alter_ne by done.
    destruct (nodes_ d !! id) as [[i o n]|]; cbn; [|done]. unfold AddIn. cbn.
    by rewrite <- app_assoc.
  - rewrite lookup_alter_ne by done. destruct (decide (x = p)) as [->|Hxp].
    + rewrite lookup_alter_eq. destruct (nodes_ d !! p) as [[i o n]|]; cbn; [|done].
      rewrite (decide_False (P := p ∈ l)), (decide_True (P := p ∈ p :: l)) by set_solver.
      done.
    + rewrite lookup_alter_ne by done. destruct (nodes_ d !! x) as [[i o n]|]; cbn; [|done].
      destruct (decide (x ∈ l)); [rewrite decide_True by set_solver|rewrite decide_False by set_solver];
        done.
Qed.

Lemma build_snoc ps p :
  build (ps ++ [p]) = AddDagNode (Z.of_nat (length ps)) p.1 p.2 (build ps).
Proof.
  unfold build. rewrite foldl_snoc.
  assert (forall i d, (foldl (fun '(i, d) p => (i + 1, AddDagNode i p.1 p.2 d)) (i, d) ps).1
    = i + Z.of_nat (length ps)) as Hi.
  { induction ps as [|q ps IH]; intros i d; cbn; [lia|]. rewrite IH. cbn. lia. }
  specialize (Hi 0 empty_dag). rewrite Z.add_0_l in Hi. rewrite <- Hi.
  by destruct (foldl _ _ ps).
Qed.

Definition graph_of (ps : list plan_rw) (d : Dag) : Prop :=
  (forall c, wq d c = writers ps c) /\
  (forall i, nodes_ d !! i =
     if decide (0 <= i < Z.of_nat (length ps)) then Some (spec_node ps i) else None).

Lemma AddDagNode_graph ps p d :
  NoDup p.2 -> graph_of ps d ->
  graph_of (ps ++ [p]) (AddDagNode (Z.of_nat (length ps)) p.1 p.2 d).
Proof.
  intros Hnd [Hw Hn]. set (id := Z.of_nat (length ps)). unfold AddDagNode.
  assert (nodes_ d !! id = None) as Hnone by (rewrite Hn, decide_False by lia; done).
  assert (GetOrCreateDagNode id d = d <| nodes_ ::= <[id := mkDagNode id]> |>) as ->
    by (unfold GetOrCreateDagNode; by rewrite Hnone).
  set (d0 := d <| nodes_ ::= <[id := mkDagNode id]> |>).
  destruct (foldl (visit (AppendRead id)) (d0, ∅) p.1) as [d1 ds1] eqn:E1.
  assert (forall c, -1 ∉ wq d0 c) as Hneg.
  { intros c Hc. change (wq d0 c) with (wq d c) in Hc. rewrite Hw in Hc.
    apply writers_lt in Hc. lia. }
  apply (visit_all _ []) in E1 as (Hn1 & Hds1 & Hw1);
    [|done|set_solver|by left|intros col; cbn; by rewrite app_nil_r].
  destruct (foldl (visit (AppendWrite id)) (d1, ds1) p.2) as [d2 ds2] eqn:E2.
  assert (forall c, wq d1 c = wq d0 c) as Hw1'.
  { intros c. rewrite Hw1. case_decide; by rewrite app_nil_r. }
  apply (visit_all _ [id]) in E2 as (Hn2 & Hds2 & Hw2);
    [|intros c; by rewrite Hw1'|set_unfold; lia|by right|done].
  assert (forall c, wq d0 c = writers ps c) as Hw0 by apply Hw.
  assert (ds2 = deps ps p) as ->.
  { apply set_eq. intros i. rewrite Hds2, Hds1, elem_of_deps.
    setoid_rewrite Hw1'. setoid_rewrite Hw0. setoid_rewrite elem_of_app.
    clear. split; [|intros (c & [?|?] & ?)]; [intros [[?|(c & ? & ?)]|(c & ? & ?)]|..];
      [set_solver|by eauto..|left; right; eauto|right; eauto]. }
  assert (nodes_ d2 = <[id := mkDagNode id]> (nodes_ d)) as Hn2' by (by rewrite Hn2, Hn1).
  assert (id ∉ members (deps ps p)) as Hid.
  { rewrite elem_of_members. intros Hin%deps_lt. lia. }
  destruct (AddEdge_all id (members (deps ps p)) d2) as [Hc Hx];
    [apply NoDup_members|done|rewrite Hn2', lookup_insert_eq; eauto| |].
  { intros q Hq%elem_of_members%deps_lt. rewrite Hn2', lookup_insert_ne by lia.
    rewrite Hn, decide_True by lia. eauto. }
  split.
  - intros c. unfold wq. rewrite Hc. fold (wq d2 c).
    rewrite Hw2, Hw1', Hw0, writers_snoc. done.
  - intros i. rewrite Hx, Hn2'. rewrite length_app. cbn [length].
    destruct (decide (i = id)) as [->|Hne].
    + rewrite lookup_insert_eq, decide_True by lia. cbn. f_equal. unfold edge_added.
      rewrite decide_True by done. unfold spec_node. cbn. f_equal.
      * symmetry. rewrite succs_snoc. rewrite decide_False by (intros H%deps_lt; lia).
        rewrite app_nil_r. apply succs_ge. lia.
      * by rewrite preds_last.
    + rewrite lookup_insert_ne, Hn by done.
      destruct (decide (0 <= i < Z.of_nat (length ps))) as [Hlt|Hge].
      * rewrite decide_True by lia. cbn. f_equal. unfold edge_added.
        rewrite decide_False by done. unfold spec_node. rewrite succs_snoc, preds_snoc by lia.
        destruct (decide (i ∈ deps ps p));
          [rewrite decide_True by by rewrite elem_of_members
          |rewrite decide_False by by rewrite elem_of_members]; cbn; by rewrite ?app_nil_r.
      * rewrite decide_False by lia. done.
Qed.

Theorem build_graph ps : well_written ps -> graph_of ps (build ps).
Proof.
  induction ps as [|p ps IH] using rev_ind; intros Hw.
  - split; [intros c; reflexivity|]. intros i. rewrite decide_False by (cbn; lia).
    apply lookup_empty.
  - apply Forall_app in Hw as [Hw Hp]. rewrite Forall_singleton in Hp.
    rewrite build_snoc. apply AddDagNode_graph; [exact Hp|by apply IH].
Qed.


(** ** The visitor *)

(** The predecessors of [i] that are still in the set [R] of unfinished plans. *)
Definition waiting (ps : list plan_rw) (R : gset Z) (i : Z) : list Z :=
  filter (fun p => p ∈ R) (preds ps i).

(** The state of the visitor when the plans of [R] remain: it is consistent with the
    graph, and a plan remains whenever one of its predecessors does. *)
Record visits (ps : list plan_rw) (R : gset Z) (v : DagVistor) : Prop := {
  visits_range : forall i, i ∈ R -> 0 <= i < Z.of_nat (length ps);
  visits_nodes : forall i, v_nodes v !! i = if decide (i ∈ R) then Some (spec_node ps i) else None;
  visits_degrees : forall i, indegrees_ v !! i =
    if decide (i ∈ R) then Some (Z.of_nat (length (waiting ps R i))) else None;
  visits_closed : forall p i, p ∈ R -> i ∈ succs ps p -> i ∈ R }.

(** The remaining plans none of whose predecessors remain, in increasing order. *)
Definition ready (ps : list plan_rw) (R : gset Z) : list Z :=
  filter (fun i => waiting ps R i = []) (members R).

Definition all_plans (ps : list plan_rw) : gset Z :=
  list_to_set (seqZ 0 (Z.of_nat (length ps))).

Lemma elem_of_all_plans ps i : i ∈ all_plans ps <-> 0 <= i < Z.of_nat (length ps).
Proof. unfold all_plans. by rewrite elem_of_list_to_set, elem_of_seqZ. Qed.

Lemma waiting_all ps i : 0 <= i < Z.of_nat (length ps) -> waiting ps (all_plans ps) i = preds ps i.
Proof.
  intros Hi. unfold waiting. rewrite (filter_ext_in _ (fun _ => True)).
  - induction (preds ps i) as [|x l IH]; [done|]. rewrite filter_cons_True by done. by f_equal.
  - intros p Hp%preds_lt. rewrite elem_of_all_plans. split; [done|lia].
Qed.

Lemma mkDagVistor_visits ps : well_written ps -> visits ps (all_plans ps) (mkDagVistor (build ps)).
Proof.
  intros [_ Hn]%build_graph. split.
  - intros i. apply elem_of_all_plans.
  - intros i. cbn. rewrite Hn. do 2 case_decide; rewrite elem_of_all_plans in *; done.
  - intros i. cbn [mkDagVistor indegrees_].
    assert (forall l (m : gmap Z Z), (forall k n, (k, n) ∈ l -> n = spec_node ps k /\ 0 <= k < Z.of_nat (length ps)) ->
      foldl (fun ds kv => <[node_id kv.2 := Z.of_nat (length (in_ kv.2))]> ds) m l !! i =
      if decide (i ∈ l.*1) then Some (Z.of_nat (length (waiting ps (all_plans ps) i)))
      else m !! i) as Hfold.
    { intros l. induction l as [|[k n] l IH]; intros m Hl; [by rewrite decide_False by set_solver|].
      cbn. rewrite IH by (intros; apply Hl; set_solver).
      destruct (Hl k n) as [-> Hk]; [set_solver|]. cbn.
      destruct (decide (i ∈ l.*1)); [by rewrite decide_True by set_solver|].
      destruct (decide (i = k)) as [->|].
      - by rewrite decide_True, lookup_insert_eq, waiting_all by set_solver.
      - by rewrite decide_False, lookup_insert_ne by set_solver. }
    rewrite Hfold.
    + apply decide_ext. rewrite elem_of_all_plans. fold (keys (nodes_ (build ps))).
      rewrite elem_of_keys, Hn. case_decide; rewrite ?is_Some_alt; done.
    + intros k n Hk%elem_of_entries. rewrite Hn in Hk. case_decide; by simplify_eq.
  - intros p i _ [_ ?]%elem_of_succs. by apply elem_of_all_plans.
Qed.

(** [GetFront] lists exactly the ready plans and changes nothing. *)
Lemma GetFront_ready ps R v :
  visits ps R v -> GetFront v = Ok (ready ps R, v, []).
Proof.
  intros [Hr Hn Hd Hc].
  assert (forall l, (forall k n, (k, n) ∈ l -> k ∈ R /\ n = spec_node ps k) ->
    front_of l v = Ok (filter (fun i => waiting ps R i = []) l.*1, v, [])) as Hfront.
  { intros l. induction l as [|[k n] l IH]; intros Hl; [done|].
    destruct (Hl k n) as [Hk ->]; [set_solver|].
    cbn [front_of]. unfold bind, modify, gets, ret. cbn.
    rewrite touch_present by (rewrite Hd, decide_True by done; eauto).
    destruct v as [nodes deg cols]. cbn in *. rewrite IH by (intros; apply Hl; set_solver).
    unfold lookup_or. rewrite Hd, decide_True by done. cbn.
    destruct (waiting ps R k); [by rewrite decide_True by done|]. rewrite decide_False by done. done. }
  unfold GetFront, bind, gets. rewrite Hfront.
  - unfold ready. repeat f_equal. apply keys_members. intros k. rewrite Hn.
    case_decide; rewrite ?is_Some_alt; done.
  - intros k n Hk%elem_of_entries. rewrite Hn in Hk. case_decide; by simplify_eq.
Qed.

Lemma waiting_delete ps R id j :
  j ∈ succs ps id -> id ∈ R ->
  length (waiting ps R j) = S (length (waiting ps (R ∖ {[id]}) j)).
Proof.
  intros [Hp _]%elem_of_succs HR. unfold waiting.
  pose proof (NoDup_preds ps j) as Hnd. revert Hp Hnd.
  induction (preds ps j) as [|q l IH]; intros Hp Hnd; [set_solver|].
  apply NoDup_cons in Hnd as [Hq Hnd]. rewrite !filter_cons.
  destruct (decide (q = id)) as [->|Hne].
  - rewrite decide_True, decide_False by set_solver. cbn. do 2 f_equal.
    apply filter_ext_in. set_solver.
  - specialize (IH ltac:(set_solver) Hnd).
    destruct (decide (q ∈ R)); [rewrite decide_True by set_solver|rewrite decide_False by set_solver].
    + cbn. by rewrite IH.
    + done.
Qed.

Lemma waiting_delete_ne ps R id j :
  id ∉ preds ps j -> waiting ps (R ∖ {[id]}) j = waiting ps R j.
Proof. intros Hp. apply filter_ext_in. intros x Hx. set_solver. Qed.

(** Finishing a ready plan fails no CHECK and removes just that plan. *)
Lemma Finish_ready ps R v id :
  visits ps R v -> id ∈ ready ps R ->
  wp none (Finish id) v (fun _ v' _ => visits ps (R ∖ {[id]}) v').
Proof.
  intros [Hr Hn Hd Hc] [Hw Hid%elem_of_members]%list_elem_of_filter.
  unfold Finish. wstep. wstep. cbn. rewrite touch_present by (rewrite Hd, decide_True by done; eauto).
  wstep. wstep. cbn. wstep. apply wp_check; cycle 1.
  { unfold lookup_or. rewrite Hd, decide_True, Hw by done. done. }
  intros _. wstep. wstep. cbn. rewrite touch_present by (rewrite Hn, decide_True by done; eauto).
  wstep. wstep. cbn. unfold lookup_or. rewrite Hn, decide_True by done. cbn. wstep.
  set (I := fun (l : list Z) (v' : DagVistor) (_ : list Empty_set) =>
    NoDup l /\ (forall j, j ∈ l -> j ∈ succs ps id) /\ v_nodes v' = v_nodes v /\ forall j, indegrees_ v' !! j = if decide (j ∈ R) then
       Some (Z.of_nat (length (waiting ps (if decide (j ∈ l) then R else R ∖ {[id]}) j))) else None).
  apply (wp_for_each none I).
  - split_and!; [apply NoDup_succs|done|done|]. intros j. cbn. rewrite Hd.
    destruct (decide (j ∈ R)) as [HjR|]; [|done]. destruct (decide (j ∈ succs ps id)); [done|].
    rewrite waiting_delete_ne; [done|]. intros Hp. apply n. apply elem_of_succs. auto.
  - intros j l v' os (Hnd & Hsub & Hvn & Hvd). apply NoDup_cons in Hnd as [Hj Hnd].
    assert (j ∈ R) as HjR by (eapply Hc; [done|apply Hsub; set_solver]).
    pose proof (waiting_delete ps R id j ltac:(set_solver) Hid) as Hlen.
    wstep. wstep. wstep. wstep. cbn. rewrite lookup_insert_eq. cbn.
    rewrite Hvd, decide_True, decide_True by set_solver. cbn.
    apply wp_check; intros Hck; [|lia]. split_and!; [done|set_solver|done|]. intros i. cbn.
    destruct (decide (i = j)) as [->|Hij].
    + rewrite lookup_insert_eq, decide_True, decide_False by done. f_equal. lia.
    + rewrite lookup_insert_ne, Hvd by done. destruct (decide (i ∈ R)); [|done].
      do 4 f_equal. apply decide_ext. set_solver.
  - intros v' os (_ & _ & Hvn & Hvd). wstep. split.
    + set_solver.
    + intros i. cbn. rewrite Hvn. destruct (decide (i = id)) as [->|Hne].
      * by rewrite lookup_delete_eq, decide_False by set_solver.
      * rewrite lookup_delete_ne, Hn by done. apply decide_ext. set_solver.
    + intros i. cbn. destruct (decide (i = id)) as [->|Hne].
      * by rewrite lookup_delete_eq, decide_False by set_solver.
      * rewrite lookup_delete_ne, Hvd by done. rewrite (decide_False (P := i ∈ [])) by set_solver.
        apply decide_ext. set_solver.
    + intros p i Hp Hi. assert (i ∈ R) by set_solver.
      assert (i <> id); [|set_solver]. intros ->. apply elem_of_succs in Hi as [Hi _].
      assert (p ∈ waiting ps R id) as Hpw by (apply list_elem_of_filter; set_solver).
      rewrite Hw in Hpw. set_solver.
Qed.

(** ** What readiness guarantees *)

(** The least remaining plan is ready: the front is never empty while plans remain. *)
Lemma least_ready ps R i :
  i ∈ R -> (forall j, j ∈ R -> i <= j) -> i ∈ ready ps R.
Proof.
  intros Hi Hmin. apply list_elem_of_filter. split; [|by apply elem_of_members].
  apply elem_of_nil_inv. intros p [HpR Hp%preds_lt]%list_elem_of_filter.
  specialize (Hmin p HpR). lia.
Qed.

Lemma least_exists (R : gset Z) : R <> ∅ -> exists i, i ∈ R /\ forall j, j ∈ R -> i <= j.
Proof.
  intros Hne. destruct (members R) as [|i l] eqn:E.
  - destruct Hne. apply elem_of_equiv_empty_L. intros x Hx%elem_of_members. rewrite E in Hx. set_solver.
  - exists i. split; [apply elem_of_members; rewrite E; set_solver|].
    intros j Hj%elem_of_members. rewrite E in Hj.
    assert (StronglySorted Z.le (i :: l)) as Hs.
    { rewrite <- E. unfold members. apply StronglySorted_merge_sort; apply _. }
    apply StronglySorted_inv in Hs as [_ Hs]. rewrite Forall_forall in Hs.
    apply elem_of_cons in Hj as [->|Hj]; [lia|by apply Hs].
Qed.

Lemma ready_exists ps R : R <> ∅ -> exists i, i ∈ ready ps R.
Proof. intros (i & Hi & Hmin)%least_exists. exists i. by apply least_ready. Qed.

Lemma elem_of_ready ps R i : i ∈ ready ps R -> i ∈ R.
Proof. by intros [_ ?%elem_of_members]%list_elem_of_filter. Qed.

(** Plan [j] reads or writes collection [c]. *)
Definition touches (ps : list plan_rw) (j c : Z) : Prop :=
  0 <= j /\ exists p, ps !! Z.to_nat j = Some p /\ c ∈ p.1 ++ p.2.

Lemma last_writer ps c i :
  i ∈ writers ps c -> exists w, last (writers ps c) = Some w /\ i <= w.
Proof.
  induction ps as [|p ps IH] using rev_ind; [set_solver|]. rewrite writers_snoc.
  intros Hi. destruct (decide (c ∈ p.2)).
  - rewrite last_snoc. eexists. split; [done|].
    apply elem_of_app in Hi as [Hi%writers_lt|Hi%list_elem_of_singleton]; lia.
  - rewrite app_nil_r in *. auto.
Qed.

Lemma writers_take ps c i j :
  0 <= i < j -> i ∈ writers ps c -> i ∈ writers (take (Z.to_nat j) ps) c.
Proof.
  intros Hij (Hi & p & Hp & Hc)%elem_of_writers. apply elem_of_writers.
  split; [done|]. exists p. by rewrite lookup_take_lt by lia.
Qed.

(** Once a plan is ready or finished, every earlier writer of a collection it touches
    is finished, not only the last one, which is the only one with an edge. *)
Lemma earlier_writers_finished ps R i j c :
  (forall p k, p ∈ R -> k ∈ succs ps p -> k ∈ R) ->
  touches ps j c -> i ∈ writers ps c -> i < j ->
  waiting ps R j = [] \/ j ∉ R -> i ∉ R.
Proof.
  intros Hc Hj Hi. assert (0 <= j) as Hj0 by apply Hj. revert Hj.
  pattern j. apply Z_lt_induction; [clear j Hj0|done].
  intros j IH [Hj0 (p & Hp & Hcp)] Hij Hdone.
  assert (0 <= i) by (apply writers_lt in Hi; lia).
  destruct (last_writer (take (Z.to_nat j) ps) c i) as (w & Hw & Hiw);
    [apply writers_take; [lia|done]|].
  assert (w ∈ preds ps j) as Hwp.
  { unfold preds. rewrite Hp. apply elem_of_members, elem_of_deps. eauto. }
  assert (w ∉ R) as HwR.
  { intros HwR. destruct Hdone as [Hw0|HjR].
    - assert (w ∈ waiting ps R j) by by apply list_elem_of_filter. rewrite Hw0 in *. set_solver.
    - apply HjR. apply (Hc w); [done|]. apply elem_of_succs. split; [done|].
      apply lookup_lt_Some in Hp. lia. }
  destruct (decide (i = w)) as [->|Hne]; [done|].
  pose proof (preds_lt _ _ _ Hwp). apply (IH w); [lia| |lia|by right].
  apply last_Some_elem_of, elem_of_writers in Hw as (_ & q & Hq & Hcq).
  split; [lia|]. exists q. rewrite lookup_take_lt in Hq by lia. split; [done|].
  apply elem_of_app. by right.
Qed.
