(* ===== verification/DagRunner.v ===== *)
(** * The plan runners (core/scheduler/dag_runner.hpp, core/scheduler/dag_runner.cpp)

    [AbstractDagRunner] is the interface through which the scheduler asks for runnable
    plans and reports finished ones.  It is the class [DagRunner]; [DagRunnerLaws] is
    what it promises a client that polls after each finished plan, and both runners,
    [SequentialDagRunner] and [WideDagRunner], keep the promise.  The section [Client]
    proves, from the promise alone, that a program runs to its end. *)

From S2P Require Import Prelude Dag.

(** ** The interface *)

Class DagRunner (D : Type) := {
  make_runner : Dag -> D;
  GetRunnablePlans : M D Empty_set (list Z);
  FinishRun : Z -> M D Empty_set unit;
  GetNumRemainingPlans : D -> Z }.

(** [drives ps R run polled d]: of the program [ps] the plans [R] are unfinished and
    the plans [run] are handed out; [polled] tells whether [GetRunnablePlans] was
    called since the last [Finish]. *)
Class DagRunnerLaws (D : Type) `{DagRunner D} := {
  drives : list plan_rw -> gset Z -> gset Z -> bool -> D -> Prop;
  start_ok ps :
    well_written ps -> drives ps (all_plans ps) ∅ false (make_runner (build ps));
  remaining_ok ps R run b d : drives ps R run b d -> GetNumRemainingPlans d = Z.of_nat (size R);
  running_ok ps R run b d i : drives ps R run b d -> i ∈ run -> i ∈ ready ps R;
  closed_ok ps R run b d p i : drives ps R run b d -> p ∈ R -> i ∈ succs ps p -> i ∈ R;
  poll_ok ps R run d : drives ps R run false d -> R <> ∅ ->
    wp none GetRunnablePlans d (fun l d' _ =>
      NoDup l /\ (forall i, i ∈ l -> i ∉ run) /\ drives ps R (run ∪ list_to_set l) true d');
  finish_ok ps R run d i : drives ps R run true d -> i ∈ run ->
    wp none (FinishRun i) d (fun _ d' _ => drives ps (R ∖ {[i]}) (run ∖ {[i]}) false d');
  progress_ok ps R run d : drives ps R run true d -> R <> ∅ -> run <> ∅ }.

Definition lift_visitor {D A} (sub : D -> DagVistor) (upd : DagVistor -> D -> D)
    (m : VM A) : M D Empty_set A := zoom sub upd id m.

(** ** SequentialDagRunner *)

Record SequentialDagRunner := {
  seq_visitor : DagVistor; seq_plan_count_ : Z; seq_num_plans_ : Z }.
#[export] Instance eta_Seq : Eta SequentialDagRunner := fun r =>
  {| seq_visitor := seq_visitor r; seq_plan_count_ := seq_plan_count_ r;
     seq_num_plans_ := seq_num_plans_ r |}.

Definition mkSequentialDagRunner (dag : Dag) : SequentialDagRunner :=
  {| seq_visitor := mkDagVistor dag;
     seq_num_plans_ := GetNumDagNodes (mkDagVistor dag);
     seq_plan_count_ := 0 |}.

Definition Sequential_GetRunnablePlans : M SequentialDagRunner Empty_set (list Z) :=
  f <-- lift_visitor seq_visitor (fun v r => r <| seq_visitor := v |>) GetFront ;;
  plan_count <-- gets seq_plan_count_ ;;
  check (bool_decide (plan_count ∈ f)) "find(f, plan_count_) != f.end()" ;;;
  ret [plan_count].

Definition Sequential_Finish (plan_id : Z) : M SequentialDagRunner Empty_set unit :=
  plan_count <-- gets seq_plan_count_ ;;
  check (plan_id =? plan_count) "plan_id == plan_count_" ;;;
  lift_visitor seq_visitor (fun v r => r <| seq_visitor := v |>) (Finish plan_id) ;;;
  modify (fun r => r <| seq_plan_count_ ::= fun c => c + 1 |>).

Definition Sequential_GetNumRemainingPlans (r : SequentialDagRunner) : Z :=
  GetNumDagNodes (seq_visitor r).

#[export] Instance DagRunner_Sequential : DagRunner SequentialDagRunner := {
  make_runner := mkSequentialDagRunner;
  GetRunnablePlans := Sequential_GetRunnablePlans;
  FinishRun := Sequential_Finish;
  GetNumRemainingPlans := Sequential_GetNumRemainingPlans }.

(** ** WideDagRunner *)

Record WideDagRunner := {
  wide_visitor : DagVistor; wide_plan_count_ : Z; wide_num_plans_ : Z; running_ : gset Z }.
#[export] Instance eta_Wide : Eta WideDagRunner := fun r =>
  {| wide_visitor := wide_visitor r; wide_plan_count_ := wide_plan_count_ r;
     wide_num_plans_ := wide_num_plans_ r; running_ := running_ r |}.

Definition mkWideDagRunner (dag : Dag) : WideDagRunner :=
  {| wide_visitor := mkDagVistor dag;
     wide_num_plans_ := GetNumDagNodes (mkDagVistor dag);
     wide_plan_count_ := 0; running_ := ∅ |}.

(** The loop over the front: plans not yet running are returned and marked. *)
Fixpoint take_new (f : list Z) : M WideDagRunner Empty_set (list Z) :=
  match f with
  | [] => ret []
  | plan :: f' =>
      running <-- gets running_ ;;
      if bool_decide (plan ∈ running) then take_new f'
      else modify (fun r => r <| running_ ::= fun s => {[plan]} ∪ s |>) ;;;
           rest <-- take_new f' ;; ret (plan :: rest)
  end.

Definition Wide_GetRunnablePlans : M WideDagRunner Empty_set (list Z) :=
  f <-- lift_visitor wide_visitor (fun v r => r <| wide_visitor := v |>) GetFront ;;
  take_new f.

Definition Wide_Finish (plan_id : Z) : M WideDagRunner Empty_set unit :=
  running <-- gets running_ ;;
  check (bool_decide (plan_id ∈ running)) "running_.find(plan_id) != running_.end()" ;;;
  modify (fun r => r <| running_ ::= fun s => s ∖ {[plan_id]} |>) ;;;
  lift_visitor wide_visitor (fun v r => r <| wide_visitor := v |>) (Finish plan_id).

Definition Wide_GetNumRemainingPlans (r : WideDagRunner) : Z :=
  GetNumDagNodes (wide_visitor r).

#[export] Instance DagRunner_Wide : DagRunner WideDagRunner := {
  make_runner := mkWideDagRunner;
  GetRunnablePlans := Wide_GetRunnablePlans;
  FinishRun := Wide_Finish;
  GetNumRemainingPlans := Wide_GetNumRemainingPlans }.

(** ** Both runners keep the promise *)

Lemma visits_size ps R v : visits ps R v -> GetNumDagNodes v = Z.of_nat (size R).
Proof.
  intros [_ Hn _ _]. unfold GetNumDagNodes. f_equal. rewrite <- (size_dom (D := gset Z)).
  f_equal. apply set_eq. intros i. rewrite elem_of_dom, Hn.
  case_decide; rewrite ?is_Some_alt; done.
Qed.

Lemma lift_GetFront {D} (sub : D -> DagVistor) upd ps R d :
  visits ps R (sub d) -> upd (sub d) d = d ->
  lift_visitor sub upd GetFront d = Ok (ready ps R, d, []).
Proof. intros Hv Hid. unfold lift_visitor, zoom. rewrite (GetFront_ready _ _ _ Hv). cbn. by rewrite Hid. Qed.

Lemma wp_lift_GetFront {D} (sub : D -> DagVistor) upd ps R d Q :
  visits ps R (sub d) -> upd (sub d) d = d -> Q (ready ps R) d [] ->
  wp none (lift_visitor sub upd GetFront) d Q.
Proof. intros Hv Hid HQ. unfold wp. by rewrite (lift_GetFront _ _ _ _ _ Hv Hid). Qed.

(** The sequential runner: the plans [0 .. plan_count_ - 1] are finished. *)
Definition seq_drives (ps : list plan_rw) (R run : gset Z) (polled : bool)
    (d : SequentialDagRunner) : Prop :=
  visits ps R (seq_visitor d) /\ 0 <= seq_plan_count_ d /\
  (forall i, i ∈ R <-> seq_plan_count_ d <= i < Z.of_nat (length ps)) /\
  (polled = true -> R <> ∅) /\
  run = if polled then {[seq_plan_count_ d]} else ∅.

Lemma seq_front ps R run polled d :
  seq_drives ps R run polled d -> R <> ∅ -> seq_plan_count_ d ∈ ready ps R.
Proof.
  intros (Hv & H0 & HR & _ & _) Hne. apply least_ready; [|intros j Hj; apply HR in Hj; lia].
  apply HR. apply set_choose_L in Hne as [i Hi%HR]. lia.
Qed.

#[export] Instance DagRunnerLaws_Sequential : DagRunnerLaws SequentialDagRunner.
Proof.
  refine {| drives := seq_drives |}.
  - intros ps Hw. split_and!; [by apply mkDagVistor_visits|done| |done|done].
    intros i. rewrite elem_of_all_plans. cbn. lia.
  - intros ps R run b d (Hv & _). by apply (visits_size ps).
  - intros ps R run b d i Hd Hi. pose proof Hd as (_ & _ & _ & Hne & ->).
    destruct b; [|set_solver]. apply elem_of_singleton in Hi as ->.
    eapply seq_front; [exact Hd|auto].
  - intros ps R run b d p i (Hv & _). apply (visits_closed _ _ _ Hv).
  - intros ps R run d Hd Hne. pose proof (seq_front _ _ _ _ _ Hd Hne) as Hin.
    destruct Hd as (Hv & H0 & HR & _ & ->). unfold GetRunnablePlans. cbn.
    unfold Sequential_GetRunnablePlans. wstep.
    eapply wp_lift_GetFront; [exact Hv|by destruct d|]. wstep. wstep. wstep.
    apply wp_check; [intros _|by rewrite bool_decide_eq_true_2 by done]. wstep.
    split_and!; [apply NoDup_singleton|set_solver|].
    split_and!; [done|done|done|done|set_solver].
  - intros ps R run d i Hd Hi. pose proof Hd as (Hv & H0 & HR & Hne & ->).
    apply elem_of_singleton in Hi as ->. cbn. unfold Sequential_Finish.
    wstep. wstep. wstep. apply wp_check; [intros _|by rewrite Z.eqb_refl]. wstep.
    apply zoom_wp. eapply wp_mono.
    { apply Finish_ready; [exact Hv|]. eapply seq_front; [exact Hd|auto]. }
    intros [] v' os Hv'. wstep. split_and!; cbn; [done|lia| |done|set_solver].
    intros i. rewrite elem_of_difference, elem_of_singleton, HR. lia.
  - intros ps R run d (_ & _ & _ & _ & ->) _. set_solver.
Defined.

(** The wide runner: what runs is ready, and after a poll all that is ready runs. *)
Definition wide_drives (ps : list plan_rw) (R run : gset Z) (polled : bool)
    (d : WideDagRunner) : Prop :=
  visits ps R (wide_visitor d) /\ running_ d = run /\
  (forall i, i ∈ run -> i ∈ ready ps R) /\
  (polled = true -> forall i, i ∈ ready ps R -> i ∈ run).

Lemma take_new_spec f d :
  wp none (take_new f) d (fun l d' _ =>
    (NoDup f -> NoDup l) /\ (forall i, i ∈ l <-> i ∈ f /\ i ∉ running_ d) /\
    wide_visitor d' = wide_visitor d /\ running_ d' = running_ d ∪ list_to_set l).
Proof.
  revert d. induction f as [|x f IH]; intros d; cbn [take_new].
  - wstep. split_and!; [done|set_solver|done|set_solver].
  - wstep. wstep. wstep.
    + apply bool_decide_eq_true in Hif. eapply wp_mono; [apply IH|].
      intros l d' _ (Hnd & Hl & Hv & Hr). split_and!; [|set_solver|done|done].
      intros [_ ?]%NoDup_cons. auto.
    + apply bool_decide_eq_false in Hif. wstep. wstep. wstep. eapply wp_mono; [apply IH|].
      intros l d' _ (Hnd & Hl & Hv & Hr). wstep. cbn in *.
      split_and!; [| |done|rewrite Hr; set_solver].
      * intros [Hx ?]%NoDup_cons. apply NoDup_cons. split; [set_solver|auto].
      * intros i. rewrite !elem_of_cons, Hl. clear -Hif. destruct (decide (i = x)) as [->|]; set_solver.
Qed.

Lemma ready_mono ps R i j :
  i ∈ R -> j ∈ ready ps R -> j <> i -> j ∈ ready ps (R ∖ {[i]}).
Proof.
  intros Hi [Hw Hj%elem_of_members]%list_elem_of_filter Hne. apply list_elem_of_filter.
  split; [|apply elem_of_members; set_solver].
  apply elem_of_nil_inv. intros p [Hp HpR]%list_elem_of_filter.
  assert (p ∈ waiting ps R j) as Hp' by (apply list_elem_of_filter; set_solver).
  rewrite Hw in Hp'. set_solver.
Qed.

Lemma NoDup_ready ps R : NoDup (ready ps R).
Proof. apply NoDup_filter, NoDup_members. Qed.

#[export] Instance DagRunnerLaws_Wide : DagRunnerLaws WideDagRunner.
Proof.
  refine {| drives := wide_drives |}.
  - intros ps Hw. split_and!; [by apply mkDagVistor_visits|done|set_solver|done].
  - intros ps R run b d (Hv & _). by apply (visits_size ps).
  - intros ps R run b d i (_ & _ & Hr & _). apply Hr.
  - intros ps R run b d p i (Hv & _). apply (visits_closed _ _ _ Hv).
  - intros ps R run d (Hv & <- & Hr & _) Hne. cbn. unfold Wide_GetRunnablePlans. wstep.
    eapply wp_lift_GetFront; [exact Hv|by destruct d|].
    eapply wp_mono; [apply take_new_spec|]. intros l d' _ (Hnd & Hl & Hv' & Hr').
    split_and!; [apply Hnd, NoDup_ready|set_solver|]. split_and!; [by rewrite Hv'|done| |].
    + intros i. rewrite elem_of_union, elem_of_list_to_set, Hl. naive_solver.
    + intros _ i Hi. rewrite elem_of_union, elem_of_list_to_set, Hl.
      destruct (decide (i ∈ running_ d)); auto.
  - intros ps R run d i (Hv & <- & Hr & Hall) Hi. cbn. unfold Wide_Finish.
    wstep. wstep. wstep. apply wp_check; [intros _|by rewrite bool_decide_eq_true_2 by done].
    wstep. wstep. apply zoom_wp. eapply wp_mono; [apply Finish_ready; [exact Hv|auto]|].
    intros [] v' os Hv'. split_and!; [done|done| |done].
    intros j [Hj Hne%not_elem_of_singleton]%elem_of_difference.
    apply ready_mono; [by apply (elem_of_ready ps), Hr|auto|done].
  - intros ps R run d (_ & _ & _ & Hall) (i & Hi)%(ready_exists ps). specialize (Hall eq_refl i Hi).
    set_solver.
Defined.

(** ** Running a program

    What the scheduler does with a runner (Scheduler::ProcessMsg on kFinishPlan and
    Scheduler::TryRunPlan): when a running plan finishes it is reported, and unless no
    plan remains the newly runnable ones are started.  [pick] decides which of the
    running plans finishes next. *)

Inductive run_event := Started (i : Z) | Done (i : Z).

Definition started (t : list run_event) : list Z :=
  omap (fun e => match e with Started i => Some i | Done _ => None end) t.
Definition finished (t : list run_event) : list Z :=
  omap (fun e => match e with Started _ => None | Done i => Some i end) t.

Section Client.
Context {D : Type} `{DagRunner D}.

Definition TryRun : M D Empty_set (list Z) :=
  n <-- gets GetNumRemainingPlans ;;
  if n =? 0 then ret [] else GetRunnablePlans.

Fixpoint drive (fuel : nat) (pick : list Z -> Z) (run : list Z) (d : D) : res (list run_event) :=
  match fuel, run with
  | O, _ => Err (Undefined "out of fuel")
  | S _, [] => Ok []
  | S fuel', _ =>
      let x := pick run in
      match (FinishRun x ;;; TryRun) d with
      | Err e => Err e
      | Ok (l, d', _) =>
          match drive fuel' pick (filter (fun y => y <> x) run ++ l) d' with
          | Err e => Err e
          | Ok t => Ok (Done x :: (Started <$> l) ++ t)
          end
      end
  end.

(** Register the program, then drive it. *)
Definition run_program (pick : list Z -> Z) (ps : list plan_rw) : res (list run_event) :=
  match TryRun (make_runner (build ps)) with
  | Err e => Err e
  | Ok (l, d, _) =>
      match drive (S (length ps)) pick l d with
      | Err e => Err e
      | Ok t => Ok ((Started <$> l) ++ t)
      end
  end.

Context `{!DagRunnerLaws D}.

(** Every start in [t] comes after the end of all earlier writers of the collections
    the started plan touches, where the plans outside [R] ended before [t]. *)
Definition ordered (ps : list plan_rw) (R : gset Z) (t : list run_event) : Prop :=
  forall pre j post i c, t = pre ++ Started j :: post ->
    touches ps j c -> i ∈ writers ps c -> i < j -> i ∉ R \/ Done i ∈ pre.

Lemma started_app t t' : started (t ++ t') = started t ++ started t'.
Proof. apply omap_app. Qed.
Lemma finished_app t t' : finished (t ++ t') = finished t ++ finished t'.
Proof. apply omap_app. Qed.
Lemma started_Started l : started (Started <$> l) = l.
Proof. induction l as [|x l IH]; cbn; [done|]. by f_equal. Qed.
Lemma finished_Started l : finished (Started <$> l) = [].
Proof. by induction l. Qed.

Lemma TryRun_spec ps R run d :
  drives ps R run false d -> (R = ∅ -> run = ∅) ->
  wp none TryRun d (fun l d' _ =>
    NoDup l /\ (forall i, i ∈ l -> i ∉ run /\ i ∈ ready ps R) /\
    (R = ∅ /\ l = [] \/ drives ps R (run ∪ list_to_set l) true d')).
Proof.
  intros Hd Hrun. unfold TryRun. wstep. wstep. rewrite (remaining_ok _ _ _ _ _ Hd).
  destruct (decide (R = ∅)) as [->|Hne].
  - rewrite size_empty. change (Z.of_nat 0 =? 0) with true. cbn iota. wstep.
    split_and!; [constructor|set_solver|by left].
  - rewrite (proj2 (Z.eqb_neq _ _)).
    2:{ intros Hs. apply Hne, leibniz_equiv, size_empty_inv. lia. }
    eapply wp_mono; [by apply (poll_ok _ _ _ _ Hd)|]. intros l d' _ (Hnd & Hl & Hd').
    split_and!; [done| |by right]. intros i Hi. split; [auto|].
    apply (running_ok _ _ _ _ _ _ Hd'). set_solver.
Qed.

Lemma ordered_starts ps R run d l t :
  drives ps R run true d -> (forall i, i ∈ l -> i ∈ run) -> ordered ps R t ->
  ordered ps R ((Started <$> l) ++ t).
Proof.
  intros Hd Hl. induction l as [|x l IH]; intros Ht; [done|].
  intros pre j post i c Heq Htc Hi Hij. destruct pre as [|e pre]; cbn in Heq; injection Heq as <- Heq.
  - left. eapply earlier_writers_finished; [|exact Htc|exact Hi|exact Hij|left].
    + intros p k. by apply (closed_ok _ _ _ _ _ _ _ Hd).
    + pose proof (running_ok _ _ _ _ _ _ Hd (Hl x ltac:(set_solver))) as Hr.
      by apply list_elem_of_filter in Hr as [? _].
  - edestruct (IH ltac:(set_solver) Ht) as [?|?]; [exact Heq|done..|by left|right; set_solver].
Qed.

Lemma drive_spec pick ps fuel R run d :
  (forall l, l <> [] -> pick l ∈ l) ->
  R = ∅ /\ run = [] \/ drives ps R (list_to_set run) true d ->
  NoDup run -> (size R < fuel)%nat ->
  exists t, drive fuel pick run d = Ok t /\
    finished t ≡ₚ elements R /\ started t ≡ₚ elements (R ∖ list_to_set run) /\
    ordered ps R t.
Proof.
  intros Hpick. revert R run d. induction fuel as [|fuel IH]; [lia|].
  intros R run d Hd Hnd Hfuel. cbn [drive].
  assert (R = ∅ -> run = []) as Hrun.
  { intros ->. destruct Hd as [[_ ?]|Hd]; [done|]. apply elem_of_nil_inv. intros x Hx.
    pose proof (running_ok _ _ _ _ _ x Hd ltac:(set_solver)) as Hr%elem_of_ready. set_solver. }
  destruct run as [|y run'].
  { assert (R = ∅) as ->.
    { destruct Hd as [[? _]|Hd]; [done|]. destruct (decide (R = ∅)) as [|Hne]; [done|].
      by destruct (progress_ok _ _ _ _ Hd Hne). }
    exists []. split_and!; [done|by rewrite elements_empty|by rewrite empty_difference_L, elements_empty|].
    intros pre ???? Heq. by destruct pre. }
  destruct Hd as [[_ ?]|Hd]; [done|]. set (run := y :: run') in *.
  set (x := pick run). assert (x ∈ run) as Hx by (by apply Hpick).
  pose proof (running_ok _ _ _ _ _ x Hd ltac:(set_solver)) as HxR%elem_of_ready.
  set (R' := R ∖ {[x]}). set (run2 := filter (fun z => z <> x) run).
  assert (list_to_set run ∖ {[x]} =@{gset Z} list_to_set run2) as Hrun2.
  { apply set_eq. intros z. unfold run2. rewrite elem_of_list_to_set, list_elem_of_filter. set_solver. }
  assert (wp none (FinishRun x ;;; TryRun) d (fun l d' _ =>
    NoDup l /\ (forall i, i ∈ l -> i ∉ run2 /\ i ∈ ready ps R') /\
    (R' = ∅ /\ run2 = [] /\ l = [] \/ drives ps R' (list_to_set (run2 ++ l)) true d'))) as Hwp.
  { wstep. eapply wp_mono; [apply (finish_ok _ _ _ _ x Hd); set_solver|].
    intros [] d1 o1 Hd1. fold R' in Hd1. rewrite Hrun2 in Hd1.
    assert (R' = ∅ -> run2 = []) as Hrun2'.
    { intros HR'. apply elem_of_nil_inv. intros z Hz.
      pose proof (running_ok _ _ _ _ _ z Hd1 ltac:(set_solver)) as Hr%elem_of_ready. set_solver. }
    eapply wp_mono; [eapply (TryRun_spec _ _ _ _ Hd1); intros HR'; by rewrite Hrun2'|].
    intros l d' o2 (Hl1 & Hl2 & Hl3). split_and!; [done|set_solver|].
    rewrite list_to_set_app_L. naive_solver. }
  apply wp_none_Ok in Hwp as (l & d' & os & -> & Hl1 & Hl2 & Hl3).
  edestruct (IH R' (run2 ++ l) d') as (t & -> & Ht1 & Ht2 & Ht3).
  - destruct Hl3 as [(? & -> & ->)|?]; [by left|by right].
  - apply NoDup_app. split_and!; [by apply NoDup_filter|set_solver|done].
  - assert (size R = S (size R')); [|lia].
    unfold R'. rewrite size_difference by set_solver. rewrite size_singleton.
    assert (size R <> 0%nat) by (apply size_non_empty_iff; set_solver). lia.
  - exists (Done x :: (Started <$> l) ++ t). split; [done|].
    assert (R = {[x]} ∪ R') as HR by (apply union_difference_singleton_L; done).
    assert (forall i, i ∈ l -> i ∈ R') as HlR by (intros i Hi; apply (elem_of_ready ps), Hl2, Hi).
    cbn. rewrite started_app, finished_app, started_Started, finished_Started. cbn. split_and!.
    + rewrite Ht1, HR, elements_union_singleton by (unfold R'; set_solver). done.
    + rewrite Ht2. apply NoDup_Permutation; [|apply NoDup_elements|].
      * apply NoDup_app. split_and!; [done| |apply NoDup_elements].
        intros i Hi. rewrite elem_of_elements. set_solver.
      * intros i. rewrite elem_of_app, !elem_of_elements, list_to_set_app_L, <- Hrun2.
        specialize (Hl2 i). specialize (HlR i). clear -Hl2 HlR Hx Hrun2. set_unfold.
        destruct (decide (i ∈ l)); naive_solver.
    + intros [|e pre] j post i c Heq Htc Hi Hij; [done|]. injection Heq as <- Heq.
      assert (ordered ps R' ((Started <$> l) ++ t)) as Hord.
      { destruct Hl3 as [(_ & _ & ->)|Hd']; [done|].
        eapply ordered_starts; [exact Hd'| |done]. set_solver. }
      edestruct Hord as [Hn|?]; [exact Heq|done..| |right; set_solver].
      destruct (decide (i = x)) as [->|]; [right; set_solver|left; unfold R' in Hn; set_solver].
Qed.

(** C9: whatever the order in which running plans finish, a program driven through a
    runner that keeps the interface's promise runs to its end without failing a CHECK:
    every plan is started exactly once and finished exactly once, and when a plan is
    started every earlier plan that writes a collection it reads or writes has
    finished. *)
Theorem run_program_complete pick ps :
  well_written ps -> (forall l, l <> [] -> pick l ∈ l) ->
  exists t, run_program pick ps = Ok t /\
    started t ≡ₚ seqZ 0 (Z.of_nat (length ps)) /\
    finished t ≡ₚ seqZ 0 (Z.of_nat (length ps)) /\
    forall pre j post i c, t = pre ++ Started j :: post ->
      touches ps j c -> i ∈ writers ps c -> i < j -> Done i ∈ pre.
Proof.
  intros Hw Hpick. unfold run_program.
  destruct (wp_none_Ok _ _ _ (TryRun_spec ps _ _ _ (start_ok ps Hw) (fun _ => eq_refl)))
    as (l & d & os & -> & Hnd & Hl & Hd).
  rewrite union_empty_l_L in Hd.
  assert (elements (all_plans ps) ≡ₚ seqZ 0 (Z.of_nat (length ps))) as Hall.
  { apply NoDup_Permutation; [apply NoDup_elements|apply NoDup_seqZ|].
    intros i. by rewrite elem_of_elements, elem_of_all_plans, elem_of_seqZ. }
  assert (forall i, i ∈ l -> i ∈ all_plans ps) as HlR by (intros i Hi; apply (elem_of_ready ps), Hl, Hi).
  edestruct (drive_spec pick ps (S (length ps)) (all_plans ps) l d) as (t & -> & Ht1 & Ht2 & Ht3);
    [done|done|done| |].
  { unfold size, set_size. cbn. rewrite Hall, length_seqZ. lia. }
  exists ((Started <$> l) ++ t). split; [done|].
  rewrite started_app, finished_app, started_Started, finished_Started. cbn. split_and!.
  - rewrite <- Hall, Ht2. apply NoDup_Permutation; [|apply NoDup_elements|].
    + apply NoDup_app. split_and!; [done| |apply NoDup_elements].
      intros i Hi. rewrite elem_of_elements. set_solver.
    + intros i. rewrite elem_of_app, !elem_of_elements, elem_of_difference, elem_of_list_to_set.
      specialize (HlR i). destruct (decide (i ∈ l)); naive_solver.
  - by rewrite Ht1.
  - assert (ordered ps (all_plans ps) ((Started <$> l) ++ t)) as Hord.
    { destruct Hd as [[_ ->]|Hd]; [done|]. eapply ordered_starts; [exact Hd|set_solver|done]. }
    intros pre j post i c Heq Htc Hi Hij. destruct (Hord _ _ _ _ _ Heq Htc Hi Hij) as [Hn|?]; [|done].
    destruct Hn. apply elem_of_all_plans. by apply writers_lt in Hi.
Qed.
End Client.

(** The program used by the witnesses: plan 0 writes collection 1, plan 1 reads 1 and
    writes 2, plan 2 writes 3, plan 3 reads 2 and 3 and writes 1. *)
Definition demo_program : list plan_rw := [([], [1]); ([1], [2]); ([], [3]); ([2; 3], [1])].
Definition pick_last (l : list Z) : Z := default 0 (last l).

Lemma pick_last_in l : l <> [] -> pick_last l ∈ l.
Proof.
  intros Hl. unfold pick_last. destruct (last l) eqn:E; [by apply last_Some_elem_of|].
  by apply last_None in E.
Qed.

Lemma demo_well_written : well_written demo_program.
Proof. unfold well_written. repeat constructor; set_solver. Qed.

Lemma run_program_complete_witness :
  exists t, run_program (D := WideDagRunner) pick_last demo_program = Ok t /\
    t = [Started 0; Started 2; Done 2; Done 0; Started 1; Done 1; Started 3; Done 3].
Proof.
  destruct (run_program_complete (D := WideDagRunner) pick_last demo_program
              demo_well_written pick_last_in) as (t & Ht & _).
  exists t. split; [exact Ht|]. vm_compute in Ht. congruence.
Defined.

Lemma seq_GetRunnablePlans ps R d :
  seq_drives ps R ∅ false d -> R <> ∅ ->
  wp none (GetRunnablePlans (D := SequentialDagRunner)) d (fun l d' _ =>
    l = [seq_plan_count_ d] /\ d' = d /\ seq_drives ps R {[seq_plan_count_ d]} true d).
Proof.
  intros Hd Hne. pose proof (seq_front _ _ _ _ _ Hd Hne) as Hin. destruct Hd as (Hv & H0 & HR & _ & _).
  cbn. unfold Sequential_GetRunnablePlans. wstep.
  eapply wp_lift_GetFront; [exact Hv|by destruct d|]. wstep. wstep. wstep.
  apply wp_check; [intros _|by rewrite bool_decide_eq_true_2 by done]. wstep. done.
Qed.

Lemma seq_TryRun ps R d :
  seq_drives ps R ∅ false d ->
  wp none TryRun d (fun l d' _ => if decide (R = ∅) then l = [] else
    l = [seq_plan_count_ d] /\ d' = d /\ seq_drives ps R {[seq_plan_count_ d]} true d).
Proof.
  intros Hd. unfold TryRun. wstep. wstep.
  pose proof (remaining_ok (D := SequentialDagRunner) ps R ∅ false d) as Hrem. rewrite (Hrem Hd). clear Hrem.
  destruct (decide (R = ∅)) as [->|Hne].
  - rewrite size_empty. change (Z.of_nat 0 =? 0) with true. cbn iota. by wstep.
  - rewrite (proj2 (Z.eqb_neq _ _)).
    2:{ intros Hs. apply Hne, leibniz_equiv, size_empty_inv. lia. }
    by apply seq_GetRunnablePlans.
Qed.

Lemma seq_Finish ps R d :
  seq_drives ps R {[seq_plan_count_ d]} true d ->
  wp none (FinishRun (seq_plan_count_ d)) d (fun _ d' _ =>
    seq_drives ps (R ∖ {[seq_plan_count_ d]}) ∅ false d' /\
    seq_plan_count_ d' = seq_plan_count_ d + 1).
Proof.
  intros Hd. apply wp_conj.
  - pose proof (finish_ok (D := SequentialDagRunner) ps R {[seq_plan_count_ d]} d (seq_plan_count_ d)) as Hfin.
    eapply wp_mono; [apply (Hfin Hd); set_solver|].
    intros [] d' os Hd'. by rewrite difference_diag_L in Hd'.
  - cbn. unfold Sequential_Finish. wstep. wstep. wstep.
    apply wp_check; [intros _|by rewrite Z.eqb_refl]. wstep. apply zoom_wp.
    eapply wp_mono; [eapply Finish_ready; [apply Hd|eapply seq_front; [exact Hd|by apply Hd]]|].
    intros [] v' os _. wstep. done.
Qed.

Lemma pick_singleton (pick : list Z -> Z) x : (forall l, l <> [] -> pick l ∈ l) -> pick [x] = x.
Proof. intros Hp. apply list_elem_of_singleton. by apply Hp. Qed.

Lemma seq_nil_iff ps R d : seq_drives ps R ∅ false d ->
  R = ∅ <-> Z.of_nat (length ps) <= seq_plan_count_ d.
Proof.
  intros (_ & _ & HR & _). split.
  - intros ->. destruct (Z.le_gt_cases (Z.of_nat (length ps)) (seq_plan_count_ d)) as [?|Hlt]; [done|].
    assert (seq_plan_count_ d ∈ (∅ : gset Z)) by (apply HR; lia). set_solver.
  - intros Hle. apply elem_of_equiv_empty_L. intros i Hi%HR. lia.
Qed.

Definition one_by_one (a b : Z) : list run_event :=
  seqZ a (b - a) ≫= fun i => [Started i; Done i].

Lemma one_by_one_cons a b : a < b -> one_by_one a b = Started a :: Done a :: one_by_one (a + 1) b.
Proof.
  intros Hab. unfold one_by_one. rewrite seqZ_cons by lia. cbn. do 3 f_equal. f_equal; lia.
Qed.

Lemma seq_drive pick ps fuel R d :
  (forall l, l <> [] -> pick l ∈ l) ->
  seq_drives ps R {[seq_plan_count_ d]} true d ->
  (Z.to_nat (Z.of_nat (length ps) - seq_plan_count_ d) < fuel)%nat ->
  drive fuel pick [seq_plan_count_ d] d =
  Ok (Done (seq_plan_count_ d) :: one_by_one (seq_plan_count_ d + 1) (Z.of_nat (length ps))).
Proof.
  intros Hpick. revert R d. induction fuel as [|fuel IH]; intros R d Hd Hfuel; [lia|].
  cbn [drive]. rewrite (pick_singleton pick _ Hpick).
  assert (wp none (FinishRun (seq_plan_count_ d) ;;; TryRun) d (fun l d' _ =>
    if decide (R ∖ {[seq_plan_count_ d]} = ∅)
    then l = [] /\ Z.of_nat (length ps) <= seq_plan_count_ d + 1
    else seq_plan_count_ d' = seq_plan_count_ d + 1 /\ l = [seq_plan_count_ d'] /\
         seq_drives ps (R ∖ {[seq_plan_count_ d]}) {[seq_plan_count_ d']} true d')) as Hwp.
  { wstep. eapply wp_mono; [apply (seq_Finish _ _ _ Hd)|]. intros [] d1 o1 [Hd1 Hc].
    eapply wp_mono; [apply (seq_TryRun _ _ _ Hd1)|]. intros l d' o2 Hl.
    case_decide as HR; [split; [done|]|].
    - rewrite <- Hc. by apply (seq_nil_iff _ _ _ Hd1).
    - destruct Hl as (-> & -> & Hd2). auto. }
  apply wp_none_Ok in Hwp as (l & d' & os & -> & Hl).
  rewrite filter_cons, decide_False, filter_nil by (by intros ?). cbn [app].
  destruct (decide (R ∖ {[seq_plan_count_ d]} = ∅)).
  - destruct Hl as [-> Hle]. destruct fuel as [|fuel].
    + exfalso. destruct Hd as (_ & _ & HR & Hne & _). specialize (Hne eq_refl).
      apply set_choose_L in Hne as [i Hi%HR]. lia.
    + cbn. unfold one_by_one. by rewrite seqZ_nil by lia.
  - destruct Hl as (Hc & -> & Hd').
    assert (seq_plan_count_ d' < Z.of_nat (length ps)) as Hlt.
    { destruct Hd' as (_ & _ & HR & Hne & _). specialize (Hne eq_refl).
      apply set_choose_L in Hne as [i Hi%HR]. lia. }
    rewrite (IH _ _ Hd') by lia. rewrite Hc in *. cbn. by rewrite (one_by_one_cons (seq_plan_count_ d + 1)).
Qed.

(** C14: the sequential runner runs the plans one at a time in definition order, whatever
    [pick] does: plan 0 is started and finished, then plan 1, and so on. *)
Theorem sequential_program_order pick ps :
  well_written ps -> (forall l, l <> [] -> pick l ∈ l) ->
  run_program (D := SequentialDagRunner) pick ps =
  Ok (seqZ 0 (Z.of_nat (length ps)) ≫= fun i => [Started i; Done i]).
Proof.
  intros Hw Hpick. unfold run_program.
  pose proof (start_ok (D := SequentialDagRunner) ps Hw) as Hd. cbn [drives] in Hd.
  destruct (wp_none_Ok _ _ _ (seq_TryRun _ _ _ Hd)) as (l & d & os & -> & Hl).
  pose proof (seq_nil_iff _ _ _ Hd) as Hnil. case_decide as HR.
  - subst l. cbn in Hnil. apply Hnil in HR. cbn. by rewrite seqZ_nil by lia.
  - destruct Hl as (-> & -> & Hd').
    assert (0 < Z.of_nat (length ps)).
    { destruct (Z.lt_ge_cases 0 (Z.of_nat (length ps))); [done|]. destruct HR. apply Hnil. cbn. lia. }
    rewrite (seq_drive pick ps _ _ _ Hpick Hd') by (cbn; lia). cbn -[one_by_one].
    pose proof (one_by_one_cons 0 (Z.of_nat (length ps)) ltac:(lia)) as Hc.
    unfold one_by_one in Hc at 1. rewrite Z.sub_0_r in Hc. by rewrite Hc.
Qed.

Lemma sequential_program_order_witness :
  run_program (D := SequentialDagRunner) pick_last demo_program =
  Ok [Started 0; Done 0; Started 1; Done 1; Started 2; Done 2; Started 3; Done 3].
Proof. exact (sequential_program_order pick_last demo_program demo_well_written pick_last_in). Defined.

(** the graph has no edge from a reader to a later writer.  With the wide runner the
    plan 1 that reads collection 1 and the plan 2 that overwrites it are handed out in the
    same poll. *)
Theorem wide_starts_reader_with_later_writer :
  let ps := [([], [1]); ([1], [2]); ([], [1])] in
  1 ∈ (nth 1 ps ([], [])).1 /\ 1 ∈ (nth 2 ps ([], [])).2 /\
  exists d, (FinishRun 0 ;;; TryRun)
              (match TryRun (make_runner (D := WideDagRunner) (build ps)) with
               | Ok (_, d, _) => d | Err _ => make_runner (build ps) end) = Ok ([1; 2], d, []).
Proof. cbn zeta. split_and!; [set_solver..|]. eexists. vm_compute. reflexivity. Qed.
