(* ===== verification/Specs.v ===== *)
(** * Plan specifications and programs (core/plan/spec_wrapper.hpp, spec_wrapper.cpp,
    core/program_context.hpp, core/plan/context.hpp and the GetSpec methods of
    core/plan/{distribute,load,write,checkpoint,mappartupdate,mappartwithupdate}.hpp)

    The user's program runs on every node; each statement of the embedded language
    ([Context::...]) creates collections and plans and grows the plan graph.  The
    specifications of the plans and the graph are serialized and sent to the scheduler.
    The user's functions are not part of a specification and stay on the node. *)

From S2P Require Import Prelude BinStream Dag DagRunner.
From Stdlib Require Import Strings.Byte.

(** ** The specification structs *)

Abbreviation ReadWriteVector := (list Z * list Z)%type.

Record MapJoinSpec := {
  map_collection_id : Z; update_collection_id : Z; combine_timeout : Z; num_iter : Z;
  staleness : Z; checkpoint_interval : Z; checkpoint_path : string; description : string }.
Record MapWithJoinSpec := { with_base : MapJoinSpec; with_collection_id : Z }.
Record WriteSpec := { write_collection_id : Z; write_url : string }.
Record LoadSpec := {
  load_collection_id : Z; load_url : string; is_load_meta : bool; is_whole_file : bool }.
Record CheckpointSpec := { cp_cid : Z; cp_url : string }.
Record LoadCheckpointSpec := { lcp_cid : Z; lcp_url : string }.
Record DistributeSpec := {
  dist_collection_id : Z; dist_num_partition : Z; dist_data : BinStream }.

(** The dynamic class of a [Spec*]. *)
Inductive Spec :=
| SMapJoin (s : MapJoinSpec)
| SMapWithJoin (s : MapWithJoinSpec)
| SWrite (s : WriteSpec)
| SLoad (s : LoadSpec)
| SCheckpoint (s : CheckpointSpec)
| SLoadCheckpoint (s : LoadCheckpointSpec)
| SDistribute (s : DistributeSpec).

Definition GetReadWrite (s : Spec) : ReadWriteVector :=
  match s with
  | SMapJoin m =>
      if map_collection_id m =? update_collection_id m then ([], [map_collection_id m])
      else ([map_collection_id m], [update_collection_id m])
  | SMapWithJoin w =>
      let m := with_base w in
      ((if map_collection_id m =? update_collection_id m then [] else [map_collection_id m]) ++
       (if with_collection_id w =? update_collection_id m then [] else [with_collection_id w]),
       [update_collection_id m])
  | SWrite w => ([], [write_collection_id w])
  | SLoad l => ([], [load_collection_id l])
  | SCheckpoint c => ([cp_cid c], [])
  | SLoadCheckpoint c => ([], [lcp_cid c])
  | SDistribute d => ([], [dist_collection_id d])
  end.

Inductive SpecType :=
| TDistribute | TLoad | TInit | TMapJoin | TMapWithJoin | TWrite | TCheckpoint | TLoadCheckpoint.
#[export] Instance SpecType_eq_dec : EqDecision SpecType.
Proof. solve_decision. Defined.

Record SpecWrapper := { spec_type : SpecType; spec_id : Z; spec_name : string; spec : Spec }.
#[export] Instance eta_SpecWrapper : Eta SpecWrapper := fun w =>
  {| spec_type := spec_type w; spec_id := spec_id w; spec_name := spec_name w; spec := spec w |}.

(** ** Downcasts

    [GetXSpec] checks the type tag and [static_cast]s; on an object of another dynamic
    class the cast is undefined. *)
Section casts.
Context {S O : Type}.

Definition as_MapJoin (s : Spec) : option MapJoinSpec :=
  match s with SMapJoin m => Some m | SMapWithJoin w => Some (with_base w) | _ => None end.

(** [static_cast<MapJoinSpec*>(spec.get())] without the check. *)
Definition cast_MapJoin (w : SpecWrapper) : M S O MapJoinSpec :=
  deref (as_MapJoin (spec w)) "static_cast<MapJoinSpec*>".
Definition GetMapJoinSpec (w : SpecWrapper) : M S O MapJoinSpec :=
  check (bool_decide (spec_type w = TMapJoin) || bool_decide (spec_type w = TMapWithJoin))
    "type == kMapJoin || type == kMapWithJoin" ;;;
  cast_MapJoin w.
Definition GetMapWithJoinSpec (w : SpecWrapper) : M S O MapWithJoinSpec :=
  check (bool_decide (spec_type w = TMapWithJoin)) "type == kMapWithJoin" ;;;
  deref (match spec w with SMapWithJoin s => Some s | _ => None end) "static_cast<MapWithJoinSpec*>".
Definition GetDistributeSpec (w : SpecWrapper) : M S O DistributeSpec :=
  check (bool_decide (spec_type w = TDistribute)) "type == kDistribute" ;;;
  deref (match spec w with SDistribute s => Some s | _ => None end) "static_cast<DistributeSpec*>".
Definition GetLoadSpec (w : SpecWrapper) : M S O LoadSpec :=
  check (bool_decide (spec_type w = TLoad)) "type == kLoad" ;;;
  deref (match spec w with SLoad s => Some s | _ => None end) "static_cast<LoadSpec*>".
Definition GetCheckpointSpec (w : SpecWrapper) : M S O CheckpointSpec :=
  check (bool_decide (spec_type w = TCheckpoint)) "type == kCheckpoint" ;;;
  deref (match spec w with SCheckpoint s => Some s | _ => None end) "static_cast<CheckpointSpec*>".
Definition GetLoadCheckpointSpec (w : SpecWrapper) : M S O LoadCheckpointSpec :=
  check (bool_decide (spec_type w = TLoadCheckpoint)) "type == kLoadCheckpoint" ;;;
  deref (match spec w with SLoadCheckpoint s => Some s | _ => None end)
    "static_cast<LoadCheckpointSpec*>".
Definition GetWriteSpec (w : SpecWrapper) : M S O WriteSpec :=
  check (bool_decide (spec_type w = TWrite)) "type == kWrite" ;;;
  deref (match spec w with SWrite s => Some s | _ => None end) "static_cast<WriteSpec*>".
End casts.

(** ** Serialization: ToBin and FromBin *)

#[export] Instance Serial_MapJoinSpec : Serial MapJoinSpec.
Proof.
  refine {| enc := fun s => enc (map_collection_id s) ++ enc (update_collection_id s) ++
              enc (combine_timeout s) ++ enc (num_iter s) ++ enc (staleness s) ++
              enc (checkpoint_interval s) ++ enc (checkpoint_path s) ++ enc (description s);
            dec := (a <-- dec ;; b <-- dec ;; c <-- dec ;; d <-- dec ;; e <-- dec ;;
                    f <-- dec ;; g <-- dec ;; h <-- dec ;;
                    ret {| map_collection_id := a; update_collection_id := b;
                           combine_timeout := c; num_iter := d; staleness := e;
                           checkpoint_interval := f; checkpoint_path := g; description := h |});
            storable := fun s => storable (map_collection_id s) /\
              storable (update_collection_id s) /\ storable (combine_timeout s) /\
              storable (num_iter s) /\ storable (staleness s) /\
              storable (checkpoint_interval s) /\ storable (checkpoint_path s) /\
              storable (description s) |}.
  solve_reads.
Defined.

#[export] Instance Serial_MapWithJoinSpec : Serial MapWithJoinSpec.
Proof.
  refine {| enc := fun s => enc (with_base s) ++ enc (with_collection_id s);
            dec := (a <-- dec ;; b <-- dec ;; ret {| with_base := a; with_collection_id := b |});
            storable := fun s => storable (with_base s) /\ storable (with_collection_id s) |}.
  solve_reads.
Defined.

#[export] Instance Serial_WriteSpec : Serial WriteSpec.
Proof.
  refine {| enc := fun s => enc (write_collection_id s) ++ enc (write_url s);
            dec := (a <-- dec ;; b <-- dec ;; ret {| write_collection_id := a; write_url := b |});
            storable := fun s => storable (write_collection_id s) /\ storable (write_url s) |}.
  solve_reads.
Defined.

#[export] Instance Serial_LoadSpec : Serial LoadSpec.
Proof.
  refine {| enc := fun s => enc (load_collection_id s) ++ enc (load_url s) ++
              enc (is_load_meta s) ++ enc (is_whole_file s);
            dec := (a <-- dec ;; b <-- dec ;; c <-- dec ;; d <-- dec ;;
                    ret {| load_collection_id := a; load_url := b; is_load_meta := c;
                           is_whole_file := d |});
            storable := fun s => storable (load_collection_id s) /\ storable (load_url s) /\
              storable (is_load_meta s) /\ storable (is_whole_file s) |}.
  solve_reads.
Defined.

#[export] Instance Serial_CheckpointSpec : Serial CheckpointSpec.
Proof.
  refine {| enc := fun s => enc (cp_cid s) ++ enc (cp_url s);
            dec := (a <-- dec ;; b <-- dec ;; ret {| cp_cid := a; cp_url := b |});
            storable := fun s => storable (cp_cid s) /\ storable (cp_url s) |}.
  solve_reads.
Defined.

#[export] Instance Serial_LoadCheckpointSpec : Serial LoadCheckpointSpec.
Proof.
  refine {| enc := fun s => enc (lcp_cid s) ++ enc (lcp_url s);
            dec := (a <-- dec ;; b <-- dec ;; ret {| lcp_cid := a; lcp_url := b |});
            storable := fun s => storable (lcp_cid s) /\ storable (lcp_url s) |}.
  solve_reads.
Defined.

#[export] Instance Serial_DistributeSpec : Serial DistributeSpec.
Proof.
  refine {| enc := fun s => enc (dist_collection_id s) ++ enc (dist_num_partition s) ++
              enc (dist_data s);
            dec := (a <-- dec ;; b <-- dec ;; c <-- dec ;;
                    ret {| dist_collection_id := a; dist_num_partition := b; dist_data := c |});
            storable := fun s => storable (dist_collection_id s) /\
              storable (dist_num_partition s) /\ storable (dist_data s) |}.
  solve_reads.
Defined.

(** [enum class Type : char] *)
Definition type_code (t : SpecType) : byte :=
  match t with
  | TDistribute => x00 | TLoad => x01 | TInit => x02 | TMapJoin => x03
  | TMapWithJoin => x04 | TWrite => x05 | TCheckpoint => x06 | TLoadCheckpoint => x07
  end.
Definition type_of_code (b : byte) : option SpecType :=
  match b with
  | x00 => Some TDistribute | x01 => Some TLoad | x02 => Some TInit | x03 => Some TMapJoin
  | x04 => Some TMapWithJoin | x05 => Some TWrite | x06 => Some TCheckpoint
  | x07 => Some TLoadCheckpoint | _ => None
  end.

#[export] Instance Serial_SpecType : Serial SpecType.
Proof.
  refine {| enc := fun t => enc (type_code t) ++ [];
            dec := (b <-- (dec : Reader byte) ;; deref (type_of_code b) "SpecWrapper::Type");
            storable := fun _ => True |}.
  intros t _. eapply reads_bind; [by apply dec_enc|]. destruct t; apply reads_ret.
Defined.

(** [s.spec->ToBin(stream)]: dispatched on the dynamic class. *)
Definition ToBin (s : Spec) : bytes :=
  match s with
  | SMapJoin s => enc s | SMapWithJoin s => enc s | SWrite s => enc s | SLoad s => enc s
  | SCheckpoint s => enc s | SLoadCheckpoint s => enc s | SDistribute s => enc s
  end.
(** The object built is of the class the type tag names. *)
Definition FromBin (t : SpecType) : Reader Spec :=
  match t with
  | TDistribute => s <-- dec ;; ret (SDistribute s)
  | TMapJoin => s <-- dec ;; ret (SMapJoin s)
  | TMapWithJoin => s <-- dec ;; ret (SMapWithJoin s)
  | TLoad => s <-- dec ;; ret (SLoad s)
  | TWrite => s <-- dec ;; ret (SWrite s)
  | TCheckpoint => s <-- dec ;; ret (SCheckpoint s)
  | TLoadCheckpoint => s <-- dec ;; ret (SLoadCheckpoint s)
  | TInit => throw (CheckFailed "false")
  end.

Definition spec_storable (t : SpecType) (s : Spec) : Prop :=
  match t, s with
  | TMapJoin, SMapJoin s => storable s
  | TMapWithJoin, SMapWithJoin s => storable s
  | TWrite, SWrite s => storable s
  | TLoad, SLoad s => storable s
  | TCheckpoint, SCheckpoint s => storable s
  | TLoadCheckpoint, SLoadCheckpoint s => storable s
  | TDistribute, SDistribute s => storable s
  | _, _ => False
  end.

Lemma reads_FromBin t s : spec_storable t s -> reads (FromBin t) (ToBin s) s.
Proof.
  destruct t, s; cbn [spec_storable FromBin ToBin]; try done;
    intros Hs; (eapply reads_bind_ret; [by apply dec_enc|done]).
Qed.

#[export] Instance Serial_SpecWrapper : Serial SpecWrapper.
Proof.
  refine {| enc := fun w => enc (spec_type w) ++ enc (spec_id w) ++ enc (spec_name w) ++
              ToBin (spec w);
            dec := (t <-- dec ;; i <-- dec ;; n <-- dec ;; s <-- FromBin t ;;
                    ret {| spec_type := t; spec_id := i; spec_name := n; spec := s |});
            storable := fun w => storable (spec_id w) /\ storable (spec_name w) /\
              spec_storable (spec_type w) (spec w) |}.
  intros [t i n s] (Hi & Hn & Hs); cbn in *.
  eapply reads_bind; [by apply dec_enc|]. eapply reads_bind; [by apply dec_enc|].
  eapply reads_bind; [by apply dec_enc|].
  by eapply reads_bind_ret; [apply reads_FromBin|].
Defined.

Record ProgramContext := { specs : list SpecWrapper; dag : Dag }.
#[export] Instance Serial_ProgramContext : Serial ProgramContext.
Proof.
  refine {| enc := fun p => enc (specs p) ++ enc (dag p);
            dec := (a <-- dec ;; b <-- dec ;; ret {| specs := a; dag := b |});
            storable := fun p => storable (specs p) /\ storable (dag p) |}.
  solve_reads.
Defined.
