(* ===== verification/Program.v ===== *)
(** * Building a program (core/plan/context.hpp, core/plan/runner.cpp and the plan
    classes of core/plan/{distribute,load,write,checkpoint,mappartupdate,
    mappartwithupdate}.hpp)

    [Context] owns the collections, the plans and the plan graph; each statement of the
    user's program appends to them.  [get_program] is the part of [Runner::Run] that
    collects the specifications.  The user's functions (parse, map, update, combine) are
    kept by the plans and never reach the specifications, so they are left out here. *)

From S2P Require Import Prelude BinStream Dag DagRunner Specs.

(** ** Plans and collections *)

(** What a [Collection] contributes to the specifications. *)
Record CollectionBase := { coll_name_ : string; coll_num_partition_ : Z }.
#[export] Instance eta_CollectionBase : Eta CollectionBase := fun c =>
  {| coll_name_ := coll_name_ c; coll_num_partition_ := coll_num_partition_ c |}.

(** The settings shared by [MapPartJoin] and [MapPartWithJoin]. *)
Record JoinOpts := {
  opt_num_iter : Z; opt_staleness : Z; opt_checkpoint_path : string;
  opt_checkpoint_interval : Z; opt_combine_timeout : Z; opt_description : string }.
#[export] Instance eta_JoinOpts : Eta JoinOpts := fun o =>
  {| opt_num_iter := opt_num_iter o; opt_staleness := opt_staleness o;
     opt_checkpoint_path := opt_checkpoint_path o;
     opt_checkpoint_interval := opt_checkpoint_interval o;
     opt_combine_timeout := opt_combine_timeout o; opt_description := opt_description o |}.
Definition default_opts (descr : string) : JoinOpts :=
  {| opt_num_iter := 1; opt_staleness := 0; opt_checkpoint_path := "";
     opt_checkpoint_interval := 0; opt_combine_timeout := -1; opt_description := descr |}.

Inductive CheckpointType := checkpoint_t | loadcheckpoint_t.

Inductive PlanKind :=
| PDistribute (collection_id num_parts : Z) (data : bytes)   (* data: the serialized vector *)
| PLoad (collection_id : Z) (url : string) (meta whole : bool)
| PWrite (collection_id : Z) (url : string)
| PCheckpoint (cid : Z) (url : string) (type : CheckpointType)
| PMapPartJoin (map_c update_c : Z) (o : JoinOpts)
| PMapPartWithJoin (map_c with_c update_c : Z) (o : JoinOpts).

Record PlanBase := { pb_plan_id : Z; pb_name : string; pb_kind : PlanKind }.
#[export] Instance eta_PlanBase : Eta PlanBase := fun p =>
  {| pb_plan_id := pb_plan_id p; pb_name := pb_name p; pb_kind := pb_kind p |}.

Definition join_spec (map_c update_c : Z) (o : JoinOpts) : MapJoinSpec :=
  {| map_collection_id := map_c; update_collection_id := update_c;
     combine_timeout := opt_combine_timeout o; num_iter := opt_num_iter o;
     staleness := opt_staleness o; checkpoint_interval := opt_checkpoint_interval o;
     checkpoint_path := opt_checkpoint_path o; description := opt_description o |}.

(** [SetSpec<SpecType>(plan_id, type, args...)]; a load-checkpoint plan also gets a
    [CheckpointSpec] object. *)
Definition GetSpec (p : PlanBase) : SpecWrapper :=
  let '(t, s) :=
    match pb_kind p with
    | PDistribute c n data =>
        (TDistribute, SDistribute {| dist_collection_id := c; dist_num_partition := n;
                                     dist_data := AddBin data empty_stream |})
    | PLoad c url meta whole =>
        (TLoad, SLoad {| load_collection_id := c; load_url := url; is_load_meta := meta;
                         is_whole_file := whole |})
    | PWrite c url => (TWrite, SWrite {| write_collection_id := c; write_url := url |})
    | PCheckpoint c url ty =>
        (match ty with checkpoint_t => TCheckpoint | loadcheckpoint_t => TLoadCheckpoint end,
         SCheckpoint {| cp_cid := c; cp_url := url |})
    | PMapPartJoin c1 c2 o => (TMapJoin, SMapJoin (join_spec c1 c2 o))
    | PMapPartWithJoin c1 cw c2 o =>
        (TMapWithJoin, SMapWithJoin {| with_base := join_spec c1 c2 o; with_collection_id := cw |})
    end in
  {| spec_type := t; spec_id := pb_plan_id p; spec_name := pb_name p; spec := s |}.

(** ** Context *)

Record Context := { collections_ : list CollectionBase; plans_ : list PlanBase; dag_ : Dag }.
#[export] Instance eta_Context : Eta Context := fun c =>
  {| collections_ := collections_ c; plans_ := plans_ c; dag_ := dag_ c |}.
Definition empty_context : Context :=
  {| collections_ := []; plans_ := []; dag_ := empty_dag |}.

Abbreviation CM := (M Context Empty_set).

(** [Store::make]: the id is the number of instances made so far. *)
Definition make_collection (num_part : Z) : CM Z :=
  cs <-- gets collections_ ;;
  let id := Z.of_nat (length cs) in
  modify (fun c => c <| collections_ ::= fun l =>
            l ++ [{| coll_name_ := pretty id; coll_num_partition_ := num_part |}] |>) ;;;
  ret id.
Definition make_plan (name : string) (k : PlanKind) : CM Z :=
  ps <-- gets plans_ ;;
  let id := Z.of_nat (length ps) in
  modify (fun c => c <| plans_ ::= fun l =>
            l ++ [{| pb_plan_id := id; pb_name := name; pb_kind := k |}] |>) ;;;
  ret id.
Definition add_dag_node (id : Z) (read write : list Z) : CM unit :=
  modify (fun c => c <| dag_ ::= AddDagNode id read write |>).

(** A plan and its node in the graph: every statement makes the two together. *)
Definition make_plan_node (name : string) (k : PlanKind) (read write : list Z) : CM Z :=
  p <-- make_plan name k ;; add_dag_node p read write ;;; ret p.

Definition Name (c : Z) : CM string :=
  cs <-- gets collections_ ;;
  col <-- deref (cs !! Z.to_nat c) "collection pointer" ;; ret (coll_name_ col).
Definition SetName (c : Z) (s : string) : CM unit :=
  modify (fun cx => cx <| collections_ ::= alter (fun col => col <| coll_name_ := s |>) (Z.to_nat c) |>).

Definition distribute (data : bytes) (num_parts : Z) (name : string) : CM Z :=
  c <-- make_collection num_parts ;;
  make_plan_node (name +:+ "::distribute") (PDistribute c num_parts data) [] [c] ;;; ret c.

(** The [placeholder] overloads differ in the key-to-part mapper only. *)
Definition placeholder (num_parts : Z) (name suffix : string) : CM Z :=
  c <-- make_collection num_parts ;;
  make_plan_node (name +:+ suffix) (PDistribute c num_parts (put_len 0)) [] [c] ;;; ret c.

Definition load (url name : string) (whole : bool) : CM Z :=
  c <-- make_collection 1 ;;
  make_plan_node (name +:+ if whole then "::load_wholefiles" else "::load")
    (PLoad c url false whole) [] [c] ;;; ret c.
Definition load_meta (url name : string) (whole : bool) : CM Z :=
  c <-- make_collection 1 ;;
  make_plan_node (name +:+ if whole then "::load_wholefiles_meta" else "::load_block_meta")
    (PLoad c url true whole) [] [c] ;;; ret c.
Definition write (c : Z) (url name : string) : CM unit :=
  make_plan_node (name +:+ "::write") (PWrite c url) [c] [] ;;; ret tt.
Definition checkpoint (c : Z) (url name : string) : CM unit :=
  make_plan_node (name +:+ "::checkpoint") (PCheckpoint c url checkpoint_t) [c] [] ;;; ret tt.
Definition loadcheckpoint (c : Z) (url name : string) : CM unit :=
  make_plan_node (name +:+ "::loadcheckpoint") (PCheckpoint c url loadcheckpoint_t) [] [c] ;;; ret tt.

(** [mapupdate] and [mappartupdate] construct a [MapJoin] and a [MapPartJoin], which
    have the same specification. *)
Definition mapupdate (c1 c2 : Z) : CM Z :=
  n1 <-- Name c1 ;; n2 <-- Name c2 ;;
  make_plan_node "" (PMapPartJoin c1 c2 (default_opts
    ("{map collection: " +:+ n1 +:+ ", update collection: " +:+ n2 +:+ "}"))) [c1] [c2].
Definition mappartwithupdate (c1 c2 c3 : Z) : CM Z :=
  n1 <-- Name c1 ;; n2 <-- Name c2 ;; n3 <-- Name c3 ;;
  make_plan_node "" (PMapPartWithJoin c1 c2 c3 (default_opts
    ("{map collection: " +:+ n1 +:+ ", with collection: " +:+ n2 +:+
     ", update collection: " +:+ n3 +:+ "}"))) [c1; c2] [c3].

(** The setters of a plan returned by [mapupdate] and the like. *)
Definition set_plan (p : Z) (f : PlanBase -> PlanBase) : CM unit :=
  modify (fun cx => cx <| plans_ ::= alter f (Z.to_nat p) |>).
Definition on_opts (f : JoinOpts -> JoinOpts) (p : PlanBase) : PlanBase :=
  p <| pb_kind ::= fun k =>
    match k with
    | PMapPartJoin c1 c2 o => PMapPartJoin c1 c2 (f o)
    | PMapPartWithJoin c1 cw c2 o => PMapPartWithJoin c1 cw c2 (f o)
    | _ => k
    end |>.
Definition SetStaleness (p s : Z) : CM unit := set_plan p (on_opts (fun o => o <| opt_staleness := s |>)).
Definition SetIter (p iter : Z) : CM unit := set_plan p (on_opts (fun o => o <| opt_num_iter := iter |>)).
Definition SetCheckpointInterval (p cp : Z) (path : string) : CM unit :=
  set_plan p (on_opts (fun o => o <| opt_checkpoint_interval := cp |> <| opt_checkpoint_path := path |>)).
Definition SetCombine (p timeout : Z) : CM unit :=
  set_plan p (on_opts (fun o => o <| opt_combine_timeout := timeout |>)).
Definition SetPlanName (p : Z) (n : string) : CM unit := set_plan p (fun q => q <| pb_name := n |>).

(** ** Statements composed of the others *)

Definition distribute_by_key (data : bytes) (num_parts : Z) (name : string) : CM Z :=
  let prefix := name +:+ "::distribute_by_key" in
  tmp_c <-- distribute data 1 prefix ;;
  c <-- placeholder num_parts prefix "::placeholder" ;;
  SetName c "tmp collection in distribute_by_key" ;;;
  p <-- mapupdate tmp_c c ;;
  SetPlanName p (prefix +:+ "::mapupdate") ;;; ret c.

Definition foreach (c : Z) (name : string) : CM unit :=
  cname <-- Name c ;;
  let prefix := name +:+ "::foreach collection " +:+ cname in
  tmp_c <-- placeholder 1 prefix "::placeholder" ;;
  SetName tmp_c "tmp collection in foreach" ;;;
  p <-- mapupdate c tmp_c ;;
  SetPlanName p (prefix +:+ "::mapupdate").

Definition count (c1 : Z) (name : string) : CM unit :=
  let prefix := name +:+ "::count" in
  count_c <-- placeholder 1 prefix "::placeholder" ;;
  SetName count_c "tmp collection in count" ;;;
  p <-- mapupdate c1 count_c ;;
  SetCombine p 0 ;;;
  SetPlanName p (prefix +:+ "::mapupdate") ;;;
  foreach count_c "".

Definition sort_each_partition (c : Z) : CM unit :=
  p <-- mapupdate c c ;;
  n <-- Name c ;;
  SetPlanName p ("sort each part for " +:+ n).

(** Runner::Run, lines 26-36. *)
Definition get_program (cx : Context) : ProgramContext :=
  {| specs := GetSpec <$> plans_ cx; dag := dag_ cx |}.

(** ** Programs as data *)

Inductive statement :=
| SDistributeStmt (data : bytes) (num_parts : Z) (name : string)
| SDistributeByKey (data : bytes) (num_parts : Z) (name : string)
| SPlaceholder (num_parts : Z) (name suffix : string)
| SLoadStmt (url name : string) (whole : bool)
| SLoadMeta (url name : string) (whole : bool)
| SWriteStmt (c : Z) (url name : string)
| SCheckpointStmt (c : Z) (url name : string)
| SLoadCheckpointStmt (c : Z) (url name : string)
| SMapUpdate (c1 c2 : Z)
| SMapPartWithUpdate (c1 c2 c3 : Z)
| SForeach (c : Z) (name : string)
| SCount (c : Z) (name : string)
| SSortEach (c : Z)
| SSetName (c : Z) (s : string)
| SSetStaleness (p s : Z)
| SSetIter (p iter : Z)
| SSetCheckpointInterval (p cp : Z) (path : string)
| SSetCombine (p timeout : Z)
| SSetPlanName (p : Z) (n : string).

Definition exec_stmt (s : statement) : CM unit :=
  match s with
  | SDistributeStmt d n name => distribute d n name ;;; ret tt
  | SDistributeByKey d n name => distribute_by_key d n name ;;; ret tt
  | SPlaceholder n name suffix => placeholder n name suffix ;;; ret tt
  | SLoadStmt url name whole => load url name whole ;;; ret tt
  | SLoadMeta url name whole => load_meta url name whole ;;; ret tt
  | SWriteStmt c url name => write c url name
  | SCheckpointStmt c url name => checkpoint c url name
  | SLoadCheckpointStmt c url name => loadcheckpoint c url name
  | SMapUpdate c1 c2 => mapupdate c1 c2 ;;; ret tt
  | SMapPartWithUpdate c1 c2 c3 => mappartwithupdate c1 c2 c3 ;;; ret tt
  | SForeach c name => foreach c name
  | SCount c name => count c name
  | SSortEach c => sort_each_partition c
  | SSetName c s => SetName c s
  | SSetStaleness p s => SetStaleness p s
  | SSetIter p i => SetIter p i
  | SSetCheckpointInterval p cp path => SetCheckpointInterval p cp path
  | SSetCombine p t => SetCombine p t
  | SSetPlanName p n => SetPlanName p n
  end.
Definition exec (l : list statement) : CM unit := for_each l exec_stmt.

(** ** The graph always describes the plans *)

(** The reads and writes a statement declares for its plan. *)
Definition declared (k : PlanKind) : plan_rw :=
  match k with
  | PDistribute c _ _ => ([], [c])
  | PLoad c _ _ _ => ([], [c])
  | PWrite c _ => ([c], [])
  | PCheckpoint c _ checkpoint_t => ([c], [])
  | PCheckpoint c _ loadcheckpoint_t => ([], [c])
  | PMapPartJoin c1 c2 _ => ([c1], [c2])
  | PMapPartWithJoin c1 cw c2 _ => ([c1; cw], [c2])
  end.
Definition declarations (cx : Context) : list plan_rw := (fun p => declared (pb_kind p)) <$> plans_ cx.

Definition context_ok (cx : Context) : Prop :=
  dag_ cx = build (declarations cx) /\
  forall i p, plans_ cx !! i = Some p -> pb_plan_id p = Z.of_nat i.

Definition ctx_keeps {A} (m : CM A) : Prop :=
  forall cx, context_ok cx -> wp any m cx (fun _ cx' _ => context_ok cx').

Lemma ctx_keeps_bind {A B} (m : CM A) (k : A -> CM B) :
  ctx_keeps m -> (forall a, ctx_keeps (k a)) -> ctx_keeps (bind m k).
Proof. intros Hm Hk cx Hcx. wstep. eapply wp_mono; [by apply Hm|]. intros a cx' os Hcx'. by apply Hk. Qed.
Lemma ctx_keeps_ret {A} (a : A) : ctx_keeps (ret a).
Proof. intros cx Hcx. by wstep. Qed.
Lemma ctx_keeps_same {A} (m : CM A) :
  (forall cx, wp any m cx (fun _ cx' _ => plans_ cx' = plans_ cx /\ dag_ cx' = dag_ cx)) -> ctx_keeps m.
Proof.
  intros Hm cx [Hd Hi]. eapply wp_mono; [apply Hm|]. intros a cx' _ [Hp Hd'].
  unfold context_ok, declarations. by rewrite Hp, Hd', Hd.
Qed.

Lemma ctx_keeps_make_collection n : ctx_keeps (make_collection n).
Proof. apply ctx_keeps_same. intros cx. unfold make_collection. wsteps. done. Qed.
Lemma ctx_keeps_Name c : ctx_keeps (Name c).
Proof. apply ctx_keeps_same. intros cx. unfold Name. wsteps. done. Qed.
Lemma ctx_keeps_SetName c s : ctx_keeps (SetName c s).
Proof. apply ctx_keeps_same. intros cx. unfold SetName. wsteps. done. Qed.

Lemma ctx_keeps_make_plan_node name k read write :
  declared k = (read, write) -> ctx_keeps (make_plan_node name k read write).
Proof.
  intros Hk cx [Hd Hi]. unfold make_plan_node, make_plan, add_dag_node. wsteps. split; cbn.
  - unfold declarations. cbn. rewrite fmap_app. cbn. rewrite build_snoc, Hk, Hd.
    unfold declarations. by rewrite length_fmap.
  - intros i p Hp. apply lookup_app_Some in Hp as [Hp|[Hge Hp]]; [by apply Hi|].
    apply list_lookup_singleton_Some in Hp as [Hi0 <-]. cbn. lia.
Qed.

Lemma ctx_keeps_set_plan p f :
  (forall q, pb_plan_id (f q) = pb_plan_id q /\ declared (pb_kind (f q)) = declared (pb_kind q)) ->
  ctx_keeps (set_plan p f).
Proof.
  intros Hf cx [Hd Hi]. unfold set_plan. wsteps.
  assert (declarations (cx <| plans_ ::= alter f (Z.to_nat p) |>) = declarations cx) as Hdecl.
  { unfold declarations. cbn. apply list_eq. intros i. rewrite !list_lookup_fmap.
    rewrite list_lookup_alter. case_decide; subst; [|done].
    destruct (plans_ cx !! _); cbn; [|done]. f_equal. apply Hf. }
  split; [by rewrite Hdecl|]. intros i q. cbn. rewrite list_lookup_alter.
  case_decide as Hpi; [|by apply Hi]. rewrite fmap_Some. intros (q' & Hq & ->).
  destruct (Hf q') as [-> _]. subst i. by apply Hi.
Qed.

Ltac solve_keeps :=
  repeat first
    [ apply ctx_keeps_ret | apply ctx_keeps_make_collection | apply ctx_keeps_Name | apply ctx_keeps_SetName
    | apply ctx_keeps_make_plan_node; reflexivity
    | apply ctx_keeps_set_plan; intros [? ? []]; split; reflexivity
    | apply ctx_keeps_bind; [|intros] ].

Lemma ctx_keeps_exec_stmt s : ctx_keeps (exec_stmt s).
Proof.
  destruct s; cbn [exec_stmt];
    unfold distribute, distribute_by_key, placeholder, load, load_meta, write, checkpoint,
      loadcheckpoint, mapupdate, mappartwithupdate, foreach, count, sort_each_partition,
      SetStaleness, SetIter, SetCheckpointInterval, SetCombine, SetPlanName;
    unfold distribute, placeholder, mapupdate, foreach; solve_keeps.
Qed.

Lemma exec_ok l cx : context_ok cx -> wp any (exec l) cx (fun _ cx' _ => context_ok cx').
Proof.
  intros Hcx. apply (wp_for_each_state any context_ok); [done| |done].
  intros s cx' _ Hcx'. by apply ctx_keeps_exec_stmt.
Qed.

Lemma declarations_written cx : well_written (declarations cx).
Proof.
  unfold well_written, declarations. apply Forall_fmap, Forall_forall. intros p _. cbn.
  destruct (pb_kind p) as [| | |? ? []| |]; cbn; repeat constructor; set_solver.
Qed.

(** The collections a specification says it reads or writes. *)
Definition spec_touches (s : Spec) : list Z := (GetReadWrite s).1 ++ (GetReadWrite s).2.

(** C15: every program is well formed for the scheduler: however the statements are
    combined, the [i]-th specification has id [i], the graph is the graph of the declared
    reads and writes, one declaration per specification, and a specification touches the
    collections its plan declared to the graph. *)
Theorem program_well_formed l cx os :
  exec l empty_context = Ok (tt, cx, os) ->
  let pc := get_program cx in
  dag pc = build (declarations cx) /\ well_written (declarations cx) /\
  length (specs pc) = length (declarations cx) /\
  forall i w, specs pc !! i = Some w ->
    spec_id w = Z.of_nat i /\
    exists p, declarations cx !! i = Some p /\
      forall c, c ∈ spec_touches (spec w) <-> c ∈ p.1 ++ p.2.
Proof.
  intros He. assert (context_ok cx) as [Hd Hi].
  { assert (context_ok empty_context) as H0 by (split; [done|]; by intros []).
    apply (wp_Ok any _ _ _ _ _ _ He (exec_ok l _ H0)). }
  cbn zeta. split_and!; [done|apply declarations_written| |].
  - unfold get_program, declarations. cbn. by rewrite !length_fmap.
  - intros i w Hw. unfold get_program in Hw. cbn in Hw. rewrite list_lookup_fmap in Hw.
    apply fmap_Some in Hw as (p & Hp & ->). specialize (Hi i p Hp).
    split; [destruct p as [? ? [| | |? ? []| |]]; exact Hi|].
    exists (declared (pb_kind p)). unfold declarations. rewrite list_lookup_fmap, Hp. split; [done|].
    intros c. destruct p as [? ? [| | |? ? []|c1 c2 ?|c1 cw c2 ?]]; cbn; try set_solver.
    + unfold spec_touches. cbn. destruct (Z.eqb_spec c1 c2); subst; set_solver.
    + unfold spec_touches. cbn. destruct (Z.eqb_spec c1 c2), (Z.eqb_spec cw c2); subst; set_solver.
Qed.

Definition demo_source : list statement :=
  [SLoadStmt "/pr" "" false; SPlaceholder 4 "v" "::placeholder"; SMapUpdate 0 1; SSortEach 1;
   SMapPartWithUpdate 0 1 1; SSetIter 4 10; SCount 1 ""; SWriteStmt 1 "/out" ""].

Lemma program_well_formed_witness :
  exists cx os, exec demo_source empty_context = Ok (tt, cx, os) /\
    length (specs (get_program cx)) = 10%nat /\
    dag (get_program cx) = build (declarations cx).
Proof.
  destruct (exec demo_source empty_context) as [[[[] cx] os]|e] eqn:E.
  - exists cx, os. split; [reflexivity|].
    pose proof (program_well_formed demo_source cx os E) as (Hd & _ & Hl & _).
    split; [|exact Hd]. rewrite Hl. vm_compute in E. injection E as <- _. reflexivity.
  - exfalso. vm_compute in E. discriminate.
Defined.

(** ** The classes of specifications *)

(** The object is of the class that the tag names. *)
Definition spec_typed (w : SpecWrapper) : bool :=
  match spec_type w, spec w with
  | TDistribute, SDistribute _ | TLoad, SLoad _ | TMapJoin, SMapJoin _ | TMapWithJoin, SMapWithJoin _
  | TWrite, SWrite _ | TCheckpoint, SCheckpoint _ | TLoadCheckpoint, SLoadCheckpoint _ => true
  | _, _ => false
  end.
(** What the receiver of a specification builds: a load-checkpoint plan carries a
    [CheckpointSpec], whose fields are written as those of a [LoadCheckpointSpec]. *)
Definition on_wire (w : SpecWrapper) : SpecWrapper :=
  match spec_type w, spec w with
  | TLoadCheckpoint, SCheckpoint c => w <| spec := SLoadCheckpoint {| lcp_cid := cp_cid c; lcp_url := cp_url c |} |>
  | _, _ => w
  end.
(** No downcast of the object is undefined: it is right or refused by the check of the tag. *)
Definition casts_defined (w : SpecWrapper) : Prop := forall m,
  GetMapJoinSpec (O := Empty_set) w tt <> Err (Undefined m) /\ GetMapWithJoinSpec (O := Empty_set) w tt <> Err (Undefined m) /\
  GetDistributeSpec (O := Empty_set) w tt <> Err (Undefined m) /\ GetLoadSpec (O := Empty_set) w tt <> Err (Undefined m) /\
  GetCheckpointSpec (O := Empty_set) w tt <> Err (Undefined m) /\ GetLoadCheckpointSpec (O := Empty_set) w tt <> Err (Undefined m) /\
  GetWriteSpec (O := Empty_set) w tt <> Err (Undefined m).

Lemma on_wire_enc w : enc (on_wire w) = enc w.
Proof. destruct w as [[] ? ? []]; done. Qed.
Lemma FromBin_typed t i n bin s bin' os : FromBin t bin = Ok (s, bin', os) ->
  spec_typed {| spec_type := t; spec_id := i; spec_name := n; spec := s |} = true.
Proof.
  destruct t; cbn [FromBin]; unfold bind, ret, throw; try done;
    match goal with |- context [dec bin] => destruct (dec bin) as [[[x b] o]|e]; [|done] end; by intros [= <- _ _].
Qed.

(** C16: Specifications are well typed.  Whatever the program, every specification that a node
    reads off the wire is the one that was sent, as an object of the class that its tag names
    (a load-checkpoint plan is sent as a [CheckpointSpec] and arrives as a [LoadCheckpointSpec]);
    whatever bytes arrive, a specification that is read is well typed; and the downcasts of a
    well typed specification are never undefined. *)
Theorem specs_well_typed :
  (forall cx w, w ∈ specs (get_program cx) ->
     spec_typed (on_wire w) = true /\ (storable (on_wire w) -> reads dec (enc w) (on_wire w))) /\
  (forall bin w bin' os, dec (A := SpecWrapper) bin = Ok (w, bin', os) -> spec_typed w = true) /\
  (forall w, spec_typed w = true -> casts_defined w).
Proof.
  split_and!.
  - intros cx w (p & -> & _)%list_elem_of_fmap. split; [by destruct p as [? ? [| | |? ? []| |]]|].
    intros Hst. rewrite <- on_wire_enc. by apply dec_enc.
  - intros bin w bin' os. unfold dec at 1, Serial_SpecWrapper, bind, ret.
    destruct (dec (A := SpecType) bin) as [[[t b1] o1]|e]; [|done]. destruct (dec (A := Z) b1) as [[[i b2] o2]|e]; [|done].
    destruct (dec (A := string) b2) as [[[n b3] o3]|e]; [|done].
    destruct (FromBin t b3) as [[[s b4] o4]|e] eqn:E; [|done]. intros [= <- _ _]. by eapply FromBin_typed.
  - intros [[] i n []] Hw m; try done; by split_and!.
Qed.

Lemma specs_well_typed_witness :
  exists cx os w, exec [SPlaceholder 4 "v" ""; SLoadCheckpointStmt 0 "/cp" ""] empty_context = Ok (tt, cx, os) /\
    specs (get_program cx) !! 1%nat = Some w /\ spec_typed w = false /\ spec_typed (on_wire w) = true /\
    reads dec (enc w) (on_wire w) /\ casts_defined (on_wire w).
Proof.
  destruct specs_well_typed as (H1 & _ & H3).
  destruct (exec _ empty_context) as [[[[] cx] os]|e] eqn:E; [|by vm_compute in E].
  assert (exists w, specs (get_program cx) !! 1%nat = Some w /\ spec_typed w = false /\ storable (on_wire w)) as (w & Hw & Hf & Hs).
  { vm_compute in E. injection E as <- _. eexists. split; [reflexivity|]. split; [done|].
    repeat (unfold storable; cbn). unfold in_int, length_fits. split_and!; cbn; lia. }
  exists cx, os, w. destruct (H1 cx w (list_elem_of_lookup_2 _ _ _ Hw)) as [Ht Hr]. split_and!; [done..|by apply Hr|by apply H3].
Defined.
