(* ===== verification/Actors.v ===== *)
(** * Actors (base/threadsafe_queue.hpp, base/actor.hpp)

    An actor is a thread that takes messages from its queue and handles them one at a time
    until it finds the message that [Stop] pushes.  Any thread may push.  As in [Executors], a
    step is what a thread does while it holds the mutex, a notification after the mutex was
    released is a step of its own, and a sleeping thread may wake up by itself.

    The theorem is what the models of the scheduler, the worker, the controllers, the fetcher
    and the mailboxes rely on: an actor is its handler folded over the messages in the order in
    which they were pushed. *)

From S2P Require Import Prelude.

Section Actor.
(** [Msg] with the flag [kActorExit] or not, the state of the actor and its handler. *)
Context {Msg St : Type} (is_exit : Msg -> bool) (Process : Msg -> St -> St).

(** ** ThreadsafeQueue *)

Record ThreadsafeQueue := { queue_ : list Msg }.
Definition Push (m : Msg) (q : ThreadsafeQueue) : ThreadsafeQueue := {| queue_ := queue_ q ++ [m] |}.
(** [WaitAndPop] with the mutex held: [None] is a wait. *)
Definition TryPop (q : ThreadsafeQueue) : option (Msg * ThreadsafeQueue) :=
  match queue_ q with m :: l => Some (m, {| queue_ := l |}) | [] => None end.
Definition queue_Size (q : ThreadsafeQueue) : Z := Z.of_nat (length (queue_ q)).

(** ** Actor *)

(** The thread in [Main]: about to lock the mutex, asleep, handling a message, returned. *)
Inductive main_pc := MReady | MBlocked | MProcess (m : Msg) | MExited.
(** [pushing]: threads in [Push] after the critical section; [pushed], [handled]: the messages
    pushed and handled so far. *)
Record actor := {
  work_queue_ : ThreadsafeQueue; main : main_pc; state : St;
  pushing : nat; pushed : list Msg; handled : list Msg }.
#[global] Instance eta_actor : Eta actor := fun a =>
  {| work_queue_ := work_queue_ a; main := main a; state := state a; pushing := pushing a;
     pushed := pushed a; handled := handled a |}.
Definition start_actor (s : St) : actor :=
  {| work_queue_ := {| queue_ := [] |}; main := MReady; state := s; pushing := 0; pushed := []; handled := [] |}.

Inductive actor_action := ActPush (m : Msg) | ActNotify | ActPop | ActWake | ActHandle.
Definition actor_act (x : actor_action) (a : actor) : option actor :=
  match x with
  | ActPush m => Some (a <| work_queue_ ::= Push m |> <| pushing ::= S |> <| pushed ::= fun l => l ++ [m] |>)
  | ActNotify =>
      match pushing a with
      | O => None
      | S n => Some (a <| pushing := n |> <| main ::= fun p => match p with MBlocked => MReady | _ => p end |>)
      end
  | ActPop =>
      match main a with
      | MReady =>
          match TryPop (work_queue_ a) with
          | Some (m, q) => Some (a <| work_queue_ := q |> <| main := if is_exit m then MExited else MProcess m |>)
          | None => Some (a <| main := MBlocked |>)
          end
      | _ => None
      end
  | ActWake => match main a with MBlocked => Some (a <| main := MReady |>) | _ => None end
  | ActHandle =>
      match main a with
      | MProcess m => Some (a <| state ::= Process m |> <| main := MReady |> <| handled ::= fun l => l ++ [m] |>)
      | _ => None
      end
  end.
(** [Actor::Stop] pushes a message with [kActorExit] and joins the thread: it returns when
    the thread is [MExited]. *)

Definition actor_step (a a' : actor) : Prop := exists x, actor_act x a = Some a'.
(** Steps other than pushes by others and spurious wake-ups. *)
Definition own_action (x : actor_action) : bool := match x with ActNotify | ActPop | ActHandle => true | _ => false end.
Definition own_step (a a' : actor) : Prop := exists x, own_action x = true /\ actor_act x a = Some a'.
Definition actor_quiet (a : actor) : Prop := forall x, own_action x = true -> actor_act x a = None.

(** ** The specification: the messages before the first exit, in order *)

Fixpoint before_exit (l : list Msg) : list Msg :=
  match l with [] => [] | m :: l' => if is_exit m then [] else m :: before_exit l' end.
Definition fold_process (l : list Msg) (s : St) : St := foldl (fun s m => Process m s) s l.

Definition current (a : actor) : list Msg := match main a with MProcess m => [m] | _ => [] end.
Record actor_inv (s0 : St) (a : actor) : Prop := {
  inv_state : state a = fold_process (handled a) s0;
  inv_plain : forall m, m ∈ handled a ++ current a -> is_exit m = false;
  inv_queue : exists popped, pushed a = popped ++ queue_ (work_queue_ a) /\
    match main a with
    | MExited => exists m, is_exit m = true /\ popped = handled a ++ [m]
    | _ => popped = handled a ++ current a
    end;
  inv_awake : main a = MBlocked -> (length (queue_ (work_queue_ a)) <= pushing a)%nat }.

Lemma actor_step_inv s0 a a' : actor_inv s0 a -> actor_step a a' -> actor_inv s0 a'.
Proof.
  intros [Is Ip (popped & Iq & Im) Iw] [x Hx]. unfold current in *. destruct x; cbn in Hx.
  - injection Hx as <-. split; unfold current; cbn; try done.
    + exists popped. split; [by rewrite Iq, <- app_assoc|done].
    + intros Hb. rewrite length_app. cbn. specialize (Iw Hb). lia.
  - destruct (pushing a) as [|n] eqn:En; [done|]. injection Hx as <-.
    split; unfold current; cbn; destruct (main a) eqn:Em; try done; by exists popped.
  - destruct (main a) eqn:Em; try done. rewrite app_nil_r in Im, Ip. unfold TryPop in Hx.
    destruct (queue_ (work_queue_ a)) as [|m l] eqn:Eq; injection Hx as <-.
    + split; unfold current; cbn; rewrite ?app_nil_r, ?Eq; try done; [by exists popped|cbn; lia].
    + destruct (is_exit m) eqn:He; split; unfold current; cbn; rewrite ?app_nil_r; try done.
      * exists (popped ++ [m]). split; [by rewrite Iq, <- app_assoc|]. exists m. by rewrite Im.
      * intros m' [Hm|Hm%list_elem_of_singleton]%elem_of_app; [by apply Ip|by subst].
      * exists (popped ++ [m]). split; [by rewrite Iq, <- app_assoc|by rewrite Im].
  - destruct (main a) eqn:Em; try done. injection Hx as <-. split; unfold current; cbn; try done. by exists popped.
  - destruct (main a) as [| |m|] eqn:Em; try done. injection Hx as <-. split; unfold current; cbn; rewrite ?app_nil_r; try done.
    + rewrite Is. unfold fold_process. by rewrite foldl_snoc.
    + by exists popped.
Qed.
Lemma actor_run_inv s0 a : rtc actor_step (start_actor s0) a -> actor_inv s0 a.
Proof.
  intros Hr. assert (actor_inv s0 (start_actor s0)) as Hs.
  { split; cbn; try done; [set_solver|by exists []]. }
  revert Hs. induction Hr as [|x y z Hxy _ IH]; [done|]. intros Hx. by apply IH, (actor_step_inv s0 x).
Qed.

Lemma before_exit_app l l' : (forall m, m ∈ l -> is_exit m = false) -> before_exit (l ++ l') = l ++ before_exit l'.
Proof.
  induction l as [|m l IH]; intros Hl; [done|]. cbn. rewrite (Hl m ltac:(left)), IH; [done|]. intros m' Hm'. apply Hl. by right.
Qed.

(** ** Coming to rest *)

Definition actor_measure (a : actor) : nat :=
  3 * length (queue_ (work_queue_ a)) + 2 * pushing a + match main a with MReady => 1 | MProcess _ => 2 | _ => 0 end.
Lemma own_step_measure a a' : own_step a a' -> (actor_measure a' < actor_measure a)%nat.
Proof.
  intros (x & Ho & Hx). unfold actor_measure. destruct x; try done; cbn in Hx.
  - destruct (pushing a) eqn:En; [done|]. injection Hx as <-. cbn. destruct (main a); lia.
  - destruct (main a) eqn:Em; try done. unfold TryPop in Hx.
    destruct (queue_ (work_queue_ a)) as [|m l] eqn:Eq; injection Hx as <-; cbn; rewrite ?Eq; cbn; [lia|]. destruct (is_exit m); lia.
  - destruct (main a) eqn:Em; try done. injection Hx as <-. cbn. lia.
Qed.

Lemma own_bounded k a a' : nsteps own_step k a a' -> (k <= actor_measure a)%nat.
Proof. induction 1 as [|k x y z Hxy _ IH]; [lia|]. apply own_step_measure in Hxy. lia. Qed.

Lemma own_progress a : (exists a', own_step a a') \/ actor_quiet a.
Proof.
  destruct (pushing a) as [|n] eqn:En.
  2:{ left. eexists _, ActNotify. split; [done|]. cbn. by rewrite En. }
  destruct (main a) eqn:Em.
  - left. destruct (TryPop (work_queue_ a)) as [[m q]|] eqn:Et; eexists _, ActPop; (split; [done|]); cbn; by rewrite Em, Et.
  - right. intros [] Hx; try done; cbn; by rewrite ?En, ?Em.
  - left. eexists _, ActHandle. split; [done|]. cbn. by rewrite Em.
  - right. intros [] Hx; try done; cbn; by rewrite ?En, ?Em.
Qed.
Lemma own_rests a : exists a', rtc own_step a a' /\ actor_quiet a'.
Proof.
  enough (forall k a, (actor_measure a < k)%nat -> exists a', rtc own_step a a' /\ actor_quiet a') as Hk by (apply (Hk (S (actor_measure a))); lia).
  clear a. induction k as [|k IH]; intros a Hlt; [lia|]. destruct (own_progress a) as [(a1 & H1)|Hq]; [|by exists a].
  destruct (IH a1) as (a' & Hr & Hq); [apply own_step_measure in H1; lia|]. exists a'. split; [by eapply rtc_l|done].
Qed.
Lemma own_run a a' : rtc own_step a a' -> rtc actor_step a a' /\ pushed a' = pushed a.
Proof.
  induction 1 as [|x y z (c & Hc & Hx) _ [IH1 IH2]]; [by split|]. split; [eapply rtc_l; [by exists c|done]|]. rewrite IH2.
  destruct c; try done; cbn in Hx; repeat case_match; by simplify_eq.
Qed.

(** C11: What an actor does.  Whatever the interleaving of the threads that push with the
    actor's own thread: the actor has always handled, one at a time, a prefix of the
    messages in the order in which they were pushed, none after an exit message; left alone
    it comes to rest after a bounded number of steps, and then it has handled all messages
    before the first exit message, its state is the handler folded over them, and it has
    returned if there was an exit message.  It never sleeps on a message. *)
Theorem actor_folds_handler s0 a : rtc actor_step (start_actor s0) a ->
  state a = fold_process (handled a) s0 /\ handled a `prefix_of` before_exit (pushed a) /\
  (forall k a', nsteps own_step k a a' -> (k <= actor_measure a)%nat) /\
  (exists a', rtc own_step a a' /\ actor_quiet a') /\
  (forall a', rtc own_step a a' -> actor_quiet a' ->
     state a' = fold_process (before_exit (pushed a)) s0 /\ (main a' = MExited <-> exists m, m ∈ pushed a /\ is_exit m = true)).
Proof.
  intros Hr. pose proof (actor_run_inv s0 a Hr) as [Is Ip (popped & Iq & Im) _]. split_and!; [done| |intros k a'; apply own_bounded|apply own_rests|].
  - rewrite Iq. assert (forall m, m ∈ handled a -> is_exit m = false) as Hp by set_solver.
    destruct (main a); [..|destruct Im as (m & He & ->)]; subst; rewrite <- ?app_assoc, ?before_exit_app by done; by eexists.
  - intros a' Hr' Hq. destruct (own_run a a' Hr') as [Ha' Ep].
    destruct (actor_run_inv s0 a' (transitivity Hr Ha')) as [Is' Ip' (popped' & Iq' & Im') Iw']. rewrite <- Ep, Iq'.
    assert (pushing a' = 0%nat) as Hp0.
    { pose proof (Hq ActNotify eq_refl) as H1. cbn in H1. by destruct (pushing a'). }
    assert (forall m, m ∈ handled a' -> is_exit m = false) as Hpl by set_solver.
    unfold current in *. destruct (main a') as [| |m|] eqn:Em.
    + specialize (Hq ActPop eq_refl). cbn in Hq. rewrite Em in Hq. by destruct (TryPop _) as [[]|].
    + specialize (Iw' eq_refl). rewrite Hp0 in Iw'. destruct (queue_ (work_queue_ a')) as [|m l]; [|cbn in Iw'; lia].
      rewrite Im', app_nil_r, before_exit_app, Is' by set_solver. cbn. rewrite app_nil_r. split; [done|].
      split; [done|]. intros (m & Hm & He). specialize (Hpl m Hm). congruence.
    + specialize (Hq ActHandle eq_refl). cbn in Hq. by rewrite Em in Hq.
    + destruct Im' as (m & He & ->). rewrite <- app_assoc, before_exit_app by done. cbn. rewrite He, app_nil_r, Is'.
      split; [done|]. split; [|done]. intros _. exists m. split; [set_solver|done].
Qed.

Definition actor_acts (l : list actor_action) (a : actor) : option actor :=
  foldl (fun o x => a ← o; actor_act x a) (Some a) l.
Lemma actor_acts_sound l a a' : actor_acts l a = Some a' -> rtc actor_step a a'.
Proof.
  unfold actor_acts. induction l as [|x l IH] using rev_ind in a' |- *; [by intros [= <-]|].
  rewrite foldl_snoc. intros (a1 & H1 & H2)%bind_Some. eapply rtc_r; [by apply IH|]. by exists x.
Qed.
End Actor.

(** Messages are numbers, zero is the exit message; the state is their list. *)
Definition demo_actor : list (actor_action (Msg := Z)) := [ActPop; ActPush 3; ActPush 4; ActNotify; ActPush 0; ActPush 5; ActPop].
Definition demo_actor_state : actor (Msg := Z) (St := list Z) :=
  default (start_actor []) (actor_acts (Z.eqb 0) cons demo_actor (start_actor [])).
Lemma actor_folds_handler_witness :
  main demo_actor_state = MProcess 3 /\
  exists a', rtc (own_step (Z.eqb 0) cons) demo_actor_state a' /\ state a' = [4; 3] /\ main a' = MExited.
Proof.
  split; [by vm_compute|].
  destruct (actor_folds_handler (Z.eqb 0) cons [] demo_actor_state) as (_ & _ & _ & (a' & Hr & Hq) & Hall).
  { apply (actor_acts_sound (Z.eqb 0) cons demo_actor). by vm_compute. }
  exists a'. split; [done|]. destruct (Hall a' Hr Hq) as [Hs He]. split; [exact Hs|]. apply He. exists 0. split; [|done].
  vm_compute. by repeat constructor.
Defined.
