(* ===== verification/Executors.v ===== *)
(** * Executors (core/executor/thread_pool.hpp, thread_pool.cpp, executor.hpp, executor.cpp)

    Worker threads take tasks from a queue under a mutex and sleep on a condition variable
    when there are none.  What a thread does while it holds the mutex is one step, since no
    other thread can come between; what it does outside (running a task, notifying after the
    mutex was released) is a step of its own, so that the model has every interleaving that
    matters for lost wake-ups.  A thread that waits on the condition variable can wake up
    without being notified.

    The theorems: tasks are started in the order they were queued and each exactly once; no
    task is left behind while all threads sleep; the threads come to rest; the counters of the
    executor count what its comment says, unless a task throws. *)

From S2P Require Import Prelude.

Section Executor.
(** A task, and whether its function throws (the exception goes to the future). *)
Context {T : Type} (throws : T -> bool).

(** ** The thread pool *)

(** A worker thread: about to lock the mutex, asleep on the condition variable, in the function
    of a task, between the function and the lock of [mu_], returned. *)
Inductive worker := WReady | WBlocked | WRunning (t : T) | WCounting | WExited.
Record ThreadPool := { workers_ : list worker; tasks_ : list T; stop_ : bool }.
#[global] Instance eta_ThreadPool : Eta ThreadPool := fun p =>
  {| workers_ := workers_ p; tasks_ := tasks_ p; stop_ := stop_ p |}.
Definition mkThreadPool (threads : nat) : ThreadPool :=
  {| workers_ := replicate threads WReady; tasks_ := []; stop_ := false |}.

(** The critical section of [enqueue]. *)
Definition enqueue (t : T) (p : ThreadPool) : res ThreadPool :=
  if stop_ p then Err (CheckFailed "!stop_") else Ok (p <| tasks_ ::= fun l => l ++ [t] |>).
(** The critical section of a worker, up to the next time it releases the mutex. *)
Definition worker_section (p : ThreadPool) : worker * ThreadPool :=
  match tasks_ p with
  | t :: ts => (WRunning t, p <| tasks_ := ts |>)
  | [] => (if stop_ p then WExited else WBlocked, p)
  end.
Definition wake (w : worker) : worker := match w with WBlocked => WReady | _ => w end.
Definition pool_size (p : ThreadPool) : Z := Z.of_nat (length (tasks_ p)).

(** ** The executor *)

(** The counters are [int]s; fewer than 2^31 tasks are assumed.  [mu_] tells whether the mutex
    has not been destroyed. *)
Record Executor := {
  thread_pool_ : ThreadPool; num_threads_ : Z; num_added_ : Z; num_finished_ : Z; mu_ : bool }.
#[global] Instance eta_Executor : Eta Executor := fun e =>
  {| thread_pool_ := thread_pool_ e; num_threads_ := num_threads_ e; num_added_ := num_added_ e;
     num_finished_ := num_finished_ e; mu_ := mu_ e |}.
Definition mkExecutor (threads : nat) : Executor :=
  {| thread_pool_ := mkThreadPool threads; num_threads_ := Z.of_nat threads; num_added_ := 0;
     num_finished_ := 0; mu_ := true |}.
Definition GetNumPendingTask (e : Executor) : Z := num_added_ e - num_finished_ e.
Definition HasFreeThreads (e : Executor) : bool := GetNumPendingTask e <? num_threads_ e.
Definition GetNumAdded (e : Executor) : Z := num_added_ e.
Definition GetNumFinished (e : Executor) : Z := num_finished_ e.
(** [std::lock_guard<std::mutex> lk(mu_); num_finished_ += 1;] at the end of a task. *)
Definition count_finished (e : Executor) : res Executor :=
  if mu_ e then Ok (e <| num_finished_ ::= Z.add 1 |>) else Err (Undefined "mu_ is destroyed").

(** ** The threads *)

(** The destructor of the executor: [mu_], the last member, is destroyed first, then the pool,
    whose destructor sets [stop_], notifies and joins. *)
Inductive dtor := DNone | DMutex | DStop | DNotified | DJoined.
#[global] Instance dtor_eq_dec : EqDecision dtor.
Proof. solve_decision. Defined.

(** [adding]: threads in [Add] before [enqueue]; [notifying]: threads in [enqueue] after the
    critical section.  The other lists are the tasks given to [Add], queued, started, run. *)
Record pool_sys := {
  ex : Executor; adding : list T; notifying : nat; dtor_ : dtor;
  added : list T; enqueued : list T; started_ : list T; finished_ : list T }.
#[global] Instance eta_pool_sys : Eta pool_sys := fun s =>
  {| ex := ex s; adding := adding s; notifying := notifying s; dtor_ := dtor_ s; added := added s;
     enqueued := enqueued s; started_ := started_ s; finished_ := finished_ s |}.
Definition start_pool (threads : nat) : pool_sys :=
  {| ex := mkExecutor threads; adding := []; notifying := 0; dtor_ := DNone; added := [];
     enqueued := []; started_ := []; finished_ := [] |}.

Definition pool (s : pool_sys) : ThreadPool := thread_pool_ (ex s).
Definition workers (s : pool_sys) : list worker := workers_ (pool s).
Definition set_pool (p : ThreadPool) (s : pool_sys) : pool_sys := s <| ex ::= fun e => e <| thread_pool_ := p |> |>.
Definition set_worker (i : nat) (w : worker) (s : pool_sys) : pool_sys :=
  set_pool ((pool s) <| workers_ ::= <[i := w]> |>) s.

(** [ANotify w]: [notify_one] wakes worker [w], or nobody sleeps. *)
Inductive pool_action :=
| AAdd (t : T) | AEnqueue (k : nat) | ANotify (w : option nat)
| ASection (i : nat) | ASpurious (i : nat) | AFunc (i : nat) | ACount (i : nat)
| ADestroy | AStop | ANotifyAll | AJoin.

Definition sleeping (w : worker) : bool := match w with WBlocked => true | _ => false end.
Definition exited (w : worker) : bool := match w with WExited => true | _ => false end.

Definition act (a : pool_action) (s : pool_sys) : option (res pool_sys) :=
  let when_dtor d r := if decide (dtor_ s = d) then Some r else None in
  match a with
  | AAdd t =>
      when_dtor DNone (Ok (s <| ex ::= fun e => e <| num_added_ ::= Z.add 1 |> |> <| adding ::= fun l => l ++ [t] |>
                  <| added ::= fun l => l ++ [t] |>))
  | AEnqueue k =>
      t ← adding s !! k;
      Some (match enqueue t (pool s) with
            | Ok p => Ok (set_pool p s <| adding ::= delete k |> <| notifying ::= S |> <| enqueued ::= fun l => l ++ [t] |>)
            | Err e => Err e
            end)
  | ANotify w =>
      match notifying s with
      | O => None
      | S n =>
          match w with
          | Some i => match workers s !! i with
                      | Some WBlocked => Some (Ok (set_worker i WReady s <| notifying := n |>))
                      | _ => None
                      end
          | None => if existsb sleeping (workers s) then None else Some (Ok (s <| notifying := n |>))
          end
      end
  | ASection i =>
      match workers s !! i with
      | Some WReady =>
          let '(w, p) := worker_section (pool s) in
          Some (Ok (set_worker i w (set_pool p s)
                      <| started_ ::= fun l => match w with WRunning t => l ++ [t] | _ => l end |>))
      | _ => None
      end
  | ASpurious i => match workers s !! i with Some WBlocked => Some (Ok (set_worker i WReady s)) | _ => None end
  | AFunc i =>
      match workers s !! i with
      | Some (WRunning t) =>
          Some (Ok (set_worker i (if throws t then WReady else WCounting) s <| finished_ ::= fun l => l ++ [t] |>))
      | _ => None
      end
  | ACount i =>
      match workers s !! i with
      | Some WCounting =>
          Some (match count_finished (ex s) with Ok e => Ok (set_worker i WReady (s <| ex := e |>)) | Err e => Err e end)
      | _ => None
      end
  | ADestroy =>
      match adding s, notifying s with
      | [], O => when_dtor DNone (Ok (s <| ex ::= fun e => e <| mu_ := false |> |> <| dtor_ := DMutex |>))
      | _, _ => None
      end
  | AStop => when_dtor DMutex (Ok (set_pool ((pool s) <| stop_ := true |>) s <| dtor_ := DStop |>))
  | ANotifyAll => when_dtor DStop (Ok (set_pool ((pool s) <| workers_ ::= fmap wake |>) s <| dtor_ := DNotified |>))
  | AJoin => if forallb exited (workers s) then when_dtor DNotified (Ok (s <| dtor_ := DJoined |>)) else None
  end.

(** What the threads do by themselves: no new tasks, no destruction, no spurious wake-ups. *)
Definition internal (a : pool_action) : bool :=
  match a with AAdd _ | ADestroy | ASpurious _ => false | _ => true end.
Definition pool_step (s s' : pool_sys) : Prop := exists a, act a s = Some (Ok s').
Definition internal_step (s s' : pool_sys) : Prop := exists a, internal a = true /\ act a s = Some (Ok s').
Definition reached (threads : nat) (s : pool_sys) : Prop := rtc pool_step (start_pool threads) s.
(** No thread has anything to do. *)
Definition quiet (s : pool_sys) : Prop := forall a, internal a = true -> act a s = None.

(** ** Counting workers *)

Definition weigh (f : worker -> nat) (l : list worker) : nat := sum_list_with f l.
Lemma weigh_insert f l i w w' : l !! i = Some w -> (weigh f (<[i := w']> l) + f w = weigh f l + f w')%nat.
Proof.
  revert i. induction l as [|x l IH]; intros [|i] Hi; try done; cbn in Hi.
  - injection Hi as ->. unfold weigh. cbn. lia.
  - specialize (IH i Hi). unfold weigh in *. change (<[S i := w']> (x :: l)) with (x :: <[i := w']> l). cbn. lia.
Qed.
Lemma weigh_zero f l : weigh f l = 0%nat <-> forall w, w ∈ l -> f w = 0%nat.
Proof.
  unfold weigh. induction l as [|x l IH]; cbn; [split; [set_solver|done]|]. rewrite Nat.eq_add_0, IH. set_solver.
Qed.
Lemma weigh_elem f l w : w ∈ l -> (f w <= weigh f l)%nat.
Proof. unfold weigh. induction 1; cbn; lia. Qed.

Definition is_ready (w : worker) : nat := match w with WReady => 1 | _ => 0 end.
Definition is_blocked (w : worker) : nat := match w with WBlocked => 1 | _ => 0 end.
Definition is_counting (w : worker) : nat := match w with WCounting => 1 | _ => 0 end.
Definition is_running (w : worker) : nat := match w with WRunning _ => 1 | _ => 0 end.
Definition run_of (w : worker) : list T := match w with WRunning t => [t] | _ => [] end.
Definition running (l : list worker) : list T := l ≫= run_of.
Lemma running_insert l i w w' : l !! i = Some w -> run_of w ++ running (<[i := w']> l) ≡ₚ run_of w' ++ running l.
Proof.
  unfold running. revert i. induction l as [|x l IH]; intros [|i] Hi; try done; cbn in Hi |- *.
  - injection Hi as ->. by rewrite !app_assoc, (Permutation_app_comm (run_of w) (run_of w')).
  - rewrite !app_assoc, (Permutation_app_comm (run_of w)), (Permutation_app_comm (run_of w')), <- !app_assoc.
    by rewrite (IH i Hi).
Qed.
Lemma running_length l : length (running l) = weigh is_running l.
Proof. unfold running, weigh. induction l as [|[]]; cbn; lia. Qed.
Lemma running_wake l : running (wake <$> l) = running l.
Proof. unfold running. induction l as [|[] l IH]; cbn; [done|rewrite ?IH; done..]. Qed.

(** ** The invariant *)

Definition thrown (l : list T) : nat := length (filter (fun t => throws t = true) l).

Record pool_inv (threads : nat) (s : pool_sys) : Prop := {
  inv_threads : length (workers s) = threads /\ num_threads_ (ex s) = Z.of_nat threads;
  (* every task is in one place *)
  inv_tasks : added s ≡ₚ adding s ++ tasks_ (pool s) ++ running (workers s) ++ finished_ s;
  inv_order : enqueued s = started_ s ++ tasks_ (pool s);
  (* when a worker sleeps, others or notifications are there for the tasks *)
  inv_awake : (0 < weigh is_blocked (workers s))%nat ->
    (length (tasks_ (pool s)) <= notifying s + weigh is_ready (workers s))%nat;
  inv_stop : stop_ (pool s) = match dtor_ s with DNone | DMutex => false | _ => true end;
  inv_exited : WExited ∈ workers s -> stop_ (pool s) = true /\ tasks_ (pool s) = [];
  inv_notified : match dtor_ s with DNotified | DJoined => weigh is_blocked (workers s) = 0%nat | _ => True end;
  inv_joined : dtor_ s = DJoined -> forall w, w ∈ workers s -> w = WExited;
  inv_callers : dtor_ s <> DNone -> adding s = [] /\ notifying s = 0%nat;
  inv_mutex : mu_ (ex s) = match dtor_ s with DNone => true | _ => false end;
  inv_added : num_added_ (ex s) = Z.of_nat (length (added s));
  inv_finished : num_finished_ (ex s) + Z.of_nat (weigh is_counting (workers s) + thrown (finished_ s)) =
    Z.of_nat (length (finished_ s)) }.

Lemma start_inv n : pool_inv n (start_pool n).
Proof.
  assert (forall f : worker -> nat, f WReady = 0%nat -> weigh f (replicate n WReady) = 0%nat) as H0.
  { intros f Hf. apply weigh_zero. by intros w [-> _]%elem_of_replicate. }
  split; cbn; rewrite ?length_replicate, ?H0 by done; try done.
  - rewrite app_nil_r. clear H0. by induction n.
  - lia.
  - by intros [[=] _]%elem_of_replicate.
Qed.

(** A worker changes its place. *)
Lemma exited_insert i w (l : list worker) : WExited ∈ <[i := w]> l -> w = WExited \/ WExited ∈ l.
Proof.
  intros [j Hj]%list_elem_of_lookup. apply list_lookup_insert_Some in Hj as [(-> & -> & _)|[_ Hj]]; [by left|].
  right. by eapply list_elem_of_lookup_2.
Qed.

Ltac pool_simpl s :=
  unfold workers, set_worker, set_pool, pool in *; cbn -[weigh running thrown]; change (thread_pool_ (ex s)) with (pool s) in *; change (workers_ (pool s)) with (workers s) in *.

(** Steps that only change the place of worker [i]. *)
Lemma move_worker n s i w w' : pool_inv n s -> workers s !! i = Some w ->
  run_of w = [] -> run_of w' = [] -> w' <> WExited -> w <> WExited ->
  (is_blocked w' <= is_blocked w)%nat -> (is_ready w <= is_ready w')%nat -> is_counting w' = is_counting w ->
  pool_inv n (set_worker i w' s).
Proof.
  intros [It Ia Io Iw Is Ie In Ij Ic Im Ina Inf] Hi Hr Hr' Hx Hx' Hb Hrd Hc.
  pose proof (weigh_insert is_blocked _ i w w' Hi). pose proof (weigh_insert is_ready _ i w w' Hi).
  pose proof (weigh_insert is_counting _ i w w' Hi). pose proof (running_insert _ i w w' Hi) as Hrun.
  rewrite Hr, Hr' in Hrun. cbn [app] in Hrun.
  split; pool_simpl s; rewrite ?length_insert; try done.
  - by rewrite Hrun.
  - intros. assert (0 < weigh is_blocked (workers s))%nat by lia. specialize (Iw ltac:(done)). lia.
  - intros [->|?]%exited_insert; [done|auto].
  - destruct (dtor_ s); try done; lia.
  - intros Hj. apply Ij with (w := w) in Hj; [done|]. by eapply list_elem_of_lookup_2.
  - lia.
Qed.

Lemma add_inv n s t s' : pool_inv n s -> act (AAdd t) s = Some (Ok s') -> pool_inv n s'.
Proof.
  intros [It Ia Io Iw Is Ie In Ij Ic Im Ina Inf]. cbn [act]. case_decide as Hd; [|done]. intros [= <-].
  rewrite Hd in *. split; pool_simpl s; rewrite ?Hd; try done.
  - rewrite Ia. solve_Permutation.
  - rewrite Ina, length_app. cbn. lia.
Qed.

Lemma enqueue_inv n s k s' : pool_inv n s -> act (AEnqueue k) s = Some (Ok s') -> pool_inv n s'.
Proof.
  intros [It Ia Io Iw Is Ie In Ij Ic Im Ina Inf]. cbn [act]. intros H'.
  apply bind_Some in H' as (t & Hk & H'). unfold enqueue in H'. destruct (stop_ (pool s)) eqn:Hs; [done|]. injection H' as <-.
  split; pool_simpl s; rewrite ?Hs; try done.
  - rewrite Ia. apply delete_Permutation in Hk. rewrite Hk at 1. solve_Permutation.
  - by rewrite Io, <- app_assoc.
  - intros Hb. specialize (Iw Hb). rewrite length_app. cbn. lia.
  - intros He. by destruct (Ie He).
  - intros Hdn. destruct (Ic Hdn) as [E _]. by rewrite E in Hk.
Qed.

Lemma wake_inv n s i : pool_inv n s -> workers s !! i = Some WBlocked -> pool_inv n (set_worker i WReady s).
Proof. intros Hs Hi. eapply move_worker; [done|exact Hi|..]; first [done | cbn; lia]. Qed.

Lemma notify_inv n s w s' : pool_inv n s -> act (ANotify w) s = Some (Ok s') -> pool_inv n s'.
Proof.
  intros Hs Ha. cbn [act] in Ha. destruct (notifying s) as [|k] eqn:Hk; [done|].
  assert (forall s1, (dtor_ s1 = dtor_ s -> pool_inv n s1) -> notifying s1 = S k -> dtor_ s1 = dtor_ s ->
    ((0 < weigh is_blocked (workers s1))%nat -> (length (tasks_ (pool s1)) <= k + weigh is_ready (workers s1))%nat) ->
    pool_inv n (s1 <| notifying := k |>)) as Hdec.
  { intros s1 H1 Hk1 Hd1 Hw. specialize (H1 Hd1). destruct H1 as [It Ia Io Iw Is Ie In Ij Ic Im Ina Inf]. split; try done.
    intros Hdn. destruct (Ic Hdn) as [_ E]. congruence. }
  destruct w as [i|].
  - destruct (workers s !! i) as [[]|] eqn:Hi; try done. injection Ha as <-.
    change (pool_inv n ((set_worker i WReady s) <| notifying := k |>)).
    apply Hdec; [intros _; by apply wake_inv|done|done|]. intros Hb.
    pose proof (weigh_insert is_blocked _ i _ WReady Hi) as E1. pose proof (weigh_insert is_ready _ i _ WReady Hi) as E2.
    cbn [is_blocked is_ready] in E1, E2. destruct Hs as [_ _ _ Iw _ _ _ _ _ _ _ _]. pool_simpl s.
    specialize (Iw ltac:(lia)). lia.
  - destruct (existsb sleeping (workers s)) eqn:He; [done|]. injection Ha as <-.
    apply Hdec; [done|done|done|]. intros Hb. exfalso. enough (weigh is_blocked (workers s) = 0%nat) by lia.
    apply weigh_zero. intros w Hw. destruct w; try done.
    assert (existsb sleeping (workers s) = true); [|congruence]. apply existsb_exists. exists WBlocked. by rewrite <- list_elem_of_In.
Qed.

Lemma section_inv n s i s' : pool_inv n s -> act (ASection i) s = Some (Ok s') -> pool_inv n s'.
Proof.
  intros [It Ia Io Iw Is Ie In Ij Ic Im Ina Inf]. cbn [act]. destruct (workers s !! i) as [[]|] eqn:Hi; try done.
  unfold worker_section. destruct (tasks_ (pool s)) as [|t ts] eqn:Ht.
  - set (w := if stop_ (pool s) then WExited else WBlocked). intros [= <-].
    pose proof (weigh_insert is_blocked _ i _ w Hi) as E1. pose proof (weigh_insert is_counting _ i _ w Hi) as E3.
    pose proof (running_insert _ i _ w Hi) as Er. assert (run_of w = []) as Hrw by (unfold w; by destruct (stop_ _)).
    rewrite Hrw in Er. cbn [run_of app] in Er. assert (is_counting w = 0%nat) as Hcw by (unfold w; by destruct (stop_ _)).
    split; pool_simpl s; rewrite ?length_insert, ?Ht; try done.
    + rewrite Er. by rewrite Ia.
    + unfold w. by destruct (stop_ (pool s)).
    + cbn. lia.
    + intros [He|He]%exited_insert; [|by destruct (Ie He)]. split; [|done]. unfold w in He. by destruct (stop_ (pool s)).
    + destruct (dtor_ s) eqn:Hd; try done; (assert (is_blocked w = 0%nat) by (unfold w; by rewrite Is)); cbn in E1; lia.
    + intros Hj. by specialize (Ij Hj WReady (list_elem_of_lookup_2 _ _ _ Hi)).
    + rewrite Hcw in E3. cbn in E3. lia.
  - intros [= <-].
    pose proof (weigh_insert is_blocked _ i _ (WRunning t) Hi) as E1. pose proof (weigh_insert is_ready _ i _ (WRunning t) Hi) as E2.
    pose proof (weigh_insert is_counting _ i _ (WRunning t) Hi) as E3. cbn in E1, E2, E3.
    pose proof (running_insert _ i _ (WRunning t) Hi) as Er. cbn [run_of app] in Er.
    split; pool_simpl s; rewrite ?length_insert; try done.
    + rewrite Er, Ia. solve_Permutation.
    + by rewrite Io, <- app_assoc.
    + intros Hb. specialize (Iw ltac:(lia)). cbn in Iw. lia.
    + intros [He|He]%exited_insert; [done|]. by destruct (Ie He).
    + destruct (dtor_ s); try done; lia.
    + intros Hj. by specialize (Ij Hj WReady (list_elem_of_lookup_2 _ _ _ Hi)).
    + lia.
Qed.

Lemma func_inv n s i s' : pool_inv n s -> act (AFunc i) s = Some (Ok s') -> pool_inv n s'.
Proof.
  intros [It Ia Io Iw Is Ie In Ij Ic Im Ina Inf]. cbn [act]. destruct (workers s !! i) as [[| |t| |]|] eqn:Hi; try done. intros [= <-].
  set (w := if throws t then WReady else WCounting).
  pose proof (weigh_insert is_blocked _ i _ w Hi) as E1. pose proof (weigh_insert is_ready _ i _ w Hi) as E2.
  pose proof (weigh_insert is_counting _ i _ w Hi) as E3. pose proof (running_insert _ i _ w Hi) as Er.
  assert (run_of w = [] /\ is_blocked w = 0%nat /\ w <> WExited) as (Hrw & Hbw & Hxw) by (unfold w; by destruct (throws t)).
  assert (is_counting w + thrown [t] = 1)%nat as Hcw.
  { unfold w, thrown. rewrite filter_cons, filter_nil. destruct (throws t) eqn:Et; [by rewrite decide_True|by rewrite decide_False by congruence]. }
  rewrite Hrw in Er. rewrite Hbw in E1. cbn [run_of is_blocked is_ready is_counting app] in *.
  split; pool_simpl s; rewrite ?length_insert; try done.
  - rewrite Ia, <- Er. cbn. solve_Permutation.
  - intros Hb. specialize (Iw ltac:(lia)). lia.
  - intros [He|He]%exited_insert; [done|]. by destruct (Ie He).
  - destruct (dtor_ s); try done; lia.
  - intros Hj. by specialize (Ij Hj _ (list_elem_of_lookup_2 _ _ _ Hi)).
  - unfold thrown in *. rewrite filter_app, !length_app in *. cbn [length] in *. lia.
Qed.

Lemma count_inv n s i s' : pool_inv n s -> act (ACount i) s = Some (Ok s') -> pool_inv n s'.
Proof.
  intros [It Ia Io Iw Is Ie In Ij Ic Im Ina Inf]. cbn [act]. destruct (workers s !! i) as [[]|] eqn:Hi; try done.
  unfold count_finished. destruct (mu_ (ex s)) eqn:Hmu; [|done]. intros [= <-].
  pose proof (weigh_insert is_blocked _ i _ WReady Hi) as E1. pose proof (weigh_insert is_ready _ i _ WReady Hi) as E2.
  pose proof (weigh_insert is_counting _ i _ WReady Hi) as E3. pose proof (running_insert _ i _ WReady Hi) as Er.
  cbn [run_of is_blocked is_ready is_counting app] in *.
  split; pool_simpl s; rewrite ?length_insert, ?Hmu; try done.
  - by rewrite Er.
  - intros Hb. specialize (Iw ltac:(lia)). lia.
  - intros [He|He]%exited_insert; [done|]. by destruct (Ie He).
  - destruct (dtor_ s); try done; lia.
  - intros Hj. by specialize (Ij Hj _ (list_elem_of_lookup_2 _ _ _ Hi)).
  - lia.
Qed.

Lemma weigh_wake l : weigh is_blocked (wake <$> l) = 0%nat /\ weigh is_counting (wake <$> l) = weigh is_counting l.
Proof. unfold weigh. induction l as [|[] l [IH1 IH2]]; cbn; auto. Qed.
Lemma exited_wake (l : list worker) : WExited ∈ wake <$> l -> WExited ∈ l.
Proof. intros (w & E & Hw)%list_elem_of_fmap. by destruct w. Qed.

Lemma destructor_inv n s a s' : a ∈ [ADestroy; AStop; ANotifyAll; AJoin] ->
  pool_inv n s -> act a s = Some (Ok s') -> pool_inv n s'.
Proof.
  intros Hin [It Ia Io Iw Is Ie In Ij Ic Im Ina Inf].
  repeat (apply elem_of_cons in Hin as [->|Hin]; [cbn [act]|]); [..|by apply elem_of_nil in Hin].
  - destruct (adding s) eqn:E1; [|done]. destruct (notifying s) eqn:E2; [|done]. case_decide as Hd; [|done]. intros [= <-].
    rewrite Hd in *. split; pool_simpl s; by rewrite ?E1, ?E2.
  - case_decide as Hd; [|done]. intros [= <-]. rewrite Hd in *. destruct (Ic ltac:(done)) as [E1 E2].
    split; pool_simpl s; rewrite ?E1, ?E2 in *; try done. intros He. by destruct (Ie He).
  - case_decide as Hd; [|done]. intros [= <-]. rewrite Hd in *. destruct (Ic ltac:(done)) as [E1 E2].
    split; pool_simpl s; rewrite ?length_fmap, ?running_wake, ?(proj1 (weigh_wake _)), ?(proj2 (weigh_wake _)); try done; [lia|].
    intros He%exited_wake. by apply Ie.
  - destruct (forallb exited (workers s)) eqn:Hx; [|done]. case_decide as Hd; [|done]. intros [= <-]. rewrite Hd in *.
    destruct (Ic ltac:(done)) as [E1 E2]. split; pool_simpl s; try done. intros _ w Hw. rewrite forallb_forall in Hx.
    specialize (Hx w (proj1 (list_elem_of_In _ _) Hw)). by destruct w.
Qed.

Lemma pool_step_inv n s s' : pool_inv n s -> pool_step s s' -> pool_inv n s'.
Proof.
  intros Hs [a Ha]. destruct a.
  - by eapply add_inv.
  - by eapply enqueue_inv.
  - by eapply notify_inv.
  - by eapply section_inv.
  - cbn in Ha. destruct (workers s !! i) as [[]|] eqn:Hi; try done. injection Ha as <-. by apply wake_inv.
  - by eapply func_inv.
  - by eapply count_inv.
  - eapply destructor_inv; [|done|exact Ha]. set_solver.
  - eapply destructor_inv; [|done|exact Ha]. set_solver.
  - eapply destructor_inv; [|done|exact Ha]. set_solver.
  - eapply destructor_inv; [|done|exact Ha]. set_solver.
Qed.
Lemma reached_inv n s : reached n s -> pool_inv n s.
Proof.
  intros Hr. pose proof (start_inv n) as Hi. unfold reached in Hr. revert Hi.
  induction Hr as [|x y z Hxy _ IH]; [done|]. intros Hx. by apply IH, (pool_step_inv n x).
Qed.

(** ** Coming to rest *)

Definition work_left (w : worker) : nat :=
  match w with WReady => 1 | WRunning _ => 3 | WCounting => 2 | _ => 0 end.
Definition measure (s : pool_sys) : nat :=
  7 * length (adding s) + 4 * length (tasks_ (pool s)) + 2 * notifying s + weigh work_left (workers s) +
  match dtor_ s with DNone | DJoined => 0 | DMutex => length (workers s) + 3 | DStop => length (workers s) + 2 | DNotified => 1 end.

Lemma weigh_work_wake l : (weigh work_left (wake <$> l) <= weigh work_left l + length l)%nat.
Proof. unfold weigh. induction l as [|[] l IH]; cbn; lia. Qed.

Lemma internal_measure s s' : internal_step s s' -> (measure s' < measure s)%nat.
Proof.
  intros (a & Hi & Ha). unfold measure. destruct a; try done; cbn [act] in Ha.
  - apply bind_Some in Ha as (t & Hk & Ha). unfold enqueue in Ha. destruct (stop_ (pool s)); [done|]. injection Ha as <-.
    pose proof (length_delete (adding s) k ltac:(by eexists)) as Hl. apply lookup_lt_Some in Hk. pool_simpl s.
    rewrite Hl, length_app. cbn. lia.
  - destruct (notifying s) as [|m] eqn:Hm; [done|]. destruct w as [i|].
    + destruct (workers s !! i) as [[]|] eqn:Hw; try done. injection Ha as <-.
      pose proof (weigh_insert work_left _ i _ WReady Hw) as E. cbn in E. pool_simpl s. rewrite length_insert. lia.
    + destruct (existsb _ _); [done|]. injection Ha as <-. pool_simpl s. lia.
  - destruct (workers s !! i) as [[]|] eqn:Hw; try done. unfold worker_section in Ha.
    destruct (tasks_ (pool s)) as [|t ts] eqn:Ht; injection Ha as <-.
    + pose proof (weigh_insert work_left _ i _ (if stop_ (pool s) then WExited else WBlocked) Hw) as E.
      assert (work_left (if stop_ (pool s) then WExited else WBlocked) = 0%nat) as E0 by (by destruct (stop_ _)).
      rewrite E0 in E. cbn in E. pool_simpl s. rewrite length_insert, Ht. cbn. lia.
    + pose proof (weigh_insert work_left _ i _ (WRunning t) Hw) as E. cbn in E. pool_simpl s. rewrite length_insert. lia.
  - destruct (workers s !! i) as [[| |t| |]|] eqn:Hw; try done. injection Ha as <-.
    pose proof (weigh_insert work_left _ i _ (if throws t then WReady else WCounting) Hw) as E.
    assert (work_left (if throws t then WReady else WCounting) <= 2)%nat by (by destruct (throws t); cbn; lia).
    cbn in E. pool_simpl s. rewrite length_insert. lia.
  - destruct (workers s !! i) as [[]|] eqn:Hw; try done. unfold count_finished in Ha.
    destruct (mu_ (ex s)); [|done]. injection Ha as <-.
    pose proof (weigh_insert work_left _ i _ WReady Hw) as E. cbn in E. pool_simpl s. rewrite length_insert. lia.
  - case_decide as Hd; [|done]. injection Ha as <-. rewrite Hd. pool_simpl s. lia.
  - case_decide as Hd; [|done]. injection Ha as <-. rewrite Hd. pool_simpl s.
    pose proof (weigh_work_wake (workers s)). lia.
  - destruct (forallb _ _); [|done]. case_decide as Hd; [|done]. injection Ha as <-. rewrite Hd. pool_simpl s. lia.
Qed.

Definition idle (w : worker) : bool := match w with WBlocked | WExited => true | _ => false end.

(** With nothing left to do, all workers sleep or have returned. *)
Lemma quiet_idle s : quiet s -> adding s = [] /\ notifying s = 0%nat /\ (forall w, w ∈ workers s -> idle w = true) /\
  (dtor_ s = DNone \/ dtor_ s = DJoined \/ dtor_ s = DNotified /\ forallb exited (workers s) = false).
Proof.
  intros Hq. split_and!.
  - destruct (adding s) as [|t l] eqn:E; [done|]. specialize (Hq (AEnqueue 0) eq_refl). cbn in Hq. by rewrite E in Hq.
  - destruct (notifying s) as [|k] eqn:E; [done|]. exfalso. pose proof (Hq (ANotify None) eq_refl) as H1. cbn in H1. rewrite E in H1.
    destruct (existsb sleeping (workers s)) eqn:Ex; [|done]. apply existsb_exists in Ex as (w & Hw & Hs).
    apply list_elem_of_In, list_elem_of_lookup in Hw as [i Hi]. destruct w; try done.
    specialize (Hq (ANotify (Some i)) eq_refl). cbn in Hq. by rewrite E, Hi in Hq.
  - intros w [i Hi]%list_elem_of_lookup. destruct w; try done.
    + specialize (Hq (ASection i) eq_refl). cbn in Hq. rewrite Hi in Hq. by destruct (worker_section (pool s)).
    + specialize (Hq (AFunc i) eq_refl). cbn in Hq. by rewrite Hi in Hq.
    + specialize (Hq (ACount i) eq_refl). cbn in Hq. by rewrite Hi in Hq.
  - pose proof (Hq AStop eq_refl) as H1. pose proof (Hq ANotifyAll eq_refl) as H2. pose proof (Hq AJoin eq_refl) as H3. cbn in H1, H2, H3.
    destruct (dtor_ s); auto; [by rewrite decide_True in H1|by rewrite decide_True in H2|].
    right. right. split; [done|]. destruct (forallb exited (workers s)); [|done]. by rewrite decide_True in H3.
Qed.

(** Either some thread has a step or none has anything to do, unless a worker is about to lock
    the destroyed mutex. *)
Lemma progress n s : pool_inv n s -> mu_ (ex s) = true \/ weigh is_counting (workers s) = 0%nat ->
  (exists s', internal_step s s') \/ quiet s.
Proof.
  intros Hs Hmu. destruct (adding s) as [|t l] eqn:Ea.
  2:{ left. assert (stop_ (pool s) = false) as Hst.
      { destruct Hs as [_ _ _ _ -> _ _ _ Ic _ _ _]. destruct (dtor_ s); try done; by destruct Ic as [E _]; [done|congruence]. }
      eexists _, (AEnqueue 0). split; [done|]. cbn. rewrite Ea. cbn. unfold enqueue. by rewrite Hst. }
  destruct (notifying s) as [|k] eqn:En.
  2:{ left. destruct (existsb sleeping (workers s)) eqn:Ex.
      - apply existsb_exists in Ex as (w & Hw & Hsl). apply list_elem_of_In, list_elem_of_lookup in Hw as [i Hi]. destruct w; try done.
        eexists _, (ANotify (Some i)). split; [done|]. cbn. by rewrite En, Hi.
      - eexists _, (ANotify None). split; [done|]. cbn. by rewrite En, Ex. }
  destruct (forallb idle (workers s)) eqn:Ei.
  2:{ left. rewrite <- not_true_iff_false, forallb_forall in Ei.
      destruct (list_find (fun w => idle w = false) (workers s)) as [[i w]|] eqn:Ef.
      - apply list_find_Some in Ef as (Hi & Hw & _). destruct w as [| |t| |]; try done.
        + destruct (worker_section (pool s)) as [w p] eqn:Ew. eexists _, (ASection i). split; [done|]. cbn. by rewrite Hi, Ew.
        + eexists _, (AFunc i). split; [done|]. cbn. by rewrite Hi.
        + destruct Hmu as [Hmu|Hc].
          * eexists _, (ACount i). split; [done|]. cbn. rewrite Hi. unfold count_finished. by rewrite Hmu.
          * pose proof (weigh_elem is_counting _ _ (list_elem_of_lookup_2 _ _ _ Hi)). cbn in *. lia.
      - exfalso. apply Ei. intros w Hw%list_elem_of_In. apply list_find_None in Ef. rewrite Forall_forall in Ef.
        specialize (Ef w Hw). by destruct (idle w). }
  rewrite forallb_forall in Ei. assert (forall i w, workers s !! i = Some w -> idle w = true) as Hidle.
  { intros i w Hi%list_elem_of_lookup_2%list_elem_of_In. by apply Ei. }
  destruct (dtor_ s) eqn:Hd.
  2:{ left. eexists _, AStop. split; [done|]. cbn. by rewrite decide_True. }
  2:{ left. eexists _, ANotifyAll. split; [done|]. cbn. by rewrite decide_True. }
  2: destruct (forallb exited (workers s)) eqn:Hx;
       [left; eexists _, AJoin; split; [done|]; cbn; by rewrite Hx, decide_True|].
  all: right; intros a Ha; destruct a as [|k|[i|]|i| |i|i| | | |]; try done; cbn;
    rewrite ?Ea, ?En, ?Hd, ?Hx; try done; try (destruct (workers s !! i) as [w|] eqn:Hi; [|done];
      specialize (Hidle i w Hi); by destruct w); try (by rewrite decide_False).
  all: by destruct (forallb _ _); rewrite ?decide_False.
Qed.

Lemma internal_pool_step s s' : internal_step s s' -> pool_step s s'.
Proof. intros (a & _ & Ha). by exists a. Qed.
Lemma internal_inv n s s' : pool_inv n s -> rtc internal_step s s' -> pool_inv n s'.
Proof. intros Hs Hr. induction Hr as [|x y z Hxy _ IH]; [done|]. by apply IH, (pool_step_inv n x), internal_pool_step. Qed.
Lemma internal_keeps s s' : internal_step s s' -> added s' = added s /\ (dtor_ s = DNone -> dtor_ s' = DNone).
Proof.
  intros (a & Hi & Ha). destruct a; try done; cbn [act] in Ha; repeat case_match; simplify_eq; try done.
  - apply bind_Some in Ha as (t & _ & Ha). destruct (enqueue t (pool s)); by simplify_eq.
  - split; [done|congruence].
  - split; [done|congruence].
  - split; [done|congruence].
Qed.
Lemma internal_run_keeps s s' : rtc internal_step s s' -> added s' = added s /\ (dtor_ s = DNone -> dtor_ s' = DNone).
Proof.
  induction 1 as [|x y z Hxy _ [IH1 IH2]]; [done|]. destruct (internal_keeps x y Hxy) as [E1 E2]. split; [congruence|auto].
Qed.
Lemma internal_bounded m s s' : nsteps internal_step m s s' -> (m <= measure s)%nat.
Proof. induction 1 as [|m x y z Hxy _ IH]; [lia|]. apply internal_measure in Hxy. lia. Qed.

(** A state from which no step locks the destroyed mutex comes to rest. *)
Lemma comes_to_rest n (Q : pool_sys -> Prop) s :
  (forall s, Q s -> mu_ (ex s) = true \/ weigh is_counting (workers s) = 0%nat) ->
  (forall s s', Q s -> internal_step s s' -> Q s') ->
  pool_inv n s -> Q s -> exists s', rtc internal_step s s' /\ quiet s'.
Proof.
  intros HQ HQs. revert s. enough (forall m s, (measure s < m)%nat -> pool_inv n s -> Q s -> exists s', rtc internal_step s s' /\ quiet s') as Hm.
  { intros s. by apply (Hm (S (measure s))); lia. }
  induction m as [|m IH]; intros s Hlt Hs Hq; [lia|]. destruct (progress n s Hs (HQ s Hq)) as [(s1 & H1)|Hquiet]; [|by exists s].
  destruct (IH s1) as (s' & Hr & Hq').
  - apply internal_measure in H1. lia.
  - by apply (pool_step_inv n s), internal_pool_step.
  - by eapply HQs.
  - exists s'. split; [by eapply rtc_l|done].
Qed.

(** C12: An executor runs every task.  With at least one thread, whatever the interleaving of
    the threads that add tasks, the workers and the notifications: left alone, the threads
    make a bounded number of steps and come to rest; when they have, no task was left
    behind by sleeping workers, every task given to [Add] was run exactly once, and the tasks
    were started in the order they were queued. *)
Theorem executor_runs_every_task n s : (0 < n)%nat -> reached n s -> dtor_ s = DNone ->
  (forall m s', nsteps internal_step m s s' -> (m <= measure s)%nat) /\
  (exists s', rtc internal_step s s' /\ quiet s') /\
  (forall s', rtc internal_step s s' -> quiet s' -> finished_ s' ≡ₚ added s /\ started_ s' = enqueued s').
Proof.
  intros Hn Hs%reached_inv Hd. split_and!.
  - intros m s'. apply internal_bounded.
  - apply (comes_to_rest n (fun s => dtor_ s = DNone /\ pool_inv n s)); [| |done|done].
    + intros s1 [Hd1 [_ _ _ _ _ _ _ _ _ Im _ _]]. left. by rewrite Im, Hd1.
    + intros s1 s2 [Hd1 Hs1] H12. split; [by apply (internal_keeps s1)|by apply (pool_step_inv n s1), internal_pool_step].
  - intros s' Hr Hq. destruct (internal_run_keeps _ _ Hr) as [Ea Hd']. specialize (Hd' Hd).
    destruct (quiet_idle s' Hq) as (Hadd & Hnot & Hidle & _).
    destruct (internal_inv n _ _ Hs Hr) as [[It _] Ia Io Iw Is Ie _ _ _ _ _ _]. rewrite Hd' in Is.
    assert (forall w, w ∈ workers s' -> w = WBlocked) as Hall.
    { intros w Hw. specialize (Hidle w Hw). destruct w; try done. by destruct (Ie Hw) as [? _]; congruence. }
    assert (tasks_ (pool s') = []) as Ht.
    { apply nil_length_inv. destruct (workers s') as [|w l] eqn:Ew; [cbn in It; lia|].
      assert (weigh is_ready (w :: l) = 0%nat) as Hr0 by (apply weigh_zero; intros x Hx; by rewrite (Hall x Hx)).
      rewrite Hr0, Hnot in Iw. enough (0 < weigh is_blocked (w :: l))%nat by (specialize (Iw ltac:(done)); lia).
      pose proof (weigh_elem is_blocked (w :: l) w ltac:(left)). rewrite (Hall w ltac:(left)) in *. cbn in *. lia. }
    assert (running (workers s') = []) as Hrun.
    { apply nil_length_inv. rewrite running_length. apply weigh_zero. intros w Hw. by rewrite (Hall w Hw). }
    rewrite Hadd, Ht, Hrun in Ia. cbn in Ia. split; [by rewrite <- Ea, Ia|]. by rewrite Io, Ht, app_nil_r.
Qed.

(** The counters of an executor.  [GetNumPendingTask] is the number of tasks that are in
    [Add], in the queue or running, plus the tasks that threw: an exception skips the
    increment of [num_finished_], so such a task is pending for ever.  When [HasFreeThreads]
    answers yes, there is a worker that runs no task. *)
Theorem executor_counts n s : reached n s ->
  GetNumPendingTask (ex s) = Z.of_nat (length (adding s) + length (tasks_ (pool s)) +
    weigh is_running (workers s) + weigh is_counting (workers s) + thrown (finished_ s)) /\
  (HasFreeThreads (ex s) = true -> exists w, w ∈ workers s /\ is_running w = 0%nat /\ is_counting w = 0%nat).
Proof.
  intros [[Hlen Hth] Ia _ _ _ _ _ _ _ _ Ina Inf]%reached_inv.
  assert (GetNumPendingTask (ex s) = Z.of_nat (length (adding s) + length (tasks_ (pool s)) +
    weigh is_running (workers s) + weigh is_counting (workers s) + thrown (finished_ s))) as Hp.
  { unfold GetNumPendingTask. rewrite Ina, Ia, !length_app, running_length. lia. }
  split; [done|]. unfold HasFreeThreads. rewrite Hp, Hth. intros Hf%Z.ltb_lt.
  destruct (list_find (fun w => is_running w = 0%nat /\ is_counting w = 0%nat) (workers s)) as [[i w]|] eqn:Ef.
  - apply list_find_Some in Ef as (Hi & Hw & _). exists w. split; [by eapply list_elem_of_lookup_2|done].
  - apply list_find_None in Ef. exfalso. enough (length (workers s) <= weigh is_running (workers s) + weigh is_counting (workers s))%nat by lia.
    clear -Ef. unfold weigh. induction Ef as [|w l Hw _ IH]; cbn; [lia|]. destruct w; cbn in *; lia.
Qed.

(** A pool without tasks. *)
Definition out_of_tasks (s : pool_sys) : Prop :=
  tasks_ (pool s) = [] /\ weigh is_running (workers s) = 0%nat /\ weigh is_counting (workers s) = 0%nat /\ adding s = [].
Lemma out_of_tasks_step s s' : out_of_tasks s -> internal_step s s' -> out_of_tasks s'.
Proof.
  intros (Ht & Hr & Hc & Hadd) (a & Hi & Ha). unfold out_of_tasks.
  assert (forall i w w', workers s !! i = Some w -> is_running w' = 0%nat -> is_counting w' = 0%nat ->
    weigh is_running (<[i := w']> (workers s)) = 0%nat /\ weigh is_counting (<[i := w']> (workers s)) = 0%nat) as Hmove.
  { intros i w w' Hw E1 E2. pose proof (weigh_insert is_running _ i _ w' Hw). pose proof (weigh_insert is_counting _ i _ w' Hw). lia. }
  destruct a; try done; cbn [act] in Ha.
  - by rewrite Hadd in Ha.
  - destruct (notifying s) as [|m]; [done|]. destruct w as [i|].
    + destruct (workers s !! i) as [[]|] eqn:Hw; try done. injection Ha as <-. pool_simpl s.
      by destruct (Hmove i _ WReady Hw eq_refl eq_refl).
    + destruct (existsb _ _); [done|]. by injection Ha as <-.
  - destruct (workers s !! i) as [[]|] eqn:Hw; try done. unfold worker_section in Ha. rewrite Ht in Ha. injection Ha as <-.
    pool_simpl s. by destruct (stop_ (pool s)); destruct (Hmove i _ WExited Hw eq_refl eq_refl), (Hmove i _ WBlocked Hw eq_refl eq_refl).
  - destruct (workers s !! i) as [[]|] eqn:Hw; try done. pose proof (weigh_elem is_running _ _ (list_elem_of_lookup_2 _ _ _ Hw)). cbn in *. lia.
  - destruct (workers s !! i) as [[]|] eqn:Hw; try done. pose proof (weigh_elem is_counting _ _ (list_elem_of_lookup_2 _ _ _ Hw)). cbn in *. lia.
  - case_decide; [|done]. by injection Ha as <-.
  - case_decide; [|done]. injection Ha as <-. pool_simpl s. rewrite (proj2 (weigh_wake _)), <- running_length, running_wake, running_length. done.
  - destruct (forallb _ _); [|done]. case_decide; [|done]. by injection Ha as <-.
Qed.

(** C39: Destroying an executor whose tasks are done.  The destructor sets the flag, wakes the
    workers and joins them: no step fails, the threads make a bounded number of steps, and
    when they have come to rest all workers have returned and the destructor with them. *)
Theorem executor_destructor_returns n s s1 :
  reached n s -> quiet s -> tasks_ (pool s) = [] -> act ADestroy s = Some (Ok s1) ->
  (forall m s', nsteps internal_step m s1 s' -> (m <= measure s1)%nat) /\
  (exists s', rtc internal_step s1 s' /\ quiet s') /\
  (forall s', rtc internal_step s1 s' ->
    (forall a e, internal a = true -> act a s' <> Some (Err e)) /\ (quiet s' -> dtor_ s' = DJoined)).
Proof.
  intros Hr%reached_inv Hq Ht Hd. destruct (quiet_idle s Hq) as (Hadd & _ & Hidle & _).
  assert (out_of_tasks s1 /\ dtor_ s1 <> DNone) as [Ho Hdn].
  { cbn in Hd. rewrite Hadd in Hd. destruct (notifying s); [|done]. case_decide; [|done]. injection Hd as <-.
    split; [|done]. split_and!; [done|..|done]; apply weigh_zero; intros w Hw; specialize (Hidle w Hw); by destruct w. }
  assert (pool_inv n s1) as Hs1 by (apply (pool_step_inv n s); [done|by exists ADestroy]).
  assert (forall s', rtc internal_step s1 s' -> out_of_tasks s' /\ dtor_ s' <> DNone) as Hrun.
  { intros s' Hr'. clear -Hr' Ho Hdn. induction Hr' as [|x y z Hxy _ IH]; [done|]. apply IH; [by eapply out_of_tasks_step|].
    destruct Hxy as (a & Hi & Ha). clear -Ha Hdn Hi. destruct a; try done; cbn [act] in Ha; repeat case_match; simplify_eq; try done.
    apply bind_Some in Ha as (t & _ & Ha). destruct (enqueue t (pool x)); by simplify_eq. }
  split_and!.
  - intros m s'. apply internal_bounded.
  - apply (comes_to_rest n out_of_tasks); [intros s2 (_ & _ & Hc & _); by right|apply out_of_tasks_step|done|done].
  - intros s' Hr'. destruct (Hrun s' Hr') as [(Ht' & Hru & Hc & Ha') Hdn']. split.
    + intros a e Hi Ha. destruct a; try done; cbn [act] in Ha; repeat case_match; simplify_eq; try done.
      * by rewrite Ha' in Ha.
      * match goal with H : workers s' !! i = Some WCounting |- _ =>
          pose proof (weigh_elem is_counting _ _ (list_elem_of_lookup_2 _ _ _ H)) end. cbn in *. lia.
    + intros Hq'. destruct (quiet_idle s' Hq') as (_ & _ & Hidle' & [?|[?|[Hdt Hx]]]); [done|done|]. exfalso.
      destruct (internal_inv n _ _ Hs1 Hr') as [_ _ _ _ _ _ In _ _ _ _ _]. rewrite Hdt in In. rewrite weigh_zero in In.
      rewrite <- not_true_iff_false, forallb_forall in Hx. apply Hx. intros w Hw%list_elem_of_In.
      specialize (Hidle' w Hw). specialize (In w Hw). by destruct w.
Qed.
End Executor.

(** ** Runs *)

Section runs.
Context {T : Type} (throws : T -> bool).

Definition acts (l : list pool_action) (s : pool_sys (T := T)) : option pool_sys :=
  foldl (fun o a => s ← o; match act throws a s with Some (Ok s') => Some s' | _ => None end) (Some s) l.
Lemma acts_sound l s s' : acts l s = Some s' -> rtc (pool_step throws) s s'.
Proof.
  unfold acts. induction l as [|a l IH] using rev_ind in s' |- *; [by intros [= <-]|].
  rewrite foldl_snoc. intros (s1 & H1 & H2)%bind_Some. eapply rtc_r; [by apply IH|]. exists a.
  destruct (act throws a s1) as [[]|]; by simplify_eq.
Qed.
End runs.

(** Tasks are numbers; negative ones throw. *)
Definition throws_neg (t : Z) : bool := t <? 0.
(** Two workers fall asleep, two tasks are added, one notification is still due. *)
Definition two_tasks : list (pool_action (T := Z)) :=
  [ASection 0; ASection 1; AAdd 7; AAdd (-1); AEnqueue 0; AEnqueue 0; ANotify (Some 1%nat); ASection 1; AFunc 1].
Definition two_tasks_state : pool_sys (T := Z) := default (start_pool 2) (acts throws_neg two_tasks (start_pool 2)).
Lemma two_tasks_reached : reached throws_neg 2 two_tasks_state.
Proof. apply (acts_sound throws_neg two_tasks). by vm_compute. Qed.

Lemma executor_runs_every_task_witness :
  workers two_tasks_state = [WBlocked; WCounting] /\ tasks_ (pool two_tasks_state) = [-1] /\
  exists s', rtc (internal_step throws_neg) two_tasks_state s' /\ quiet throws_neg s' /\ finished_ s' ≡ₚ [7; -1].
Proof.
  split; [by vm_compute|]. split; [by vm_compute|].
  destruct (executor_runs_every_task throws_neg 2 two_tasks_state ltac:(lia) two_tasks_reached) as (_ & (s' & Hr & Hq) & Hall); [by vm_compute|].
  exists s'. split; [done|]. split; [done|]. exact (proj1 (Hall s' Hr Hq)).
Defined.
Lemma executor_counts_witness :
  GetNumPendingTask (ex two_tasks_state) = 2 /\ HasFreeThreads (ex two_tasks_state) = false.
Proof.
  pose proof (proj1 (executor_counts throws_neg 2 two_tasks_state two_tasks_reached)) as Hc.
  split; [rewrite Hc; by vm_compute|by vm_compute].
Defined.

Definition idle_state : pool_sys (T := Z) := default (start_pool 2) (acts throws_neg [ASection 0; ASection 1] (start_pool 2)).
Lemma executor_destructor_returns_witness :
  exists s1 s', act throws_neg ADestroy idle_state = Some (Ok s1) /\ rtc (internal_step throws_neg) s1 s' /\ dtor_ s' = DJoined.
Proof.
  destruct (act throws_neg ADestroy idle_state) as [[s1|]|] eqn:E; [|by vm_compute in E..].
  destruct (executor_destructor_returns throws_neg 2 idle_state s1) as (_ & (s' & Hr & Hq) & Hall); [..|done|].
  - apply (acts_sound throws_neg [ASection 0; ASection 1]). by vm_compute.
  - intros a Ha. destruct a as [| [|] |[[|[|]]|] |[|[|]]| |[|[|]]|[|[|]]| | | |]; try done.
  - done.
  - exists s1, s'. split; [done|]. split; [done|]. by apply (Hall s' Hr).
Defined.

(** Destroying an executor while a task runs.  The members of [Executor] are destroyed in
    the reverse order of their declaration, so [mu_] goes before [thread_pool_], whose
    destructor is what waits for the tasks: a task that is still running then locks a mutex
    that no longer exists. *)
Theorem executor_destroyed_under_task :
  exists s, reached throws_neg 1 s /\ dtor_ s = DNotified /\ workers s = [WCounting] /\
    act throws_neg (ACount 0) s = Some (Err (Undefined "mu_ is destroyed")).
Proof.
  eexists. split; [|split; [|split]].
  - apply (acts_sound throws_neg [AAdd 7; AEnqueue 0; ANotify None; ASection 0; ADestroy; AStop; ANotifyAll; AFunc 0]). by vm_compute.
  - done.
  - done.
  - done.
Qed.
