(* ===== verification/Index.v ===== *)
(** * Where partitions live and where keys go (core/index/*.hpp,
    core/scheduler/collection_view.hpp, core/collection_map.hpp,
    base/third_party/range.h)

    A [CollectionView] maps the partitions of a collection to nodes; the
    [CollectionMap], one on the scheduler and one on each node, holds the views.  The
    key-to-part mappers decide the partition of a key. *)

From S2P Require Import Prelude BinStream.

(** ** SimplePartToNodeMapper *)

Record SimplePartToNodeMapper := { v_ : list Z }.
#[export] Instance eta_Mapper : Eta SimplePartToNodeMapper := fun m => {| v_ := v_ m |}.

Definition mapper_GetNumParts (m : SimplePartToNodeMapper) : Z := Z.of_nat (length (v_ m)).

(** [CHECK_LT(part_id, v_.size())] converts a negative [part_id] to a huge [size_t], so
    the check covers both ends. *)
Definition mapper_Get {S O} (part_id : Z) (m : SimplePartToNodeMapper) : M S O Z :=
  check ((0 <=? part_id) && (part_id <? Z.of_nat (length (v_ m)))) "part_id < v_.size()" ;;;
  deref (v_ m !! Z.to_nat part_id) "v_[part_id]".

Definition GetNodeParts (node_id : Z) (m : SimplePartToNodeMapper) : list Z :=
  (filter (fun kv => kv.2 = node_id) (zip (seqZ 0 (Z.of_nat (length (v_ m)))) (v_ m))).*1.

#[export] Instance Serial_Mapper : Serial SimplePartToNodeMapper.
Proof.
  refine {| enc := fun m => enc (v_ m);
            dec := (v <-- dec ;; ret {| v_ := v |});
            storable := fun m => storable (v_ m) |}.
  intros [v] Hv. by eapply reads_bind_ret; [apply dec_enc|].
Defined.

(** ** CollectionView *)

Record CollectionView := {
  view_collection_id : Z; view_num_partition : Z; view_mapper : SimplePartToNodeMapper }.
#[export] Instance eta_View : Eta CollectionView := fun c =>
  {| view_collection_id := view_collection_id c; view_num_partition := view_num_partition c;
     view_mapper := view_mapper c |}.

#[export] Instance Serial_View : Serial CollectionView.
Proof.
  refine {| enc := fun c => enc (view_collection_id c) ++ enc (view_num_partition c) ++
              enc (view_mapper c);
            dec := (a <-- dec ;; b <-- dec ;; c <-- dec ;;
                    ret {| view_collection_id := a; view_num_partition := b; view_mapper := c |});
            storable := fun c => storable (view_collection_id c) /\
              storable (view_num_partition c) /\ storable (view_mapper c) |}.
  solve_reads.
Defined.

(** ** CollectionMap *)

Abbreviation CollectionMap := (gmap Z CollectionView).

Definition cmap_Insert (cv : CollectionView) (m : CollectionMap) : CollectionMap :=
  <[view_collection_id cv := cv]> m.
Definition cmap_Get {S O} (cid : Z) (m : CollectionMap) : M S O CollectionView :=
  check (bool_decide (is_Some (m !! cid))) "collection_map_.find(cid) != end" ;;;
  deref (m !! cid) "collection_map_[cid]".
Definition cmap_GetNumParts {S O} (cid : Z) (m : CollectionMap) : M S O Z :=
  cv <-- cmap_Get cid m ;; ret (view_num_partition cv).
Definition cmap_Lookup {S O} (cid part_id : Z) (m : CollectionMap) : M S O Z :=
  cv <-- cmap_Get cid m ;; mapper_Get part_id (view_mapper cv).

(** An [std::unordered_map] is written in bucket order; whatever the order, the map is
    read back. *)
Lemma CollectionMap_round_trip (m : CollectionMap) l :
  l ≡ₚ map_to_list m -> map_storable m -> reads dec_map (enc_map_as l) m.
Proof. apply reads_map_as. Qed.

(** ** Key-to-part mappers *)

(** [third_party::Range]; [size] is a subtraction of [uint64_t]. *)
Record Range := { range_begin : Z; range_end : Z }.
Definition range_size (r : Range) : Z := (range_end r - range_begin r) mod 2 ^ 64.

Record RangeKeyToPartMapper := { ranges_ : list Range; interval_ : Z }.

(** [interval_] is an [int]: the size of the first range is truncated to 32 bits.  All
    but the last range must have the same size. *)
Definition mkRangeKeyToPartMapper {S O} (ranges : list Range) : M S O RangeKeyToPartMapper :=
  check (0 <? Z.of_nat (length ranges)) "ranges_.size() > 0" ;;;
  r0 <-- deref (ranges !! 0%nat) "ranges_[0]" ;;
  let interval := signed 4 (range_size r0 mod 2 ^ 32) in
  for_each (take (length ranges - 1) ranges) (fun r =>
    check (range_size r =? interval mod 2 ^ 64) "ranges should have equal size") ;;;
  ret {| ranges_ := ranges; interval_ := interval |}.

(** [key / interval_], compared with the {e end key} of the last range. *)
Definition Range_Get {S O} (key : Z) (m : RangeKeyToPartMapper) : M S O Z :=
  if interval_ m =? 0 then throw (Undefined "division by zero") else
  let part := Z.quot key (interval_ m) mod 2 ^ 64 in
  r <-- deref (last (ranges_ m)) "ranges_[ranges_.size()-1]" ;;
  check (part <? range_end r) "ret < ranges_.back().end()" ;;;
  ret part.

Definition GetNumRanges (m : RangeKeyToPartMapper) : Z := Z.of_nat (length (ranges_ m)).
Definition GetRange {S O} (part_id : Z) (m : RangeKeyToPartMapper) : M S O Range :=
  check ((0 <=? part_id) && (part_id <? Z.of_nat (length (ranges_ m)))) "part_id < ranges_.size()" ;;;
  deref (ranges_ m !! Z.to_nat part_id) "ranges_[part_id]".

(** [std::hash<KeyT>] is a parameter; the mapper only needs it to be a [size_t]. *)
Definition Hash_Get {K} (hash : K -> Z) (num_part : Z) (key : K) : Z := hash key mod num_part.
(** [key % GetNumPart()] for an unsigned key type. *)
Definition RoundRobin_Get (num_part key : Z) : Z := key mod num_part.

(** ** Properties *)

Lemma elem_of_GetNodeParts n m p :
  p ∈ GetNodeParts n m <-> 0 <= p /\ v_ m !! Z.to_nat p = Some n.
Proof.
  unfold GetNodeParts. destruct m as [v]. cbn.
  induction v as [|x v IH] using rev_ind.
  - cbn. split; [set_solver|]. intros [_ H]. by rewrite lookup_nil in H.
  - rewrite length_app, Nat.add_1_r, seqZ_snoc, zip_with_app by apply length_zip_seqZ.
    rewrite filter_app, fmap_app, elem_of_app, IH. clear IH. cbn [zip_with].
    rewrite filter_cons, filter_nil. cbn. split.
    + intros [[Hp Hl]|Hp].
      * split; [done|]. by apply lookup_app_l_Some.
      * destruct (decide (x = n)) as [->|]; [|set_solver].
        cbn in Hp. apply list_elem_of_singleton in Hp as ->. split; [lia|].
        by rewrite Nat2Z.id, lookup_app_r, Nat.sub_diag by lia.
    + intros [Hp Hl]. apply lookup_app_Some in Hl as [Hl|[Hge Hl]]; [by left|right].
      apply list_lookup_singleton_Some in Hl as [H0 ->]. rewrite decide_True by done. cbn.
      apply list_elem_of_singleton. lia.
Qed.

(** The ranges [[0,w), [w,2w), ...] of equal width, the last one possibly shorter. *)
Definition partition_of (w : Z) (rs : list Range) : Prop :=
  0 < w < 2 ^ 31 /\ rs <> [] /\ forall i r, rs !! i = Some r ->
    range_begin r = Z.of_nat i * w /\ range_begin r < range_end r < 2 ^ 63 /\
    (if decide (S i = length rs) then range_end r <= range_begin r + w
     else range_end r = range_begin r + w).

Lemma range_size_small r : 0 <= range_begin r -> range_begin r < range_end r < 2 ^ 63 ->
  range_size r = range_end r - range_begin r.
Proof. intros. unfold range_size. apply Z.mod_small. lia. Qed.

(** for ranges that cut an initial segment of the keys into equal pieces of at least two
    ranges, the constructor accepts them and the mapper sends a key to the range that
    contains it. *)
Theorem range_mapper_correct {S O} w rs key i r (s : S) :
  partition_of w rs -> (2 <= length rs)%nat -> rs !! i = Some r ->
  range_begin r <= key < range_end r ->
  exists m, mkRangeKeyToPartMapper (S := S) (O := O) rs s = Ok (m, s, []) /\
            Range_Get (S := S) (O := O) key m s = Ok (Z.of_nat i, s, []).
Proof.
  intros (Hw & Hne & Hr) Hlen Hi Hkey.
  destruct rs as [|r0 rs]; [done|]. destruct (Hr 0%nat r0 eq_refl) as (Hb0 & He0 & Hs0).
  assert (range_size r0 = w) as Hsz.
  { rewrite range_size_small by lia. cbn in Hlen. rewrite decide_False in Hs0 by (cbn; lia). lia. }
  assert (signed 4 (range_size r0 mod 2 ^ 32) = w) as Hint.
  { rewrite Hsz. change (2 ^ 32) with (2 ^ (8 * Z.of_nat 4)). apply signed_mod; [lia|].
    change (8 * Z.of_nat 4 - 1) with 31. lia. }
  exists {| ranges_ := r0 :: rs; interval_ := w |}. split.
  - apply wp_exact. unfold mkRangeKeyToPartMapper. wstep.
    apply wp_check; [intros _|cbn [length]; intros Hf%Z.ltb_ge; lia].
    wstep. apply wp_deref; [|done]. cbn. intros ? [= <-]. rewrite Hint. wstep.
    apply (wp_for_each none (fun l s' os => s' = s /\ os = [] /\ forall q, q ∈ l -> range_size q = w)).
    + split_and!; [done|done|]. intros q Hq. apply list_elem_of_lookup in Hq as [j Hj].
      apply lookup_take_Some in Hj as [Hj Hlt].
      destruct (Hr j q Hj) as (Hbj & Hej & Hsj). cbn in Hlt. rewrite range_size_small by lia.
      rewrite decide_False in Hsj by (cbn in *; lia). lia.
    + intros q l s1 os (-> & -> & Hl). apply wp_check.
      * intros _. split_and!; [done|done|set_solver].
      * rewrite (Hl q) by set_solver. rewrite Z.mod_small by lia. by rewrite Z.eqb_refl.
    + intros s' os (-> & -> & _). by wstep.
  - unfold Range_Get. cbn [interval_]. rewrite (proj2 (Z.eqb_neq _ _)) by lia.
    destruct (Hr i r Hi) as (Hbi & Hei & Hsi).
    assert (Z.quot key w = Z.of_nat i) as Hq.
    { rewrite Z.quot_div_nonneg by lia. symmetry. apply (Z.div_unique _ _ _ (key - Z.of_nat i * w)).
      - left. case_decide; lia.
      - lia. }
    rewrite Hq. assert (Z.of_nat i < 2 ^ 63) by nia. rewrite Z.mod_small by lia. cbn [ranges_].
    destruct (last (r0 :: rs)) as [rl|] eqn:El; [|by apply last_None in El].
    unfold deref, bind, ret, check.
    rewrite last_lookup in El. cbn [length Nat.pred] in El.
    destruct (Hr _ _ El) as (Hbl & Hel & _). apply lookup_lt_Some in Hi. cbn in Hi.
    rewrite (proj2 (Z.ltb_lt _ _)) by nia. done.
Qed.

Definition demo_ranges : list Range :=
  [{| range_begin := 0; range_end := 5 |}; {| range_begin := 5; range_end := 9 |}].

Lemma demo_ranges_partition : partition_of 5 demo_ranges.
Proof.
  split_and!; [lia|lia|done|]. intros [|[|i]] r Hr; cbn in Hr; simplify_eq; cbn; case_decide; cbn in *; lia.
Qed.

Lemma range_mapper_correct_witness :
  exists m, mkRangeKeyToPartMapper (S := unit) (O := Empty_set) demo_ranges tt = Ok (m, tt, []) /\
            Range_Get (S := unit) (O := Empty_set) 8 m tt = Ok (1, tt, []).
Proof.
  apply (range_mapper_correct 5 demo_ranges 8 1 {| range_begin := 5; range_end := 9 |} tt);
    [exact demo_ranges_partition|cbn; lia|reflexivity|cbn; lia].
Defined.

(** the bound check of [RangeKeyToPartMapper::Get] compares the partition index with the
    end {e key} of the last range: with two ranges over the keys 0..8 the key 17, which is in no
    range, is accepted and sent to the partition 3, which does not exist. *)
Theorem range_mapper_accepts_foreign_key :
  exists m, mkRangeKeyToPartMapper (S := unit) (O := Empty_set) demo_ranges tt = Ok (m, tt, []) /\
            GetNumRanges m = 2 /\
            Range_Get (S := unit) (O := Empty_set) 17 m tt = Ok (3, tt, []).
Proof. eexists. split; [reflexivity|]. split; reflexivity. Qed.
