(* ===== verification/Messages.v ===== *)
(** * Messages (base/message.hpp, base/node.hpp, core/queue_node_map.hpp,
    core/scheduler/control.hpp, io/meta.hpp and the message structs of
    core/worker/plan_controller.hpp)

    Handlers are modelled on decoded messages: a message is a constructor with the fields
    its [SArrayBinStream]s hold.  That encoding and decoding lose nothing is the
    [Serial] instance of each struct; the plain structs ([ControllerMsg], [FetchMeta],
    [MigrateMeta]) are copied byte by byte by the stream. *)

From S2P Require Import Prelude BinStream Specs Index.

(** ** Queue ids *)

Definition kMagic : Z := 8.
Definition GetNodeId (qid : Z) : Z := Z.quot qid kMagic.
Definition GetWorkerQid (nid : Z) : Z := nid * kMagic.
Definition GetFetcherQid (nid : Z) : Z := nid * kMagic + 2.
Definition GetControllerActorQid (nid : Z) : Z := nid * kMagic + 3.

Lemma GetNodeId_inv nid k : 0 <= nid -> 0 <= k < kMagic -> GetNodeId (nid * kMagic + k) = nid.
Proof.
  unfold GetNodeId, kMagic. intros. rewrite Z.quot_div_nonneg by lia.
  symmetry. apply (Z.div_unique _ _ _ k); lia.
Qed.

(** ** Plan ids of recovery plans *)

Definition kRecoverMagic : Z := 10000.
Definition IsRecoverPlan (id : Z) : bool := kRecoverMagic <=? id.
Definition GetRecoverPlanId {S O} (id : Z) : M S O Z :=
  check (negb (IsRecoverPlan id)) "!IsRecoverPlan(id)" ;;; ret (id + kRecoverMagic).
Definition GetRealId (id : Z) : Z := if kRecoverMagic <=? id then id - kRecoverMagic else id.

(** ** Between the control manager and the plan controllers *)

Inductive CtrlFlag := CfSetup | CfMap | CfJoin | CfFinish | CfFinishMigrate | CfFinishCP.
#[export] Instance CtrlFlag_eq_dec : EqDecision CtrlFlag.
Proof. solve_decision. Defined.

(** [part_id] is not set by the senders of kSetup and kFinish; those have -1 here, and no
    receiver reads it. *)
Record ControllerMsg := {
  c_flag : CtrlFlag; c_version : Z; c_node_id : Z; c_plan_id : Z; c_part_id : Z }.

Record FetchMeta := {
  fm_plan_id : Z; fm_upstream_part_id : Z; fm_collection_id : Z; fm_partition_id : Z;
  fm_version : Z; fm_local_mode : bool }.

Inductive MigrateFlag := kStartMigrate | kFlushAll | kDest | kStartMigrateMapOnly | kReceiveMapOnly.
#[export] Instance MigrateFlag_eq_dec : EqDecision MigrateFlag.
Proof. solve_decision. Defined.
Record MigrateMeta := {
  mm_flag : MigrateFlag; mm_plan_id : Z; mm_collection_id : Z; mm_partition_id : Z;
  mm_from_id : Z; mm_to_id : Z; mm_num_nodes : Z }.
#[export] Instance eta_MigrateMeta : Eta MigrateMeta := fun m =>
  {| mm_flag := mm_flag m; mm_plan_id := mm_plan_id m; mm_collection_id := mm_collection_id m;
     mm_partition_id := mm_partition_id m; mm_from_id := mm_from_id m; mm_to_id := mm_to_id m;
     mm_num_nodes := mm_num_nodes m |}.

(** ** Joins and fetches in flight *)

Record VersionedShuffleMeta := {
  vs_plan_id : Z; vs_collection_id : Z; vs_part_id : Z; vs_upstream_part_id : Z;
  vs_version : Z; vs_is_fetch : bool; vs_sender : Z; vs_recver : Z; vs_local_mode : bool;
  vs_ext_upstream_part_ids : list Z }.
#[export] Instance eta_VSM : Eta VersionedShuffleMeta := fun m =>
  {| vs_plan_id := vs_plan_id m; vs_collection_id := vs_collection_id m;
     vs_part_id := vs_part_id m; vs_upstream_part_id := vs_upstream_part_id m;
     vs_version := vs_version m; vs_is_fetch := vs_is_fetch m; vs_sender := vs_sender m;
     vs_recver := vs_recver m; vs_local_mode := vs_local_mode m;
     vs_ext_upstream_part_ids := vs_ext_upstream_part_ids m |}.

#[export] Instance Serial_VersionedShuffleMeta : Serial VersionedShuffleMeta.
Proof.
  refine {| enc := fun m => enc (vs_plan_id m) ++ enc (vs_collection_id m) ++
              enc (vs_part_id m) ++ enc (vs_upstream_part_id m) ++ enc (vs_version m) ++
              enc (vs_is_fetch m) ++ enc (vs_sender m) ++ enc (vs_recver m) ++
              enc (vs_local_mode m) ++ enc (vs_ext_upstream_part_ids m);
            dec := (a <-- dec ;; b <-- dec ;; c <-- dec ;; d <-- dec ;; e <-- dec ;;
                    f <-- dec ;; g <-- dec ;; h <-- dec ;; i <-- dec ;; j <-- dec ;;
                    ret {| vs_plan_id := a; vs_collection_id := b; vs_part_id := c;
                           vs_upstream_part_id := d; vs_version := e; vs_is_fetch := f;
                           vs_sender := g; vs_recver := h; vs_local_mode := i;
                           vs_ext_upstream_part_ids := j |});
            storable := fun m => storable (vs_plan_id m) /\ storable (vs_collection_id m) /\
              storable (vs_part_id m) /\ storable (vs_upstream_part_id m) /\
              storable (vs_version m) /\ storable (vs_is_fetch m) /\ storable (vs_sender m) /\
              storable (vs_recver m) /\ storable (vs_local_mode m) /\
              storable (vs_ext_upstream_part_ids m) |}.
  solve_reads.
Defined.

Record VersionedJoinMeta := { vj_meta : VersionedShuffleMeta; vj_bin : BinStream }.
#[export] Instance eta_VJM : Eta VersionedJoinMeta := fun m =>
  {| vj_meta := vj_meta m; vj_bin := vj_bin m |}.
#[export] Instance Serial_VersionedJoinMeta : Serial VersionedJoinMeta.
Proof.
  refine {| enc := fun m => enc (vj_meta m) ++ enc (vj_bin m);
            dec := (a <-- dec ;; b <-- dec ;; ret {| vj_meta := a; vj_bin := b |});
            storable := fun m => storable (vj_meta m) /\ storable (vj_bin m) |}.
  solve_reads.
Defined.

(** What travels with a migrated partition. *)
Record MigrateData := {
  md_map_version : Z; md_update_version : Z;
  md_pending_updates : gmap Z (list VersionedJoinMeta);
  md_waiting_updates : list VersionedJoinMeta;
  md_update_tracker : gmap Z (gset Z) }.
#[export] Instance Serial_MigrateData : Serial MigrateData.
Proof.
  refine {| enc := fun d => enc (md_map_version d) ++ enc (md_update_version d) ++
              enc (md_pending_updates d) ++ enc (md_waiting_updates d) ++
              enc (md_update_tracker d);
            dec := (a <-- dec ;; b <-- dec ;; c <-- dec ;; d <-- dec ;; e <-- dec ;;
                    ret {| md_map_version := a; md_update_version := b;
                           md_pending_updates := c; md_waiting_updates := d;
                           md_update_tracker := e |});
            storable := fun d => storable (md_map_version d) /\
              storable (md_update_version d) /\ storable (md_pending_updates d) /\
              storable (md_waiting_updates d) /\ storable (md_update_tracker d) |}.
  solve_reads.
Defined.

(** ** Messages to a controller: a [ControllerFlag] and its content *)

Inductive migrate_body :=
| MBNone
| MBView (view : CollectionView)
| MBData (data : MigrateData) (part : BinStream)
| MBMap (map_version : Z) (part : BinStream).

Inductive ctrl_msg :=
| kSetup (spec : SpecWrapper)
| kStart
| kFinishMap (part_id : Z) (update_version : bool)
| kFinishJoin (part_id version : Z) (upstream_part_ids : list Z)
| kUpdateVersion (new_version : Z)
| kReceiveJoin (m : VersionedJoinMeta)
| kFetchRequest (meta : FetchMeta) (bin : BinStream) (sender recver : Z)
| kFinishFetch (part_id upstream_part_id : Z)
| kFinishCheckpoint (part_id : Z)
| kMigratePartition (meta : MigrateMeta) (body : migrate_body)
| kTerminatePlan
| kFinishLoadWith (submeta : Z * Z * Z)
| kReassignMap (reassignments : list (Z * Z * Z)).

Inductive FetcherFlag :=
| kFetchObjsReply | kFetchPartRequest | kFetchPartReplyLocal | kFetchPartReplyRemote.

(** ** Nodes *)

Record Node := { node_host_id : Z; hostname : string; node_port : Z; is_recovery : bool }.
Record NodeInfo := { info_node : Node; num_local_threads : Z }.

(** ** Checkpoint files *)

Definition GetCheckpointUrl (url : string) (cid pid : Z) : string :=
  url +:+ "/c" +:+ pretty cid +:+ "-p" +:+ pretty pid.
