(* ===== verification/Partition.v ===== *)
(** * Partition storage (core/partition/partition_manager.hpp, partition_manager.cpp,
    core/map_output/map_output_stream_store.hpp)

    [PartitionManager] owns the partitions of a node, [MapOutputStreamStore] the map
    outputs that stay on the node.  Both are protected by a mutex, so each method is one
    atomic operation.  [Section Refinement] shows that the two-level map behaves as a
    finite map from (collection, partition) pairs, although [operator[]] leaves empty inner
    maps behind. *)

From S2P Require Import Prelude.

(** ** PartitionManager *)

Section PartitionManager.
Context {P : Type}.

Record PartitionManager := { partitions_ : gmap Z (gmap Z P) }.
#[global] Instance eta_PM : Eta PartitionManager := fun m => {| partitions_ := partitions_ m |}.
Definition empty_pm : PartitionManager := {| partitions_ := ∅ |}.

Abbreviation PMM := (M PartitionManager Empty_set).

(** [partitions_[collection_id]] *)
Definition pm_touch (c : Z) : PMM (gmap Z P) :=
  modify (fun m => m <| partitions_ ::= touch ∅ c |>) ;;;
  gets (fun m => lookup_or ∅ c (partitions_ m)).

Definition pm_Get (c p : Z) : PMM P :=
  parts <-- pm_touch c ;;
  check (bool_decide (is_Some (parts !! p))) "partitions_[cid].find(pid) != end" ;;;
  deref (parts !! p) "partitions_[cid][pid]".

Definition pm_Has (c p : Z) : PMM bool :=
  ps <-- gets partitions_ ;;
  match ps !! c with
  | None => ret false
  | Some parts => ret (bool_decide (is_Some (parts !! p)))
  end.

(** The overload without a partition id: the partitions in id order, each knowing its id. *)
Definition pm_GetAll (c : Z) : PMM (list (Z * P)) :=
  parts <-- pm_touch c ;; ret (entries parts).

Definition pm_GetNumLocalParts (c : Z) : PMM Z :=
  parts <-- pm_touch c ;; ret (Z.of_nat (size parts)).

(** The partition is handed over ([use_count() == 1]), so no alias of it remains. *)
Definition pm_Insert (c p : Z) (x : P) : PMM unit :=
  parts <-- pm_touch c ;;
  modify (fun m => m <| partitions_ ::= <[c := <[p := x]> parts]> |>).

Definition pm_Remove (c p : Z) : PMM unit :=
  parts <-- pm_touch c ;;
  let parts := delete p parts in
  modify (fun m => m <| partitions_ ::= <[c := parts]> |>) ;;;
  when (bool_decide (size parts = 0%nat))
    (modify (fun m => m <| partitions_ ::= delete c |>)).
End PartitionManager.
Arguments PartitionManager : clear implicits.

(** ** The abstract store *)

Section Refinement.
Context {P : Type}.
Implicit Types m : PartitionManager P.

Definition store_lookup (m : PartitionManager P) (c p : Z) : option P := partitions_ m !! c ≫= (.!! p).

(** Two managers that store the same partitions. *)
Definition same_store (m m' : PartitionManager P) : Prop :=
  forall c p, store_lookup m c p = store_lookup m' c p.
#[global] Instance same_store_equiv : Equivalence same_store.
Proof. split; unfold same_store; [done|intros x y H c p; by rewrite H|intros x y z H1 H2 c p; by rewrite H1]. Qed.

Lemma lookup_or_store m c p : lookup_or ∅ c (partitions_ m) !! p = store_lookup m c p.
Proof. unfold lookup_or, store_lookup. destruct (partitions_ m !! c); [done|]. apply lookup_empty. Qed.

Lemma wp_pm_touch E c m Q :
  (forall m', same_store m' m -> Q (lookup_or ∅ c (partitions_ m)) m' []) ->
  wp E (pm_touch c) m Q.
Proof.
  intros HQ. unfold pm_touch. wsteps. cbn. rewrite lookup_or_touch. apply HQ.
  intros c' p. unfold store_lookup. cbn. unfold touch.
  destruct (decide (c = c')) as [->|]; [|by rewrite lookup_insert_ne].
  rewrite lookup_insert_eq. unfold lookup_or. destruct (partitions_ m !! c'); cbn; [done|].
  apply lookup_empty.
Qed.

Lemma pm_Get_spec E c p m Q :
  (forall x m', store_lookup m c p = Some x -> same_store m' m -> Q x m' []) ->
  (store_lookup m c p = None -> forall w, E (CheckFailed w)) ->
  wp E (pm_Get c p) m Q.
Proof.
  intros HQ HE. unfold pm_Get. wstep. apply wp_pm_touch. intros m' Hm'.
  rewrite lookup_or_store. destruct (store_lookup m c p) as [x|] eqn:Hl.
  - wstep. apply wp_check; [|done]. intros _. apply wp_deref; [|done]. intros ? [= <-]. auto.
  - wstep. apply wp_check; [by intros [? ?]%bool_decide_eq_true|]. auto.
Qed.

Lemma pm_Has_spec E c p m Q :
  Q (bool_decide (is_Some (store_lookup m c p))) m [] -> wp E (pm_Has c p) m Q.
Proof.
  intros HQ. unfold pm_Has. wstep. wstep. unfold store_lookup in HQ.
  destruct (partitions_ m !! c) as [ps|]; wstep; [done|].
  by rewrite bool_decide_eq_false_2 in HQ by (intros [? [=]]).
Qed.

Lemma pm_Insert_spec E c p x m Q :
  (forall m', (forall c' p', store_lookup m' c' p' =
      if decide (c' = c /\ p' = p) then Some x else store_lookup m c' p') -> Q tt m' []) ->
  wp E (pm_Insert c p x) m Q.
Proof.
  intros HQ. unfold pm_Insert. wstep. apply wp_pm_touch. intros m' Hm'. wstep. apply HQ.
  intros c' p'. unfold store_lookup at 1. cbn.
  destruct (decide (c' = c)) as [->|Hc].
  - rewrite lookup_insert_eq. cbn. destruct (decide (p' = p)) as [->|Hp].
    + rewrite lookup_insert_eq, decide_True by done. done.
    + rewrite lookup_insert_ne by done. rewrite decide_False by naive_solver.
      apply lookup_or_store.
  - rewrite lookup_insert_ne by done. rewrite decide_False by naive_solver. apply (Hm' c' p').
Qed.

Lemma pm_Remove_spec E c p m Q :
  (forall m', (forall c' p', store_lookup m' c' p' =
      if decide (c' = c /\ p' = p) then None else store_lookup m c' p') -> Q tt m' []) ->
  wp E (pm_Remove c p) m Q.
Proof.
  intros HQ. unfold pm_Remove. wstep. apply wp_pm_touch. intros m' Hm'. wstep. wstep.
  set (parts := delete p (lookup_or ∅ c (partitions_ m))).
  assert (forall p', parts !! p' = if decide (p' = p) then None else store_lookup m c p') as Hparts.
  { intros p'. unfold parts. destruct (decide (p' = p)) as [->|];
      [by rewrite lookup_delete_eq|rewrite lookup_delete_ne by done; apply lookup_or_store]. }
  wstep; [wstep|]; apply HQ; intros c' p'; unfold store_lookup at 1; cbn.
  - apply bool_decide_eq_true in Hif. apply map_size_empty_inv in Hif.
    destruct (decide (c' = c)) as [->|Hc].
    + rewrite lookup_delete_eq. cbn. specialize (Hparts p'). rewrite Hif, lookup_empty in Hparts.
      destruct (decide (p' = p)); [by rewrite decide_True|].
      by rewrite decide_False by naive_solver.
    + rewrite lookup_delete_ne, lookup_insert_ne by done.
      rewrite decide_False by naive_solver. apply (Hm' c' p').
  - destruct (decide (c' = c)) as [->|Hc].
    + rewrite lookup_insert_eq. cbn. rewrite Hparts.
      destruct (decide (p' = p)); [by rewrite decide_True|].
      by rewrite decide_False by naive_solver.
    + rewrite lookup_insert_ne by done. rewrite decide_False by naive_solver. apply (Hm' c' p').
Qed.

Lemma pm_GetNumLocalParts_spec E c m Q :
  (forall m', same_store m' m -> Q (Z.of_nat (size (lookup_or ∅ c (partitions_ m)))) m' []) ->
  wp E (pm_GetNumLocalParts c) m Q.
Proof. intros HQ. unfold pm_GetNumLocalParts. wstep. apply wp_pm_touch. intros m' Hm'. wstep. by apply HQ. Qed.

Lemma pm_GetAll_spec E c m Q :
  (forall m' l, same_store m' m -> (forall p x, (p, x) ∈ l <-> store_lookup m c p = Some x) ->
    NoDup l.*1 -> Q l m' []) ->
  wp E (pm_GetAll c) m Q.
Proof.
  intros HQ. unfold pm_GetAll. wstep. apply wp_pm_touch. intros m' Hm'. wstep.
  apply HQ; [done| |apply NoDup_keys].
  intros p x. by rewrite elem_of_entries, lookup_or_store.
Qed.
End Refinement.

(** ** MapOutputStreamStore *)

Section StreamStore.
Context {Stream : Type}.

(** part_id, upstream_part_ids, version *)
Abbreviation stream_key := (Z * list Z * Z)%type.
Record MapOutputStreamStore := { stream_store_ : gmap stream_key Stream }.
#[global] Instance eta_SS : Eta MapOutputStreamStore := fun s =>
  {| stream_store_ := stream_store_ s |}.

Definition ss_Insert (k : stream_key) (v : Stream) : M MapOutputStreamStore Empty_set unit :=
  s <-- gets stream_store_ ;;
  check (bool_decide (s !! k = None)) "stream_store_.find(k) == end" ;;;
  modify (fun s => s <| stream_store_ ::= <[k := v]> |>).
Definition ss_Remove (k : stream_key) : M MapOutputStreamStore Empty_set unit :=
  s <-- gets stream_store_ ;;
  check (bool_decide (is_Some (s !! k))) "stream_store_.find(k) != end" ;;;
  modify (fun s => s <| stream_store_ ::= delete k |>).
Definition ss_Get (k : stream_key) : M MapOutputStreamStore Empty_set Stream :=
  s <-- gets stream_store_ ;;
  check (bool_decide (is_Some (s !! k))) "stream_store_.find(k) != end" ;;;
  deref (s !! k) "stream_store_[k]".

(** An inserted stream is taken out once: [Get] and [Remove] return it and restore the
    store. *)
Lemma ss_insert_take k v s : stream_store_ s !! k = None ->
  (ss_Insert k v ;;; x <-- ss_Get k ;; ss_Remove k ;;; ret x) s = Ok (v, s, []).
Proof.
  intros Hk. apply wp_exact. unfold ss_Insert, ss_Get, ss_Remove. wstep. wstep. wstep. wstep.
  apply wp_check; [intros _|by rewrite bool_decide_eq_true_2]. wstep. wstep. wstep. wstep. wstep.
  cbn. rewrite lookup_insert_eq. apply wp_check; [intros _|done]. wstep; [|done]. injection Hx as <-.
  wstep. wstep. wstep. wstep. cbn. rewrite lookup_insert_eq. apply wp_check; [intros _|done].
  wstep. wstep. destruct s as [s]. cbn in *. by rewrite delete_insert_id.
Qed.
End StreamStore.
Arguments MapOutputStreamStore : clear implicits.
