(* ===== verification/MapOutput.v ===== *)
(** * Map outputs (core/map_output/map_output_stream.hpp,
    core/map_output/partitioned_map_output.hpp, core/plan/update_helper.hpp)

    A map task writes key/message pairs into an [Output], one [MapOutputStream] per
    partition of the update collection.  A stream is optionally combined (sorted by key, then
    adjacent equal keys merged in place) and serialized; the receiver applies the pairs
    to the objects of its partition.

    The key type and its order, [std::sort], the user's combine function and the user's
    update function are parameters. *)

From S2P Require Import Prelude BinStream.

Section MapOutputStream.
Context {K V : Type} `{!EqDecision K} `{!Serial K, !Serial V}.

Record MapOutputStream := {
  buffer_ : list (K * V); combine_func_ : option (V -> V -> V) }.
#[global] Instance eta_Stream : Eta MapOutputStream := fun s =>
  {| buffer_ := buffer_ s; combine_func_ := combine_func_ s |}.
Definition empty_out : MapOutputStream := {| buffer_ := []; combine_func_ := None |}.

Definition stream_Add (kv : K * V) (s : MapOutputStream) : MapOutputStream :=
  s <| buffer_ ::= fun b => b ++ [kv] |>.
Definition Append (other s : MapOutputStream) : MapOutputStream :=
  s <| buffer_ ::= fun b => b ++ buffer_ other |>.
Definition Clear (s : MapOutputStream) : MapOutputStream := s <| buffer_ := [] |>.
Definition SetCombineFunc (f : V -> V -> V) (s : MapOutputStream) : MapOutputStream :=
  s <| combine_func_ := Some f |>.

Definition SerializeOneBuffer (b : list (K * V)) : BinStream :=
  foldl (fun bin kv => bin << kv.1 << kv.2) empty_stream b.
Definition Serialize (s : MapOutputStream) : BinStream := SerializeOneBuffer (buffer_ s).

(** ** CombineOneBuffer: two indices into one vector *)

Definition combine_step (combine : V -> V -> V) (st : nat * list (K * V)) (r : nat) :
    nat * list (K * V) :=
  let '(l, b) := st in
  match b !! l, b !! r with
  | Some x, Some y =>
      if decide (x.1 = y.1) then (l, <[l := (x.1, combine x.2 y.2)]> b)
      else (S l, if decide (S l = r) then b else <[S l := y]> b)
  | _, _ => (l, b)   (* not reached: l < r < size *)
  end.
Definition CombineOneBuffer (b : list (K * V)) (combine : V -> V -> V) : list (K * V) :=
  let '(l, b') := foldl (combine_step combine) (0%nat, b) (seq 1 (length b - 1)) in
  match b' with [] => [] | _ => take (S l) b' end.

(** The reference: merge each run of equal keys. *)
Fixpoint merge_runs (combine : V -> V -> V) (x : K * V) (l : list (K * V)) : list (K * V) :=
  match l with
  | [] => [x]
  | y :: l' => if decide (x.1 = y.1) then merge_runs combine (x.1, combine x.2 y.2) l'
               else x :: merge_runs combine y l'
  end.
Definition merged (combine : V -> V -> V) (l : list (K * V)) : list (K * V) :=
  match l with [] => [] | x :: l' => merge_runs combine x l' end.

(** [std::sort] by [p1.first < p2.first]. *)
Context (sort : list (K * V) -> list (K * V)).
Definition stream_Combine (s : MapOutputStream) : MapOutputStream :=
  match combine_func_ s with
  | None => s
  | Some f => s <| buffer_ ::= fun b => CombineOneBuffer (sort b) f |>
  end.

Lemma combine_step_inv combine done x rest tail :
  exists done' x' tail',
    foldl (combine_step combine) (length done, done ++ x :: tail ++ rest)
      (seq (S (length done + length tail)) (length rest)) =
    (length done', done' ++ x' :: tail') /\
    done' ++ [x'] = done ++ merge_runs combine x rest.
Proof.
  revert done x tail. induction rest as [|y rest IH]; intros done x tail.
  - exists done, x, tail. cbn. by rewrite app_nil_r.
  - cbn [length seq foldl]. unfold combine_step at 2.
    assert ((done ++ x :: tail ++ y :: rest) !! length done = Some x) as ->
      by by apply list_lookup_middle.
    assert ((done ++ x :: tail ++ y :: rest) !! S (length done + length tail) = Some y) as ->.
    { rewrite app_comm_cons, app_assoc. apply list_lookup_middle.
      rewrite length_app. cbn. lia. }
    cbn [merge_runs]. destruct (decide (x.1 = y.1)) as [Heq|Hne].
    + rewrite insert_app_r_alt, Nat.sub_diag by lia. cbn [insert list_insert].
      destruct (IH done (x.1, combine x.2 y.2) (tail ++ [y])) as (d' & x' & t' & Hf & Hm).
      exists d', x', t'. rewrite <- Hm, <- Hf. rewrite length_app. cbn [length].
      rewrite <- app_assoc. cbn [app]. split; [|done]. do 2 f_equal. lia.
    + destruct tail as [|z tail].
      * cbn [app length]. rewrite Nat.add_0_r, decide_True by done.
        destruct (IH (done ++ [x]) y []) as (d' & x' & t' & Hf & Hm).
        exists d', x', t'. rewrite length_app in Hf. cbn [app length] in Hf.
        rewrite Nat.add_1_r, Nat.add_0_r, <- app_assoc in Hf. split; [exact Hf|].
        rewrite Hm, <- app_assoc. done.
      * rewrite decide_False by (cbn; lia).
        rewrite insert_app_r_alt by lia. replace (S (length done) - length done)%nat with 1%nat by lia.
        cbn [app insert list_insert].
        destruct (IH (done ++ [x]) y (tail ++ [y])) as (d' & x' & t' & Hf & Hm).
        exists d', x', t'. rewrite !length_app, <- !app_assoc in Hf. cbn [app length] in Hf.
        rewrite Nat.add_1_r in Hf. split.
        -- rewrite <- Hf. do 2 f_equal. cbn [length]. lia.
        -- rewrite Hm, <- app_assoc. done.
Qed.

(** The in-place loop computes the reference. *)
Lemma CombineOneBuffer_merged combine b : CombineOneBuffer b combine = merged combine b.
Proof.
  unfold CombineOneBuffer. destruct b as [|x b]; [done|]. cbn [length]. rewrite Nat.sub_succ, Nat.sub_0_r.
  destruct (combine_step_inv combine [] x b []) as (d & x' & t & Hf & Hm).
  cbn [length app Nat.add] in Hf, Hm. cbn [app]. rewrite Hf. cbn [merged]. rewrite <- Hm.
  destruct (d ++ x' :: t) eqn:E; [by destruct d|]. rewrite <- E.
  rewrite take_app_ge by lia. replace (S (length d) - length d)%nat with 1%nat by lia. done.
Qed.

(** ** What combining guarantees *)

Lemma merge_runs_keys combine x l :
  exists v l', merge_runs combine x l = (x.1, v) :: l'.
Proof.
  revert x. induction l as [|y l IH]; intros x; cbn; [destruct x; eauto|].
  destruct (decide (x.1 = y.1)); [apply (IH (x.1, combine x.2 y.2))|]. destruct x; eauto.
Qed.

(** ** Applying a stream to a partition (GetJoinPartFunc, GetJoinPartFunc2)

    An indexed partition is seen as a function from keys to objects, [FindOrCreate]
    giving a default object to a key it does not hold. *)
Context {Obj : Type} (update : Obj -> V -> Obj).

Definition apply_one (part : K -> Obj) (kv : K * V) : K -> Obj :=
  fun k => if decide (k = kv.1) then update (part k) kv.2 else part k.
Definition apply_all (part : K -> Obj) (l : list (K * V)) : K -> Obj := foldl apply_one part l.

Definition values_of (k : K) (l : list (K * V)) : list V := (filter (fun kv => kv.1 = k) l).*2.

Lemma apply_all_values l part k : apply_all part l k = foldl update (part k) (values_of k l).
Proof.
  revert part. induction l as [|[k' v] l IH]; intros part; [done|].
  cbn [apply_all foldl]. unfold apply_all in IH. rewrite IH. unfold values_of.
  rewrite filter_cons. cbn. unfold apply_one. cbn.
  destruct (decide (k = k')) as [->|]; [by rewrite decide_True by done|by rewrite decide_False by done].
Qed.

Lemma foldl_update_perm l l' o :
  (forall o a b, update (update o a) b = update (update o b) a) ->
  l ≡ₚ l' -> foldl update o l = foldl update o l'.
Proof.
  intros Hcomm Hp. revert o. induction Hp as [|x l l' _ IH|x y l|l1 l2 l3 _ IH1 _ IH2]; intros o; cbn;
    [done|apply IH|by rewrite Hcomm|by rewrite IH1, IH2].
Qed.

Lemma merge_runs_values combine x l k :
  (forall o a b, update o (combine a b) = update (update o a) b) ->
  forall o, foldl update o (values_of k (merge_runs combine x l)) =
            foldl update o (values_of k (x :: l)).
Proof.
  intros Hcb. revert x. induction l as [|y l IH]; intros x o; [done|]. cbn [merge_runs].
  destruct (decide (x.1 = y.1)) as [Heq|Hne].
  - rewrite IH. unfold values_of. rewrite !filter_cons. cbn. rewrite <- Heq.
    destruct (decide (x.1 = k)); cbn; [by rewrite Hcb|done].
  - unfold values_of in *. rewrite !(filter_cons _ x). destruct (decide (x.1 = k)); cbn; by rewrite IH.
Qed.

(** C23: combining a stream does not change its effect: if the combine function merges two
    messages into one with the effect of both, and messages to one object can be applied in
    any order, then every object of the partition ends in the same state whether the
    stream is combined or not. [std::sort] may order equal keys in any way. *)
Theorem combine_preserves_updates (s : MapOutputStream) (part : K -> Obj) (k : K) :
  (forall l, sort l ≡ₚ l) ->
  (forall f, combine_func_ s = Some f ->
     forall o a b, update o (f a b) = update (update o a) b) ->
  (forall o a b, update (update o a) b = update (update o b) a) ->
  apply_all part (buffer_ (stream_Combine s)) k = apply_all part (buffer_ s) k.
Proof.
  intros Hsort Hcb Hcomm. unfold stream_Combine.
  destruct (combine_func_ s) as [f|] eqn:Hf; [|done]. cbn.
  rewrite CombineOneBuffer_merged, !apply_all_values.
  transitivity (foldl update (part k) (values_of k (sort (buffer_ s)))).
  - unfold merged. destruct (sort (buffer_ s)) as [|x l]; [done|]. by apply merge_runs_values, Hcb.
  - apply foldl_update_perm; [done|]. unfold values_of. by rewrite Hsort.
Qed.

(** ** The remote path reads back what was serialized

    GetJoinPartFunc: [while (bin.Size()) { bin >> key >> msg; ... }].  The loop consumes
    at least one byte per turn when the encodings are not empty, so the number of unread
    bytes bounds the turns. *)
Fixpoint read_pairs (fuel : nat) : Reader (list (K * V)) :=
  bin <-- get ;;
  if (Size bin =? 0)%nat then ret [] else
  match fuel with
  | O => throw (Undefined "out of fuel")
  | S fuel' => k <-- dec ;; v <-- dec ;; rest <-- read_pairs fuel' ;; ret ((k, v) :: rest)
  end.
Definition join_pairs : Reader (list (K * V)) := bin <-- get ;; read_pairs (Size bin).
(** JoinFuncT on a serialized stream, JoinFunc2T on a local one. *)
Definition GetJoinPartFunc (part : K -> Obj) (bin : BinStream) : res (K -> Obj) :=
  match join_pairs bin with
  | Ok (l, _, _) => Ok (apply_all part l)
  | Err e => Err e
  end.
Definition GetJoinPartFunc2 (part : K -> Obj) (s : MapOutputStream) : K -> Obj :=
  apply_all part (buffer_ s).

Lemma SerializeOneBuffer_bytes b :
  SerializeOneBuffer b = {| buffer := concat ((fun kv => enc kv.1 ++ enc kv.2) <$> b); front := 0 |}.
Proof.
  unfold SerializeOneBuffer. induction b as [|[k v] b IH] using rev_ind; [done|].
  rewrite foldl_snoc, IH, fmap_app, concat_app. unfold shl, AddBin. cbn.
  by rewrite app_nil_r, app_assoc.
Qed.

Lemma read_pairs_all b pre fuel :
  Forall (fun kv => storable kv.1 /\ storable kv.2 /\ enc kv.1 ++ enc kv.2 <> []) b ->
  (length b <= fuel)%nat ->
  let bs := concat ((fun kv => enc kv.1 ++ enc kv.2) <$> b) in
  read_pairs fuel {| buffer := pre ++ bs; front := length pre |} =
  Ok (b, {| buffer := pre ++ bs; front := length pre + length bs |}, []).
Proof.
  intros Hb. revert pre fuel. induction Hb as [|[k v] b (Hk & Hv & Hne) Hb IH]; intros pre fuel Hf bs.
  - unfold bs. cbn. destruct fuel; cbn; unfold bind, get, Size; cbn;
      by rewrite app_nil_r, Nat.sub_diag, Nat.add_0_r.
  - destruct fuel as [|fuel]; [cbn in Hf; lia|]. cbn in Hk, Hv, Hne.
    set (tl := concat ((fun kv => enc kv.1 ++ enc kv.2) <$> b)).
    assert (bs = enc k ++ enc v ++ tl) as Hbs by (unfold bs; cbn; by rewrite <- app_assoc).
    assert (length (enc k ++ enc v) <> 0%nat) as Hlen by (by destruct (enc k ++ enc v)).
    cbn [read_pairs]. unfold bind at 1, get. unfold Size. cbn [buffer front].
    rewrite length_app in Hlen.
    rewrite (proj2 (Nat.eqb_neq _ _)) by (rewrite Hbs, !length_app; lia).
    unfold bind at 1. rewrite Hbs, (dec_enc k Hk pre (enc v ++ tl)).
    unfold bind at 1. pose proof (dec_enc v Hv (pre ++ enc k) tl) as Hdv.
    rewrite length_app, <- app_assoc in Hdv. rewrite Hdv.
    unfold bind at 1. specialize (IH (pre ++ enc k ++ enc v) fuel ltac:(cbn in Hf; lia)).
    cbn zeta in IH. fold tl in IH. rewrite !length_app in IH.
    rewrite <- !app_assoc, Nat.add_assoc in IH. rewrite IH. unfold ret. cbn. rewrite !length_app. do 4 f_equal. lia.
Qed.

(** C24: applying a serialized stream on the receiving node has the effect of applying the
    stream locally: the two join paths agree on every stream whose keys and messages the
    wire format can hold. *)
Theorem remote_join_is_local_join (s : MapOutputStream) (part : K -> Obj) :
  Forall (fun kv => storable kv.1 /\ storable kv.2 /\ enc kv.1 ++ enc kv.2 <> []) (buffer_ s) ->
  GetJoinPartFunc part (FromSArray (ToSArray (Serialize s))) = Ok (GetJoinPartFunc2 part s).
Proof.
  intros Hb. unfold GetJoinPartFunc, join_pairs, bind, get, GetJoinPartFunc2, Serialize.
  rewrite SerializeOneBuffer_bytes. unfold ToSArray, FromSArray. cbn [buffer].
  unfold Size. cbn [buffer front]. rewrite Nat.sub_0_r.
  set (bs := concat ((fun kv => enc kv.1 ++ enc kv.2) <$> buffer_ s)).
  assert (length (buffer_ s) <= length bs)%nat as Hlen.
  { unfold bs. clear bs. induction Hb as [|kv b (_ & _ & Hne) _ IH]; [done|]. cbn.
    rewrite length_app. destruct (enc kv.1 ++ enc kv.2); [done|]. cbn. lia. }
  pose proof (read_pairs_all (buffer_ s) [] (length bs) Hb Hlen) as Hr.
  cbn [app length] in Hr. fold bs in Hr. by rewrite Hr.
Qed.
End MapOutputStream.
Arguments MapOutputStream : clear implicits.

(** ** Output: one stream per partition *)

Section Output.
Context {K V : Type} (mapper : K -> Z).   (* typed_mapper_->Get *)

Record Output := { out_buffer_ : list (MapOutputStream K V) }.
Definition mkOutput (num_part : nat) : Output := {| out_buffer_ := replicate num_part empty_out |}.
Definition GetBufferSize (o : Output) : Z := Z.of_nat (length (out_buffer_ o)).
Definition output_Get {S O} (i : Z) (o : Output) : M S O (MapOutputStream K V) :=
  check ((0 <=? i) && (i <? GetBufferSize o)) "i < buffer_.size()" ;;;
  deref (out_buffer_ o !! Z.to_nat i) "buffer_[i]".
Definition output_SetCombineFunc (f : V -> V -> V) (o : Output) : Output :=
  {| out_buffer_ := SetCombineFunc f <$> out_buffer_ o |}.
(** The bound is a [DCHECK], so without debug checks an index out of range is undefined. *)
Definition output_Add {S O} (kv : K * V) (o : Output) : M S O Output :=
  let p := mapper kv.1 in
  if (0 <=? p) && (p <? GetBufferSize o)
  then ret {| out_buffer_ := alter (stream_Add kv) (Z.to_nat p) (out_buffer_ o) |}
  else throw (Undefined "buffer_pointers_[part_id]").
Fixpoint output_AddAll {S O} (l : list (K * V)) (o : Output) : M S O Output :=
  match l with [] => ret o | kv :: l' => o' <-- output_Add kv o ;; output_AddAll l' o' end.

(** [const GetBuffer(part_id)] checks [part_id <= size] and indexes. *)
Definition output_GetBuffer {S O} (part_id : Z) (o : Output) : M S O (list (K * V)) :=
  check ((0 <=? part_id) && (part_id <=? GetBufferSize o)) "part_id <= buffer_pointers_.size()" ;;;
  s <-- deref (out_buffer_ o !! Z.to_nat part_id) "buffer_pointers_[part_id]" ;; ret (buffer_ s).

Lemma output_AddAll_spec {S O} l o (s : S) :
  (forall kv, kv ∈ l -> 0 <= mapper kv.1 < GetBufferSize o) ->
  wp (O := O) none (output_AddAll l o) s (fun o' s' os => s' = s /\ os = [] /\
    GetBufferSize o' = GetBufferSize o /\
    forall i st', out_buffer_ o' !! i = Some st' -> exists st, out_buffer_ o !! i = Some st /\
      combine_func_ st' = combine_func_ st /\
      buffer_ st' = buffer_ st ++ filter (fun kv => mapper kv.1 = Z.of_nat i) l).
Proof.
  revert o. induction l as [|kv l IH]; intros o Hl; cbn [output_AddAll].
  - wstep. split_and!; [done..|]. intros i st' Hst. exists st'. by rewrite app_nil_r.
  - wstep. unfold output_Add. pose proof (Hl kv ltac:(set_solver)) as Hkv.
    rewrite (proj2 (Z.leb_le _ _)), (proj2 (Z.ltb_lt _ _)) by lia. cbn [andb]. wstep.
    assert (GetBufferSize {| out_buffer_ := alter (stream_Add kv) (Z.to_nat (mapper kv.1)) (out_buffer_ o) |}
            = GetBufferSize o) as Hsz by (unfold GetBufferSize; cbn; by rewrite length_alter).
    eapply wp_mono; [apply IH; intros; rewrite Hsz; apply Hl; set_solver|].
    intros o' s' os (-> & -> & Hsz' & Hst). split_and!; [done|done|by rewrite Hsz'|].
    intros i st' Hi. destruct (Hst i st' Hi) as (st & Hst' & Hcf & Heq). cbn in Hst'.
    rewrite list_lookup_alter in Hst'. rewrite filter_cons. case_decide as Hd.
    + apply fmap_Some in Hst' as (st0 & Hst0 & ->). subst i. exists st0. split; [done|]. split; [done|].
      rewrite Heq. cbn. rewrite decide_True by lia. by rewrite <- app_assoc.
    + exists st. rewrite decide_False by lia. done.
Qed.

(** an output built by [Add]s holds, in the stream of each partition, exactly the pairs
    whose key maps to that partition, in the order they were added; nothing is lost or
    duplicated across streams. *)
Theorem output_partitions_pairs (n : nat) (l : list (K * V)) (o : Output) (p : nat) (st : MapOutputStream K V) :
  (forall kv, kv ∈ l -> 0 <= mapper kv.1 < Z.of_nat n) ->
  output_AddAll (S := unit) (O := Empty_set) l (mkOutput n) tt = Ok (o, tt, []) ->
  out_buffer_ o !! p = Some st ->
  length (out_buffer_ o) = n /\ buffer_ st = filter (fun kv => mapper kv.1 = Z.of_nat p) l.
Proof.
  intros Hl Hrun Hp.
  assert (GetBufferSize (mkOutput n) = Z.of_nat n) as Hn
    by (unfold GetBufferSize, mkOutput; cbn; by rewrite length_replicate).
  pose proof (wp_Ok none _ _ _ _ _ _ Hrun
    (output_AddAll_spec l (mkOutput n) tt ltac:(by rewrite Hn))) as (_ & _ & Hsz & Hst).
  split; [unfold GetBufferSize in *; lia|]. destruct (Hst p st Hp) as (st0 & Hst0 & _ & ->).
  apply lookup_replicate in Hst0 as [-> _]. done.
Qed.
End Output.
Arguments Output : clear implicits.

(** ** Witnesses: integer keys, summed counts *)

Definition sum_combine (a b : Z) : Z := a + b.
Definition key_sort (l : list (Z * Z)) : list (Z * Z) := merge_sort key_le l.
Definition demo_stream : MapOutputStream Z Z :=
  {| buffer_ := [(2, 1); (1, 1); (2, 5); (1, 3)]; combine_func_ := Some sum_combine |}.

Lemma combine_preserves_updates_witness :
  buffer_ (stream_Combine key_sort demo_stream) = [(1, 4); (2, 6)] /\
  apply_all Z.add (fun _ => 10) (buffer_ (stream_Combine key_sort demo_stream)) 2 =
  apply_all Z.add (fun _ => 10) (buffer_ demo_stream) 2.
Proof.
  split; [vm_compute; reflexivity|].
  apply combine_preserves_updates.
  - intros l. apply merge_sort_Permutation.
  - intros f [= <-] o a b. unfold sum_combine. lia.
  - intros o a b. lia.
Defined.

Lemma remote_join_is_local_join_witness :
  GetJoinPartFunc Z.add (fun _ : Z => 10) (FromSArray (ToSArray (Serialize demo_stream))) =
  Ok (GetJoinPartFunc2 Z.add (fun _ => 10) demo_stream).
Proof.
  apply remote_join_is_local_join.
  repeat constructor; cbn; unfold storable; cbn; unfold in_int; try lia; done.
Defined.

Definition demo_output : Output Z Z :=
  {| out_buffer_ := [{| buffer_ := []; combine_func_ := None |};
                     {| buffer_ := [(4, 7); (1, 9)]; combine_func_ := None |};
                     {| buffer_ := [(2, 8)]; combine_func_ := None |}] |}.
Lemma output_partitions_pairs_witness :
  length (out_buffer_ demo_output) = 3%nat /\
  [(4, 7); (1, 9)] = filter (fun kv => kv.1 mod 3 = Z.of_nat 1) [(4, 7); (2, 8); (1, 9)].
Proof.
  apply (output_partitions_pairs (fun k => k mod 3) 3 [(4, 7); (2, 8); (1, 9)] demo_output 1
           {| buffer_ := [(4, 7); (1, 9)]; combine_func_ := None |}).
  - intros kv Hkv. pose proof (Z.mod_pos_bound kv.1 3). lia.
  - vm_compute. reflexivity.
  - reflexivity.
Defined.

(** the read accessor of [Output] lets the index one past the end through its check, and
    the access is then undefined. *)
Theorem output_GetBuffer_off_by_one (n : nat) :
  output_GetBuffer (K := Z) (V := Z) (S := unit) (O := Empty_set) (Z.of_nat n) (mkOutput n) tt =
  Err (Undefined "buffer_pointers_[part_id]").
Proof.
  unfold output_GetBuffer, GetBufferSize, mkOutput, bind, check. cbn.
  rewrite length_replicate, (proj2 (Z.leb_le _ _)), Z.leb_refl by lia. cbn.
  rewrite Nat2Z.id. by rewrite lookup_ge_None_2 by (rewrite length_replicate; lia).
Qed.
