(* ===== verification/Partitions.v ===== *)
(** * The containers of a collection's objects (core/partition/seq_partition.hpp,
    indexed_seq_partition.hpp, range_indexed_seq_partition.hpp, core/plan/update_helper.hpp)

    A partition stores objects in a vector.  An indexed partition also finds the object of
    a key: [IndexedSeqPartition] by binary search in a sorted prefix and by a hash index for
    the rest, [RangeIndexedSeqPartition] by its position.  A pointer into the storage is
    modelled by an index, valid until the storage grows.

    The plans only see a partition through [FindOrCreate], that is, as a function from keys
    to objects; [join] applied to the containers is shown to refine [apply_all] on that
    function, the specification the map outputs are proved against. *)

From S2P Require Import Prelude BinStream Index MapOutput.

(** ** Objects

    A template argument ObjT has a key type, [Key()] and a constructor from a key. *)
Class KeyedObject (K T : Type) := {
  Key : T -> K;
  of_key : K -> T;
  Key_of_key : forall k, Key (of_key k) = k }.

(** [operator<] of the key type. *)
Class KeyOrder (K : Type) := {
  key_lt : K -> K -> bool;
  key_lt_irrefl : forall k, key_lt k k = false;
  key_lt_trans : forall a b c, key_lt a b = true -> key_lt b c = true -> key_lt a c = true;
  key_lt_total : forall a b, a = b \/ key_lt a b = true \/ key_lt b a = true }.

#[export] Instance KeyOrder_Z : KeyOrder Z.
Proof.
  refine {| key_lt := Z.ltb |}.
  - apply Z.ltb_irrefl.
  - intros a b c ?%Z.ltb_lt ?%Z.ltb_lt. apply Z.ltb_lt. lia.
  - intros a b. rewrite !Z.ltb_lt. lia.
Defined.

(** ** SeqPartition *)

Definition seq_TypedAdd {T} (obj : T) (storage : list T) : list T := storage ++ [obj].
Definition seq_GetSize {T} (storage : list T) : Z := Z.of_nat (length storage).

(** ** IndexedSeqPartition *)

Section indexed.
Context {K T : Type} `{Countable K, !KeyedObject K T, !KeyOrder K}.

(** [sorted_size_] is an [int] that holds a length. *)
Record IndexedSeqPartition := {
  storage_ : list T; unsorted_ : gmap K nat; sorted_size_ : nat }.
#[global] Instance eta_Indexed : Eta IndexedSeqPartition := fun p =>
  {| storage_ := storage_ p; unsorted_ := unsorted_ p; sorted_size_ := sorted_size_ p |}.
Definition new_indexed : IndexedSeqPartition := {| storage_ := []; unsorted_ := ∅; sorted_size_ := 0 |}.

Abbreviation IPM := (M IndexedSeqPartition Empty_set).

Definition ip_TypedAdd (obj : T) (p : IndexedSeqPartition) : IndexedSeqPartition :=
  p <| unsorted_ ::= <[Key obj := length (storage_ p)]> |> <| storage_ ::= seq_TypedAdd obj |>.

(** [std::lower_bound] on a sorted range: the first position whose key is not smaller. *)
Fixpoint lower_bound (l : list T) (k : K) : nat :=
  match l with
  | [] => 0
  | a :: l' => if key_lt (Key a) k then S (lower_bound l' k) else 0
  end.

Definition ip_Find (key : K) (p : IndexedSeqPartition) : option nat :=
  let it := lower_bound (take (sorted_size_ p) (storage_ p)) (Key (of_key key)) in
  if negb (sorted_size_ p =? 0)%nat && negb (it =? sorted_size_ p)%nat then Some it
  else unsorted_ p !! key.

Definition ip_Get (key : K) : IPM T :=
  p <-- get ;;
  check (bool_decide (is_Some (ip_Find key p))) "obj != NULL" ;;;
  deref (i ← ip_Find key p; storage_ p !! i) "*obj".

Definition ip_FindOrCreate (key : K) : IPM nat :=
  p <-- get ;;
  match ip_Find key p with
  | Some obj => ret obj
  | None => modify (ip_TypedAdd (of_key key)) ;;; ret (length (storage_ p))
  end.

(** [std::sort] orders the objects by key; with equal keys it may leave them in any order,
    of which the model takes one. *)
Definition obj_le (a b : T) : Prop := key_lt (Key b) (Key a) = false.
#[global] Instance obj_le_dec a b : Decision (obj_le a b).
Proof. unfold obj_le. apply _. Defined.

Definition ip_Sort (p : IndexedSeqPartition) : IndexedSeqPartition :=
  {| storage_ := merge_sort obj_le (storage_ p); unsorted_ := ∅; sorted_size_ := length (storage_ p) |}.

Definition GetUnsortedSize (p : IndexedSeqPartition) : Z := Z.of_nat (size (unsorted_ p)).
Definition GetSortedSize (p : IndexedSeqPartition) : Z :=
  Z.of_nat (length (storage_ p)) - Z.of_nat (size (unsorted_ p)).

(** [update(p->FindOrCreate(key), msg)], the body of the loops of [GetJoinPartFunc]. *)
Definition ip_join {V} (update : T -> V -> T) (kv : K * V) : IPM unit :=
  i <-- ip_FindOrCreate kv.1 ;;
  p <-- get ;;
  obj <-- deref (storage_ p !! i) "obj" ;;
  modify (fun p => p <| storage_ ::= <[i := update obj kv.2]> |>).

(** *** The invariant *)

Definition ip_ok (p : IndexedSeqPartition) : Prop :=
  (sorted_size_ p <= length (storage_ p))%nat /\
  StronglySorted obj_le (take (sorted_size_ p) (storage_ p)) /\
  (forall k i, unsorted_ p !! k = Some i ->
     (sorted_size_ p <= i)%nat /\ exists o, storage_ p !! i = Some o /\ Key o = k) /\
  (forall i o, (sorted_size_ p <= i)%nat -> storage_ p !! i = Some o -> is_Some (unsorted_ p !! Key o)).

(** The keys the search answers correctly: those in the sorted prefix and those above it. *)
Definition known (p : IndexedSeqPartition) (k : K) : Prop :=
  k ∈ Key <$> take (sorted_size_ p) (storage_ p) \/
  forall o, o ∈ take (sorted_size_ p) (storage_ p) -> key_lt (Key o) k = true.

(** The function of keys that a plan sees. *)
Definition ip_view (p : IndexedSeqPartition) (k : K) : T :=
  default (of_key k) (i ← ip_Find k p; storage_ p !! i).

Lemma lower_bound_before l k j o : (j < lower_bound l k)%nat -> l !! j = Some o -> key_lt (Key o) k = true.
Proof.
  revert j. induction l as [|a l IH]; intros j Hj Ho; [done|]. cbn in Hj.
  destruct (key_lt (Key a) k) eqn:Ha; [|lia].
  destruct j as [|j]; cbn in Ho; [by injection Ho as <-|]. by apply (IH j); [lia|].
Qed.

Lemma lower_bound_at l k o : l !! lower_bound l k = Some o -> key_lt (Key o) k = false.
Proof.
  induction l as [|a l IH]; [done|]. cbn. destruct (key_lt (Key a) k) eqn:Ha; [done|].
  by intros [= <-].
Qed.

Lemma lower_bound_all l k : (forall o, o ∈ l -> key_lt (Key o) k = true) -> lower_bound l k = length l.
Proof.
  induction l as [|a l IH]; intros Hall; [done|]. cbn. rewrite Hall by set_solver.
  by rewrite IH by set_solver.
Qed.

Lemma lower_bound_present l k : StronglySorted obj_le l -> k ∈ Key <$> l ->
  exists o, l !! lower_bound l k = Some o /\ Key o = k.
Proof.
  intros Hs (o & -> & Ho)%list_elem_of_fmap. induction Hs as [|a l Hs IH Ha]; [set_solver|].
  cbn. destruct (key_lt (Key a) (Key o)) eqn:Hlt.
  - apply elem_of_cons in Ho as [->|Ho]; [by rewrite key_lt_irrefl in Hlt|]. by apply IH.
  - exists a. split; [done|]. apply elem_of_cons in Ho as [->|Ho]; [done|].
    rewrite Forall_forall in Ha. specialize (Ha o Ho). unfold obj_le in Ha.
    destruct (key_lt_total (Key a) (Key o)) as [?|[?|?]]; congruence.
Qed.

(** On known keys, [Find] finds an object of the key if there is one. *)
Lemma ip_Find_spec p k : ip_ok p -> known p k ->
  match ip_Find k p with
  | Some i => exists o, storage_ p !! i = Some o /\ Key o = k
  | None => forall i o, storage_ p !! i = Some o -> Key o <> k
  end.
Proof.
  intros (Hle & Hs & Hu1 & Hu2) Hk. unfold ip_Find. rewrite Key_of_key.
  set (l := take (sorted_size_ p) (storage_ p)) in *.
  assert (length l = sorted_size_ p) as Hlen by (subst l; rewrite length_take; lia).
  assert (forall j o, l !! j = Some o -> storage_ p !! j = Some o) as Hl.
  { intros j o Hj. subst l. by apply lookup_take_Some in Hj as [? _]. }
  destruct Hk as [Hk|Hk].
  - destruct (lower_bound_present l k Hs Hk) as (o & Ho & Hok).
    pose proof (lookup_lt_Some _ _ _ Ho) as Hlt. rewrite Hlen in Hlt.
    rewrite (proj2 (Nat.eqb_neq (sorted_size_ p) 0)), (proj2 (Nat.eqb_neq (lower_bound l k) _)) by lia.
    cbn. eauto.
  - assert (forall j o, l !! j = Some o -> Key o <> k) as Hnone.
    { intros j o Ho%list_elem_of_lookup_2 <-. apply Hk in Ho. by rewrite key_lt_irrefl in Ho. }
    rewrite (lower_bound_all l k Hk), Hlen, Nat.eqb_refl, andb_false_r.
    destruct (unsorted_ p !! k) as [i|] eqn:Hi.
    + by apply Hu1 in Hi as [_ ?].
    + intros i o Ho Hok. subst k. destruct (decide (i < sorted_size_ p)%nat).
      * apply (Hnone i o); [|done]. subst l. by rewrite lookup_take_lt.
      * destruct (Hu2 i o) as [? ?]; [lia|done|congruence].
Qed.

(** *** Operations keep the invariant *)

Lemma new_indexed_ok : ip_ok new_indexed.
Proof. split_and!; cbn; [lia|constructor|done|done]. Qed.

Lemma ip_TypedAdd_ok obj p : ip_ok p -> ip_ok (ip_TypedAdd obj p).
Proof.
  intros (Hle & Hs & Hu1 & Hu2). unfold ip_ok, ip_TypedAdd, seq_TypedAdd. cbn.
  rewrite length_app, take_app_le by lia. split_and!; [lia|done|..].
  - intros k i. destruct (decide (Key obj = k)) as [<-|Hne].
    + rewrite lookup_insert_eq. intros [= <-]. split; [lia|]. exists obj.
      by rewrite list_lookup_middle.
    + rewrite lookup_insert_ne by done. intros Hi. destruct (Hu1 k i Hi) as (? & o & Ho & ?).
      split; [lia|]. exists o. by rewrite lookup_app_l by (by eapply lookup_lt_Some).
  - intros i o Hi Ho. destruct (decide (Key obj = Key o)) as [->|Hne]; [by rewrite lookup_insert_eq|].
    rewrite lookup_insert_ne by done.
    apply lookup_app_Some in Ho as [Ho|[? Ho]]; [by apply (Hu2 i)|].
    apply list_lookup_singleton_Some in Ho as [_ <-]. done.
Qed.

#[global] Instance obj_le_total : Total obj_le.
Proof.
  intros a b. unfold obj_le. destruct (key_lt (Key b) (Key a)) eqn:E1; [|by left]. right.
  destruct (key_lt (Key a) (Key b)) eqn:E2; [|done].
  by rewrite <- (key_lt_irrefl (Key a)), (key_lt_trans _ _ _ E2 E1).
Qed.
#[global] Instance obj_le_trans : Transitive obj_le.
Proof.
  intros a b c Hab Hbc. unfold obj_le in *. destruct (key_lt (Key c) (Key a)) eqn:E; [|done].
  destruct (key_lt_total (Key a) (Key b)) as [Heq|[Hlt|Hlt]]; [| |congruence].
  - rewrite Heq in E. congruence.
  - by rewrite (key_lt_trans _ _ _ E Hlt) in Hbc.
Qed.

Lemma ip_Sort_ok p : ip_ok (ip_Sort p).
Proof.
  unfold ip_ok, ip_Sort. cbn.
  assert (length (merge_sort obj_le (storage_ p)) = length (storage_ p)) as Hlen
    by (by rewrite merge_sort_Permutation).
  rewrite take_ge by lia. split; [lia|]. split; [apply StronglySorted_merge_sort; apply _|]. split; [done|].
  intros i o Hi Ho. apply lookup_lt_Some in Ho. lia.
Qed.

(** After sorting, the keys of the partition are known. *)
Lemma ip_Sort_known p k : k ∈ Key <$> storage_ p -> known (ip_Sort p) k.
Proof.
  intros Hk. left. unfold ip_Sort. cbn.
  rewrite take_ge by (by rewrite merge_sort_Permutation). by rewrite merge_sort_Permutation.
Qed.

Lemma unsorted_known p k : sorted_size_ p = 0%nat -> known p k.
Proof. intros H0. right. rewrite H0. cbn. set_solver. Qed.

(** Writing through a pointer does not change a key. *)
Lemma ip_write_ok i o o' p : storage_ p !! i = Some o -> Key o' = Key o -> ip_ok p ->
  ip_ok (p <| storage_ ::= <[i := o']> |>) /\
  Key <$> storage_ (p <| storage_ ::= <[i := o']> |>) = Key <$> storage_ p.
Proof.
  intros Ho Hk (Hle & Hs & Hu1 & Hu2).
  assert (Key <$> <[i:=o']> (storage_ p) = Key <$> storage_ p) as Hkeys.
  { rewrite list_fmap_insert. apply list_insert_id. by rewrite list_lookup_fmap, Ho, Hk. }
  assert (forall j, Key <$> (<[i:=o']> (storage_ p) !! j) = Key <$> (storage_ p !! j)) as Hj.
  { intros j. by rewrite <- !list_lookup_fmap, Hkeys. }
  split; [|exact Hkeys]. unfold ip_ok. cbn. rewrite length_insert. split_and!; [done|..].
  - assert (forall l l' : list T, Key <$> l = Key <$> l' -> StronglySorted obj_le l -> StronglySorted obj_le l') as Hss.
    { clear. intros l l' Heq Hl. revert l' Heq. induction Hl as [|a l Hl IH Ha]; intros [|b l'] Heq; try done; [constructor|].
      cbn in Heq. injection Heq as Hab Heq. constructor; [by apply IH|].
      apply Forall_forall. intros c Hc. rewrite Forall_forall in Ha. unfold obj_le. rewrite <- Hab.
      assert (Key c ∈ Key <$> l) as (c' & -> & Hc')%list_elem_of_fmap by (rewrite Heq; by apply list_elem_of_fmap_2).
      by apply Ha. }
    apply (Hss (take (sorted_size_ p) (storage_ p))); [|done]. by rewrite !fmap_take, Hkeys.
  - intros k j Hkj. destruct (Hu1 k j Hkj) as (? & o2 & Ho2 & Hk2). split; [done|].
    specialize (Hj j). rewrite Ho2 in Hj. apply fmap_Some in Hj as (o3 & Ho3 & ?). exists o3. split; [done|congruence].
  - intros j o2 Hle2 Ho2. specialize (Hj j). rewrite Ho2 in Hj. symmetry in Hj.
    apply fmap_Some in Hj as (o3 & Ho3 & ->). by apply (Hu2 j).
Qed.

(** What [Find] does depends on the keys only. *)
Lemma ip_Find_keys p q k : Key <$> storage_ q = Key <$> storage_ p ->
  unsorted_ q = unsorted_ p -> sorted_size_ q = sorted_size_ p -> ip_Find k q = ip_Find k p.
Proof.
  intros Hk Hu Hs. unfold ip_Find. rewrite Hu, Hs.
  assert (forall (l l' : list T) k, Key <$> l = Key <$> l' -> lower_bound l k = lower_bound l' k) as Hlb.
  { clear. induction l as [|a l IH]; intros [|b l'] k Heq; try done. cbn in Heq. injection Heq as Hab Heq.
    cbn. by rewrite Hab, (IH l' k Heq). }
  by rewrite (Hlb (take (sorted_size_ p) (storage_ q)) (take (sorted_size_ p) (storage_ p)))
    by (by rewrite !fmap_take, Hk).
Qed.

(** *** Refinement

    Joining messages into the partition changes the function of keys as [apply_all] does. *)
Lemma ip_view_at p k i o : ip_Find k p = Some i -> storage_ p !! i = Some o -> ip_view p k = o.
Proof. intros Hi Ho. unfold ip_view. rewrite Hi. cbn. by rewrite Ho. Qed.

(** [FindOrCreate] of a known key leaves the function as it is and points at its value. *)
Lemma ip_FindOrCreate_spec p k : ip_ok p -> known p k ->
  wp none (ip_FindOrCreate k) p (fun i p' _ => ip_ok p' /\
    storage_ p' !! i = Some (ip_view p k) /\ Key (ip_view p k) = k /\ ip_Find k p' = Some i /\
    (forall k', known p k' -> known p' k' /\ ip_view p' k' = ip_view p k')).
Proof.
  intros Hok Hk. unfold ip_FindOrCreate. wstep. wstep.
  pose proof (ip_Find_spec p k Hok Hk) as Hf. destruct (ip_Find k p) as [i|] eqn:Hi.
  - destruct Hf as (o & Ho & Hko). wstep. rewrite (ip_view_at p k i o) by done. auto 10.
  - wsteps. assert (ip_view p k = of_key k) as Hv by (unfold ip_view; by rewrite Hi).
    pose proof Hok as (Hle & _). set (p' := ip_TypedAdd (of_key k) p).
    assert (take (sorted_size_ p') (storage_ p') = take (sorted_size_ p) (storage_ p)) as Htake
      by (unfold p', ip_TypedAdd, seq_TypedAdd; cbn; by rewrite take_app_le by lia).
    assert (forall k', ip_Find k' p' = if decide (k' = k) then Some (length (storage_ p)) else ip_Find k' p) as Hfind.
    { intros k'. unfold ip_Find. rewrite Htake. unfold p' at 1 2 3, ip_TypedAdd. cbn.
      unfold ip_Find in Hi. rewrite !Key_of_key in *. case_decide as Hd.
      - subst k'. destruct (_ && _) in Hi |- *; [done|]. by rewrite lookup_insert_eq.
      - by rewrite lookup_insert_ne by congruence. }
    split_and!; [by apply ip_TypedAdd_ok|..].
    + rewrite Hv. unfold p', ip_TypedAdd, seq_TypedAdd. cbn. by rewrite list_lookup_middle.
    + by rewrite Hv, Key_of_key.
    + by rewrite Hfind, decide_True.
    + intros k' Hk'. split; [unfold known; by rewrite Htake|].
      unfold ip_view. rewrite Hfind. case_decide as Hd.
      * subst k'. rewrite Hi. cbn. unfold p', ip_TypedAdd, seq_TypedAdd. cbn. by rewrite list_lookup_middle.
      * pose proof (ip_Find_spec p k' Hok Hk') as Hf'. destruct (ip_Find k' p) as [j|]; [|done].
        destruct Hf' as (o & Ho & _). cbn. unfold p', ip_TypedAdd, seq_TypedAdd. cbn.
        by rewrite lookup_app_l by (by eapply lookup_lt_Some).
Qed.

Section refinement.
Context {V : Type} (update : T -> V -> T).
Context (update_key : forall o v, Key (update o v) = Key o).

Lemma ip_join_spec p kv : ip_ok p -> known p kv.1 ->
  wp none (ip_join update kv) p (fun _ p' _ => ip_ok p' /\
    forall k, known p k -> known p' k /\ ip_view p' k = apply_one update (ip_view p) kv k).
Proof using update_key.
  intros Hok Hk. unfold ip_join. wstep. eapply wp_mono; [by apply ip_FindOrCreate_spec|].
  intros i p1 os (Hok1 & Hi & Hkey & Hfind & Hsame). wstep. wstep. wstep.
  apply wp_deref; [|by rewrite Hi]. intros o Ho. rewrite Hi in Ho. injection Ho as <-. wstep.
  destruct (ip_write_ok i _ (update (ip_view p kv.1) kv.2) p1 Hi) as [Hok2 Hkeys]; [apply update_key|done|].
  split; [done|]. intros k Hkk. destruct (Hsame k Hkk) as [Hk1 Hv1]. set (p2 := _ <| storage_ ::= _ |>) in *.
  assert (known p2 k) as Hk2.
  { destruct Hk1 as [Hk1|Hk1]; [left|right].
    - by rewrite fmap_take, Hkeys, <- fmap_take.
    - intros o Ho. assert (Key o ∈ Key <$> take (sorted_size_ p2) (storage_ p2)) as Hin by by apply list_elem_of_fmap_2.
      rewrite fmap_take, Hkeys, <- fmap_take in Hin. apply list_elem_of_fmap in Hin as (o' & -> & Ho'). by apply Hk1. }
  split; [done|]. assert (ip_Find k p2 = ip_Find k p1) as Hf by by apply ip_Find_keys.
  unfold apply_one. case_decide as Hd.
  - subst k. apply (ip_view_at _ _ i); [by rewrite Hf|]. cbn.
    rewrite list_lookup_insert_eq by (by eapply lookup_lt_Some). done.
  - rewrite <- Hv1. unfold ip_view. rewrite Hf. pose proof (ip_Find_spec p1 k Hok1 Hk1) as Hs.
    destruct (ip_Find k p1) as [j|]; [|done]. destruct Hs as (o & Ho & Hko). cbn.
    rewrite list_lookup_insert_ne; [done|]. intros <-. rewrite Hi in Ho. injection Ho as <-. congruence.
Qed.

End refinement.
End indexed.
Arguments IndexedSeqPartition K T {_ _}.

(** Witness: an object is a pair of key and count; a message is added to the count. *)
#[export] Instance KeyedObject_pair : KeyedObject Z (Z * Z).
Proof. by refine {| Key := fst; of_key := fun k => (k, 0) |}. Defined.
Definition add_to (o : Z * Z) (v : Z) : Z * Z := (o.1, o.2 + v).

Definition sorted_demo : IndexedSeqPartition Z (Z * Z) :=
  ip_Sort (ip_TypedAdd (2, 20) (ip_TypedAdd (5, 50) (ip_TypedAdd (1, 10) new_indexed))).


(** [IndexedSeqPartition::Find] does not compare the key of the object that the binary
    search stops at: after [Sort], a key that is absent and smaller than some key of the
    partition gets the object of that larger key, so a join for key 3 changes the object of
    key 5 and creates none. *)
Theorem sorted_find_returns_other_object :
  ip_Find 3 sorted_demo = Some 2%nat /\ storage_ sorted_demo !! 2%nat = Some (5, 50) /\
  match ip_join add_to (3, 1) sorted_demo with
  | Ok (_, p', _) => storage_ p' = [(1, 10); (2, 20); (5, 51)]
  | Err _ => False
  end.
Proof. vm_compute. auto. Qed.

(** ** RangeIndexedSeqPartition *)

Section range_indexed.
Context {T : Type} `{!KeyedObject Z T}.

Record RangeIndexedSeqPartition := { rp_storage_ : list T; range_ : Range }.
#[global] Instance eta_RangeIndexed : Eta RangeIndexedSeqPartition := fun p =>
  {| rp_storage_ := rp_storage_ p; range_ := range_ p |}.

Abbreviation RPM := (M RangeIndexedSeqPartition Empty_set).

(** The loop counts with an [int] from [begin] to [end]; bounds below 2^31 are assumed. *)
Definition mkRangeIndexed (r : Range) : RangeIndexedSeqPartition :=
  {| rp_storage_ := of_key <$> seqZ (range_begin r) (range_end r - range_begin r); range_ := r |}.

Definition rp_TypedAdd (obj : T) : RPM unit := check false "TypedAdd".

Definition rp_Find (key : Z) : RPM nat :=
  p <-- get ;;
  check (range_begin (range_ p) <=? key) "key >= range_.begin()" ;;;
  check (key <? range_end (range_ p)) "key < range_.end()" ;;;
  ret (Z.to_nat (key - range_begin (range_ p))).
Definition rp_FindOrCreate (key : Z) : RPM nat := rp_Find key.
Definition rp_Get (key : Z) : RPM T :=
  i <-- rp_Find key ;; p <-- get ;; deref (rp_storage_ p !! i) "storage_[key - range_.begin()]".
Definition rp_Sort (p : RangeIndexedSeqPartition) : RangeIndexedSeqPartition := p.

Definition rp_join {V} (update : T -> V -> T) (kv : Z * V) : RPM unit :=
  i <-- rp_FindOrCreate kv.1 ;;
  p <-- get ;;
  obj <-- deref (rp_storage_ p !! i) "obj" ;;
  modify (fun p => p <| rp_storage_ ::= <[i := update obj kv.2]> |>).

Definition in_range (p : RangeIndexedSeqPartition) (k : Z) : Prop :=
  range_begin (range_ p) <= k < range_end (range_ p).

(** The object of key [k] is at position [k - begin]. *)
Definition rp_ok (p : RangeIndexedSeqPartition) : Prop :=
  Key <$> rp_storage_ p =
    seqZ (range_begin (range_ p)) (range_end (range_ p) - range_begin (range_ p)).

Definition rp_view (p : RangeIndexedSeqPartition) (k : Z) : T :=
  default (of_key k) (rp_storage_ p !! Z.to_nat (k - range_begin (range_ p))).

Lemma mkRangeIndexed_ok r : rp_ok (mkRangeIndexed r).
Proof.
  unfold rp_ok, mkRangeIndexed. cbn. rewrite <- list_fmap_compose.
  rewrite <- (list_fmap_id (seqZ _ _)) at 2. apply list_fmap_ext. intros i k _. apply Key_of_key.
Qed.

Lemma rp_lookup p k : rp_ok p -> in_range p k ->
  exists o, rp_storage_ p !! Z.to_nat (k - range_begin (range_ p)) = Some o /\ Key o = k.
Proof.
  intros Hok Hk. unfold in_range in Hk.
  assert ((Key <$> rp_storage_ p) !! Z.to_nat (k - range_begin (range_ p)) = Some k) as Hl.
  { rewrite Hok, lookup_seqZ_lt by lia. f_equal. lia. }
  rewrite list_lookup_fmap in Hl. apply fmap_Some in Hl as (o & Ho & ->). eauto.
Qed.

Section refinement.
Context {V : Type} (update : T -> V -> T).
Context (update_key : forall o v, Key (update o v) = Key o).

Lemma rp_join_spec p kv : rp_ok p -> in_range p kv.1 ->
  wp none (rp_join update kv) p (fun _ p' _ => rp_ok p' /\ range_ p' = range_ p /\
    forall k, in_range p k -> rp_view p' k = apply_one update (rp_view p) kv k).
Proof using update_key.
  intros Hok Hk. destruct (rp_lookup p kv.1 Hok Hk) as (o & Ho & Hko). unfold in_range in *.
  unfold rp_join, rp_FindOrCreate, rp_Find. wsteps; try (unfold none; lia).
  - rewrite Ho in Hx. injection Hx as <-. split_and!; [|done|].
    + unfold rp_ok. cbn. rewrite list_fmap_insert, list_insert_id; [done|].
      by rewrite list_lookup_fmap, Ho, update_key.
    + intros k Hkr. unfold rp_view at 1. cbn. unfold apply_one. case_decide as Hd.
      * subst k. rewrite list_lookup_insert_eq by (by eapply lookup_lt_Some).
        unfold rp_view. by rewrite Ho.
      * by rewrite list_lookup_insert_ne by lia.
  - by rewrite Ho.
Qed.

(** a range-indexed partition refines a function on the keys of its range: joining
    messages for these keys never fails and computes what [apply_all] does on the function,
    and a message for a key outside the range fails a check. *)
Theorem range_join_refines p kvs : rp_ok p ->
  ((forall kv, kv ∈ kvs -> in_range p kv.1) ->
   exists p' os, for_each kvs (rp_join update) p = Ok (tt, p', os) /\ rp_ok p' /\ range_ p' = range_ p /\
     forall k, in_range p k -> rp_view p' k = apply_all update (rp_view p) kvs k) /\
  (forall kv, ~ in_range p kv.1 -> exists w, rp_join update kv p = Err (CheckFailed w)).
Proof using update_key.
  intros Hok. split.
  - intros Hk. destruct (wp_none_Ok (for_each kvs (rp_join update)) p (fun _ p' _ => rp_ok p' /\ range_ p' = range_ p /\
      forall k, in_range p k -> rp_view p' k = apply_all update (rp_view p) kvs k))
      as ([] & p' & os & Hrun & HQ); [|by exists p', os].
    eapply (wp_for_each none (fun l p1 _ => rp_ok p1 /\ range_ p1 = range_ p /\ exists dn, kvs = dn ++ l /\
      forall k, in_range p k -> rp_view p1 k = apply_all update (rp_view p) dn k)).
    + split_and!; [done..|]. by exists [].
    + intros kv l p1 os (Hok1 & Hr & dn & Heq & Hv). eapply wp_mono.
      { apply rp_join_spec; [done|]. unfold in_range. rewrite Hr. apply Hk. rewrite Heq. set_solver. }
      intros [] p2 os2 (Hok2 & Hr2 & Hv2). split_and!; [done|congruence|].
      exists (dn ++ [kv]). split; [by rewrite Heq, <- app_assoc|]. intros k Hkk.
      rewrite Hv2 by (unfold in_range; by rewrite Hr). unfold apply_all. rewrite foldl_app. cbn.
      unfold apply_one. destruct (decide (k = kv.1)); [|by apply Hv]. subst. by rewrite Hv.
    + intros p' os (Hok' & Hr & dn & Heq & Hv). rewrite app_nil_r in Heq. by subst dn.
  - intros kv Hk. unfold in_range in Hk. unfold rp_join, rp_FindOrCreate, rp_Find, bind, get, check, throw, ret.
    destruct (Z.leb_spec (range_begin (range_ p)) kv.1), (Z.ltb_spec kv.1 (range_end (range_ p))); cbn; eauto. lia.
Qed.
End refinement.
End range_indexed.
Arguments RangeIndexedSeqPartition : clear implicits.

Lemma range_join_refines_witness :
  exists p' os, for_each [(12, 1); (10, 3); (12, 4)] (rp_join add_to)
      (mkRangeIndexed {| range_begin := 10; range_end := 13 |}) = Ok (tt, p', os) /\
    rp_view p' 12 = (12, 5).
Proof.
  destruct (range_join_refines add_to ltac:(done) (mkRangeIndexed {| range_begin := 10; range_end := 13 |})
    [(12, 1); (10, 3); (12, 4)] (mkRangeIndexed_ok _)) as [H _].
  destruct H as (p' & os & Hr & _ & _ & Hv).
  - intros kv Hkv. unfold in_range. cbn. repeat (apply elem_of_cons in Hkv as [->|Hkv]; [cbn; lia|]). set_solver.
  - exists p', os. split; [exact Hr|]. rewrite Hv by (unfold in_range; cbn; lia). vm_compute. reflexivity.
Defined.

(** ** Serialization: ToBin and FromBin

    [FromBin] reads into a new partition.  An [std::unordered_map] is written in the order
    of its buckets, which the list [l] stands for. *)

Section serialization.
Context {T : Type} `{!KeyedObject Z T, !Serial T}.

Definition seq_ToBin (storage : list T) : bytes := enc storage.
Definition seq_FromBin : Reader (list T) := dec.

Definition size_of_nat (n : nat) : size_t := SizeT (Z.of_nat n).
Definition nat_of_size (n : size_t) : nat := Z.to_nat (size_val n).

Definition ip_ToBin (l : list (Z * size_t)) (p : IndexedSeqPartition Z T) : bytes :=
  enc (storage_ p) ++ enc_map_as l ++ enc (Z.of_nat (sorted_size_ p)).
Definition ip_FromBin : Reader (IndexedSeqPartition Z T) :=
  storage <-- dec ;;
  unsorted <-- dec_map ;;
  sorted_size <-- dec ;;
  ret {| storage_ := storage; unsorted_ := nat_of_size <$> unsorted; sorted_size_ := Z.to_nat sorted_size |}.

(** [Range] is trivially copyable: its two [uint64_t] members. *)
Definition rp_ToBin (p : RangeIndexedSeqPartition T) : bytes :=
  enc (rp_storage_ p) ++ enc (SizeT (range_begin (range_ p))) ++ enc (SizeT (range_end (range_ p))).
Definition rp_FromBin : Reader (RangeIndexedSeqPartition T) :=
  storage <-- dec ;;
  b <-- dec ;;
  e <-- dec ;;
  ret {| rp_storage_ := storage; range_ := {| range_begin := size_val b; range_end := size_val e |} |}.

Definition ip_storable (p : IndexedSeqPartition Z T) : Prop :=
  length_fits (storage_ p) /\ Forall storable (storage_ p) /\ in_int (Z.of_nat (sorted_size_ p)) /\
  (forall k i, unsorted_ p !! k = Some i -> in_int k /\ in_size_t (Z.of_nat i)) /\
  length_fits (map_to_list (unsorted_ p)).
Definition rp_storable (p : RangeIndexedSeqPartition T) : Prop :=
  length_fits (rp_storage_ p) /\ Forall storable (rp_storage_ p) /\
  in_size_t (range_begin (range_ p)) /\ in_size_t (range_end (range_ p)).

(** C36: writing a partition and reading it back gives the same partition, for the three
    containers: the objects, and for the indexed ones the hash index, whatever order its
    buckets are written in, the size of the sorted prefix and the range. *)
Theorem partitions_round_trip :
  (forall s : list T, storable s -> reads seq_FromBin (seq_ToBin s) s) /\
  (forall p l, ip_storable p -> l ≡ₚ map_to_list (size_of_nat <$> unsorted_ p) ->
     reads ip_FromBin (ip_ToBin l p) p) /\
  (forall p, rp_storable p -> reads rp_FromBin (rp_ToBin p) p).
Proof.
  split_and!.
  - intros s Hs. by apply dec_enc.
  - intros p l (Hlen & Hst & Hint & Hu & Hul) Hl. unfold ip_FromBin, ip_ToBin.
    eapply reads_bind; [by apply dec_enc|]. eapply reads_bind.
    + apply (reads_map_as (size_of_nat <$> unsorted_ p)); [done|]. split.
      * unfold length_fits in *. rewrite map_to_list_fmap, length_fmap. done.
      * intros k v Hv. rewrite lookup_fmap in Hv. apply fmap_Some in Hv as (i & Hi & ->). by apply Hu.
    + eapply reads_bind_ret; [by apply dec_enc|]. cbv beta. rewrite <- map_fmap_compose.
      rewrite (map_fmap_ext _ id), map_fmap_id by (intros k i _; unfold nat_of_size, size_of_nat; cbn; lia).
      rewrite Nat2Z.id. by destruct p.
  - intros p (Hlen & Hst & Hb & He). unfold rp_FromBin, rp_ToBin.
    eapply reads_bind; [by apply dec_enc|]. eapply reads_bind; [by apply dec_enc|].
    eapply reads_bind_ret; [by apply dec_enc|]. by destruct p as [? []].
Qed.
End serialization.

(** Witness: two sorted objects and one that was added later. *)
Definition stored_demo : IndexedSeqPartition Z (Z * Z) :=
  {| storage_ := [(1, 10); (2, 20); (9, 90)]; unsorted_ := {[ 9 := 2%nat ]}; sorted_size_ := 2 |}.

Lemma stored_demo_storable : ip_storable stored_demo.
Proof.
  unfold ip_storable, stored_demo, length_fits, in_int, in_size_t. cbn. split_and!; try lia.
  - repeat constructor; unfold storable; cbn; unfold in_int; lia.
  - intros k i. rewrite lookup_singleton_Some. intros [<- <-]. lia.
  - rewrite map_to_list_singleton. cbn. lia.
Qed.

Lemma partitions_round_trip_witness : reads ip_FromBin (ip_ToBin [(9, SizeT 2)] stored_demo) stored_demo.
Proof.
  destruct (partitions_round_trip (T := Z * Z)) as (_ & H & _). apply H.
  - exact stored_demo_storable.
  - unfold stored_demo, size_of_nat. cbn [unsorted_]. rewrite map_fmap_singleton, map_to_list_singleton. reflexivity.
Defined.
