(* ===== verification/BlockReader.v ===== *)
(** * Reading the lines of a block (io/hdfs_block_reader.hpp, hdfs_block_reader.cpp)

    A text file is loaded block by block, each block by one [HdfsBlockReader], perhaps on
    different nodes.  A line that crosses the end of a block belongs to the block in which
    the newline before it lies: the reader of a later block skips everything up to the
    first newline of its block, and the reader of the block where the line began reads on
    into the following blocks.

    The file system client is a parameter: [hdfsRead] returns some of the bytes at the
    position of the file, up to the end of the block that the position is in. *)

From S2P Require Import Prelude BinStream.

Abbreviation byte := Byte.byte.
Definition newline : byte := Byte.x0a.
#[export] Instance byte_eq_dec : EqDecision byte := Byte.byte_eq_dec.

Section BlockReader.
Variable file : bytes.
Variable hdfs_block_size_ : nat.
(** The number of bytes that a call of [hdfsRead] at a position returns; 0 at the end. *)
Variable hdfsRead : nat -> nat.

(** ** State *)

(** [r_]: [None] is [boost::string_ref::npos], which the [int] member holds as -1; [pos_] is
    the position of the open file. *)
Record HdfsBlockReader := {
  offset_ : nat; l_ : nat; r_ : option nat; last_part_ : bytes; buffer_ : bytes; pos_ : nat;
  tmp_line_ : bytes; tmp_line_count_ : Z }.
#[global] Instance eta_HdfsBlockReader : Eta HdfsBlockReader := fun b =>
  {| offset_ := offset_ b; l_ := l_ b; r_ := r_ b; last_part_ := last_part_ b;
     buffer_ := buffer_ b; pos_ := pos_ b; tmp_line_ := tmp_line_ b;
     tmp_line_count_ := tmp_line_count_ b |}.
Abbreviation BM := (M HdfsBlockReader Empty_set).

Definition new_reader : HdfsBlockReader :=
  {| offset_ := 0; l_ := 0; r_ := Some 0%nat; last_part_ := []; buffer_ := []; pos_ := 0;
     tmp_line_ := []; tmp_line_count_ := 0 |}.

(** ** Operations *)

(** The bytes from position [pos] on, [n] of them. *)
Definition at_pos (pos n : nat) : bytes := take n (drop pos file).

Fixpoint find_next_from (sref : bytes) (i : nat) (c : byte) : option nat :=
  match sref with
  | [] => None
  | b :: sref' => if decide (b = c) then Some i else find_next_from sref' (S i) c
  end.
(** [find_next(sref, l, c)] for [l] not beyond the end. *)
Definition find_next (sref : bytes) (l : nat) (c : byte) : option nat :=
  find_next_from (drop l sref) l c.

Definition fetch_next : BM bytes :=
  b <-- get ;;
  let n := hdfsRead (pos_ b) in
  modify (fun b => b <| pos_ ::= fun p => (p + n)%nat |>) ;;;
  ret (at_pos (pos_ b) n).

(** The loop of [read_block]; [start] bytes have been read. *)
Fixpoint read_block (fuel : nat) (start : nat) (pos : nat) : nat * nat :=
  match fuel with
  | O => (start, pos)
  | S fuel' =>
      if (start <? hdfs_block_size_)%nat then
        let n := hdfsRead pos in
        if (n =? 0)%nat then (start, pos) else read_block fuel' (start + n) (pos + n)
      else (start, pos)
  end.

Definition fetch_new_block : BM bool :=
  b <-- get ;;
  let '(nbytes, pos) := read_block (S hdfs_block_size_) 0 (offset_ b) in
  modify (fun b => b <| pos_ := pos |> <| buffer_ := at_pos (offset_ b) nbytes |>) ;;;
  if (nbytes =? 0)%nat then ret false
  else modify (fun b => b <| l_ := 0%nat |> <| r_ := Some 0%nat |>) ;;; ret true.

Definition br_Init (offset : nat) : BM unit :=
  modify (fun b => b <| offset_ := offset |>) ;;;
  success <-- fetch_new_block ;;
  check success "success".

(** The loop of [handle_next_block]. *)
Fixpoint handle_next_block (fuel : nat) : BM unit :=
  match fuel with
  | O => ret tt
  | S fuel' =>
      b <-- get ;;
      match buffer_ b with
      | [] => ret tt
      | _ =>
          let r := find_next (buffer_ b) 0 newline in
          modify (fun b => b <| r_ := r |>) ;;;
          match r with
          | None =>
              modify (fun b => b <| last_part_ ::= fun p => p ++ buffer_ b |>) ;;;
              buf <-- fetch_next ;;
              modify (fun b => b <| buffer_ := buf |>) ;;;
              handle_next_block fuel'
          | Some r =>
              modify (fun b => b <| last_part_ ::= fun p => p ++ take r (buffer_ b) |>
                                 <| buffer_ := [] |>)
          end
      end
  end.

(** One fetched chunk per iteration, and no more chunks than bytes. *)
Definition handle_fuel : nat := S (length file).

Definition next : BM (option bytes) :=
  b <-- get ;;
  match buffer_ b with
  | [] => ret None
  | c0 :: _ =>
      if bool_decide (r_ b = Some (length (buffer_ b) - 1)%nat) then
        buf <-- fetch_next ;;
        modify (fun b => b <| buffer_ := buf |>) ;;;
        match buf with
        | [] => ret None
        | _ =>
            modify (fun b => b <| last_part_ := [] |>) ;;;
            handle_next_block handle_fuel ;;;
            b <-- get ;; ret (Some (last_part_ b))
        end
      else
        let l := if bool_decide (offset_ b = 0%nat /\ r_ b = Some 0%nat)
                 then (if decide (c0 = newline) then 1%nat else 0%nat)
                 else match find_next (buffer_ b) (default 0%nat (r_ b)) newline with
                      | Some i => S i
                      | None => 0%nat   (* npos + 1 *)
                      end in
        let r := find_next (buffer_ b) l newline in
        modify (fun b => b <| l_ := l |> <| r_ := r |>) ;;;
        match r with
        | None =>
            modify (fun b => b <| last_part_ := drop l (buffer_ b) |>) ;;;
            buf <-- fetch_next ;;
            modify (fun b => b <| buffer_ := buf |>) ;;;
            handle_next_block handle_fuel ;;;
            b <-- get ;; ret (Some (last_part_ b))
        | Some r => ret (Some (take (r - l) (drop l (buffer_ b))))
        end
  end.

(** [ReadBlock]: at most one line per byte of the block, one that goes on after it, and the
    call of [next] that finds no more. *)
Fixpoint ReadBlock_loop (fuel : nat) (ret_ : list bytes) : BM (list bytes) :=
  match fuel with
  | O => ret ret_
  | S fuel' =>
      line <-- next ;;
      match line with
      | None => ret ret_
      | Some s => ReadBlock_loop fuel' (ret_ ++ [s])
      end
  end.
Definition ReadBlock : BM (list bytes) := ReadBlock_loop (3 + hdfs_block_size_) [].

Definition HasLine : BM bool :=
  line <-- next ;;
  match line with
  | Some s => modify (fun b => b <| tmp_line_ := s |>) ;;; ret true
  | None => ret false
  end.
Definition GetLine : BM bytes :=
  modify (fun b => b <| tmp_line_count_ ::= Z.succ |>) ;;; b <-- get ;; ret (tmp_line_ b).
Definition GetNumLineRead : BM Z := b <-- get ;; ret (tmp_line_count_ b).

(** The lines of the block at an offset. *)
Definition block_lines (offset : nat) : res (list bytes) :=
  match (br_Init offset ;;; ReadBlock) new_reader with
  | Ok (ls, _, _) => Ok ls
  | Err e => Err e
  end.
End BlockReader.

(** ** The lines of a text *)

Definition has_newline (s : bytes) : bool := bool_decide (newline ∈ s).
Fixpoint first_line (s : bytes) : bytes :=
  match s with
  | [] => []
  | c :: s' => if decide (c = newline) then [] else c :: first_line s'
  end.
(** What follows the first newline. *)
Fixpoint after_line (s : bytes) : bytes :=
  match s with
  | [] => []
  | c :: s' => if decide (c = newline) then s' else after_line s'
  end.

(** The lines of a text; a newline at the end does not start another one. *)
Fixpoint lines_fuel (fuel : nat) (s : bytes) : list bytes :=
  match fuel, s with
  | O, _ | _, [] => []
  | S fuel', _ => first_line s :: lines_fuel fuel' (after_line s)
  end.
Definition lines (s : bytes) : list bytes := lines_fuel (length s) s.

(** The lines that begin in [t], the rest of a block, when [post] follows the block. *)
Fixpoint owned_fuel (fuel : nat) (t post : bytes) : list bytes :=
  match fuel with
  | O => []
  | S fuel' =>
      match t with
      | [] => match post with [] => [] | _ => [first_line post] end
      | _ => if has_newline t then first_line t :: owned_fuel fuel' (after_line t) post
             else [t ++ first_line post]
      end
  end.
Definition owned (t post : bytes) : list bytes := owned_fuel (S (length t)) t post.

(** ** Facts about lines *)

Lemma first_line_app s t :
  first_line (s ++ t) = if has_newline s then first_line s else s ++ first_line t.
Proof.
  induction s as [|c s IH]; [done|]. cbn [first_line app]. unfold has_newline in *.
  destruct (decide (c = newline)) as [Hc|Hc]; [subst; rewrite bool_decide_eq_true_2; [done|set_solver]|].
  rewrite IH. rewrite (bool_decide_ext (newline ∈ c :: s) (newline ∈ s)) by set_solver.
  by case_bool_decide.
Qed.

Lemma after_line_app s t :
  after_line (s ++ t) = if has_newline s then after_line s ++ t else after_line t.
Proof.
  induction s as [|c s IH]; [done|]. cbn [after_line app]. unfold has_newline in *.
  destruct (decide (c = newline)) as [Hc|Hc]; [subst; rewrite bool_decide_eq_true_2; [done|set_solver]|].
  rewrite IH. by rewrite (bool_decide_ext (newline ∈ c :: s) (newline ∈ s)) by set_solver.
Qed.

Lemma line_split s : has_newline s = true -> s = first_line s ++ newline :: after_line s.
Proof.
  induction s as [|c s IH]; unfold has_newline in *; intros Hs%bool_decide_eq_true; [set_solver|].
  cbn. destruct (decide (c = newline)) as [Hc|Hc]; [by subst|]. cbn. f_equal. apply IH, bool_decide_eq_true. set_solver.
Qed.

Lemma lookup_newline s : has_newline s = true -> s !! length (first_line s) = Some newline.
Proof.
  intros Hn. pose proof (line_split s Hn) as Hs. revert Hs. generalize (first_line s). intros p ->.
  by rewrite lookup_app_r, Nat.sub_diag by lia.
Qed.

Lemma take_first_line s : has_newline s = true -> take (length (first_line s)) s = first_line s.
Proof.
  intros Hn. pose proof (line_split s Hn) as Hs. revert Hs. generalize (first_line s). intros p ->.
  apply take_app_length.
Qed.

Lemma drop_first_line s : has_newline s = true -> drop (S (length (first_line s))) s = after_line s.
Proof.
  intros Hn. pose proof (line_split s Hn) as Hs. revert Hs.
  generalize (first_line s), (after_line s). intros p q ->.
  rewrite (app_assoc p [newline] q : p ++ newline :: q = _). apply drop_app_length'.
  rewrite length_app. cbn. lia.
Qed.

Lemma first_line_none s : has_newline s = false -> first_line s = s /\ after_line s = [].
Proof.
  induction s as [|c s IH]; [done|]. unfold has_newline in *. intros Hs%bool_decide_eq_false.
  cbn. destruct (decide (c = newline)) as [Hc|Hc]; [set_solver|]. destruct IH as [H1 H2]; [apply bool_decide_eq_false; set_solver|]. by rewrite H1, H2.
Qed.

Lemma length_after_line s : s <> [] -> (length (after_line s) < length s)%nat.
Proof.
  induction s as [|c s IH]; [done|]. intros _. cbn. case_decide; [lia|].
  destruct s; [cbn; lia|]. specialize (IH ltac:(done)). cbn in *. lia.
Qed.

Lemma lines_fuel_enough n s : (length s <= n)%nat -> lines_fuel n s = lines s.
Proof.
  unfold lines. revert s. induction n as [n IH] using lt_wf_ind. intros s Hn.
  destruct s as [|c s]; [by destruct n|]. destruct n as [|n]; [cbn in Hn; lia|].
  pose proof (length_after_line (c :: s) ltac:(done)) as Hl. cbn [length] in Hl, Hn |- *.
  cbn [lines_fuel]. f_equal. rewrite (IH n) by lia. symmetry. apply IH; lia.
Qed.

Lemma lines_cons s : s <> [] -> lines s = first_line s :: lines (after_line s).
Proof.
  intros Hs. pose proof (length_after_line s Hs) as Hl. unfold lines at 1.
  destruct s as [|c s]; [done|]. cbn [length lines_fuel]. f_equal. apply lines_fuel_enough.
  cbn [length] in Hl. lia.
Qed.

Lemma owned_fuel_S n c t post :
  owned_fuel (S n) (c :: t) post =
    if has_newline (c :: t) then first_line (c :: t) :: owned_fuel n (after_line (c :: t)) post
    else [(c :: t) ++ first_line post].
Proof. done. Qed.

Lemma owned_fuel_enough n t post : (length t < n)%nat -> owned_fuel n t post = owned t post.
Proof.
  unfold owned. revert t. induction n as [n IH] using lt_wf_ind. intros t Hn.
  destruct n as [|n]; [lia|]. destruct t as [|c t]; [done|].
  pose proof (length_after_line (c :: t) ltac:(done)) as Hl. cbn [length] in Hl, Hn |- *.
  rewrite !owned_fuel_S. destruct (has_newline (c :: t)); [|done]. f_equal.
  rewrite (IH n) by lia. symmetry. apply IH; lia.
Qed.

Lemma owned_newline t post : has_newline t = true -> owned t post = first_line t :: owned (after_line t) post.
Proof.
  intros Hn. destruct t as [|c t]; [done|].
  pose proof (length_after_line (c :: t) ltac:(done)) as Hl. unfold owned at 1.
  rewrite owned_fuel_S, Hn. f_equal. by apply owned_fuel_enough.
Qed.

Lemma owned_last t post : t <> [] -> has_newline t = false -> owned t post = [t ++ first_line post].
Proof. intros Ht Hn. unfold owned. destruct t as [|c t]; [done|]. by rewrite owned_fuel_S, Hn. Qed.

(** The lines of a text are those that begin in its first block and those that begin
    after the first newline of what follows. *)
Lemma lines_blocks t post : lines (t ++ post) = owned t post ++ lines (after_line post).
Proof.
  induction t as [t IH] using (induction_ltof1 _ (@length byte)). unfold ltof in IH.
  destruct t as [|c t].
  - destruct post as [|d post]; [done|]. by rewrite lines_cons.
  - rewrite lines_cons by done. rewrite first_line_app, after_line_app.
    destruct (has_newline (c :: t)) eqn:Hn.
    + rewrite (owned_newline _ _ Hn). rewrite (IH (after_line (c :: t))); [done|].
      by apply length_after_line.
    + by rewrite owned_last.
Qed.

Lemma find_next_spec s l :
  find_next s l newline =
    if has_newline (drop l s) then Some (l + length (first_line (drop l s)))%nat else None.
Proof.
  unfold find_next. generalize (drop l s). intros t. revert l.
  induction t as [|c t IH]; intros l; [done|]. cbn. unfold has_newline in *. destruct (decide (c = newline)) as [Hc|Hc].
  - subst. rewrite bool_decide_eq_true_2 by set_solver. by rewrite Nat.add_0_r.
  - rewrite IH. rewrite (bool_decide_ext (newline ∈ c :: t) (newline ∈ t)) by set_solver.
    case_bool_decide; [|done]. cbn. f_equal. lia.
Qed.

(** ** The reader *)

Section correctness.
#[local] Open Scope nat_scope.
Context (file : bytes) (bs : nat) (hdfsRead : nat -> nat).

(** A read before the end of the file returns at least one byte, and none beyond the end
    of the file or of the block. *)
Definition hdfsRead_in_block : Prop := forall pos,
  (pos < length file -> 1 <= hdfsRead pos /\ pos + hdfsRead pos <= length file /\
     pos + hdfsRead pos <= (pos / bs + 1) * bs)%nat /\
  (length file <= pos -> hdfsRead pos = 0)%nat.
Hypothesis Hrd : hdfsRead_in_block.
Hypothesis Hbs : (2 <= bs)%nat.

Lemma read_block_spec k fuel start :
  let len := Nat.min bs (length file - k * bs) in
  (start <= len)%nat -> (len - start < fuel)%nat ->
  read_block bs hdfsRead fuel start (k * bs + start) = (len, (k * bs + len)%nat).
Proof.
  intros len. revert start. induction fuel as [|fuel IH]; intros start Hs Hf; [lia|]. cbn [read_block].
  destruct (Nat.ltb_spec start bs) as [Hlt|Hge]; [|f_equal; lia].
  destruct (Hrd (k * bs + start)) as [H1 H2].
  destruct (Nat.lt_ge_cases (k * bs + start) (length file)) as [Hin|Hout].
  - specialize (H1 Hin). assert ((k * bs + start) / bs = k)%nat as Hdiv.
    { symmetry. apply (Nat.div_unique _ _ _ start); lia. }
    rewrite Hdiv in H1. destruct (Nat.eqb_spec (hdfsRead (k * bs + start)) 0) as [|_]; [lia|].
    rewrite <- Nat.add_assoc, IH; [done|lia..].
  - rewrite (H2 Hout). cbn. f_equal; lia.
Qed.

Lemma fetch_spec pos :
  at_pos file pos (hdfsRead pos) ++ drop (pos + hdfsRead pos) file = drop pos file.
Proof. unfold at_pos. rewrite <- drop_drop. apply take_drop. Qed.

Lemma fetch_nil pos : at_pos file pos (hdfsRead pos) = [] <-> (length file <= pos)%nat.
Proof.
  destruct (Hrd pos) as [H1 H2]. unfold at_pos. split.
  - intros Hn. destruct (Nat.lt_ge_cases pos (length file)) as [Hin|]; [|done].
    specialize (H1 Hin). apply (f_equal length) in Hn. rewrite length_take, length_drop in Hn.
    cbn in Hn. lia.
  - intros Ho. by rewrite (H2 Ho).
Qed.

(** Bytes still to be fetched, and one iteration for those at hand. *)
Definition to_handle (b : HdfsBlockReader) : nat :=
  match buffer_ b with [] => 0 | _ => S (length file - pos_ b) end.

Lemma to_handle_fetched b n :
  buffer_ b = at_pos file n (hdfsRead n) -> pos_ b = n + hdfsRead n ->
  to_handle b <= length file - n /\ (buffer_ b = [] -> length file <= pos_ b).
Proof.
  intros Hb Hp. destruct (Hrd n) as [H1 H2]. pose proof (fetch_nil n) as Hz.
  unfold to_handle. rewrite <- Hb in Hz. destruct (buffer_ b) as [|c l].
  - split; [lia|]. intros _. assert (length file <= n) by (by apply Hz). lia.
  - split; [|done]. destruct (Nat.lt_ge_cases n (length file)) as [Hin|Hout].
    + specialize (H1 Hin). lia.
    + by apply Hz in Hout.
Qed.

Lemma handle_spec fuel b :
  (buffer_ b = [] -> length file <= pos_ b) -> to_handle b < fuel ->
  wp none (handle_next_block file hdfsRead fuel) b (fun _ b' _ =>
    last_part_ b' = last_part_ b ++ first_line (buffer_ b ++ drop (pos_ b) file) /\ buffer_ b' = []).
Proof.
  revert b. induction fuel as [|fuel IH]; intros b Hnil Hf; [lia|]. cbn [handle_next_block].
  unfold to_handle in Hf. wstep. wstep. destruct (buffer_ b) as [|c buf] eqn:Hb.
  - wstep. rewrite drop_ge by auto. cbn. by rewrite app_nil_r.
  - wstep. wstep. rewrite find_next_spec, drop_0, first_line_app.
    destruct (has_newline (c :: buf)) eqn:Hn.
    + wstep. split; [|done]. cbn [last_part_ buffer_ upd eta eta_HdfsBlockReader].
      rewrite Hb, Nat.add_0_l. f_equal. by apply take_first_line.
    + unfold fetch_next at 1. repeat wstep. cbn. set (b1 := {| buffer_ := at_pos _ _ _ |}).
      destruct (to_handle_fetched b1 (pos_ b)) as [Hlt Hz]; [done..|].
      eapply wp_mono; [apply IH; [done|lia]|].
      intros [] b' _ [Hl Hb']. split; [|done]. rewrite Hl. cbn [b1 last_part_ buffer_ pos_].
      rewrite fetch_spec, Hb. by rewrite <- app_assoc.
Qed.

#[local] Arguments handle_fuel : simpl never.

(** The end of a line that goes on after the block. *)
Definition carry_on : M HdfsBlockReader Empty_set (option bytes) :=
  buf <-- fetch_next file hdfsRead ;;
  modify (fun b => b <| buffer_ := buf |>) ;;;
  handle_next_block file hdfsRead (handle_fuel file) ;;;
  b <-- get ;; ret (Some (last_part_ b)).

Lemma carry_on_spec b :
  wp none carry_on b (fun o b' _ =>
    o = Some (last_part_ b ++ first_line (drop (pos_ b) file)) /\ buffer_ b' = []).
Proof.
  unfold carry_on, fetch_next. repeat wstep. cbn. set (b1 := {| buffer_ := at_pos _ _ _ |}).
  destruct (to_handle_fetched b1 (pos_ b)) as [Hlt Hz]; [done..|].
  eapply wp_mono; [apply handle_spec; [done|unfold handle_fuel; lia]|].
  intros [] b' _ [Hl Hb]. repeat wstep. rewrite Hl. cbn [b1 last_part_ buffer_ pos_].
  by rewrite fetch_spec.
Qed.

(** In the middle of the block: [r_] is at a newline, [t] follows it in the block and
    [rest] follows the block. *)
Record mid (blk rest : bytes) (j : nat) (b : HdfsBlockReader) : Prop := {
  m_buffer : buffer_ b = blk; m_rest : drop (pos_ b) file = rest; m_r : r_ b = Some j;
  m_newline : blk !! j = Some newline; m_start : offset_ b = 0 -> blk !! 0 <> Some newline }.

(** What [next] does with the rest [t] of a block. *)
Definition advances (blk rest : bytes) (l : nat) (o : option bytes) (b' : HdfsBlockReader) : Prop :=
  let t := drop l blk in
  if has_newline t then o = Some (first_line t) /\ mid blk rest (l + length (first_line t)) b'
  else o = Some (t ++ first_line rest) /\ buffer_ b' = [].

Lemma mid_next_start blk l :
  has_newline (drop l blk) = true -> blk !! (l + length (first_line (drop l blk))) = Some newline.
Proof.
  intros Hn. rewrite <- lookup_drop. by apply lookup_newline.
Qed.

(** The common part of [next]: the line that starts at [l]. *)
Lemma line_at_spec b blk rest l :
  buffer_ b = blk -> drop (pos_ b) file = rest ->
  (offset_ b = 0 -> blk !! 0 <> Some newline) ->
  wp none (
    modify (fun b0 => b0 <| l_ := l |> <| r_ := find_next (buffer_ b) l newline |>) ;;;
    match find_next (buffer_ b) l newline with
    | None => modify (fun b0 => b0 <| last_part_ := drop l (buffer_ b0) |>) ;;; carry_on
    | Some r => ret (Some (take (r - l) (drop l (buffer_ b))))
    end) b (fun o b' _ => advances blk rest l o b').
Proof.
  intros Hb Hrest H0. wstep. wstep. unfold advances. rewrite find_next_spec, Hb.
  destruct (has_newline (drop l blk)) eqn:Hn.
  - wstep. split.
    + f_equal. replace (l + length (first_line (drop l blk)) - l) with (length (first_line (drop l blk))) by lia.
      by apply take_first_line.
    + split; [done|done|done|by apply mid_next_start|done].
  - wstep. wstep. eapply wp_mono; [apply carry_on_spec|]. cbn. rewrite Hb, Hrest. by intros o b' _ [-> ?].
Qed.

Lemma next_empty b : buffer_ b = [] -> next file hdfsRead b = Ok (None, b, []).
Proof. intros Hb. unfold next, bind, get. by rewrite Hb. Qed.

(** The rest of a block is exhausted, or the line that starts at [l] is next. *)
Definition proceeds (blk rest : bytes) (l : nat) (o : option bytes) (b' : HdfsBlockReader) : Prop :=
  if bool_decide (drop l blk = [] /\ rest = []) then o = None else advances blk rest l o b'.

Lemma next_mid blk rest j b :
  mid blk rest j b ->
  wp none (next file hdfsRead) b (fun o b' _ => proceeds blk rest (S j) o b').
Proof.
  intros [Hb Hrest Hr Hj H0]. pose proof (lookup_lt_Some _ _ _ Hj) as Hlt.
  unfold next. wstep. wstep. destruct (buffer_ b) as [|c0 buf] eqn:Hbuf; [by subst|].
  unfold proceeds, advances. wstep.
  - apply bool_decide_eq_true in Hif. rewrite Hb, Hr in Hif. injection Hif as ->.
    rewrite (drop_ge blk) by lia. unfold fetch_next. repeat (wstep; cbn).
    set (b1 := {| buffer_ := at_pos _ _ _ |}).
    destruct (to_handle_fetched b1 (pos_ b)) as [Hlt' Hz]; [done..|].
    pose proof (fetch_nil (pos_ b)) as Hnil. pose proof (fetch_spec (pos_ b)) as Hf.
    destruct (at_pos file (pos_ b) (hdfsRead (pos_ b))) as [|c1 buf1] eqn:Hat.
    + wstep. rewrite bool_decide_eq_true_2; [done|]. split; [done|]. rewrite <- Hrest.
      apply drop_ge. by apply Hnil.
    + rewrite bool_decide_eq_false_2 by (intros [_ Hn]; rewrite Hrest, Hn in Hf; done).
      wstep. wstep. wstep. set (b2 := b1 <| last_part_ := [] |>).
      eapply wp_mono; [apply (handle_spec _ b2); [done|]|].
      * change (to_handle b2) with (to_handle b1). unfold handle_fuel. lia.
      * intros [] b' _ [Hl Hb']. repeat wstep. split; [|done]. rewrite Hl. cbn [b2 b1].
        change (Some (first_line ((c1 :: buf1) ++ drop (pos_ b + hdfsRead (pos_ b)) file)) =
                Some ([] ++ first_line rest)). by rewrite Hf, Hrest.
  - apply bool_decide_eq_false in Hif. rewrite Hb, Hr in Hif.
    assert (drop (S j) blk <> []) as Hne.
    { intros Hd. apply (f_equal length) in Hd. rewrite length_drop in Hd. cbn in Hd.
      apply Hif. f_equal. lia. }
    rewrite (bool_decide_eq_false_2 (drop (S j) blk = [] /\ rest = [])) by tauto.
    rewrite (bool_decide_eq_false_2 (offset_ b = 0 /\ r_ b = Some 0)) by (rewrite Hr; intros [Ho [= ->]]; by apply H0).
    assert (find_next (c0 :: buf) j newline = Some j) as Hl.
    { rewrite find_next_spec, Hb, (drop_S _ _ _ Hj). unfold has_newline.
      rewrite bool_decide_eq_true_2 by set_solver. cbn. by rewrite Nat.add_0_r. }
    rewrite Hr. cbn [default id]. rewrite Hl.
    pose proof (line_at_spec b blk rest (S j) ltac:(congruence) Hrest H0) as Hline.
    rewrite Hbuf in Hline. exact Hline.
Qed.

(** ** A block *)

Definition continues (t rest : bytes) : list bytes :=
  if has_newline t then owned t rest else [t ++ first_line rest].

Lemma continues_owned t rest : ~ (t = [] /\ rest = []) -> continues t rest = owned t rest.
Proof.
  intros Hne. unfold continues. destruct (has_newline t) eqn:Hn; [done|].
  destruct t as [|c t]; [|by rewrite owned_last]. destruct rest; [tauto|done].
Qed.

(** Once [next] is at a line that starts at [l], the loop reads the rest of the block. *)
Lemma loop_mid fuel acc blk rest j b :
  mid blk rest j b -> length (drop (S j) blk) + 1 < fuel ->
  wp none (ReadBlock_loop file hdfsRead fuel acc) b (fun ls _ _ =>
    ls = acc ++ owned (drop (S j) blk) rest).
Proof.
  revert acc j b. induction fuel as [|fuel IH]; intros acc j b Hm Hf; [lia|]. cbn [ReadBlock_loop].
  wstep. eapply wp_mono; [by apply next_mid|]. intros o b' os. unfold proceeds.
  case_bool_decide as Hend.
  - intros ->. wstep. destruct Hend as [-> ->]. cbn. by rewrite app_nil_r.
  - rewrite <- (continues_owned _ _ Hend). unfold advances, continues.
    destruct (has_newline (drop (S j) blk)) eqn:Hn.
    + intros [-> Hm']. eapply wp_mono; [apply (IH _ (S j + length (first_line (drop (S j) blk)))); [done|]|].
      * pose proof (length_after_line (drop (S j) blk)) as Hl.
        rewrite <- drop_first_line, drop_drop in Hl by done.
        replace (S j + S (length (first_line (drop (S j) blk)))) with (S (S j + length (first_line (drop (S j) blk)))) in Hl by lia.
        assert (drop (S j) blk <> []) as Hne by (intros Hz; by rewrite Hz in Hn). specialize (Hl Hne). lia.
      * intros ls b'' _ ->. rewrite (owned_newline _ _ Hn), <- app_assoc. cbn [app].
        rewrite <- (drop_first_line _ Hn), drop_drop. do 4 f_equal. lia.
    + intros [-> Hb']. destruct fuel as [|fuel]; [lia|]. cbn [ReadBlock_loop]. wstep. unfold wp at 1.
      rewrite (next_empty _ Hb'). by wstep.
Qed.

Lemma loop_start fuel acc blk rest l b :
  wp none (next file hdfsRead) b (fun o b' _ => advances blk rest l o b') ->
  length (drop l blk) + 2 < fuel ->
  wp none (ReadBlock_loop file hdfsRead fuel acc) b (fun ls _ _ =>
    ls = acc ++ continues (drop l blk) rest).
Proof.
  intros Hnext Hf. destruct fuel as [|fuel]; [lia|]. cbn [ReadBlock_loop]. wstep.
  eapply wp_mono; [exact Hnext|]. intros o b' os. unfold advances, continues.
  destruct (has_newline (drop l blk)) eqn:Hn.
  - intros [-> Hm']. eapply wp_mono; [apply (loop_mid _ _ _ _ _ _ Hm')|].
    + rewrite length_drop in *. lia.
    + intros ls b'' _ ->. rewrite (owned_newline _ _ Hn), <- app_assoc. cbn [app].
      rewrite <- (drop_first_line _ Hn), drop_drop. do 4 f_equal. lia.
  - intros [-> Hb']. destruct fuel as [|fuel]; [lia|]. cbn [ReadBlock_loop]. wstep. unfold wp at 1.
    rewrite (next_empty _ Hb'). by wstep.
Qed.

(** The block with index [k], and what follows it. *)
Definition blk (k : nat) : bytes := take bs (drop (k * bs) file).
Definition rest (k : nat) : bytes := drop (S k * bs) file.

Lemma blk_rest k : blk k ++ rest k = drop (k * bs) file.
Proof.
  unfold blk, rest. replace (S k * bs) with (k * bs + bs) by lia. rewrite <- drop_drop. apply take_drop.
Qed.

(** The reader after [Init]. *)
Record started (k : nat) (b : HdfsBlockReader) : Prop := {
  s_buffer : buffer_ b = blk k; s_rest : drop (pos_ b) file = rest k;
  s_r : r_ b = Some 0; s_offset : offset_ b = k * bs }.

Lemma br_Init_spec k :
  k * bs < length file ->
  wp none (br_Init file bs hdfsRead (k * bs)) new_reader (fun _ b _ => started k b).
Proof.
  intros Hk. unfold br_Init, fetch_new_block. wstep. wstep. wstep. wstep. wstep. wstep.
  pose proof (read_block_spec k (S bs) 0 ltac:(lia) ltac:(lia)) as Hrb. rewrite Nat.add_0_r in Hrb.
  change (offset_ (new_reader <| offset_ := k * bs |>)) with (k * bs) in Hm. rewrite Hrb in Hm.
  injection Hm as <- <-. set (len := Nat.min bs (length file - k * bs)). repeat wstep.
  - discriminate Hck.
  - apply Nat.eqb_eq in Hif. lia.
  - split; cbn; try done.
    + unfold at_pos, blk, len. rewrite <- (length_drop file (k * bs)).
      destruct (Nat.le_ge_cases bs (length (drop (k * bs) file))); [by rewrite Nat.min_l|].
      rewrite Nat.min_r by lia. rewrite !take_ge; [done|lia..].
    + unfold rest, len. destruct (Nat.le_ge_cases bs (length file - k * bs)).
      * rewrite Nat.min_l by lia. f_equal. lia.
      * rewrite Nat.min_r by lia. rewrite !drop_ge; [done|lia..].
  - done.
Qed.

Lemma next_first b :
  started 0 b -> 2 <= length (blk 0) -> blk 0 !! 0 <> Some newline ->
  wp none (next file hdfsRead) b (fun o b' _ => advances (blk 0) (rest 0) 0 o b').
Proof.
  intros [Hb Hrest Hr Ho] Hlen H0. unfold next. wstep. wstep.
  pose proof (line_at_spec b (blk 0) (rest 0) 0 Hb Hrest (fun _ => H0)) as Hline.
  destruct (buffer_ b) as [|c0 buf] eqn:Hbuf; [rewrite <- Hb in Hlen; cbn in Hlen; lia|].
  rewrite bool_decide_eq_false_2 by (rewrite Hr, Hb; intros [= Hx]; lia).
  rewrite bool_decide_eq_true_2 by (rewrite Ho, Hr; done).
  destruct (decide (c0 = newline)) as [->|Hc]; [by rewrite <- Hb in H0|]. exact Hline.
Qed.

Lemma next_later k b :
  started (S k) b -> 2 <= length (blk (S k)) -> has_newline (blk (S k)) = true ->
  wp none (next file hdfsRead) b (fun o b' _ =>
    advances (blk (S k)) (rest (S k)) (S (length (first_line (blk (S k))))) o b').
Proof.
  intros [Hb Hrest Hr Ho] Hlen Hn. unfold next. wstep. wstep.
  pose proof (line_at_spec b (blk (S k)) (rest (S k)) (S (length (first_line (blk (S k))))) Hb Hrest
    ltac:(lia)) as Hline.
  destruct (buffer_ b) as [|c0 buf] eqn:Hbuf; [rewrite <- Hb in Hlen; cbn in Hlen; lia|].
  rewrite bool_decide_eq_false_2 by (rewrite Hr, Hb; intros [= Hx]; lia).
  rewrite bool_decide_eq_false_2 by (rewrite Ho, Hr; lia).
  rewrite Hr. cbn [default id]. rewrite (find_next_spec (c0 :: buf) 0), drop_0, Hb, Hn, Nat.add_0_l.
  rewrite Hb in Hline. exact Hline.
Qed.

Lemma next_single k b :
  started k b -> length (blk k) = 1 -> rest k = [] ->
  wp none (next file hdfsRead) b (fun o _ _ => o = None).
Proof.
  intros [Hb Hrest Hr Ho] Hlen Hnil. unfold next. wstep. wstep.
  destruct (buffer_ b) as [|c0 buf] eqn:Hbuf; [by wstep|].
  rewrite bool_decide_eq_true_2 by (by rewrite Hr, Hb, Hlen).
  unfold fetch_next. wstep. wstep. wstep. wstep. wstep. wstep. wstep.
  assert (at_pos file (pos_ b) (hdfsRead (pos_ b)) = []) as Hz.
  { apply fetch_nil. rewrite Hnil in Hrest. apply (f_equal length) in Hrest.
    rewrite length_drop in Hrest. cbn in Hrest. lia. }
  rewrite Hz. by wstep.
Qed.

(** A later block of which the reader finds the right lines: it has a newline, and not one
    single newline at the end of the file - unless it is one byte long. *)
Definition regular (k : nat) : Prop :=
  (2 <= length (blk k) /\ has_newline (blk k) = true /\ ~ (after_line (blk k) = [] /\ rest k = [])) \/
  (length (blk k) = 1 /\ rest k = []).

Lemma block_lines_first :
  2 <= length file -> file !! 0 <> Some newline ->
  block_lines file bs hdfsRead 0 = Ok (owned (blk 0) (rest 0)).
Proof.
  intros Hlen H0.
  assert (length (blk 0) = Nat.min bs (length file)) as Hbl by (unfold blk; by rewrite length_take, drop_0).
  assert (blk 0 !! 0 <> Some newline) as H0'.
  { unfold blk. rewrite drop_0, lookup_take_lt by lia. done. }
  unfold block_lines. pose proof (br_Init_spec 0 ltac:(lia)) as Hi. cbn [Nat.mul] in Hi.
  assert (wp none (br_Init file bs hdfsRead 0 ;;; ReadBlock file bs hdfsRead) new_reader
    (fun ls _ _ => ls = owned (blk 0) (rest 0))) as Hw.
  { wstep. eapply wp_mono; [exact Hi|]. intros [] b _ Hb.
    eapply wp_mono; [eapply loop_start; [apply next_first; [done|lia|done]|rewrite drop_0; lia]|].
    intros ls _ _ ->. rewrite drop_0. apply continues_owned. intros [Hz _]. rewrite Hz in Hbl. cbn in Hbl. lia. }
  unfold wp in Hw. by destruct ((br_Init file bs hdfsRead 0 ;;; ReadBlock file bs hdfsRead) new_reader)
    as [[[ls b] os]|e]; [rewrite Hw|].
Qed.

Lemma block_lines_later k :
  S k * bs < length file -> regular (S k) ->
  block_lines file bs hdfsRead (S k * bs) = Ok (owned (after_line (blk (S k))) (rest (S k))).
Proof.
  intros Hk Hreg. unfold block_lines. pose proof (br_Init_spec (S k) Hk) as Hi.
  assert (length (blk (S k)) <= bs) as Hbl by (unfold blk; rewrite length_take; lia).
  assert (wp none (br_Init file bs hdfsRead (S k * bs) ;;; ReadBlock file bs hdfsRead) new_reader
    (fun ls _ _ => ls = owned (after_line (blk (S k))) (rest (S k)))) as Hw.
  { wstep. eapply wp_mono; [exact Hi|]. intros [] b _ Hb. destruct Hreg as [(Hl & Hn & Hne)|[Hl Hnil]].
    - eapply wp_mono; [eapply loop_start; [by apply next_later|rewrite length_drop; lia]|].
      intros ls _ _ ->. rewrite drop_first_line by done. by apply continues_owned.
    - unfold ReadBlock. cbn [Nat.add ReadBlock_loop]. wstep.
      eapply wp_mono; [by eapply next_single|]. intros o b' os ->. wstep.
      destruct (blk (S k)) as [|c [|]]; try (cbn in Hl; lia). rewrite Hnil. cbn. by case_decide. }
  unfold wp in Hw. by destruct ((br_Init file bs hdfsRead (S k * bs) ;;; ReadBlock file bs hdfsRead) new_reader)
    as [[[ls b] os]|e]; [rewrite Hw|].
Qed.
End correctness.

(** ** A file *)

(** The readers of the blocks with the given indices, one after the other. *)
Fixpoint read_blocks (file : bytes) (bs : nat) (hdfsRead : nat -> nat) (ks : list nat) : res (list bytes) :=
  match ks with
  | [] => Ok []
  | k :: ks' =>
      match block_lines file bs hdfsRead (k * bs) with
      | Err e => Err e
      | Ok ls =>
          match read_blocks file bs hdfsRead ks' with
          | Err e => Err e
          | Ok ls' => Ok (ls ++ ls')
          end
      end
  end.

Definition num_blocks (file : bytes) (bs : nat) : nat := ((length file + bs - 1) / bs)%nat.

Lemma num_blocks_spec file bs k :
  (0 < bs)%nat -> (k < num_blocks file bs <-> k * bs < length file)%nat.
Proof.
  intros Hbs. unfold num_blocks. set (x := (length file + bs - 1)%nat).
  pose proof (Nat.div_mod_eq x bs) as Hd. pose proof (Nat.mod_upper_bound x bs ltac:(lia)) as Hm.
  split; intros Hk; nia.
Qed.

Lemma later_blocks file bs hdfsRead n k :
  hdfsRead_in_block file bs hdfsRead -> (2 <= bs)%nat -> (S k + n = num_blocks file bs)%nat ->
  (forall j, (1 <= j < num_blocks file bs)%nat -> regular file bs j) ->
  read_blocks file bs hdfsRead (seq (S k) n) = Ok (lines (after_line (drop (S k * bs) file))).
Proof.
  intros Hrd Hbs. revert k. induction n as [|n IH]; intros k Hn Hreg; cbn [seq read_blocks].
  - rewrite drop_ge; [done|]. destruct (Nat.lt_ge_cases (S k * bs) (length file)) as [Hlt|]; [|done].
    apply (num_blocks_spec file bs (S k)) in Hlt; lia.
  - rewrite (block_lines_later file bs hdfsRead Hrd Hbs k); [|apply num_blocks_spec; lia|apply Hreg; lia].
    rewrite (IH (S k)) by (auto; lia). rewrite <- (blk_rest file bs Hbs (S k)), after_line_app.
    change (drop (S (S k) * bs) file) with (rest file bs (S k)).
    destruct (has_newline (blk file bs (S k))) eqn:Hn'; [by rewrite lines_blocks|].
    destruct (Hreg (S k) ltac:(lia)) as [(_ & Hc & _)|[Hl Hr]]; [congruence|].
    rewrite Hr. destruct (first_line_none _ Hn') as [_ ->]. done.
Qed.

(** Reading a text file block by block gives its lines, each once and in order.  The
    hypotheses on the file are those under which the code is right: it has at least two
    bytes and does not start with a newline, and every later block has a newline that is
    not the last byte of the file (or is a single byte at the end of the file).  [hdfsRead]
    may return as few bytes at a time as it likes, lines may span any number of reads, and
    a line at the end of the file need not end with a newline. *)
Theorem blocks_give_lines file bs hdfsRead :
  hdfsRead_in_block file bs hdfsRead -> (2 <= bs)%nat -> (2 <= length file)%nat ->
  file !! 0%nat <> Some newline ->
  (forall k, (1 <= k < num_blocks file bs)%nat -> regular file bs k) ->
  read_blocks file bs hdfsRead (seq 0 (num_blocks file bs)) = Ok (lines file).
Proof.
  intros Hrd Hbs Hlen H0 Hreg.
  destruct (num_blocks file bs) as [|n] eqn:Hn.
  { assert (0 < num_blocks file bs)%nat by (apply num_blocks_spec; lia). lia. }
  cbn [seq read_blocks Nat.mul]. rewrite (block_lines_first file bs hdfsRead Hrd Hbs Hlen H0).
  rewrite (later_blocks file bs hdfsRead n 0 Hrd Hbs ltac:(lia)) by (by rewrite Hn).
  f_equal. change (drop (1 * bs) file) with (rest file bs 0). rewrite <- lines_blocks.
  by rewrite (blk_rest file bs Hbs 0).
Qed.

(** ** Examples *)

Definition text (s : string) : bytes :=
  (fun b => if decide (b = Byte.x2f) then newline else b) <$> String.list_byte_of_string s.
(** At most [c] bytes at a time. *)
Definition read_up_to (c bs len pos : nat) : nat := Nat.min c (Nat.min ((pos / bs + 1) * bs) len - pos).
Definition read_text (s : string) (bs : nat) : res (list bytes) :=
  read_blocks (text s) bs (read_up_to 3 bs (length (text s))) (seq 0 (num_blocks (text s) bs)).

Lemma read_up_to_ok (file : bytes) c bs :
  (1 <= c)%nat -> (1 <= bs)%nat -> hdfsRead_in_block file bs (read_up_to c bs (length file)).
Proof.
  intros Hc Hbs pos. unfold read_up_to.
  pose proof (Nat.div_mod_eq pos bs) as Hd. pose proof (Nat.mod_upper_bound pos bs ltac:(lia)) as Hm.
  assert (pos < (pos / bs + 1) * bs)%nat as Hlt by nia. lia.
Qed.

Lemma blocks_give_lines_witness :
  read_text "ab/cde/fgh/i/jk" 4 = Ok [text "ab"; text "cde"; text "fgh"; text "i"; text "jk"].
Proof.
  unfold read_text. rewrite (blocks_give_lines (text "ab/cde/fgh/i/jk") 4).
  - reflexivity.
  - apply read_up_to_ok; lia.
  - lia.
  - cbn. lia.
  - done.
  - intros k Hk. assert (k = 1 \/ k = 2 \/ k = 3)%nat as [->|[->| ->]].
    { assert (num_blocks (text "ab/cde/fgh/i/jk") 4 = 4%nat) by reflexivity. lia. }
    all: left; vm_compute; split_and!; [lia|done|by intros [? ?]].
Defined.

(** Files for which the block readers do not give the lines ([/] stands for a newline).
    A last block whose only newline ends the file yields an additional empty line; a block
    without a newline is read a second time, from its beginning, although its bytes belong
    to a line of an earlier block; and an empty first line is lost. *)
Theorem block_reader_faults :
  (read_text "abcdef/" 4 = Ok [text "abcdef"; []] /\ lines (text "abcdef/") = [text "abcdef"]) /\
  (read_text "ab/cdefghijk/lm" 4 = Ok [text "ab"; text "cdefghijk"; text "defghijk"; text "hijk"; text "lm"] /\
   lines (text "ab/cdefghijk/lm") = [text "ab"; text "cdefghijk"; text "lm"]) /\
  (read_text "/ab/cd" 8 = Ok [text "ab"; text "cd"] /\ lines (text "/ab/cd") = [[]; text "ab"; text "cd"]).
Proof. by vm_compute. Qed.
