(* ===== verification/PlanFunctions.v ===== *)
(** * The functions that plans register (core/plan/function_store.hpp, function_store.cpp,
    distribute.hpp, load.hpp, write.hpp, collection.hpp)

    A plan registers with the function store of every node the functions its execution
    needs: how to make the partitions of distributed data, of the lines of a block and of
    a whole file, how to write a partition out, and how to answer a fetch for objects.  The
    worker and the plan controllers look them up by the id of the collection or plan. *)

From S2P Require Import Prelude BinStream Index MapOutput Partitions BlockReader.

(** ** The function store

    Eleven maps with the same two operations: [Add...] is [std::map::insert], which keeps
    an entry that is there, and [Get...] checks that there is one. *)

Definition AddFunc {F} (id : Z) (func : F) (m : gmap Z F) : gmap Z F := insert_new m (id, func).
Definition GetFunc {S O F} (id : Z) (m : gmap Z F) : M S O F :=
  check (bool_decide (is_Some (m !! id))) "find(id) != end" ;;;
  deref (m !! id) "func".

Lemma GetFunc_AddFunc {S O F} id (f : F) m (s : S) :
  GetFunc (O := O) id (AddFunc id f m) s = Ok (default f (m !! id), s, []).
Proof.
  unfold GetFunc, AddFunc, insert_new. cbn. destruct (m !! id) as [g|] eqn:E.
  - rewrite E. done.
  - rewrite lookup_insert_eq. done.
Qed.

(** ** Grouping a list *)

(** The groups of a list by a function whose values are among the [ps]. *)
Lemma groups_Permutation {A} (g : A -> Z) (ps : list Z) (l : list A) :
  NoDup ps -> (forall x, x ∈ l -> g x ∈ ps) ->
  concat ((fun p => filter (fun x => g x = p) l) <$> ps) ≡ₚ l.
Proof.
  revert l. induction ps as [|p ps IH]; intros l Hnd Hl.
  - destruct l as [|x l]; [done|]. specialize (Hl x ltac:(left)). by apply elem_of_nil in Hl.
  - apply NoDup_cons in Hnd as [Hp Hnd]. cbn.
    transitivity (filter (fun x => g x = p) l ++ filter (fun x => ~ g x = p) l);
      [|apply filter_app_complement]. f_equiv.
    rewrite <- (IH (filter (fun x => ~ g x = p) l) Hnd).
    + apply reflexive_eq. f_equal. apply list_fmap_ext. intros i q Hq%list_elem_of_lookup_2.
      rewrite list_filter_filter. apply filter_ext_in. intros x _. split; [|by intros [? _]].
      intros <-. split; [done|]. intros He. by rewrite He in Hq.
    + intros x [Hx Hin]%list_elem_of_filter. specialize (Hl x Hin). set_solver.
Qed.

(** ** Distribute: every part takes its turn *)

Section distribute.
Context {C P : Type} `{!Serial C}.
(** The partition type of the collection: its constructor and [Add]. *)
Context (new_part : P) (Add : C -> P -> P).

(** The loop over the elements; [i] counts from 0. *)
Definition deal_step (part_id num_part : Z) (st : P * Z) (elem : C) : P * Z :=
  (if Z.rem st.2 num_part =? part_id then Add elem st.1 else st.1, st.2 + 1).
Definition create_part_from_bin (bin : BinStream) (part_id num_part : Z) : res P :=
  match (dec : Reader (list C)) bin with
  | Ok (vec, _, _) => Ok (foldl (deal_step part_id num_part) (new_part, 0) vec).1
  | Err e => Err e
  end.

(** The elements whose index is [part_id] modulo [num_part], in their order. *)
Definition dealt (part_id num_part : Z) (vec : list C) : list C :=
  (filter (fun ix : Z * C => Z.rem ix.1 num_part = part_id)
     (zip (seqZ 0 (Z.of_nat (length vec))) vec)).*2.

Lemma dealt_snoc part_id num_part vec x :
  dealt part_id num_part (vec ++ [x]) =
  dealt part_id num_part vec ++
    (if Z.rem (Z.of_nat (length vec)) num_part =? part_id then [x] else []).
Proof.
  unfold dealt. rewrite length_app, Nat.add_1_r, seqZ_snoc, zip_with_app by apply length_zip_seqZ.
  rewrite filter_app, fmap_app. f_equal. cbn [zip_with]. rewrite filter_cons, filter_nil. cbn [fst].
  destruct (Z.eqb_spec (Z.rem (Z.of_nat (length vec)) num_part) part_id);
    [by rewrite decide_True|by rewrite decide_False].
Qed.

Lemma deal_spec part_id num_part vec :
  foldl (deal_step part_id num_part) (new_part, 0) vec =
  (foldl (fun p x => Add x p) new_part (dealt part_id num_part vec), Z.of_nat (length vec)).
Proof.
  induction vec as [|x vec IH] using rev_ind; [done|].
  rewrite foldl_snoc, IH, dealt_snoc. unfold deal_step. cbn. rewrite length_app. cbn.
  f_equal; [|lia]. rewrite foldl_app. by destruct (_ =? _).
Qed.

Lemma foldl_snoc_id (l : list C) : foldl (fun p x => seq_TypedAdd x p) [] l = l.
Proof.
  induction l as [|x l IH] using rev_ind; [done|]. by rewrite foldl_snoc, IH.
Qed.
End distribute.

(** Distributing a collection loses nothing and duplicates nothing.  From the data that
    the program sends with the plan, every one of the [num_part] parts is created without
    failure; part [p] holds, in order, the elements whose index is [p] modulo [num_part],
    and the parts together hold exactly the elements of the data. *)
Theorem distribute_deals_data {C} `{!Serial C} (data : list C) (num_part : Z) :
  0 < num_part -> storable data ->
  (forall p, create_part_from_bin [] seq_TypedAdd (empty_stream << data) p num_part =
     Ok (dealt p num_part data)) /\
  concat ((fun p => dealt p num_part data) <$> seqZ 0 num_part) ≡ₚ data.
Proof.
  intros Hn Hs. split.
  - intros p. unfold create_part_from_bin.
    change (empty_stream << data) with (FromSArray (ToSArray (empty_stream << data))).
    rewrite round_trip by done. by rewrite deal_spec, foldl_snoc_id.
  - unfold dealt. set (l := zip (seqZ 0 (Z.of_nat (length data))) data).
    assert (l.*2 = data) as Hl by (apply snd_zip; rewrite length_zip_seqZ; lia).
    rewrite <- Hl. erewrite <- (fmap_Permutation snd _ l); [|apply (groups_Permutation
      (fun ix : Z * C => Z.rem ix.1 num_part) (seqZ 0 num_part))].
    + rewrite list_fmap_concat, <- list_fmap_compose. done.
    + apply NoDup_seqZ.
    + intros [i x] Hin. apply elem_of_zip_l in Hin. apply elem_of_seqZ in Hin. apply elem_of_seqZ.
      cbn. rewrite Z.rem_mod_nonneg by lia. pose proof (Z.mod_pos_bound i num_part Hn). lia.
Qed.

Lemma distribute_deals_data_witness :
  create_part_from_bin [] seq_TypedAdd (empty_stream << [5; 6; 7; 8; 9]) 1 2 = Ok [6; 8] /\
  concat ((fun p => dealt p 2 [5; 6; 7; 8; 9]) <$> seqZ 0 2) ≡ₚ [5; 6; 7; 8; 9].
Proof.
  destruct (distribute_deals_data [5; 6; 7; 8; 9] 2) as [H1 H2]; [lia| |].
  - split; [by vm_compute|]. repeat constructor; by vm_compute.
  - split; [rewrite H1; reflexivity|exact H2].
Defined.

(** ** Load: parsing the lines of a block, the documents of a file *)

Section load.
Context {T : Type} (parse_line : bytes -> T) (max_line_per_part : Z).

Section block.
Context (file : bytes) (hdfs_block_size : nat) (hdfsRead : nat -> nat).
Abbreviation BM := (M HdfsBlockReader Empty_set).

(** [while (reader->HasLine()) ...]: the fuel is that of [ReadBlock]. *)
Fixpoint parse_lines (fuel : nat) (count : Z) (part : list T) : BM (list T) :=
  match fuel with
  | O => ret part
  | S fuel' =>
      more <-- HasLine file hdfsRead ;;
      if more : bool then
        s <-- GetLine ;;
        let part' := seq_TypedAdd (parse_line s) part in
        if count + 1 =? max_line_per_part then ret part'
        else parse_lines fuel' (count + 1) part'
      else ret part
  end.
Definition create_part_from_block (offset : nat) : res (list T) :=
  match (br_Init file hdfs_block_size hdfsRead offset ;;;
         parse_lines (3 + hdfs_block_size) 0 []) new_reader with
  | Ok (part, _, _) => Ok part
  | Err e => Err e
  end.

(** [HasLine] and [GetLine] give what [next] gives: the members they use are not read by
    [next]. *)
Definition with_tmp (x : bytes) (c : Z) (b : HdfsBlockReader) : HdfsBlockReader :=
  b <| tmp_line_ := x |> <| tmp_line_count_ := c |>.
Definition ignores_tmp {A} (m : BM A) : Prop := forall x c b,
  m (with_tmp x c b) =
  match m b with Ok (a, b', os) => Ok (a, with_tmp x c b', os) | Err e => Err e end.

Lemma ignores_bind {A B} (m : BM A) (k : A -> BM B) :
  ignores_tmp m -> (forall a, ignores_tmp (k a)) -> ignores_tmp (bind m k).
Proof.
  intros Hm Hk x c b. unfold bind. rewrite Hm. destruct (m b) as [[[a b1] o1]|e]; [|done].
  rewrite Hk. by destruct (k a b1) as [[[a2 b2] o2]|e].
Qed.
Lemma ignores_get {A} (k : HdfsBlockReader -> BM A) :
  (forall x c b, k (with_tmp x c b) = k b) -> (forall b, ignores_tmp (k b)) -> ignores_tmp (bind get k).
Proof.
  intros He Hk x c b. unfold bind, get. rewrite He, Hk. by destruct (k b b) as [[[a b1] o1]|e].
Qed.
Lemma ignores_ret {A} (a : A) : ignores_tmp (ret a).
Proof. done. Qed.
Lemma ignores_modify f : (forall x c b, f (with_tmp x c b) = with_tmp x c (f b)) -> ignores_tmp (modify f).
Proof. intros He x c b. unfold modify. by rewrite He. Qed.

Lemma ignores_fetch_next : ignores_tmp (fetch_next file hdfsRead).
Proof.
  unfold fetch_next. apply ignores_get; [done|]. intros b.
  apply ignores_bind; [by apply ignores_modify|]. intros _. apply ignores_ret.
Qed.

Lemma ignores_handle fuel : ignores_tmp (handle_next_block file hdfsRead fuel).
Proof.
  induction fuel as [|fuel IH]; cbn [handle_next_block]; [apply ignores_ret|].
  apply ignores_get; [done|]. intros b. destruct (buffer_ b); [apply ignores_ret|].
  apply ignores_bind; [by apply ignores_modify|]. intros _.
  destruct (find_next _ _ _); [by apply ignores_modify|].
  apply ignores_bind; [by apply ignores_modify|]. intros _.
  apply ignores_bind; [apply ignores_fetch_next|]. intros buf.
  apply ignores_bind; [by apply ignores_modify|]. by intros _.
Qed.

Lemma ignores_last_part : ignores_tmp (b <-- get ;; ret (Some (last_part_ b))).
Proof. apply ignores_get; [done|]. intros b. apply ignores_ret. Qed.

Lemma ignores_next : ignores_tmp (next file hdfsRead).
Proof.
  unfold next. apply ignores_get; [done|]. intros b. destruct (buffer_ b) as [|c0 buf]; [apply ignores_ret|].
  destruct (bool_decide _).
  - apply ignores_bind; [apply ignores_fetch_next|]. intros [|c1 buf'].
    + apply ignores_bind; [by apply ignores_modify|]. intros _. apply ignores_ret.
    + apply ignores_bind; [by apply ignores_modify|]. intros _.
      apply ignores_bind; [by apply ignores_modify|]. intros _.
      apply ignores_bind; [apply ignores_handle|]. intros _. apply ignores_last_part.
  - apply ignores_bind; [by apply ignores_modify|]. intros _. cbn zeta.
    destruct (find_next _ _ _); [apply ignores_ret|].
    apply ignores_bind; [by apply ignores_modify|]. intros _.
    apply ignores_bind; [apply ignores_fetch_next|]. intros buf'.
    apply ignores_bind; [by apply ignores_modify|]. intros _.
    apply ignores_bind; [apply ignores_handle|]. intros _. apply ignores_last_part.
Qed.

(** A positive [max_line_per_part] cuts off the rest of the lines. *)
Definition limit {A} (ls : list A) : list A :=
  if 0 <? max_line_per_part then take (Z.to_nat max_line_per_part) ls else ls.

Lemma ReadBlock_loop_prefix fuel acc b ls b' os :
  ReadBlock_loop file hdfsRead fuel acc b = Ok (ls, b', os) -> acc `prefix_of` ls.
Proof.
  revert acc b ls b' os. induction fuel as [|fuel IH]; intros acc b ls b' os; cbn.
  { by intros [= <- _ _]. }
  unfold bind. destruct (next file hdfsRead b) as [[[[s|] b1] o1]|e]; [| |done].
  - destruct (ReadBlock_loop _ _ _ _ _) as [[[ls2 b2] o2]|e] eqn:E; [|done]. intros [= <- _ _].
    apply IH in E. etransitivity; [|exact E]. by eexists.
  - by intros [= <- _ _].
Qed.

Lemma parse_lines_spec fuel : forall acc x c b ls b' os,
  ReadBlock_loop file hdfsRead fuel acc b = Ok (ls, b', os) ->
  (0 < max_line_per_part -> Z.of_nat (length acc) < max_line_per_part) ->
  exists b2 os2, parse_lines fuel (Z.of_nat (length acc)) (parse_line <$> acc) (with_tmp x c b) =
    Ok (parse_line <$> limit ls, b2, os2).
Proof.
  assert (forall acc : list bytes,
    (0 < max_line_per_part -> Z.of_nat (length acc) < max_line_per_part) -> limit acc = acc) as Hlim.
  { intros acc Ha. unfold limit. destruct (Z.ltb_spec 0 max_line_per_part); [|done].
    apply take_ge. lia. }
  induction fuel as [|fuel IH]; intros acc x c b ls b' os; cbn [ReadBlock_loop parse_lines].
  { intros [= <- _ _] Hlt. rewrite Hlim by done. unfold ret. eauto. }
  unfold HasLine. unfold bind at 1 2 3. rewrite ignores_next.
  destruct (next file hdfsRead b) as [[[[s|] b1] o1]|e] eqn:En; [| |done].
  - destruct (ReadBlock_loop file hdfsRead fuel (acc ++ [s]) b1) as [[[ls2 b2] o2]|e] eqn:E; [|done].
    intros [= <- _ _] Hlt. unfold GetLine, bind, get, modify, ret. cbn.
    change (seq_TypedAdd (parse_line s) (parse_line <$> acc)) with ((parse_line <$> acc) ++ [parse_line s]).
    change ((parse_line <$> acc) ++ [parse_line s]) with ((parse_line <$> acc) ++ (parse_line <$> [s])).
    rewrite <- fmap_app.
    destruct (Z.eqb_spec (Z.of_nat (length acc) + 1) max_line_per_part) as [He|Hne].
    + destruct (ReadBlock_loop_prefix _ _ _ _ _ _ E) as [more ->]. unfold limit.
      rewrite (proj2 (Z.ltb_lt _ _)) by lia. rewrite take_app_le, take_ge by (rewrite length_app; cbn; lia).
      eauto.
    + destruct (IH (acc ++ [s]) s (Z.succ c) b1 ls2 b2 o2 E) as (b3 & o3 & E3).
      { rewrite length_app. cbn. lia. }
      rewrite length_app in E3. cbn in E3. rewrite Nat2Z.inj_add in E3. change (Z.of_nat 1) with 1 in E3.
      unfold with_tmp in E3 |- *. cbn in E3 |- *. rewrite E3. eauto.
  - unfold ret. intros [= <- _ _] Hlt. rewrite Hlim by done. cbn. eauto.
Qed.

Lemma create_part_lines offset ls :
  block_lines file hdfs_block_size hdfsRead offset = Ok ls ->
  create_part_from_block offset = Ok (parse_line <$> limit ls).
Proof.
  unfold block_lines, create_part_from_block, ReadBlock, bind.
  destruct (br_Init _ _ _ _ _) as [[[[] b1] o1]|e]; [|done].
  destruct (ReadBlock_loop _ _ _ _ _) as [[[ls' b2] o2]|e] eqn:E; [|done]. intros [= <-].
  destruct (parse_lines_spec _ [] (tmp_line_ b1) (tmp_line_count_ b1) b1 ls' b2 o2 E) as (b3 & o3 & E3);
    [done|].
  assert (with_tmp (tmp_line_ b1) (tmp_line_count_ b1) b1 = b1) as Hb by (by destruct b1).
  rewrite Hb in E3. change (parse_lines _ 0 [] b1) with
    (parse_lines (3 + hdfs_block_size) (Z.of_nat (length (@nil bytes))) (parse_line <$> []) b1).
  by rewrite E3.
Qed.
End block.

(** The documents of a whole file, each ended by a line [</doc>]; what follows the last
    newline is dropped.  Every round consumes a newline. *)
Definition doc_end : bytes := String.list_byte_of_string "</doc>".
Fixpoint parse_docs (fuel : nat) (str : bytes) (prev : nat) (doc : bytes) (part : list T) : list T :=
  match fuel with
  | O => part
  | S fuel' =>
      match find_next str prev newline with
      | None => part
      | Some pos =>
          let line := take (pos - prev) (drop prev str) in
          if decide (line = doc_end) then
            parse_docs fuel' str (S pos) [] (seq_TypedAdd (parse_line doc) part)
          else parse_docs fuel' str (S pos) (doc ++ Byte.x20 :: line) part
      end
  end.
Definition create_part_from_string (str : bytes) : list T := parse_docs (S (length str)) str 0 [] [].
End load.

Lemma read_blocks_inv file bs hdfsRead ks ls :
  read_blocks file bs hdfsRead ks = Ok ls ->
  exists lss, Forall2 (fun k l => block_lines file bs hdfsRead (k * bs) = Ok l) ks lss /\ concat lss = ls.
Proof.
  revert ls. induction ks as [|k ks IH]; intros ls; cbn; [intros [= <-]; by exists []|].
  destruct (block_lines _ _ _ _) as [l|e] eqn:El; [|done].
  destruct (read_blocks file bs hdfsRead ks) as [ls'|e] eqn:Es; [|done]. intros [= <-].
  destruct (IH ls' eq_refl) as (lss & Hf & <-). exists (l :: lss). by split; [constructor|].
Qed.

(** C31: Loading a text file, block by block, perhaps on different nodes, gives the objects
    of its lines: the partition made of a block holds the objects parsed from the lines of
    that block in their order, up to the limit of lines per partition if there is one, and
    the lines of the blocks are together the lines of the file, each once and in order.
    The file system may return as few bytes at a time as it likes, and lines may span any
    number of reads and blocks.  The hypotheses on the file are those under which the block
    readers are right (see [block_reader_faults]). *)
Theorem load_gives_objects {T} (parse_line : bytes -> T) max_line_per_part file bs hdfsRead :
  hdfsRead_in_block file bs hdfsRead -> (2 <= bs)%nat -> (2 <= length file)%nat ->
  file !! 0%nat <> Some newline ->
  (forall k, (1 <= k < num_blocks file bs)%nat -> regular file bs k) ->
  exists block_lines : list (list bytes),
    concat block_lines = lines file /\
    Forall2 (fun k ls => create_part_from_block parse_line max_line_per_part file bs hdfsRead (k * bs) =
               Ok (parse_line <$> limit max_line_per_part ls))
      (seq 0 (num_blocks file bs)) block_lines.
Proof.
  intros Hrd Hbs Hlen H0 Hreg.
  destruct (read_blocks_inv _ _ _ _ _ (blocks_give_lines file bs hdfsRead Hrd Hbs Hlen H0 Hreg))
    as (lss & Hf & Hc). exists lss. split; [done|].
  eapply Forall2_impl; [exact Hf|]. intros k l Hl. by apply create_part_lines.
Qed.

Lemma load_gives_objects_witness : exists block_lines : list (list bytes),
  concat block_lines = text <$> ["ab"; "cde"; "fgh"; "i"; "jk"] /\
  Forall2 (fun k ls => create_part_from_block (@length _) (-1) (text "ab/cde/fgh/i/jk") 4
      (read_up_to 3 4 15) (k * 4) = Ok (length <$> ls)) (seq 0 4) block_lines.
Proof.
  destruct (load_gives_objects (@length _) (-1) (text "ab/cde/fgh/i/jk") 4 (read_up_to 3 4 15))
    as (lss & Hc & Hf).
  - apply (read_up_to_ok (text "ab/cde/fgh/i/jk")); lia.
  - lia.
  - cbn. lia.
  - done.
  - intros k Hk. assert (k = 1 \/ k = 2 \/ k = 3)%nat as [->|[->| ->]].
    { assert (num_blocks (text "ab/cde/fgh/i/jk") 4 = 4%nat) by reflexivity. lia. }
    all: left; vm_compute; split_and!; [lia|done|by intros [? ?]].
  - exists lss. split; [rewrite Hc; reflexivity|exact Hf].
Defined.

Lemma documents_example :
  create_part_from_string (fun d => d) (text "a</doc>") = [] /\
  create_part_from_string (fun d : bytes => length d) (String.list_byte_of_string "ab
cd
</doc>
x
</doc>
rest") = [6%nat; 2%nat].
Proof. by vm_compute. Qed.

(** ** Write: the objects of a partition, one after the other, become the file *)
Definition write_part {T} (write_obj : T -> bytes) (part : list T) (url : string)
    (fs : gmap string bytes) : gmap string bytes :=
  <[url := concat (write_obj <$> part)]> fs.
