(* ===== verification/TypedCache.v ===== *)
(** * The typed cache (core/cache/typed_cache.hpp) and the getter (core/plan/collection.hpp)

    In a map function, [TypedCache::Get] fetches the objects of a list of keys: it groups
    the keys by partition ([tc_Partition]), has the fetcher send each group to the node of
    its partition, where the collection's getter answers with the objects
    ([GetGetterFunc]), and puts the replies, which come in any order, into the order of the
    keys by sorting ([Organzie]).  [GetPartition] and [ReleasePart] build the requests for
    whole partitions. *)

From S2P Require Import Prelude BinStream Index Messages MapOutput Partitions PlanFunctions.

(** ** Reading a stream to its end *)

Section streams.
Context {A : Type} `{!Serial A}.

(** [while (bin.Size()) { bin >> x; ... }]: the number of unread bytes bounds the turns when
    no encoding is empty. *)
Fixpoint read_all (fuel : nat) : Reader (list A) :=
  bin <-- get ;;
  if (Size bin =? 0)%nat then ret [] else
  match fuel with
  | O => throw (Undefined "out of fuel")
  | S fuel' => x <-- dec ;; xs <-- read_all fuel' ;; ret (x :: xs)
  end.

(** [bin << x] for each element. *)
Definition write_all (l : list A) : BinStream := foldl shl empty_stream l.

Lemma write_all_bytes l : write_all l = {| buffer := enc_all l; front := 0 |}.
Proof.
  unfold write_all. induction l as [|x l IH] using rev_ind; [done|].
  rewrite foldl_snoc, IH. unfold enc_all, shl, AddBin. rewrite fmap_app, concat_app. cbn.
  by rewrite app_nil_r.
Qed.

Definition readable (x : A) : Prop := storable x /\ enc x <> [].

Lemma length_enc_all l : Forall readable l -> (length l <= length (enc_all l))%nat.
Proof.
  induction 1 as [|x l [_ Hx] _ IH]; [done|]. change (enc_all (x :: l)) with (enc x ++ enc_all l).
  rewrite length_app. destruct (enc x); [done|]. cbn. lia.
Qed.

Lemma read_all_spec l pre fuel :
  Forall readable l -> (length l <= fuel)%nat ->
  read_all fuel {| buffer := pre ++ enc_all l; front := length pre |} =
  Ok (l, {| buffer := pre ++ enc_all l; front := length pre + length (enc_all l) |}, []).
Proof.
  intros Hl. revert pre fuel. induction Hl as [|x l [Hx Hne] Hl IH]; intros pre fuel Hf.
  - destruct fuel; cbn; unfold bind, get, Size, enc_all; cbn; by rewrite app_nil_r, Nat.sub_diag, Nat.add_0_r.
  - destruct fuel as [|fuel]; [cbn in Hf; lia|]. change (enc_all (x :: l)) with (enc x ++ enc_all l).
    assert (length (enc x) <> 0%nat) as Hlen by (by destruct (enc x)).
    cbn [read_all]. unfold bind at 1, get, Size. cbn [buffer front].
    rewrite (proj2 (Nat.eqb_neq _ _)) by (rewrite !length_app; lia).
    unfold bind at 1. rewrite (dec_enc x Hx pre (enc_all l)). unfold bind.
    specialize (IH (pre ++ enc x) fuel ltac:(cbn in Hf; lia)). rewrite length_app, <- app_assoc in IH.
    rewrite IH. unfold ret. cbn. rewrite length_app, Nat.add_assoc. done.
Qed.

Lemma read_all_write_all l : Forall readable l ->
  read_all (Size (write_all l)) (write_all l) =
  Ok (l, {| buffer := enc_all l; front := length (enc_all l) |}, []).
Proof.
  intros Hl. rewrite write_all_bytes. unfold Size. cbn. rewrite Nat.sub_0_r.
  apply (read_all_spec l []); [done|]. by apply length_enc_all.
Qed.
End streams.

Section cache.
Context {K T : Type} `{Countable K, !KeyedObject K T, !KeyOrder K, !Serial K, !Serial T}.

(** ** The getter *)

Definition getter_state : Type := BinStream * IndexedSeqPartition K T.
Abbreviation GM := (M getter_state Empty_set).

Definition from_bin {A} (m : Reader A) : GM A := zoom fst (fun b s => (b, s.2)) id m.
Definition on_part {A} (m : M (IndexedSeqPartition K T) Empty_set A) : GM A :=
  zoom snd (fun p s => (s.1, p)) id m.

Fixpoint getter_loop (fuel : nat) (reply_bin : BinStream) : GM BinStream :=
  s <-- get ;;
  if (Size s.1 =? 0)%nat then ret reply_bin else
  match fuel with
  | O => throw (Undefined "out of fuel")
  | S fuel' =>
      key <-- from_bin dec ;;
      i <-- on_part (ip_FindOrCreate key) ;;
      s <-- get ;;
      obj <-- deref (storage_ s.2 !! i) "*p->FindOrCreate(key)" ;;
      getter_loop fuel' (reply_bin << obj)
  end.
Definition GetGetterFunc (bin : BinStream) (p : IndexedSeqPartition K T) :
    res (BinStream * IndexedSeqPartition K T) :=
  match getter_loop (Size bin) empty_stream (bin, p) with
  | Ok (reply, s, _) => Ok (reply, s.2)
  | Err e => Err e
  end.

(** ** The cache *)

Record TypedCache := {
  tc_plan_id : Z; tc_partition_id : Z; tc_version : Z; tc_collection_id : Z;
  tc_mapper : K -> Z; tc_staleness : Z; tc_local_mode : bool }.

Definition GetVersion (c : TypedCache) : Z := tc_version c.

(** The request of [GetPartition] and [ReleasePart]. *)
Definition part_meta (c : TypedCache) (partition_id : Z) : FetchMeta :=
  {| fm_plan_id := tc_plan_id c; fm_upstream_part_id := -1; fm_collection_id := tc_collection_id c;
     fm_partition_id := partition_id; fm_version := Z.max (tc_version c - tc_staleness c) 0;
     fm_local_mode := tc_local_mode c |}.

(** [parts[partition_id] << key] *)
Definition tc_Partition (c : TypedCache) (keys : list K) : gmap Z BinStream :=
  foldl (fun parts key =>
    <[tc_mapper c key := lookup_or empty_stream (tc_mapper c key) parts << key]> parts) ∅ keys.

Fixpoint read_objs (rets : list BinStream) : res (list T) :=
  match rets with
  | [] => Ok []
  | bin :: rets' =>
      match read_all (Size bin) bin with
      | Err e => Err e
      | Ok (objs, _, _) => match read_objs rets' with Ok objs' => Ok (objs ++ objs') | Err e => Err e end
      end
  end.
(** [Organzie]; [std::sort] as in [ip_Sort]. *)
Definition Organzie (rets : list BinStream) : res (list T) :=
  match read_objs rets with Ok objs => Ok (merge_sort obj_le objs) | Err e => Err e end.

(** [Get]; [fetch] is the call of [FetchObjs] for this plan, partition and collection. *)
Definition tc_Get (fetch : gmap Z BinStream -> res (list BinStream)) (c : TypedCache) (keys : list K) :
    res (list T) :=
  let part_to_keys := tc_Partition c keys in
  match fetch part_to_keys with
  | Err e => Err e
  | Ok rets =>
      if negb (length rets =? size part_to_keys)%nat
      then Err (CheckFailed "rets.size() == part_to_keys.size()") else
      match Organzie rets with
      | Err e => Err e
      | Ok objs =>
          if negb (length objs =? length keys)%nat
          then Err (CheckFailed "objs.size() == keys.size()") else Ok objs
      end
  end.
(** ** What the getter answers *)

Lemma getter_loop_spec keys : forall fuel reply pre p,
  ip_ok p -> Forall readable keys -> (forall k, k ∈ keys -> known p k) -> (length keys <= fuel)%nat ->
  wp none (getter_loop fuel reply) ({| buffer := pre ++ enc_all keys; front := length pre |}, p)
    (fun r s _ => r = foldl shl reply (ip_view p <$> keys) /\ ip_ok s.2 /\
       forall k, known p k -> known s.2 k /\ ip_view s.2 k = ip_view p k).
Proof.
  induction keys as [|key keys IH]; intros fuel reply pre p Hok Hr Hk Hf.
  - destruct fuel; cbn [getter_loop]; wstep; wstep; unfold Size, enc_all; cbn;
      rewrite app_nil_r, Nat.sub_diag; cbn; by wstep.
  - destruct fuel as [|fuel]; [cbn in Hf; lia|]. apply Forall_cons in Hr as [[Hs Hne] Hr].
    change (enc_all (key :: keys)) with (enc key ++ enc_all keys). cbn [getter_loop]. wstep. wstep.
    assert (length (enc key) <> 0%nat) as Hlen by (by destruct (enc key)).
    unfold Size. cbn [fst buffer front].
    rewrite (proj2 (Nat.eqb_neq _ _)) by (rewrite !length_app; lia).
    wstep. apply zoom_wp. unfold wp at 1. cbn [fst]. rewrite (dec_enc key Hs pre (enc_all keys)). cbn.
    wstep. apply zoom_wp. cbn. eapply wp_mono; [apply ip_FindOrCreate_spec; [done|apply Hk; left]|].
    intros i p1 os (Hok1 & Hi & _ & _ & Hv). cbn. wstep. wstep. wstep. cbn. rewrite Hi. wstep; [|done].
    injection Hx as <-. rewrite app_assoc, <- length_app.
    eapply wp_mono; [apply (IH fuel (reply << ip_view p key)); [done|done| |cbn in Hf; lia]|].
    + intros k Hin. apply Hv, Hk. by right.
    + intros r s os' (-> & Hok2 & Hv2). split_and!; [|done|].
      * cbn. f_equal. apply list_fmap_ext. intros j k Hj. apply Hv, Hk. right.
        by eapply list_elem_of_lookup_2.
      * intros k Hkk. destruct (Hv k Hkk) as [Hk1 <-]. by apply Hv2.
Qed.

Lemma GetGetterFunc_spec keys p :
  ip_ok p -> Forall readable keys -> (forall k, k ∈ keys -> known p k) ->
  exists p', GetGetterFunc (write_all keys) p = Ok (write_all (ip_view p <$> keys), p') /\
    ip_ok p' /\ forall k, known p k -> known p' k /\ ip_view p' k = ip_view p k.
Proof.
  intros Hok Hr Hk. unfold GetGetterFunc. rewrite write_all_bytes. unfold Size. cbn. rewrite Nat.sub_0_r.
  destruct (wp_none_Ok _ _ _ (getter_loop_spec keys (length (enc_all keys)) empty_stream [] p Hok Hr Hk
    (length_enc_all keys Hr))) as (r & [b p'] & os & E & -> & Hp). cbn in E. rewrite E. eauto.
Qed.

(** ** Grouping and collecting *)

Lemma tc_Partition_spec c keys p :
  tc_Partition c keys !! p =
  match filter (fun k => tc_mapper c k = p) keys with [] => None | ks => Some (write_all ks) end.
Proof.
  induction keys as [|k keys IH] using rev_ind; [done|]. unfold tc_Partition in *.
  rewrite foldl_snoc, filter_app, filter_cons, filter_nil.
  destruct (decide (tc_mapper c k = p)) as [<-|Hne].
  - rewrite lookup_insert_eq. destruct (filter _ keys) as [|k0 ks].
    + by rewrite (lookup_or_None _ _ _ IH).
    + rewrite (lookup_or_Some _ _ _ _ IH). unfold write_all. cbn [app]. by rewrite app_comm_cons, foldl_snoc.
  - rewrite lookup_insert_ne, IH, app_nil_r by done. done.
Qed.

Lemma read_objs_all lss : Forall (Forall readable) lss -> read_objs (write_all <$> lss) = Ok (concat lss).
Proof.
  induction 1 as [|l lss Hl _ IH]; [done|]. cbn. rewrite read_all_write_all by done. by rewrite IH.
Qed.

(** The object of a key in a collection whose partitions are given. *)
Definition object (store : Z -> IndexedSeqPartition K T) (c : TypedCache) (k : K) : T :=
  ip_view (store (tc_mapper c k)) k.

Definition servable (store : Z -> IndexedSeqPartition K T) (c : TypedCache) (k : K) : Prop :=
  ip_ok (store (tc_mapper c k)) /\ known (store (tc_mapper c k)) k /\ readable k /\
  readable (object store c k).

Section answers.
Context (store : Z -> IndexedSeqPartition K T) (c : TypedCache) (ks : list K).
Context (Hks : forall k, k ∈ ks -> servable store c k).

Definition group (p : Z) : list K := filter (fun k => tc_mapper c k = p) ks.

Lemma group_requests :
  entries (tc_Partition c ks) = (fun p => (p, write_all (group p))) <$> keys (tc_Partition c ks).
Proof using.
  unfold keys. rewrite <- list_fmap_compose. 
  transitivity (id <$> entries (tc_Partition c ks)); [by rewrite list_fmap_id|]. apply list_fmap_ext. intros i [p b] Hin%list_elem_of_lookup_2%elem_of_entries. cbn.
  rewrite tc_Partition_spec in Hin. unfold group. destruct (filter _ ks); [done|].
  by injection Hin as <-.
Qed.

Lemma group_served p : p ∈ keys (tc_Partition c ks) -> exists p',
  GetGetterFunc (write_all (group p)) (store p) = Ok (write_all (object store c <$> group p), p').
Proof using Hks.
  intros Hp. apply elem_of_keys in Hp. rewrite tc_Partition_spec in Hp.
  assert (forall k, k ∈ group p -> tc_mapper c k = p /\ servable store c k) as Hg.
  { intros k [Hkp Hk]%list_elem_of_filter. auto. }
  destruct (GetGetterFunc_spec (group p) (store p)) as (p' & E & _).
  - fold (group p) in Hp. destruct (group p) as [|k g]; [by destruct Hp|].
    destruct (Hg k) as (<- & Hs & _); [left|done].
  - apply Forall_forall. intros k Hk. by apply Hg in Hk as (_ & _ & _ & ? & _).
  - intros k Hk. by apply Hg in Hk as (<- & _ & ? & _).
  - exists p'. rewrite E. do 3 f_equal. apply list_fmap_ext.
    intros i k Hk%list_elem_of_lookup_2. unfold object. by destruct (Hg k Hk) as [-> _].
Qed.

Lemma groups_objects :
  concat ((fun p => object store c <$> group p) <$> keys (tc_Partition c ks)) ≡ₚ object store c <$> ks.
Proof using.
  transitivity (object store c <$> concat (group <$> keys (tc_Partition c ks))).
  { rewrite list_fmap_concat, <- list_fmap_compose. done. }
  apply fmap_Permutation, groups_Permutation; [apply NoDup_keys|].
  intros k Hk. apply elem_of_keys. rewrite tc_Partition_spec.
  assert (k ∈ filter (fun k' => tc_mapper c k' = tc_mapper c k) ks) as Hin by (by apply list_elem_of_filter).
  by destruct (filter _ ks); [apply elem_of_nil in Hin|eexists].
Qed.
End answers.

(** Sorting the objects of keys that are in order gives the order of the keys. *)
Lemma sorted_objects store c ks objs :
  (forall k, k ∈ ks -> servable store c k) ->
  StronglySorted (fun a b => key_lt b a = false) ks ->
  objs ≡ₚ object store c <$> ks -> merge_sort obj_le objs = object store c <$> ks.
Proof.
  intros Hks Hsort Hobjs.
  assert (forall k, k ∈ ks -> Key (object store c k) = k) as Hkey.
  { intros k Hk. destruct (Hks k Hk) as (Hok & Hkn & _).
    destruct (wp_none_Ok _ _ _ (ip_FindOrCreate_spec _ k Hok Hkn)) as (? & ? & ? & _ & _ & _ & ? & _). done. }
  apply (StronglySorted_unique_strong obj_le).
  - intros x1 x2 Hx1 Hx2 H12 H21. rewrite merge_sort_Permutation, Hobjs in Hx1.
    apply list_elem_of_fmap in Hx1 as (k1 & -> & Hk1), Hx2 as (k2 & -> & Hk2).
    unfold obj_le in H12, H21. rewrite !Hkey in H12, H21 by done.
    destruct (key_lt_total k1 k2) as [->|[?|?]]; [done|congruence|congruence].
  - apply StronglySorted_merge_sort; apply _.
  - clear Hobjs. induction Hsort as [|k ks Hsort IH Hk]; [constructor|]. cbn. constructor.
    + apply IH; intros k' Hk'; [apply Hks|apply Hkey]; by right.
    + apply Forall_fmap, Forall_forall. intros k' Hk'. cbn. unfold obj_le.
      rewrite !Hkey by (try (by right); left). by apply (proj1 (Forall_forall _ _) Hk).
  - by rewrite merge_sort_Permutation.
Qed.

(** The replies, in the order of the requests. *)
Definition answers (store : Z -> IndexedSeqPartition K T) (requests : gmap Z BinStream)
    (rets : list BinStream) : Prop :=
  Forall2 (fun kv r => exists p', GetGetterFunc kv.2 (store kv.1) = Ok (r, p')) (entries requests) rets.

Lemma group_answers store c ks : (forall k, k ∈ ks -> servable store c k) ->
  answers store (tc_Partition c ks) (write_all <$> ((fun p => object store c <$> group c ks p) <$> keys (tc_Partition c ks))).
Proof.
  intros Hks. pose proof (group_served store c ks Hks) as Hserved. unfold answers. rewrite group_requests, <- list_fmap_compose.
  apply Forall2_fmap, Forall_Forall2_diag, Forall_forall. intros p Hp. by apply Hserved.
Qed.
Lemma tc_Get_objects store c ks fetch replies rets :
  (forall k, k ∈ ks -> servable store c k) -> StronglySorted (fun a b => key_lt b a = false) ks ->
  answers store (tc_Partition c ks) replies -> rets ≡ₚ replies -> fetch (tc_Partition c ks) = Ok rets ->
  tc_Get fetch c ks = Ok (object store c <$> ks).
Proof.
  intros Hks Hsort Hrep Hperm Hfetch. pose proof (group_answers store c ks Hks) as Hans.
  assert (replies = write_all <$> ((fun p => object store c <$> group c ks p) <$> keys (tc_Partition c ks))) as ->.
  { eapply Forall2_unique; [exact Hrep|exact Hans|]. intros [p b] r r' [q Hq] [q' Hq']. congruence. }
  destruct (permuted_fmap _ _ _ Hperm) as (lss & -> & Hlss).
  assert (length (write_all <$> lss) = size (tc_Partition c ks)) as Hlen.
  { rewrite length_fmap, Hlss, length_fmap. unfold keys. by rewrite length_fmap, length_entries. }
  assert (concat lss ≡ₚ object store c <$> ks) as Hobjs by (by rewrite Hlss, groups_objects).
  assert (Forall (Forall readable) lss) as Hread.
  { rewrite Hlss. apply Forall_fmap, Forall_forall. intros p _. apply Forall_fmap, Forall_forall.
    intros k [_ Hk]%list_elem_of_filter. by apply Hks. }
  unfold tc_Get, Organzie. rewrite Hfetch, Hlen, Nat.eqb_refl, read_objs_all by done. cbn [negb].
  rewrite (sorted_objects store c ks) by done. by rewrite length_fmap, Nat.eqb_refl.
Qed.

End cache.

(** ** Example: two partitions, by the parity of the key *)

Definition parity_store (p : Z) : IndexedSeqPartition Z (Z * Z) :=
  if p =? 0 then ip_TypedAdd (2, 20) new_indexed
  else ip_TypedAdd (5, 50) (ip_TypedAdd (3, 30) new_indexed).
Definition parity_cache : @TypedCache Z :=
  {| tc_plan_id := 1; tc_partition_id := 0; tc_version := 0; tc_collection_id := 7;
     tc_mapper := fun k => k mod 2; tc_staleness := 0; tc_local_mode := true |}.
Definition parity_replies : list BinStream :=
  [write_all [(2, 20); (4, 0)]; write_all [(3, 30); (3, 30); (5, 50)]].

Lemma parity_servable k : 0 <= k < 10 -> servable parity_store parity_cache k.
Proof.
  intros Hk. unfold servable, object, parity_store, parity_cache. cbn.
  assert (forall k : Z, enc k <> []) as Henc by done. assert (forall k : Z * Z, enc k <> []) as Henc2 by done.
  assert (forall a b, 0 <= a < 100 -> 0 <= b < 100 -> storable (a, b)) as Hst.
  { intros a b Ha Hb. split; unfold storable; cbn; unfold in_int; lia. }
  split_and!.
  - destruct (_ =? 0); repeat apply ip_TypedAdd_ok; apply new_indexed_ok.
  - apply unsorted_known. by destruct (_ =? 0).
  - split; [unfold storable; cbn; unfold in_int; lia|done].
  - split; [|done].
    assert (k = 0 \/ k = 1 \/ k = 2 \/ k = 3 \/ k = 4 \/ k = 5 \/ k = 6 \/ k = 7 \/ k = 8 \/ k = 9) as Hc by lia.
    repeat destruct Hc as [->|Hc]; try subst k; vm_compute; split; by split.
Qed.

