(* ===== verification/PlanController.v ===== *)
(** * The plan controller (core/worker/plan_controller.hpp, plan_controller.cpp,
    core/worker/delayed_combiner.hpp, delayed_combiner.cpp)

    One [PlanController] per node and running map/update plan.  It decides which local
    partitions to map, applies incoming updates (joins) one at a time per partition, serves
    fetches, takes checkpoints, and migrates partitions.  Its handlers run in the
    controller's thread; the work itself is submitted to executors and comes back as
    messages in the controller's queue.  A handler is a computation on [NodeSt] that emits
    the messages sent and the tasks submitted; the task bodies are [run_*] computations of
    the same kind.

    User code, and the partitions it works on, are the parameters of the class [UserCode].
    The macros are as compiled: MIGRATE_JOIN and CPULIMIT undefined, BGCP false. *)

From S2P Require Import Prelude BinStream Specs Index Messages Partition.

(** [std::unordered_map] iterates in an unspecified order. *)
Class IterOrder := {
  iter : forall {A}, gmap Z A -> list (Z * A);
  iter_perm : forall A (m : gmap Z A), iter m ≡ₚ map_to_list m }.

(** The functions registered by plans and collections ([FunctionStore]) and the virtual
    methods of partitions and map output streams. *)
Class UserCode (P Stream : Type) := {
  part_ToBin : P -> BinStream;
  fn_CreatePart : Z -> option (BinStream -> P);          (* create, then FromBin *)
  fn_Map : Z -> option (P -> list Stream);
  fn_MapWith : Z -> option (Z -> Z -> P -> list Stream); (* plan id, version *)
  fn_Join : Z -> option (P -> BinStream -> P);
  fn_Join2 : Z -> option (P -> Stream -> P);
  fn_Getter : Z -> option (BinStream -> P -> BinStream * P);
  stream_Serialize : Stream -> BinStream;
  stream_DoCombine : Stream -> Stream;
  stream_DoAppend : Stream -> Stream -> Stream }.

Section PlanController.
Context {P Stream : Type} `{UserCode P Stream} `{IterOrder}.

(** ** State *)

Record PC := {
  map_collection_id_ : Z; update_collection_id_ : Z; fetch_collection_id_ : Z;
  plan_id_ : Z; num_upstream_part_ : Z; num_update_part_ : Z;
  num_local_update_part_ : Z; num_local_map_part_ : Z;
  type_ : SpecType; checkpoint_interval_ : Z; checkpoint_path_ : string;
  min_version_ : Z; staleness_ : Z; expected_num_iter_ : Z;
  map_versions_ : gmap Z Z;
  update_versions_ : gmap Z Z;
  update_tracker_ : gmap Z (gmap Z (gset Z));
  update_tracker_size_ : list Z;
  pending_updates_ : gmap Z (gmap Z (list VersionedJoinMeta));
  running_maps_ : gset Z;
  running_updates_ : gmap Z Z;
  running_fetches_ : gmap Z Z;
  waiting_updates_ : gmap Z (list VersionedJoinMeta);
  flush_all_count_ : gmap Z Z;
  stop_updateing_partitions_ : gmap Z bool;
  load_finished_ : gmap Z bool;
  buffered_requests_ : gmap Z (list VersionedJoinMeta);
  stream_store : MapOutputStreamStore Stream;
  (* the delayed combiner *)
  combine_timeout_ : Z;
  store_ : list (gmap Z (list (Z * Stream))) }.
#[global] Instance eta_PC : Eta PC := fun c =>
  {| map_collection_id_ := map_collection_id_ c; update_collection_id_ := update_collection_id_ c;
     fetch_collection_id_ := fetch_collection_id_ c; plan_id_ := plan_id_ c;
     num_upstream_part_ := num_upstream_part_ c; num_update_part_ := num_update_part_ c;
     num_local_update_part_ := num_local_update_part_ c;
     num_local_map_part_ := num_local_map_part_ c; type_ := type_ c;
     checkpoint_interval_ := checkpoint_interval_ c; checkpoint_path_ := checkpoint_path_ c;
     min_version_ := min_version_ c; staleness_ := staleness_ c;
     expected_num_iter_ := expected_num_iter_ c; map_versions_ := map_versions_ c;
     update_versions_ := update_versions_ c; update_tracker_ := update_tracker_ c;
     update_tracker_size_ := update_tracker_size_ c; pending_updates_ := pending_updates_ c;
     running_maps_ := running_maps_ c; running_updates_ := running_updates_ c;
     running_fetches_ := running_fetches_ c; waiting_updates_ := waiting_updates_ c;
     flush_all_count_ := flush_all_count_ c;
     stop_updateing_partitions_ := stop_updateing_partitions_ c;
     load_finished_ := load_finished_ c; buffered_requests_ := buffered_requests_ c;
     stream_store := stream_store c; combine_timeout_ := combine_timeout_ c;
     store_ := store_ c |}.

(** A freshly constructed controller; the uninitialized members are 0 here and set by
    [Setup] before any use. *)
Definition new_pc : PC :=
  {| map_collection_id_ := 0; update_collection_id_ := 0; fetch_collection_id_ := -1;
     plan_id_ := 0; num_upstream_part_ := 0; num_update_part_ := 0;
     num_local_update_part_ := 0; num_local_map_part_ := 0; type_ := TMapJoin;
     checkpoint_interval_ := 0; checkpoint_path_ := ""; min_version_ := 0; staleness_ := 0;
     expected_num_iter_ := 0; map_versions_ := ∅; update_versions_ := ∅; update_tracker_ := ∅;
     update_tracker_size_ := []; pending_updates_ := ∅; running_maps_ := ∅;
     running_updates_ := ∅; running_fetches_ := ∅; waiting_updates_ := ∅;
     flush_all_count_ := ∅; stop_updateing_partitions_ := ∅; load_finished_ := ∅;
     buffered_requests_ := ∅; stream_store := {| stream_store_ := ∅ |};
     combine_timeout_ := 0; store_ := [] |}.

(** The controller with the parts of the node it shares: [engine_elem_]. *)
Record NodeSt := { pc : PC; pm : PartitionManager P; cmap : CollectionMap; my_id : Z }.
#[global] Instance eta_NodeSt : Eta NodeSt := fun s =>
  {| pc := pc s; pm := pm s; cmap := cmap s; my_id := my_id s |}.

(** Tasks given to the executors. *)
Inductive task :=
| TMap (part_id version : Z) (p : P)               (* map_executor_ *)
| TMapped (part_id version : Z) (output : list Stream)   (* the same, the map function done *)
| TJoin (meta : VersionedJoinMeta)                 (* fetch_executor_ *)
| TFetch (meta : VersionedJoinMeta) (version : Z)  (* fetch_executor_ *)
| TCheckpoint (part_id : Z) (dest_url : string)    (* fetch_executor_ *)
| TCombine (part_id version : Z) (v : list (Z * Stream)).  (* the combiner's executor *)

Inductive out :=
| ToScheduler (m : ControllerMsg)                  (* SendMsgToScheduler *)
| Send (recver plan_id : Z) (m : ctrl_msg)         (* through the mailbox *)
| Push (m : ctrl_msg)                              (* GetWorkQueue()->Push *)
| PushLater (m : ctrl_msg)                         (* the same, 100 ms later *)
| Reply (recver : Z) (flag : FetcherFlag) (meta : FetchMeta) (bin : option BinStream)
| Submit (t : task)
| WriteFile (url : string) (bin : BinStream).

Abbreviation NM := (M NodeSt out).

Definition pcs {A} (f : PC -> A) : NM A := gets (fun s => f (pc s)).
Definition mod_pc (f : PC -> PC) : NM unit := modify (fun s => s <| pc ::= f |>).
Definition on_pm {A} (m : M (PartitionManager P) Empty_set A) : NM A :=
  zoom pm (fun p s => s <| pm := p |>) (fun e : Empty_set => match e with end) m.
Definition on_streams {A} (m : M (MapOutputStreamStore Stream) Empty_set A) : NM A :=
  zoom (fun s => stream_store (pc s)) (fun x s => s <| pc ::= fun c => c <| stream_store := x |> |>)
    (fun e : Empty_set => match e with end) m.
Definition Qid (s : NodeSt) : Z := GetControllerActorQid (my_id s).
(** [FunctionStore::Get...]: CHECKs that the function was registered. *)
Definition get_fn {A} (f : option A) (what : string) : NM A :=
  match f with Some g => ret g | None => throw (CheckFailed what) end.
Definition has {A} (k : Z) (m : gmap Z A) : bool := bool_decide (is_Some (m !! k)).

(** ** Setup *)

Definition ReportFinishPart (flag : CtrlFlag) (part_id version : Z) : NM unit :=
  id <-- gets my_id ;; plan <-- pcs plan_id_ ;;
  emit (ToScheduler {| c_flag := flag; c_version := version; c_node_id := id;
                       c_plan_id := plan; c_part_id := part_id |}).

Definition Setup (spec : SpecWrapper) : NM unit :=
  check (bool_decide (spec_type spec = TMapJoin) || bool_decide (spec_type spec = TMapWithJoin))
    "type_ == kMapJoin || type_ == kMapWithJoin" ;;;
  mod_pc (fun c => c <| type_ := spec_type spec |>) ;;;
  when (bool_decide (spec_type spec = TMapWithJoin))
    (p <-- deref (match Specs.spec spec with SMapWithJoin p => Some p | _ => None end)
             "static_cast<MapWithJoinSpec*>" ;;
     mod_pc (fun c => c <| fetch_collection_id_ := with_collection_id p |>)) ;;;
  p <-- cast_MapJoin spec ;;
  mod_pc (fun c => c <| map_collection_id_ := map_collection_id p |>
                     <| update_collection_id_ := update_collection_id p |>
                     <| checkpoint_interval_ := checkpoint_interval p |>
                     <| checkpoint_path_ := checkpoint_path p |>) ;;;
  when (negb (checkpoint_interval p =? 0))
    (check (negb (String.length (checkpoint_path p) =? 0)%nat) "checkpoint_path_.size()") ;;;
  mod_pc (fun c => c <| plan_id_ := spec_id spec |>) ;;;
  cm <-- gets cmap ;;
  nu <-- cmap_GetNumParts (map_collection_id p) cm ;;
  mod_pc (fun c => c <| num_upstream_part_ := nu |>) ;;;
  nd <-- cmap_GetNumParts (update_collection_id p) cm ;;
  mod_pc (fun c => c <| num_update_part_ := nd |>) ;;;
  lu <-- on_pm (pm_GetNumLocalParts (update_collection_id p)) ;;
  mod_pc (fun c => c <| num_local_update_part_ := lu |>) ;;;
  lm <-- on_pm (pm_GetNumLocalParts (map_collection_id p)) ;;
  mod_pc (fun c => c <| num_local_map_part_ := lm |> <| min_version_ := 0 |>
                     <| staleness_ := staleness p |> <| expected_num_iter_ := num_iter p |>) ;;;
  check (negb (num_iter p =? 0)) "expected_num_iter_ != 0" ;;;
  mod_pc (fun c => c <| map_versions_ := ∅ |> <| update_versions_ := ∅ |>
                     <| update_tracker_ := ∅ |> <| pending_updates_ := ∅ |>
                     <| waiting_updates_ := ∅ |>
                     (* the new DelayedCombiner *)
                     <| combine_timeout_ := combine_timeout p |>
                     <| store_ := replicate (Z.to_nat nd) ∅ |>) ;;;
  parts <-- on_pm (pm_GetAll (map_collection_id p)) ;;
  for_each parts (fun part => mod_pc (fun c => c <| map_versions_ ::= <[part.1 := 0]> |>)) ;;;
  parts <-- on_pm (pm_GetAll (update_collection_id p)) ;;
  for_each parts (fun part => mod_pc (fun c => c <| update_versions_ ::= <[part.1 := 0]> |>)) ;;;
  ReportFinishPart CfSetup (-1) (-1).

(** ** Maps *)

Definition IsMapRunnable (part_id : Z) : NM bool :=
  c <-- gets pc ;;
  if bool_decide (part_id ∈ running_maps_ c) then ret false else
  if (map_collection_id_ c =? update_collection_id_ c) && has part_id (running_updates_ c)
  then ret false else
  if (map_collection_id_ c =? update_collection_id_ c) && has part_id (stop_updateing_partitions_ c)
  then ret false else
  mod_pc (fun c => c <| map_versions_ ::= touch 0 part_id |>) ;;;
  let version := lookup_or 0 part_id (map_versions_ c) in
  if version =? expected_num_iter_ c then ret false else
  ret (version <=? min_version_ c + staleness_ c).

Definition RunMap (part_id version : Z) (p : P) : NM unit :=
  running <-- pcs running_maps_ ;;
  check (bool_decide (part_id ∉ running)) "running_maps_.find(part_id) == end" ;;;
  mod_pc (fun c => c <| running_maps_ ::= fun s => {[part_id]} ∪ s |>) ;;;
  emit (Submit (TMap part_id version p)).

Definition TryRunSomeMaps : NM unit :=
  c <-- gets pc ;;
  if min_version_ c =? expected_num_iter_ c then ret tt else
  for_each (iter (map_versions_ c)) (fun kv =>
    let '(part_id, version) := kv in
    runnable <-- IsMapRunnable part_id ;;
    when runnable
      (h <-- on_pm (pm_Has (map_collection_id_ c) part_id) ;;
       check h "partition_manager->Has(map_collection_id_, part_id)" ;;;
       p <-- on_pm (pm_Get (map_collection_id_ c) part_id) ;;
       RunMap part_id version p)).

Definition StartPlan : NM unit := TryRunSomeMaps.

Definition UpdateVersion (new_version : Z) : NM unit :=
  c <-- gets pc ;;
  check (new_version <? expected_num_iter_ c) "new_version < expected_num_iter_" ;;;
  check (new_version =? min_version_ c + 1) "new_version == min_version_+1" ;;;
  mod_pc (fun c => c <| min_version_ := new_version |>
                     <| update_tracker_ ::= fmap (delete (new_version - 1)) |>) ;;;
  TryRunSomeMaps.

(** ** Fetches *)

Definition numeric_limits_max : Z := 2 ^ 31 - 1.

Definition RunFetchRequest (fetch_meta : VersionedJoinMeta) : NM unit :=
  let m := vj_meta fetch_meta in
  mod_pc (fun c => c <| running_fetches_ ::= fun r =>
            <[vs_part_id m := lookup_or 0 (vs_part_id m) r + 1]> r |>) ;;;
  c <-- gets pc ;;
  version <--
    (if fetch_collection_id_ c =? update_collection_id_ c
     then mod_pc (fun c => c <| update_versions_ ::= touch 0 (vs_part_id m) |>) ;;;
          ret (lookup_or 0 (vs_part_id m) (update_versions_ c))
     else ret numeric_limits_max) ;;
  if vs_local_mode m && negb (vs_version m =? -1) &&
     (GetNodeId (vs_sender m) =? GetNodeId (vs_recver m))
  then emit (Reply (vs_sender m) kFetchPartReplyLocal
               {| fm_plan_id := plan_id_ c; fm_upstream_part_id := vs_upstream_part_id m;
                  fm_collection_id := vs_collection_id m; fm_partition_id := vs_part_id m;
                  fm_version := version; fm_local_mode := false |} None)
  else emit (Submit (TFetch fetch_meta version)).

(** ** Joins *)

(** [update_tracker_[part][version]], default-constructing both levels. *)
Definition tracker_touch (part version : Z) (t : gmap Z (gmap Z (gset Z))) :
    gmap Z (gmap Z (gset Z)) :=
  <[part := touch ∅ version (lookup_or ∅ part t)]> t.
Definition tracker_get (part version : Z) (t : gmap Z (gmap Z (gset Z))) : gset Z :=
  lookup_or ∅ version (lookup_or ∅ part t).
Definition tracker_upd (part version : Z) (f : gset Z -> gset Z)
    (t : gmap Z (gmap Z (gset Z))) : gmap Z (gmap Z (gset Z)) :=
  let inner := lookup_or ∅ part t in
  <[part := <[version := f (lookup_or ∅ version inner)]> inner]> t.

Definition IsJoinedBefore (meta : VersionedShuffleMeta) : NM bool :=
  let part := vs_part_id meta in
  let ver := vs_version meta in
  if vs_upstream_part_id meta =? -1 then
    check (0 <? Z.of_nat (length (vs_ext_upstream_part_ids meta)))
      "ext_upstream_part_ids.size() > 0" ;;;
    mod_pc (fun c => c <| update_tracker_ ::= tracker_touch part ver |>) ;;;
    done <-- pcs (fun c => tracker_get part ver (update_tracker_ c)) ;;
    first <-- deref (head (vs_ext_upstream_part_ids meta)) "ext_upstream_part_ids.at(0)" ;;
    let result := bool_decide (first ∈ done) in
    for_each (tail (vs_ext_upstream_part_ids meta)) (fun u =>
      check (Bool.eqb result (bool_decide (u ∈ done))) "result == find(ext[i])") ;;;
    ret result
  else
    mod_pc (fun c => c <| update_tracker_ ::= tracker_touch part ver |>) ;;;
    done <-- pcs (fun c => tracker_get part ver (update_tracker_ c)) ;;
    ret (bool_decide (vs_upstream_part_id meta ∈ done)).

(** [TryRunWaitingJoins] and [RunJoin] call each other; [retry] stands for the call of
    [TryRunWaitingJoins] inside [RunJoin]. *)
Definition RunJoin (retry : Z -> NM unit) (meta : VersionedJoinMeta) : NM unit :=
  let part := vs_part_id (vj_meta meta) in
  joined <-- IsJoinedBefore (vj_meta meta) ;;
  if (joined : bool) then retry part else
  running <-- pcs running_updates_ ;;
  check (negb (has part running)) "running_updates_.find(part_id) == end" ;;;
  mod_pc (fun c => c <| running_updates_ ::= <[part := vs_upstream_part_id (vj_meta meta)]> |>) ;;;
  emit (Submit (TJoin meta)).

(** [TryRunWaitingJoins] once no update and no fetch is running. *)
Definition run_first_waiting (retry : Z -> NM unit) (part_id : Z) : NM bool :=
  c <-- gets pc ;;
  if (map_collection_id_ c =? update_collection_id_ c) && bool_decide (part_id ∈ running_maps_ c)
  then ret false else
  mod_pc (fun c => c <| waiting_updates_ ::= touch [] part_id |>) ;;;
  match lookup_or [] part_id (waiting_updates_ c) with
  | [] => ret false
  | meta :: rest =>
      mod_pc (fun c => c <| waiting_updates_ ::= <[part_id := rest]> |>) ;;;
      (if negb (vs_is_fetch (vj_meta meta)) then RunJoin retry meta else RunFetchRequest meta) ;;;
      ret true
  end.

Definition try_waiting (retry : Z -> NM unit) (part_id : Z) : NM bool :=
  c <-- gets pc ;;
  if has part_id (running_updates_ c) then ret false else
  fetching <--
    (if fetch_collection_id_ c =? update_collection_id_ c
     then mod_pc (fun c => c <| running_fetches_ ::= touch 0 part_id |>) ;;;
          ret (0 <? lookup_or 0 part_id (running_fetches_ c))
     else ret false) ;;
  if (fetching : bool) then ret false else
  run_first_waiting retry part_id.

(** Each round takes one element from a waiting queue, so the number of waiting elements
    bounds the rounds. *)
Fixpoint TryRunWaitingJoins_ (fuel : nat) (part_id : Z) : NM bool :=
  try_waiting
    (match fuel with
     | O => fun _ => throw (Undefined "out of fuel")
     | S fuel' => fun q => TryRunWaitingJoins_ fuel' q ;;; ret tt
     end) part_id.

Definition total_waiting (w : gmap Z (list VersionedJoinMeta)) : nat :=
  map_fold (fun _ l n => length l + n)%nat 0%nat w.
Definition TryRunWaitingJoins (part_id : Z) : NM bool :=
  w <-- pcs waiting_updates_ ;; TryRunWaitingJoins_ (total_waiting w) part_id.

Definition ReceiveJoin (update_meta : VersionedJoinMeta) : NM unit :=
  let meta := vj_meta update_meta in
  let part := vs_part_id meta in
  c <-- gets pc ;;
  if negb (has part (update_versions_ c)) then
    mod_pc (fun c => c <| buffered_requests_ ::= fun b =>
      <[part := lookup_or [] part b ++ [update_meta]]> b |>)
  else
  joined <-- IsJoinedBefore meta ;;
  if (joined : bool) then ret tt else
  pend <--
    (if map_collection_id_ c =? update_collection_id_ c
     then mod_pc (fun c => c <| map_versions_ ::= touch 0 part |>) ;;;
          ret (lookup_or 0 part (map_versions_ c) <=? vs_version meta)
     else ret false) ;;
  if (pend : bool) then
    mod_pc (fun c => c <| pending_updates_ ::= fun p =>
      let inner := lookup_or ∅ part p in
      <[part := <[vs_version meta := lookup_or [] (vs_version meta) inner ++ [update_meta]]> inner]> p |>)
  else
    mod_pc (fun c => c <| waiting_updates_ ::= fun w =>
      <[part := lookup_or [] part w ++ [update_meta]]> w |>) ;;;
    TryRunWaitingJoins part ;;; ret tt.

(** ** End of a map, a join, a checkpoint, a fetch *)

(** [update_version] is only read under MIGRATE_JOIN. *)
Definition FinishMap (part_id : Z) (update_version : bool) : NM unit :=
  mod_pc (fun c => c <| running_maps_ ::= fun s => s ∖ {[part_id]} |>) ;;;
  mod_pc (fun c =>
    match stop_updateing_partitions_ c !! part_id with
    | Some true => c <| stop_updateing_partitions_ ::= delete part_id |>
    | _ => c
    end) ;;;
  c <-- gets pc ;;
  match map_versions_ c !! part_id with
  | None => ret tt   (* FinishMap for part not local *)
  | Some last_version =>
      mod_pc (fun c => c <| map_versions_ ::= <[part_id := last_version + 1]> |>) ;;;
      ReportFinishPart CfMap part_id (last_version + 1) ;;;
      when (map_collection_id_ c =? update_collection_id_ c)
        (mod_pc (fun c => c <| pending_updates_ ::= fun p =>
           <[part_id := touch [] last_version (lookup_or ∅ part_id p)]> p |>) ;;;
         pend <-- pcs (fun c => lookup_or [] last_version (lookup_or ∅ part_id (pending_updates_ c))) ;;
         when (negb (bool_decide (pend = [])))
           (mod_pc (fun c => c <| waiting_updates_ ::= fun w =>
                      <[part_id := lookup_or [] part_id w ++ pend]> w |>
                    <| pending_updates_ ::= fun p =>
                      <[part_id := delete last_version (lookup_or ∅ part_id p)]> p |>)) ;;;
         TryRunWaitingJoins part_id ;;; ret tt) ;;;
      TryRunSomeMaps
  end.

Definition CalcJoinTrackerSize : NM unit :=
  mod_pc (fun c => c <| update_tracker_size_ ::= fun l =>
    l ++ [map_fold (fun _ vs n => map_fold (fun _ s k => Z.of_nat (size s) + k) 0 vs + n) 0
            (update_tracker_ c)] |>).

Definition TryCheckpoint (part_id : Z) : NM bool :=
  c <-- gets pc ;;
  mod_pc (fun c => if checkpoint_interval_ c =? 0 then c
                   else c <| update_versions_ ::= touch 0 part_id |>) ;;;
  let version := lookup_or 0 part_id (update_versions_ c) in
  if negb (checkpoint_interval_ c =? 0) && (Z.rem version (checkpoint_interval_ c) =? 0) then
    let checkpoint_iter := Z.quot version (checkpoint_interval_ c) in
    let dest_url := GetCheckpointUrl (checkpoint_path_ c +:+ "/cp-" +:+ pretty checkpoint_iter)
                      (update_collection_id_ c) part_id in
    check (negb (has part_id (running_updates_ c))) "running_updates_.find(part_id) == end" ;;;
    mod_pc (fun c => c <| running_updates_ ::= <[part_id := -1]> |>) ;;;
    emit (Submit (TCheckpoint part_id dest_url)) ;;;
    ret true
  else ret false.

Definition FinishJoin (part_id version : Z) (upstream_part_ids : list Z) : NM unit :=
  mod_pc (fun c => c <| running_updates_ ::= delete part_id |>
                     <| update_tracker_ ::= tracker_upd part_id version
                          (fun s => list_to_set upstream_part_ids ∪ s) |>) ;;;
  c <-- gets pc ;;
  if Z.of_nat (size (tracker_get part_id version (update_tracker_ c))) =? num_upstream_part_ c then
    CalcJoinTrackerSize ;;;
    mod_pc (fun c => c <| update_tracker_ ::= tracker_upd part_id version (fun _ => ∅) |>
                       <| update_versions_ ::= fun v =>
                            <[part_id := lookup_or 0 part_id v + 1]> v |>) ;;;
    runcp <-- TryCheckpoint part_id ;;
    if (runcp : bool) then ret tt else
    v <-- pcs (fun c => lookup_or 0 part_id (update_versions_ c)) ;;
    ReportFinishPart CfJoin part_id v ;;;
    TryRunWaitingJoins part_id ;;; ret tt
  else
    TryRunWaitingJoins part_id ;;; ret tt.

Definition FinishCheckpoint (part_id : Z) : NM unit :=
  c <-- gets pc ;;
  check (has part_id (running_updates_ c)) "running_updates_.find(part_id) != end" ;;;
  mod_pc (fun c => c <| running_updates_ ::= delete part_id |>
                     <| update_versions_ ::= touch 0 part_id |>) ;;;
  ReportFinishPart CfJoin part_id (lookup_or 0 part_id (update_versions_ c)) ;;;
  TryRunWaitingJoins part_id ;;;
  TryRunSomeMaps.

Definition FinishFetch (part_id upstream_part_id : Z) : NM unit :=
  mod_pc (fun c => c <| running_fetches_ ::= fun r => <[part_id := lookup_or 0 part_id r - 1]> r |>) ;;;
  TryRunWaitingJoins part_id ;;; ret tt.

Definition ReceiveFetchRequest (fm : FetchMeta) (bin : BinStream) (sender recver : Z) : NM unit :=
  s <-- get ;;
  let c := pc s in
  check (fm_plan_id fm =? plan_id_ c) "received_fetch_meta.plan_id == plan_id_" ;;;
  h <-- on_pm (pm_Has (fm_collection_id fm) (fm_partition_id fm)) ;;
  check h "partition_manager->Has(collection_id, partition_id)" ;;;
  check (fm_collection_id fm =? fetch_collection_id_ c) "collection_id == fetch_collection_id_" ;;;
  check (recver =? Qid s) "msg.meta.recver == Qid()" ;;;
  let part := fm_partition_id fm in
  let fetch_meta :=
    {| vj_meta := {| vs_plan_id := plan_id_ c; vs_collection_id := fm_collection_id fm;
                     vs_part_id := part; vs_upstream_part_id := fm_upstream_part_id fm;
                     vs_version := fm_version fm; vs_is_fetch := true;
                     vs_sender := sender; vs_recver := recver;
                     vs_local_mode := fm_local_mode fm; vs_ext_upstream_part_ids := [] |};
       vj_bin := bin |} in
  if negb (fm_collection_id fm =? update_collection_id_ c) then RunFetchRequest fetch_meta
  else if negb (has part (update_versions_ c)) then
    mod_pc (fun c => c <| buffered_requests_ ::= fun b =>
      <[part := lookup_or [] part b ++ [fetch_meta]]> b |>)
  else if has part (running_updates_ c) then
    mod_pc (fun c => c <| waiting_updates_ ::= fun w =>
      <[part := lookup_or [] part w ++ [fetch_meta]]> w |>)
  else RunFetchRequest fetch_meta.

(** ** Migration of an update partition *)

Definition MigratePartitionStartMigrate (mm : MigrateMeta) : NM unit :=
  s <-- get ;;
  let flush := mm <| mm_flag := kFlushAll |> in
  emit (Send (GetControllerActorQid (mm_from_id mm)) (plan_id_ (pc s))
          (kMigratePartition flush MBNone)) ;;;
  when (mm_from_id mm =? my_id s)
    (check (mm_collection_id mm =? update_collection_id_ (pc s))
       "the migrate collection must be the update collection" ;;;
     check (has (mm_partition_id mm) (update_versions_ (pc s))) "update_versions_.find != end" ;;;
     check (negb (has (mm_partition_id mm) (stop_updateing_partitions_ (pc s))))
       "stop_updateing_partitions_.find == end" ;;;
     mod_pc (fun c => c <| stop_updateing_partitions_ ::= <[mm_partition_id mm := false]> |>)).

(** The key of a local map output in the stream store. *)
Definition stream_key_of (m : VersionedShuffleMeta) : Z * list Z * Z :=
  (vs_part_id m,
   (match vs_ext_upstream_part_ids m with
    | [] => [vs_upstream_part_id m]
    | _ => vs_ext_upstream_part_ids m
    end),
   vs_version m).

(** Local outputs leave the stream store and travel serialized. *)
Definition serialize_from_stream_store (meta : VersionedJoinMeta) : NM VersionedJoinMeta :=
  if vs_local_mode (vj_meta meta) then
    let k := stream_key_of (vj_meta meta) in
    stream <-- on_streams (ss_Get k) ;;
    on_streams (ss_Remove k) ;;;
    ret (meta <| vj_bin := stream_Serialize stream |>
              <| vj_meta ::= fun m => m <| vs_local_mode := false |> |>)
  else ret meta.
Fixpoint serialize_all (l : list VersionedJoinMeta) : NM (list VersionedJoinMeta) :=
  match l with
  | [] => ret []
  | m :: l' => m' <-- serialize_from_stream_store m ;; l'' <-- serialize_all l' ;; ret (m' :: l'')
  end.
Fixpoint serialize_versions (l : list (Z * list VersionedJoinMeta)) :
    NM (gmap Z (list VersionedJoinMeta)) :=
  match l with
  | [] => ret ∅
  | (v, ms) :: l' =>
      ms' <-- serialize_all ms ;; rest <-- serialize_versions l' ;; ret (<[v := ms']> rest)
  end.

Definition MigratePartitionReceiveFlushAll (mm : MigrateMeta) : NM unit :=
  s <-- get ;;
  let part := mm_partition_id mm in
  check (mm_from_id mm =? my_id s) "only w_a receives FlushAll" ;;;
  let count := lookup_or 0 part (flush_all_count_ (pc s)) + 1 in
  mod_pc (fun c => c <| flush_all_count_ ::= <[part := count]> |>) ;;;
  if negb (count =? mm_num_nodes mm) then ret tt else
  if has part (running_updates_ (pc s)) then
    mod_pc (fun c => c <| flush_all_count_ ::= <[part := count - 1]> |>) ;;;
    check (bool_decide (mm_flag mm = kFlushAll)) "flag == kFlushAll" ;;;
    emit (Push (kMigratePartition mm MBNone))
  else
  mod_pc (fun c => c <| flush_all_count_ ::= <[part := 0]> |>) ;;;
  check (has part (stop_updateing_partitions_ (pc s))) "stop_updateing_partitions_.find != end" ;;;
  mod_pc (fun c => if bool_decide (part ∈ running_maps_ c)
                   then c <| stop_updateing_partitions_ ::= <[part := true]> |>
                   else c <| stop_updateing_partitions_ ::= delete part |>) ;;;
  c <-- gets pc ;;
  (* when the collections differ, data.map_version stays unset and is not read *)
  let map_version := if map_collection_id_ c =? update_collection_id_ c
                     then lookup_or 0 part (map_versions_ c) else -1 in
  when (map_collection_id_ c =? update_collection_id_ c)
    (mod_pc (fun c => c <| map_versions_ ::= delete part |>
                        <| num_local_map_part_ ::= fun n => n - 1 |>)) ;;;
  let update_version := lookup_or 0 part (update_versions_ c) in
  pending <-- serialize_versions (iter (lookup_or ∅ part (pending_updates_ c))) ;;
  waiting <-- serialize_all (lookup_or [] part (waiting_updates_ c)) ;;
  let data := {| md_map_version := map_version; md_update_version := update_version;
                 md_pending_updates := pending; md_waiting_updates := waiting;
                 md_update_tracker := lookup_or ∅ part (update_tracker_ c) |} in
  mod_pc (fun c => c <| update_versions_ ::= delete part |>
                     <| num_local_update_part_ ::= fun n => n - 1 |>
                     <| pending_updates_ ::= delete part |>
                     <| waiting_updates_ ::= delete part |>
                     <| update_tracker_ ::= delete part |>) ;;;
  h <-- on_pm (pm_Has (mm_collection_id mm) part) ;;
  check h "partition_manager->Has(collection_id, partition_id)" ;;;
  p <-- on_pm (pm_Get (mm_collection_id mm) part) ;;
  on_pm (pm_Remove (mm_collection_id mm) part) ;;;
  emit (Send (GetControllerActorQid (mm_to_id mm)) (plan_id_ c)
          (kMigratePartition (mm <| mm_flag := kDest |>) (MBData data (part_ToBin p)))).

(** A request that arrived before the partition: as in [ReceiveJoin], without the
    tracker check. *)
Definition requeue (req : VersionedJoinMeta) : NM unit :=
  c <-- gets pc ;;
  let part := vs_part_id (vj_meta req) in
  let ver := vs_version (vj_meta req) in
  if (map_collection_id_ c =? update_collection_id_ c) &&
     (lookup_or 0 part (map_versions_ c) <=? ver)
  then mod_pc (fun c => c <| pending_updates_ ::= fun p =>
         let inner := lookup_or ∅ part p in
         <[part := <[ver := lookup_or [] ver inner ++ [req]]> inner]> p |>)
  else mod_pc (fun c => c <| waiting_updates_ ::= fun w =>
         <[part := lookup_or [] part w ++ [req]]> w |>).

Definition MigratePartitionDest (mm : MigrateMeta) (data : MigrateData) (bin2 : BinStream) : NM unit :=
  s <-- get ;;
  let c := pc s in
  let part := mm_partition_id mm in
  let coalloc := map_collection_id_ c =? update_collection_id_ c in
  check (mm_to_id mm =? my_id s) "only w_b receive this" ;;;
  if negb (fetch_collection_id_ c =? -1) && coalloc &&
     negb (map_collection_id_ c =? fetch_collection_id_ c) &&
     negb (lookup_or false part (load_finished_ c))
  then emit (PushLater (kMigratePartition mm (MBData data bin2)))
  else
  mod_pc (fun c => c <| load_finished_ ::= <[part := false]> |>) ;;;
  when coalloc
    (check (negb (has part (map_versions_ c))) "map_versions_.find == end" ;;;
     mod_pc (fun c => c <| map_versions_ ::= <[part := md_map_version data]> |>
                        <| num_local_map_part_ ::= fun n => n + 1 |>)) ;;;
  check (negb (has part (update_versions_ c))) "update_versions_.find == end" ;;;
  check (negb (has part (pending_updates_ c))) "pending_updates_.find == end" ;;;
  check (negb (has part (waiting_updates_ c))) "waiting_updates_.find == end" ;;;
  check (negb (has part (update_tracker_ c))) "update_tracker_.find == end" ;;;
  mod_pc (fun c => c <| update_versions_ ::= <[part := md_update_version data]> |>
                     <| pending_updates_ ::= <[part := md_pending_updates data]> |>
                     <| waiting_updates_ ::= <[part := md_waiting_updates data]> |>
                     <| update_tracker_ ::= <[part := md_update_tracker data]> |>
                     <| num_local_update_part_ ::= fun n => n + 1 |>) ;;;
  for_each (lookup_or [] part (buffered_requests_ c)) (fun req =>
    check (vs_part_id (vj_meta req) =? part) "request.meta.part_id == partition_id" ;;;
    requeue req) ;;;
  mod_pc (fun c => c <| buffered_requests_ ::= <[part := []]> |>) ;;;
  create <-- get_fn (fn_CreatePart (mm_collection_id mm)) "create_part_.find(id) != end" ;;
  h <-- on_pm (pm_Has (mm_collection_id mm) part) ;;
  check (negb h) "!partition_manager->Has(collection_id, partition_id)" ;;;
  on_pm (pm_Insert (mm_collection_id mm) part (create bin2)) ;;;
  when coalloc TryRunSomeMaps ;;;
  TryRunWaitingJoins part ;;;
  emit (ToScheduler {| c_flag := CfFinishMigrate; c_version := -1; c_node_id := -1;
                       c_plan_id := plan_id_ c; c_part_id := part |}).

Definition FinishLoadWith (submeta : Z * Z * Z) : NM unit :=
  mod_pc (fun c => c <| load_finished_ ::= <[submeta.2 := true]> |>).

(** ** Speculative maps and reassigned maps *)

Definition MigratePartitionStartMigrateMapOnly (mm : MigrateMeta) : NM unit :=
  c <-- gets pc ;;
  let part := mm_partition_id mm in
  check (mm_collection_id mm =? map_collection_id_ c) "collection_id == map_collection_id_" ;;;
  check (negb (mm_collection_id mm =? update_collection_id_ c)) "collection_id != update_collection_id_" ;;;
  check (has part (map_versions_ c)) "map_versions_.find != end" ;;;
  check (negb (has part (stop_updateing_partitions_ c))) "stop_updateing_partitions_.find == end" ;;;
  mod_pc (fun c => c <| stop_updateing_partitions_ ::= <[part := true]> |>) ;;;
  let map_version := lookup_or 0 part (map_versions_ c) in
  h <-- on_pm (pm_Has (mm_collection_id mm) part) ;;
  check h "partition_manager->Has(collection_id, partition_id)" ;;;
  p <-- on_pm (pm_Get (mm_collection_id mm) part) ;;
  emit (Send (GetControllerActorQid (mm_to_id mm)) (plan_id_ c)
          (kMigratePartition (mm <| mm_flag := kReceiveMapOnly |>)
             (MBMap map_version (part_ToBin p)))).

Definition MigratePartitionReceiveMapOnly (mm : MigrateMeta) (map_version : Z) (bin2 : BinStream) : NM unit :=
  create <-- get_fn (fn_CreatePart (mm_collection_id mm)) "create_part_.find(id) != end" ;;
  RunMap (mm_partition_id mm) map_version (create bin2).

Definition MigratePartition (mm : MigrateMeta) (body : migrate_body) : NM unit :=
  match mm_flag mm, body with
  | kStartMigrate, MBView view =>
      modify (fun s => s <| cmap ::= cmap_Insert view |>) ;;;
      MigratePartitionStartMigrate mm
  | kFlushAll, _ => MigratePartitionReceiveFlushAll mm
  | kDest, MBData data part => MigratePartitionDest mm data part
  | kStartMigrateMapOnly, _ => MigratePartitionStartMigrateMapOnly mm
  | kReceiveMapOnly, MBMap v part => MigratePartitionReceiveMapOnly mm v part
  | _, _ => throw (Undefined "message body")
  end.

Definition ReassignMap (reassignments : list (Z * Z * Z)) : NM unit :=
  for_each reassignments (fun t =>
    let '(to_id, part_id, version) := t in
    s <-- get ;;
    when (to_id =? my_id s)
      (h <-- on_pm (pm_Has (map_collection_id_ (pc s)) part_id) ;;
       check h "partition_manager->Has(map_collection_id_, part_id)" ;;;
       check (negb (has part_id (map_versions_ (pc s)))) "map_versions_.find == end" ;;;
       mod_pc (fun c => c <| map_versions_ ::= <[part_id := version]> |>
                          <| num_local_map_part_ ::= fun n => n + 1 |>))) ;;;
  c <-- gets pc ;;
  n <-- on_pm (pm_GetNumLocalParts (map_collection_id_ c)) ;;
  check (num_local_map_part_ c =? n) "num_local_map_part_ == GetNumLocalParts(map_collection_id_)" ;;;
  TryRunSomeMaps.

(** ** Controller::Process, from the switch on *)

Definition Process (m : ctrl_msg) : NM unit :=
  match m with
  | kSetup spec => Setup spec
  | kStart => StartPlan
  | kFinishMap p u => FinishMap p u
  | kFinishJoin p v us => FinishJoin p v us
  | kUpdateVersion v => UpdateVersion v
  | kReceiveJoin m => ReceiveJoin m
  | kFetchRequest fm bin s r => ReceiveFetchRequest fm bin s r
  | kFinishFetch p u => FinishFetch p u
  | kFinishCheckpoint p => FinishCheckpoint p
  | kMigratePartition mm body => MigratePartition mm body
  | kFinishLoadWith t => FinishLoadWith t
  | kReassignMap l => ReassignMap l
  | kTerminatePlan => ret tt   (* handled by the controller *)
  end.

(** ** The delayed combiner *)

Definition PrepareMsgAndSend (part_id version : Z) (ups : list Z) (stream : Stream) : NM unit :=
  let bin := stream_Serialize stream in
  s <-- get ;;
  node <-- cmap_Lookup (update_collection_id_ (pc s)) part_id (cmap s) ;;
  let recver := GetControllerActorQid node in
  let meta := {| vs_plan_id := plan_id_ (pc s); vs_collection_id := update_collection_id_ (pc s);
                 vs_part_id := part_id; vs_upstream_part_id := -1; vs_version := version;
                 vs_is_fetch := false; vs_sender := -1; vs_recver := -1;
                 vs_local_mode := (recver =? Qid s); vs_ext_upstream_part_ids := ups |} in
  if recver =? Qid s then
    on_streams (ss_Insert (part_id, ups, version) stream) ;;;
    emit (Push (kReceiveJoin {| vj_meta := meta; vj_bin := empty_stream |}))
  else
    emit (Send recver (plan_id_ (pc s)) (kReceiveJoin {| vj_meta := meta; vj_bin := bin |})).

Definition AddStream (upstream version part_id : Z) (stream : Stream) : NM unit :=
  c <-- gets pc ;;
  if combine_timeout_ c <? 0 then PrepareMsgAndSend part_id version [upstream] stream
  else if combine_timeout_ c =? 0 then
    emit (Submit (TCombine part_id version [(upstream, stream)]))
  else
    cell <-- deref (store_ c !! Z.to_nat part_id) "store_[part_id]" ;;
    let v := lookup_or [] version cell ++ [(upstream, stream)] in
    if Z.of_nat (length v) =? num_local_map_part_ c then
      emit (Submit (TCombine part_id version v)) ;;;
      mod_pc (fun c => c <| store_ ::= <[Z.to_nat part_id := delete version cell]> |>)
    else mod_pc (fun c => c <| store_ ::= <[Z.to_nat part_id := <[version := v]> cell]> |>).

Definition AddMapOutput (upstream version : Z) (map_output : list Stream) : NM unit :=
  c <-- gets pc ;;
  check (Z.of_nat (length map_output) =? num_update_part_ c) "buffer_size == num_update_part_" ;;;
  for_each (zip (seqZ 0 (Z.of_nat (length map_output))) map_output) (fun ps =>
    c <-- gets pc ;;
    check (ps.1 <? Z.of_nat (length (store_ c))) "part_id < store_.size()" ;;;
    AddStream upstream version ps.1 ps.2).

(** One round of [PeriodicCombine]. *)
Definition PeriodicCombine : NM unit :=
  c <-- gets pc ;;
  for_each (zip (seqZ 0 (Z.of_nat (length (store_ c)))) (store_ c)) (fun pv =>
    for_each (entries pv.2) (fun vs =>
      when (negb (bool_decide (vs.2 = []))) (emit (Submit (TCombine pv.1 vs.1 vs.2)))) ;;;
    mod_pc (fun c => c <| store_ ::= <[Z.to_nat pv.1 := ∅]> |>)).

(** [CombineSerializeSend]; also the task submitted with [combine_timeout_ == 0], whose list has
    one element. *)
Definition run_combine (part_id version : Z) (v : list (Z * Stream)) : NM unit :=
  check (0 <? Z.of_nat (length v)) "v.size() > 0" ;;;
  match v with
  | [] => throw (Undefined "v[0]")
  | (_, first) :: rest =>
      let first := foldl (fun acc us => stream_DoAppend acc us.2) first rest in
      PrepareMsgAndSend part_id version v.*1 (stream_DoCombine first)
  end.

(** ** The bodies of the executor tasks *)

(** RunMap's task, up to the second check of [stop_updateing_partitions_]. *)
Definition run_map (part_id version : Z) (p : P) : NM unit :=
  c <-- gets pc ;;
  if has part_id (stop_updateing_partitions_ c) then emit (Push (kFinishMap part_id false)) else
  output <--
    match type_ c with
    | TMapJoin => f <-- get_fn (fn_Map (GetRealId (plan_id_ c))) "maps_.find(id) != end" ;; ret (f p)
    | TMapWithJoin =>
        f <-- get_fn (fn_MapWith (GetRealId (plan_id_ c))) "mapwiths_.find(id) != end" ;;
        ret (f (plan_id_ c) version p)
    | _ => throw (CheckFailed "false")
    end ;;
  emit (Submit (TMapped part_id version output)).
Definition run_mapped (part_id version : Z) (output : list Stream) : NM unit :=
  c <-- gets pc ;;
  if has part_id (stop_updateing_partitions_ c) then emit (Push (kFinishMap part_id false)) else
  AddMapOutput part_id version output ;;;
  emit (Push (kFinishMap part_id true)).

Definition join_ids (m : VersionedShuffleMeta) : list Z :=
  match vs_ext_upstream_part_ids m with
  | [] => [vs_upstream_part_id m]
  | _ => vs_ext_upstream_part_ids m
  end.

Definition run_join (meta : VersionedJoinMeta) : NM unit :=
  let m := vj_meta meta in
  c <-- gets pc ;;
  upd <--
    (if vs_local_mode m then
       stream <-- on_streams (ss_Get (stream_key_of m)) ;;
       on_streams (ss_Remove (stream_key_of m)) ;;;
       f <-- get_fn (fn_Join2 (GetRealId (plan_id_ c))) "updates2_.find(id) != end" ;;
       ret (fun p => f p stream)
     else
       f <-- get_fn (fn_Join (GetRealId (plan_id_ c))) "updates_.find(id) != end" ;;
       ret (fun p => f p (vj_bin meta))) ;;
  h <-- on_pm (pm_Has (update_collection_id_ c) (vs_part_id m)) ;;
  check h "partition_manager->Has(update_collection_id_, part_id)" ;;;
  p <-- on_pm (pm_Get (update_collection_id_ c) (vs_part_id m)) ;;
  (* the partition is updated in place *)
  on_pm (pm_Insert (update_collection_id_ c) (vs_part_id m) (upd p)) ;;;
  emit (Push (kFinishJoin (vs_part_id m) (vs_version m) (join_ids m))).

Definition run_fetch (fetch_meta : VersionedJoinMeta) (version : Z) : NM unit :=
  let m := vj_meta fetch_meta in
  c <-- gets pc ;;
  h <-- on_pm (pm_Has (vs_collection_id m) (vs_part_id m)) ;;
  check h "partition_manager->Has(collection_id, part_id)" ;;;
  p <-- on_pm (pm_Get (vs_collection_id m) (vs_part_id m)) ;;
  reply <--
    (if vs_version m =? -1 then
       f <-- get_fn (fn_Getter (vs_collection_id m)) "getter_.find(id) != end" ;;
       let '(bin, p') := f (vj_bin fetch_meta) p in
       on_pm (pm_Insert (vs_collection_id m) (vs_part_id m) p') ;;; ret bin
     else ret (part_ToBin p)) ;;
  emit (Reply (vs_sender m) (if vs_version m =? -1 then kFetchObjsReply else kFetchPartReplyRemote)
          {| fm_plan_id := plan_id_ c; fm_upstream_part_id := vs_upstream_part_id m;
             fm_collection_id := vs_collection_id m; fm_partition_id := vs_part_id m;
             fm_version := version; fm_local_mode := false |} (Some reply)) ;;;
  emit (Push (kFinishFetch (vs_part_id m) (vs_upstream_part_id m))).

Definition run_checkpoint (part_id : Z) (dest_url : string) : NM unit :=
  c <-- gets pc ;;
  h <-- on_pm (pm_Has (update_collection_id_ c) part_id) ;;
  check h "partition_manager->Has(update_collection_id_, part_id)" ;;;
  p <-- on_pm (pm_Get (update_collection_id_ c) part_id) ;;
  emit (WriteFile dest_url (part_ToBin p)) ;;;
  emit (Push (kFinishCheckpoint part_id)).

Definition run_task (t : task) : NM unit :=
  match t with
  | TMap p v x => run_map p v x
  | TMapped p v o => run_mapped p v o
  | TJoin m => run_join m
  | TFetch m v => run_fetch m v
  | TCheckpoint p url => run_checkpoint p url
  | TCombine p v l => run_combine p v l
  end.
End PlanController.
Arguments PC : clear implicits.
Arguments NodeSt : clear implicits.
Arguments task : clear implicits.
Arguments out : clear implicits.
