(* ===== verification/PlanFrame.v ===== *)
(** * Tracking what a handler does

    The handlers of the plan controller and the tasks of the executors are long
    computations that mostly leave alone what a given invariant speaks about.  A tracked
    relation relates the state before, the outputs and the state after; when it is reflexive
    and transitive it is enough to prove it for the steps that matter.  The lemmas here are
    the rules for every construct the handlers are written with, and [track_step] applies
    them. *)

From S2P Require Import Prelude BinStream Specs Index Messages Partition PlanController.

Section Frame.
Context {P Stream : Type} `{UserCode P Stream} `{IterOrder}.
Abbreviation NodeS := (NodeSt P Stream).
Abbreviation outs := (list (out P Stream)).
Abbreviation Comp := (M NodeS (out P Stream)).

Class Tracking (R : NodeS -> outs -> NodeS -> Prop) := {
  track_refl : forall s, R s [] s;
  track_trans : forall s1 s2 s3 os os', R s1 os s2 -> R s2 os' s3 -> R s1 (os ++ os') s3 }.

Definition tracks (R : NodeS -> outs -> NodeS -> Prop) {A} (m : Comp A) : Prop :=
  forall s, wp any m s (fun _ s' os => R s os s').

Lemma tracks_Ok R {A} (m : Comp A) s a s' os : tracks R m -> m s = Ok (a, s', os) -> R s os s'.
Proof. intros Hm Hr. exact (wp_Ok any _ _ _ _ _ (fun _ s' os => R s os s') Hr (Hm s)). Qed.

Section rules.
Context (R : NodeS -> outs -> NodeS -> Prop) `{!Tracking R}.

Lemma tracks_bind {A B} (m : Comp A) (k : A -> Comp B) :
  tracks R m -> (forall a, tracks R (k a)) -> tracks R (bind m k).
Proof.
  intros Hm Hk s. wstep. eapply wp_mono; [apply Hm|]. intros a s1 o1 H1.
  eapply wp_mono; [apply Hk|]. intros b s2 o2 H2. exact (track_trans _ _ _ _ _ H1 H2).
Qed.
Lemma tracks_ret {A} (a : A) : tracks R (ret a).
Proof. intros s. wstep. apply track_refl. Qed.
Lemma tracks_gets {A} (f : NodeS -> A) : tracks R (gets f).
Proof. intros s. wstep. apply track_refl. Qed.
Lemma tracks_get : tracks R get.
Proof. intros s. wstep. apply track_refl. Qed.
Lemma tracks_check b w : tracks R (check b w).
Proof. intros s. wstep. apply track_refl. Qed.
Lemma tracks_deref {A} (o : option A) w : tracks R (deref o w).
Proof. intros s. wstep. apply track_refl. Qed.
Lemma tracks_get_fn {A} (o : option A) w : tracks R (get_fn o w).
Proof. intros s. unfold get_fn. destruct o; wstep; [apply track_refl|done]. Qed.
Lemma tracks_throw {A} e : tracks R (throw (A := A) e).
Proof. intros s. by wstep. Qed.
Lemma tracks_emit o : (forall s, R s [o] s) -> tracks R (emit o).
Proof. intros Ho s. wstep. apply Ho. Qed.
Lemma tracks_mod f : (forall s, R s [] (s <| pc ::= f |>)) -> tracks R (mod_pc f).
Proof. intros Hf s. unfold mod_pc. wstep. apply Hf. Qed.
Lemma tracks_when b m : tracks R m -> tracks R (when b m).
Proof. intros Hm s. wstep; [apply Hm|]. apply track_refl. Qed.
Lemma tracks_for_each {A} (l : list A) body :
  (forall x, x ∈ l -> tracks R (body x)) -> tracks R (for_each l body).
Proof.
  induction l as [|x l IH]; intros Hb; cbn; [apply tracks_ret|].
  apply tracks_bind; [apply Hb; set_solver|]. intros _. apply IH. set_solver.
Qed.
Lemma tracks_on_pm {A} (m : M (PartitionManager P) Empty_set A) :
  (forall s, wp any m (pm s) (fun _ q _ => R s [] (s <| pm := q |>))) -> tracks R (on_pm m).
Proof.
  intros Hm s. apply zoom_wp. eapply wp_mono; [apply Hm|]. intros a q [|[]] HR. exact HR.
Qed.
Lemma tracks_on_streams {A} (m : M (MapOutputStreamStore Stream) Empty_set A) :
  (forall s x, R s [] (s <| pc ::= fun c => c <| stream_store := x |> |>)) -> tracks R (on_streams m).
Proof.
  intros Hm s. apply zoom_wp. unfold wp.
  destruct (m (stream_store (pc s))) as [[[a q] [|[]]]|e]; [|done]. apply Hm.
Qed.
End rules.
End Frame.

Create HintDb track_db.
(** [skip] closes the side condition of a step that the relation does not see. *)
Ltac track_step_with skip :=
  lazymatch goal with
  | |- tracks _ (ret _) => apply tracks_ret; apply _
  | |- tracks _ (gets _) => apply tracks_gets; apply _
  | |- tracks _ (pcs _) => apply tracks_gets; apply _
  | |- tracks _ get => apply tracks_get; apply _
  | |- tracks _ (check _ _) => apply tracks_check; apply _
  | |- tracks _ (deref _ _) => apply tracks_deref; apply _
  | |- tracks _ (get_fn _ _) => apply tracks_get_fn; apply _
  | |- tracks _ (throw _) => apply tracks_throw; apply _
  | |- tracks _ (on_pm _) => first [solve [eauto with track_db] | apply tracks_on_pm; solve [apply _ | skip]]
  | |- tracks _ (on_streams _) => apply tracks_on_streams; solve [apply _ | skip]
  | |- tracks _ (emit _) => first [solve [eauto with track_db] | apply tracks_emit; solve [apply _ | skip]]
  | |- tracks _ (mod_pc _) => first [solve [eauto with track_db] | apply tracks_mod; solve [apply _ | skip]]
  | |- tracks _ (when _ _) => apply tracks_when; [apply _|]
  | |- tracks _ (for_each _ _) => apply tracks_for_each; [apply _|intros ? ?]
  | |- tracks _ (bind _ _) => apply tracks_bind; [apply _| |intros]
  | |- tracks _ (if ?b then _ else _) => destruct b eqn:?
  | |- tracks _ (match ?x with _ => _ end) => destruct x eqn:?
  | |- tracks _ _ => solve [eauto with track_db]
  end.
