(* ===== verification/PlanExclusion.v ===== *)
(** * Mutual exclusion on partitions

    A node runs the plan controller's handlers, one message of its queue at a time, while
    the executors run tasks in any order.  The file defines this transition system and
    proves that a task that updates a partition is never pending or running together with
    another task on the same partition: another update, a checkpoint, a map when the map
    collection is the update collection, or a fetch when the fetched collection is.  The
    argument counts tokens: a map, update or fetch in progress is exactly one task, one
    finish message in the queue, or one access granted to the local fetcher. *)

From S2P Require Import Prelude BinStream Specs Index Messages Partition PlanController.

(** ** Tokens *)

Inductive tok := TokMap (p : Z) | TokUpd (p : Z) | TokFetch (p : Z).
#[export] Instance tok_eq_dec : EqDecision tok.
Proof. solve_decision. Defined.

Section Exclusion.
Context {P Stream : Type} `{UserCode P Stream} `{IterOrder}.
Abbreviation NodeS := (NodeSt P Stream).
Abbreviation outs := (list (out P Stream)).

Definition msg_toks (m : ctrl_msg) : list tok :=
  match m with
  | kFinishMap p _ => [TokMap p]
  | kFinishJoin p _ _ => [TokUpd p]
  | kFinishCheckpoint p => [TokUpd p]
  | kFinishFetch p _ => [TokFetch p]
  | _ => []
  end.
Definition task_toks (t : task P Stream) : list tok :=
  match t with
  | TMap p _ _ => [TokMap p]
  | TMapped p _ _ => [TokMap p]
  | TJoin m => [TokUpd (vs_part_id (vj_meta m))]
  | TCheckpoint p _ => [TokUpd p]
  | TFetch m _ => [TokFetch (vs_part_id (vj_meta m))]
  | TCombine _ _ _ => []
  end.
Definition out_toks (o : out P Stream) : list tok :=
  match o with
  | Submit t => task_toks t
  | Push m => msg_toks m
  | PushLater m => msg_toks m
  | Reply _ kFetchPartReplyLocal fm _ => [TokFetch (fm_partition_id fm)]
  | _ => []
  end.
Definition otoks (os : outs) : list tok := os ≫= out_toks.

Lemma otoks_app os os' : otoks (os ++ os') = otoks os ++ otoks os'.
Proof. apply bind_app. Qed.

(** ** The invariant *)

Definition keyed (w : gmap Z (list VersionedJoinMeta)) : Prop :=
  forall k l m, w !! k = Some l -> m ∈ l -> vs_part_id (vj_meta m) = k.
Definition keyed2 (w : gmap Z (gmap Z (list VersionedJoinMeta))) : Prop :=
  forall k i v l m, w !! k = Some i -> i !! v = Some l -> m ∈ l -> vs_part_id (vj_meta m) = k.

Definition exclusive (mc uc fc : Z) (rm : gset Z) (ru rf : gmap Z Z) : Prop :=
  forall p, is_Some (ru !! p) -> (mc = uc -> p ∉ rm) /\ (fc = uc -> lookup_or 0 p rf = 0).

Definition invC (ts : list tok) (mc uc fc : Z) (rm : gset Z) (ru rf : gmap Z Z)
    (w : gmap Z (list VersionedJoinMeta)) (pd : gmap Z (gmap Z (list VersionedJoinMeta)))
    (bf : gmap Z (list VersionedJoinMeta)) : Prop :=
  (forall p, cnt (TokMap p) ts = if decide (p ∈ rm) then 1 else 0) /\
  (forall p, cnt (TokUpd p) ts = if decide (is_Some (ru !! p)) then 1 else 0) /\
  (forall p, cnt (TokFetch p) ts = lookup_or 0 p rf) /\
  exclusive mc uc fc rm ru rf /\ keyed w /\ keyed2 pd /\ keyed bf.

Definition inv (ts : list tok) (s : NodeS) : Prop :=
  let c := pc s in
  invC ts (map_collection_id_ c) (update_collection_id_ c) (fetch_collection_id_ c)
    (running_maps_ c) (running_updates_ c) (running_fetches_ c)
    (waiting_updates_ c) (pending_updates_ c) (buffered_requests_ c).

(** No task may start on [p] unless nothing else works on it. *)
Definition free (p : Z) (s : NodeS) : Prop :=
  let c := pc s in
  running_updates_ c !! p = None /\
  (map_collection_id_ c = update_collection_id_ c -> p ∉ running_maps_ c) /\
  (fetch_collection_id_ c = update_collection_id_ c -> lookup_or 0 p (running_fetches_ c) = 0).

Lemma inv_perm ts ts' s : ts ≡ₚ ts' -> inv ts s -> inv ts' s.
Proof.
  intros Hp (Hm & Hu & Hf & Hx). refine (conj _ (conj _ (conj _ Hx)));
    intros p; rewrite <- (cnt_perm _ _ _ Hp); auto.
Qed.

Definition keeps {A} (m : M NodeS (out P Stream) A) : Prop :=
  forall ts s, inv ts s -> wp any m s (fun _ s' os => inv (ts ++ otoks os) s').

Lemma keeps_ret {A} (a : A) : keeps (ret a).
Proof. intros ts s Hs. wstep. cbn. by rewrite app_nil_r. Qed.

Lemma wp_keeps {A} (m : M NodeS (out P Stream) A) ts s (Q : A -> NodeS -> outs -> Prop) :
  keeps m -> inv ts s -> (forall a s' os, inv (ts ++ otoks os) s' -> Q a s' os) -> wp any m s Q.
Proof. intros Hm Hs HQ. eapply wp_mono; [by apply Hm|]. auto. Qed.

Lemma keeps_bind {A B} (m : M NodeS (out P Stream) A) (k : A -> M NodeS (out P Stream) B) :
  keeps m -> (forall a, keeps (k a)) -> keeps (bind m k).
Proof.
  intros Hm Hk ts s Hs. wstep. eapply wp_keeps; [done..|]. intros a s1 o1 H1.
  eapply wp_keeps; [apply Hk|done|]. intros b s2 o2. by rewrite otoks_app, app_assoc.
Qed.

(** A step that leaves the fields of the invariant alone and emits no token. *)
Lemma keeps_skip {A} (m : M NodeS (out P Stream) A) :
  (forall s, wp any m s (fun _ s' os => otoks os = [] /\ forall ts, inv ts s -> inv ts s')) -> keeps m.
Proof.
  intros Hm ts s Hs. eapply wp_mono; [apply Hm|]. intros a s' os [-> Hi].
  rewrite app_nil_r. auto.
Qed.
Lemma keeps_mod f : (forall ts s, inv ts s -> inv ts (s <| pc ::= f |>)) -> keeps (mod_pc f).
Proof. intros Hf. apply keeps_skip. intros s. unfold mod_pc. wstep. auto. Qed.
Lemma keeps_gets {A} (f : NodeS -> A) : keeps (gets f).
Proof. apply keeps_skip. intros s. by wstep. Qed.
Lemma keeps_get : keeps get.
Proof. apply keeps_skip. intros s. by wstep. Qed.
Lemma keeps_check b w : keeps (check b w).
Proof. apply keeps_skip. intros s. by wstep. Qed.
Lemma keeps_deref {A} (o : option A) w : keeps (deref o w).
Proof. apply keeps_skip. intros s. by wstep. Qed.
Lemma keeps_get_fn {A} (o : option A) w : keeps (get_fn o w).
Proof. apply keeps_skip. intros s. unfold get_fn. destruct o; by wstep. Qed.
Lemma keeps_throw {A} e : keeps (throw (A := A) e).
Proof. intros ts s _. by wstep. Qed.
Lemma keeps_emit o : out_toks o = [] -> keeps (emit o).
Proof. intros Ho. apply keeps_skip. intros s. wstep. cbn. by rewrite Ho. Qed.
Lemma keeps_when b m : keeps m -> keeps (when b m).
Proof. intros Hm ts s Hs. wstep; [by apply Hm|]. cbn. by rewrite app_nil_r. Qed.
Lemma keeps_if {A} (b : bool) (m1 m2 : M NodeS (out P Stream) A) :
  keeps m1 -> keeps m2 -> keeps (if b then m1 else m2).
Proof. by destruct b. Qed.
Lemma keeps_for_each {A} (l : list A) body : (forall x, x ∈ l -> keeps (body x)) -> keeps (for_each l body).
Proof.
  induction l as [|x l IH]; intros Hb; cbn; [apply keeps_ret|].
  apply keeps_bind; [apply Hb; set_solver|]. intros _. apply IH. set_solver.
Qed.

Lemma wp_on_pm {A} (m : M (PartitionManager P) Empty_set A) s (Q : A -> NodeS -> outs -> Prop) :
  (forall a q, Q a (s <| pm := q |>) []) -> wp any (on_pm m) s Q.
Proof.
  intros HQ. apply zoom_wp. unfold wp. destruct (m (pm s)) as [[[a q] os]|e]; [|done].
  destruct os as [|[]]. apply HQ.
Qed.
Lemma keeps_on_pm {A} (m : M (PartitionManager P) Empty_set A) : keeps (on_pm m).
Proof. apply keeps_skip. intros s. apply wp_on_pm. by intros. Qed.
Lemma keeps_on_streams {A} (m : M (MapOutputStreamStore Stream) Empty_set A) : keeps (on_streams m).
Proof.
  apply keeps_skip. intros s. apply zoom_wp. unfold wp.
  destruct (m (stream_store (pc s))) as [[[a q] os]|e]; [|done]. by destruct os as [|[]].
Qed.

(** ** Starting and ending work on a partition *)

Section transitions.
Context {mc uc fc : Z} {rm : gset Z} {ru rf : gmap Z Z}
  {w : gmap Z (list VersionedJoinMeta)} {pd : gmap Z (gmap Z (list VersionedJoinMeta))}
  {bf : gmap Z (list VersionedJoinMeta)}.

Lemma start_map ts p :
  invC ts mc uc fc rm ru rf w pd bf -> p ∉ rm -> (mc = uc -> ru !! p = None) ->
  invC (ts ++ [TokMap p]) mc uc fc ({[p]} ∪ rm) ru rf w pd bf.
Proof.
  intros (Hm & Hu & Hf & Hx & Hk) Hp Hru. refine (conj _ (conj _ (conj _ (conj _ Hk)))).
  - intros q. rewrite cnt_app, cnt_cons, cnt_nil, Hm.
    destruct (decide (TokMap p = TokMap q)) as [[= ->]|Hne].
    + rewrite decide_False, decide_True by set_solver. lia.
    + assert (p <> q) by congruence.
      destruct (decide (q ∈ rm)); [rewrite decide_True by set_solver|rewrite decide_False by set_solver]; lia.
  - intros q. rewrite cnt_app, cnt_cons, decide_False, cnt_nil, Hu by done. lia.
  - intros q. rewrite cnt_app, cnt_cons, decide_False, cnt_nil, Hf by done. lia.
  - intros q Hq. destruct (Hx q Hq) as [H1 H2]. split; [|done]. intros E.
    specialize (H1 E). specialize (Hru E). intros [->%elem_of_singleton|?]%elem_of_union; [|done].
    destruct Hq as [? Hq]. congruence.
Qed.

Lemma start_upd ts p u :
  invC ts mc uc fc rm ru rf w pd bf -> ru !! p = None ->
  (mc = uc -> p ∉ rm) -> (fc = uc -> lookup_or 0 p rf = 0) ->
  invC (ts ++ [TokUpd p]) mc uc fc rm (<[p := u]> ru) rf w pd bf.
Proof.
  intros (Hm & Hu & Hf & Hx & Hk) Hp Hrm Hrf. refine (conj _ (conj _ (conj _ (conj _ Hk)))).
  - intros q. rewrite cnt_app, cnt_cons, decide_False, cnt_nil, Hm by done. lia.
  - intros q. rewrite cnt_app, cnt_cons, cnt_nil, Hu.
    destruct (decide (TokUpd p = TokUpd q)) as [[= ->]|Hne].
    + rewrite Hp, lookup_insert_eq. rewrite decide_False by (intros [? [=]]).
      rewrite decide_True by eauto. lia.
    + rewrite lookup_insert_ne by congruence. lia.
  - intros q. rewrite cnt_app, cnt_cons, decide_False, cnt_nil, Hf by done. lia.
  - intros q Hq. destruct (decide (p = q)) as [->|Hne]; [done|].
    rewrite lookup_insert_ne in Hq by done. by apply Hx.
Qed.

Lemma start_fetch ts p :
  invC ts mc uc fc rm ru rf w pd bf -> (fc = uc -> ru !! p = None) ->
  invC (ts ++ [TokFetch p]) mc uc fc rm ru (<[p := lookup_or 0 p rf + 1]> rf) w pd bf.
Proof.
  intros (Hm & Hu & Hf & Hx & Hk) Hp. refine (conj _ (conj _ (conj _ (conj _ Hk)))).
  - intros q. rewrite cnt_app, cnt_cons, decide_False, cnt_nil, Hm by done. lia.
  - intros q. rewrite cnt_app, cnt_cons, decide_False, cnt_nil, Hu by done. lia.
  - intros q. rewrite cnt_app, cnt_cons, cnt_nil, Hf.
    destruct (decide (TokFetch p = TokFetch q)) as [[= ->]|Hne].
    + rewrite lookup_or_insert. lia.
    + rewrite lookup_or_insert_ne by congruence. lia.
  - intros q Hq. destruct (Hx q Hq) as [H1 H2]. split; [done|]. intros E.
    destruct (decide (p = q)) as [->|Hne].
    + rewrite (Hp E) in Hq. by destruct Hq.
    + rewrite lookup_or_insert_ne by done. auto.
Qed.

Lemma end_map ts p :
  invC (TokMap p :: ts) mc uc fc rm ru rf w pd bf ->
  invC ts mc uc fc (rm ∖ {[p]}) ru rf w pd bf.
Proof.
  intros (Hm & Hu & Hf & Hx & Hk). refine (conj _ (conj _ (conj _ (conj _ Hk)))).
  - intros q. specialize (Hm q). rewrite cnt_cons in Hm. pose proof (cnt_nonneg (TokMap q) ts).
    destruct (decide (TokMap p = TokMap q)) as [[= ->]|Hne].
    + rewrite (decide_False (P := q ∈ rm ∖ {[q]})) by set_solver. case_decide; lia.
    + assert (p <> q) by congruence.
      destruct (decide (q ∈ rm)); [rewrite decide_True by set_solver|rewrite decide_False by set_solver]; lia.
  - intros q. specialize (Hu q). rewrite cnt_cons, decide_False in Hu by done. lia.
  - intros q. specialize (Hf q). rewrite cnt_cons, decide_False in Hf by done. lia.
  - intros q Hq. destruct (Hx q Hq) as [H1 H2]. split; [set_solver|done].
Qed.

Lemma end_upd ts p :
  invC (TokUpd p :: ts) mc uc fc rm ru rf w pd bf ->
  invC ts mc uc fc rm (delete p ru) rf w pd bf /\
  (mc = uc -> p ∉ rm) /\ (fc = uc -> lookup_or 0 p rf = 0).
Proof.
  intros (Hm & Hu & Hf & Hx & Hk). split.
  - refine (conj _ (conj _ (conj _ (conj _ Hk)))).
    + intros q. specialize (Hm q). rewrite cnt_cons, decide_False in Hm by done. lia.
    + intros q. specialize (Hu q). rewrite cnt_cons in Hu. pose proof (cnt_nonneg (TokUpd q) ts).
      destruct (decide (TokUpd p = TokUpd q)) as [[= ->]|Hne].
      * rewrite lookup_delete_eq, (decide_False (P := is_Some None)) by (intros [? [=]]).
        case_decide; lia.
      * rewrite lookup_delete_ne by congruence. lia.
    + intros q. specialize (Hf q). rewrite cnt_cons, decide_False in Hf by done. lia.
    + intros q [x Hq]. apply lookup_delete_Some in Hq as [_ Hq]. apply Hx. eauto.
  - apply Hx. specialize (Hu p). rewrite cnt_cons, decide_True in Hu by done.
    pose proof (cnt_nonneg (TokUpd p) ts). case_decide; [done|lia].
Qed.

Lemma end_fetch ts p :
  invC (TokFetch p :: ts) mc uc fc rm ru rf w pd bf ->
  invC ts mc uc fc rm ru (<[p := lookup_or 0 p rf - 1]> rf) w pd bf.
Proof.
  intros (Hm & Hu & Hf & Hx & Hk). refine (conj _ (conj _ (conj _ (conj _ Hk)))).
  - intros q. specialize (Hm q). rewrite cnt_cons, decide_False in Hm by done. lia.
  - intros q. specialize (Hu q). rewrite cnt_cons, decide_False in Hu by done. lia.
  - intros q. specialize (Hf q). rewrite cnt_cons in Hf.
    destruct (decide (TokFetch p = TokFetch q)) as [[= ->]|Hne].
    + rewrite lookup_or_insert. lia.
    + rewrite lookup_or_insert_ne by congruence. lia.
  - intros q Hq. destruct (Hx q Hq) as [H1 H2]. split; [done|]. intros E.
    destruct (decide (p = q)) as [->|Hne]; [|rewrite lookup_or_insert_ne by done; auto].
    specialize (Hf q). rewrite cnt_cons, decide_True, (H2 E) in Hf by done.
    pose proof (cnt_nonneg (TokFetch q) ts). lia.
Qed.

Lemma touch_fetch ts p :
  invC ts mc uc fc rm ru rf w pd bf -> invC ts mc uc fc rm ru (touch 0 p rf) w pd bf.
Proof.
  intros (Hm & Hu & Hf & Hx & Hk). refine (conj Hm (conj Hu (conj _ (conj _ Hk)))).
  - intros q. by rewrite lookup_or_touch.
  - intros q Hq. rewrite lookup_or_touch. by apply Hx.
Qed.

Lemma queues_change ts w' pd' bf' :
  invC ts mc uc fc rm ru rf w pd bf -> keyed w' -> keyed2 pd' -> keyed bf' ->
  invC ts mc uc fc rm ru rf w' pd' bf'.
Proof. intros (Hm & Hu & Hf & Hx & _) Hw Hp Hb. done. Qed.
End transitions.

(** ** Queues keep their elements under the right partition *)

Lemma keyed_insert w k l : keyed w -> (forall m, m ∈ l -> vs_part_id (vj_meta m) = k) -> keyed (<[k := l]> w).
Proof.
  intros Hw Hl k' l' m Hk Hm. apply lookup_insert_Some in Hk as [[<- <-]|[_ Hk]]; [auto|eauto].
Qed.
Lemma keyed_lookup w k m : keyed w -> m ∈ lookup_or [] k w -> vs_part_id (vj_meta m) = k.
Proof. intros Hw Hm. unfold lookup_or in Hm. destruct (w !! k) eqn:E; [by eapply Hw|set_solver]. Qed.
Lemma keyed_push w k m : keyed w -> vs_part_id (vj_meta m) = k -> keyed (<[k := lookup_or [] k w ++ [m]]> w).
Proof.
  intros Hw Hk. apply keyed_insert; [done|].
  intros m' [Hm| ->%list_elem_of_singleton]%elem_of_app; [by eapply keyed_lookup|done].
Qed.
Lemma keyed_delete w k : keyed w -> keyed (delete k w).
Proof. intros Hw k' l m [_ Hk]%lookup_delete_Some Hm. by eapply Hw. Qed.
Lemma keyed_touch w k : keyed w -> keyed (touch [] k w).
Proof. intros Hw. apply keyed_insert; [done|]. intros m. by apply keyed_lookup. Qed.

Definition inner_keyed (k : Z) (i : gmap Z (list VersionedJoinMeta)) : Prop :=
  forall v l m, i !! v = Some l -> m ∈ l -> vs_part_id (vj_meta m) = k.
Lemma keyed2_insert w k i : keyed2 w -> inner_keyed k i -> keyed2 (<[k := i]> w).
Proof.
  intros Hw Hi k' i' v l m Hk Hv Hm.
  apply lookup_insert_Some in Hk as [[<- <-]|[_ Hk]]; [by eapply Hi|by eapply Hw].
Qed.
Lemma keyed2_lookup w k : keyed2 w -> inner_keyed k (lookup_or ∅ k w).
Proof.
  intros Hw v l m Hv Hm. unfold lookup_or in Hv.
  destruct (w !! k) eqn:E; cbn in Hv; [by eapply Hw|]. by rewrite lookup_empty in Hv.
Qed.
Lemma inner_insert k i v l :
  inner_keyed k i -> (forall m, m ∈ l -> vs_part_id (vj_meta m) = k) -> inner_keyed k (<[v := l]> i).
Proof.
  intros Hi Hl v' l' m Hv Hm. apply lookup_insert_Some in Hv as [[<- <-]|[_ Hv]]; [auto|by eapply Hi].
Qed.
Lemma inner_lookup k i v m : inner_keyed k i -> m ∈ lookup_or [] v i -> vs_part_id (vj_meta m) = k.
Proof. intros Hi Hm. unfold lookup_or in Hm. destruct (i !! v) eqn:E; [by eapply Hi|set_solver]. Qed.
Lemma inner_delete k i v : inner_keyed k i -> inner_keyed k (delete v i).
Proof. intros Hi v' l m [_ Hv]%lookup_delete_Some Hm. by eapply Hi. Qed.
Lemma keyed2_delete w k : keyed2 w -> keyed2 (delete k w).
Proof. intros Hw k' i v l m [_ Hk]%lookup_delete_Some Hm. by eapply Hw. Qed.
Lemma keyed2_push w k v m : keyed2 w -> vs_part_id (vj_meta m) = k ->
  keyed2 (<[k := <[v := lookup_or [] v (lookup_or ∅ k w) ++ [m]]> (lookup_or ∅ k w)]> w).
Proof.
  intros Hw Hk. apply keyed2_insert; [done|]. apply inner_insert; [by apply keyed2_lookup|].
  intros m' [Hm| ->%list_elem_of_singleton]%elem_of_app; [|done].
  eapply inner_lookup; [by apply keyed2_lookup|done].
Qed.

(** ** The handlers *)

Ltac keeps_step :=
  lazymatch goal with
  | |- keeps (ret _) => apply keeps_ret
  | |- keeps (gets _) => apply keeps_gets
  | |- keeps (pcs _) => apply keeps_gets
  | |- keeps get => apply keeps_get
  | |- keeps (check _ _) => apply keeps_check
  | |- keeps (deref _ _) => apply keeps_deref
  | |- keeps (get_fn _ _) => apply keeps_get_fn
  | |- keeps (throw _) => apply keeps_throw
  | |- keeps (on_pm _) => apply keeps_on_pm
  | |- keeps (on_streams _) => apply keeps_on_streams
  | |- keeps (emit _) => apply keeps_emit; reflexivity
  | |- keeps (when _ _) => apply keeps_when
  | |- keeps (for_each _ _) => apply keeps_for_each; intros ? _
  | |- keeps (bind _ _) => apply keeps_bind; [|intros]
  | |- keeps (if _ then _ else _) => apply keeps_if
  | |- keeps (match ?x with _ => _ end) => destruct x
  | |- keeps (mod_pc _) => apply keeps_mod; intros ts0 s0 Hs0; exact Hs0
  | |- keeps _ => solve [eauto with keeps_db]
  end.
Ltac solve_keeps := repeat keeps_step.

(** After symbolic execution the emitted tokens are concrete. *)
Ltac toks := unfold otoks; cbn; rewrite ?app_nil_r.

Create HintDb keeps_db.
Lemma keeps_ReportFinishPart flag p v : keeps (ReportFinishPart flag p v).
Proof. unfold ReportFinishPart. solve_keeps. Qed.
Hint Resolve keeps_ReportFinishPart : keeps_db.

Lemma IsMapRunnable_spec p ts s (Q : bool -> NodeS -> outs -> Prop) :
  inv ts s ->
  (forall b s', inv ts s' ->
     (b = true -> map_collection_id_ (pc s') = update_collection_id_ (pc s') ->
                  running_updates_ (pc s') !! p = None) -> Q b s' []) ->
  wp any (IsMapRunnable p) s Q.
Proof.
  intros Hs HQ. unfold IsMapRunnable, mod_pc. wstep. wstep. wstep; [wstep; by apply HQ|].
  wstep; [wstep; by apply HQ|]. wstep; [wstep; by apply HQ|]. wstep. wstep.
  wstep; [wstep; by apply HQ|]. wstep. apply HQ; [exact Hs|]. cbn. intros _ E.
  rewrite E, Z.eqb_refl in Hif0. cbn in Hif0. unfold has in Hif0.
  apply bool_decide_eq_false in Hif0. by apply eq_None_not_Some.
Qed.

Lemma RunMap_spec p v x ts s :
  inv ts s ->
  (map_collection_id_ (pc s) = update_collection_id_ (pc s) -> running_updates_ (pc s) !! p = None) ->
  wp any (RunMap p v x) s (fun _ s' os => inv (ts ++ otoks os) s').
Proof.
  intros Hs Hg. unfold RunMap, pcs, mod_pc. wsteps. apply bool_decide_eq_true in Hck.
  toks. by apply start_map.
Qed.

Lemma keeps_TryRunSomeMaps : keeps TryRunSomeMaps.
Proof.
  unfold TryRunSomeMaps. apply keeps_bind; [apply keeps_gets|]. intros c. apply keeps_if; [apply keeps_ret|].
  apply keeps_for_each. intros [p v] _ ts s Hs. wstep. eapply IsMapRunnable_spec; [exact Hs|].
  intros b s1 Hs1 Hg. destruct b; [|apply wp_when; [done|]; intros _; by toks].
  apply wp_when; [intros _|done]. wstep. apply wp_on_pm. intros h q. wstep. wstep. wstep.
  apply wp_on_pm. intros x q'. eapply wp_mono; [apply (RunMap_spec p v x ts)|].
  - exact Hs1.
  - exact (Hg eq_refl).
  - intros [] s' os Hs'. exact Hs'.
Qed.

Hint Resolve keeps_TryRunSomeMaps : keeps_db.

Lemma RunFetchRequest_spec m ts s :
  inv ts s ->
  (fetch_collection_id_ (pc s) = update_collection_id_ (pc s) ->
     running_updates_ (pc s) !! vs_part_id (vj_meta m) = None) ->
  wp any (RunFetchRequest m) s (fun _ s' os => inv (ts ++ otoks os) s').
Proof.
  intros Hs Hg. unfold RunFetchRequest, mod_pc. wstep. wstep. wstep. wstep. wstep.
  apply (start_fetch ts (vs_part_id (vj_meta m))) in Hs; [|exact Hg].
  wstep; [wstep; wstep; wstep|wstep]; wstep; wstep; toks; exact Hs.
Qed.

Lemma wp_IsJoinedBefore m s (Q : bool -> NodeS -> outs -> Prop) :
  (forall b t, Q b (s <| pc ::= fun c => c <| update_tracker_ := t |> |>) []) ->
  wp any (IsJoinedBefore m) s Q.
Proof.
  intros HQ. unfold IsJoinedBefore, mod_pc, pcs. wstep.
  - wstep. wstep. wstep. wstep. wstep. wstep. wstep. wstep. wstep.
    eapply (wp_for_each any (fun _ s' os => os = [] /\
      s' = s <| pc ::= fun c => c <| update_tracker_ ::= tracker_touch (vs_part_id m) (vs_version m) |> |>)).
    + done.
    + intros u l s1 os [-> ->]. wstep. done.
    + intros s1 os [-> ->]. wstep. apply HQ.
  - wstep. wstep. wstep. wstep. wstep. apply HQ.
Qed.

Lemma keeps_IsJoinedBefore m : keeps (IsJoinedBefore m).
Proof. apply keeps_skip. intros s. apply wp_IsJoinedBefore. by intros. Qed.
Hint Resolve keeps_IsJoinedBefore : keeps_db.

Lemma not_has {A} (k : Z) (m : gmap Z A) : has k m = false -> m !! k = None.
Proof. unfold has. intros Hf%bool_decide_eq_false. by apply eq_None_not_Some. Qed.

(** A waiting join starts only on a free partition. *)
Lemma run_first_waiting_spec retry p ts s :
  (forall q, keeps (retry q)) -> inv ts s -> running_updates_ (pc s) !! p = None ->
  (fetch_collection_id_ (pc s) = update_collection_id_ (pc s) ->
     lookup_or 0 p (running_fetches_ (pc s)) = 0) ->
  wp any (run_first_waiting retry p) s (fun _ s' os => inv (ts ++ otoks os) s').
Proof.
  intros Hr Hs Hru Hrf. unfold run_first_waiting, mod_pc. wstep. wstep. wstep; [wstep; by toks|].
  assert (map_collection_id_ (pc s) = update_collection_id_ (pc s) -> p ∉ running_maps_ (pc s)) as Hrm.
  { intros E. rewrite E, Z.eqb_refl in Hif. cbn in Hif. by apply bool_decide_eq_false in Hif. }
  pose proof Hs as (_ & _ & _ & _ & Hw & Hpd & Hbf).
  wstep. wstep. destruct (lookup_or [] p (waiting_updates_ (pc s))) as [|m rest] eqn:Hl.
  { wstep. toks. eapply queues_change; [exact Hs|by apply keyed_touch|done|done]. }
  assert (forall m', m' ∈ m :: rest -> vs_part_id (vj_meta m') = p) as Hkey.
  { intros m' Hm'. rewrite <- Hl in Hm'. by apply (keyed_lookup _ _ _ Hw). }
  wstep. wstep.
  set (s1 := upd pc _ _).
  assert (inv ts s1) as Hs1.
  { eapply queues_change; [exact Hs| |done|done].
    apply keyed_insert; [by apply keyed_touch|]. intros m' Hm'. apply Hkey. set_solver. }
  assert (vs_part_id (vj_meta m) = p) as Hmp by (apply Hkey; set_solver).
  wstep. wstep.
  - unfold RunJoin, pcs, mod_pc. wstep. apply wp_IsJoinedBefore. intros joined t.
    wstep.
    + eapply wp_mono; [apply Hr; exact Hs1|]. intros [] s2 os Hs2. wstep. toks. exact Hs2.
    + wsteps. toks. rewrite Hmp. by apply start_upd.
  - eapply wp_mono; [apply RunFetchRequest_spec; [exact Hs1|by rewrite Hmp]|].
    intros [] s2 os Hs2. wstep. toks. exact Hs2.
Qed.

Lemma keeps_try_waiting retry p : (forall q, keeps (retry q)) -> keeps (try_waiting retry p).
Proof.
  intros Hr ts s Hs. unfold try_waiting, mod_pc. wstep. wstep. wstep; [wstep; by toks|].
  apply not_has in Hif. wstep.
  pose proof (cnt_nonneg (TokFetch p) ts) as Hnn. pose proof Hs as (_ & _ & Hf & _). rewrite Hf in Hnn.
  wstep.
  - wstep. wstep. wstep. apply (touch_fetch ts p) in Hs. wstep; [wstep; toks; exact Hs|].
    apply run_first_waiting_spec; [done|exact Hs|exact Hif|]. cbn. rewrite lookup_or_touch. lia.
  - wstep. apply run_first_waiting_spec; [done|exact Hs|exact Hif|]. intros E. lia.
Qed.

Lemma keeps_TryRunWaitingJoins_ fuel p : keeps (TryRunWaitingJoins_ fuel p).
Proof.
  revert p. induction fuel as [|fuel IH]; intros p; cbn [TryRunWaitingJoins_];
    apply keeps_try_waiting; intros q; [apply keeps_throw|].
  apply keeps_bind; [apply IH|]. intros. apply keeps_ret.
Qed.

Lemma keeps_TryRunWaitingJoins p : keeps (TryRunWaitingJoins p).
Proof. unfold TryRunWaitingJoins, pcs. apply keeps_bind; [apply keeps_gets|]. intros w. apply keeps_TryRunWaitingJoins_. Qed.

Hint Resolve keeps_TryRunWaitingJoins : keeps_db.

Lemma keeps_push_waiting k m :
  vs_part_id (vj_meta m) = k ->
  keeps (mod_pc (fun c => c <| waiting_updates_ ::= fun w => <[k := lookup_or [] k w ++ [m]]> w |>)).
Proof.
  intros Hk. apply keeps_mod. intros ts s Hs. pose proof Hs as (_ & _ & _ & _ & Hw & Hpd & Hbf).
  eapply queues_change; [exact Hs|by apply keyed_push|done|done].
Qed.
Lemma keeps_push_buffered k m :
  vs_part_id (vj_meta m) = k ->
  keeps (mod_pc (fun c => c <| buffered_requests_ ::= fun w => <[k := lookup_or [] k w ++ [m]]> w |>)).
Proof.
  intros Hk. apply keeps_mod. intros ts s Hs. pose proof Hs as (_ & _ & _ & _ & Hw & Hpd & Hbf).
  eapply queues_change; [exact Hs|done|done|by apply keyed_push].
Qed.
Lemma keeps_push_pending k v m :
  vs_part_id (vj_meta m) = k ->
  keeps (mod_pc (fun c => c <| pending_updates_ ::= fun p =>
      let inner := lookup_or ∅ k p in <[k := <[v := lookup_or [] v inner ++ [m]]> inner]> p |>)).
Proof.
  intros Hk. apply keeps_mod. intros ts s Hs. pose proof Hs as (_ & _ & _ & _ & Hw & Hpd & Hbf).
  eapply queues_change; [exact Hs|done|by apply keyed2_push|done].
Qed.

Lemma keeps_ReceiveJoin m : keeps (ReceiveJoin m).
Proof.
  unfold ReceiveJoin. keeps_step; [keeps_step|]. keeps_step; [by apply keeps_push_buffered|].
  keeps_step; [keeps_step|]. keeps_step; [keeps_step|]. keeps_step; [solve_keeps|].
  keeps_step; [by apply keeps_push_pending|]. keeps_step; [by apply keeps_push_waiting|]. solve_keeps.
Qed.

Lemma keeps_ReceiveFetchRequest fm bin sd rc : keeps (ReceiveFetchRequest fm bin sd rc).
Proof.
  intros ts s Hs. unfold ReceiveFetchRequest. wstep. wstep. wstep. wstep. wstep.
  apply wp_on_pm. intros h q. wstep. wstep. wstep. wstep. wstep. wstep.
  wstep.
  - eapply wp_mono; [apply (RunFetchRequest_spec _ ts); [exact Hs|]|intros [] s' os Hs'; exact Hs'].
    intros E. cbn in E. apply Z.eqb_eq in Hck1. apply negb_true_iff, Z.eqb_neq in Hif. congruence.
  - wstep; [eapply wp_mono; [by apply keeps_push_buffered; [|exact Hs]|intros [] s' os Hs'; exact Hs']|].
    wstep; [eapply wp_mono; [by apply keeps_push_waiting; [|exact Hs]|intros [] s' os Hs'; exact Hs']|].
    eapply wp_mono; [apply (RunFetchRequest_spec _ ts); [exact Hs|]|intros [] s' os Hs'; exact Hs'].
    intros _. cbn. by apply not_has.
Qed.

Lemma keeps_UpdateVersion v : keeps (UpdateVersion v).
Proof. unfold UpdateVersion. solve_keeps. Qed.

(** Pending updates of a mapped version become waiting. *)
Lemma keeps_release_pending p last :
  keeps (mod_pc (fun c => c <| pending_updates_ ::= fun pd =>
           <[p := touch [] last (lookup_or ∅ p pd)]> pd |>) ;;;
         pend <-- pcs (fun c => lookup_or [] last (lookup_or ∅ p (pending_updates_ c))) ;;
         when (negb (bool_decide (pend = [])))
           (mod_pc (fun c => c <| waiting_updates_ ::= fun w => <[p := lookup_or [] p w ++ pend]> w |>
                    <| pending_updates_ ::= fun pd => <[p := delete last (lookup_or ∅ p pd)]> pd |>)) ;;;
         TryRunWaitingJoins p ;;; ret tt).
Proof.
  keeps_step.
  { apply keeps_mod. intros ts s Hs. pose proof Hs as (_ & _ & _ & _ & Hw & Hpd & Hbf).
    eapply queues_change; [exact Hs|done| |done]. apply keyed2_insert; [done|].
    apply inner_insert; [by apply keyed2_lookup|]. intros m Hm.
    by apply (inner_lookup _ _ _ _ (keyed2_lookup _ p Hpd) Hm). }
  intros ts s Hs. pose proof Hs as (_ & _ & _ & _ & Hw & Hpd & Hbf). unfold pcs. wstep. wstep.
  assert (keeps (TryRunWaitingJoins p ;;; ret tt)) as Htry by solve_keeps.
  wstep. apply wp_when; intros _.
  - unfold mod_pc. wstep. eapply (wp_keeps _ ts); [done| |by intros [] s' os Hs'].
    eapply queues_change; [exact Hs| |apply keyed2_insert; [done|by apply inner_delete, keyed2_lookup]|done].
    apply keyed_insert; [done|]. intros m [Hm|Hm]%elem_of_app; [by apply (keyed_lookup _ _ _ Hw)|].
    by apply (inner_lookup _ _ _ _ (keyed2_lookup _ p Hpd) Hm).
  - eapply (wp_keeps _ ts); [done|exact Hs|by intros [] s' os Hs'].
Qed.

(** Ending a map, a join, a checkpoint, a fetch. *)
Lemma FinishMap_spec p u ts s :
  inv (TokMap p :: ts) s -> wp any (FinishMap p u) s (fun _ s' os => inv (ts ++ otoks os) s').
Proof.
  intros Hs. unfold FinishMap. unfold mod_pc at 1 2. wstep. wstep. apply end_map in Hs.
  wstep. wstep. set (s1 := upd pc _ (upd pc _ s)).
  assert (inv ts s1) as Hs1.
  { unfold s1. cbn. destruct (stop_updateing_partitions_ (pc s) !! p) as [[]|]; exact Hs. }
  clearbody s1. wstep. wstep. destruct (map_versions_ (pc s1) !! p) as [last|]; [|wstep; toks; exact Hs1].
  eapply (wp_keeps _ ts); [|exact Hs1|by intros [] s' os Hs'].
  do 2 (keeps_step; [solve_keeps|]). keeps_step; [|solve_keeps]. keeps_step. apply keeps_release_pending.
Qed.

Lemma TryCheckpoint_spec p ts s (Q : bool -> NodeS -> outs -> Prop) :
  inv ts s -> free p s ->
  (forall b s' os, inv (ts ++ otoks os) s' -> Q b s' os) ->
  wp any (TryCheckpoint p) s Q.
Proof.
  intros Hs (Hru & Hrm & Hrf) HQ. unfold TryCheckpoint, mod_pc. wstep. wstep. wstep. wstep.
  assert (inv ts (s <| pc ::= fun c => if checkpoint_interval_ c =? 0 then c
                   else c <| update_versions_ ::= touch 0 p |> |>)) as Hs1.
  { cbn. destruct (checkpoint_interval_ (pc s) =? 0); exact Hs. }
  wstep; [|wstep; apply HQ; toks; exact Hs1].
  wstep. wstep. wstep. wstep. wstep. wstep. wstep. apply HQ. toks.
  destruct (checkpoint_interval_ (pc s) =? 0); by apply start_upd.
Qed.

Lemma FinishJoin_spec p v us ts s :
  inv (TokUpd p :: ts) s -> wp any (FinishJoin p v us) s (fun _ s' os => inv (ts ++ otoks os) s').
Proof.
  intros Hs. apply end_upd in Hs as (Hs & Hrm & Hrf).
  unfold FinishJoin, CalcJoinTrackerSize, mod_pc. wstep. wstep. wstep. wstep.
  assert (keeps (TryRunWaitingJoins p ;;; ret tt)) as Htry by solve_keeps.
  wstep; [|eapply (wp_keeps _ ts); [exact Htry|exact Hs|by intros [] s' os Hs']].
  wstep. wstep. wstep. wstep. wstep. eapply (TryCheckpoint_spec p ts).
  - exact Hs.
  - refine (conj _ (conj Hrm Hrf)). cbn. apply lookup_delete_eq.
  - intros b s1 os Hs1. eapply (wp_keeps _ (ts ++ otoks os)).
    + solve_keeps.
    + exact Hs1.
    + intros [] s2 os2 Hs2. cbn. rewrite otoks_app, app_assoc. exact Hs2.
Qed.

Lemma FinishCheckpoint_spec p ts s :
  inv (TokUpd p :: ts) s -> wp any (FinishCheckpoint p) s (fun _ s' os => inv (ts ++ otoks os) s').
Proof.
  intros Hs. apply end_upd in Hs as (Hs & _). unfold FinishCheckpoint, mod_pc. wstep. wstep. wstep. wstep.
  wstep. wstep. eapply (wp_keeps _ ts); [solve_keeps|exact Hs|by intros [] s' os Hs'].
Qed.

Lemma FinishFetch_spec p u ts s :
  inv (TokFetch p :: ts) s -> wp any (FinishFetch p u) s (fun _ s' os => inv (ts ++ otoks os) s').
Proof.
  intros Hs. apply end_fetch in Hs. unfold FinishFetch, mod_pc. wstep. wstep.
  eapply (wp_keeps _ ts); [solve_keeps|exact Hs|by intros [] s' os Hs'].
Qed.

(** ** Migration *)

Lemma keeps_MigratePartitionStartMigrate mm : keeps (MigratePartitionStartMigrate mm).
Proof. unfold MigratePartitionStartMigrate. solve_keeps. Qed.

Lemma keeps_serialize_all l : keeps (serialize_all l).
Proof. induction l as [|m l IH]; cbn; solve_keeps. unfold serialize_from_stream_store. solve_keeps. Qed.
Hint Resolve keeps_serialize_all : keeps_db.
Lemma keeps_serialize_versions l : keeps (serialize_versions l).
Proof. induction l as [|[v ms] l IH]; cbn; solve_keeps. Qed.
Hint Resolve keeps_serialize_versions : keeps_db.

Lemma keeps_forget p :
  keeps (mod_pc (fun c => c <| update_versions_ ::= delete p |>
                     <| num_local_update_part_ ::= fun n => n - 1 |>
                     <| pending_updates_ ::= delete p |>
                     <| waiting_updates_ ::= delete p |>
                     <| update_tracker_ ::= delete p |>)).
Proof.
  apply keeps_mod. intros ts s Hs. pose proof Hs as (_ & _ & _ & _ & Hw & Hpd & Hbf).
  eapply queues_change; [exact Hs|by apply keyed_delete|by apply keyed2_delete|done].
Qed.
Hint Resolve keeps_forget : keeps_db.

Lemma keeps_stop p :
  keeps (mod_pc (fun c => if bool_decide (p ∈ running_maps_ c)
                   then c <| stop_updateing_partitions_ ::= <[p := true]> |>
                   else c <| stop_updateing_partitions_ ::= delete p |>)).
Proof. apply keeps_mod. intros ts s Hs. cbn. destruct (bool_decide _); exact Hs. Qed.

Lemma keeps_MigratePartitionReceiveFlushAll mm : keeps (MigratePartitionReceiveFlushAll mm).
Proof.
  unfold MigratePartitionReceiveFlushAll. repeat first [keeps_step|apply keeps_stop|apply keeps_forget].
Qed.

Lemma keeps_requeue m : keeps (requeue m).
Proof.
  unfold requeue. keeps_step; [keeps_step|].
  keeps_step; [by apply keeps_push_pending|by apply keeps_push_waiting].
Qed.
Hint Resolve keeps_requeue : keeps_db.

(** The queues that come with a migrated partition belong to it. *)
Definition data_keyed (p : Z) (d : MigrateData) : Prop :=
  inner_keyed p (md_pending_updates d) /\
  forall m, m ∈ md_waiting_updates d -> vs_part_id (vj_meta m) = p.

Lemma keeps_adopt p d : data_keyed p d ->
  keeps (mod_pc (fun c => c <| update_versions_ ::= <[p := md_update_version d]> |>
                     <| pending_updates_ ::= <[p := md_pending_updates d]> |>
                     <| waiting_updates_ ::= <[p := md_waiting_updates d]> |>
                     <| update_tracker_ ::= <[p := md_update_tracker d]> |>
                     <| num_local_update_part_ ::= fun n => n + 1 |>)).
Proof.
  intros [Hd1 Hd2]. apply keeps_mod. intros ts s Hs. pose proof Hs as (_ & _ & _ & _ & Hw & Hpd & Hbf).
  eapply queues_change; [exact Hs|by apply keyed_insert|by apply keyed2_insert|done].
Qed.
Lemma keeps_clear_buffered p :
  keeps (mod_pc (fun c => c <| buffered_requests_ ::= <[p := []]> |>)).
Proof.
  apply keeps_mod. intros ts s Hs. pose proof Hs as (_ & _ & _ & _ & Hw & Hpd & Hbf).
  eapply queues_change; [exact Hs|done|done|apply keyed_insert; [done|set_solver]].
Qed.

Lemma keeps_MigratePartitionDest mm d bin : data_keyed (mm_partition_id mm) d ->
  keeps (MigratePartitionDest mm d bin).
Proof.
  intros Hd. unfold MigratePartitionDest.
  repeat first [keeps_step|by apply keeps_adopt|apply keeps_clear_buffered].
Qed.

Lemma keeps_MigratePartitionStartMigrateMapOnly mm : keeps (MigratePartitionStartMigrateMapOnly mm).
Proof. unfold MigratePartitionStartMigrateMapOnly. solve_keeps. Qed.
Lemma keeps_ReassignMap l : keeps (ReassignMap l).
Proof. unfold ReassignMap. solve_keeps. Qed.

(** The messages a controller may find in its queue while a plan runs: a speculative map is
    only sent when the map and the update collection differ (its sender checks that), a
    migrated partition comes with its own queues, and the plan is set up once. *)
Definition acceptable (mc uc : Z) (m : ctrl_msg) : Prop :=
  match m with
  | kSetup _ => False
  | kMigratePartition mm (MBData d _) => data_keyed (mm_partition_id mm) d
  | kMigratePartition _ (MBMap _ _) => mc <> uc
  | _ => True
  end.

Lemma Process_spec m ts s :
  inv (msg_toks m ++ ts) s ->
  acceptable (map_collection_id_ (pc s)) (update_collection_id_ (pc s)) m ->
  wp any (Process m) s (fun _ s' os => inv (ts ++ otoks os) s').
Proof.
  intros Hs Ha. destruct m as [sp| |p u|p v us|v|m|fm bin sd rc|p u|p|mm body| |t|l]; cbn in Hs, Ha; cbn [Process].
  - done.
  - unfold StartPlan. by apply keeps_TryRunSomeMaps.
  - by apply FinishMap_spec.
  - by apply FinishJoin_spec.
  - by apply keeps_UpdateVersion.
  - by apply keeps_ReceiveJoin.
  - by apply keeps_ReceiveFetchRequest.
  - by apply FinishFetch_spec.
  - by apply FinishCheckpoint_spec.
  - unfold MigratePartition. destruct (mm_flag mm), body as [|view|d q|v q]; try by wstep.
    all: try by apply keeps_MigratePartitionReceiveFlushAll.
    all: try by apply keeps_MigratePartitionStartMigrateMapOnly.
    + wstep. wstep. by apply keeps_MigratePartitionStartMigrate.
    + by apply keeps_MigratePartitionDest.
    + unfold MigratePartitionReceiveMapOnly, get_fn. wstep. destruct (fn_CreatePart _); [|by wstep].
      wstep. eapply wp_mono; [apply (RunMap_spec _ _ _ ts); [exact Hs|done]|]. by intros [] s' os Hs'.
  - wstep. toks. done.
  - unfold FinishLoadWith. eapply (wp_keeps _ ts); [solve_keeps|done|by intros [] s' os Hs'].
  - by apply keeps_ReassignMap.
Qed.

(** ** Tasks *)

Lemma keeps_PrepareMsgAndSend p v us st : keeps (PrepareMsgAndSend p v us st).
Proof. unfold PrepareMsgAndSend, cmap_Lookup, cmap_Get, mapper_Get. solve_keeps. Qed.
Hint Resolve keeps_PrepareMsgAndSend : keeps_db.
Lemma keeps_AddMapOutput u v o : keeps (AddMapOutput u v o).
Proof. unfold AddMapOutput. solve_keeps. unfold AddStream. solve_keeps. Qed.

(** A task gives its token back as a message or a further task. *)
Lemma run_task_spec t ts s :
  inv (task_toks t ++ ts) s -> wp any (run_task t) s (fun _ s' os => inv (ts ++ otoks os) s').
Proof.
  intros Hs. destruct t as [p v x|p v o|m|m v|p url|p v l]; cbn [run_task task_toks app] in *.
  - apply (inv_perm _ (ts ++ [TokMap p])) in Hs; [|by rewrite Permutation_app_comm].
    unfold run_map, get_fn. wstep. wstep. wstep; [wstep; toks; exact Hs|]. wstep.
    destruct (type_ (pc s)); try by wstep.
    + destruct (fn_Map _); [|by wstep]. wstep. wstep. wstep. wstep. toks. exact Hs.
    + destruct (fn_MapWith _); [|by wstep]. wstep. wstep. wstep. wstep. toks. exact Hs.
  - unfold run_mapped. wstep. wstep. wstep.
    { wstep. toks. eapply inv_perm; [|exact Hs]. by rewrite Permutation_app_comm. }
    wstep. eapply (wp_keeps _ (TokMap p :: ts)); [apply keeps_AddMapOutput|exact Hs|].
    intros [] s1 os1 Hs1. wstep. cbn. rewrite otoks_app. cbn. eapply inv_perm; [|exact Hs1].
    cbn. rewrite app_assoc. by rewrite (Permutation_app_comm _ [TokMap p]).
  - unfold run_join. wstep. wstep. wstep. eapply (wp_keeps _ (TokUpd _ :: ts)); [solve_keeps|exact Hs|].
    intros f s1 os1 Hs1. wstep. apply wp_on_pm. intros h q. wstep. wstep. wstep. apply wp_on_pm. intros x q'.
    wstep. apply wp_on_pm. intros [] q''. wstep. cbn. rewrite otoks_app. cbn. eapply inv_perm; [|exact Hs1].
    cbn. rewrite app_assoc. by rewrite (Permutation_app_comm _ [TokUpd _]).
  - unfold run_fetch. wstep. wstep. wstep. apply wp_on_pm. intros h q. wstep. wstep. wstep.
    apply wp_on_pm. intros x q'. wstep.
    eapply (wp_keeps _ (TokFetch (vs_part_id (vj_meta m)) :: ts)); [|exact Hs|].
    { keeps_step; [|keeps_step]. keeps_step; [keeps_step|]. destruct (a _ x). solve_keeps. }
    intros bin s1 os1 Hs1. wstep. wstep. wstep. cbn. rewrite otoks_app. cbn.
    destruct (vs_version (vj_meta m) =? -1); cbn.
    all: eapply inv_perm; [|exact Hs1]; cbn; rewrite app_assoc; by rewrite (Permutation_app_comm _ [TokFetch _]).
  - unfold run_checkpoint. wstep. wstep. wstep. apply wp_on_pm. intros h q. wstep. wstep. wstep.
    apply wp_on_pm. intros x q'. wstep. wstep. wstep. toks. eapply inv_perm; [|exact Hs].
    by rewrite Permutation_app_comm.
  - unfold run_combine. eapply (wp_keeps _ ts); [solve_keeps|exact Hs|by intros [] s' os Hs'].
Qed.

(** ** The plan's collections are fixed, and pushed messages are acceptable *)

Definition ids (s : NodeS) : Z * Z * Z :=
  (map_collection_id_ (pc s), update_collection_id_ (pc s), fetch_collection_id_ (pc s)).

Section calm.
Context (i : Z * Z * Z).
Definition out_ok (o : out P Stream) : Prop :=
  match o with Push m | PushLater m => acceptable i.1.1 i.1.2 m | _ => True end.
Definition calm {A} (m : M NodeS (out P Stream) A) : Prop :=
  forall s, ids s = i -> wp any m s (fun _ s' os => ids s' = i /\ Forall out_ok os).

Lemma calm_bind {A B} (m : M NodeS (out P Stream) A) (k : A -> M NodeS (out P Stream) B) :
  calm m -> (forall a, calm (k a)) -> calm (bind m k).
Proof.
  intros Hm Hk s Hs. wstep. eapply wp_mono; [by apply Hm|]. intros a s1 o1 [H1 Ho1].
  eapply wp_mono; [by apply Hk|]. intros b s2 o2 [H2 Ho2]. split; [done|by apply Forall_app].
Qed.
Lemma calm_ret {A} (a : A) : calm (ret a).
Proof. intros s Hs. by wstep. Qed.
Lemma calm_gets {A} (f : NodeS -> A) : calm (gets f).
Proof. intros s Hs. by wstep. Qed.
Lemma calm_get : calm get.
Proof. intros s Hs. by wstep. Qed.
Lemma calm_check b w : calm (check b w).
Proof. intros s Hs. by wstep. Qed.
Lemma calm_deref {A} (o : option A) w : calm (deref o w).
Proof. intros s Hs. by wstep. Qed.
Lemma calm_get_fn {A} (o : option A) w : calm (get_fn o w).
Proof. intros s Hs. unfold get_fn. destruct o; by wstep. Qed.
Lemma calm_throw {A} e : calm (throw (A := A) e).
Proof. intros s Hs. by wstep. Qed.
Lemma calm_emit o : out_ok o -> calm (emit o).
Proof. intros Ho s Hs. wstep. split; [done|by repeat constructor]. Qed.
Lemma calm_mod f : (forall s, ids (s <| pc ::= f |>) = ids s) -> calm (mod_pc f).
Proof. intros Hf s Hs. unfold mod_pc. wstep. by rewrite Hf. Qed.
Lemma calm_when b m : calm m -> calm (when b m).
Proof. intros Hm s Hs. wstep; [by apply Hm|done]. Qed.
Lemma calm_for_each {A} (l : list A) body : (forall x, calm (body x)) -> calm (for_each l body).
Proof. intros Hb. induction l as [|x l IH]; cbn; [apply calm_ret|]. by apply calm_bind. Qed.
Lemma calm_on_pm {A} (m : M (PartitionManager P) Empty_set A) : calm (on_pm m).
Proof. intros s Hs. apply wp_on_pm. by intros. Qed.
Lemma calm_on_streams {A} (m : M (MapOutputStreamStore Stream) Empty_set A) : calm (on_streams m).
Proof.
  intros s Hs. apply zoom_wp. unfold wp.
  destruct (m (stream_store (pc s))) as [[[a q] os]|e]; [|done]. by destruct os as [|[]].
Qed.
End calm.
Create HintDb calm_db.
Ltac calm_step :=
  lazymatch goal with
  | |- calm _ (ret _) => apply calm_ret
  | |- calm _ (gets _) => apply calm_gets
  | |- calm _ (pcs _) => apply calm_gets
  | |- calm _ get => apply calm_get
  | |- calm _ (check _ _) => apply calm_check
  | |- calm _ (deref _ _) => apply calm_deref
  | |- calm _ (get_fn _ _) => apply calm_get_fn
  | |- calm _ (throw _) => apply calm_throw
  | |- calm _ (on_pm _) => apply calm_on_pm
  | |- calm _ (on_streams _) => apply calm_on_streams
  | |- calm _ (emit _) => apply calm_emit; first [exact I | done]
  | |- calm _ (when _ _) => apply calm_when
  | |- calm _ (for_each _ _) => apply calm_for_each; intros ?
  | |- calm _ (bind _ _) => apply calm_bind; [|intros]
  | |- calm _ (if ?b then _ else _) => destruct b
  | |- calm _ (match ?x with _ => _ end) => destruct x
  | |- calm _ (let '(_, _) := ?x in _) => destruct x
  | |- calm _ (mod_pc _) =>
      apply calm_mod; intros ?; unfold ids; cbn; repeat case_match; reflexivity
  | |- calm _ _ => solve [eauto with calm_db]
  end.
Ltac solve_calm := repeat calm_step.

Lemma calm_Report i f p v : calm i (ReportFinishPart f p v).
Proof. unfold ReportFinishPart. solve_calm. Qed.
Hint Resolve calm_Report : calm_db.
Lemma calm_RunMap i p v x : calm i (RunMap p v x).
Proof. unfold RunMap. solve_calm. Qed.
Hint Resolve calm_RunMap : calm_db.
Lemma calm_TryRunSomeMaps i : calm i TryRunSomeMaps.
Proof. unfold TryRunSomeMaps, IsMapRunnable. solve_calm. Qed.
Hint Resolve calm_TryRunSomeMaps : calm_db.
Lemma calm_RunFetchRequest i m : calm i (RunFetchRequest m).
Proof. unfold RunFetchRequest. solve_calm. Qed.
Hint Resolve calm_RunFetchRequest : calm_db.
Lemma calm_IsJoinedBefore i m : calm i (IsJoinedBefore m).
Proof. unfold IsJoinedBefore. solve_calm. Qed.
Hint Resolve calm_IsJoinedBefore : calm_db.
Lemma calm_try_waiting i retry p : (forall q, calm i (retry q)) -> calm i (try_waiting retry p).
Proof. intros Hr. unfold try_waiting, run_first_waiting, RunJoin. solve_calm. Qed.
Lemma calm_TryRunWaitingJoins i p : calm i (TryRunWaitingJoins p).
Proof.
  unfold TryRunWaitingJoins. calm_step; [calm_step|].
  generalize (total_waiting a) as n. intros n. revert p.
  induction n as [|n IH]; intros p; apply calm_try_waiting; intros q; solve_calm.
Qed.
Hint Resolve calm_TryRunWaitingJoins : calm_db.
Lemma calm_serialize i l : calm i (serialize_all l).
Proof. induction l as [|m l IH]; cbn; solve_calm. unfold serialize_from_stream_store. solve_calm. Qed.
Hint Resolve calm_serialize : calm_db.
Lemma calm_serialize_versions i l : calm i (serialize_versions l).
Proof. induction l as [|[v ms] l IH]; cbn; solve_calm. Qed.
Hint Resolve calm_serialize_versions : calm_db.
Lemma calm_Prepare i p v us st : calm i (PrepareMsgAndSend p v us st).
Proof. unfold PrepareMsgAndSend, cmap_Lookup, cmap_Get, mapper_Get. solve_calm. Qed.
Hint Resolve calm_Prepare : calm_db.

Lemma calm_Process i m : acceptable i.1.1 i.1.2 m -> calm i (Process m).
Proof.
  intros Ha. destruct m as [sp| |p u|p v us|v|m|fm bin sd rc|p u|p|mm body| |t|l]; cbn [Process].
  - done.
  - unfold StartPlan. solve_calm.
  - unfold FinishMap. solve_calm.
  - unfold FinishJoin, CalcJoinTrackerSize, TryCheckpoint. solve_calm.
  - unfold UpdateVersion. solve_calm.
  - unfold ReceiveJoin. solve_calm.
  - unfold ReceiveFetchRequest. solve_calm.
  - unfold FinishFetch. solve_calm.
  - unfold FinishCheckpoint. solve_calm.
  - unfold MigratePartition. destruct (mm_flag mm), body as [|view|d q|v q]; try calm_step.
    all: try (unfold MigratePartitionReceiveFlushAll; solve_calm).
    all: try (unfold MigratePartitionStartMigrateMapOnly; solve_calm).
    + intros s Hs. by wstep.
    + unfold MigratePartitionStartMigrate. solve_calm.
    + unfold MigratePartitionDest, requeue. solve_calm.
    + unfold MigratePartitionReceiveMapOnly. solve_calm.
  - solve_calm.
  - unfold FinishLoadWith. solve_calm.
  - unfold ReassignMap. solve_calm.
Qed.

Lemma calm_run_task i t : calm i (run_task t).
Proof.
  destruct t as [p v x|p v o|m|m v|p url|p v l]; cbn [run_task].
  - unfold run_map. solve_calm.
  - unfold run_mapped, AddMapOutput, AddStream. solve_calm.
  - unfold run_join. solve_calm.
  - unfold run_fetch. solve_calm.
  - unfold run_checkpoint. solve_calm.
  - unfold run_combine. solve_calm.
Qed.

Lemma keeps_PeriodicCombine : keeps PeriodicCombine.
Proof. unfold PeriodicCombine. solve_keeps. Qed.
Lemma calm_PeriodicCombine i : calm i PeriodicCombine.
Proof. unfold PeriodicCombine. solve_calm. Qed.

(** ** A node at work on one plan

    [queue] is the controller's work queue, [pool] the tasks submitted and not yet ended,
    [later] the messages put back after a delay, [grants] the partitions the local fetcher
    was given direct access to and has not released. *)
Record sys := {
  st : NodeS; pool : list (task P Stream); queue : list ctrl_msg; later : list ctrl_msg;
  grants : list Z }.

Definition submitted (os : outs) : list (task P Stream) :=
  omap (fun o => match o with Submit t => Some t | _ => None end) os.
Definition pushed (os : outs) : list ctrl_msg :=
  omap (fun o => match o with Push m => Some m | _ => None end) os.
Definition delayed (os : outs) : list ctrl_msg :=
  omap (fun o => match o with PushLater m => Some m | _ => None end) os.
Definition granted (os : outs) : list Z :=
  omap (fun o => match o with Reply _ kFetchPartReplyLocal fm _ => Some (fm_partition_id fm) | _ => None end) os.

Definition absorb (os : outs) (s : sys) : sys :=
  {| st := st s; pool := pool s ++ submitted os; queue := queue s ++ pushed os;
     later := later s ++ delayed os; grants := grants s ++ granted os |}.

(** Messages from the scheduler, other nodes and the local fetcher; the finish messages of
    tasks come from this node only. *)
Definition external (i : Z * Z * Z) (m : ctrl_msg) : Prop :=
  msg_toks m = [] /\ acceptable i.1.1 i.1.2 m.

(** [local_step s os s']: one atomic step of the controller's thread, an executor, the
    combiner's timer or the local fetcher, which emits [os]. *)
Inductive local_step : sys -> outs -> sys -> Prop :=
| step_handle s m q st' os :
    queue s = m :: q -> Process m (st s) = Ok (tt, st', os) ->
    local_step s os (absorb os {| st := st'; pool := pool s; queue := q; later := later s; grants := grants s |})
| step_task s l1 t l2 st' os :
    pool s = l1 ++ t :: l2 -> run_task t (st s) = Ok (tt, st', os) ->
    local_step s os (absorb os {| st := st'; pool := l1 ++ l2; queue := queue s; later := later s; grants := grants s |})
| step_periodic s st' os :
    PeriodicCombine (st s) = Ok (tt, st', os) ->
    local_step s os (absorb os {| st := st'; pool := pool s; queue := queue s; later := later s; grants := grants s |})
| step_later s l1 m l2 :
    later s = l1 ++ m :: l2 ->
    local_step s [] {| st := st s; pool := pool s; queue := queue s ++ [m]; later := l1 ++ l2; grants := grants s |}
| step_release s l1 p l2 u :
    grants s = l1 ++ p :: l2 ->
    local_step s [] {| st := st s; pool := pool s; queue := queue s ++ [kFinishFetch p u]; later := later s;
                 grants := l1 ++ l2 |}.

(** A message arrives. *)
Definition deliver (m : ctrl_msg) (s : sys) : sys :=
  {| st := st s; pool := pool s; queue := queue s ++ [m]; later := later s; grants := grants s |}.

(** [step s os s']: a local step, or a message from outside. *)
Inductive step : sys -> outs -> sys -> Prop :=
| step_local s os s' : local_step s os s' -> step s os s'
| step_deliver s m : external (ids (st s)) m -> step s [] (deliver m s).

(** The node after the plan's setup message. *)
Inductive initial : sys -> Prop :=
| initial_intro sp q cm id st' os :
    Setup sp {| pc := new_pc; pm := q; cmap := cm; my_id := id |} = Ok (tt, st', os) ->
    initial {| st := st'; pool := []; queue := []; later := []; grants := [] |}.

(** [run s tr]: a node can be in state [s] after emitting [tr]. *)
Inductive run : sys -> outs -> Prop :=
| run_start s : initial s -> run s []
| run_step s tr os s' : run s tr -> step s os s' -> run s' (tr ++ os).

Definition stoks (s : sys) : list tok :=
  (pool s ≫= task_toks) ++ (queue s ≫= msg_toks) ++ (later s ≫= msg_toks) ++ (TokFetch <$> grants s).

Definition sys_inv (s : sys) : Prop :=
  inv (stoks s) (st s) /\
  Forall (acceptable (ids (st s)).1.1 (ids (st s)).1.2) (queue s ++ later s).

Lemma inv_cnt ts ts' s : (forall t, cnt t ts = cnt t ts') -> inv ts s -> inv ts' s.
Proof.
  intros Hc (Hm & Hu & Hf & Hx). refine (conj _ (conj _ (conj _ Hx)));
    intros p; rewrite <- Hc; auto.
Qed.

Lemma otoks_split os t :
  cnt t (otoks os) = cnt t (submitted os ≫= task_toks) + cnt t (pushed os ≫= msg_toks) +
                     cnt t (delayed os ≫= msg_toks) + cnt t (TokFetch <$> granted os).
Proof.
  induction os as [|o os IH]; [done|].
  change (otoks (o :: os)) with (out_toks o ++ otoks os). rewrite cnt_app, IH.
  destruct o as [m|r pl m|m|m|r [] fm b|tk|u b]; cbn -[cnt];
    fold (submitted os) (pushed os) (delayed os) (granted os);
    rewrite ?cnt_app, ?cnt_cons, ?cnt_nil; lia.
Qed.

Lemma stoks_absorb os s t : cnt t (stoks (absorb os s)) = cnt t (stoks s ++ otoks os).
Proof.
  unfold stoks, absorb. cbn -[cnt]. rewrite !bind_app, fmap_app, !cnt_app, otoks_split. lia.
Qed.

Lemma Forall_out_ok os i : Forall (out_ok i) os ->
  Forall (acceptable i.1.1 i.1.2) (pushed os ++ delayed os).
Proof.
  intros Hos. rewrite Forall_app. split; apply Forall_forall; intros m (o & Ho & Hm)%list_elem_of_omap;
    rewrite Forall_forall in Hos; specialize (Hos o Ho); destruct o; simplify_eq; done.
Qed.

(** Running a computation that consumes the tokens [ts0] and absorbing its outputs. *)
Lemma run_sys_inv (m : M NodeS (out P Stream) unit) s st' os (ts0 : list tok) s1 :
  m (st s) = Ok (tt, st', os) ->
  (forall ts, inv (ts0 ++ ts) (st s) -> wp any m (st s) (fun _ s' os => inv (ts ++ otoks os) s')) ->
  calm (ids (st s)) m ->
  inv (stoks s) (st s) ->
  (forall t, cnt t (stoks s) = cnt t ts0 + cnt t (stoks s1)) ->
  Forall (acceptable (ids (st s)).1.1 (ids (st s)).1.2) (queue s1 ++ later s1) ->
  st s1 = st' ->
  sys_inv (absorb os s1).
Proof.
  intros Hm Hsp Hcalm Hs Hcnt Hq <-.
  destruct (wp_Ok any _ _ _ _ _ _ Hm (Hcalm (st s) eq_refl)) as [Hids Hok].
  assert (inv (ts0 ++ stoks s1) (st s)) as Hs'.
  { eapply inv_cnt; [|exact Hs]. intros t. by rewrite cnt_app. }
  split.
  - eapply inv_cnt; [|exact (wp_Ok any _ _ _ _ _ _ Hm (Hsp _ Hs'))].
    intros t. symmetry. apply stoks_absorb.
  - cbn [st absorb]. rewrite Hids. apply Forall_out_ok in Hok.
    rewrite !Forall_app in *. cbn. rewrite !Forall_app. tauto.
Qed.

Lemma step_inv s os s' : sys_inv s -> step s os s' -> sys_inv s'.
Proof.
  intros [Hs Hq] Hstep0. destruct Hstep0 as [s os s' Hstep|s m Hext].
  2: { destruct Hext as [Ht Ha]. split.
    + eapply inv_cnt; [|exact Hs]. intros t. unfold stoks. cbn. rewrite !bind_app. cbn.
      rewrite Ht. cbn. by rewrite app_nil_r.
    + cbn. rewrite !Forall_app in *. rewrite Forall_singleton. tauto. }
  destruct Hstep as [s m q st' os Hqm Hm|s l1 t l2 st' os Hp Hm|s st' os Hm|s l1 m l2 Hl|s l1 p l2 u Hg].
  - rewrite Hqm in Hq. apply Forall_cons in Hq as [Ha Hq].
    eapply (run_sys_inv (Process m) s st' os (msg_toks m)); [done| |by apply calm_Process|done| |done|done].
    + intros ts Hts. by apply Process_spec.
    + intros t. unfold stoks. cbn. rewrite Hqm. cbn [mbind list_bind]. rewrite !cnt_app. lia.
  - eapply (run_sys_inv (run_task t) s st' os (task_toks t)); [done| |apply calm_run_task|done| |done|done].
    + intros ts Hts. by apply run_task_spec.
    + intros x. unfold stoks. cbn. rewrite Hp, !bind_app. cbn [mbind list_bind]. rewrite !cnt_app. lia.
  - eapply (run_sys_inv PeriodicCombine s st' os []);
      [done|intros ts; apply keeps_PeriodicCombine|apply calm_PeriodicCombine|done|done|done|done].
  - split.
    + eapply inv_cnt; [|exact Hs]. intros t. unfold stoks. cbn. rewrite Hl, !bind_app. cbn.
      rewrite !cnt_app, cnt_nil. lia.
    + cbn. rewrite Hl in Hq. rewrite !Forall_app, Forall_cons in *. rewrite Forall_nil. tauto.
  - split.
    + eapply inv_cnt; [|exact Hs]. intros t. unfold stoks. cbn. rewrite Hg, !bind_app, !fmap_app. cbn.
      rewrite !cnt_app, !cnt_cons, !cnt_nil. lia.
    + cbn. rewrite !Forall_app, Forall_cons, Forall_nil in *. cbn. tauto.
Qed.

(** ** Setup *)

Definition quiet (s : NodeS) : Prop :=
  running_maps_ (pc s) = ∅ /\ running_updates_ (pc s) = ∅ /\ running_fetches_ (pc s) = ∅ /\
  keyed (waiting_updates_ (pc s)) /\ keyed2 (pending_updates_ (pc s)) /\ keyed (buffered_requests_ (pc s)).

Lemma quiet_inv s : quiet s -> inv [] s.
Proof.
  intros (Hm & Hu & Hf & Hk). unfold inv. rewrite Hm, Hu, Hf. refine (conj _ (conj _ (conj _ (conj _ Hk)))).
  - intros p. by rewrite decide_False by set_solver.
  - intros p. rewrite lookup_empty, decide_False by (by intros []). done.
  - intros p. unfold lookup_or. by rewrite lookup_empty.
  - intros p [? Hp]. by rewrite lookup_empty in Hp.
Qed.

Lemma keyed_empty : keyed ∅.
Proof. intros k l m Hk. by rewrite lookup_empty in Hk. Qed.
Lemma keyed2_empty : keyed2 ∅.
Proof. intros k i v l m Hk. by rewrite lookup_empty in Hk. Qed.

Lemma Setup_quiet sp s : quiet s -> wp any (Setup sp) s (fun _ s' _ => quiet s').
Proof.
  intros Hs. unfold Setup, cast_MapJoin, cmap_GetNumParts, cmap_Get, ReportFinishPart, mod_pc, pcs.
  pose proof Hs as (Hm & Hu & Hf & _ & _ & Hb).
  pose proof (conj Hm (conj Hu (conj Hf (conj keyed_empty (conj keyed2_empty Hb))))) as Hq0.
  repeat first
    [ wstep
    | (apply wp_on_pm; intros ? ?)
    | (apply (wp_for_each_state any quiet);
       [first [exact Hq0|assumption]|intros ? ? _ Hq; wstep; exact Hq|intros ? ? ?]) ];
    assumption.
Qed.

Lemma initial_inv s : initial s -> sys_inv s.
Proof.
  intros [sp q cm id st' os Hset]. split; [|done]. cbn. apply quiet_inv.
  eapply (wp_Ok any _ _ _ _ _ (fun _ s' _ => quiet s') Hset), Setup_quiet.
  repeat split; [apply keyed_empty|apply keyed2_empty|apply keyed_empty].
Qed.

Lemma run_inv s tr : run s tr -> sys_inv s.
Proof. induction 1 as [s Hi|s tr os s' _ IH Hs]; [by apply initial_inv|by eapply step_inv]. Qed.

(** ** Exclusion *)

Definition updates_part (p : Z) (t : task P Stream) : Prop := TokUpd p ∈ task_toks t.
Definition maps_part (p : Z) (t : task P Stream) : Prop := TokMap p ∈ task_toks t.
Definition fetches_part (p : Z) (t : task P Stream) : Prop := TokFetch p ∈ task_toks t.

Lemma stoks_pool s t k l1 l2 :
  pool s = l1 ++ t :: l2 -> cnt k (stoks s) =
  cnt k (task_toks t) + cnt k (l1 ≫= task_toks) + cnt k (l2 ≫= task_toks) +
  cnt k (queue s ≫= msg_toks) + cnt k (later s ≫= msg_toks) + cnt k (TokFetch <$> grants s).
Proof.
  intros Hp. unfold stoks. rewrite Hp, bind_app. cbn [mbind list_bind]. rewrite !cnt_app. lia.
Qed.

Lemma cnt_task k (l : list (task P Stream)) t : t ∈ l -> k ∈ task_toks t -> 0 < cnt k (l ≫= task_toks).
Proof. intros Ht Hk. apply cnt_pos, list_elem_of_bind. eauto. Qed.

(** C4: while an update or a checkpoint of partition [p] is pending or running on a node, no
    other update or checkpoint of [p] is; no map of [p] is when the map collection is the
    update collection; and when the fetched collection is the update collection, no fetch
    of [p] is and the local fetcher holds no access to [p].  This holds whatever messages
    arrive and in whatever order tasks run, migrations, checkpoints and speculative maps
    included. *)
Theorem update_exclusion s tr l1 t l2 p :
  run s tr -> pool s = l1 ++ t :: l2 -> updates_part p t ->
  (forall t', t' ∈ l1 ++ l2 -> ~ updates_part p t') /\
  (map_collection_id_ (pc (st s)) = update_collection_id_ (pc (st s)) ->
     forall t', t' ∈ pool s -> ~ maps_part p t') /\
  (fetch_collection_id_ (pc (st s)) = update_collection_id_ (pc (st s)) ->
     (forall t', t' ∈ pool s -> ~ fetches_part p t') /\ p ∉ grants s).
Proof.
  intros [Hinv _]%run_inv Hpool Ht. destruct Hinv as (Hm & Hu & Hf & Hx & _).
  assert (0 < cnt (TokUpd p) (task_toks t)) as Hpos by by apply cnt_pos.
  pose proof (stoks_pool s t (TokUpd p) l1 l2 Hpool) as Hc. rewrite Hu in Hc.
  assert (forall l, 0 <= cnt (TokUpd p) l) as Hnn by (intros; apply cnt_nonneg).
  pose proof (Hnn (l1 ≫= task_toks)). pose proof (Hnn (l2 ≫= task_toks)).
  pose proof (Hnn (queue s ≫= msg_toks)). pose proof (Hnn (later s ≫= msg_toks)).
  pose proof (Hnn (TokFetch <$> grants s)).
  case_decide as Hru; [|lia]. destruct (Hx p Hru) as [Hxm Hxf]. split_and!.
  - intros t' [Ht'|Ht']%elem_of_app Hup; pose proof (cnt_task _ _ _ Ht' Hup); lia.
  - intros E t' Ht' Hmp. specialize (Hm p). rewrite decide_False in Hm by auto.
    pose proof (cnt_task _ _ _ Ht' Hmp). unfold stoks in Hm. rewrite cnt_app in Hm.
    pose proof (cnt_nonneg (TokMap p) ((queue s ≫= msg_toks) ++ (later s ≫= msg_toks) ++ (TokFetch <$> grants s))).
    lia.
  - intros E. specialize (Hf p). rewrite (Hxf E) in Hf. unfold stoks in Hf. rewrite !cnt_app in Hf.
    assert (forall l, 0 <= cnt (TokFetch p) l) as Hnf by (intros; apply cnt_nonneg).
    pose proof (Hnf (pool s ≫= task_toks)). pose proof (Hnf (queue s ≫= msg_toks)).
    pose proof (Hnf (later s ≫= msg_toks)). pose proof (Hnf (TokFetch <$> grants s)). split.
    + intros t' Ht' Hft. pose proof (cnt_task _ _ _ Ht' Hft). lia.
    + intros Hg. assert (0 < cnt (TokFetch p) (TokFetch <$> grants s)); [|lia].
      apply cnt_pos, list_elem_of_fmap. eauto.
Qed.
End Exclusion.

(** ** A concrete run *)

#[export] Instance iter_sorted : IterOrder :=
  {| iter := @entries; iter_perm := @entries_Permutation |}.

(** Partitions hold a counter, streams an increment. *)
#[export] Instance demo_user : UserCode Z Z :=
  {| part_ToBin := fun p => empty_stream << p;
     fn_CreatePart := fun _ => Some (fun _ => 0);
     fn_Map := fun _ => Some (fun p => [p]);
     fn_MapWith := fun _ => Some (fun _ _ p => [p]);
     fn_Join := fun _ => Some (fun p _ => p);
     fn_Join2 := fun _ => Some Z.add;
     fn_Getter := fun _ => Some (fun _ p => (empty_stream, p));
     stream_Serialize := fun x => empty_stream << x;
     stream_DoCombine := fun x => x;
     stream_DoAppend := Z.add |}.

Definition demo_spec (mid uid : Z) : SpecWrapper :=
  {| spec_type := TMapJoin; spec_id := 0; spec_name := "demo";
     spec := SMapJoin {| map_collection_id := mid; update_collection_id := uid;
       combine_timeout := -1; num_iter := 3; staleness := 1; checkpoint_interval := 0;
       checkpoint_path := ""; description := "" |} |}.
Definition demo_view (c : Z) : CollectionView :=
  {| view_collection_id := c; view_num_partition := 1; view_mapper := {| v_ := [1] |} |}.
Definition demo_node (mid uid : Z) : NodeSt Z Z :=
  {| pc := new_pc;
     pm := {| partitions_ := <[mid := {[0 := 5]}]> {[uid := {[0 := 7]}]} |};
     cmap := <[mid := demo_view mid]> {[uid := demo_view uid]}; my_id := 1 |}.

(** Executable steps. *)
Inductive action := ADeliver (m : ctrl_msg) | AHandle | ATask (n : nat).
Definition plain (m : ctrl_msg) : bool :=
  match m with
  | kStart | kUpdateVersion _ | kReceiveJoin _ | kFetchRequest _ _ _ _ => true
  | _ => false
  end.
Definition sim_step (a : action) (s : sys (P := Z) (Stream := Z)) : option (sys (P := Z) (Stream := Z)) :=
  match a with
  | ADeliver m =>
      if plain m then Some {| st := st s; pool := pool s; queue := queue s ++ [m];
                              later := later s; grants := grants s |} else None
  | AHandle =>
      match queue s with
      | m :: q =>
          match Process m (st s) with
          | Ok (tt, st', os) =>
              Some (absorb os {| st := st'; pool := pool s; queue := q; later := later s; grants := grants s |})
          | Err _ => None
          end
      | [] => None
      end
  | ATask n =>
      match pool s !! n with
      | Some t =>
          match run_task t (st s) with
          | Ok (tt, st', os) =>
              Some (absorb os {| st := st'; pool := take n (pool s) ++ drop (S n) (pool s);
                                 queue := queue s; later := later s; grants := grants s |})
          | Err _ => None
          end
      | None => None
      end
  end.
Definition sim (mid uid : Z) (l : list action) : option (sys (P := Z) (Stream := Z)) :=
  match Setup (demo_spec mid uid) (demo_node mid uid) with
  | Ok (tt, st', _) =>
      foldl (fun o a => s ← o; sim_step a s)
        (Some {| st := st'; pool := []; queue := []; later := []; grants := [] |}) l
  | Err _ => None
  end.

Lemma sim_step_sound a s s' : sim_step a s = Some s' -> exists os, step s os s'.
Proof.
  destruct a as [m| |n]; cbn.
  - destruct (plain m) eqn:Hp; [|done]. intros [= <-]. eexists. apply step_deliver.
    split; by destruct m.
  - destruct (queue s) as [|m q] eqn:Hq; [done|].
    destruct (Process m (st s)) as [[[[] st'] os]|e] eqn:Hm; [|done]. intros [= <-].
    exists os. by eapply step_local, step_handle.
  - destruct (pool s !! n) as [t|] eqn:Ht; [|done].
    destruct (run_task t (st s)) as [[[[] st'] os]|e] eqn:Hm; [|done]. intros [= <-].
    exists os. eapply step_local, step_task; [|exact Hm]. symmetry. by apply take_drop_middle.
Qed.

Lemma sim_sound mid uid l s : sim mid uid l = Some s -> exists tr, run s tr.
Proof.
  unfold sim. destruct (Setup _ _) as [[[[] st'] os]|e] eqn:Hset; [|done].
  induction l as [|a l IH] using rev_ind in s |- *; cbn.
  - intros [= <-]. exists []. apply run_start. econstructor. exact Hset.
  - rewrite foldl_snoc. destruct (foldl _ _ l) as [s1|]; [|done]. cbn. intros Hs.
    destruct (IH s1 eq_refl) as [tr Htr]. apply sim_step_sound in Hs as [os' Hos].
    exists (tr ++ os'). by eapply run_step.
Qed.

Definition demo_join : VersionedJoinMeta :=
  {| vj_meta := {| vs_plan_id := 0; vs_collection_id := 2; vs_part_id := 0;
       vs_upstream_part_id := -1; vs_version := 0; vs_is_fetch := false; vs_sender := -1;
       vs_recver := -1; vs_local_mode := false; vs_ext_upstream_part_ids := [0] |};
     vj_bin := empty_stream |}.
Definition demo_run : list action := [ADeliver kStart; AHandle; ADeliver (kReceiveJoin demo_join); AHandle].

(** The map of partition 0 and the update of partition 0 of another collection are both
    in the pool. *)
Lemma update_exclusion_witness :
  exists s l1 t, sim 1 2 demo_run = Some s /\ pool s = l1 ++ t :: [] /\ updates_part 0 t /\
    (forall t', t' ∈ l1 ++ [] -> ~ updates_part 0 t').
Proof.
  destruct (sim 1 2 demo_run) as [s|] eqn:Hs; [|vm_compute in Hs; discriminate].
  destruct (sim_sound _ _ _ _ Hs) as [tr Hrun].
  assert (pool s = [TMap 0 0 5] ++ TJoin demo_join :: []) as Hp
    by (vm_compute in Hs; injection Hs as <-; reflexivity).
  assert (updates_part (P := Z) (Stream := Z) 0 (TJoin demo_join)) as Hu
    by (apply list_elem_of_singleton; reflexivity).
  exists s, [TMap 0 0 5], (TJoin demo_join). split; [reflexivity|]. split; [exact Hp|]. split; [exact Hu|].
  exact (proj1 (update_exclusion s tr [TMap 0 0 5] (TJoin demo_join) [] 0 Hrun Hp Hu)).
Defined.
