(* ===== verification/PlanTokens.v ===== *)
(** * Conservation of updates on a node

    An update of partition [p] by upstream partition [u] in iteration [v] is written
    [(p, v, u)].  On its way from the map task that makes it to the task that applies it, it
    sits in the delayed combiner, in a message, or in one of the queues of the plan
    controller, possibly joined with the updates of other upstream partitions.  This file
    proves, for every handler and every task of a node that takes no part in a migration,
    that updates are neither lost nor made up, and that a handler drops an update only when
    its tracker says that it was applied before. *)

From S2P Require Import Prelude BinStream Specs Index Messages Partition PlanController PlanFrame.

Lemma insert_touch {A} (d x : A) k m : <[k := x]> (touch d k m) = <[k := x]> m.
Proof. unfold touch. apply insert_insert_eq. Qed.

(** ** Updates *)

Abbreviation jtok := (Z * Z * Z)%type.
Definition jpart (t : jtok) : Z := t.1.1.
Definition jversion (t : jtok) : Z := t.1.2.

(** The updates a join brings; a fetch brings none. *)
Definition meta_jt (m : VersionedJoinMeta) : list jtok :=
  if vs_is_fetch (vj_meta m) then []
  else (fun u => (vs_part_id (vj_meta m), vs_version (vj_meta m), u)) <$> join_ids (vj_meta m).
Definition metas_jt (l : list VersionedJoinMeta) : list jtok := l ≫= meta_jt.
Definition ups_jt (p v : Z) (us : list Z) : list jtok := (fun u => (p, v, u)) <$> us.

(** A request as the plan controllers make them: joins name their upstream partitions in the
    list. *)
Definition join_wf (m : VersionedJoinMeta) : Prop :=
  vs_is_fetch (vj_meta m) = true \/
  (vs_upstream_part_id (vj_meta m) = -1 /\ vs_ext_upstream_part_ids (vj_meta m) <> []).
Definition queued (k : Z) (m : VersionedJoinMeta) : Prop :=
  vs_part_id (vj_meta m) = k /\ join_wf m.

Lemma elem_of_meta_jt m t : t ∈ meta_jt m ->
  jpart t = vs_part_id (vj_meta m) /\ jversion t = vs_version (vj_meta m) /\ t.2 ∈ join_ids (vj_meta m).
Proof.
  unfold meta_jt. destruct (vs_is_fetch _); [set_solver|]. by intros (u & -> & Hu)%list_elem_of_fmap.
Qed.
Lemma cnt_meta_part m t : jpart t <> vs_part_id (vj_meta m) -> cnt t (meta_jt m) = 0.
Proof. intros Hp. apply cnt_zero. by intros (? & _)%elem_of_meta_jt. Qed.
Lemma cnt_meta_version m t : jversion t <> vs_version (vj_meta m) -> cnt t (meta_jt m) = 0.
Proof. intros Hp. apply cnt_zero. by intros (_ & ? & _)%elem_of_meta_jt. Qed.
Lemma cnt_ups_part p v us t : jpart t <> p -> cnt t (ups_jt p v us) = 0.
Proof. intros Hp. apply cnt_zero. by intros (u & -> & _)%list_elem_of_fmap. Qed.
Lemma cnt_ups_version p v us t : jversion t <> v -> cnt t (ups_jt p v us) = 0.
Proof. intros Hp. apply cnt_zero. by intros (u & -> & _)%list_elem_of_fmap. Qed.
Lemma metas_jt_app l l' : metas_jt (l ++ l') = metas_jt l ++ metas_jt l'.
Proof. apply bind_app. Qed.

(** ** Updates held by a queue

    A queue is a map from partitions to lists of requests, each under its own partition, so
    the updates of partition [p] are in the list of [p]. *)

Definition in_queue (t : jtok) (w : gmap Z (list VersionedJoinMeta)) : Z :=
  cnt t (metas_jt (lookup_or [] (jpart t) w)).
Definition in_pending (t : jtok) (w : gmap Z (gmap Z (list VersionedJoinMeta))) : Z :=
  cnt t (metas_jt (lookup_or [] (jversion t) (lookup_or ∅ (jpart t) w))).

Definition queue_ok (w : gmap Z (list VersionedJoinMeta)) : Prop :=
  forall k m, m ∈ lookup_or [] k w -> queued k m.
Definition pending_ok (w : gmap Z (gmap Z (list VersionedJoinMeta))) : Prop :=
  forall k v m, m ∈ lookup_or [] v (lookup_or ∅ k w) -> queued k m /\ vs_version (vj_meta m) = v.

Lemma queue_ok_insert w k l : queue_ok w -> (forall m, m ∈ l -> queued k m) -> queue_ok (<[k := l]> w).
Proof.
  intros Hw Hl k' m. destruct (decide (k = k')) as [<-|]; [rewrite lookup_or_insert; apply Hl|].
  rewrite lookup_or_insert_ne by done. apply Hw.
Qed.
Lemma queue_ok_touch w k : queue_ok w -> queue_ok (touch [] k w).
Proof. intros Hw k' m. rewrite lookup_or_touch. apply Hw. Qed.
Lemma queue_ok_push w k l : queue_ok w -> (forall m, m ∈ l -> queued k m) ->
  queue_ok (<[k := lookup_or [] k w ++ l]> w).
Proof.
  intros Hw Hl. apply queue_ok_insert; [done|]. intros m [Hm|Hm]%elem_of_app; [by apply Hw|by apply Hl].
Qed.
Lemma in_queue_touch t w k : in_queue t (touch [] k w) = in_queue t w.
Proof. unfold in_queue. by rewrite lookup_or_touch. Qed.

Lemma in_queue_push t w k l : (forall m, m ∈ l -> queued k m) ->
  in_queue t (<[k := lookup_or [] k w ++ l]> w) = in_queue t w + cnt t (metas_jt l).
Proof.
  intros Hl. unfold in_queue. destruct (decide (k = jpart t)) as [->|Hne].
  - by rewrite lookup_or_insert, metas_jt_app, cnt_app.
  - rewrite lookup_or_insert_ne by done. rewrite (cnt_zero t (metas_jt l)); [lia|].
    intros (m & Ht & Hm)%list_elem_of_bind. apply elem_of_meta_jt in Ht as (Hp & _).
    destruct (Hl m Hm) as [Hk _]. congruence.
Qed.

Lemma in_queue_pop t w k m rest : queue_ok w -> lookup_or [] k w = m :: rest ->
  in_queue t w = in_queue t (<[k := rest]> w) + cnt t (meta_jt m).
Proof.
  intros Hw Hl. unfold in_queue. destruct (decide (k = jpart t)) as [->|Hne].
  - rewrite lookup_or_insert, Hl. change (metas_jt (m :: rest)) with (meta_jt m ++ metas_jt rest).
    rewrite cnt_app. lia.
  - rewrite lookup_or_insert_ne by done. rewrite (cnt_meta_part m t); [lia|].
    destruct (Hw k m) as [Hk _]; [rewrite Hl; left|congruence].
Qed.

(** [pending[k][v] = l] *)
Definition set_pending (k v : Z) (l : list VersionedJoinMeta) (w : gmap Z (gmap Z (list VersionedJoinMeta))) :
    gmap Z (gmap Z (list VersionedJoinMeta)) := <[k := <[v := l]> (lookup_or ∅ k w)]> w.

Lemma lookup_set_pending k v l w k' v' :
  lookup_or [] v' (lookup_or ∅ k' (set_pending k v l w)) =
  if decide (k' = k /\ v' = v) then l else lookup_or [] v' (lookup_or ∅ k' w).
Proof.
  unfold set_pending. destruct (decide (k = k')) as [<-|Hk].
  - rewrite lookup_or_insert. destruct (decide (v = v')) as [<-|Hv].
    + by rewrite lookup_or_insert, decide_True.
    + rewrite lookup_or_insert_ne, decide_False by naive_solver. done.
  - rewrite lookup_or_insert_ne, decide_False by naive_solver. done.
Qed.

Lemma pending_ok_set k v l w : pending_ok w ->
  (forall m, m ∈ l -> queued k m /\ vs_version (vj_meta m) = v) -> pending_ok (set_pending k v l w).
Proof.
  intros Hw Hl k' v' m. rewrite lookup_set_pending. case_decide as Hd; [|apply Hw].
  destruct Hd as [-> ->]. apply Hl.
Qed.

Lemma in_pending_set t k v l w : pending_ok w ->
  (forall m, m ∈ l -> queued k m /\ vs_version (vj_meta m) = v) ->
  in_pending t (set_pending k v l w) + cnt t (metas_jt (lookup_or [] v (lookup_or ∅ k w))) =
  in_pending t w + cnt t (metas_jt l).
Proof.
  intros Hw Hl. unfold in_pending. rewrite lookup_set_pending. case_decide as Hd.
  - destruct Hd as [-> ->]. lia.
  - assert (forall l', (forall m, m ∈ l' -> queued k m /\ vs_version (vj_meta m) = v) ->
      cnt t (metas_jt l') = 0) as Hz.
    { intros l' Hl'. apply cnt_zero. intros (m & Ht & Hm)%list_elem_of_bind.
      apply elem_of_meta_jt in Ht as (Hp & Hv & _). destruct (Hl' m Hm) as [[Hk _] <-].
      apply Hd. by rewrite Hp, Hv. }
    rewrite (Hz l Hl), (Hz _ (Hw k v)). lia.
Qed.

Section Tokens.
Context {P Stream : Type} `{UserCode P Stream} `{IterOrder}.
Abbreviation NodeS := (NodeSt P Stream).
Abbreviation outs := (list (out P Stream)).

(** ** Updates in tasks, messages and outputs *)

Definition output_jt (u v : Z) (output : list Stream) : list jtok :=
  (fun q => (q, v, u)) <$> seqZ 0 (Z.of_nat (length output)).
Definition task_jt (t : task P Stream) : list jtok :=
  match t with
  | TMapped u v o => output_jt u v o
  | TJoin m => meta_jt m
  | TCombine p v l => ups_jt p v l.*1
  | _ => []
  end.
Definition msg_jt (m : ctrl_msg) : list jtok := match m with kReceiveJoin m => meta_jt m | _ => [] end.
Definition out_jt (o : out P Stream) : list jtok :=
  match o with
  | Submit t => task_jt t
  | Push m | PushLater m | Send _ _ m => msg_jt m
  | _ => []
  end.
(** The updates that a finished map makes, and those that a finished join has applied. *)
Definition made_by (o : out P Stream) : list jtok :=
  match o with Submit (TMapped u v x) => output_jt u v x | _ => [] end.
Definition applied_by (o : out P Stream) : list jtok :=
  match o with Push (kFinishJoin p v us) => ups_jt p v us | _ => [] end.
Definition in_flight (os : outs) : list jtok := os ≫= out_jt.
Definition made (os : outs) : list jtok := os ≫= made_by.
Definition applied (os : outs) : list jtok := os ≫= applied_by.

(** Joins that a node passes on are well-formed, and without a migration it sends nothing
    else to other controllers. *)
Definition msg_wf (m : ctrl_msg) : Prop :=
  match m with
  | kSetup _ | kMigratePartition _ _ | kReassignMap _ => False
  | kReceiveJoin m => vs_is_fetch (vj_meta m) = false /\ join_wf m
  | _ => True
  end.
Definition task_wf (t : task P Stream) : Prop :=
  match t with TJoin m => vs_is_fetch (vj_meta m) = false /\ join_wf m | _ => True end.
Definition out_wf (o : out P Stream) : Prop :=
  match o with
  | Push m => msg_wf m
  | Send _ _ (kReceiveJoin m) => vs_is_fetch (vj_meta m) = false /\ join_wf m
  | Send _ _ _ | PushLater _ => False
  | Submit t => task_wf t
  | _ => True
  end.

(** ** Updates in the state of the controller *)

Definition store_cell (p : Z) (st : list (gmap Z (list (Z * Stream)))) : gmap Z (list (Z * Stream)) :=
  if 0 <=? p then default ∅ (st !! Z.to_nat p) else ∅.
Definition in_store (t : jtok) (st : list (gmap Z (list (Z * Stream)))) : Z :=
  cnt t (ups_jt (jpart t) (jversion t) (lookup_or [] (jversion t) (store_cell (jpart t) st)).*1).
Definition held (t : jtok) (c : PC Stream) : Z :=
  in_queue t (waiting_updates_ c) + in_pending t (pending_updates_ c) +
  in_queue t (buffered_requests_ c) + in_store t (store_ c).

(** The updates named by the tracker satisfy [Ap]; no partition is being migrated. *)
Context (Ap : jtok -> Prop).
Definition tracked (tr : gmap Z (gmap Z (gset Z))) : Prop :=
  forall p v u, u ∈ tracker_get p v tr -> Ap (p, v, u).
Definition steady (c : PC Stream) : Prop :=
  tracked (update_tracker_ c) /\ queue_ok (waiting_updates_ c) /\ pending_ok (pending_updates_ c) /\
  queue_ok (buffered_requests_ c) /\ stop_updateing_partitions_ c = ∅.

(** Consuming the updates [ts0]: what comes in is what is held, on its way, applied, or
    dropped, and only updates with [Ap] are dropped. *)
Definition conserves (ts0 : list jtok) (s : NodeS) (os : outs) (s' : NodeS) : Prop :=
  steady (pc s) -> steady (pc s') /\ Forall out_wf os /\ exists D, Forall Ap D /\ forall t,
    held t (pc s) + cnt t ts0 + cnt t (made os) =
    held t (pc s') + cnt t (in_flight os) + cnt t (applied os) + cnt t D.

Lemma conserves_trans ts1 ts2 s1 s2 s3 os os' :
  conserves ts1 s1 os s2 -> conserves ts2 s2 os' s3 -> conserves (ts1 ++ ts2) s1 (os ++ os') s3.
Proof.
  intros H1 H2 Hs. destruct (H1 Hs) as (Hs2 & Ho1 & D1 & HD1 & Hc1).
  destruct (H2 Hs2) as (Hs3 & Ho2 & D2 & HD2 & Hc2).
  split; [done|]. split; [by apply Forall_app|]. exists (D1 ++ D2). split; [by apply Forall_app|]. intros t.
  unfold made, in_flight, applied in *. rewrite !bind_app, !cnt_app. specialize (Hc1 t). specialize (Hc2 t). lia.
Qed.

#[global] Instance conserves_tracking : Tracking (conserves []).
Proof.
  split; [|intros s1 s2 s3 os os'; apply (conserves_trans [] [])].
  intros s Hs. split; [done|]. split; [constructor|]. exists []. split; [constructor|]. intros t.
  unfold made, in_flight, applied. cbn -[cnt held]. rewrite !cnt_nil. lia.
Qed.

Definition view (c : PC Stream) :=
  (update_tracker_ c, waiting_updates_ c, pending_updates_ c, buffered_requests_ c, store_ c,
   stop_updateing_partitions_ c).

Lemma conserves_skip s os s' :
  view (pc s') = view (pc s) -> made os = [] -> in_flight os = [] -> applied os = [] ->
  Forall out_wf os -> conserves [] s os s'.
Proof.
  unfold view. intros [= E1 E2 E3 E4 E5 E6] Hm Hf Ha Ho Hs. rewrite Hm, Hf, Ha.
  unfold steady, held in *. rewrite E1, E2, E3, E4, E5, E6. split; [done|]. split; [done|]. exists []. split; [constructor|].
  intros t. rewrite !cnt_nil. lia.
Qed.

(** Updates that were applied before may be dropped. *)
Lemma conserves_drop ts s os s' : Forall Ap ts -> conserves [] s os s' -> conserves ts s os s'.
Proof.
  intros Hts Hc Hs. destruct (Hc Hs) as (Hs' & Ho & D & HD & Ht). split; [done|]. split; [done|]. exists (ts ++ D).
  split; [by apply Forall_app|]. intros t. specialize (Ht t). rewrite cnt_app. rewrite cnt_nil in Ht. lia.
Qed.

(** Updates that are passed on. *)
Lemma conserves_emit o s : made_by o = [] -> applied_by o = [] -> out_wf o -> conserves (out_jt o) s [o] s.
Proof.
  intros Hm Ha Ho Hs. split; [done|]. split; [by repeat constructor|]. exists []. split; [constructor|]. intros t.
  unfold made, in_flight, applied. cbn -[cnt held out_jt made_by applied_by].
  rewrite Hm, Ha, !app_nil_r, !cnt_nil. lia.
Qed.

(** A change of the state that consumes [ts0] and emits nothing. *)
Lemma conserves_silent ts0 s s' :
  (steady (pc s) -> steady (pc s') /\ forall t, held t (pc s) + cnt t ts0 = held t (pc s')) ->
  conserves ts0 s [] s'.
Proof.
  intros Hc Hs. destruct (Hc Hs) as [Hs' Ht]. split; [done|]. split; [constructor|]. exists []. split; [constructor|].
  intros t. specialize (Ht t). unfold made, in_flight, applied. cbn -[cnt held]. rewrite !cnt_nil. lia.
Qed.
End Tokens.

(** Steps that do not touch the tracked parts. *)
Ltac conserve_skip :=
  intros; first
    [ apply conserves_skip; solve [reflexivity | by repeat constructor]
    | unfold wp; repeat case_match;
      first [done | apply conserves_skip; solve [reflexivity | by repeat constructor]] ].
Ltac conserve_step := track_step_with conserve_skip.
Ltac solve_conserves := repeat conserve_step.

Section Handlers.
Context {P Stream : Type} `{UserCode P Stream} `{IterOrder}.
Abbreviation NodeS := (NodeSt P Stream).
Abbreviation outs := (list (out P Stream)).
Abbreviation Comp := (M NodeS (out P Stream)).
Context (Ap : jtok -> Prop).
Abbreviation consuming ts := (tracks (P := P) (Stream := Stream) (conserves Ap ts)).
Abbreviation conserving := (tracks (P := P) (Stream := Stream) (conserves Ap [])).

Lemma tracks_in_l {A B} ts (m : Comp A) (k : A -> Comp B) :
  consuming ts m -> (forall a, conserving (k a)) -> consuming ts (bind m k).
Proof.
  intros Hm Hk s. wstep. eapply wp_mono; [apply Hm|]. intros a s1 o1 H1.
  eapply wp_mono; [apply Hk|]. intros b s2 o2 H2. rewrite <- (app_nil_r ts). exact (conserves_trans _ _ _ _ _ _ _ _ H1 H2).
Qed.
Lemma tracks_in_r {A B} ts (m : Comp A) (k : A -> Comp B) :
  conserving m -> (forall a, consuming ts (k a)) -> consuming ts (bind m k).
Proof.
  intros Hm Hk s. wstep. eapply wp_mono; [apply Hm|]. intros a s1 o1 H1.
  eapply wp_mono; [apply Hk|]. intros b s2 o2 H2. change ts with ([] ++ ts). exact (conserves_trans _ _ _ _ _ _ _ _ H1 H2).
Qed.
Lemma conserving_mod (f : PC Stream -> PC Stream) :
  (forall c, steady Ap c -> steady Ap (f c) /\ forall t, held t c = held t (f c)) -> conserving (mod_pc f).
Proof.
  intros Hf. apply tracks_mod. intros s. apply conserves_silent. intros Hs. destruct (Hf _ Hs) as [Hs' Ht].
  split; [exact Hs'|]. intros t. rewrite cnt_nil, Z.add_0_r. apply Ht.
Qed.

Lemma tracks_steady {A} ts (m : Comp A) :
  (forall s, steady Ap (pc s) -> wp any m s (fun _ s' os => conserves Ap ts s os s')) ->
  consuming ts m.
Proof.
  intros Hm s. unfold wp. destruct (m s) as [[[a s'] os]|e] eqn:E; [|done]. intros Hs.
  specialize (Hm s Hs). unfold wp in Hm. rewrite E in Hm. by apply Hm.
Qed.

(** ** The tracker *)

Lemma tracker_get_touch p v p' v' t : tracker_get p v (tracker_touch p' v' t) = tracker_get p v t.
Proof.
  unfold tracker_get, tracker_touch. destruct (decide (p' = p)) as [->|].
  - by rewrite lookup_or_insert, lookup_or_touch.
  - by rewrite lookup_or_insert_ne.
Qed.
Lemma tracker_get_upd p v p' v' f t :
  tracker_get p v (tracker_upd p' v' f t) =
  if decide (p = p' /\ v = v') then f (tracker_get p v t) else tracker_get p v t.
Proof.
  unfold tracker_get, tracker_upd. destruct (decide (p' = p)) as [->|].
  - rewrite lookup_or_insert. destruct (decide (v' = v)) as [->|].
    + by rewrite lookup_or_insert, decide_True.
    + rewrite lookup_or_insert_ne, decide_False by naive_solver. done.
  - rewrite lookup_or_insert_ne, decide_False by naive_solver. done.
Qed.
Lemma tracker_get_delete p v w t :
  tracker_get p v (delete w <$> t) = if decide (v = w) then ∅ else tracker_get p v t.
Proof.
  unfold tracker_get, lookup_or at 2 4. rewrite lookup_fmap. unfold lookup_or.
  destruct (t !! p) as [i|]; cbn.
  - case_decide as Hd; [subst; by rewrite lookup_delete_eq|by rewrite lookup_delete_ne].
  - rewrite lookup_empty. by case_decide.
Qed.

(** The updates of a join that was applied before are all in the tracker. *)
Lemma wp_joined m s (Q : bool -> NodeS -> outs -> Prop) :
  (forall b, (b = true -> vs_upstream_part_id m = -1 -> forall u, u ∈ vs_ext_upstream_part_ids m ->
                u ∈ tracker_get (vs_part_id m) (vs_version m) (update_tracker_ (pc s))) ->
     Q b (s <| pc ::= fun c => c <| update_tracker_ ::= tracker_touch (vs_part_id m) (vs_version m) |> |>) []) ->
  wp any (IsJoinedBefore m) s Q.
Proof.
  intros HQ. unfold IsJoinedBefore, mod_pc, pcs. wstep.
  - wstep. wstep. wstep. wstep. wstep. wstep. wstep. wstep. wstep. cbn. rewrite tracker_get_touch.
    set (dn := tracker_get _ _ _).
    eapply (wp_for_each any (fun l s' os => os = [] /\
      s' = s <| pc ::= fun c => c <| update_tracker_ ::= tracker_touch (vs_part_id m) (vs_version m) |> |> /\
      forall u, u ∈ vs_ext_upstream_part_ids m -> u ∉ l -> bool_decide (x ∈ dn) = bool_decide (u ∈ dn))).
    + split_and!; [done|done|]. intros u Hu Hn.
      destruct (vs_ext_upstream_part_ids m) as [|y l]; [done|]. injection Hx as ->. cbn in Hn.
      apply elem_of_cons in Hu as [->|?]; done.
    + intros u l s1 os (-> & -> & Hl). wstep. split_and!; [done|done|]. apply Bool.eqb_prop in Hck0.
      intros u' Hu' Hn. destruct (decide (u' = u)) as [->|]; [done|]. apply Hl; [done|set_solver].
    + intros s1 os (-> & -> & Hl). wstep. apply HQ. intros Hb _ u Hu.
      specialize (Hl u Hu ltac:(set_solver)). rewrite Hb in Hl. symmetry in Hl.
      by apply bool_decide_eq_true in Hl.
  - wstep. wstep. wstep. wstep. wstep. apply HQ. intros _ He. lia.
Qed.

Lemma conserving_touch_tracker p v (s : NodeS) :
  conserves Ap [] s [] (s <| pc ::= fun c => c <| update_tracker_ ::= tracker_touch p v |> |>).
Proof.
  apply conserves_silent. intros (Ht & Hs). split; [|intros t; rewrite cnt_nil; unfold held; cbn; lia].
  split; [|exact Hs]. intros p' v' u. cbn. rewrite tracker_get_touch. apply Ht.
Qed.
Lemma conserving_IsJoinedBefore m : conserving (IsJoinedBefore m).
Proof. intros s. apply wp_joined. intros b _. apply conserving_touch_tracker. Qed.

Lemma conserving_Report f p v : conserving (ReportFinishPart f p v).
Proof. unfold ReportFinishPart. solve_conserves. Qed.
Hint Resolve conserving_Report : track_db.
Lemma conserving_TryRunSomeMaps : conserving TryRunSomeMaps.
Proof. unfold TryRunSomeMaps, IsMapRunnable, RunMap. solve_conserves. Qed.
Hint Resolve conserving_TryRunSomeMaps : track_db.
Lemma conserving_RunFetchRequest m : conserving (RunFetchRequest m).
Proof. unfold RunFetchRequest. solve_conserves. Qed.

(** ** Running joins *)

Lemma RunJoin_conserves retry m :
  (forall q, conserving (retry q)) -> vs_is_fetch (vj_meta m) = false -> join_wf m ->
  consuming (meta_jt m) (RunJoin retry m).
Proof.
  intros Hr Hnf [Hf|[Hup Hext]] s; [congruence|]. unfold RunJoin, pcs, mod_pc. wstep. apply wp_joined.
  intros joined Hj. wstep.
  - eapply wp_mono; [apply Hr|]. intros [] s' os Hc Hs. rewrite <- (app_nil_r (meta_jt m)).
    eapply conserves_trans; [|exact Hc|exact Hs]. apply conserves_drop; [|apply conserving_touch_tracker].
    apply Forall_forall. intros t Hin.
    unfold meta_jt, join_ids in Hin. rewrite Hnf in Hin. destruct (vs_ext_upstream_part_ids _) eqn:E; [done|].
    apply list_elem_of_fmap in Hin as (u & -> & Hu). apply Hs. auto.
  - wstep. wstep. wstep. wstep. wstep. wstep.
    apply (conserves_trans _ [] (meta_jt m) _ _ _ [] [Submit (TJoin m)]
             (conserving_touch_tracker (vs_part_id (vj_meta m)) (vs_version (vj_meta m)) s)).
    eapply (conserves_trans _ [] (meta_jt m) _ _ _ [] [Submit (TJoin m)]);
      [|by apply (conserves_emit Ap (Submit (TJoin m))); [..|split; [|right]]].
    by apply conserves_skip; [..|constructor].
Qed.

Lemma run_first_waiting_conserves retry p :
  (forall q, conserving (retry q)) -> conserving (run_first_waiting retry p).
Proof.
  intros Hr. apply tracks_steady. intros s (Ht & Hw & Hpd & Hb & Hst).
  unfold run_first_waiting, mod_pc. wstep. wstep. wstep; [wstep; apply track_refl|]. wstep. wstep.
  destruct (lookup_or [] p (waiting_updates_ (pc s))) as [|m rest] eqn:Hl.
  - wstep. apply conserves_silent. intros _. split.
    + refine (conj Ht (conj _ (conj Hpd (conj Hb Hst)))). by apply queue_ok_touch.
    + intros t. unfold held. cbn -[cnt]. rewrite in_queue_touch, cnt_nil. lia.
  - assert (queued p m) as [Hmp Hwf] by (apply Hw; rewrite Hl; left).
    wstep. wstep. set (s1 := upd pc _ (upd pc _ s)).
    assert (forall os s', conserves Ap (meta_jt m) s1 os s' -> conserves Ap [] s os s') as Hpop.
    { intros os s' Hc _. destruct Hc as (Hs' & Ho & D & HD & Hc).
      - refine (conj Ht (conj _ (conj Hpd (conj Hb Hst)))). unfold s1. cbn. rewrite insert_touch.
        apply queue_ok_insert; [done|]. intros m' Hm'. apply Hw. rewrite Hl. by right.
      - split; [done|]. split; [done|]. exists D. split; [done|]. intros t. rewrite <- (Hc t), cnt_nil.
        unfold held, s1. cbn -[cnt]. rewrite insert_touch, (in_queue_pop t _ _ _ _ Hw Hl). lia. }
    wstep. wstep.
    + eapply wp_mono; [apply RunJoin_conserves; [done|by apply negb_true_iff|done]|].
      intros [] s' os Hc. wstep. rewrite app_nil_r. by apply Hpop.
    + eapply wp_mono; [apply conserving_RunFetchRequest|]. intros [] s' os Hc. wstep.
      rewrite app_nil_r. apply Hpop. unfold meta_jt. apply negb_false_iff in Hif0. by rewrite Hif0.
Qed.

Lemma conserving_TryRunWaitingJoins p : conserving (TryRunWaitingJoins p).
Proof.
  unfold TryRunWaitingJoins. conserve_step; [conserve_step|]. generalize (total_waiting a). intros n. revert p.
  induction n as [|n IH]; intros p; cbn [TryRunWaitingJoins_]; unfold try_waiting;
    (conserve_step; [conserve_step|]); (conserve_step; [conserve_step|]);
    (conserve_step; [solve_conserves|]); (conserve_step; [conserve_step|]);
    apply run_first_waiting_conserves; intros q; [conserve_step|].
  conserve_step; [apply IH|conserve_step].
Qed.
Hint Resolve conserving_TryRunWaitingJoins conserving_RunFetchRequest : track_db.

(** ** Receiving joins and fetches *)

Lemma push_waiting_conserves k l : (forall m, m ∈ l -> queued k m) ->
  consuming (metas_jt l)
    (mod_pc (fun c => c <| waiting_updates_ ::= fun w => <[k := lookup_or [] k w ++ l]> w |>)).
Proof.
  intros Hl. apply tracks_mod. intros s. apply conserves_silent. intros (Ht & Hw & Hpd & Hb & Hst). split.
  - refine (conj Ht (conj _ (conj Hpd (conj Hb Hst)))). by apply queue_ok_push.
  - intros t. unfold held. cbn -[cnt]. rewrite in_queue_push by done. lia.
Qed.
Lemma push_buffered_conserves k l : (forall m, m ∈ l -> queued k m) ->
  consuming (metas_jt l)
    (mod_pc (fun c => c <| buffered_requests_ ::= fun w => <[k := lookup_or [] k w ++ l]> w |>)).
Proof.
  intros Hl. apply tracks_mod. intros s. apply conserves_silent. intros (Ht & Hw & Hpd & Hb & Hst). split.
  - refine (conj Ht (conj Hw (conj Hpd (conj _ Hst)))). by apply queue_ok_push.
  - intros t. unfold held. cbn -[cnt]. rewrite in_queue_push by done. lia.
Qed.
Lemma push_pending_conserves k v m : queued k m -> vs_version (vj_meta m) = v ->
  consuming (meta_jt m)
    (mod_pc (fun c => c <| pending_updates_ ::= fun p =>
      let inner := lookup_or ∅ k p in <[k := <[v := lookup_or [] v inner ++ [m]]> inner]> p |>)).
Proof.
  intros Hm Hv. apply tracks_mod. intros s. apply conserves_silent. intros (Ht & Hw & Hpd & Hb & Hst).
  set (l := lookup_or [] v (lookup_or ∅ k (pending_updates_ (pc s))) ++ [m]).
  assert (forall m', m' ∈ l -> queued k m' /\ vs_version (vj_meta m') = v) as Hl.
  { intros m' [Hm'| ->%list_elem_of_singleton]%elem_of_app; [by apply Hpd|done]. }
  split.
  - refine (conj Ht (conj Hw (conj _ (conj Hb Hst)))). by apply (pending_ok_set k v l).
  - intros t. unfold held. cbn -[cnt]. fold l.
    pose proof (in_pending_set t k v l _ Hpd Hl) as Hs. unfold set_pending in Hs.
    unfold l in Hs at 2. rewrite metas_jt_app, cnt_app in Hs. unfold metas_jt at 3 in Hs.
    cbn -[cnt] in Hs. rewrite app_nil_r in Hs. lia.
Qed.

Lemma metas_jt_one m : metas_jt [m] = meta_jt m.
Proof. apply app_nil_r. Qed.

(** The tracker was asked, so a join that is dropped was applied before. *)
Lemma ReceiveJoin_conserves m : vs_is_fetch (vj_meta m) = false -> join_wf m ->
  consuming (meta_jt m) (ReceiveJoin m).
Proof.
  intros Hnf Hwf. assert (forall m', m' ∈ [m] -> queued (vs_part_id (vj_meta m)) m') as Hq.
  { by intros m' ->%list_elem_of_singleton. }
  unfold ReceiveJoin. apply tracks_in_r; [conserve_step|]. intros c.
  destruct (negb _); [rewrite <- metas_jt_one; by apply push_buffered_conserves|].
  assert (forall pend : bool, consuming (meta_jt m)
    (if pend then
      mod_pc (fun c => c <| pending_updates_ ::= fun p =>
        let inner := lookup_or ∅ (vs_part_id (vj_meta m)) p in
        <[vs_part_id (vj_meta m) := <[vs_version (vj_meta m) :=
            lookup_or [] (vs_version (vj_meta m)) inner ++ [m]]> inner]> p |>)
     else
      mod_pc (fun c => c <| waiting_updates_ ::= fun w =>
        <[vs_part_id (vj_meta m) := lookup_or [] (vs_part_id (vj_meta m)) w ++ [m]]> w |>) ;;;
      TryRunWaitingJoins (vs_part_id (vj_meta m)) ;;; ret tt)) as Hpush.
  { intros []; [by apply push_pending_conserves|]. apply tracks_in_l; [|intros; solve_conserves].
    rewrite <- metas_jt_one. by apply push_waiting_conserves. }
  apply tracks_steady. intros s Hs. wstep. apply wp_joined. intros joined Hj.
  destruct Hwf as [Hf|[Hup Hext]]; [congruence|]. wstep.
  - wstep. apply conserves_drop; [|apply conserving_touch_tracker]. apply Forall_forall. intros t Hin.
    unfold meta_jt, join_ids in Hin. rewrite Hnf in Hin. destruct (vs_ext_upstream_part_ids _) eqn:E; [done|].
    apply list_elem_of_fmap in Hin as (u & -> & Hu). apply Hs. auto.
  - eapply wp_mono; [apply (tracks_in_r (meta_jt m)); [|exact Hpush]; solve_conserves|].
    intros [] s' os Hc. change (meta_jt m) with ([] ++ meta_jt m). 
    eapply conserves_trans; [apply conserving_touch_tracker|exact Hc].
Qed.

Lemma conserving_ReceiveFetchRequest fm bin sd rc : conserving (ReceiveFetchRequest fm bin sd rc).
Proof.
  unfold ReceiveFetchRequest. do 6 (conserve_step; [conserve_step|]).
  set (fetch_meta := {| vj_meta := _; vj_bin := _ |}).
  assert (forall k, k = fm_partition_id fm -> forall m, m ∈ [fetch_meta] -> queued k m) as Hq.
  { intros k -> m ->%list_elem_of_singleton. by split; [|left]. }
  conserve_step; [conserve_step|]. conserve_step; [by apply (push_buffered_conserves _ [fetch_meta]), Hq|].
  conserve_step; [by apply (push_waiting_conserves _ [fetch_meta]), Hq|]. conserve_step.
Qed.

(** ** End of maps, joins, checkpoints and fetches *)

Lemma conserving_UpdateVersion v : conserving (UpdateVersion v).
Proof.
  unfold UpdateVersion. do 3 (conserve_step; [conserve_step|]). conserve_step; [|solve_conserves].
  apply conserving_mod. intros c (Ht & Hs). split; [|by intros t].
  split; [|exact Hs]. intros p w u. cbn. rewrite tracker_get_delete. case_decide; [set_solver|apply Ht].
Qed.

Lemma conserving_release_pending p last :
  conserving (mod_pc (fun c => c <| pending_updates_ ::= fun pd =>
           <[p := touch [] last (lookup_or ∅ p pd)]> pd |>) ;;;
         pend <-- pcs (fun c => lookup_or [] last (lookup_or ∅ p (pending_updates_ c))) ;;
         when (negb (bool_decide (pend = [])))
           (mod_pc (fun c => c <| waiting_updates_ ::= fun w => <[p := lookup_or [] p w ++ pend]> w |>
                    <| pending_updates_ ::= fun pd => <[p := delete last (lookup_or ∅ p pd)]> pd |>)) ;;;
         TryRunWaitingJoins p ;;; ret tt).
Proof.
  conserve_step.
  - apply conserving_mod. intros c (Ht & Hw & Hpd & Hb & Hst).
    assert (forall k v, lookup_or [] v (lookup_or ∅ k (<[p := touch [] last (lookup_or ∅ p (pending_updates_ c))]>
      (pending_updates_ c))) = lookup_or [] v (lookup_or ∅ k (pending_updates_ c))) as Hl.
    { intros k v. destruct (decide (p = k)) as [->|]; [|by rewrite lookup_or_insert_ne].
      by rewrite lookup_or_insert, lookup_or_touch. }
    split.
    + refine (conj Ht (conj Hw (conj _ (conj Hb Hst)))). intros k v m. cbn. rewrite Hl. apply Hpd.
    + intros t. unfold held, in_pending. cbn -[cnt]. by rewrite Hl.
  - apply tracks_steady. intros s (Ht & Hw & Hpd & Hb & Hst). unfold pcs. wstep. wstep.
    set (pend := lookup_or [] last (lookup_or ∅ p (pending_updates_ (pc s)))).
    assert (forall m, m ∈ pend -> queued p m /\ vs_version (vj_meta m) = last) as Hp by apply Hpd.
    assert (conserving (TryRunWaitingJoins p ;;; ret tt)) as Htry by solve_conserves.
    wstep. wstep.
    + unfold mod_pc. wstep. set (s1 := upd pc _ s). 
      assert (conserves Ap [] s [] s1) as H1.
      { assert (forall k v, lookup_or [] v (lookup_or ∅ k (pending_updates_ (pc s1))) =
          lookup_or [] v (lookup_or ∅ k (set_pending p last [] (pending_updates_ (pc s))))) as Hl.
        { intros k v. rewrite lookup_set_pending. unfold s1. cbn. destruct (decide (p = k)) as [->|Hne].
          - rewrite lookup_or_insert. destruct (decide (v = last)) as [->|].
            + rewrite decide_True by done. unfold lookup_or at 1. by rewrite lookup_delete_eq.
            + rewrite decide_False by naive_solver. unfold lookup_or at 1 3. by rewrite lookup_delete_ne.
          - rewrite lookup_or_insert_ne, decide_False by naive_solver. done. }
        apply conserves_silent. intros _. split.
        - refine (conj Ht (conj _ (conj _ (conj Hb Hst)))).
          + apply queue_ok_push; [done|]. intros m Hm. by apply Hp.
          + intros k v m. rewrite Hl. apply pending_ok_set; [done|set_solver].
        - intros t. unfold held. unfold in_pending at 2. rewrite Hl. fold (in_pending t (set_pending p last [] (pending_updates_ (pc s)))).
          pose proof (in_pending_set t p last [] _ Hpd ltac:(set_solver)) as Hc. fold pend in Hc.
          unfold metas_jt at 2 in Hc. cbn -[cnt] in Hc |- *. rewrite in_queue_push by (intros; by apply Hp).
          rewrite cnt_nil in *. lia. }
      eapply wp_mono; [apply Htry|]. intros [] s' os Hc. exact (conserves_trans _ [] [] _ _ _ [] os H1 Hc).
    + apply Htry.
Qed.

Lemma conserving_FinishMap p u : conserving (FinishMap p u).
Proof.
  unfold FinishMap. conserve_step; [conserve_step|]. conserve_step.
  { apply conserving_mod. intros c (Ht & Hw & Hpd & Hb & Hst). rewrite Hst, lookup_empty. done. }
  conserve_step; [conserve_step|]. conserve_step; [|conserve_step].
  do 2 (conserve_step; [conserve_step|]). conserve_step; [|conserve_step]. conserve_step.
  apply conserving_release_pending.
Qed.

Lemma conserving_TryCheckpoint p : conserving (TryCheckpoint p).
Proof.
  unfold TryCheckpoint. conserve_step; [conserve_step|]. conserve_step; [|solve_conserves].
  apply conserving_mod. intros c Hs. by destruct (_ =? _).
Qed.

Lemma conserving_tracker_upd p v f : 
  (forall s u, (forall u', u' ∈ s -> Ap (p, v, u')) -> u ∈ f s -> Ap (p, v, u)) ->
  forall g : PC Stream -> PC Stream,
  (forall c, view (g c) = view (c <| update_tracker_ ::= tracker_upd p v f |>)) -> conserving (mod_pc g).
Proof.
  intros Hf g Hg. apply conserving_mod. intros c (Ht & Hs).
  specialize (Hg c). unfold view in Hg. cbn in Hg. injection Hg as E1 E2 E3 E4 E5 E6.
  unfold steady, held. rewrite E1, E2, E3, E4, E5, E6. split; [|done]. split; [|done].
  intros p' w u. rewrite tracker_get_upd. case_decide as Hd; [|apply Ht]. destruct Hd as [-> ->].
  apply Hf, Ht.
Qed.

Lemma conserving_FinishJoin p v us : Forall Ap (ups_jt p v us) -> conserving (FinishJoin p v us).
Proof.
  intros Hus. unfold FinishJoin, CalcJoinTrackerSize. conserve_step.
  { eapply (conserving_tracker_upd p v (fun s => list_to_set us ∪ s)); [|done]. intros s u Hs Hu.
    apply elem_of_union in Hu as [Hu%elem_of_list_to_set|Hu]; [|by apply Hs].
    rewrite Forall_forall in Hus. apply Hus, list_elem_of_fmap. eauto. }
  conserve_step; [conserve_step|]. conserve_step; [|solve_conserves].
  conserve_step; [conserve_step|]. conserve_step.
  { eapply (conserving_tracker_upd p v (fun _ => ∅)); [|done]. set_solver. }
  conserve_step; [apply conserving_TryCheckpoint|]. solve_conserves.
Qed.
Lemma conserving_FinishCheckpoint p : conserving (FinishCheckpoint p).
Proof. unfold FinishCheckpoint. solve_conserves. Qed.
Lemma conserving_FinishFetch p u : conserving (FinishFetch p u).
Proof. unfold FinishFetch. solve_conserves. Qed.
Lemma conserving_FinishLoadWith t : conserving (FinishLoadWith t).
Proof. unfold FinishLoadWith. solve_conserves. Qed.

(** A join that is reported finished was applied. *)
Definition msg_steady (m : ctrl_msg) : Prop :=
  msg_wf m /\ match m with kFinishJoin p v us => Forall Ap (ups_jt p v us) | _ => True end.

Lemma Process_conserves m : msg_steady m -> consuming (msg_jt m) (Process m).
Proof.
  destruct m as [sp| |p u|p v us|v|m|fm bin sd rc|p u|p|mm body| |t|l]; cbn [Process msg_jt]; intros [Hm Ha];
    try done.
  - apply conserving_TryRunSomeMaps.
  - apply conserving_FinishMap.
  - by apply conserving_FinishJoin.
  - apply conserving_UpdateVersion.
  - destruct Hm. by apply ReceiveJoin_conserves.
  - apply conserving_ReceiveFetchRequest.
  - apply conserving_FinishFetch.
  - apply conserving_FinishCheckpoint.
  - conserve_step.
  - apply conserving_FinishLoadWith.
Qed.

(** ** The delayed combiner *)

Lemma meta_jt_sent plan c p v ups lm bin : ups <> [] ->
  meta_jt {| vj_meta := {| vs_plan_id := plan; vs_collection_id := c; vs_part_id := p;
      vs_upstream_part_id := -1; vs_version := v; vs_is_fetch := false; vs_sender := -1; vs_recver := -1;
      vs_local_mode := lm; vs_ext_upstream_part_ids := ups |}; vj_bin := bin |} = ups_jt p v ups.
Proof. intros Hu. unfold meta_jt, join_ids. cbn. by destruct ups. Qed.

Lemma PrepareMsgAndSend_conserves p v ups stream : ups <> [] ->
  consuming (ups_jt p v ups) (PrepareMsgAndSend p v ups stream).
Proof.
  intros Hu. unfold PrepareMsgAndSend, cmap_Lookup, cmap_Get, mapper_Get.
  apply tracks_in_r; [conserve_step|]. intros s. apply tracks_in_r; [solve_conserves|]. intros node.
  destruct (_ =? _).
  - apply tracks_in_r; [conserve_step|]. intros _. apply tracks_emit. intros s'.
    erewrite <- meta_jt_sent by done. by apply (conserves_emit Ap (Push (kReceiveJoin _))); [..|split; [|right]].
  - apply tracks_emit. intros s'. erewrite <- meta_jt_sent by done.
    by apply (conserves_emit Ap (Send _ _ (kReceiveJoin _))); [..|split; [|right]].
Qed.

Lemma run_combine_conserves p v l : consuming (ups_jt p v l.*1) (run_combine p v l).
Proof.
  unfold run_combine. apply tracks_in_r; [conserve_step|]. intros _. destruct l as [|[u first] l]; [apply tracks_throw|].
  by apply PrepareMsgAndSend_conserves.
Qed.

Lemma store_cell_insert st p q cell : 0 <= p -> (Z.to_nat p < length st)%nat ->
  store_cell (Stream := Stream) q (<[Z.to_nat p := cell]> st) = if decide (q = p) then cell else store_cell q st.
Proof.
  intros Hp Hlt. unfold store_cell. destruct (Z.leb_spec 0 q).
  - case_decide as Hd.
    + subst q. by rewrite list_lookup_insert_eq.
    + by rewrite list_lookup_insert_ne by lia.
  - by rewrite decide_False by lia.
Qed.

(** Changing the streams kept for one partition and version. *)
Lemma in_store_insert t st p v cell cell' :
  0 <= p -> (Z.to_nat p < length st)%nat -> store_cell p st = cell ->
  (forall w, w <> v -> lookup_or [] w cell' = lookup_or [] w cell) ->
  in_store (Stream := Stream) t (<[Z.to_nat p := cell']> st) + cnt t (ups_jt p v (lookup_or [] v cell).*1) =
  in_store t st + cnt t (ups_jt p v (lookup_or [] v cell').*1).
Proof.
  intros Hp Hlt Hcell Hw. unfold in_store. rewrite store_cell_insert by done. case_decide as Hd.
  - rewrite Hd, Hcell. destruct (decide (jversion t = v)) as [->|Hv]; [lia|].
    rewrite Hw by done. rewrite !(cnt_ups_version p v) by done. lia.
  - rewrite !(cnt_ups_part p v) by done. lia.
Qed.

Lemma AddStream_conserves u v p stream : 0 <= p -> consuming [(p, v, u)] (AddStream u v p stream).
Proof.
  intros Hp. apply tracks_steady. intros s Hs. unfold AddStream. wstep. wstep. wstep.
  { by apply (PrepareMsgAndSend_conserves p v [u]). }
  wstep. { wstep. by apply (conserves_emit Ap (Submit (TCombine p v [(u, stream)]))). }
  wstep. wstep. assert (Z.to_nat p < length (store_ (pc s)))%nat as Hlt by (by eapply lookup_lt_Some).
  assert (store_cell p (store_ (pc s)) = x) as Hcell.
  { unfold store_cell. rewrite (proj2 (Z.leb_le _ _)) by done. by rewrite Hx. }
  set (l := lookup_or [] v x ++ [(u, stream)]).
  assert (ups_jt p v l.*1 = ups_jt p v (lookup_or [] v x).*1 ++ [(p, v, u)]) as Hl.
  { unfold l, ups_jt. by rewrite !fmap_app. }
  destruct Hs as (Ht & Hw & Hpd & Hb & Hst). unfold mod_pc. wstep.
  - wstep. wstep. wstep. intros _. split; [done|]. split; [by repeat constructor|].
    exists []. split; [constructor|]. intros t.
    pose proof (in_store_insert t _ p v x (delete v x) Hp Hlt Hcell) as Hi.
    rewrite (lookup_or_None [] v (delete v x)) in Hi by apply lookup_delete_eq.
    unfold made, in_flight, applied, held. cbn -[cnt in_store]. rewrite Hl.
    specialize (Hi ltac:(intros w Hne; unfold lookup_or; by rewrite lookup_delete_ne)).
    unfold ups_jt at 2 in Hi. cbn -[cnt in_store] in Hi.
    rewrite !cnt_app, ?cnt_app, !cnt_nil in *. lia.
  - wstep. apply conserves_silent. intros _. split; [done|]. intros t.
    pose proof (in_store_insert t _ p v x (<[v := l]> x) Hp Hlt Hcell) as Hi.
    rewrite lookup_or_insert, Hl, cnt_app in Hi. unfold held. cbn -[cnt in_store].
    specialize (Hi ltac:(intros; by rewrite lookup_or_insert_ne)). lia.
Qed.

Lemma for_each_conserves {A} (f : A -> list jtok) (l : list A) (body : A -> Comp unit) :
  (forall x, x ∈ l -> consuming (f x) (body x)) -> consuming (l ≫= f) (for_each l body).
Proof.
  induction l as [|x l IH]; intros Hb; cbn [for_each]; [conserve_step|]. intros s. wstep.
  eapply wp_mono; [apply (Hb x); left|]. intros [] s1 o1 H1.
  eapply wp_mono; [apply IH; intros; apply Hb; by right|]. intros [] s2 o2 H2.
  exact (conserves_trans _ _ _ _ _ _ _ _ H1 H2).
Qed.

Lemma AddMapOutput_conserves u v o : consuming (output_jt u v o) (AddMapOutput u v o).
Proof.
  unfold AddMapOutput. apply tracks_in_r; [conserve_step|]. intros c.
  apply tracks_in_r; [conserve_step|]. intros _.
  assert (output_jt u v o = zip (seqZ 0 (Z.of_nat (length o))) o ≫= (fun ps => [(ps.1, v, u)])) as ->.
  { unfold output_jt. rewrite <- (fst_zip (seqZ 0 (Z.of_nat (length o))) o) at 1 by (rewrite length_zip_seqZ; lia).
    rewrite <- list_fmap_compose. by rewrite list_fmap_alt. }
  apply for_each_conserves. intros [q x] Hq%elem_of_zip_l. apply elem_of_seqZ in Hq.
  apply tracks_in_r; [conserve_step|]. intros c'. apply tracks_in_r; [conserve_step|]. intros _.
  apply AddStream_conserves. cbn. lia.
Qed.

(** *** One round of the timer *)

Definition cell_jt (q : Z) (cell : gmap Z (list (Z * Stream))) : list jtok :=
  entries cell ≫= (fun vs => ups_jt q vs.1 vs.2.*1).

Lemma cnt_cell t q cell : cnt t (cell_jt q cell) =
  if decide (jpart t = q) then cnt t (ups_jt q (jversion t) (lookup_or [] (jversion t) cell).*1) else 0.
Proof.
  unfold cell_jt. rewrite (cnt_perm t _ (map_to_list cell ≫= (fun vs => ups_jt q vs.1 vs.2.*1)))
    by (by rewrite entries_Permutation).
  induction cell as [|v l cell Hv IH] using map_ind.
  - rewrite map_to_list_empty. cbn. rewrite cnt_nil. by case_decide.
  - rewrite (cnt_perm t _ (((v, l) :: map_to_list cell) ≫= (fun vs => ups_jt q vs.1 vs.2.*1)))
      by (by rewrite map_to_list_insert).
    cbn [mbind list_bind]. rewrite cnt_app. fold (mbind (M := list) (fun vs : Z * list (Z * Stream) => ups_jt q vs.1 vs.2.*1)
      (map_to_list cell)). rewrite IH. cbn [fst snd].
    case_decide as Hd; [|rewrite cnt_ups_part by done; lia].
    destruct (decide (v = jversion t)) as [->|Hne].
    + rewrite lookup_or_insert. rewrite (lookup_or_None [] (jversion t) cell) by done.
      unfold ups_jt at 2. cbn -[cnt]. rewrite cnt_nil. lia.
    + rewrite lookup_or_insert_ne by done. rewrite cnt_ups_version by done. lia.
Qed.

Lemma emit_cell q (cell : gmap Z (list (Z * Stream))) (s : NodeS) :
  wp any (for_each (entries cell) (fun vs =>
      when (negb (bool_decide (vs.2 = []))) (emit (Submit (TCombine q vs.1 vs.2))))) s
    (fun _ s' (os : outs) => s' = s /\ made os = [] /\ applied os = [] /\ in_flight os = cell_jt q cell /\ Forall out_wf os).
Proof.
  apply (wp_for_each any (fun l s' (os : outs) => s' = s /\ made os = [] /\ applied os = [] /\
    in_flight os ++ (l ≫= (fun vs => ups_jt q vs.1 vs.2.*1)) = cell_jt q cell /\ Forall out_wf os)).
  - by split_and!; [..|constructor].
  - intros [v l] rest s1 os (-> & Hm & Ha & Hf & Ho). cbn [fst snd]. wstep.
    + wstep. unfold made, applied, in_flight in *. rewrite !bind_app, Hm, Ha.
      split_and!; [done..| |apply Forall_app; split; [done|by repeat constructor]].
      rewrite <- Hf. cbn. by rewrite app_nil_r, <- app_assoc.
    + apply negb_false_iff, bool_decide_eq_true in Hif. subst l. rewrite app_nil_r. by split_and!.
  - intros s1 os (-> & Hm & Ha & Hf & Ho). cbn in Hf. rewrite app_nil_r in Hf. done.
Qed.

Lemma flush_cells l (s : NodeS) : NoDup l.*1 ->
  (forall q cell, (q, cell) ∈ l -> 0 <= q /\ store_ (pc s) !! Z.to_nat q = Some cell) ->
  wp any (for_each l (fun pv =>
    for_each (entries pv.2) (fun vs =>
      when (negb (bool_decide (vs.2 = []))) (emit (Submit (TCombine pv.1 vs.1 vs.2)))) ;;;
    mod_pc (fun c => c <| store_ ::= <[Z.to_nat pv.1 := ∅]> |>))) s (fun _ s' os => conserves Ap [] s os s').
Proof.
  revert s. induction l as [|[q cell] l IH]; intros s Hnd Hl; cbn [for_each]; [wstep; apply track_refl|].
  apply NoDup_cons in Hnd as [Hq Hnd]. destruct (Hl q cell ltac:(left)) as [Hq0 Hcell].
  wstep. wstep. eapply wp_mono; [apply emit_cell|]. intros [] s1 os (-> & Hm & Ha & Hf & Ho). cbn [fst snd].
  unfold mod_pc. wstep. set (s1 := upd pc _ s).
  assert (conserves Ap [] s os s1) as H1.
  { intros Hs. split; [exact Hs|]. split; [done|]. exists []. split; [constructor|].
    intros t. rewrite Hm, Ha, Hf, cnt_cell.
    unfold held. cbn -[cnt in_store]. unfold in_store. rewrite store_cell_insert; [|done|by eapply lookup_lt_Some].
    case_decide as Hd.
    - rewrite Hd. unfold store_cell. rewrite (proj2 (Z.leb_le _ _)), Hcell by done.
      rewrite (lookup_or_None [] _ ∅) by apply lookup_empty. cbn -[cnt]. rewrite !cnt_nil. lia.
    - rewrite !cnt_nil. lia. }
  eapply wp_mono; [apply IH; [done|]|].
  - intros q' cell' Hin. destruct (Hl q' cell' ltac:(by right)) as [Hq' Hc]. split; [done|].
    unfold s1. cbn. rewrite list_lookup_insert_ne; [done|]. intros E.
    assert (q = q') as -> by lia. apply Hq, list_elem_of_fmap. by exists (q', cell').
  - intros [] s2 os2 H2. rewrite app_nil_r. exact (conserves_trans _ [] [] _ _ _ _ _ H1 H2).
Qed.

Lemma conserving_PeriodicCombine : conserving PeriodicCombine.
Proof.
  intros s. unfold PeriodicCombine. wstep. wstep. apply flush_cells.
  - rewrite fst_zip by (rewrite length_zip_seqZ; lia). apply NoDup_seqZ.
  - intros q cell Hin. apply list_elem_of_lookup in Hin as [i Hi].
    apply lookup_zip_with_Some in Hi as (q' & cell' & [= -> ->] & Hq & Hc).
    apply lookup_seqZ in Hq as [-> Hi]. split; [lia|]. by rewrite Z.add_0_l, Nat2Z.id.
Qed.

(** ** Tasks *)

Lemma conserves_made (o : out P Stream) (s : NodeS) :
  out_jt o = made_by o -> applied_by o = [] -> out_wf o -> conserves Ap [] s [o] s.
Proof.
  intros Hm Ha Ho Hs. split; [done|]. split; [by repeat constructor|]. exists []. split; [constructor|]. intros t.
  unfold made, in_flight, applied. cbn -[cnt held out_jt made_by applied_by].
  rewrite Hm, Ha, !app_nil_r, !cnt_nil. lia.
Qed.
Lemma conserves_applied (o : out P Stream) (s : NodeS) :
  out_jt o = [] -> made_by o = [] -> out_wf o -> conserves Ap (applied_by o) s [o] s.
Proof.
  intros Hf Hm Ho Hs. split; [done|]. split; [by repeat constructor|]. exists []. split; [constructor|]. intros t.
  unfold made, in_flight, applied. cbn -[cnt held out_jt made_by applied_by].
  rewrite Hf, Hm, !app_nil_r, !cnt_nil. lia.
Qed.

Lemma run_task_conserves t : task_wf t -> consuming (task_jt t) (run_task t).
Proof.
  destruct t as [p v x|p v o|m|m v|p url|p v l]; cbn [task_wf run_task task_jt]; intros Hst.
  - unfold run_map. conserve_step; [conserve_step|]. conserve_step; [conserve_step|].
    conserve_step; [solve_conserves|]. apply tracks_emit. intros s. by apply conserves_made.
  - apply tracks_steady. intros s (_ & _ & _ & _ & Hs). unfold run_mapped. wstep. wstep. wstep.
    { unfold has in Hif. rewrite Hs in Hif. apply bool_decide_eq_true in Hif as [? Hif]. by rewrite lookup_empty in Hif. }
    apply tracks_in_l; [apply AddMapOutput_conserves|]. intros _. conserve_step.
  - destruct Hst as [Hnf _]. unfold run_join. do 6 (apply tracks_in_r; [solve_conserves|intros ?]).
    apply tracks_emit. intros s.
    assert (meta_jt m = applied_by (Push (P := P) (Stream := Stream)
      (kFinishJoin (vs_part_id (vj_meta m)) (vs_version (vj_meta m)) (join_ids (vj_meta m))))) as ->
      by (unfold meta_jt; by rewrite Hnf). by apply conserves_applied.
  - unfold run_fetch. solve_conserves.
  - unfold run_checkpoint. solve_conserves.
  - apply run_combine_conserves.
Qed.
End Handlers.
