(* ===== verification/PlanProgress.v ===== *)
(** * Every iteration of a partition is mapped once

    The plan controller of the node that holds partition [u] of the map collection runs the
    map of [u] once for each iteration, in order: the maps started are those of the
    iterations below the version of [u], and that of the version itself while [u] is in
    [running_maps_].  Shown for every handler and task of a node that takes no part in a
    migration. *)

From S2P Require Import Prelude BinStream Specs Index Messages Partition PlanController PlanFrame PlanTokens.

Section Progress.
Context {P Stream : Type} `{UserCode P Stream} `{IterOrder}.
Abbreviation NodeS := (NodeSt P Stream).
Abbreviation outs := (list (out P Stream)).
Abbreviation Comp := (M NodeS (out P Stream)).

Definition map_version (c : PC Stream) (u : Z) : Z := lookup_or 0 u (map_versions_ c).

(** How often the map of iteration [x.2] of partition [x.1] was started. *)
Definition started (c : PC Stream) (x : Z * Z) : Z :=
  if (0 <=? x.2) && (x.2 <? map_version c x.1) then 1
  else if (x.2 =? map_version c x.1) && bool_decide (x.1 ∈ running_maps_ c) then 1 else 0.

Definition map_started (o : out P Stream) : list (Z * Z) :=
  match o with Submit (TMap u v _) => [(u, v)] | _ => [] end.
Definition maps_started (os : outs) : list (Z * Z) := os ≫= map_started.

(** [mc] is the map collection; the node maps partitions with [Here] only. *)
Context (mc : Z) (Here : Z -> Prop).
Definition mapping (s : NodeS) : Prop :=
  map_collection_id_ (pc s) = mc /\
  (forall u, is_Some (store_lookup (pm s) mc u) -> Here u) /\
  (forall u, u ∈ running_maps_ (pc s) -> is_Some (map_versions_ (pc s) !! u)) /\
  (forall u, u ∈ running_maps_ (pc s) \/ 0 < map_version (pc s) u -> Here u) /\
  (forall u, 0 <= map_version (pc s) u).

Definition progresses (s : NodeS) (os : outs) (s' : NodeS) : Prop :=
  mapping s -> mapping s' /\ forall x, started (pc s') x = started (pc s) x + cnt x (maps_started os).
Abbreviation progressing := (tracks (P := P) (Stream := Stream) progresses).

#[global] Instance progresses_tracking : Tracking progresses.
Proof.
  split.
  - intros s Hs. split; [done|]. intros x. change (maps_started []) with (@nil (Z * Z)). rewrite cnt_nil. lia.
  - intros s1 s2 s3 os os' H1 H2 Hs. destruct (H1 Hs) as [Hs2 Hx1]. destruct (H2 Hs2) as [Hs3 Hx2].
    split; [done|]. intros x. unfold maps_started in *. rewrite bind_app, cnt_app, Hx2, Hx1. lia.
Qed.

Lemma progresses_skip s os s' :
  (map_collection_id_ (pc s'), running_maps_ (pc s'), map_versions_ (pc s')) =
  (map_collection_id_ (pc s), running_maps_ (pc s), map_versions_ (pc s)) ->
  (forall u, is_Some (store_lookup (pm s') mc u) -> is_Some (store_lookup (pm s) mc u)) ->
  maps_started os = [] -> progresses s os s'.
Proof.
  intros [= E1 E2 E3] Hpm Ho Hs. unfold mapping, started, map_version in *. rewrite E1, E2, E3, Ho. split.
  - destruct Hs as (? & Hh & ?). split_and!; [done| |naive_solver..]. intros u Hu. by apply Hh, Hpm.
  - intros x. rewrite cnt_nil. lia.
Qed.

Lemma wp_progresses {A} (m : Comp A) :
  (forall s, mapping s -> wp any m s (fun _ s' os => progresses s os s')) -> progressing m.
Proof.
  intros Hm s. unfold wp. destruct (m s) as [[[a s'] os]|e] eqn:E; [|done]. intros Hs.
  specialize (Hm s Hs). unfold wp in Hm. rewrite E in Hm. by apply Hm.
Qed.

Lemma progressing_at {A} (m : Comp A) s : progressing m -> wp any m s (fun _ s' os => progresses s os s').
Proof. intros Hm. apply Hm. Qed.

Lemma progressing_Has c p : progressing (on_pm (pm_Has c p)).
Proof. apply tracks_on_pm. intros s. apply pm_Has_spec. by apply progresses_skip. Qed.
Lemma progressing_Get c p : progressing (on_pm (pm_Get c p)).
Proof.
  apply tracks_on_pm. intros s. apply pm_Get_spec; [|done]. intros x q _ Hq.
  apply progresses_skip; [done| |done]. intros u. cbn. by rewrite (Hq mc u).
Qed.
Hint Resolve progressing_Has progressing_Get : track_db.

Ltac progress_skip :=
  intros; apply progresses_skip; [cbn; repeat case_match; reflexivity|cbn; repeat case_match; done|reflexivity].
Ltac progress_step := track_step_with progress_skip.
Ltac solve_progress := repeat progress_step.

(** ** Starting maps *)

Lemma map_version_touch c u u' : map_version (c <| map_versions_ ::= touch 0 u |>) u' = map_version c u'.
Proof. unfold map_version. cbn. apply lookup_or_touch. Qed.

Lemma progresses_touch u (s : NodeS) : progresses s [] (s <| pc ::= fun c => c <| map_versions_ ::= touch 0 u |> |>).
Proof.
  intros (Hc & Hh & Hr & Hv & Hn). split; [split_and!|].
  - done.
  - done.
  - intros u' Hu'. cbn. destruct (Hr u' Hu') as [v E]. unfold touch. destruct (decide (u = u')) as [->|].
    + by rewrite lookup_insert_eq.
    + by rewrite lookup_insert_ne.
  - intros u'. unfold map_version. cbn. rewrite lookup_or_touch. apply Hv.
  - intros u'. unfold map_version. cbn. rewrite lookup_or_touch. apply Hn.
  - intros x. unfold started, map_version. cbn -[cnt]. rewrite lookup_or_touch.
    change (maps_started []) with (@nil (Z * Z)). rewrite cnt_nil. lia.
Qed.
Lemma progressing_touch u : progressing (mod_pc (fun c => c <| map_versions_ ::= touch 0 u |>)).
Proof. apply tracks_mod. intros s. apply progresses_touch. Qed.
Hint Resolve progressing_touch : track_db.

(** A partition found runnable has a version, and the versions did not change. *)
Lemma wp_IsMapRunnable u s (Q : bool -> NodeS -> outs -> Prop) :
  (forall b s', progresses s [] s' -> (forall u', map_version (pc s') u' = map_version (pc s) u') ->
     (b = true -> is_Some (map_versions_ (pc s') !! u)) -> Q b s' []) ->
  wp any (IsMapRunnable u) s Q.
Proof.
  intros HQ. assert (forall s', s' = s -> Q false s' []) as Hno.
  { intros s' ->. apply HQ; [apply track_refl|done|done]. }
  unfold IsMapRunnable, mod_pc. wstep. wstep. wstep; [wstep; by apply Hno|]. wstep; [wstep; by apply Hno|].
  wstep; [wstep; by apply Hno|]. wstep. wstep.
  assert (forall b, Q b (s <| pc ::= fun c => c <| map_versions_ ::= touch 0 u |> |>) []) as Hyes.
  { intros b. apply HQ; [apply progresses_touch|intros u'; apply map_version_touch|].
    intros _. cbn. unfold touch. by rewrite lookup_insert_eq. }
  wstep; wstep; apply Hyes.
Qed.

Lemma RunMap_progresses u v x (s : NodeS) :
  is_Some (map_versions_ (pc s) !! u) -> v = map_version (pc s) u -> Here u ->
  wp any (RunMap u v x) s (fun _ s' os => progresses s os s' /\
    forall u', map_version (pc s') u' = map_version (pc s) u').
Proof.
  intros Hsome -> Hu. unfold RunMap, pcs, mod_pc. wsteps. apply bool_decide_eq_true in Hck. split; [|done].
  intros (Hc & Hh & Hr & Hv & Hn). split; [split_and!|].
  - done.
  - done.
  - intros u' Hu'. cbn in Hu' |- *. apply elem_of_union in Hu' as [->%elem_of_singleton|Hu']; [done|by apply Hr].
  - intros u' Hu'. cbn in Hu'. rewrite elem_of_union, elem_of_singleton in Hu'.
    destruct Hu' as [[->|Hu']|Hu']; [done|apply Hv; by left|apply Hv; by right].
  - apply Hn.
  - intros [u' v']. unfold maps_started, started, map_version in *. cbn -[cnt]. rewrite cnt_cons, cnt_nil.
    specialize (Hn u'). destruct (decide ((u, lookup_or 0 u (map_versions_ (pc s))) = (u', v'))) as [[= -> <-]|Hne].
    + rewrite Z.ltb_irrefl, andb_false_r, Z.eqb_refl. cbn.
      rewrite bool_decide_eq_true_2 by set_solver. rewrite bool_decide_eq_false_2 by done. lia.
    + destruct ((0 <=? v') && _); [lia|].
      destruct (Z.eqb_spec v' (lookup_or 0 u' (map_versions_ (pc s)))) as [->|]; [|cbn; lia]. cbn.
      rewrite (bool_decide_ext (u' ∈ {[u]} ∪ running_maps_ (pc s)) (u' ∈ running_maps_ (pc s))); [lia|].
      assert (u <> u') by congruence. set_solver.
Qed.

Lemma progressing_TryRunSomeMaps : progressing TryRunSomeMaps.
Proof.
  apply wp_progresses. intros s Hs. unfold TryRunSomeMaps. wstep. wstep. wstep; [wstep; apply track_refl|].
  apply (wp_for_each any (fun l s' os => progresses s os s' /\
    (forall u, map_version (pc s') u = map_version (pc s) u) /\
    forall u v, (u, v) ∈ l -> map_version (pc s) u = v)).
  - split_and!; [apply track_refl|done|]. intros u v Hin. rewrite iter_perm in Hin.
    apply elem_of_map_to_list in Hin. by apply lookup_or_Some.
  - intros [u v] l s1 os (Hp1 & Hv1 & Hl). specialize (Hl u v) as Huv.
    assert (mapping s1) as Hs1 by by apply Hp1.
    assert (forall s', progresses s1 [] s' -> (forall u', map_version (pc s') u' = map_version (pc s1) u') ->
      progresses s (os ++ []) s' /\ (forall u, map_version (pc s') u = map_version (pc s) u) /\
      forall u v, (u, v) ∈ l -> map_version (pc s) u = v) as Hdone.
    { intros s' Hp' Hv'. split_and!; [by eapply track_trans|intros u'; by rewrite Hv'|].
      intros u' v' Hin. apply Hl. by right. }
    wstep. apply wp_IsMapRunnable. intros b s2 Hp2 Hv2 Hb. wstep; [|by apply Hdone].
    assert (mapping s2) as Hs2 by by apply Hp2. pose proof Hs2 as (Hc & Hh & _).
    wstep. apply zoom_wp, pm_Has_spec. wstep. wstep. apply bool_decide_eq_true in Hck.
    wstep. apply zoom_wp, pm_Get_spec; [|done]. intros x q _ Hq. set (s3 := upd pm _ _).
    assert (progresses s2 [] s3) as Hp3.
    { apply progresses_skip; [done| |done]. intros u'. unfold s3. cbn. by rewrite (Hq mc u'). }
    eapply wp_mono; [apply (RunMap_progresses u v x s3)|].
    + exact (Hb Hif0).
    + change (map_version (pc s3) u) with (map_version (pc s2) u). rewrite Hv2, Hv1. symmetry. apply Huv. left.
    + apply Hh. rewrite <- (proj1 Hs). exact Hck.
    + intros [] s4 os4 [Hp4 Hv4]. split_and!.
      * eapply track_trans; [exact Hp1|]. cbn. eapply (track_trans s1 s2 s4 []); [exact Hp2|].
        by eapply (track_trans s2 s3 s4 []).
      * intros u'. rewrite Hv4, <- Hv1, <- Hv2. done.
      * intros u' v' Hin. apply Hl. by right.
  - intros s' os (Hp & _). exact Hp.
Qed.
Hint Resolve progressing_TryRunSomeMaps : track_db.

(** ** The other handlers *)

Lemma progressing_Report f p v : progressing (ReportFinishPart f p v).
Proof. unfold ReportFinishPart. solve_progress. Qed.
Hint Resolve progressing_Report : track_db.
Lemma progressing_RunFetchRequest m : progressing (RunFetchRequest m).
Proof. unfold RunFetchRequest. solve_progress. Qed.
Hint Resolve progressing_RunFetchRequest : track_db.
Lemma progressing_IsJoinedBefore m : progressing (IsJoinedBefore m).
Proof. unfold IsJoinedBefore. solve_progress. Qed.
Hint Resolve progressing_IsJoinedBefore : track_db.
Lemma progressing_TryRunWaitingJoins p : progressing (TryRunWaitingJoins p).
Proof.
  unfold TryRunWaitingJoins. progress_step; [progress_step|]. generalize (total_waiting a). intros n. revert p.
  induction n as [|n IH]; intros p; cbn [TryRunWaitingJoins_]; unfold try_waiting, run_first_waiting, RunJoin; solve_progress.
Qed.
Hint Resolve progressing_TryRunWaitingJoins : track_db.

(** The map that ends was running; its iteration is now below the version. *)
Lemma FinishMap_progresses u b (s : NodeS) : u ∈ running_maps_ (pc s) ->
  wp any (FinishMap u b) s (fun _ s' os => progresses s os s').
Proof.
  intros Hu. unfold FinishMap. unfold mod_pc at 1 2. wstep. wstep. wstep. wstep. wstep. wstep.
  set (s1 := upd pc _ (upd pc _ s)).
  assert (pm s1 = pm s /\ map_collection_id_ (pc s1) = map_collection_id_ (pc s) /\
    map_versions_ (pc s1) = map_versions_ (pc s) /\ running_maps_ (pc s1) = running_maps_ (pc s) ∖ {[u]}) as (Epm & Ec & Ev & Er).
  { unfold s1. cbn. by repeat case_match. }
  clearbody s1.
  destruct (map_versions_ (pc s1) !! u) as [v|] eqn:Hv.
  2: { wstep. intros (_ & _ & Hr & _). destruct (Hr u Hu) as [v Hv']. congruence. }
  unfold mod_pc at 1. wstep. wstep. set (s2 := upd pc _ s1).
  assert (map_version (pc s) u = v) as Hvu.
  { unfold map_version. rewrite <- Ev. by apply lookup_or_Some. }
  assert (forall u', map_version (pc s2) u' = if decide (u' = u) then v + 1 else map_version (pc s) u') as Hv2.
  { intros u'. unfold map_version, s2. cbn. rewrite Ev. case_decide as Hd.
    - subst. apply lookup_or_insert.
    - by apply lookup_or_insert_ne. }
  assert (running_maps_ (pc s2) = running_maps_ (pc s) ∖ {[u]}) as Er2 by exact Er.
  assert (progresses s [] s2) as Hp.
  { intros (Hc & Hh & Hr & Hhere & Hn). split; [split_and!|].
    - unfold s2. cbn. congruence.
    - unfold s2. cbn. by rewrite Epm.
    - intros u' Hu'. rewrite Er2 in Hu'. unfold s2. cbn. rewrite Ev.
      destruct (decide (u = u')) as [<-|]; [by rewrite lookup_insert_eq|].
      rewrite lookup_insert_ne by done. apply Hr. set_solver.
    - intros u' Hu'. rewrite Er2, Hv2 in Hu'. apply Hhere. case_decide; [left; by subst|set_solver].
    - intros u'. rewrite Hv2. specialize (Hn u'). case_decide; [|done]. subst. lia.
    - intros [u' w]. change (maps_started []) with (@nil (Z * Z)). rewrite cnt_nil, Z.add_0_r.
      unfold started. cbn [fst snd]. rewrite Hv2, Er2. specialize (Hn u'). case_decide as Hd.
      + subst u'. rewrite Hvu in *.
        rewrite (bool_decide_eq_true_2 (u ∈ running_maps_ (pc s))) by done.
        rewrite (bool_decide_eq_false_2 (u ∈ running_maps_ (pc s) ∖ {[u]})) by set_solver.
        rewrite andb_false_r, andb_true_r.
        destruct (Z.leb_spec 0 w), (Z.ltb_spec w v), (Z.ltb_spec w (v + 1)), (Z.eqb_spec w v); cbn; lia.
      + rewrite (bool_decide_ext (u' ∈ running_maps_ (pc s) ∖ {[u]}) (u' ∈ running_maps_ (pc s))) by set_solver.
        done. }
  clearbody s2. eapply wp_mono; [apply progressing_at|intros [] s' os Hq; exact (track_trans _ _ _ [] os Hp Hq)].
  solve_progress.
Qed.

(** [Process] of the messages of a plan without migration; a finished map was running. *)
Lemma Process_progresses m (s : NodeS) : msg_wf m ->
  (forall u b, m = kFinishMap u b -> u ∈ running_maps_ (pc s)) ->
  wp any (Process m) s (fun _ s' os => progresses s os s').
Proof.
  intros Hm Hfin. destruct m as [sp| |p u|p v us|v|m|fm bin sd rc|p u|p|mm body| |t|l]; cbn [Process]; try done.
  - apply progressing_TryRunSomeMaps.
  - apply FinishMap_progresses. by eapply Hfin.
  - apply progressing_at. unfold FinishJoin, CalcJoinTrackerSize, TryCheckpoint. solve_progress.
  - apply progressing_at. unfold UpdateVersion. solve_progress.
  - apply progressing_at. unfold ReceiveJoin. solve_progress.
  - apply progressing_at. unfold ReceiveFetchRequest. solve_progress.
  - apply progressing_at. unfold FinishFetch. solve_progress.
  - apply progressing_at. unfold FinishCheckpoint. solve_progress.
  - apply progressing_at. solve_progress.
  - apply progressing_at. unfold FinishLoadWith. solve_progress.
Qed.

(** ** Tasks start no map *)

(** A partition that is there is replaced. *)
Lemma wp_replace c p x (s : NodeS) (Q : unit -> NodeS -> outs -> Prop) :
  is_Some (store_lookup (pm s) c p) ->
  (forall s', progresses s [] s' -> Q tt s' []) -> wp any (on_pm (pm_Insert c p x)) s Q.
Proof.
  intros Hsome HQ. apply zoom_wp, pm_Insert_spec. intros q Hq. apply HQ.
  apply progresses_skip; [done| |done]. intros u. cbn. rewrite Hq. case_decide as Hd; [|done].
  by destruct Hd as [-> ->].
Qed.

(** [Has], its check and [Get]. *)
Lemma wp_present {A} c p w (k : P -> Comp A) (s : NodeS) (Q : A -> NodeS -> outs -> Prop) :
  (forall x s', is_Some (store_lookup (pm s') c p) -> progresses s [] s' -> wp any (k x) s' Q) ->
  wp any (h <-- on_pm (pm_Has c p) ;; check h w ;;; x <-- on_pm (pm_Get c p) ;; k x) s Q.
Proof.
  intros Hk. wstep. apply zoom_wp, pm_Has_spec. wstep. wstep. apply bool_decide_eq_true in Hck.
  wstep. apply zoom_wp, pm_Get_spec; [|done]. intros x q _ Hq. eapply wp_mono; [apply Hk|done].
  - cbn. rewrite (Hq c p). exact Hck.
  - apply progresses_skip; [done| |done]. intros u. cbn. by rewrite (Hq mc u).
Qed.

Lemma progressing_Prepare p v us st : progressing (PrepareMsgAndSend p v us st).
Proof. unfold PrepareMsgAndSend, cmap_Lookup, cmap_Get, mapper_Get. solve_progress. Qed.
Hint Resolve progressing_Prepare : track_db.

Lemma progressing_run_task t : progressing (run_task t).
Proof.
  destruct t as [p v x|p v o|m|m v|p url|p v l]; cbn [run_task].
  - unfold run_map. solve_progress.
  - unfold run_mapped, AddMapOutput, AddStream. solve_progress.
  - unfold run_join. do 2 (progress_step; [solve_progress|]). intros s. apply wp_present.
    intros x s1 Hx Hp1. wstep. apply wp_replace; [done|]. intros s2 Hp2. wstep. cbn.
    eapply (track_trans _ _ _ [] _ Hp1), (track_trans _ _ _ [] _ Hp2). by apply progresses_skip.
  - unfold run_fetch. progress_step; [progress_step|]. intros s. apply wp_present.
    intros x s1 Hx Hp1. wstep.
    assert (forall bin s2, progresses s [] s2 -> wp any
      (emit (Reply (vs_sender (vj_meta m)) (if vs_version (vj_meta m) =? -1 then kFetchObjsReply else kFetchPartReplyRemote)
          {| fm_plan_id := plan_id_ a; fm_upstream_part_id := vs_upstream_part_id (vj_meta m);
             fm_collection_id := vs_collection_id (vj_meta m); fm_partition_id := vs_part_id (vj_meta m);
             fm_version := v; fm_local_mode := false |} (Some bin)) ;;;
       emit (Push (kFinishFetch (vs_part_id (vj_meta m)) (vs_upstream_part_id (vj_meta m))))) s2
       (fun _ s' os => progresses s os s')) as Hend.
    { intros bin s2 Hp2. wstep. wstep. wstep. cbn. eapply (track_trans _ _ _ [] _ Hp2). by apply progresses_skip. }
    wstep.
    + unfold get_fn. wstep. destruct (fn_Getter _); [|by wstep]. wstep. destruct (p _ x) as [bin p'].
      wstep. apply wp_replace; [done|]. intros s2 Hp2. wstep. cbn. apply Hend.
      exact (track_trans _ _ _ [] [] Hp1 Hp2).
    + wstep. by apply Hend.
  - unfold run_checkpoint. solve_progress.
  - unfold run_combine. solve_progress.
Qed.

Lemma progressing_PeriodicCombine : progressing PeriodicCombine.
Proof. unfold PeriodicCombine. solve_progress. Qed.
End Progress.
