(* ===== verification/PlanCluster.v ===== *)
(** * A plan on a cluster: every update is applied exactly once

    The nodes of a cluster, each with the plan controller of one map/update plan, its
    executors and its queue ([PlanExclusion.sys]), connected by a network that may delay
    and reorder messages but neither loses nor duplicates them.  A run has no failures and
    no migrations; otherwise everything may interleave: the maps of different iterations, the
    delayed combiners, the executors, fetches, checkpoints, and the messages of the scheduler
    that start the plan and advance its version. *)

From S2P Require Import Prelude BinStream Specs Index Messages Partition PlanController PlanFrame PlanExclusion PlanTokens PlanProgress.

(** ** Sums *)

Definition sum_over {A} (f : A -> Z) (l : list A) : Z := foldr (fun a z => f a + z) 0 l.
Lemma sum_over_cons {A} (f : A -> Z) a l : sum_over f (a :: l) = f a + sum_over f l.
Proof. done. Qed.
Lemma sum_over_app {A} (f : A -> Z) l l' : sum_over f (l ++ l') = sum_over f l + sum_over f l'.
Proof. induction l as [|a l IH]; [done|]. cbn [app]. rewrite !sum_over_cons, IH. lia. Qed.
Lemma sum_over_nonneg {A} (f : A -> Z) l : (forall a, 0 <= f a) -> 0 <= sum_over f l.
Proof. intros Hf. induction l as [|a l IH]; [done|]. rewrite sum_over_cons. specialize (Hf a). lia. Qed.
Lemma sum_over_le {A} (f g : A -> Z) l : (forall a, a ∈ l -> f a <= g a) -> sum_over f l <= sum_over g l.
Proof.
  induction l as [|a l IH]; intros Hf; [done|]. rewrite !sum_over_cons. specialize (IH ltac:(set_solver)).
  specialize (Hf a ltac:(left)). lia.
Qed.
Lemma sum_over_zero {A} (f : A -> Z) l : (forall a, a ∈ l -> f a = 0) -> sum_over f l = 0.
Proof.
  induction l as [|a l IH]; intros Hf; [done|]. rewrite sum_over_cons, IH by set_solver. rewrite (Hf a) by left. done.
Qed.

(** At most one element has [f a > 0], and then [f a = 1]. *)
Lemma sum_over_unique {A B} (f : A -> Z) (H : B -> Prop) (R : B -> A -> Prop) hs l :
  Forall2 R hs l -> (forall h a, R h a -> 0 <= f a <= 1 /\ (0 < f a -> H h)) ->
  (forall i j hi hj, hs !! i = Some hi -> hs !! j = Some hj -> H hi -> H hj -> i = j) ->
  sum_over f l <= 1.
Proof.
  intros HR Hf. induction HR as [|h a hs l Hha HR IH]; intros Hu; [cbn; lia|]. rewrite sum_over_cons.
  destruct (Hf h a Hha) as [Hb Hp].
  assert (sum_over f l <= 1) as Hle.
  { apply IH. intros i j hi hj Hi Hj H1 H2. specialize (Hu (S i) (S j) hi hj Hi Hj H1 H2). lia. }
  destruct (decide (f a = 0)); [lia|].
  enough (sum_over f l = 0) by lia. apply sum_over_zero. intros a' Ha'.
  apply list_elem_of_lookup in Ha' as [i Hi]. destruct (Forall2_lookup_r _ _ _ _ _ HR Hi) as (h' & Hh' & Hha').
  destruct (Hf h' a' Hha') as [Hb' Hp']. destruct (decide (f a' = 0)); [done|].
  specialize (Hu 0%nat (S i) h h' eq_refl Hh' ltac:(apply Hp; lia) ltac:(apply Hp'; lia)). lia.
Qed.

Section Cluster.
Context {P Stream : Type} `{UserCode P Stream} `{IterOrder}.
Abbreviation NodeS := (NodeSt P Stream).
Abbreviation outs := (list (out P Stream)).
Abbreviation sysS := (sys (P := P) (Stream := Stream)).

(** ** The transition system *)

(** A node and what it emitted so far. *)
Abbreviation node := (sysS * outs)%type.
Record cluster := { nodes : list node; net : list (Z * ctrl_msg) }.

Definition sent (os : outs) : list (Z * ctrl_msg) :=
  omap (fun o => match o with Send r _ m => Some (r, m) | _ => None end) os.

(** Messages of the scheduler and of the fetchers of the nodes. *)
Definition environment (m : ctrl_msg) : Prop :=
  match m with
  | kStart | kUpdateVersion _ | kFetchRequest _ _ _ _ | kFinishLoadWith _ | kTerminatePlan => True
  | _ => False
  end.

Inductive cstep : cluster -> cluster -> Prop :=
| cstep_node l1 s tr l2 w os s' :
    local_step s os s' ->
    cstep {| nodes := l1 ++ (s, tr) :: l2; net := w |}
          {| nodes := l1 ++ (s', tr ++ os) :: l2; net := w ++ sent os |}
| cstep_net l1 s tr l2 w1 m w2 :
    cstep {| nodes := l1 ++ (s, tr) :: l2; net := w1 ++ (GetControllerActorQid (my_id (st s)), m) :: w2 |}
          {| nodes := l1 ++ (deliver m s, tr) :: l2; net := w1 ++ w2 |}
| cstep_env l1 s tr l2 w m :
    environment m ->
    cstep {| nodes := l1 ++ (s, tr) :: l2; net := w |}
          {| nodes := l1 ++ (deliver m s, tr) :: l2; net := w |}.

Definition maps_here (s : NodeS) (u : Z) : Prop := is_Some (store_lookup (pm s) (map_collection_id_ (pc s)) u).

(** Every node has handled the setup message of the plan; every partition of the map
    collection is on at most one node. *)
Definition cinitial (sp : SpecWrapper) (c : cluster) : Prop :=
  net c = [] /\
  Forall (fun n : node => n.2 = [] /\
    exists q cm id st' os, Setup sp {| pc := new_pc; pm := q; cmap := cm; my_id := id |} = Ok (tt, st', os) /\
      n.1 = {| st := st'; pool := []; queue := []; later := []; grants := [] |}) (nodes c) /\
  (forall i j ni nj u, nodes c !! i = Some ni -> nodes c !! j = Some nj ->
     maps_here (st ni.1) u -> maps_here (st nj.1) u -> i = j).

Inductive crun (sp : SpecWrapper) : cluster -> Prop :=
| crun_start c : cinitial sp c -> crun sp c
| crun_step c c' : crun sp c -> cstep c c' -> crun sp c'.

(** ** Where an update is *)

Definition on_node (t : jtok) (s : sysS) : Z :=
  held t (pc (st s)) + cnt t (pool s ≫= task_jt) + cnt t (queue s ≫= msg_jt).
Definition on_net (t : jtok) (w : list (Z * ctrl_msg)) : Z := cnt t (w ≫= (fun rm => msg_jt rm.2)).

Definition updates_in_flight (t : jtok) (c : cluster) : Z :=
  sum_over (fun n => on_node t n.1) (nodes c) + on_net t (net c).
Definition updates_applied (t : jtok) (c : cluster) : Z := sum_over (fun n => cnt t (applied n.2)) (nodes c).
Definition updates_made (t : jtok) (c : cluster) : Z := sum_over (fun n => cnt t (made n.2)) (nodes c).

(** The iterations of a partition whose map is in the pool, and those whose map is done. *)
Definition task_maps (t : task P Stream) : list (Z * Z) := match t with TMap u v _ => [(u, v)] | _ => [] end.
Definition map_done (o : out P Stream) : list (Z * Z) := match o with Submit (TMapped u v _) => [(u, v)] | _ => [] end.
Definition maps_done (os : outs) : list (Z * Z) := os ≫= map_done.

(** ** Only a map task ends a map *)

Definition ends_no_map (s : NodeS) (os : outs) (s' : NodeS) : Prop := maps_done os = [].
#[global] Instance ends_no_map_tracking : Tracking ends_no_map.
Proof.
  split; [done|]. intros s1 s2 s3 os os' H1 H2. unfold ends_no_map, maps_done in *. by rewrite bind_app, H1, H2.
Qed.
Abbreviation mapless := (tracks (P := P) (Stream := Stream) ends_no_map).
Ltac mapless_skip := intros; first [reflexivity | unfold wp; repeat case_match; done].
Ltac solve_mapless := repeat (track_step_with mapless_skip).

Lemma mapless_Report f p v : mapless (ReportFinishPart f p v).
Proof. unfold ReportFinishPart. solve_mapless. Qed.
Hint Resolve mapless_Report : track_db.
Lemma mapless_TryRunSomeMaps : mapless TryRunSomeMaps.
Proof. unfold TryRunSomeMaps, IsMapRunnable, RunMap. solve_mapless. Qed.
Hint Resolve mapless_TryRunSomeMaps : track_db.
Lemma mapless_TryRunWaitingJoins p : mapless (TryRunWaitingJoins p).
Proof.
  unfold TryRunWaitingJoins. track_step_with mapless_skip; [solve_mapless|]. generalize (total_waiting a).
  intros n. revert p. induction n as [|n IH]; intros p; cbn [TryRunWaitingJoins_];
    unfold try_waiting, run_first_waiting, RunJoin, RunFetchRequest, IsJoinedBefore; solve_mapless.
Qed.
Hint Resolve mapless_TryRunWaitingJoins : track_db.
Lemma mapless_Prepare p v us x : mapless (PrepareMsgAndSend p v us x).
Proof. unfold PrepareMsgAndSend, cmap_Lookup, cmap_Get, mapper_Get. solve_mapless. Qed.
Hint Resolve mapless_Prepare : track_db.

Lemma mapless_Process m : msg_wf m -> mapless (Process m).
Proof.
  intros Hm. destruct m as [sp| |p u|p v us|v|m|fm bin sd rc|p u|p|mm body| |t|l]; cbn [Process]; try done.
  - unfold StartPlan. solve_mapless.
  - unfold FinishMap. solve_mapless.
  - unfold FinishJoin, CalcJoinTrackerSize, TryCheckpoint. solve_mapless.
  - unfold UpdateVersion. solve_mapless.
  - unfold ReceiveJoin, IsJoinedBefore. solve_mapless.
  - unfold ReceiveFetchRequest, RunFetchRequest. solve_mapless.
  - unfold FinishFetch. solve_mapless.
  - unfold FinishCheckpoint. solve_mapless.
Qed.

(** A map task turns into the task that hands its output on. *)
Lemma run_task_maps t Ap (s : NodeS) : steady Ap (pc s) ->
  wp any (run_task t) s (fun _ s' os => maps_done os = task_maps t).
Proof.
  intros (_ & _ & _ & _ & Hst). destruct t as [p v x|p v o|m|m v|p url|p v l]; cbn [run_task task_maps].
  - unfold run_map, get_fn. wstep. wstep. wstep.
    { unfold has in Hif. rewrite Hst in Hif. apply bool_decide_eq_true in Hif as [? Hif]. by rewrite lookup_empty in Hif. }
    wstep. destruct (type_ (pc s)); try by wstep.
    + destruct (fn_Map _); [|by wstep]. by wsteps.
    + destruct (fn_MapWith _); [|by wstep]. by wsteps.
  - enough (mapless (run_mapped p v o)) as Hm by apply Hm. unfold run_mapped, AddMapOutput, AddStream. solve_mapless.
  - enough (mapless (run_join m)) as Hm by apply Hm. unfold run_join. solve_mapless.
  - enough (mapless (run_fetch m v)) as Hm by apply Hm. unfold run_fetch. solve_mapless.
  - enough (mapless (run_checkpoint p url)) as Hm by apply Hm. unfold run_checkpoint. solve_mapless.
  - enough (mapless (run_combine p v l)) as Hm by apply Hm. unfold run_combine. solve_mapless.
Qed.
Lemma mapless_PeriodicCombine : mapless PeriodicCombine.
Proof. unfold PeriodicCombine. solve_mapless. Qed.

(** ** The invariant of a node *)

(** [Ap] holds of the updates applied so far, anywhere; [Here] of the partitions the node
    maps. *)
Definition node_ok (Ap : jtok -> Prop) (Here : Z -> Prop) (n : node) : Prop :=
  sys_inv n.1 /\ steady Ap (pc (st n.1)) /\ mapping (map_collection_id_ (pc (st n.1))) Here (st n.1) /\
  Forall (msg_steady Ap) (queue n.1) /\ later n.1 = [] /\ Forall task_wf (pool n.1) /\
  forall x, cnt x (pool n.1 ≫= task_maps) + cnt x (maps_done n.2) = started (pc (st n.1)) x.

Lemma steady_mono (Ap Ap' : jtok -> Prop) (c : PC Stream) :
  (forall t, Ap t -> Ap' t) -> steady Ap c -> steady Ap' c.
Proof. intros Hi (Ht & Hs). split; [|done]. intros p v u Hu. by apply Hi, Ht. Qed.
Lemma msg_steady_mono (Ap Ap' : jtok -> Prop) m :
  (forall t, Ap t -> Ap' t) -> msg_steady Ap m -> msg_steady Ap' m.
Proof.
  intros Hi [Hw Ha]. split; [done|]. destruct m; try done. by eapply Forall_impl.
Qed.
Lemma node_ok_mono (Ap Ap' : jtok -> Prop) Here n :
  (forall t, Ap t -> Ap' t) -> node_ok Ap Here n -> node_ok Ap' Here n.
Proof.
  intros Hi (H1 & H2 & H3 & H4 & H5). refine (conj H1 (conj _ (conj H3 (conj _ H5)))).
  - by eapply steady_mono.
  - eapply Forall_impl; [exact H4|]. intros m. by apply msg_steady_mono.
Qed.

(** The updates in what a step emits. *)
Lemma in_flight_split os t : Forall out_wf os ->
  cnt t (in_flight os) = cnt t (submitted os ≫= task_jt) + cnt t (pushed os ≫= msg_jt) + on_net t (sent os).
Proof.
  unfold on_net. induction 1 as [|o os Ho _ IH]; [done|].
  change (in_flight (o :: os)) with (out_jt o ++ in_flight os). rewrite cnt_app, IH.
  destruct o as [m|r pl m|m|m|r f fm b|tk|u b]; cbn -[cnt]; try done;
    fold (submitted os) (pushed os) (sent os); rewrite ?cnt_app, ?cnt_nil; try lia.
Qed.
Lemma maps_started_split os x : cnt x (maps_started os) = cnt x (submitted os ≫= task_maps).
Proof.
  induction os as [|o os IH]; [done|].
  change (maps_started (o :: os)) with (map_started o ++ maps_started os). rewrite cnt_app, IH.
  destruct o as [m|r pl m|m|m|r f fm b|tk|u b]; cbn -[cnt]; fold (submitted os); rewrite ?cnt_app, ?cnt_nil; try lia.
  destruct tk; cbn -[cnt]; rewrite ?cnt_nil; lia.
Qed.

Lemma emitted_wf os : Forall out_wf os ->
  Forall (msg_steady (fun t => t ∈ applied os)) (pushed os) /\ Forall task_wf (submitted os) /\ delayed os = [] /\
  Forall (fun rm => exists m, rm.2 = kReceiveJoin m /\ msg_wf rm.2) (sent os).
Proof.
  intros Hos. rewrite Forall_forall in Hos. split_and!.
  - apply Forall_forall. intros m (o & Ho & Hm)%list_elem_of_omap. specialize (Hos o Ho). destruct o; simplify_eq.
    split; [done|]. destruct m; try done. apply Forall_forall. intros t Ht. apply list_elem_of_bind.
    eexists. split; [|exact Ho]. done.
  - apply Forall_forall. intros t (o & Ho & Hm)%list_elem_of_omap. specialize (Hos o Ho). destruct o; by simplify_eq.
  - destruct (delayed os) as [|m l] eqn:E; [done|]. exfalso.
    assert (m ∈ delayed os) as (o & Ho & Hm)%list_elem_of_omap by (rewrite E; left).
    specialize (Hos o Ho). by destruct o.
  - apply Forall_forall. intros [r m] (o & Ho & Hm)%list_elem_of_omap. specialize (Hos o Ho).
    destruct o as [| |? | | | | ]; simplify_eq. cbn in Hos |- *. destruct m; try done. eauto.
Qed.

Definition net_ok (w : list (Z * ctrl_msg)) : Prop :=
  Forall (fun rm => exists m, rm.2 = kReceiveJoin m /\ msg_wf rm.2) w.

(** What a step of a node does to the updates: [D] are dropped. *)
Definition accounts (Ap : jtok -> Prop) (s : sysS) (os : outs) (s' : sysS) : Prop :=
  exists D, Forall Ap D /\ forall t,
    on_node t s + cnt t (made os) = on_node t s' + on_net t (sent os) + cnt t (applied os) + cnt t D.

(** Running a computation that consumes the updates [ts0] and ends the maps [xs0], and
    absorbing its outputs into the rest [s1]. *)
Lemma node_computes Ap Here s tr os ts0 s1 :
  node_ok Ap Here (s, tr) ->
  conserves Ap ts0 (st s) os (st s1) ->
  progresses (map_collection_id_ (pc (st s))) Here (st s) os (st s1) ->
  (forall t, cnt t (pool s ≫= task_jt) + cnt t (queue s ≫= msg_jt) =
     cnt t ts0 + cnt t (pool s1 ≫= task_jt) + cnt t (queue s1 ≫= msg_jt)) ->
  (forall x, cnt x (pool s ≫= task_maps) = cnt x (maps_done os) + cnt x (pool s1 ≫= task_maps)) ->
  (forall m, m ∈ queue s1 -> m ∈ queue s) -> (forall t, t ∈ pool s1 -> t ∈ pool s) -> later s1 = later s ->
  sys_inv (absorb os s1) ->
  node_ok (fun t => Ap t \/ t ∈ applied os) Here (absorb os s1, tr ++ os) /\ net_ok (sent os) /\
  accounts Ap s os (absorb os s1).
Proof.
  intros (Hinv & Hst & Hmap & Hq & Hl & Hp & Hx) Hc Hpr Hts Hxs Hq1 Hp1 Hl1 Hinv'.
  destruct (Hc Hst) as (Hst' & Hwf & D & HD & Ht). destruct (Hpr Hmap) as [Hmap' Hx'].
  destruct (emitted_wf os Hwf) as (Hpush & Hsub & Hdel & Hsent). cbn [fst snd] in *.
  split; [|split; [done|]].
  - unfold node_ok. cbn [fst snd st pool queue later absorb]. split_and!.
    + done.
    + eapply steady_mono; [|exact Hst']. tauto.
    + assert (map_collection_id_ (pc (st s1)) = map_collection_id_ (pc (st s))) as -> by apply Hmap'. done.
    + apply Forall_app. split.
      * apply Forall_forall. intros m Hm. eapply msg_steady_mono; [|by eapply Forall_forall; [exact Hq|apply Hq1]]. tauto.
      * eapply Forall_impl; [exact Hpush|]. intros m. apply msg_steady_mono. tauto.
    + by rewrite Hdel, app_nil_r, Hl1.
    + apply Forall_app. split; [|done]. apply Forall_forall. intros t Hin. by eapply Forall_forall; [exact Hp|apply Hp1].
    + intros x. unfold maps_done in *. rewrite !bind_app, !cnt_app, Hx', <- Hx, maps_started_split.
      specialize (Hxs x). lia.
  - exists D. split; [done|]. intros t. specialize (Ht t). specialize (Hts t).
    unfold on_node. cbn [st pool queue absorb]. rewrite !bind_app, !cnt_app.
    rewrite (in_flight_split os t Hwf) in Ht. lia.
Qed.

Lemma finished_map_was_running (s : sysS) u b q : sys_inv s -> queue s = kFinishMap u b :: q ->
  u ∈ running_maps_ (pc (st s)).
Proof.
  intros [(Hm & _) _] Hq. specialize (Hm u). case_decide as Hd; [done|].
  assert (0 < cnt (TokMap u) (stoks s)); [|lia]. apply cnt_pos. unfold stoks. rewrite Hq. set_solver.
Qed.

Lemma node_step Ap Here s tr os s' :
  node_ok Ap Here (s, tr) -> local_step s os s' ->
  node_ok (fun t => Ap t \/ t ∈ applied os) Here (s', tr ++ os) /\ net_ok (sent os) /\ accounts Ap s os s'.
Proof.
  intros Hok Hstep. pose proof Hok as (Hinv & Hst & Hmap & Hq & Hl & Hp & Hx). cbn [fst snd] in *.
  assert (sys_inv s') as Hinv' by (eapply step_inv; [exact Hinv|by apply step_local]).
  destruct Hstep as [s m q st' os Hqm Hm|s l1 t l2 st' os Hpl Hm|s st' os Hm|s l1 m l2 Hlm|s l1 p l2 u Hg].
  - rewrite Hqm in Hq. apply Forall_cons in Hq as [Hms Hq'].
    apply (node_computes Ap Here s tr os (msg_jt m)); cbn [st pool queue later]; try done.
    + by eapply tracks_Ok; [apply Process_conserves|].
    + refine (wp_Ok any _ _ _ _ _ _ Hm (Process_progresses _ _ m (st s) (proj1 Hms) _)).
      intros u b ->. by eapply finished_map_was_running.
    + intros t. rewrite Hqm. cbn [mbind list_bind]. rewrite cnt_app. lia.
    + intros x. rewrite (tracks_Ok _ _ _ _ _ _ (mapless_Process m (proj1 Hms)) Hm : maps_done os = []). rewrite cnt_nil. lia.
    + intros m' Hin. rewrite Hqm. by right.
  - assert (t ∈ pool s) as Hin by (rewrite Hpl; set_solver).
    assert (task_wf t) as Hwf by by eapply Forall_forall.
    apply (node_computes Ap Here s tr os (task_jt t)); cbn [st pool queue later]; try done.
    + by eapply tracks_Ok; [apply run_task_conserves|].
    + by eapply tracks_Ok; [apply progressing_run_task|].
    + intros t'. rewrite Hpl, !bind_app. cbn [mbind list_bind]. rewrite !cnt_app. lia.
    + intros x. rewrite (wp_Ok any _ _ _ _ _ _ Hm (run_task_maps t Ap (st s) Hst)).
      rewrite Hpl, !bind_app. cbn [mbind list_bind]. rewrite !cnt_app. lia.
    + intros t' Ht'. rewrite Hpl. set_solver.
  - apply (node_computes Ap Here s tr os []); cbn [st pool queue later]; try done.
    + by eapply tracks_Ok; [apply conserving_PeriodicCombine|].
    + by eapply tracks_Ok; [apply progressing_PeriodicCombine|].
    + intros x. rewrite (tracks_Ok _ _ _ _ _ _ mapless_PeriodicCombine Hm : maps_done os = []). rewrite cnt_nil. lia.
  - rewrite Hl in Hlm. by destruct l1.
  - split; [|split; [constructor|]].
    + unfold node_ok. cbn [fst snd st pool queue later]. rewrite app_nil_r. split_and!; try done.
      * eapply steady_mono; [|exact Hst]. tauto.
      * apply Forall_app. split; [|by repeat constructor]. eapply Forall_impl; [exact Hq|]. intros m. apply msg_steady_mono. tauto.
    + exists []. split; [constructor|]. intros t. unfold on_node. cbn [st pool queue].
      rewrite bind_app, cnt_app. unfold on_net. cbn -[cnt]. rewrite !cnt_nil. lia.
Qed.

(** ** Every update is made once *)

Lemma cnt_NoDup {A} `{!EqDecision A} (t : A) l : NoDup l -> cnt t l <= 1.
Proof.
  induction 1 as [|x l Hx _ IH]; [rewrite cnt_nil; lia|]. rewrite cnt_cons. case_decide; [|lia].
  subst. rewrite cnt_zero by done. lia.
Qed.

Lemma made_le (t : jtok) (tr : outs) : cnt t (made tr) <= cnt (t.2, jversion t) (maps_done tr).
Proof.
  induction tr as [|o tr IH].
  { change (made []) with (@nil jtok). change (maps_done []) with (@nil (Z * Z)). rewrite !cnt_nil. lia. }
  change (made (o :: tr)) with (made_by o ++ made tr). change (maps_done (o :: tr)) with (map_done o ++ maps_done tr).
  rewrite !cnt_app. enough (cnt t (made_by o) <= cnt (t.2, jversion t) (map_done o)) by lia.
  destruct o as [m|r pl m|m|m|r f fm b|tk|u b]; cbn -[cnt]; rewrite ?cnt_nil; try lia.
  destruct tk as [|u v x| | | | ]; cbn -[cnt]; rewrite ?cnt_nil; try lia. rewrite cnt_cons, cnt_nil.
  case_decide as Hd.
  - rewrite Z.add_0_r. apply cnt_NoDup, NoDup_fmap; [|apply NoDup_seqZ]. by intros q q' [= ->].
  - rewrite cnt_zero; [lia|]. intros (q & -> & _)%list_elem_of_fmap. by apply Hd.
Qed.

Lemma started_bound Here mc (s : NodeS) x : mapping mc Here s ->
  0 <= started (pc s) x <= 1 /\ (0 < started (pc s) x -> Here x.1).
Proof.
  intros (_ & _ & _ & Hh & _). unfold started. specialize (Hh x.1).
  destruct (Z.leb_spec 0 x.2), (Z.ltb_spec x.2 (map_version (pc s) x.1)); cbn [andb];
    try (split; [lia|intros _; apply Hh; right; lia]).
  all: destruct (_ =? _); cbn [andb]; [|lia]; destruct (bool_decide _) eqn:E; [|lia];
    apply bool_decide_eq_true in E; split; [lia|tauto].
Qed.

Lemma made_once Ap (hs : list (Z -> Prop)) (l : list node) t :
  Forall2 (node_ok Ap) hs l ->
  (forall i j hi hj u, hs !! i = Some hi -> hs !! j = Some hj -> hi u -> hj u -> i = j) ->
  sum_over (fun n => cnt t (made n.2)) l <= 1.
Proof.
  intros Hl Hd. eapply (sum_over_unique _ (fun h => h t.2) (node_ok Ap)); [done| |eauto].
  intros h n (_ & _ & Hmap & _ & _ & _ & Hx).
  pose proof (made_le t n.2) as Hle. specialize (Hx (t.2, jversion t)).
  pose proof (cnt_nonneg t (made n.2)). pose proof (cnt_nonneg (t.2, jversion t) (pool n.1 ≫= task_maps)).
  destruct (started_bound _ _ _ (t.2, jversion t) Hmap) as [Hb Hp]. cbn [fst] in Hp. split; [lia|]. intros. apply Hp. lia.
Qed.

(** ** The invariant of a run *)

Definition cinv (c : cluster) : Prop :=
  net_ok (net c) /\
  (exists hs, Forall2 (node_ok (fun t => 0 < updates_applied t c)) hs (nodes c) /\
     forall i j hi hj u, hs !! i = Some hi -> hs !! j = Some hj -> hi u -> hj u -> i = j) /\
  forall t, updates_in_flight t c + updates_applied t c = updates_made t c.

Lemma on_net_app t w w' : on_net t (w ++ w') = on_net t w + on_net t w'.
Proof. unfold on_net. by rewrite bind_app, cnt_app. Qed.
Lemma on_net_nonneg t w : 0 <= on_net t w.
Proof. apply cnt_nonneg. Qed.
Lemma on_node_nonneg t (s : sysS) : 0 <= on_node t s.
Proof.
  unfold on_node, held, in_queue, in_pending, in_store.
  repeat match goal with |- context [cnt t ?l] => pose proof (cnt_nonneg t l); generalize dependent (cnt t l); intros end.
  lia.
Qed.

(** A message from outside the node. *)
Lemma node_deliver Ap Here s tr m : node_ok Ap Here (s, tr) -> msg_wf m -> msg_toks m = [] ->
  node_ok Ap Here (deliver m s, tr).
Proof.
  intros (Hinv & Hst & Hmap & Hq & Hl & Hp & Hx) Hwf Htk. cbn [fst snd] in *.
  assert (external (ids (st s)) m) as Hext by (split; [done|by destruct m]).
  unfold node_ok. cbn [fst snd st pool queue later deliver]. split_and!; try done.
  - exact (step_inv _ _ _ Hinv (step_deliver _ _ Hext)).
  - apply Forall_app. split; [done|]. repeat constructor; [done|]. by destruct m.
Qed.

Lemma on_node_deliver t m (s : sysS) : on_node t (deliver m s) = on_node t s + cnt t (msg_jt m).
Proof.
  unfold on_node. cbn [st pool queue deliver]. rewrite bind_app, cnt_app. cbn [mbind list_bind].
  rewrite app_nil_r. lia.
Qed.

(** Messages arriving at a node change no count but the one of updates on their way. *)
Lemma deliver_inv l1 s tr l2 w w' m :
  cinv {| nodes := l1 ++ (s, tr) :: l2; net := w |} -> net_ok w' -> msg_wf m -> msg_toks m = [] ->
  (forall t, on_net t w = on_net t w' + cnt t (msg_jt m)) ->
  cinv {| nodes := l1 ++ (deliver m s, tr) :: l2; net := w' |}.
Proof.
  intros (Hnet & (hs & Hn & Hd) & Hbal) Hnet' Hwf Htk Hw.
  set (c := {| nodes := l1 ++ (s, tr) :: l2; net := w |}) in *. set (c' := {| nodes := _; net := w' |}).
  assert (forall t, updates_applied t c' = updates_applied t c) as Happ.
  { intros t. unfold updates_applied, c, c'. cbn [nodes]. by rewrite !sum_over_app, !sum_over_cons. }
  split; [done|]. split.
  - exists hs. split; [|done].
    apply Forall2_app_inv_r in Hn as (h1 & h2' & Hn1 & Hn' & ->).
    apply Forall2_cons_inv_r in Hn' as (h & h2 & Hs0 & Hn2 & ->).
    apply Forall2_app; [|constructor].
    + eapply Forall2_impl; [exact Hn1|]. intros h' n'. apply node_ok_mono. intros t. by rewrite Happ.
    + eapply node_deliver; [|done|done]. eapply node_ok_mono; [|exact Hs0]. intros t. by rewrite Happ.
    + eapply Forall2_impl; [exact Hn2|]. intros h' n'. apply node_ok_mono. intros t. by rewrite Happ.
  - intros t. specialize (Hbal t). rewrite Happ.
    assert (updates_made t c' = updates_made t c) as ->.
    { unfold updates_made, c, c'. cbn [nodes]. by rewrite !sum_over_app, !sum_over_cons. }
    rewrite <- Hbal. unfold updates_in_flight, c, c'. cbn [nodes net].
    rewrite !sum_over_app, !sum_over_cons. cbn [fst]. rewrite on_node_deliver, Hw. lia.
Qed.

Lemma cstep_inv c c' : cinv c -> cstep c c' -> cinv c'.
Proof.
  intros (Hnet & (hs & Hn & Hd) & Hbal) Hstep.
  destruct Hstep as [l1 s tr l2 w os s' Hs|l1 s tr l2 w1 m w2|l1 s tr l2 w m Hm]; cbn [nodes net] in *.
  - apply Forall2_app_inv_r in Hn as (h1 & h2' & Hn1 & Hn' & ->).
    apply Forall2_cons_inv_r in Hn' as (h & h2 & Hs0 & Hn2 & ->).
    destruct (node_step _ _ _ _ _ _ Hs0 Hs) as (Hs1 & Hnet1 & D & HD & Hacc).
    set (c := {| nodes := l1 ++ (s, tr) :: l2; net := w |}) in *.
    set (c' := {| nodes := l1 ++ (s', tr ++ os) :: l2; net := w ++ sent os |}).
    assert (forall t, updates_applied t c' = updates_applied t c + cnt t (applied os)) as Happ.
    { intros t. unfold updates_applied, c, c'. cbn [nodes]. rewrite !sum_over_app, !sum_over_cons. cbn [snd].
      unfold applied. rewrite bind_app, cnt_app. lia. }
    assert (forall t, updates_made t c' = updates_made t c + cnt t (made os)) as Hmade.
    { intros t. unfold updates_made, c, c'. cbn [nodes]. rewrite !sum_over_app, !sum_over_cons. cbn [snd].
      unfold made. rewrite bind_app, cnt_app. lia. }
    assert (forall t, updates_in_flight t c + cnt t (made os) =
      updates_in_flight t c' + cnt t (applied os) + cnt t D) as Hfl.
    { intros t. unfold updates_in_flight, c, c'. cbn [nodes net]. rewrite !sum_over_app, !sum_over_cons, on_net_app. cbn [fst].
      specialize (Hacc t). lia. }
    assert (Forall2 (node_ok (fun t => 0 < updates_applied t c')) (h1 ++ h :: h2) (nodes c')) as Hok'.
    { assert (forall t, 0 < updates_applied t c -> 0 < updates_applied t c') as Hmono.
      { intros t. rewrite Happ. pose proof (cnt_nonneg t (applied os)). lia. }
      apply Forall2_app; [|constructor].
      - eapply Forall2_impl; [exact Hn1|]. intros h' n'. by apply node_ok_mono.
      - eapply node_ok_mono; [|exact Hs1]. intros t [Ht|Ht]; [by apply Hmono|]. rewrite Happ.
        apply cnt_pos in Ht. enough (0 <= updates_applied t c) by lia.
        apply sum_over_nonneg. intros. apply cnt_nonneg.
      - eapply Forall2_impl; [exact Hn2|]. intros h' n'. by apply node_ok_mono. }
    split; [by apply Forall_app|]. split; [by exists (h1 ++ h :: h2)|]. intros t.
    specialize (Hbal t). specialize (Hfl t). rewrite Happ, Hmade.
    enough (cnt t D = 0) by lia. apply cnt_zero. intros HtD.
    rewrite Forall_forall in HD. specialize (HD t HtD). apply cnt_pos in HtD.
    pose proof (made_once _ _ _ t Hok' Hd) as H1. fold (updates_made t c') in H1. rewrite Hmade in H1.
    assert (0 <= updates_in_flight t c'); [|pose proof (cnt_nonneg t (applied os)); lia].
    unfold updates_in_flight. pose proof (on_net_nonneg t (net c')).
    enough (0 <= sum_over (fun n : node => on_node t n.1) (nodes c')) by lia.
    apply sum_over_nonneg. intros. apply on_node_nonneg.
  - pose proof Hnet as Hnet'. apply Forall_app in Hnet' as [Hnet1 Hnet2].
    apply Forall_cons in Hnet2 as [(jm & Hjm & Hwf) Hnet2]. cbn [snd] in Hjm, Hwf.
    eapply deliver_inv; [exact (conj Hnet (conj (ex_intro _ hs (conj Hn Hd)) Hbal))|by apply Forall_app|done|by subst m|].
    intros t. rewrite !on_net_app. unfold on_net at 2. cbn [mbind list_bind snd]. rewrite cnt_app. unfold on_net. lia.
  - eapply deliver_inv; [exact (conj Hnet (conj (ex_intro _ hs (conj Hn Hd)) Hbal))|done|by destruct m|by destruct m|].
    intros t. assert (msg_jt m = []) as -> by (by destruct m). rewrite cnt_nil. lia.
Qed.

(** ** The start *)

Definition untouched (s : NodeS) : Prop :=
  let c := pc s in
  update_tracker_ c = ∅ /\ waiting_updates_ c = ∅ /\ pending_updates_ c = ∅ /\ buffered_requests_ c = ∅ /\
  stop_updateing_partitions_ c = ∅ /\ running_maps_ c = ∅ /\ (exists n, store_ c = replicate n ∅) /\
  forall u, lookup_or 0 u (map_versions_ c) = 0.

Lemma lookup_or_empty {A} (d : A) k : lookup_or d k ∅ = d.
Proof. unfold lookup_or. by rewrite lookup_empty. Qed.

Lemma untouched_loop {A} (l : list A) (f : A -> PC Stream -> PC Stream) (s : NodeS) (Q : unit -> NodeS -> outs -> Prop) :
  untouched s ->
  (forall x s', untouched s' -> untouched (s' <| pc ::= f x |>)) ->
  (forall s' os, untouched s' -> Q tt s' os) ->
  wp any (for_each l (fun x => mod_pc (f x))) s Q.
Proof.
  intros Hs Hf HQ. apply (wp_for_each_state any untouched); [done| |done].
  intros x s1 _ Hs1. unfold mod_pc. wstep. by apply Hf.
Qed.

Lemma Setup_untouched sp s : untouched s -> wp any (Setup sp) s (fun _ s' _ => untouched s').
Proof.
  intros Hs. unfold Setup, cast_MapJoin, cmap_GetNumParts, cmap_Get, ReportFinishPart, pcs.
  pose proof Hs as (_ & _ & _ & Hb & Hst & Hr & _).
  assert (forall u, lookup_or 0 u ∅ = 0) as Hz by apply lookup_or_empty.
  repeat first [ wstep | (apply wp_on_pm; intros ? ?) | (unfold mod_pc at 1; wstep) ].
  all: apply untouched_loop;
    [unfold untouched; cbn; split_and!; first [eexists; reflexivity | reflexivity | assumption]
    |intros part s1 (? & ? & ? & ? & ? & ? & ? & Hv'); unfold untouched; cbn; split_and!; try assumption;
     intros u; destruct (decide (part.1 = u)) as [<-|];
     [apply lookup_or_insert|rewrite lookup_or_insert_ne by done; apply Hv']
    |intros s1 os1 Hs1; wstep; apply wp_on_pm; intros parts q'].
  all: wstep; apply untouched_loop; [exact Hs1|by intros part s2|intros s2 os2 Hs2].
  all: wsteps; exact Hs2.
Qed.

Lemma untouched_ok (s : NodeS) Ap : untouched s ->
  steady Ap (pc s) /\ (forall t, held t (pc s) = 0) /\ (forall x, started (pc s) x = 0) /\
  mapping (map_collection_id_ (pc s)) (maps_here s) s.
Proof.
  intros (Ht & Hw & Hp & Hb & Hst & Hr & (n & Hn) & Hv). split_and!.
  - unfold steady. rewrite Ht, Hw, Hp, Hb. split_and!; [..|done].
    + intros p v u. unfold tracker_get. rewrite !lookup_or_empty. set_solver.
    + intros k m. rewrite lookup_or_empty. set_solver.
    + intros k v m. rewrite !lookup_or_empty. set_solver.
    + intros k m. rewrite lookup_or_empty. set_solver.
  - intros t. unfold held, in_queue, in_pending, in_store. rewrite Hw, Hp, Hb, Hn, !lookup_or_empty.
    assert (store_cell (jpart t) (replicate n (∅ : gmap Z (list (Z * Stream)))) = ∅) as ->.
    { unfold store_cell. destruct (0 <=? _); [|done].
      destruct (replicate n _ !! _) as [x|] eqn:E; [|done]. by apply lookup_replicate in E as [-> _]. }
    rewrite lookup_or_empty. cbn -[cnt]. rewrite !cnt_nil. lia.
  - intros x. unfold started, map_version. rewrite Hv, Hr.
    rewrite bool_decide_eq_false_2 by set_solver. rewrite andb_false_r.
    destruct (Z.leb_spec 0 x.2), (Z.ltb_spec x.2 0); cbn; lia.
  - unfold mapping, map_version. rewrite Hr. split_and!; [done|done|set_solver| |].
    + intros u [Hu|Hu]; [set_solver|]. rewrite Hv in Hu. lia.
    + intros u. rewrite Hv. lia.
Qed.

Lemma cinitial_inv sp c : cinitial sp c -> cinv c.
Proof.
  intros (Hnet & Hn & Hd).
  assert (forall n, n ∈ nodes c -> n.2 = [] /\ initial n.1 /\ untouched (st n.1) /\ pool n.1 = [] /\
    queue n.1 = [] /\ later n.1 = []) as Hall.
  { intros n Hin. rewrite Forall_forall in Hn. destruct (Hn n Hin) as (H1 & q & cm & id & st' & os & Hset & H2).
    rewrite H2. split; [done|]. split; [by econstructor|]. split; [|done].
    eapply (wp_Ok any _ _ _ _ _ (fun _ s' _ => untouched s') Hset), Setup_untouched.
    unfold untouched. cbn. split_and!; try done. by exists 0%nat. }
  split; [rewrite Hnet; constructor|]. split.
  - exists ((fun n : node => maps_here (st n.1)) <$> nodes c). split.
    + apply Forall2_fmap_l, Forall_Forall2_diag, Forall_forall. intros [s tr] Hin.
      destruct (Hall _ Hin) as (H2 & Hi & Hu & Hp & Hq & Hl). cbn [fst snd] in *.
      destruct (untouched_ok (st s) (fun t => 0 < updates_applied t c) Hu) as (Hs & _ & Hx & Hm).
      change (node_ok (fun t => 0 < updates_applied t c) (maps_here (st s)) (s, tr)).
      unfold node_ok. cbn [fst snd]. rewrite Hq, Hl, Hp, H2.
      refine (conj (initial_inv _ Hi) (conj Hs (conj Hm (conj _ (conj eq_refl (conj _ _)))))); [constructor..|].
      intros x. by rewrite Hx.
    + intros i j hi hj u Hi Hj H1 H2. rewrite list_lookup_fmap in Hi, Hj.
      apply fmap_Some in Hi as (ni & Hi & ->), Hj as (nj & Hj & ->). by eapply Hd.
  - intros t. unfold updates_in_flight, updates_applied, updates_made. rewrite Hnet.
    rewrite !sum_over_zero; [done|..]; intros n Hin; destruct (Hall _ Hin) as (H2 & _ & Hu & Hp & Hq & _).
    + by rewrite H2.
    + by rewrite H2.
    + destruct (untouched_ok (st n.1) (fun _ => True) Hu) as (_ & Hh & _).
      unfold on_node. rewrite Hh, Hp, Hq. done.
Qed.

Lemma crun_inv sp c : crun sp c -> cinv c.
Proof. induction 1 as [c Hc|c c' _ IH Hs]; [by eapply cinitial_inv|by eapply cstep_inv]. Qed.

(** C3: Every update is applied exactly once.  In a run of a plan on any number of nodes, for
    every partition [p] of the update collection, iteration [v] and partition [u] of the map
    collection: the output of [u] for [p] in iteration [v] is made at most once, once it is
    made it is either applied or on its way (in a combiner, a message, a queue or a task),
    and it is never in two places, so it is applied at most once and never lost, whatever the
    interleaving of nodes, executors, combiners and network. *)
Theorem updates_applied_exactly_once sp c p v u :
  crun sp c ->
  updates_in_flight (p, v, u) c + updates_applied (p, v, u) c = updates_made (p, v, u) c /\
  0 <= updates_in_flight (p, v, u) c /\ 0 <= updates_applied (p, v, u) c /\
  updates_made (p, v, u) c <= 1.
Proof.
  intros Hc. destruct (crun_inv _ _ Hc) as (_ & (hs & Hn & Hd) & Hbal). split_and!.
  - apply Hbal.
  - unfold updates_in_flight. pose proof (on_net_nonneg (p, v, u) (net c)).
    enough (0 <= sum_over (fun n : node => on_node (p, v, u) n.1) (nodes c)) by lia.
    apply sum_over_nonneg. intros. apply on_node_nonneg.
  - apply sum_over_nonneg. intros. apply cnt_nonneg.
  - by eapply made_once.
Qed.
End Cluster.
