(* ===== verification/PlanDrain.v ===== *)
(** * The queues of a node drain

    An update that waits on a node waits for something that is running: the waiting list of
    a partition is empty unless an update, a map or a fetch of the partition is running, and
    a pending update is one of an iteration that the partition has not been mapped for yet.
    Shown for the handlers and tasks of a node that takes no part in a migration; with it, a
    node at rest holds no update back. *)

From S2P Require Import Prelude BinStream Specs Index Messages Partition PlanController PlanFrame PlanTokens PlanProgress.

Section Drain.
Context {P Stream : Type} `{UserCode P Stream} `{IterOrder}.
Abbreviation NodeS := (NodeSt P Stream).
Abbreviation outs := (list (out P Stream)).
Abbreviation Comp := (M NodeS (out P Stream)).

(** What a plan without migrations never changes. *)
Definition constants (s : NodeS) :=
  (map_collection_id_ (pc s), update_collection_id_ (pc s), fetch_collection_id_ (pc s),
   num_update_part_ (pc s), my_id s, cmap s).

(** Something is running that will look at the waiting list of [p] when it ends. *)
Definition busy (c : PC Stream) (p : Z) : Prop :=
  is_Some (running_updates_ c !! p) \/
  (map_collection_id_ c = update_collection_id_ c /\ p ∈ running_maps_ c) \/
  (fetch_collection_id_ c = update_collection_id_ c /\ 0 < lookup_or 0 p (running_fetches_ c)).

(** [Own] holds of the update partitions that are on the node; [e] is a partition whose
    waiting list is about to be looked at. *)
Context (Own : Z -> Prop).
Definition drained (e : option Z) (s : NodeS) : Prop :=
  let c := pc s in
  (forall p, e <> Some p -> lookup_or [] p (waiting_updates_ c) <> [] -> busy c p) /\
  (forall p v m, m ∈ lookup_or [] v (lookup_or ∅ p (pending_updates_ c)) ->
     vs_part_id (vj_meta m) = p /\ vs_is_fetch (vj_meta m) = false /\
     map_collection_id_ c = update_collection_id_ c /\ exists w, map_versions_ c !! p = Some w /\ w <= v) /\
  (forall p m, m ∈ lookup_or [] p (waiting_updates_ c) -> vs_part_id (vj_meta m) = p /\
     (vs_is_fetch (vj_meta m) = true -> fetch_collection_id_ c = update_collection_id_ c)) /\
  (forall p m, m ∈ lookup_or [] p (buffered_requests_ c) -> vs_is_fetch (vj_meta m) = true) /\
  (forall p, Own p -> is_Some (update_versions_ c !! p)) /\
  (forall p, 0 <= lookup_or 0 p (running_fetches_ c)).

(** A join for a partition of the node. *)
Definition own_join (m : ctrl_msg) : Prop :=
  match m with kReceiveJoin m => Own (vs_part_id (vj_meta m)) | _ => True end.

Definition drains (e e' : option Z) (s : NodeS) (os : outs) (s' : NodeS) : Prop :=
  constants s' = constants s /\ (drained e s -> drained e' s').

#[global] Instance drains_tracking e : Tracking (drains e e).
Proof.
  split; [done|]. intros s1 s2 s3 os os' [E1 H1] [E2 H2]. split; [congruence|]. auto.
Qed.
Abbreviation draining := (tracks (P := P) (Stream := Stream) (drains None None)).

Lemma drains_trans e1 e2 e3 s1 s2 s3 os os' : drains e1 e2 s1 os s2 -> drains e2 e3 s2 os' s3 -> drains e1 e3 s1 (os ++ os') s3.
Proof. intros [E1 H1] [E2 H2]. split; [congruence|]. auto. Qed.
Lemma drained_weaken e s : drained None s -> drained e s.
Proof. intros (Hw & Hr). split; [|exact Hr]. intros p _. by apply Hw. Qed.

(** A step that changes nothing the waiting requests depend on, or starts something. *)
Lemma drains_same e s os s' :
  constants s' = constants s ->
  (forall p, lookup_or [] p (waiting_updates_ (pc s')) = lookup_or [] p (waiting_updates_ (pc s))) ->
  (forall p v, lookup_or [] v (lookup_or ∅ p (pending_updates_ (pc s'))) =
               lookup_or [] v (lookup_or ∅ p (pending_updates_ (pc s)))) ->
  (forall p, lookup_or [] p (buffered_requests_ (pc s')) = lookup_or [] p (buffered_requests_ (pc s))) ->
  (forall p w, map_versions_ (pc s) !! p = Some w -> map_versions_ (pc s') !! p = Some w) ->
  (forall p, is_Some (update_versions_ (pc s) !! p) -> is_Some (update_versions_ (pc s') !! p)) ->
  (forall p, is_Some (running_updates_ (pc s) !! p) -> is_Some (running_updates_ (pc s') !! p)) ->
  (forall p, p ∈ running_maps_ (pc s) -> p ∈ running_maps_ (pc s')) ->
  (forall p, 0 <= lookup_or 0 p (running_fetches_ (pc s)) ->
     lookup_or 0 p (running_fetches_ (pc s)) <= lookup_or 0 p (running_fetches_ (pc s'))) ->
  drains e e s os s'.
Proof.
  intros Ec Ew Ep Eb Ev Hu Hr Hm Hf. split; [done|]. intros (Dw & Dp & Dk & Db & Do & Dn).
  unfold constants in Ec. injection Ec as E1 E2 E3 _ _ _. unfold drained. rewrite E1, E2, E3. split_and!.
  - intros p He. rewrite Ew. intros Hp. destruct (Dw p He Hp) as [?|[[? ?]|[? ?]]]; unfold busy; rewrite E1, E2, E3.
    + auto.
    + right; left; auto.
    + right; right. split; [done|]. specialize (Hf p (Dn p)). lia.
  - intros p v m. rewrite Ep. intros Hin. destruct (Dp p v m Hin) as (? & ? & ? & w & Hw & ?). naive_solver.
  - intros p m. rewrite Ew. apply Dk.
  - intros p m. rewrite Eb. apply Db.
  - intros p Hp. by apply Hu, Do.
  - intros p. specialize (Hf p (Dn p)). specialize (Dn p). lia.
Qed.

Lemma is_Some_touch {A} (d : A) k k' m : is_Some (m !! k') -> is_Some (touch d k m !! k').
Proof.
  intros Hk. unfold touch. destruct (decide (k = k')) as [->|]; [by rewrite lookup_insert_eq|by rewrite lookup_insert_ne].
Qed.
Lemma is_Some_insert {A} (x : A) k k' (m : gmap Z A) : is_Some (m !! k') -> is_Some (<[k := x]> m !! k').
Proof.
  intros Hk. destruct (decide (k = k')) as [->|]; [by rewrite lookup_insert_eq|by rewrite lookup_insert_ne].
Qed.

Lemma lookup_touch_Some {A} (d x : A) k k' m : m !! k' = Some x -> touch d k m !! k' = Some x.
Proof.
  intros Hk. unfold touch. destruct (decide (k = k')) as [->|]; [|by rewrite lookup_insert_ne].
  rewrite lookup_insert_eq. unfold lookup_or. by rewrite Hk.
Qed.

Lemma drains_on_pm {A} e (m : M (PartitionManager P) Empty_set A) : tracks (drains e e) (on_pm m).
Proof.
  apply tracks_on_pm. intros s. unfold wp. destruct (m (pm s)) as [[[a q] os]|]; [|done]. done.
Qed.
End Drain.
#[export] Hint Resolve drains_on_pm : track_db.

Ltac drain_skip :=
  intros; apply drains_same; cbn; unfold map_version; intros; repeat case_match; cbn in *;
  rewrite ?lookup_or_touch; first [done | by apply lookup_touch_Some | by apply is_Some_touch | by apply is_Some_insert | set_solver | lia].
Ltac drain_step := track_step_with drain_skip.
Ltac solve_drain := repeat drain_step.

Section Handlers.
Context {P Stream : Type} `{UserCode P Stream} `{IterOrder}.
Abbreviation NodeS := (NodeSt P Stream).
Abbreviation outs := (list (out P Stream)).
Abbreviation Comp := (M NodeS (out P Stream)).
Context (Own : Z -> Prop).
Abbreviation draining := (tracks (P := P) (Stream := Stream) (drains Own None None)).
Abbreviation drained := (drained Own).
Abbreviation drains := (drains Own).

Lemma drained_settled p (s : NodeS) :
  lookup_or [] p (waiting_updates_ (pc s)) = [] \/ busy (pc s) p -> drained (Some p) s -> drained None s.
Proof.
  intros Hp (Hw & Hr). split; [|exact Hr]. intros q _ Hq. destruct (decide (q = p)) as [->|Hne].
  - destruct Hp as [Hp|Hp]; [congruence|done].
  - by apply Hw; [congruence|].
Qed.

Lemma drains_Report e f p v : tracks (drains e e) (ReportFinishPart (P := P) (Stream := Stream) f p v).
Proof. unfold ReportFinishPart. solve_drain. Qed.
Hint Resolve drains_Report : track_db.
Lemma drains_TryRunSomeMaps e : tracks (P := P) (Stream := Stream) (drains e e) TryRunSomeMaps.
Proof. unfold TryRunSomeMaps, IsMapRunnable, RunMap. solve_drain. Qed.
Hint Resolve drains_TryRunSomeMaps : track_db.
Lemma drains_IsJoinedBefore e m : tracks (P := P) (Stream := Stream) (drains e e) (IsJoinedBefore m).
Proof. unfold IsJoinedBefore. solve_drain. Qed.
Hint Resolve drains_IsJoinedBefore : track_db.

(** A fetch that starts keeps its partition busy. *)
Lemma fetch_counted e k (s : NodeS) : drains e e s [] (s <| pc ::= fun c => c <| running_fetches_ ::= fun r =>
    <[k := lookup_or 0 k r + 1]> r |> |>).
Proof.
  apply drains_same; try done. intros p Hp. cbn. destruct (decide (k = p)) as [->|].
  - rewrite lookup_or_insert. lia.
  - by rewrite lookup_or_insert_ne.
Qed.
Lemma drains_RunFetchRequest e m : tracks (P := P) (Stream := Stream) (drains e e) (RunFetchRequest m).
Proof.
  unfold RunFetchRequest. drain_step; [apply tracks_mod; intros s; apply fetch_counted|]. solve_drain.
Qed.
Hint Resolve drains_RunFetchRequest : track_db.
Lemma RunFetchRequest_counts m (s : NodeS) : wp any (RunFetchRequest m) s (fun _ s' _ =>
  lookup_or 0 (vs_part_id (vj_meta m)) (running_fetches_ (pc s')) =
  lookup_or 0 (vs_part_id (vj_meta m)) (running_fetches_ (pc s)) + 1).
Proof. unfold RunFetchRequest, mod_pc. wsteps; cbn; apply lookup_or_insert. Qed.

(** ** Looking at a waiting list *)

Lemma run_first_waiting_drains retry p (s : NodeS) :
  (forall q, tracks (drains (Some q) None) (retry q)) ->
  wp any (run_first_waiting retry p) s (fun _ s' os => drains (Some p) None s os s').
Proof.
  intros Hr. unfold run_first_waiting, mod_pc. wstep. wstep. wstep.
  { wstep. split; [done|]. apply drained_settled. right. right. left.
    apply andb_true_iff in Hif as [Hc Hm%bool_decide_eq_true]. split; [lia|done]. }
  wstep. wstep. destruct (lookup_or [] p (waiting_updates_ (pc s))) as [|m rest] eqn:Hl.
  { wstep. set (s1 := upd pc _ s).
    assert (drains (Some p) (Some p) s [] s1) as [E1 H1].
    { apply drains_same; try done. intros q. cbn. apply lookup_or_touch. }
    split; [done|]. intros Hd. apply (drained_settled p); [|by apply H1]. left. unfold s1. cbn. by rewrite lookup_or_touch. }
  wstep. wstep. set (s1 := upd pc _ (upd pc _ s)).
  assert (forall e, drains e e s [] s1) as Hpop.
  { intros e. split; [done|]. intros (Dw & Dp & Dk & Db & Do & Dn).
    assert (forall q, lookup_or [] q (waiting_updates_ (pc s1)) =
      if decide (q = p) then rest else lookup_or [] q (waiting_updates_ (pc s))) as Hq.
    { intros q. unfold s1. cbn. rewrite insert_touch.
      destruct (decide (q = p)) as [->|]; [apply lookup_or_insert|by rewrite lookup_or_insert_ne]. }
    refine (conj _ (conj Dp (conj _ (conj Db (conj Do Dn))))).
    - intros q He. rewrite Hq. destruct (decide (q = p)) as [->|]; [|by apply Dw].
      intros _. apply Dw; [done|]. by rewrite Hl.
    - intros q m'. rewrite Hq. destruct (decide (q = p)) as [->|]; [|by apply Dk].
      intros Hm'. apply Dk. rewrite Hl. by right. }
  assert (drained (Some p) s -> vs_part_id (vj_meta m) = p /\
    (vs_is_fetch (vj_meta m) = true -> fetch_collection_id_ (pc s) = update_collection_id_ (pc s))) as Hm.
  { intros (_ & _ & Dk & _). apply Dk. rewrite Hl. left. }
  wstep. wstep.
  - unfold RunJoin, pcs, mod_pc. wstep. eapply wp_mono; [apply (drains_IsJoinedBefore (Some p))|].
    intros joined s2 o2 H2. wstep.
    + eapply wp_mono; [apply Hr|]. intros [] s3 o3 [E3 H3]. wstep. split.
      { destruct H2 as [E2 _]. by rewrite E3, E2. }
      intros Hd. pose proof (Hm Hd) as [Hmp _]. rewrite Hmp in H3. apply H3, H2. by apply Hpop.
    + wstep. wstep. wstep. wstep. wstep. wstep. wstep. destruct H2 as [E2 H2]. split; [exact E2|].
      intros Hd. pose proof (Hm Hd) as [Hmp _]. apply (drained_settled p).
      * right. left. cbn. by rewrite Hmp, lookup_insert_eq.
      * specialize (H2 (proj2 (Hpop (Some p)) Hd)).
        refine (proj2 (drains_same Own (Some p) s2 [] _ _ _ _ _ _ _ _ _ _) H2); try done.
        intros q Hq. cbn. by apply is_Some_insert.
  - eapply wp_mono; [apply (wp_conj _ _ _ _ _ (drains_RunFetchRequest (Some p) m s1) (RunFetchRequest_counts m s1))|].
    intros [] s2 o2 [[E2 H2] Hc]. wstep. split; [by rewrite E2|]. intros Hd. destruct (Hm Hd) as [Hmp Hf].
    specialize (H2 (proj2 (Hpop (Some p)) Hd)). apply (drained_settled p); [|done]. right. right. right.
    injection E2 as E21 E22 E23 _ _ _. rewrite E22, E23. split; [apply Hf; by apply negb_false_iff|].
    rewrite <- Hmp, Hc. destruct Hd as (_ & _ & _ & _ & _ & Dn). specialize (Dn (vs_part_id (vj_meta m))).
    change (running_fetches_ (pc s1)) with (running_fetches_ (pc s)). lia.
Qed.

Lemma try_waiting_drains (retry : Z -> Comp unit) p : (forall q, tracks (drains (Some q) None) (retry q)) ->
  tracks (drains (Some p) None) (try_waiting retry p).
Proof.
  intros Hr s. unfold try_waiting, mod_pc. wstep. wstep. wstep.
  { wstep. split; [done|]. apply drained_settled. right. left. unfold has in Hif. by apply bool_decide_eq_true in Hif. }
  wstep. wstep.
  - wstep. wstep. wstep. set (s1 := upd pc _ s). assert (drains (Some p) (Some p) s [] s1) as H1 by drain_skip.
    wstep.
    + wstep. split; [done|]. intros Hd. apply (drained_settled p); [|by apply H1]. right. right. right.
      unfold s1. cbn. rewrite lookup_or_touch. lia.
    + eapply wp_mono; [by apply run_first_waiting_drains|]. intros b s2 o2 H2. exact (drains_trans _ _ _ _ _ _ _ [] o2 H1 H2).
  - wstep. by apply run_first_waiting_drains.
Qed.

Lemma TryRunWaitingJoins_drains p : tracks (P := P) (Stream := Stream) (drains (Some p) None) (TryRunWaitingJoins p).
Proof.
  intros s. unfold TryRunWaitingJoins, pcs. wstep. wstep. cbn beta. generalize (total_waiting (waiting_updates_ (pc s))).
  intros n. revert p s. induction n as [|n IH]; intros p; cbn [TryRunWaitingJoins_]; apply try_waiting_drains; intros q s.
  - by wstep.
  - wstep. eapply wp_mono; [apply IH|]. intros b s1 o1 H1. wstep. by rewrite app_nil_r.
Qed.

(** Ending with a look at the waiting list of [p] settles it. *)
Lemma draining_at p (m : Comp unit) :
  tracks (drains None (Some p)) m -> draining (m ;;; TryRunWaitingJoins p ;;; ret tt).
Proof.
  intros Hm s. wstep. eapply wp_mono; [apply Hm|]. intros [] s1 o1 H1. wstep.
  eapply wp_mono; [apply TryRunWaitingJoins_drains|]. intros b s2 o2 H2. wstep. rewrite app_nil_r.
  exact (drains_trans _ _ _ _ _ _ _ _ _ H1 H2).
Qed.
Lemma draining_TryRunWaitingJoins p : draining (TryRunWaitingJoins p).
Proof.
  intros s. eapply wp_mono; [apply TryRunWaitingJoins_drains|]. intros b s1 o1 [E1 H1]. split; [done|].
  intros Hd. by apply H1, drained_weaken.
Qed.

(** ** Handlers *)

Lemma push_waiting_drains p l : (forall m, m ∈ l -> vs_part_id (vj_meta m) = p) ->
  forall s : NodeS, (forall m, m ∈ l -> vs_is_fetch (vj_meta m) = true ->
    fetch_collection_id_ (pc s) = update_collection_id_ (pc s)) ->
  drains None (Some p) s [] (s <| pc ::= fun c => c <| waiting_updates_ ::= fun w =>
    <[p := lookup_or [] p w ++ l]> w |> |>).
Proof.
  intros Hl s Hf. split; [done|]. intros (Dw & Dp & Dk & Db & Do & Dn).
  refine (conj _ (conj Dp (conj _ (conj Db (conj Do Dn))))); cbn.
  - intros q He. rewrite lookup_or_insert_ne by congruence. by apply Dw.
  - intros q m. destruct (decide (p = q)) as [->|]; [|rewrite lookup_or_insert_ne by done; apply Dk].
    rewrite lookup_or_insert. intros [Hm|Hm]%elem_of_app; [by apply Dk|]. split; [by apply Hl|]. by apply Hf.
Qed.

Lemma ReceiveJoin_drains m (s : NodeS) : vs_is_fetch (vj_meta m) = false -> Own (vs_part_id (vj_meta m)) ->
  wp any (ReceiveJoin m) s (fun _ s' os => drains None None s os s').
Proof.
  intros Hnf Hown. unfold ReceiveJoin. wstep. wstep. wstep.
  { unfold mod_pc. wstep. split; [done|]. intros Hd. exfalso. pose proof Hd as (_ & _ & _ & _ & Do & _).
    apply negb_true_iff in Hif. unfold has in Hif. apply bool_decide_eq_false in Hif. by apply Hif, Do. }
  wstep. apply wp_joined. intros joined _. set (s1 := upd pc _ s).
  assert (drains None None s [] s1) as H1 by drain_skip. wstep; [by wstep|]. wstep.
  set (p := vs_part_id (vj_meta m)) in *.
  assert (forall s2, drains None None s1 [] s2 ->
    wp any (mod_pc (fun c => c <| waiting_updates_ ::= fun w => <[p := lookup_or [] p w ++ [m]]> w |>) ;;;
      TryRunWaitingJoins p ;;; ret tt) s2 (fun _ s' os => drains None None s os s')) as Hpush.
  { intros s2 H2. eapply wp_mono; [apply draining_at|].
    - apply tracks_mod. intros s3. apply push_waiting_drains.
      + by intros m' ->%list_elem_of_singleton.
      + intros m' ->%list_elem_of_singleton. congruence.
    - intros [] s3 o3 H3. exact (drains_trans _ _ _ _ _ _ _ [] _ H1 (drains_trans _ _ _ _ _ _ _ [] _ H2 H3)). }
  wstep.
  - unfold mod_pc at 1. wstep. wstep. wstep. set (s2 := upd pc _ s1).
    assert (drains None None s1 [] s2) as H2 by drain_skip. wstep; [|by apply Hpush].
    unfold mod_pc. wstep. eapply (drains_trans _ _ _ _ _ _ _ [] [] H1), (drains_trans _ _ _ _ _ _ _ [] [] H2).
    split; [done|]. intros (Dw & Dp & Dk & Db & Do & Dn).
    refine (conj Dw (conj _ (conj Dk (conj Db (conj Do Dn))))). intros q v m'.
    pose proof (lookup_set_pending p (vs_version (vj_meta m))
      (lookup_or [] (vs_version (vj_meta m)) (lookup_or ∅ p (pending_updates_ (pc s2))) ++ [m])
      (pending_updates_ (pc s2)) q v) as Hl. unfold set_pending in Hl. cbn -[s2]. rewrite Hl.
    destruct (decide (q = p /\ v = vs_version (vj_meta m))) as [[-> ->]|]; [|apply Dp].
    intros [Hm'| ->%list_elem_of_singleton]%elem_of_app; [by apply Dp|]. split; [done|]. split; [done|].
    split; [exact (proj1 (Z.eqb_eq _ _) Hif1)|]. unfold s2. cbn. unfold touch. rewrite lookup_insert_eq.
    eexists. split; [done|]. lia.
  - wstep. by apply Hpush.
Qed.

Lemma draining_ReceiveFetchRequest fm bin sd rc : draining (ReceiveFetchRequest fm bin sd rc).
Proof.
  intros s. unfold ReceiveFetchRequest. wstep. wstep. wstep. wstep. wstep. apply zoom_wp, pm_Has_spec.
  wstep. wstep. wstep. wstep. wstep. wstep. set (s1 := upd pm _ s).
  set (fetch_meta := {| vj_meta := _; vj_bin := _ |}).
  assert (forall (m : Comp unit), draining m -> wp any m s1 (fun _ s' os => drains None None s os s')) as Hm.
  { intros m Hm. eapply wp_mono; [apply Hm|]. intros [] s' os H'. exact H'. }
  wstep; [apply Hm; drain_step|]. wstep.
  { apply Hm, tracks_mod. intros s2. split; [done|]. intros (Dw & Dp & Dk & Db & Do & Dn).
    refine (conj Dw (conj Dp (conj Dk (conj _ (conj Do Dn))))). cbn. intros q m'.
    destruct (decide (fm_partition_id fm = q)) as [->|]; [|rewrite lookup_or_insert_ne by done; apply Db].
    rewrite lookup_or_insert. intros [Hin|Hin%list_elem_of_singleton]%elem_of_app; [by eapply Db|by subst m']. }
  wstep; [|apply Hm; drain_step]. unfold mod_pc. wstep.
  destruct (push_waiting_drains (fm_partition_id fm) [fetch_meta]) with (s := s1) as [E1 H1].
  { by intros m' ->%list_elem_of_singleton. }
  { intros m' _ _. cbn. apply Z.eqb_eq in Hck1. apply negb_false_iff, Z.eqb_eq in Hif. congruence. }
  split; [exact E1|]. intros Hd. apply (drained_settled (fm_partition_id fm)); [|by apply H1].
  right. left. cbn. unfold has in Hif1. by apply bool_decide_eq_true in Hif1.
Qed.

(** The end of an update, a checkpoint, a fetch, a map. *)

Lemma ended_drains p (s : NodeS) os (s' : NodeS) :
  constants s' = constants s ->
  (forall q, lookup_or [] q (waiting_updates_ (pc s')) = lookup_or [] q (waiting_updates_ (pc s))) ->
  (forall q v, lookup_or [] v (lookup_or ∅ q (pending_updates_ (pc s'))) =
               lookup_or [] v (lookup_or ∅ q (pending_updates_ (pc s)))) ->
  (forall q, lookup_or [] q (buffered_requests_ (pc s')) = lookup_or [] q (buffered_requests_ (pc s))) ->
  (forall q w, map_versions_ (pc s) !! q = Some w -> map_versions_ (pc s') !! q = Some w) ->
  (forall q, is_Some (update_versions_ (pc s) !! q) -> is_Some (update_versions_ (pc s') !! q)) ->
  (forall q, q <> p -> running_updates_ (pc s') !! q = running_updates_ (pc s) !! q) ->
  running_maps_ (pc s') = running_maps_ (pc s) ->
  (forall q, q <> p -> lookup_or 0 q (running_fetches_ (pc s')) = lookup_or 0 q (running_fetches_ (pc s))) ->
  (0 <= lookup_or 0 p (running_fetches_ (pc s)) -> 0 <= lookup_or 0 p (running_fetches_ (pc s'))) ->
  drains None (Some p) s os s'.
Proof.
  intros Ec Ew Ep Eb Ev Hu Hr Hm Hf Hn. split; [done|]. intros (Dw & Dp & Dk & Db & Do & Dn).
  unfold constants in Ec. injection Ec as E1 E2 E3 _ _ _.
  refine (conj _ (conj _ (conj _ (conj _ (conj _ _))))); rewrite ?E1, ?E2, ?E3.
  - intros q He. rewrite Ew. intros Hq. assert (q <> p) as Hne by congruence.
    unfold busy. rewrite E1, E2, E3, Hr, Hm, Hf by done. by apply Dw.
  - intros q v m. rewrite Ep. intros Hin. destruct (Dp q v m Hin) as (? & ? & ? & w & Hw & ?). naive_solver.
  - intros q m. rewrite Ew. apply Dk.
  - intros q m. rewrite Eb. apply Db.
  - intros q Hq. by apply Hu, Do.
  - intros q. destruct (decide (q = p)) as [->|]; [by apply Hn|]. rewrite Hf by done. apply Dn.
Qed.

Lemma drains_weaken e (s : NodeS) os s' : drains e None s os s' -> drains None None s os s'.
Proof. intros [E He]. split; [done|]. intros Hd. by apply He, drained_weaken. Qed.
Lemma wp_then {A B} e (m : Comp A) (k : A -> Comp B) (s : NodeS) :
  tracks (drains None e) m -> (forall a, tracks (drains e None) (k a)) ->
  wp any (bind m k) s (fun _ s' os => drains None None s os s').
Proof.
  intros Hm Hk. wstep. eapply wp_mono; [apply Hm|]. intros a s1 o1 H1. eapply wp_mono; [apply Hk|].
  intros b s2 o2 H2. exact (drains_trans _ _ _ _ _ _ _ _ _ H1 H2).
Qed.
Lemma try_ret_drains p : tracks (P := P) (Stream := Stream) (drains (Some p) None) (TryRunWaitingJoins p ;;; ret tt).
Proof.
  intros s. wstep. eapply wp_mono; [apply TryRunWaitingJoins_drains|]. intros b s2 o2 H2. wstep. by rewrite app_nil_r.
Qed.

(** A checkpoint keeps its partition busy. *)
Lemma wp_TryCheckpoint p (s : NodeS) (Q : bool -> NodeS -> outs -> Prop) :
  (forall (b : bool) s' os, drains (Some p) (if b then None else Some p) s os s' -> Q b s' os) ->
  wp any (TryCheckpoint p) s Q.
Proof.
  intros HQ. unfold TryCheckpoint, mod_pc. wstep. wstep. wstep. wstep. set (s1 := upd pc _ s).
  assert (drains (Some p) (Some p) s [] s1) as H1.
  { unfold s1. apply drains_same; try (intros; cbn; by case_match).
    intros q Hq. cbn. case_match; [done|]. by apply is_Some_touch. }
  clearbody s1. wstep; [|wstep; by apply HQ]. do 7 wstep. apply HQ.
  assert (drains (Some p) (Some p) s1 [] (s1 <| pc ::= fun c => c <| running_updates_ ::= <[p := -1]> |> |>)) as [E2 H2] by drain_skip.
  destruct H1 as [E1 H1]. split; [by rewrite <- E1, <- E2|]. intros Hd.
  apply (drained_settled p); [right; left; cbn; by rewrite lookup_insert_eq|]. by apply H2, H1.
Qed.

Lemma draining_FinishJoin p v us : draining (FinishJoin p v us).
Proof.
  intros s. unfold FinishJoin. apply (wp_then (Some p)).
  { apply tracks_mod. intros s1. apply ended_drains; try done. intros q Hne. cbn. by rewrite lookup_delete_ne. }
  intros _ s1. wstep. wstep. wstep; [|apply try_ret_drains].
  unfold CalcJoinTrackerSize, mod_pc. wstep. wstep. wstep. wstep. set (s2 := upd pc _ (upd pc _ s1)).
  assert (drains (Some p) (Some p) s1 [] s2) as H2 by drain_skip.
  wstep. apply wp_TryCheckpoint. intros b s3 o3 H3.
  pose proof (drains_trans _ _ _ _ _ _ _ [] o3 H2 H3) as H4.
  destruct b; [wstep; by rewrite app_nil_r|].
  unfold pcs. wstep. wstep. wstep. eapply wp_mono; [apply (drains_Report (Some p))|]. intros [] s5 o5 H5.
  eapply wp_mono; [apply try_ret_drains|]. intros [] s6 o6 H6.
  pose proof (drains_trans _ _ _ _ _ _ _ _ _ H4 (drains_trans _ _ _ _ _ _ _ _ _ H5 H6)) as H7.
  exact H7.
Qed.

Lemma draining_FinishCheckpoint p : draining (FinishCheckpoint p).
Proof.
  intros s. unfold FinishCheckpoint, mod_pc. wstep. wstep. wstep. wstep. wstep. wstep. set (s1 := upd pc _ s).
  assert (drains None (Some p) s [] s1) as H1.
  { unfold s1. apply ended_drains; try done; cbn.
    - intros q. apply is_Some_touch.
    - intros q Hne. by rewrite lookup_delete_ne. }
  wstep. eapply wp_mono; [apply (drains_Report (Some p))|]. intros [] s2 o2 H2.
  wstep. eapply wp_mono; [apply TryRunWaitingJoins_drains|]. intros b s3 o3 H3.
  eapply wp_mono; [apply (drains_TryRunSomeMaps None)|]. intros [] s4 o4 H4.
  exact (drains_trans _ _ _ _ _ _ _ [] _ H1 (drains_trans _ _ _ _ _ _ _ _ _ H2 (drains_trans _ _ _ _ _ _ _ _ _ H3 H4))).
Qed.

Lemma FinishFetch_drains p u (s : NodeS) : 0 < lookup_or 0 p (running_fetches_ (pc s)) ->
  wp any (FinishFetch p u) s (fun _ s' os => drains None None s os s').
Proof.
  intros Hpos. unfold FinishFetch, mod_pc. wstep. wstep. eapply wp_mono; [apply try_ret_drains|].
  intros [] s2 o2 H2. eapply (drains_trans _ _ _ _ _ _ _ [] o2); [|exact H2].
  apply ended_drains; try done; cbn.
  - intros q Hne. by rewrite lookup_or_insert_ne.
  - intros _. rewrite lookup_or_insert. lia.
Qed.

(** When a map ends, the updates that were pending on it are released. *)
Lemma map_ended u last (s s' : NodeS) :
  constants s' = constants s -> map_versions_ (pc s) !! u = Some last ->
  running_maps_ (pc s') = running_maps_ (pc s) ∖ {[u]} ->
  (forall q, map_versions_ (pc s') !! q = if decide (q = u) then Some (last + 1) else map_versions_ (pc s) !! q) ->
  (running_updates_ (pc s'), running_fetches_ (pc s'), buffered_requests_ (pc s'), update_versions_ (pc s')) =
  (running_updates_ (pc s), running_fetches_ (pc s), buffered_requests_ (pc s), update_versions_ (pc s)) ->
  (forall q, lookup_or [] q (waiting_updates_ (pc s')) = if decide (q = u)
     then lookup_or [] u (waiting_updates_ (pc s)) ++ lookup_or [] last (lookup_or ∅ u (pending_updates_ (pc s)))
     else lookup_or [] q (waiting_updates_ (pc s))) ->
  (forall q v, lookup_or [] v (lookup_or ∅ q (pending_updates_ (pc s'))) = if decide (q = u /\ v = last) then []
     else lookup_or [] v (lookup_or ∅ q (pending_updates_ (pc s)))) ->
  drains None (Some u) s [] s'.
Proof.
  intros Ec Hlast Er Ev [= E4 E5 E6 E7] Ew Ep. split; [done|]. intros (Dw & Dp & Dk & Db & Do & Dn).
  unfold constants in Ec. injection Ec as E1 E2 E3 _ _ _.
  refine (conj _ (conj _ (conj _ (conj _ (conj _ _))))); rewrite ?E1, ?E2, ?E3, ?E4, ?E5, ?E6, ?E7; try done.
  - intros q He. assert (q <> u) as Hne by congruence. rewrite Ew, decide_False by done. intros Hq.
    unfold busy. rewrite E1, E2, E3, E4, E5, Er. specialize (Dw q ltac:(done) Hq). unfold busy in Dw. set_solver.
  - intros q v m. rewrite Ep, Ev. destruct (decide (q = u /\ v = last)) as [|Hne]; [set_solver|]. intros Hm.
    destruct (Dp q v m Hm) as (H1 & H2 & H3 & w & H4 & H5). split_and!; try done. destruct (decide (q = u)) as [->|]; [|by eauto].
    assert (v <> last) by naive_solver. eexists. split; [done|]. simplify_eq. lia.
  - intros q m. rewrite Ew. destruct (decide (q = u)) as [->|]; [|apply Dk].
    intros [Hm|Hm]%elem_of_app; [by apply Dk|]. destruct (Dp _ _ _ Hm) as (-> & -> & _). done.
Qed.

Lemma FinishMap_drains u b (s : NodeS) : stop_updateing_partitions_ (pc s) = ∅ ->
  is_Some (map_versions_ (pc s) !! u) ->
  wp any (FinishMap u b) s (fun _ s' os => drains None None s os s').
Proof.
  intros Hst [last Hv]. unfold FinishMap. unfold mod_pc at 1 2. wstep. wstep. wstep. wstep. wstep. wstep.
  set (s1 := upd pc _ (upd pc _ s)).
  assert (s1 = s <| pc ::= fun c => c <| running_maps_ ::= fun x => x ∖ {[u]} |> |>) as E1.
  { unfold s1, upd. cbn. rewrite Hst, lookup_empty. done. }
  clearbody s1. assert (map_versions_ (pc s1) !! u = Some last) as Hv1 by (by subst s1). rewrite Hv1.
  unfold mod_pc at 1. wstep. wstep. set (s2 := upd pc _ s1).
  assert (forall q, map_versions_ (pc s2) !! q = if decide (q = u) then Some (last + 1) else map_versions_ (pc s) !! q) as Hv2.
  { intros q. unfold s2. rewrite E1. cbn.
    destruct (decide (q = u)) as [->|]; [apply lookup_insert_eq|by apply lookup_insert_ne]. }
  assert (constants s2 = constants s /\ running_maps_ (pc s2) = running_maps_ (pc s) ∖ {[u]} /\
    (running_updates_ (pc s2), running_fetches_ (pc s2), buffered_requests_ (pc s2), update_versions_ (pc s2)) =
    (running_updates_ (pc s), running_fetches_ (pc s), buffered_requests_ (pc s), update_versions_ (pc s)) /\
    waiting_updates_ (pc s2) = waiting_updates_ (pc s) /\ pending_updates_ (pc s2) = pending_updates_ (pc s))
    as (Ec & Er & Ef & Ew & Ep) by (subst s1; done).
  assert ((map_collection_id_ (pc s1), update_collection_id_ (pc s1)) =
    (map_collection_id_ (pc s), update_collection_id_ (pc s))) as Eids by (by subst s1). injection Eids as -> ->.
  clearbody s2. clear s1 E1 Hv1.
  unfold ReportFinishPart at 1. unfold pcs at 1. do 6 wstep.
  assert (forall s3 o3 os, drains None None s o3 s3 ->
    wp any TryRunSomeMaps s3 (fun _ s' os' => drains None None s (os ++ o3 ++ os') s')) as Hmaps.
  { intros s3 o3 os H3. eapply wp_mono; [apply (drains_TryRunSomeMaps None)|]. intros [] s4 o4 H4.
    exact (drains_trans _ _ _ _ _ _ _ _ _ H3 H4). }
  wstep. wstep.
  - unfold mod_pc at 1. wstep. wstep. set (s3 := upd pc _ s2).
    assert (forall q v, lookup_or [] v (lookup_or ∅ q (pending_updates_ (pc s3))) =
      lookup_or [] v (lookup_or ∅ q (pending_updates_ (pc s)))) as Ep3.
    { intros q v. unfold s3. cbn. rewrite Ep. destruct (decide (u = q)) as [->|]; [|by rewrite lookup_or_insert_ne].
      by rewrite lookup_or_insert, lookup_or_touch. }
    unfold pcs. wstep. wstep. cbn beta. rewrite Ep3. set (pend := lookup_or [] last (lookup_or ∅ u (pending_updates_ (pc s)))).
    assert (forall s4, drains None (Some u) s [] s4 -> wp any (TryRunWaitingJoins u ;;; ret tt) s4
      (fun _ s' os => wp any TryRunSomeMaps s' (fun _ s' os' => drains None None s (os ++ os') s'))) as Htry.
    { intros s4 H4. eapply wp_mono; [apply try_ret_drains|]. intros [] s5 o5 H5.
      eapply wp_mono; [apply (Hmaps _ o5 []); exact (drains_trans _ _ _ _ _ _ _ [] o5 H4 H5)|]. by intros [] s6 o6. }
    wstep. wstep.
    + unfold mod_pc. wstep. eapply wp_mono; [apply Htry|by intros [] s5 o5].
      apply (map_ended u last); try done; cbn; rewrite ?Ew.
      * intros q. destruct (decide (q = u)) as [->|]; [apply lookup_or_insert|by apply lookup_or_insert_ne].
      * intros q v. destruct (decide (u = q)) as [<-|].
        -- rewrite !lookup_or_insert. destruct (decide (last = v)) as [<-|].
           ++ rewrite decide_True by done. unfold lookup_or at 1. by rewrite lookup_delete_eq.
           ++ rewrite decide_False by naive_solver. unfold lookup_or at 1. rewrite lookup_delete_ne by done.
              fold (lookup_or [] v (touch [] last (lookup_or ∅ u (pending_updates_ (pc s2))))).
              by rewrite lookup_or_touch, Ep.
        -- rewrite !lookup_or_insert_ne, decide_False, Ep by naive_solver. done.
    + eapply wp_mono; [apply Htry|by intros [] s5 o5].
      apply negb_false_iff, bool_decide_eq_true in Hif0.
      apply (map_ended u last); try done.
      * intros q. change (waiting_updates_ (pc s3)) with (waiting_updates_ (pc s2)). rewrite Ew. fold pend.
        rewrite Hif0, app_nil_r. by destruct (decide (q = u)) as [->|].
      * intros q v. rewrite Ep3. destruct (decide (q = u /\ v = last)) as [[-> ->]|]; [exact Hif0|done].
  - eapply wp_mono; [apply (Hmaps s2 [] [])|by intros [] s5 o5].
    split; [done|]. intros (Dw & Dp & Dk & Db & Do & Dn). apply Z.eqb_neq in Hif.
    unfold constants in Ec. injection Ec as E1 E2 E3 _ _ _. injection Ef as E4 E5 E6 E7.
    refine (conj _ (conj _ (conj _ (conj _ (conj _ _))))); rewrite ?E1, ?E2, ?E3, ?E4, ?E5, ?E6, ?E7, ?Ew, ?Ep; try done.
    + intros q He Hq. unfold busy. rewrite E1, E2, E3, E4, E5. destruct (Dw q He Hq) as [?|[[? _]|?]]; [tauto|done|tauto].
    + intros q v m Hm. by destruct (Dp q v m Hm) as (_ & _ & ? & _).
Qed.

(** ** [Process] and the tasks *)

Hint Resolve draining_TryRunWaitingJoins : track_db.

Lemma Process_drains m (s : NodeS) :
  msg_wf m -> own_join Own m -> stop_updateing_partitions_ (pc s) = ∅ ->
  (forall u b, m = kFinishMap u b -> is_Some (map_versions_ (pc s) !! u)) ->
  (forall p u, m = kFinishFetch p u -> 0 < lookup_or 0 p (running_fetches_ (pc s))) ->
  wp any (Process m) s (fun _ s' os => drains None None s os s').
Proof.
  intros Hm Hown Hst Hmap Hfetch.
  destruct m as [sp| |p u|p v us|v|m|fm bin sd rc|p u|p|mm body| |t|l]; cbn [Process]; try done.
  - apply drains_TryRunSomeMaps.
  - apply FinishMap_drains; [done|by eapply Hmap].
  - apply draining_FinishJoin.
  - enough (draining (UpdateVersion v)) as Hd by apply Hd. unfold UpdateVersion. solve_drain.
  - apply ReceiveJoin_drains; [by destruct Hm|done].
  - apply draining_ReceiveFetchRequest.
  - apply FinishFetch_drains. by eapply Hfetch.
  - apply draining_FinishCheckpoint.
Qed.

Lemma draining_Prepare p v us x : draining (PrepareMsgAndSend p v us x).
Proof. unfold PrepareMsgAndSend, cmap_Lookup, cmap_Get, mapper_Get. solve_drain. Qed.
Hint Resolve draining_Prepare : track_db.
Lemma draining_run_task t : draining (run_task t).
Proof.
  destruct t as [p v x|p v o|m|m v|p url|p v l]; cbn [run_task].
  - unfold run_map. solve_drain.
  - unfold run_mapped, AddMapOutput, AddStream. solve_drain.
  - unfold run_join. solve_drain.
  - unfold run_fetch. solve_drain.
  - unfold run_checkpoint. solve_drain.
  - unfold run_combine. solve_drain.
Qed.
Lemma draining_PeriodicCombine : draining PeriodicCombine.
Proof. unfold PeriodicCombine. solve_drain. Qed.
End Handlers.

(** ** Joins are sent to the node of their partition *)

Section Routing.
Context {P Stream : Type} `{UserCode P Stream} `{IterOrder}.
Abbreviation NodeS := (NodeSt P Stream).
Abbreviation outs := (list (out P Stream)).

(** The collection map of the node says that update partition [p] is on node [id]. *)
Definition located (s : NodeS) (p id : Z) : Prop :=
  exists cv, cmap s !! update_collection_id_ (pc s) = Some cv /\ 0 <= p /\
    v_ (view_mapper cv) !! Z.to_nat p = Some id.
Definition routed (s : NodeS) (o : out P Stream) : Prop :=
  match o with
  | Push (kReceiveJoin m) => located s (vs_part_id (vj_meta m)) (my_id s)
  | Send r _ (kReceiveJoin m) =>
      exists id, located s (vs_part_id (vj_meta m)) id /\ r = GetControllerActorQid id
  | _ => True
  end.
Definition routes (s : NodeS) (os : outs) (s' : NodeS) : Prop :=
  constants s' = constants s /\ Forall (routed s) os.

Lemma routed_same s s' o : constants s' = constants s -> routed s' o -> routed s o.
Proof.
  unfold constants. intros [= _ E1 _ _ E2 E3]. unfold routed, located. by rewrite E1, E2, E3.
Qed.
#[global] Instance routes_tracking : Tracking routes.
Proof.
  split; [intros s; split; [done|constructor]|]. intros s1 s2 s3 os os' [E1 H1] [E2 H2].
  split; [congruence|]. apply Forall_app. split; [done|]. eapply Forall_impl; [exact H2|].
  intros o. by apply routed_same.
Qed.
Abbreviation routing := (tracks (P := P) (Stream := Stream) routes).

Lemma routing_on_pm {A} (m : M (PartitionManager P) Empty_set A) : routing (on_pm m).
Proof. apply tracks_on_pm. intros s. unfold wp. destruct (m (pm s)) as [[[a q] os]|]; [|done]. by split; [|constructor]. Qed.
Hint Resolve routing_on_pm : track_db.

Ltac route_skip := intros; split; [cbn; repeat case_match; reflexivity|by repeat constructor].
Ltac solve_routing := repeat (track_step_with route_skip).

Lemma routing_Report f p v : routing (ReportFinishPart f p v).
Proof. unfold ReportFinishPart. solve_routing. Qed.
Hint Resolve routing_Report : track_db.
Lemma routing_TryRunSomeMaps : routing TryRunSomeMaps.
Proof. unfold TryRunSomeMaps, IsMapRunnable, RunMap. solve_routing. Qed.
Hint Resolve routing_TryRunSomeMaps : track_db.
Lemma routing_TryRunWaitingJoins p : routing (TryRunWaitingJoins p).
Proof.
  unfold TryRunWaitingJoins. track_step_with route_skip; [solve_routing|]. generalize (total_waiting a).
  intros n. revert p. induction n as [|n IH]; intros p; cbn [TryRunWaitingJoins_];
    unfold try_waiting, run_first_waiting, RunJoin, RunFetchRequest, IsJoinedBefore; solve_routing.
Qed.
Hint Resolve routing_TryRunWaitingJoins : track_db.

Lemma routing_Process m : msg_wf m -> routing (Process m).
Proof.
  intros Hm. destruct m as [sp| |p u|p v us|v|m|fm bin sd rc|p u|p|mm body| |t|l]; cbn [Process]; try done.
  - unfold StartPlan. solve_routing.
  - unfold FinishMap. solve_routing.
  - unfold FinishJoin, CalcJoinTrackerSize, TryCheckpoint. solve_routing.
  - unfold UpdateVersion. solve_routing.
  - unfold ReceiveJoin, IsJoinedBefore. solve_routing.
  - unfold ReceiveFetchRequest, RunFetchRequest. solve_routing.
  - unfold FinishFetch. solve_routing.
  - unfold FinishCheckpoint. solve_routing.
Qed.

Lemma routing_Prepare p v us x : routing (PrepareMsgAndSend p v us x).
Proof.
  intros s. unfold PrepareMsgAndSend. wstep. wstep. wstep.
  eapply (wp_mono _ _ _ (fun id s' os => s' = s /\ os = [] /\ located s p id)).
  { unfold located, cmap_Lookup, cmap_Get, mapper_Get. wsteps.
    split; [done|]. split; [done|]. eexists. split; [done|]. split; [lia|done]. }
  intros id s1 o1 (-> & -> & Hloc). wstep.
  - apply Z.eqb_eq in Hif. unfold Qid, GetControllerActorQid, kMagic in Hif. assert (id = my_id s) as -> by lia.
    wstep. eapply wp_mono; [apply (tracks_on_streams routes)|].
    { intros s2 y. split; [done|constructor]. }
    intros [] s2 o2 [E2 H2]. wstep. split; [exact E2|]. rewrite !app_nil_l. apply Forall_app. split; [done|].
    apply Forall_singleton. exact Hloc.
  - wstep. split; [done|]. rewrite !app_nil_l. apply Forall_singleton. by exists id.
Qed.
Hint Resolve routing_Prepare : track_db.

Lemma routing_run_task t : routing (run_task t).
Proof.
  destruct t as [p v x|p v o|m|m v|p url|p v l]; cbn [run_task].
  - unfold run_map. solve_routing.
  - unfold run_mapped, AddMapOutput, AddStream. solve_routing.
  - unfold run_join. solve_routing.
  - unfold run_fetch. solve_routing.
  - unfold run_checkpoint. solve_routing.
  - unfold run_combine. solve_routing.
Qed.
Lemma routing_PeriodicCombine : routing PeriodicCombine.
Proof. unfold PeriodicCombine. solve_routing. Qed.
End Routing.
