(* ===== verification/PlanComplete.v ===== *)
(** * A plan on a cluster: nothing is left undone

    Companion of [PlanCluster], whose runs it takes up: when the nodes are at rest, the
    network is empty and every partition has been mapped for an iteration, all updates of the
    iteration have been applied.  The update of a partition goes to the node that the
    collection map of the sender names; the nodes' collection maps tell where the partitions
    are ([placed]), which the scheduler sees to before the plan starts. *)

From S2P Require Import Prelude BinStream Specs Index Messages Partition PlanController PlanFrame PlanExclusion PlanTokens PlanProgress PlanCluster PlanDrain.

Section Complete.
Context {P Stream : Type} `{UserCode P Stream} `{IterOrder}.
Abbreviation NodeS := (NodeSt P Stream).
Abbreviation outs := (list (out P Stream)).
Abbreviation sysS := (sys (P := P) (Stream := Stream)).
Abbreviation node := (sysS * outs)%type.
Abbreviation clusterS := (cluster (P := P) (Stream := Stream)).

(** ** A node *)

(** Map outputs that were handed on have a stream for every partition of the update
    collection. *)
Definition outputs_whole (n : node) : Prop :=
  forall u v o, Submit (TMapped u v o) ∈ n.2 ->
    TMapped u v o ∈ pool n.1 \/ Z.of_nat (length o) = num_update_part_ (pc (st n.1)).

Definition settled (Own : Z -> Prop) (n : node) : Prop :=
  drained Own None (st n.1) /\ Forall (own_join Own) (queue n.1) /\ outputs_whole n.

Lemma elem_of_submitted t (os : outs) : t ∈ submitted os <-> Submit t ∈ os.
Proof.
  unfold submitted. rewrite list_elem_of_omap. split.
  - intros (o & Ho & E). destruct o; by simplify_eq.
  - intros Ht. by exists (Submit t).
Qed.
Lemma elem_of_pushed m (os : outs) : m ∈ pushed os <-> Push m ∈ os.
Proof.
  unfold pushed. rewrite list_elem_of_omap. split.
  - intros (o & Ho & E). destruct o; by simplify_eq.
  - intros Ht. by exists (Push m).
Qed.

Lemma pushed_own (Own : Z -> Prop) (s : NodeS) os :
  Forall (routed s) os -> (forall p, located s p (my_id s) -> Own p) -> Forall (own_join Own) (pushed os).
Proof.
  intros Hr Ho. apply Forall_forall. intros m Hm%elem_of_pushed. rewrite Forall_forall in Hr.
  specialize (Hr _ Hm). destruct m; try done. by apply Ho.
Qed.

(** Running a computation and absorbing its outputs into the rest [s1]. *)
Lemma settled_computes Own s tr os s1 :
  settled Own (s, tr) -> drains Own None None (st s) os (st s1) -> routes (st s) os (st s1) ->
  (forall p, located (st s) p (my_id (st s)) -> Own p) ->
  (forall m, m ∈ queue s1 -> m ∈ queue s) ->
  (forall u v o, TMapped u v o ∈ pool s -> TMapped u v o ∈ pool s1 \/
     Z.of_nat (length o) = num_update_part_ (pc (st s))) ->
  settled Own (absorb os s1, tr ++ os).
Proof.
  intros (Hd & Hq & Ho) [Ec Hdr] [_ Hr] Hown Hq1 Hp1. cbn [fst snd] in *. split_and!; cbn [fst snd st queue absorb].
  - auto.
  - apply Forall_app. split; [|by eapply pushed_own]. apply Forall_forall. intros m Hm.
    eapply Forall_forall; [exact Hq|auto].
  - intros u v o Hin. cbn [fst snd st pool absorb] in *. injection Ec as _ _ _ -> _ _.
    apply elem_of_app in Hin as [Hin|Hin].
    + destruct (Ho u v o Hin) as [Hpl|]; [|by right]. destruct (Hp1 u v o Hpl); [left; set_solver|by right].
    + left. apply elem_of_app. right. by apply elem_of_submitted.
Qed.

(** A map output that is handed on was checked. *)
Lemma run_mapped_whole u v o (s : NodeS) : stop_updateing_partitions_ (pc s) = ∅ ->
  wp any (run_mapped u v o) s (fun _ _ _ => Z.of_nat (length o) = num_update_part_ (pc s)).
Proof.
  intros Hst. unfold run_mapped, AddMapOutput. wstep. wstep. wstep.
  { unfold has in Hif. rewrite Hst in Hif. apply bool_decide_eq_true in Hif as [? Hif]. by rewrite lookup_empty in Hif. }
  wstep. wstep. wstep. wstep. wstep. apply (wp_for_each_state any (fun _ => True)); [done| |].
  - intros ps s1 _ _. wstep. wstep. wstep. wstep. unfold wp. by destruct (AddStream u v ps.1 ps.2 s1) as [[[? ?] ?]|?].
  - intros s1 os _. wstep. apply Z.eqb_eq in Hck. exact Hck.
Qed.

Lemma finished_fetch_was_running (s : sysS) p u q : sys_inv s -> queue s = kFinishFetch p u :: q ->
  0 < lookup_or 0 p (running_fetches_ (pc (st s))).
Proof.
  intros [(_ & _ & Hf & _) _] Hq. rewrite <- Hf. apply cnt_pos. unfold stoks. rewrite Hq. set_solver.
Qed.

Lemma settled_step Ap Here Own s tr os s' :
  node_ok Ap Here (s, tr) -> settled Own (s, tr) -> (forall p, located (st s) p (my_id (st s)) -> Own p) ->
  local_step s os s' ->
  settled Own (s', tr ++ os) /\ constants (st s') = constants (st s) /\ Forall (routed (st s)) os.
Proof.
  intros Hok Hset Hown Hstep. pose proof Hok as (Hinv & (_ & _ & _ & _ & Hst) & Hmap & Hq & Hl & Hp & _).
  pose proof Hset as (_ & Hqo & _). cbn [fst snd] in *.
  assert (forall os s1, drains Own None None (st s) os (st s1) -> routes (st s) os (st s1) ->
    (forall m, m ∈ queue s1 -> m ∈ queue s) ->
    (forall u v o, TMapped u v o ∈ pool s -> TMapped u v o ∈ pool s1 \/
       Z.of_nat (length o) = num_update_part_ (pc (st s))) ->
    settled Own (absorb os s1, tr ++ os) /\ constants (st (absorb os s1)) = constants (st s) /\
    Forall (routed (st s)) os) as Hcomp.
  { intros os1 s1 Hd Hr Hq1 Hp1. split; [by eapply settled_computes|]. by split; [apply Hd|apply Hr]. }
  destruct Hstep as [s m q st' os Hqm Hm|s l1 t l2 st' os Hpl Hm|s st' os Hm|s l1 m l2 Hlm|s l1 p l2 u Hg].
  - rewrite Hqm in Hq, Hqo. apply Forall_cons in Hq as [Hms _]. apply Forall_cons in Hqo as [Hmo _].
    apply Hcomp; cbn [st pool queue]; [| | |tauto].
    + refine (wp_Ok any _ _ _ _ _ _ Hm (Process_drains Own m (st s) (proj1 Hms) Hmo Hst _ _)).
      * intros u b ->. destruct Hmap as (_ & _ & Hr & _). by eapply Hr, finished_map_was_running.
      * intros p u ->. by eapply finished_fetch_was_running.
    + by eapply tracks_Ok; [apply routing_Process, Hms|].
    + intros m' Hin. rewrite Hqm. by right.
  - apply Hcomp; cbn [st pool queue]; [| |done|].
    + by eapply tracks_Ok; [apply draining_run_task|].
    + by eapply tracks_Ok; [apply routing_run_task|].
    + intros u v o Hin. rewrite Hpl in Hin. apply elem_of_app in Hin as [?|[E|?]%elem_of_cons]; [left; set_solver| |left; set_solver].
      right. subst t. exact (wp_Ok any _ _ _ _ _ _ Hm (run_mapped_whole u v o (st s) Hst)).
  - apply Hcomp; cbn [st pool queue]; [| |done|by left].
    + by eapply tracks_Ok; [apply draining_PeriodicCombine|].
    + by eapply tracks_Ok; [apply routing_PeriodicCombine|].
  - rewrite Hl in Hlm. by destruct l1.
  - destruct Hset as (Hd & _ & Ho). split; [|done]. rewrite app_nil_r. split_and!; [done| |done].
    cbn [fst queue]. apply Forall_app. split; [done|]. by repeat constructor.
Qed.

Lemma settled_deliver Own s tr m : own_join Own m -> settled Own (s, tr) -> settled Own (deliver m s, tr).
Proof.
  intros Hm (Hd & Hq & Ho). split_and!; [done| |done]. cbn. apply Forall_app. split; [done|]. by repeat constructor.
Qed.

(** ** Setup *)

Lemma set_versions_wp {A} (l : list (Z * A)) (s : NodeS) (Q : unit -> NodeS -> outs -> Prop) :
  (forall s' os, pm s' = pm s -> update_collection_id_ (pc s') = update_collection_id_ (pc s) ->
     (forall p, p ∈ l.*1 \/ is_Some (update_versions_ (pc s) !! p) -> is_Some (update_versions_ (pc s') !! p)) -> Q tt s' os) ->
  wp any (for_each l (fun part => mod_pc (fun c => c <| update_versions_ ::= <[part.1 := 0]> |>))) s Q.
Proof.
  revert s Q. induction l as [|[p x] l IH]; intros s Q HQ; cbn [for_each].
  - wstep. apply HQ; [done|done|]. set_solver.
  - wstep. unfold mod_pc at 1. wstep. apply IH. intros s' os Hpm Huc Hv. apply HQ; [done|done|].
    intros q Hq. apply Hv. cbn in *. destruct (decide (q = p)) as [->|Hne].
    + right. by rewrite lookup_insert_eq.
    + rewrite lookup_insert_ne by done. set_solver.
Qed.

Definition versions_of_local (s : NodeS) : Prop :=
  forall p, is_Some (store_lookup (pm s) (update_collection_id_ (pc s)) p) -> is_Some (update_versions_ (pc s) !! p).

Lemma Setup_versions sp (s : NodeS) : wp any (Setup sp) s (fun _ s' _ => versions_of_local s').
Proof.
  unfold Setup, cast_MapJoin, cmap_GetNumParts, cmap_Get, ReportFinishPart, pcs.
  repeat first [ wstep | (apply wp_on_pm; intros ? ?) | (unfold mod_pc at 1; wstep) ].
  all: match goal with |- context [pm_GetAll (update_collection_id ?x)] =>
    apply (wp_for_each_state any (fun s' : NodeS => update_collection_id_ (pc s') = update_collection_id x));
      [done|intros part s1 _ Hs1; unfold mod_pc; by wstep|intros s1 os1 Hs1] end.
  all: wstep; apply zoom_wp, pm_GetAll_spec; intros q' l Hq' Hl _; wstep; apply set_versions_wp; intros s2 os2 Epm Euc Hv.
  all: wsteps; intros p [y Hy]; apply Hv; left; rewrite Epm, Euc in Hy; cbn in Hy; rewrite Hs1, (Hq' _ p) in Hy.
  all: apply list_elem_of_fmap; exists (p, y); split; [done|]; by apply Hl.
Qed.

(** ** The cluster *)

(** Whoever looks up partition [p] and finds it on a node of the cluster is right. *)
Definition placed (c : clusterS) : Prop :=
  forall n n' p, n ∈ nodes c -> n' ∈ nodes c -> located (st n.1) p (my_id (st n'.1)) ->
    is_Some (store_lookup (pm (st n'.1)) (update_collection_id_ (pc (st n'.1))) p).

(** [Own id p]: some collection map has partition [p] on node [id]. *)
Definition settled_cluster (Own : Z -> Z -> Prop) (c : clusterS) : Prop :=
  Forall (fun n : node => settled (Own (my_id (st n.1))) n /\
    forall p id, located (st n.1) p id -> Own id p) (nodes c) /\
  Forall (fun rm => exists id m, rm = (GetControllerActorQid id, kReceiveJoin m) /\
    Own id (vs_part_id (vj_meta m))) (net c).

Lemma located_same (s s' : NodeS) p id : constants s' = constants s -> located s' p id -> located s p id.
Proof. intros [= _ E1 _ _ _ E2]. unfold located. by rewrite E1, E2. Qed.

Lemma sent_own (Own : Z -> Z -> Prop) (s : NodeS) os :
  net_ok (sent os) -> Forall (routed s) os -> (forall p id, located s p id -> Own id p) ->
  Forall (fun rm => exists id m, rm = (GetControllerActorQid id, kReceiveJoin m) /\
    Own id (vs_part_id (vj_meta m))) (sent os).
Proof.
  intros Hok Hr Ho. apply Forall_forall. intros [r m] Hin. unfold net_ok in Hok. rewrite Forall_forall in Hok. rewrite Forall_forall in Hr.
  destruct (Hok _ Hin) as (jm & E & _). cbn in E. subst m.
  apply list_elem_of_omap in Hin as (o & Hin & Eo). specialize (Hr o Hin). destruct o; simplify_eq.
  destruct Hr as (id & Hloc & ->). exists id, jm. split; [done|]. by apply Ho.
Qed.

Lemma cstep_settled Own c c' : cinv c -> settled_cluster Own c -> cstep c c' -> settled_cluster Own c'.
Proof.
  intros (_ & (hs & Hn & _) & _) [Hs Hnet] Hstep.
  destruct Hstep as [l1 s tr l2 w os s' Hstep|l1 s tr l2 w1 m w2|l1 s tr l2 w m Hm]; cbn [nodes net] in *;
    apply Forall_app in Hs as [Hs1 [[Hset Hloc] Hs2]%Forall_cons]; cbn [fst snd] in *.
  - destruct (Forall2_lookup_r _ _ _ (length l1) (s, tr) Hn) as (h & _ & Hok); [by rewrite lookup_app_r, Nat.sub_diag|].
    destruct (settled_step _ _ _ _ _ _ _ Hok Hset (fun p => Hloc p _) Hstep) as (Hset' & Ec & Hr).
    destruct (node_step _ _ _ _ _ _ Hok Hstep) as (_ & Hsent & _).
    split; cbn [nodes net].
    + apply Forall_app. split; [done|]. apply Forall_cons. split; [|done]. cbn [fst snd].
      assert (my_id (st s') = my_id (st s)) as -> by (injection Ec; congruence). split; [done|].
      intros p id Hl. by apply Hloc, (located_same _ _ _ _ Ec).
    + apply Forall_app. split; [done|]. by eapply sent_own.
  - apply Forall_app in Hnet as [Hnet1 [(id & jm & E & Hown) Hnet2]%Forall_cons]. injection E as E ->.
    unfold GetControllerActorQid, kMagic in E. assert (id = my_id (st s)) as -> by lia.
    split; cbn [nodes net]; [|by apply Forall_app]. apply Forall_app. split; [done|]. apply Forall_cons. split; [|done].
    split; [|done]. by apply settled_deliver.
  - split; [|done]. apply Forall_app. split; [done|]. apply Forall_cons. split; [|done].
    split; [|done]. apply settled_deliver; [|done]. by destruct m.
Qed.

Lemma cinitial_settled sp c : cinitial sp c -> placed c ->
  settled_cluster (fun id p => exists n, n ∈ nodes c /\ located (st n.1) p id) c.
Proof.
  intros (Hnet & Hn & _) Hpl. split; [|by rewrite Hnet].
  apply Forall_forall. intros n Hin. rewrite Forall_forall in Hn.
  destruct (Hn n Hin) as (Htr & q & cm & id & st' & os & Hset & Es).
  set (s0 := {| pc := new_pc; pm := q; cmap := cm; my_id := id |}) in Hset.
  assert (untouched s0) as Hu0 by (unfold untouched; cbn; split_and!; try done; by exists 0%nat).
  assert (quiet s0) as Hq0 by (repeat split; [apply keyed_empty|apply keyed2_empty|apply keyed_empty]).
  pose proof (wp_Ok any _ _ _ _ _ _ Hset (Setup_untouched sp s0 Hu0)) as (_ & Hw & Hp & Hb & _).
  pose proof (wp_Ok any _ _ _ _ _ _ Hset (Setup_quiet sp s0 Hq0)) as (_ & _ & Hf & _).
  pose proof (wp_Ok any _ _ _ _ _ _ Hset (Setup_versions sp s0)) as Hv.
  split; [|by eauto]. split_and!; [|by rewrite Es|unfold outputs_whole; rewrite Htr; set_solver].
  assert (st n.1 = st') as Est by (by rewrite Es).
  refine (conj _ (conj _ (conj _ (conj _ (conj _ _))))); rewrite ?Est, ?Hw, ?Hp, ?Hb, ?Hf.
  - intros p _. by rewrite lookup_or_empty.
  - intros p v m. rewrite !lookup_or_empty. set_solver.
  - intros p m. rewrite lookup_or_empty. set_solver.
  - intros p m. rewrite lookup_or_empty. set_solver.
  - intros p (n' & Hin' & Hl). apply Hv. rewrite <- Est in *. by eapply Hpl.
  - intros p. by rewrite lookup_or_empty.
Qed.

(** ** At rest *)

(** Nothing to run, nothing to handle, no access granted, nothing in the combiner. *)
Definition at_rest (n : node) : Prop :=
  pool n.1 = [] /\ queue n.1 = [] /\ grants n.1 = [] /\ Forall (fun cell => cell = ∅) (store_ (pc (st n.1))).

Lemma rest_not_busy (s : sysS) p : sys_inv s -> stoks s = [] -> ~ busy (pc (st s)) p.
Proof.
  intros [(Hm & Hu & Hf & _) _] Et. rewrite Et in *.
  specialize (Hm p). specialize (Hu p). specialize (Hf p). rewrite cnt_nil in *.
  intros [Hb|[[_ Hb]|[_ Hb]]]; [rewrite decide_True in Hu by done|rewrite decide_True in Hm by done|]; lia.
Qed.

Lemma rest_holds_nothing Ap Here Own n t :
  node_ok Ap Here n -> settled Own n -> at_rest n ->
  map_Forall (fun _ w => jversion t < w) (map_versions_ (pc (st n.1))) -> on_node t n.1 = 0.
Proof.
  intros (Hinv & _ & _ & _ & Hl & _) ((Dw & Dp & _ & Db & _) & _) (Hp & Hq & Hg & Hst) Hv.
  assert (stoks n.1 = []) as Ht by (unfold stoks; by rewrite Hp, Hq, Hl, Hg).
  unfold on_node. rewrite Hp, Hq. unfold held, in_queue, in_pending, in_store.
  assert (lookup_or [] (jpart t) (waiting_updates_ (pc (st n.1))) = []) as ->.
  { destruct (lookup_or [] _ _) as [|m l] eqn:E; [done|]. exfalso.
    apply (rest_not_busy n.1 (jpart t) Hinv Ht), Dw; [done|]. by rewrite E. }
  assert (lookup_or [] (jversion t) (lookup_or ∅ (jpart t) (pending_updates_ (pc (st n.1)))) = []) as ->.
  { destruct (lookup_or [] _ _) as [|m l] eqn:E; [done|]. exfalso.
    destruct (Dp (jpart t) (jversion t) m) as (_ & _ & _ & w & Hw & Hle); [rewrite E; left|].
    specialize (Hv _ _ Hw). cbn in Hv. lia. }
  assert (cnt t (metas_jt (lookup_or [] (jpart t) (buffered_requests_ (pc (st n.1))))) = 0) as ->.
  { apply cnt_zero. intros (m & Hm & Hin)%list_elem_of_bind. unfold meta_jt in Hm. rewrite (Db _ _ Hin) in Hm. set_solver. }
  assert (store_cell (jpart t) (store_ (pc (st n.1))) = ∅) as ->.
  { unfold store_cell. destruct (0 <=? _); [|done]. destruct (_ !! _) as [cell|] eqn:E; [|done].
    by eapply Forall_lookup in E; [|exact Hst]. }
  rewrite lookup_or_empty. cbn -[cnt]. rewrite !cnt_nil. lia.
Qed.

Lemma made_whole Ap Here Own n q v u :
  node_ok Ap Here n -> settled Own n -> at_rest n ->
  0 <= v < map_version (pc (st n.1)) u -> 0 <= q < num_update_part_ (pc (st n.1)) ->
  0 < cnt (q, v, u) (made n.2).
Proof.
  intros (_ & _ & _ & _ & _ & _ & Hx) (_ & _ & Ho) (Hp & _) Hv Hq. specialize (Hx (u, v)).
  rewrite Hp in Hx. cbn [mbind list_bind] in Hx. rewrite cnt_nil in Hx. unfold started in Hx. cbn [fst snd] in Hx.
  rewrite (proj2 (Z.leb_le 0 v)), (proj2 (Z.ltb_lt _ _)) in Hx by lia. cbn [andb] in Hx.
  assert ((u, v) ∈ maps_done n.2) as (o & Hin & Ho1)%list_elem_of_bind by (apply cnt_elem; lia).
  destruct o as [| | | | |[|u' v' o| | | |]|]; try (by apply elem_of_nil in Hin).
  apply list_elem_of_singleton in Hin as [= <- <-].
  destruct (Ho u v o Ho1) as [Hpool|Hlen]; [rewrite Hp in Hpool; by apply elem_of_nil in Hpool|].
  apply cnt_pos, list_elem_of_bind. exists (Submit (TMapped u v o)). split; [|done].
  apply list_elem_of_fmap. exists q. split; [done|]. apply elem_of_seqZ. lia.
Qed.

Lemma crun_rtc sp c0 c : crun sp c0 -> rtc cstep c0 c -> crun sp c.
Proof. intros H0' Hr. induction Hr as [|x y z Hxy _ IH]; [done|]. apply IH. by eapply crun_step. Qed.

Lemma run_settled sp Own c0 c : crun sp c0 -> settled_cluster Own c0 -> rtc cstep c0 c -> settled_cluster Own c.
Proof.
  intros Hc Hs Hr. induction Hr as [|x y z Hxy _ IH]; [done|]. apply IH; [by eapply crun_step|].
  eapply cstep_settled; [by eapply crun_inv|done|done].
Qed.

Lemma rest_applied_once Own c n q v u :
  cinv c -> settled_cluster Own c -> net c = [] -> Forall at_rest (nodes c) ->
  Forall (fun n => map_Forall (fun _ w => v < w) (map_versions_ (pc (st n.1)))) (nodes c) ->
  n ∈ nodes c -> is_Some (map_versions_ (pc (st n.1)) !! u) ->
  0 <= v -> 0 <= q < num_update_part_ (pc (st n.1)) ->
  updates_applied (q, v, u) c = 1.
Proof.
  intros (_ & (hs & Hok & Hd) & Hbal) [Hs _] Hnet Hrest Hv Hn [w Hu] Hv0 Hq.
  rewrite Forall_forall in Hrest. rewrite Forall_forall in Hv. rewrite Forall_forall in Hs.
  assert (forall n', n' ∈ nodes c -> exists h, node_ok (fun t => 0 < updates_applied t c) h n') as Hnode.
  { intros n' [i Hi']%list_elem_of_lookup. destruct (Forall2_lookup_r _ _ _ _ _ Hok Hi') as (h & _ & Hn'). eauto. }
  assert (updates_in_flight (q, v, u) c = 0) as Hz.
  { unfold updates_in_flight, on_net. rewrite Hnet, sum_over_zero; [done|]. intros n' Hn'.
    destruct (Hnode n' Hn') as [h Hh]. destruct (Hs n' Hn') as [Hset _].
    eapply rest_holds_nothing; [done|done|by apply Hrest|by apply Hv]. }
  assert (1 <= updates_made (q, v, u) c) as Hm.
  { destruct (Hnode n Hn) as [h Hh]. destruct (Hs n Hn) as [Hset _].
    assert (0 < cnt (q, v, u) (made n.2)) as Hpos.
    { eapply made_whole; [done|done|by apply Hrest| |done]. unfold map_version, lookup_or. rewrite Hu.
      specialize (Hv n Hn u w Hu). cbn in *. lia. }
    apply list_elem_of_split in Hn as (l1 & l2 & En). unfold updates_made. rewrite En, sum_over_app, sum_over_cons.
    pose proof (sum_over_nonneg (fun n : node => cnt (q, v, u) (made n.2)) l1 (fun _ => cnt_nonneg _ _)).
    pose proof (sum_over_nonneg (fun n : node => cnt (q, v, u) (made n.2)) l2 (fun _ => cnt_nonneg _ _)). lia. }
  pose proof (made_once _ _ _ (q, v, u) Hok Hd) as H1. fold (updates_made (q, v, u) c) in H1.
  specialize (Hbal (q, v, u)). lia.
Qed.

(** C5: An iteration that comes to rest is complete.  On any number of nodes whose collection maps
    tell where the partitions are, whatever the interleaving: when no message is on the
    network, no node has a message, a task, a granted access or a buffered map output left,
    and every partition of the map collection is past iteration [v], then the update of every
    partition [q] of the update collection by every mapped partition [u] in iteration [v] has
    been applied, exactly once.  No update is stuck in a waiting, pending or buffered queue. *)
Theorem resting_iteration_complete sp c0 c n q v u :
  cinitial sp c0 -> placed c0 -> rtc cstep c0 c ->
  net c = [] -> Forall at_rest (nodes c) ->
  Forall (fun n => map_Forall (fun _ w => v < w) (map_versions_ (pc (st n.1)))) (nodes c) ->
  n ∈ nodes c -> is_Some (map_versions_ (pc (st n.1)) !! u) ->
  0 <= v -> 0 <= q < num_update_part_ (pc (st n.1)) ->
  updates_applied (q, v, u) c = 1.
Proof.
  intros Hi Hpl Hr. eapply rest_applied_once.
  - eapply crun_inv, crun_rtc; [by apply crun_start|done].
  - eapply run_settled; [by apply crun_start|by eapply cinitial_settled|done].
Qed.
End Complete.
