(* ===== verification/PlanSim.v ===== *)
(** * Runs of a cluster, executed

    An executable form of the steps of [PlanCluster] and two runs computed with it: a plan on
    two nodes that comes to rest with all its updates applied, and a plan that comes to rest
    with all its updates applied but whose last iteration is never reported, because an
    iteration was overtaken by the next one. *)

From S2P Require Import Prelude BinStream Specs Index Messages Partition PlanController PlanFrame PlanExclusion PlanTokens PlanProgress PlanCluster PlanDrain PlanComplete.

Section Sim.
Context {P Stream : Type} `{UC : UserCode P Stream} `{IO : IterOrder}.
Abbreviation NodeS := (NodeSt P Stream).
Abbreviation outs := (list (out P Stream)).
Abbreviation sysS := (sys (P := P) (Stream := Stream)).
Abbreviation node := (sysS * outs)%type.
Abbreviation clusterS := (cluster (P := P) (Stream := Stream)).

(** ** Steps *)

(** Node [i] handles its next message, runs the [k]-th task of its pool; the [k]-th message of
    the network reaches node [i]; the scheduler sends [m] to node [i]. *)
Inductive caction := CHandle (i : nat) | CTask (i k : nat) | CNet (i k : nat) | CEnv (i : nat) (m : ctrl_msg).

Definition run_on (m : M NodeS (out P Stream) unit) (s : sysS) (pl : list (task P Stream)) (q : list ctrl_msg) :
    option (outs * sysS) :=
  match m (st s) with
  | Ok (tt, st', os) =>
      Some (os, absorb os {| st := st'; pool := pl; queue := q; later := later s; grants := grants s |})
  | Err _ => None
  end.
Definition from_outside (m : ctrl_msg) : bool :=
  match m with kStart | kUpdateVersion _ => true | _ => false end.

Definition csim_step (c : clusterS) (a : caction) : option clusterS :=
  match a with
  | CHandle i =>
      n ← nodes c !! i;
      match queue n.1 with
      | m :: q => r ← run_on (Process m) n.1 (pool n.1) q;
          Some {| nodes := <[i := (r.2, n.2 ++ r.1)]> (nodes c); net := net c ++ sent r.1 |}
      | [] => None
      end
  | CTask i k =>
      n ← nodes c !! i; t ← pool n.1 !! k;
      r ← run_on (run_task t) n.1 (take k (pool n.1) ++ drop (S k) (pool n.1)) (queue n.1);
      Some {| nodes := <[i := (r.2, n.2 ++ r.1)]> (nodes c); net := net c ++ sent r.1 |}
  | CNet i k =>
      n ← nodes c !! i; rm ← net c !! k;
      if rm.1 =? GetControllerActorQid (my_id (st n.1)) then
        Some {| nodes := <[i := (deliver rm.2 n.1, n.2)]> (nodes c); net := take k (net c) ++ drop (S k) (net c) |}
      else None
  | CEnv i m =>
      n ← nodes c !! i;
      if from_outside m then Some {| nodes := <[i := (deliver m n.1, n.2)]> (nodes c); net := net c |} else None
  end.
Definition csim (c : clusterS) (l : list caction) : option clusterS :=
  foldl (fun o a => c ← o; csim_step c a) (Some c) l.

Lemma cstep_at c i n n' os : nodes c !! i = Some n -> local_step n.1 os n' ->
  cstep c {| nodes := <[i := (n', n.2 ++ os)]> (nodes c); net := net c ++ sent os |}.
Proof.
  intros Hi Hs. destruct c as [ns w]. destruct n as [s tr]. cbn [nodes net fst snd] in *.
  rewrite (insert_take_drop ns i) by (by eapply lookup_lt_Some).
  rewrite <- (take_drop_middle ns i _ Hi) at 1. by apply cstep_node.
Qed.

Lemma csim_step_sound c a c' : csim_step c a = Some c' -> cstep c c'.
Proof.
  destruct a as [i|i k|i k|i m]; cbn [csim_step]; intros Hc; apply bind_Some in Hc as (n & Hi & Hc).
  - destruct (queue n.1) as [|m q] eqn:Hq; [done|]. apply bind_Some in Hc as ([os s'] & Hr & [= <-]).
    apply (cstep_at c i n s' os Hi). unfold run_on in Hr.
    destruct (Process m (st n.1)) as [[[[] st'] os']|] eqn:E; [|done]. injection Hr as <- <-. by apply (step_handle _ m q).
  - apply bind_Some in Hc as (t & Ht & ([os s'] & Hr & [= <-])%bind_Some).
    apply (cstep_at c i n s' os Hi). unfold run_on in Hr.
    destruct (run_task t (st n.1)) as [[[[] st'] os']|] eqn:E; [|done]. injection Hr as <- <-.
    apply (step_task _ _ t _ _ _); [|done]. by rewrite take_drop_middle.
  - apply bind_Some in Hc as ([r m] & Hk & Hc). cbn [fst snd] in Hc. destruct (Z.eqb_spec r (GetControllerActorQid (my_id (st n.1)))) as [->|]; [|done].
    injection Hc as <-. destruct c as [ns w], n as [s tr]. cbn [nodes net fst snd] in *.
    rewrite (insert_take_drop ns i) by (by eapply lookup_lt_Some).
    rewrite <- (take_drop_middle ns i _ Hi) at 1. rewrite <- (take_drop_middle w k _ Hk) at 1. apply cstep_net.
  - destruct (from_outside m) eqn:Hm; [|done]. injection Hc as <-. destruct c as [ns w], n as [s tr]. cbn [nodes net fst snd] in *.
    rewrite (insert_take_drop ns i) by (by eapply lookup_lt_Some).
    rewrite <- (take_drop_middle ns i _ Hi) at 1. apply cstep_env. by destruct m.
Qed.

Lemma csim_sound l c c' : csim c l = Some c' -> rtc cstep c c'.
Proof.
  unfold csim. induction l as [|a l IH] using rev_ind in c' |- *; [by intros [= <-]|].
  rewrite foldl_snoc. intros (c1 & H1 & H2)%bind_Some. apply (rtc_r _ c1); [by apply IH|by apply (csim_step_sound c1 a)].
Qed.

(** ** Starting a plan *)

Definition start_node (sp : SpecWrapper) (q : PartitionManager P) (cm : CollectionMap) (id : Z) : option node :=
  match Setup sp {| pc := new_pc; pm := q; cmap := cm; my_id := id |} with
  | Ok (tt, st', _) => Some ({| st := st'; pool := []; queue := []; later := []; grants := [] |}, [])
  | Err _ => None
  end.
Definition start_cluster (sp : SpecWrapper) (cm : CollectionMap) (qs : list (Z * PartitionManager P)) : option clusterS :=
  ns ← mapM (fun iq => start_node sp iq.2 cm iq.1) qs; Some {| nodes := ns; net := [] |}.

(** The partitions of the map collection on a node. *)
Definition local_maps (n : node) : list Z :=
  (entries (lookup_or ∅ (map_collection_id_ (pc (st n.1))) (partitions_ (pm (st n.1))))).*1.

Lemma start_cluster_initial sp cm qs c : start_cluster sp cm qs = Some c ->
  NoDup (mjoin (local_maps <$> nodes c)) -> cinitial sp c.
Proof.
  unfold start_cluster. intros (ns & Hns & [= <-])%bind_Some Hd. split_and!; cbn [nodes net] in *.
  - done.
  - apply mapM_Some in Hns. apply Forall_forall. intros n [i Hi]%list_elem_of_lookup.
    destruct (Forall2_lookup_r _ _ _ _ _ Hns Hi) as ([id q] & _ & Hn). unfold start_node in Hn. cbn [fst snd] in Hn.
    destruct (Setup sp _) as [[[[] st'] os]|] eqn:E; [|done]. injection Hn as <-. split; [done|]. by exists q, cm, id, st', os.
  - assert (forall n u, maps_here (st n.1) u -> u ∈ local_maps n) as Hm.
    { intros n u [x Hx]. apply list_elem_of_fmap. exists (u, x). split; [done|].
      by rewrite elem_of_entries, lookup_or_store. }
    intros i j ni nj u Hi Hj Hui%Hm Huj%Hm.
    eapply (NoDup_mjoin_inv (local_maps <$> ns)); [done|..|exact Hui|exact Huj]; by rewrite list_lookup_fmap, ?Hi, ?Hj.
Qed.

(** The hypotheses about starts and ends of runs, as tests. *)
Definition resting (n : node) : bool :=
  match pool n.1, queue n.1, grants n.1 with
  | [], [], [] => forallb (fun cell => bool_decide (entries cell = [])) (store_ (pc (st n.1)))
  | _, _, _ => false
  end.
Lemma resting_at_rest ns : forallb resting ns = true -> Forall at_rest ns.
Proof.
  rewrite forallb_forall. intros Hns. apply Forall_forall. intros n Hn%list_elem_of_In. specialize (Hns n Hn).
  unfold resting in Hns. unfold at_rest. destruct (pool n.1), (queue n.1), (grants n.1); try done. split_and!; [done..|].
  rewrite forallb_forall in Hns. apply Forall_forall. intros cell Hin%list_elem_of_In. specialize (Hns cell Hin).
  apply bool_decide_eq_true in Hns. apply map_empty. intros k. destruct (cell !! k) as [x|] eqn:E; [|done].
  apply elem_of_entries in E. rewrite Hns in E. by apply elem_of_nil in E.
Qed.

Definition well_placed (c : clusterS) : bool :=
  forallb (fun n => match cmap (st n.1) !! update_collection_id_ (pc (st n.1)) with
    | Some cv => forallb (fun n' => forallb (fun pi => negb (pi.2 =? my_id (st n'.1)) ||
         bool_decide (is_Some (store_lookup (pm (st n'.1)) (update_collection_id_ (pc (st n'.1))) pi.1)))
        (zip (seqZ 0 (Z.of_nat (length (v_ (view_mapper cv))))) (v_ (view_mapper cv)))) (nodes c)
    | None => true end) (nodes c).
Lemma well_placed_placed c : well_placed c = true -> placed c.
Proof.
  unfold well_placed. rewrite forallb_forall. intros Hc n n' p Hn%list_elem_of_In Hn'%list_elem_of_In (cv & Hcv & Hp & Hid).
  specialize (Hc n Hn). rewrite Hcv, forallb_forall in Hc. specialize (Hc n' Hn'). rewrite forallb_forall in Hc.
  specialize (Hc (p, my_id (st n'.1))). cbn [fst snd] in Hc. rewrite Z.eqb_refl in Hc.
  apply (bool_decide_eq_true (is_Some _)), Hc, list_elem_of_In, list_elem_of_lookup. exists (Z.to_nat p).
  apply lookup_zip_with_Some. eexists p, _. split; [done|]. split; [|done].
  apply lookup_seqZ. pose proof (lookup_lt_Some _ _ _ Hid). lia.
Qed.

Definition versions_are (f : Z -> bool) (n : node) : bool :=
  forallb (fun kv => f kv.2) (entries (map_versions_ (pc (st n.1)))).
Lemma versions_all f ns : forallb (versions_are f) ns = true ->
  Forall (fun n : node => map_Forall (fun _ w => f w = true) (map_versions_ (pc (st n.1)))) ns.
Proof.
  rewrite forallb_forall. intros Hns. apply Forall_forall. intros n Hn%list_elem_of_In. specialize (Hns n Hn).
  unfold versions_are in Hns. rewrite forallb_forall in Hns. intros k w Hk. apply elem_of_entries, list_elem_of_In in Hk.
  exact (Hns _ Hk).
Qed.
Lemma past_all v ns : forallb (versions_are (Z.ltb v)) ns = true ->
  Forall (fun n : node => map_Forall (fun _ w => v < w) (map_versions_ (pc (st n.1)))) ns.
Proof.
  intros Hns%versions_all. eapply Forall_impl; [exact Hns|]. intros n Hn k w Hk. apply Z.ltb_lt. exact (Hn k w Hk).
Qed.

(** A run computed from a start that passes the tests. *)
Definition computed (sp : SpecWrapper) (cm : CollectionMap) (qs : list (Z * PartitionManager P)) (l : list caction) :
    option (clusterS * clusterS) :=
  c0 ← start_cluster sp cm qs;
  if bool_decide (NoDup (mjoin (local_maps <$> nodes c0))) && well_placed c0
  then c ← csim c0 l; Some (c0, c) else None.
Lemma computed_run sp cm qs l c0 c :
  computed sp cm qs l = Some (c0, c) ->
  cinitial sp c0 /\ placed c0 /\ rtc cstep c0 c.
Proof.
  unfold computed. intros (c1 & Hs & Hc)%bind_Some. destruct (bool_decide _) eqn:Hd; [|done].
  destruct (well_placed c1) eqn:Hp; [|done]. apply bind_Some in Hc as (c2 & Hc & [= <- <-]).
  split; [eapply start_cluster_initial; [done|by apply bool_decide_eq_true in Hd]|].
  split; [by apply well_placed_placed|]. by eapply csim_sound.
Qed.
End Sim.

(** ** Two runs *)

(** Partitions hold a number; the map of a partition sends its number to each of [k]
    partitions, where the numbers are added up. *)
Definition counting (k : nat) : UserCode Z Z :=
  {| part_ToBin := fun p => empty_stream << p;
     fn_CreatePart := fun _ => None;
     fn_Map := fun _ => Some (fun p => replicate k p);
     fn_MapWith := fun _ => None;
     fn_Join := fun _ => Some (fun p bin => match dec (A := Z) bin with Ok (x, _, _) => p + x | Err _ => p end);
     fn_Join2 := fun _ => Some Z.add;
     fn_Getter := fun _ => None;
     stream_Serialize := fun x => empty_stream << x;
     stream_DoCombine := fun x => x;
     stream_DoAppend := Z.add |}.
Definition counting_plan (timeout stale iters : Z) : SpecWrapper :=
  {| spec_type := TMapJoin; spec_id := 0; spec_name := "counting";
     spec := SMapJoin {| map_collection_id := 1; update_collection_id := 2;
       combine_timeout := timeout; num_iter := iters; staleness := stale; checkpoint_interval := 0;
       checkpoint_path := ""; description := "" |} |}.
Definition view_of (cid : Z) (ids : list Z) : CollectionView :=
  {| view_collection_id := cid; view_num_partition := Z.of_nat (length ids); view_mapper := {| v_ := ids |} |}.

(** What a node reported about its updates. *)
Definition join_reports (os : list (out Z Z)) : list (Z * Z) :=
  omap (fun o => match o with
                 | ToScheduler m => if bool_decide (c_flag m = CfJoin) then Some (c_part_id m, c_version m) else None
                 | _ => None end) os.

(** Collections 1 and 2 have a partition on each of the nodes 1 and 2; one iteration. *)
Definition two_nodes_steps : list caction :=
  [CEnv 0 kStart; CEnv 1 kStart; CHandle 0; CHandle 1; CTask 0 0; CTask 1 0; CTask 0 0; CTask 1 0;
   CNet 0 1; CNet 1 0; CHandle 0; CHandle 0; CTask 0 0; CHandle 0; CHandle 0; CTask 0 0; CHandle 0;
   CHandle 1; CHandle 1; CTask 1 0; CHandle 1; CHandle 1; CTask 1 0; CHandle 1].

Definition counting_run :=
  computed (UC := counting 2) (IO := iter_sorted) (counting_plan (-1) 0 1) (<[1 := view_of 1 [1; 2]]> {[2 := view_of 2 [1; 2]]})
    [(1, {| partitions_ := <[1 := {[0 := 5]}]> {[2 := {[0 := 100]}]} |});
     (2, {| partitions_ := <[1 := {[1 := 6]}]> {[2 := {[1 := 200]}]} |})] two_nodes_steps.

(** The two nodes end with 100 + 5 + 6 and 200 + 5 + 6. *)
Lemma two_nodes_result :
  (cs ← counting_run; Some ((fun n : sys * list (out Z Z) => entries <$> partitions_ (pm (st n.1)) !! 2) <$> nodes cs.2)) =
  Some [Some [(0, 111)]; Some [(1, 211)]].
Proof. by vm_compute. Qed.

Lemma updates_applied_exactly_once_witness :
  exists c0 c, counting_run = Some (c0, c) /\ updates_in_flight (0, 0, 1) c + updates_applied (0, 0, 1) c = 1.
Proof.
  destruct counting_run as [[c0 c]|] eqn:E; [|vm_compute in E; discriminate]. exists c0, c. split; [done|].
  destruct (computed_run _ _ _ _ _ _ E) as (Hi & _ & Hr).
  rewrite (proj1 (updates_applied_exactly_once _ c 0 0 1 (crun_rtc _ _ _ (crun_start _ _ Hi) Hr))).
  vm_compute in E. injection E as _ <-. by vm_compute.
Defined.

Lemma resting_iteration_complete_witness :
  exists c0 c, counting_run = Some (c0, c) /\ updates_applied (1, 0, 0) c = 1.
Proof.
  destruct counting_run as [[c0 c]|] eqn:E; [|vm_compute in E; discriminate]. exists c0, c. split; [done|].
  destruct (computed_run _ _ _ _ _ _ E) as (Hi & Hp & Hr).
  assert (net c = [] /\ forallb resting (nodes c) = true /\ forallb (versions_are (Z.ltb 0)) (nodes c) = true) as (H1 & H2 & H3).
  { vm_compute in E. injection E as _ <-. by vm_compute. }
  assert (exists n, nodes c !! 0%nat = Some n) as [n Hn] by (vm_compute in E; injection E as _ <-; by eexists).
  apply (resting_iteration_complete (counting_plan (-1) 0 1) c0 c n 1 0 0 Hi Hp Hr H1 (resting_at_rest _ H2) (past_all _ _ H3)).
  - by eapply list_elem_of_lookup_2.
  - vm_compute in E. injection E as _ <-. cbn in Hn. injection Hn as <-. by eexists.
  - lia.
  - vm_compute in E. injection E as _ <-. cbn in Hn. injection Hn as <-. cbn. lia.
Defined.

(** Both partitions of collection 1 and the partition of collection 2 are on one node; three
    iterations, staleness 1.  The combiner threads are done with iteration 0 of partition 0 and iteration 1 of both
    partitions before iteration 0 of partition 1. *)
Definition overtaking_steps : list caction :=
  [CEnv 0 kStart; CHandle 0; CTask 0 0; CTask 0 0; CTask 0 0; CTask 0 0;
   CHandle 0; CHandle 0; CTask 0 2; CTask 0 2; CTask 0 2; CTask 0 2; CHandle 0; CHandle 0;
   CTask 0 0; CTask 0 1; CTask 0 1; CHandle 0; CHandle 0; CHandle 0;
   CTask 0 1; CHandle 0; CTask 0 1; CHandle 0; CTask 0 1; CHandle 0;
   CEnv 0 (kUpdateVersion 1); CHandle 0; CTask 0 1; CTask 0 1; CTask 0 1; CTask 0 1; CHandle 0; CHandle 0;
   CTask 0 0; CHandle 0; CTask 0 2; CHandle 0; CTask 0 0; CTask 0 0; CHandle 0; CHandle 0;
   CTask 0 0; CHandle 0; CTask 0 0; CHandle 0; CEnv 0 (kUpdateVersion 2); CHandle 0].

Definition overtaking_run :=
  computed (UC := counting 1) (IO := iter_sorted) (counting_plan 0 1 3) (<[1 := view_of 1 [1; 1]]> {[2 := view_of 2 [1]]})
    [(1, {| partitions_ := <[1 := <[0 := 5]> {[1 := 6]}]> {[2 := {[0 := 100]}]} |})] overtaking_steps.

(** C40: A plan can stall when an iteration overtakes another.  The version of an update partition
    counts the iterations that completed, in any order, and the next version of the plan
    clears the record of the iteration before it.  With staleness 1, when the updates of
    iteration 1 are complete before those of iteration 0, the record of iteration 0 is
    cleared half-way: the plan comes to rest with every map run and every update of all three
    iterations applied, but only versions 1 and 2 were reported, so it never ends. *)
Theorem overtaken_iteration_stalls :
  exists c0 c n, cinitial (counting_plan 0 1 3) c0 /\ placed c0 /\
    rtc (@cstep Z Z (counting 1) iter_sorted) c0 c /\ net c = [] /\ nodes c = [n] /\ at_rest n /\
    entries (map_versions_ (pc (st n.1))) = [(0, 3); (1, 3)] /\ expected_num_iter_ (pc (st n.1)) = 3 /\
    (forall v u, v ∈ [0; 1; 2] -> u ∈ [0; 1] -> updates_applied (0, v, u) c = 1) /\
    join_reports n.2 = [(0, 1); (0, 2)].
Proof.
  destruct overtaking_run as [[c0 c]|] eqn:E; [|vm_compute in E; discriminate].
  destruct (computed_run _ _ _ _ _ _ E) as (Hi & Hp & Hr). exists c0, c.
  assert (exists n, nodes c = [n] /\ net c = []) as (n & Hn & Hw) by (vm_compute in E; injection E as _ <-; by eexists).
  exists n. split; [done|]. split; [done|]. split; [done|]. split; [done|]. split; [done|].
  assert (forallb resting (nodes c) = true /\
    forallb (fun vu => updates_applied (0, vu.1, vu.2) c =? 1) (list_prod [0; 1; 2] [0; 1]) = true) as [H1 H2].
  { vm_compute in E. injection E as _ <-. by vm_compute. }
  split; [|split; [|split; [|split]]].
  - apply resting_at_rest in H1. rewrite Hn in H1. by apply Forall_cons in H1 as [? _].
  - vm_compute in E. injection E as _ <-. cbn in Hn. injection Hn as <-. by vm_compute.
  - vm_compute in E. injection E as _ <-. cbn in Hn. injection Hn as <-. by vm_compute.
  - intros v u Hv Hu. rewrite forallb_forall in H2. specialize (H2 (v, u)). cbn [fst snd] in H2.
    apply Z.eqb_eq, H2, in_prod; by apply list_elem_of_In.
  - vm_compute in E. injection E as _ <-. cbn in Hn. injection Hn as <-. by vm_compute.
Qed.
