(* ===== verification/PlanEvents.v ===== *)
(** * What the updates of a plan carry

    [PlanTokens] counts updates; here is what they do to the partitions.  A map output stream
    stands for a list of events, those that the map emitted for one partition; appending,
    combining and serializing streams keep the events, and a join logs the events of its
    stream in the partition.  What streams, events and logs are is up to the user's code: the
    class [EventLog] says what the plan controller relies on.  For the handlers and tasks of a
    node that takes no part in a migration: every join on its way carries the events of the
    updates it names, in its message or in the stream store, and a partition of the update
    collection has logged the events of the updates applied to it. *)

From S2P Require Import Prelude BinStream Specs Index Messages Partition PlanController PlanFrame PlanTokens.

(** [part_log x0 x l]: the partition [x] is [x0] after the events [l]. *)
Class EventLog (P Stream : Type) `{UserCode P Stream} (E : Type) := {
  stream_log : Stream -> list E -> Prop;
  bin_log : BinStream -> list E -> Prop;
  part_log : P -> P -> list E -> Prop;
  log_append : forall a la b lb, stream_log a la -> stream_log b lb -> stream_log (stream_DoAppend a b) (la ++ lb);
  log_combine : forall s l, stream_log s l -> stream_log (stream_DoCombine s) l;
  log_serialize : forall s l, stream_log s l -> bin_log (stream_Serialize s) l;
  log_start : forall x, part_log x x [];
  log_join : forall id f x0 x l b l', fn_Join id = Some f ->
    part_log x0 x l -> bin_log b l' -> part_log x0 (f x b) (l ++ l');
  log_join2 : forall id f x0 x l s l', fn_Join2 id = Some f ->
    part_log x0 x l -> stream_log s l' -> part_log x0 (f x s) (l ++ l');
  log_getter : forall id f x0 x l b, fn_Getter id = Some f ->
    part_log x0 x l -> part_log x0 (f b x).2 l }.

(** ** Handlers move requests around *)

Section Moves.
Context {P Stream : Type} `{UserCode P Stream} `{IterOrder}.
Abbreviation NodeS := (NodeSt P Stream).
Abbreviation outs := (list (out P Stream)).
Abbreviation Comp := (M NodeS (out P Stream)).

(** The requests a plan controller keeps. *)
Definition waits (c : PC Stream) (m : VersionedJoinMeta) : Prop :=
  (exists p, m ∈ lookup_or [] p (waiting_updates_ c)) \/
  (exists p v, m ∈ lookup_or [] v (lookup_or ∅ p (pending_updates_ c))) \/
  (exists p, m ∈ lookup_or [] p (buffered_requests_ c)).

(** [In] holds of the requests kept and of the one being handled. *)
Context (In : VersionedJoinMeta -> Prop).
Definition inset (s : NodeS) : Prop := forall m, waits (pc s) m -> In m.
Definition out_in (o : out P Stream) : Prop :=
  match o with
  | Submit (TJoin m) => In m
  | Submit (TCombine _ _ _) | Submit (TMapped _ _ _) => False
  | Push (kReceiveJoin _) | Push (kFinishJoin _ _ _) | Send _ _ (kReceiveJoin _) => False
  | _ => True
  end.
Definition moves (s : NodeS) (os : outs) (s' : NodeS) : Prop :=
  inset s -> inset s' /\ Forall out_in os /\
    (stream_store (pc s'), store_ (pc s')) = (stream_store (pc s), store_ (pc s)) /\ same_store (pm s') (pm s).
Abbreviation moving := (tracks (P := P) (Stream := Stream) moves).

#[global] Instance moves_tracking : Tracking moves.
Proof.
  split; [by intros s Hs; split_and!|]. intros s1 s2 s3 os os' H1 H2 Hs.
  destruct (H1 Hs) as (Hs2 & Ho1 & E1 & Hp1). destruct (H2 Hs2) as (Hs3 & Ho2 & E2 & Hp2).
  split; [done|]. split; [by apply Forall_app|]. split; [congruence|]. by rewrite Hp2.
Qed.

Lemma wp_moves {A} (m : Comp A) : (forall s, inset s -> wp any m s (fun _ s' os => moves s os s')) -> moving m.
Proof.
  intros Hm s. unfold wp. destruct (m s) as [[[a s'] os]|e] eqn:E; [|done]. intros Hs.
  specialize (Hm s Hs). unfold wp in Hm. rewrite E in Hm. by apply Hm.
Qed.

Lemma moves_queues (s : NodeS) os (s' : NodeS) :
  (forall m, waits (pc s') m -> waits (pc s) m \/ In m) -> Forall out_in os ->
  (stream_store (pc s'), store_ (pc s')) = (stream_store (pc s), store_ (pc s)) -> same_store (pm s') (pm s) ->
  moves s os s'.
Proof. intros Hw Ho E Hp Hs. split_and!; try done. intros m Hm. destruct (Hw m Hm); auto. Qed.

Lemma waits_waiting c c' : (forall p m, m ∈ lookup_or [] p (waiting_updates_ c') -> waits c m \/ In m) ->
  pending_updates_ c' = pending_updates_ c -> buffered_requests_ c' = buffered_requests_ c ->
  forall m, waits c' m -> waits c m \/ In m.
Proof.
  intros Hw Ep Eb m [(p & Hm)|[Hm|Hm]]; [by eapply Hw|..]; left; right; [left|right]; by rewrite <- ?Ep, <- ?Eb.
Qed.

(** Requests that join the waiting list of a partition. *)
Lemma push_waiting_moves p l (s : NodeS) : (forall m, m ∈ l -> waits (pc s) m \/ In m) ->
  moves s [] (s <| pc ::= fun c => c <| waiting_updates_ ::= fun w => <[p := lookup_or [] p w ++ l]> w |> |>).
Proof.
  intros Hl. apply moves_queues; [|done..]. apply waits_waiting; [|done..]. intros q m. cbn.
  destruct (decide (p = q)) as [<-|]; [rewrite lookup_or_insert|rewrite lookup_or_insert_ne by done].
  - intros [Hm|Hm]%elem_of_app; [left; left; by eexists|by apply Hl].
  - intros Hm. left. left. by eexists.
Qed.
Lemma push_buffered_moves p m (s : NodeS) : In m ->
  moves s [] (s <| pc ::= fun c => c <| buffered_requests_ ::= fun b => <[p := lookup_or [] p b ++ [m]]> b |> |>).
Proof.
  intros Hm. apply moves_queues; [|done..]. intros m' [H'|[H'|(q & H')]]; [left; by left|left; by right; left|].
  cbn in H'. destruct (decide (p = q)) as [<-|].
  - rewrite lookup_or_insert in H'. apply elem_of_app in H' as [H'|H'%list_elem_of_singleton]; [|subst; by right].
    left. right. right. by eexists.
  - rewrite lookup_or_insert_ne in H' by done. left. right. right. by eexists.
Qed.
Lemma set_pending_moves p v l (s : NodeS) : (forall m, m ∈ l -> waits (pc s) m \/ In m) ->
  moves s [] (s <| pc ::= fun c => c <| pending_updates_ ::= set_pending p v l |> |>).
Proof.
  intros Hl. apply moves_queues; [|done..]. intros m' [H'|[(q & w & H')|H']]; [left; by left| |left; by right; right].
  cbn in H'. rewrite lookup_set_pending in H'. case_decide; [by apply Hl|]. left. right. left. by eexists _, _.
Qed.

Lemma moving_pm {A} (m : M (PartitionManager P) Empty_set A) :
  (forall q, wp any m q (fun _ q' _ => same_store q' q)) -> moving (on_pm m).
Proof.
  intros Hm. apply tracks_on_pm. intros s. eapply wp_mono; [apply Hm|]. intros a q os Hq. by apply moves_queues; [auto|..].
Qed.
Lemma moving_Has c p : moving (on_pm (pm_Has c p)).
Proof. apply moving_pm. intros q. by apply pm_Has_spec. Qed.
Lemma moving_Get c p : moving (on_pm (pm_Get c p)).
Proof. apply moving_pm. intros q. apply pm_Get_spec; [|done]. by intros x q' _ Hq. Qed.
Hint Resolve moving_Has moving_Get : track_db.

Ltac move_skip :=
  intros; apply moves_queues;
    [intros ? Hw; left; first [exact Hw|cbn in Hw; repeat case_match; exact Hw]|repeat constructor; done|cbn; repeat case_match; reflexivity|cbn; repeat case_match; done].
Ltac move_step := track_step_with move_skip.
Ltac solve_moving := repeat move_step.

Lemma moving_Report f p v : moving (ReportFinishPart f p v).
Proof. unfold ReportFinishPart. solve_moving. Qed.
Hint Resolve moving_Report : track_db.
Lemma moving_TryRunSomeMaps : moving TryRunSomeMaps.
Proof. unfold TryRunSomeMaps, IsMapRunnable, RunMap. solve_moving. Qed.
Hint Resolve moving_TryRunSomeMaps : track_db.
Lemma moving_RunFetchRequest m : moving (RunFetchRequest m).
Proof. unfold RunFetchRequest. solve_moving. Qed.
Hint Resolve moving_RunFetchRequest : track_db.
Lemma moving_IsJoinedBefore m : moving (IsJoinedBefore m).
Proof. intros s. apply wp_joined. intros b _. move_skip. Qed.
Hint Resolve moving_IsJoinedBefore : track_db.

Lemma moving_RunJoin retry m : (forall q, moving (retry q)) -> In m -> moving (RunJoin retry m).
Proof.
  intros Hr Hm. unfold RunJoin. move_step; [move_step|]. move_step; [apply Hr|]. do 3 (move_step; [solve_moving|]).
  apply tracks_emit. intros s. apply moves_queues; [auto| |done|done]. by repeat constructor.
Qed.

Lemma moving_touch_waiting p : moving (mod_pc (fun c => c <| waiting_updates_ ::= touch [] p |>)).
Proof.
  apply tracks_mod. intros s. apply moves_queues; [|done..]. apply waits_waiting; [|done..].
  intros q m. cbn. rewrite lookup_or_touch. intros Hm. left. left. by eexists.
Qed.
Hint Resolve moving_touch_waiting : track_db.

Lemma moving_run_first_waiting retry p : (forall q, moving (retry q)) -> moving (run_first_waiting retry p).
Proof.
  intros Hr. apply wp_moves. intros s Hs. unfold run_first_waiting. wstep. wstep. wstep; [wstep; by apply track_refl|].
  wstep. eapply wp_mono; [apply moving_touch_waiting|]. intros [] s1 o1 H1.
  destruct (lookup_or [] p (waiting_updates_ (pc s))) as [|m rest] eqn:Hl; [wstep; by rewrite app_nil_r|].
  assert (In m) as Hm by (apply Hs; left; exists p; rewrite Hl; left).
  assert (forall m', m' ∈ rest -> In m') as Hrest by (intros m' Hm'; apply Hs; left; exists p; rewrite Hl; by right).
  set (k := _ ;;; _). eapply wp_mono; [|intros b s2 o2 H2; exact (track_trans _ _ _ _ _ H1 H2)]. unfold k. clear k.
  revert s1 H1. intros s1 _. revert s1. change (moving (mod_pc (fun c => c <| waiting_updates_ ::= <[p := rest]> |>) ;;;
      (if negb (vs_is_fetch (vj_meta m)) then RunJoin retry m else RunFetchRequest m) ;;; ret true)).
  move_step.
  - apply tracks_mod. intros s1. apply moves_queues; [|done..]. apply waits_waiting; [|done..]. intros q m'. cbn.
    destruct (decide (p = q)) as [<-|]; [rewrite lookup_or_insert; auto|rewrite lookup_or_insert_ne by done].
    intros Hm'. left. left. by eexists.
  - move_step; [|move_step]. move_step; [by apply moving_RunJoin|move_step].
Qed.

Lemma moving_TryRunWaitingJoins p : moving (TryRunWaitingJoins p).
Proof.
  unfold TryRunWaitingJoins. move_step; [move_step|]. generalize (total_waiting a). intros n. revert p.
  induction n as [|n IH]; intros p; cbn [TryRunWaitingJoins_]; unfold try_waiting;
    (move_step; [move_step|]); (move_step; [move_step|]); (move_step; [solve_moving|]); (move_step; [move_step|]);
    apply moving_run_first_waiting; intros q; [move_step|]. move_step; [apply IH|move_step].
Qed.
Hint Resolve moving_TryRunWaitingJoins : track_db.

Lemma moving_ReceiveJoin m : In m -> moving (ReceiveJoin m).
Proof.
  intros Hm. unfold ReceiveJoin. move_step; [move_step|].
  move_step; [apply tracks_mod; intros s; by apply push_buffered_moves|].
  move_step; [move_step|]. move_step; [move_step|]. move_step; [solve_moving|]. move_step.
  - apply tracks_mod. intros s. apply (set_pending_moves (vs_part_id (vj_meta m)) (vs_version (vj_meta m))
      (lookup_or [] (vs_version (vj_meta m)) (lookup_or ∅ (vs_part_id (vj_meta m)) (pending_updates_ (pc s))) ++ [m])).
    intros m' [Hm'|Hm'%list_elem_of_singleton]%elem_of_app; [left; right; left; by eexists _, _|subst; by right].
  - move_step; [|solve_moving]. apply tracks_mod. intros s. apply push_waiting_moves.
    intros m' ->%list_elem_of_singleton. by right.
Qed.

Lemma moving_ReceiveFetchRequest fm bin sd rc :
  (forall m, vs_is_fetch (vj_meta m) = true -> In m) -> moving (ReceiveFetchRequest fm bin sd rc).
Proof.
  intros Hf. unfold ReceiveFetchRequest. do 6 (move_step; [move_step|]). move_step; [move_step|].
  move_step; [apply tracks_mod; intros s; by apply push_buffered_moves, Hf|].
  move_step; [|move_step]. apply tracks_mod. intros s. apply push_waiting_moves.
  intros m' ->%list_elem_of_singleton. right. by apply Hf.
Qed.

(** The end of a map releases the requests that were pending on it. *)
Lemma moving_release p last :
  moving (mod_pc (fun c => c <| pending_updates_ ::= fun pd =>
           <[p := touch [] last (lookup_or ∅ p pd)]> pd |>) ;;;
         pend <-- pcs (fun c => lookup_or [] last (lookup_or ∅ p (pending_updates_ c))) ;;
         when (negb (bool_decide (pend = [])))
           (mod_pc (fun c => c <| waiting_updates_ ::= fun w => <[p := lookup_or [] p w ++ pend]> w |>
                    <| pending_updates_ ::= fun pd => <[p := delete last (lookup_or ∅ p pd)]> pd |>)) ;;;
         TryRunWaitingJoins p ;;; ret tt).
Proof.
  move_step.
  { apply tracks_mod. intros s. refine (set_pending_moves p last _ s _).
    intros m Hm. left. right. left. by eexists _, _. }
  intros s. wstep. unfold pcs at 1. wstep. wstep. cbn beta.
  set (pend := lookup_or [] last (lookup_or ∅ p (pending_updates_ (pc s)))).
  assert (moves s [] (s <| pc ::= fun c => c <| waiting_updates_ ::= fun w => <[p := lookup_or [] p w ++ pend]> w |>
                    <| pending_updates_ ::= fun pd => <[p := delete last (lookup_or ∅ p pd)]> pd |> |>)) as Hmv.
  { apply moves_queues; [|done..]. intros m [(q & Hm)|[(q & v & Hm)|Hm]]; cbn in Hm; left.
    - destruct (decide (p = q)) as [<-|].
      + rewrite lookup_or_insert in Hm. apply elem_of_app in Hm as [Hm|Hm]; [left; by eexists|right; left; by eexists _, _].
      + rewrite lookup_or_insert_ne in Hm by done. left. by eexists.
    - right. left. destruct (decide (p = q)) as [<-|].
      + rewrite lookup_or_insert in Hm. exists p, v. destruct (decide (last = v)) as [<-|].
        * unfold lookup_or in Hm at 1. rewrite lookup_delete_eq in Hm. by apply elem_of_nil in Hm.
        * unfold lookup_or in Hm at 1. rewrite lookup_delete_ne in Hm by done. exact Hm.
      + rewrite lookup_or_insert_ne in Hm by done. by eexists _, _.
    - by right; right. }
  assert (moving (TryRunWaitingJoins p ;;; ret tt)) as Hk by solve_moving.
  wstep.
  - unfold mod_pc. wstep. eapply wp_mono; [apply Hk|]. intros [] s2 o2 H2. exact (track_trans _ _ _ _ _ Hmv H2).
  - eapply wp_mono; [apply Hk|]. by intros [] s2 o2 H2.
Qed.

Lemma moving_FinishMap p u : moving (FinishMap p u).
Proof.
  unfold FinishMap. move_step; [move_step|]. move_step.
  { apply tracks_mod. intros s. destruct (stop_updateing_partitions_ (pc s) !! p) as [[]|] eqn:E;
      (apply moves_queues; [|done|cbn; by rewrite E|done]); intros m Hm; left; cbn in Hm; by rewrite E in Hm. }
  move_step; [move_step|]. move_step; [|move_step]. move_step; [move_step|]. move_step; [move_step|].
  move_step; [|move_step]. move_step. apply moving_release.
Qed.

Lemma moving_Process m : msg_wf m -> (forall m', m = kReceiveJoin m' -> In m') ->
  (forall m', vs_is_fetch (vj_meta m') = true -> In m') -> moving (Process m).
Proof.
  intros Hm Hj Hf. destruct m as [sp| |p u|p v us|v|m|fm bin sd rc|p u|p|mm body| |t|l]; cbn [Process]; try done.
  - unfold StartPlan. solve_moving.
  - apply moving_FinishMap.
  - unfold FinishJoin, CalcJoinTrackerSize, TryCheckpoint. solve_moving.
  - unfold UpdateVersion. solve_moving.
  - by apply moving_ReceiveJoin, Hj.
  - by apply moving_ReceiveFetchRequest.
  - unfold FinishFetch. solve_moving.
  - unfold FinishCheckpoint. solve_moving.
Qed.
End Moves.

(** ** What requests, tasks and partitions carry *)

Section Carry.
Context {P Stream E : Type} `{UC : UserCode P Stream} `{EL : !EventLog P Stream E} `{IO : IterOrder}.
Abbreviation NodeS := (NodeSt P Stream).
Abbreviation outs := (list (out P Stream)).
Abbreviation Comp := (M NodeS (out P Stream)).
Abbreviation streams := (gmap (Z * list Z * Z) Stream).

(** The events of an update. *)
Context (ev : jtok -> list E).

(** A join carries the events of its updates: in its message, or, when it stays on the node, in
    the stream store. *)
Definition carried (ss : streams) (m : VersionedJoinMeta) : Prop :=
  if vs_is_fetch (vj_meta m) then True
  else if vs_local_mode (vj_meta m)
  then exists x, ss !! stream_key_of (vj_meta m) = Some x /\ stream_log x (meta_jt m ≫= ev)
  else bin_log (vj_bin m) (meta_jt m ≫= ev).
Definition buffered_log (p v : Z) (us : Z * Stream) : Prop := stream_log us.2 (ev (p, v, us.1)).
Definition output_log (u v : Z) (o : list Stream) : Prop :=
  forall q x, o !! q = Some x -> stream_log x (ev (Z.of_nat q, v, u)).
Definition task_carries (ss : streams) (t : task P Stream) : Prop :=
  match t with
  | TJoin m => carried ss m
  | TCombine p v l => Forall (buffered_log p v) l
  | TMapped u v o => output_log u v o
  | _ => True
  end.
Definition msg_carries (ss : streams) (m : ctrl_msg) : Prop :=
  match m with kReceiveJoin m => carried ss m | _ => True end.
Definition out_carries (ss : streams) (o : out P Stream) : Prop :=
  match o with
  | Submit t => task_carries ss t
  | Push m => msg_carries ss m
  | Send _ _ m => msg_carries ∅ m
  | _ => True
  end.

(** The streams in the stream store. *)
Definition streams_of (s : NodeS) : streams := stream_store_ (stream_store (pc s)).
Definition store_carries (s : NodeS) : Prop :=
  forall p v us, us ∈ lookup_or [] v (store_cell p (store_ (pc s))) -> buffered_log p v us.

Lemma carried_mono (ss ss' : streams) m :
  (forall x, vs_is_fetch (vj_meta m) = false -> vs_local_mode (vj_meta m) = true ->
     ss !! stream_key_of (vj_meta m) = Some x -> ss' !! stream_key_of (vj_meta m) = Some x) ->
  carried ss m -> carried ss' m.
Proof.
  intros Hs. unfold carried. destruct (vs_is_fetch _); [done|]. destruct (vs_local_mode _); [|done].
  intros (x & Hx & Hl). eauto.
Qed.

(** ** Handlers *)

Definition log_moves (s : NodeS) (os : outs) (s' : NodeS) : Prop :=
  (forall m, waits (pc s) m -> carried (streams_of s) m) ->
  (forall m, waits (pc s') m -> carried (streams_of s') m) /\ Forall (out_carries (streams_of s')) os /\
  streams_of s' = streams_of s /\ store_ (pc s') = store_ (pc s) /\ same_store (pm s') (pm s) /\ applied os = [].

Lemma Process_log m s s' os :
  msg_wf m -> msg_carries (streams_of s) m -> Process m s = Ok (tt, s', os) -> log_moves s os s'.
Proof.
  intros Hwf Hm Hr Hs. set (In := carried (streams_of s)).
  destruct (tracks_Ok _ _ _ _ _ _ (moving_Process In m Hwf ltac:(intros m' ->; exact Hm)
    ltac:(intros m' Hf; unfold In, carried; by rewrite Hf)) Hr Hs) as (Hs' & Ho & [= E1 E2] & Hp).
  assert (streams_of s' = streams_of s) as Es by (unfold streams_of; by rewrite E1).
  rewrite Es. split_and!; try done.
  - eapply Forall_impl; [exact Ho|]. intros [| |mm|mm| |tk|]; try done; [by destruct m0|by destruct mm|by destruct tk].
  - unfold applied. clear -Ho. induction Ho as [|o os Ho _ IH]; [done|]. cbn. rewrite IH.
    destruct o as [| |mm|mm| |tk|]; try done. by destruct mm.
Qed.

(** ** Tasks that pass streams on *)

Definition queues (c : PC Stream) := (waiting_updates_ c, pending_updates_ c, buffered_requests_ c).
Definition parts_kept (q q' : PartitionManager P) : Prop :=
  forall c p x', store_lookup q' c p = Some x' ->
    exists x, store_lookup q c p = Some x /\ forall x0 l, part_log x0 x l -> part_log x0 x' l.
Definition passes (s : NodeS) (os : outs) (s' : NodeS) : Prop :=
  store_carries s ->
  store_carries s' /\ Forall (out_carries (streams_of s')) os /\ queues (pc s') = queues (pc s) /\
  streams_of s ⊆ streams_of s' /\ parts_kept (pm s) (pm s') /\ applied os = [].
Abbreviation passing := (tracks (P := P) (Stream := Stream) passes).

Lemma parts_kept_refl q : parts_kept q q.
Proof. intros c p x Hx. eauto. Qed.
Lemma parts_kept_same q q' : same_store q' q -> parts_kept q q'.
Proof. intros Hq c p x Hx. rewrite (Hq c p) in Hx. eauto. Qed.
Lemma parts_kept_trans q1 q2 q3 : parts_kept q1 q2 -> parts_kept q2 q3 -> parts_kept q1 q3.
Proof.
  intros H1 H2 c p x3 H3. destruct (H2 _ _ _ H3) as (x2 & Hx2 & L2). destruct (H1 _ _ _ Hx2) as (x1 & Hx1 & L1). eauto.
Qed.

Lemma out_carries_mono (ss ss' : streams) o : ss ⊆ ss' -> out_carries ss o -> out_carries ss' o.
Proof.
  intros Hs. assert (forall m, carried ss m -> carried ss' m) as Hc.
  { intros m. apply carried_mono. intros x _ _ Hx. by eapply lookup_weaken. }
  destruct o as [| |m|m| |t|]; try done; [destruct m; try done; apply Hc|destruct t; try done; apply Hc].
Qed.

#[global] Instance passes_tracking : Tracking passes.
Proof.
  split.
  { intros s Hs. split_and!; try done. apply parts_kept_refl. }
  intros s1 s2 s3 os os' H1 H2 Hs. destruct (H1 Hs) as (Hs2 & Ho1 & Q1 & T1 & P1 & A1).
  destruct (H2 Hs2) as (Hs3 & Ho2 & Q2 & T2 & P2 & A2). split_and!; [done| |congruence|by etransitivity|by eapply parts_kept_trans|].
  - apply Forall_app. split; [|done]. eapply Forall_impl; [exact Ho1|]. intros o. by apply out_carries_mono.
  - unfold applied in *. by rewrite bind_app, A1, A2.
Qed.

Lemma passes_skip (s : NodeS) os (s' : NodeS) :
  (queues (pc s'), streams_of s', store_ (pc s')) = (queues (pc s), streams_of s, store_ (pc s)) ->
  parts_kept (pm s) (pm s') -> Forall (out_carries (streams_of s')) os -> applied os = [] -> passes s os s'.
Proof.
  intros [= E1 E2 E3 E4 E5] Hp Ho Ha Hs. split_and!; [|done| |by rewrite E4|done|done].
  - unfold store_carries. by rewrite E5.
  - unfold queues. by rewrite E1, E2, E3.
Qed.
Lemma passing_pm {A} (m : M (PartitionManager P) Empty_set A) :
  (forall q, wp any m q (fun _ q' _ => same_store q' q)) -> passing (on_pm m).
Proof.
  intros Hm. apply tracks_on_pm. intros s. eapply wp_mono; [apply Hm|]. intros a q os Hq.
  apply passes_skip; [done|by apply parts_kept_same|done|done].
Qed.
Lemma passing_Has c p : passing (on_pm (pm_Has c p)).
Proof. apply passing_pm. intros q. by apply pm_Has_spec. Qed.
Lemma passing_Get c p : passing (on_pm (pm_Get c p)).
Proof. apply passing_pm. intros q. apply pm_Get_spec; [|done]. by intros x q' _ Hq. Qed.
Hint Resolve passing_Has passing_Get : track_db.

Ltac pass_skip :=
  intros; apply passes_skip; [cbn; repeat case_match; reflexivity|apply parts_kept_refl|repeat constructor; done|done].
Ltac pass_step := track_step_with pass_skip.
Ltac solve_passing := repeat pass_step.

Lemma passing_Prepare p v us x : us <> [] -> stream_log x (ups_jt p v us ≫= ev) -> passing (PrepareMsgAndSend p v us x).
Proof.
  intros Hus Hx. unfold PrepareMsgAndSend, cmap_Lookup, cmap_Get, mapper_Get. pass_step; [pass_step|].
  pass_step; [solve_passing|]. set (meta := {| vs_plan_id := _ |}).
  assert (forall bin, meta_jt {| vj_meta := meta; vj_bin := bin |} = ups_jt p v us) as Hjt.
  { intros bin. unfold meta_jt, join_ids. cbn. by destruct us. }
  assert (stream_key_of meta = (p, us, v)) as Hk by (unfold stream_key_of; cbn; by destruct us).
  pass_step.
  - intros s. wstep. apply zoom_wp. unfold ss_Insert. wsteps. apply bool_decide_eq_true in Hck.
    match goal with |- passes _ _ ?s2 => set (s' := s2) end. intros Hs.
    assert (streams_of s' = <[(p, us, v) := x]> (streams_of s)) as Es by done.
    split_and!; [done| |done| |apply parts_kept_refl|done].
    + apply Forall_singleton. unfold out_carries, msg_carries, carried. cbn [vj_meta]. rewrite Hjt, Hk, Es. cbn.
      exists x. by rewrite lookup_insert_eq.
    + rewrite Es. by apply insert_subseteq.
  - apply tracks_emit. intros s. apply passes_skip; [done|apply parts_kept_refl| |done]. apply Forall_singleton.
    unfold out_carries, msg_carries, carried. cbn [vj_meta vj_bin]. rewrite Hjt. by apply log_serialize.
Qed.

Lemma passing_store p (cell : gmap Z (list (Z * Stream))) : 0 <= p ->
  (forall w us, us ∈ lookup_or [] w cell -> buffered_log p w us) ->
  passing (mod_pc (fun c => c <| store_ ::= <[Z.to_nat p := cell]> |>)).
Proof.
  intros Hp Hc. apply tracks_mod. intros s Hs. split_and!; try done; [|apply parts_kept_refl].
  intros q w us. cbn. destruct (decide (Z.to_nat p < length (store_ (pc s)))%nat) as [Hlt|Hge].
  - rewrite store_cell_insert by done. case_decide as Hd; [subst; apply Hc|apply Hs].
  - rewrite list_insert_ge by lia. apply Hs.
Qed.

Lemma wp_passes {A} (m : Comp A) : (forall s, store_carries s -> wp any m s (fun _ s' os => passes s os s')) -> passing m.
Proof.
  intros Hm s. unfold wp. destruct (m s) as [[[a s'] os]|e] eqn:Er; [|done]. intros Hs.
  specialize (Hm s Hs). unfold wp in Hm. rewrite Er in Hm. by apply Hm.
Qed.

Lemma passing_Submit t : (forall ss, task_carries ss t) -> passing (emit (Submit t)).
Proof.
  intros Ht. apply tracks_emit. intros s. apply passes_skip; [done|apply parts_kept_refl| |done]. apply Forall_singleton, Ht.
Qed.

Lemma passing_AddStream u v p x : 0 <= p -> stream_log x (ev (p, v, u)) -> passing (AddStream u v p x).
Proof.
  intros Hp Hx. apply wp_passes. intros s Hs. unfold AddStream. wstep. wstep. wstep; [|wstep].
  - apply passing_Prepare; [done|]. cbn. by rewrite app_nil_r.
  - apply passing_Submit. intros ss. by apply Forall_singleton.
  - wstep. wstep. set (l := lookup_or [] v x0 ++ [(u, x)]).
    assert (store_cell p (store_ (pc s)) = x0) as Hcell.
    { unfold store_cell. rewrite (proj2 (Z.leb_le _ _)) by done. by rewrite Hx0. }
    assert (forall w us, us ∈ lookup_or [] w x0 -> buffered_log p w us) as Hold.
    { intros w us Hin. apply Hs. by rewrite Hcell. }
    assert (Forall (buffered_log p v) l) as Hl.
    { apply Forall_app. split; [|by apply Forall_singleton]. apply Forall_forall. intros us. apply Hold. }
    wstep.
    + enough (passing (emit (Submit (TCombine p v l)) ;;; mod_pc (fun c => c <| store_ ::= <[Z.to_nat p := delete v x0]> |>)))
        as Hk by apply Hk.
      pass_step; [by apply passing_Submit|]. apply passing_store; [done|]. intros w us.
      destruct (decide (v = w)) as [<-|]; unfold lookup_or at 1.
      * rewrite lookup_delete_eq. set_solver.
      * rewrite lookup_delete_ne by done. apply Hold.
    + enough (passing (mod_pc (fun c => c <| store_ ::= <[Z.to_nat p := <[v := l]> x0]> |>))) as Hk by apply Hk.
      apply passing_store; [done|]. intros w us. destruct (decide (v = w)) as [<-|].
      * rewrite lookup_or_insert. by apply Forall_forall.
      * rewrite lookup_or_insert_ne by done. apply Hold.
Qed.

Lemma elem_of_indexed {A} (l : list A) i x : (i, x) ∈ zip (seqZ 0 (Z.of_nat (length l))) l ->
  0 <= i /\ l !! Z.to_nat i = Some x.
Proof.
  intros [k Hk]%list_elem_of_lookup. apply lookup_zip_with_Some in Hk as (i' & x' & [= -> ->] & Hi & Hx).
  apply lookup_seqZ in Hi as [-> Hk]. split; [lia|]. by rewrite Z.add_0_l, Nat2Z.id.
Qed.

Lemma passing_AddMapOutput u v o : output_log u v o -> passing (AddMapOutput u v o).
Proof.
  intros Ho. unfold AddMapOutput. pass_step; [pass_step|]. pass_step; [pass_step|]. pass_step. destruct x as [i x].
  match goal with Hin : _ ∈ _ |- _ => apply elem_of_indexed in Hin as [Hi Hx] end.
  pass_step; [pass_step|]. pass_step; [pass_step|]. apply passing_AddStream; [done|].
  specialize (Ho _ _ Hx). by rewrite Z2Nat.id in Ho by done.
Qed.

Lemma append_log p v l x la : stream_log x la -> Forall (buffered_log p v) l ->
  stream_log (foldl (fun acc us => stream_DoAppend acc us.2) x l) (la ++ (ups_jt p v l.*1 ≫= ev)).
Proof.
  intros Hx Hl. revert x la Hx. induction Hl as [|us l Hus Hl IH]; intros x la Hx; [by rewrite app_nil_r|].
  cbn. rewrite app_assoc. apply IH. by apply log_append.
Qed.

Lemma passing_run_combine p v l : Forall (buffered_log p v) l -> passing (run_combine p v l).
Proof.
  intros Hl. unfold run_combine. pass_step; [pass_step|]. destruct l as [|[u x] l]; [pass_step|].
  apply Forall_cons in Hl as [Hx Hl]. apply passing_Prepare; [done|]. apply log_combine. by apply append_log.
Qed.

Lemma passing_PeriodicCombine : passing PeriodicCombine.
Proof.
  apply wp_passes. intros s Hs. unfold PeriodicCombine. wstep. wstep.
  enough (passing (for_each (zip (seqZ 0 (Z.of_nat (length (store_ (pc s))))) (store_ (pc s))) (fun pv =>
    for_each (entries pv.2) (fun vs =>
      when (negb (bool_decide (vs.2 = []))) (emit (Submit (TCombine pv.1 vs.1 vs.2)))) ;;;
    mod_pc (fun c => c <| store_ ::= <[Z.to_nat pv.1 := ∅]> |>)))) as Hk by apply Hk.
  pass_step. destruct x as [i cell].
  match goal with Hin : _ ∈ _ |- _ => apply elem_of_indexed in Hin as [Hi Hx] end. cbn [fst snd].
  pass_step.
  - pass_step. destruct x as [w l]. pass_step. apply passing_Submit. intros ss. apply Forall_forall. intros us Hus.
    match goal with Hin : _ ∈ entries _ |- _ => apply elem_of_entries in Hin; rename Hin into Hw end.
    apply Hs. unfold store_cell. rewrite (proj2 (Z.leb_le _ _)), Hx by done. cbn. by rewrite (lookup_or_Some _ _ _ _ Hw).
  - apply passing_store; [done|]. intros w us. unfold lookup_or. rewrite lookup_empty. set_solver.
Qed.

Lemma passing_run_fetch m v : passing (run_fetch m v).
Proof.
  intros s. unfold run_fetch. wstep. wstep. wstep. apply zoom_wp, pm_Has_spec. wstep. wstep. wstep.
  apply zoom_wp, pm_Get_spec; [|done]. intros x q' Hx Hq. wstep.
  assert (forall os (s' : NodeS), Forall (out_carries (streams_of s')) os -> applied os = [] -> parts_kept (pm s) (pm s') ->
    pc s' = pc s -> passes s os s') as Hend.
  { intros os s' Ho Ha Hp Epc. apply passes_skip; try done. unfold streams_of. by rewrite Epc. }
  wstep.
  - wstep. unfold get_fn. destruct (fn_Getter (vs_collection_id (vj_meta m))) as [f|] eqn:Ef; [|by wstep]. wstep.
    destruct (f (vj_bin m) x) as [bin x'] eqn:Efx. wstep. apply zoom_wp, pm_Insert_spec. intros q2 Hq2. wsteps.
    apply Hend; [by repeat constructor|done| |done].
    intros c p y Hy. cbn in Hy. rewrite Hq2 in Hy. case_decide as Hd.
    + destruct Hd as [-> ->]. injection Hy as <-. exists x. split; [done|]. intros x0 l Hl.
      pose proof (log_getter _ f x0 x l (vj_bin m) Ef Hl) as Hg. by rewrite Efx in Hg.
    + cbn in Hy. rewrite (Hq c p) in Hy. eauto.
  - wsteps. apply Hend; [by repeat constructor|done| |done]. by apply parts_kept_same.
Qed.

(** ** Every task but a join passes on what it was given *)

Definition fresh_outputs (os : outs) : Prop := forall u v o, Submit (TMapped u v o) ∈ os -> output_log u v o.

Lemma run_task_passes t s s' os :
  (forall m, t <> TJoin m) -> task_carries (streams_of s) t -> fresh_outputs os ->
  run_task t s = Ok (tt, s', os) -> passes s os s'.
Proof.
  intros Hj Ht Hf Hr. destruct t as [p v x|p v o|m|m v|p url|p v l]; cbn [run_task task_carries] in *.
  - revert Hf. refine (wp_Ok any _ _ _ _ _ (fun _ s' os => fresh_outputs os -> passes s os s') Hr _).
    unfold run_map. wstep. wstep. wstep.
    { wstep. intros _. pass_skip. }
    wstep. unfold get_fn. destruct (type_ (pc s)); try by wstep.
    + destruct (fn_Map _) as [f|]; [|by wsteps]. wsteps. intros Hf. apply passes_skip; [done|apply parts_kept_refl| |done].
      apply Forall_singleton. apply Hf. left.
    + destruct (fn_MapWith _) as [f|]; [|by wsteps]. wsteps. intros Hf. apply passes_skip; [done|apply parts_kept_refl| |done].
      apply Forall_singleton. apply Hf. left.
  - eapply tracks_Ok; [|exact Hr]. unfold run_mapped. pass_step; [pass_step|]. pass_step; [pass_step|].
    pass_step; [by apply passing_AddMapOutput|pass_step].
  - by destruct (Hj m).
  - eapply tracks_Ok; [|exact Hr]. apply passing_run_fetch.
  - eapply tracks_Ok; [|exact Hr]. unfold run_checkpoint. solve_passing.
  - eapply tracks_Ok; [|exact Hr]. by apply passing_run_combine.
Qed.

(** ** Joins *)

(** The events of partition [p] among the updates applied. *)
Definition events_at (p : Z) (os : outs) : list E := filter (fun t => jpart t = p) (applied os) ≫= ev.

Definition finished (m : VersionedJoinMeta) : outs :=
  [Push (kFinishJoin (vs_part_id (vj_meta m)) (vs_version (vj_meta m)) (join_ids (vj_meta m)))].
Lemma events_finished m p : vs_is_fetch (vj_meta m) = false ->
  events_at p (finished m) = if decide (p = vs_part_id (vj_meta m)) then meta_jt m ≫= ev else [].
Proof.
  intros Hnf. assert (applied (finished m) = meta_jt m) as Happ.
  { unfold applied, finished, meta_jt, ups_jt. cbn. by rewrite Hnf, app_nil_r. }
  unfold events_at. rewrite Happ. case_decide as Hd.
  - rewrite filter_all; [done|]. intros t (Hp & _)%elem_of_meta_jt. congruence.
  - rewrite filter_none; [done|]. intros t (Hp & _)%elem_of_meta_jt. congruence.
Qed.

Definition joins (m : VersionedJoinMeta) (s : NodeS) (os : outs) (s' : NodeS) : Prop :=
  queues (pc s') = queues (pc s) /\ store_ (pc s') = store_ (pc s) /\ os = finished m /\
  (forall k, k <> stream_key_of (vj_meta m) -> streams_of s' !! k = streams_of s !! k) /\
  is_Some (store_lookup (pm s) (update_collection_id_ (pc s)) (vs_part_id (vj_meta m))) /\
  (forall p x', store_lookup (pm s') (update_collection_id_ (pc s)) p = Some x' ->
     exists x, store_lookup (pm s) (update_collection_id_ (pc s)) p = Some x /\
     forall x0 l, part_log x0 x l -> part_log x0 x' (l ++ events_at p os)).

(** The part of the task that updates the partition. *)
Lemma join_write m uc (s s1 : NodeS) (upd : P -> P) :
  uc = update_collection_id_ (pc s) -> vs_is_fetch (vj_meta m) = false -> pm s1 = pm s ->
  queues (pc s1) = queues (pc s) -> store_ (pc s1) = store_ (pc s) ->
  (forall k, k <> stream_key_of (vj_meta m) -> streams_of s1 !! k = streams_of s !! k) ->
  (forall x0 x l, part_log x0 x l -> part_log x0 (upd x) (l ++ (meta_jt m ≫= ev))) ->
  wp any (h <-- on_pm (pm_Has uc (vs_part_id (vj_meta m))) ;;
    check h "partition_manager->Has(update_collection_id_, part_id)" ;;;
    p <-- on_pm (pm_Get uc (vs_part_id (vj_meta m))) ;;
    on_pm (pm_Insert uc (vs_part_id (vj_meta m)) (upd p)) ;;;
    emit (Push (kFinishJoin (vs_part_id (vj_meta m)) (vs_version (vj_meta m)) (join_ids (vj_meta m))))) s1
    (fun _ s' os => joins m s os s').
Proof.
  intros -> Hnf Epm Eq Est Hk Hupd. wstep. apply zoom_wp, pm_Has_spec. wstep. wstep. wstep.
  apply zoom_wp, pm_Get_spec; [|done]. intros x q1 Hx Hq1. wstep. apply zoom_wp, pm_Insert_spec. intros q2 Hq2. wstep.
  unfold joins. split_and!; try done; [rewrite <- Epm; by eexists|].
  intros p x' Hx'. cbn in Hx'. rewrite Hq2 in Hx'. setoid_rewrite (events_finished m p Hnf). case_decide as Hd.
  - destruct Hd as [_ ->]. injection Hx' as <-. exists x. split; [by rewrite <- Epm|]. intros x0 l Hl.
    rewrite decide_True by done. by apply Hupd.
  - rewrite (Hq1 _ p) in Hx'. cbn in Hx'. rewrite Epm in Hx'. exists x'. split; [done|]. intros x0 l Hl.
    rewrite decide_False by naive_solver. by rewrite app_nil_r.
Qed.

Lemma run_join_joins m s s' os :
  vs_is_fetch (vj_meta m) = false -> carried (streams_of s) m -> run_join m s = Ok (tt, s', os) -> joins m s os s'.
Proof.
  intros Hnf Hc Hr. refine (wp_Ok any _ _ _ _ _ (fun _ s' os => joins m s os s') Hr _). clear Hr s' os.
  unfold run_join. wstep. wstep. unfold carried in Hc. rewrite Hnf in Hc.
  wstep. wstep.
  - rewrite Hif in Hc. destruct Hc as (x & Hx & Hl). wstep. apply zoom_wp. unfold ss_Get. wsteps.
    unfold streams_of in Hx. assert (x0 = x) as -> by congruence. apply zoom_wp. unfold ss_Remove. wsteps.
    unfold get_fn. destruct (fn_Join2 _) as [f|] eqn:Ef; [|by wsteps]. wstep. wstep.
    apply join_write; try done.
    + intros k Hk. unfold streams_of. cbn. by rewrite lookup_delete_ne by done.
    + intros y0 y l Hy. by eapply log_join2.
  - rewrite Hif in Hc. wstep. unfold get_fn. destruct (fn_Join _) as [f|] eqn:Ef; [|by wsteps]. wstep. wstep.
    apply join_write; try done. intros y0 y l Hy. by eapply log_join.
Qed.
End Carry.
