(* ===== verification/PlanResult.v ===== *)
(** * A plan on a cluster: what the partitions hold

    Companion of [PlanCluster] and [PlanComplete]: every partition of the update collection has
    logged the events of the updates applied to it, each once; at rest these are the events
    of all mapped partitions in all iterations. *)

From S2P Require Import Prelude BinStream Specs Index Messages Partition PlanController PlanFrame PlanExclusion PlanTokens PlanProgress PlanCluster PlanDrain PlanComplete PlanEvents.

Section Result.
Context {P Stream E : Type} `{UC : UserCode P Stream} `{EL : !EventLog P Stream E} `{IO : IterOrder}.
Abbreviation NodeS := (NodeSt P Stream).
Abbreviation outs := (list (out P Stream)).
Abbreviation sysS := (sys (P := P) (Stream := Stream)).
Abbreviation node := (sysS * outs)%type.
Abbreviation clusterS := (cluster (P := P) (Stream := Stream)).
Context (ev : jtok -> list E).
Abbreviation carried := (carried ev).
Abbreviation streams := (gmap (Z * list Z * Z) Stream).

(** ** A node *)

(** The partitions of the update collection on a node. *)
Definition updated_here (n : node) (p : Z) : option P :=
  store_lookup (pm (st n.1)) (update_collection_id_ (pc (st n.1))) p.

(** [start] are the partitions that the node started with. *)
Definition logging (start : Z -> option P) (n : node) : Prop :=
  let ss := streams_of (st n.1) in
  (forall m, waits (pc (st n.1)) m -> carried ss m) /\ store_carries ev (st n.1) /\
  Forall (task_carries ev ss) (pool n.1) /\ Forall (msg_carries ev ss) (queue n.1) /\
  Forall (fun rm => msg_carries ev ∅ rm.2) (sent n.2) /\
  (forall t, t ∈ applied n.2 -> is_Some (start (jpart t))) /\
  (forall p x, updated_here n p = Some x -> exists x0, start p = Some x0 /\ part_log x0 x (events_at ev p n.2)).

Lemma events_at_app p (os os' : outs) : events_at ev p (os ++ os') = events_at ev p os ++ events_at ev p os'.
Proof. unfold events_at, applied. by rewrite bind_app, filter_app, bind_app. Qed.
Lemma events_at_nil p (os : outs) : applied os = [] -> events_at ev p os = [].
Proof. intros Ha. unfold events_at. by rewrite Ha. Qed.

Lemma submitted_carries ss (os : outs) : Forall (out_carries ev ss) os -> Forall (task_carries ev ss) (submitted os).
Proof.
  intros Ho. apply Forall_forall. intros t Ht%elem_of_submitted. rewrite Forall_forall in Ho. exact (Ho _ Ht).
Qed.
Lemma pushed_carries ss (os : outs) : Forall (out_carries ev ss) os -> Forall (msg_carries ev ss) (pushed os).
Proof.
  intros Ho. apply Forall_forall. intros t Ht%elem_of_pushed. rewrite Forall_forall in Ho. exact (Ho _ Ht).
Qed.

Lemma sent_carries ss (os : outs) : Forall (out_carries ev ss) os -> Forall (fun rm => msg_carries ev ∅ rm.2) (sent os).
Proof.
  intros Ho. apply Forall_forall. intros [r m] (o & Hin & E1)%list_elem_of_omap. rewrite Forall_forall in Ho.
  specialize (Ho o Hin). destruct o; by simplify_eq.
Qed.
Lemma sent_app (os os' : outs) : sent (os ++ os') = sent os ++ sent os'.
Proof. apply omap_app. Qed.

(** Running a computation and absorbing its outputs into the rest [s1]. *)
Lemma logging_computes start s tr os s1 :
  let ss' := streams_of (st s1) in
  (forall m, waits (pc (st s1)) m -> carried ss' m) -> store_carries ev (st s1) ->
  Forall (task_carries ev ss') (pool s1) -> Forall (msg_carries ev ss') (queue s1) ->
  Forall (out_carries ev ss') os -> Forall (fun rm => msg_carries ev ∅ rm.2) (sent tr) ->
  (forall t, t ∈ applied tr \/ t ∈ applied os -> is_Some (start (jpart t))) ->
  (forall p x0 x, start p = Some x0 -> updated_here (s, tr) p = Some x -> part_log x0 x (events_at ev p tr)) ->
  (forall p x', updated_here (s1, tr) p = Some x' -> exists x x0, updated_here (s, tr) p = Some x /\ start p = Some x0 /\
     forall l, part_log x0 x l -> part_log x0 x' (l ++ events_at ev p os)) ->
  logging start (absorb os s1, tr ++ os).
Proof.
  intros ss' Hw Hst Hp Hq Ho Hsent Ha Hlog Hstep. split_and!; cbn [fst snd st pool queue absorb].
  - done.
  - done.
  - apply Forall_app. split; [done|by apply submitted_carries].
  - apply Forall_app. split; [done|by apply pushed_carries].
  - rewrite sent_app. apply Forall_app. split; [done|by eapply sent_carries].
  - intros t. unfold applied. rewrite bind_app. intros Ht%elem_of_app. by apply Ha.
  - intros p x' Hx'. destruct (Hstep p x' Hx') as (x & x0 & Hx & H0 & Hl). exists x0. split; [done|].
    rewrite events_at_app. apply Hl. by apply Hlog.
Qed.

(** A request that waits holds its updates. *)
Lemma waits_held Ap (c : PC Stream) m t : steady Ap c -> waits c m -> t ∈ meta_jt m -> 0 < held t c.
Proof.
  intros (_ & Hw & Hp & Hb & _) Hm Ht. pose proof (elem_of_meta_jt _ _ Ht) as (Hpt & Hvt & _).
  assert (forall l, m ∈ l -> 0 < cnt t (metas_jt l)) as Hpos.
  { intros l Hl. apply cnt_pos, list_elem_of_bind. eauto. }
  unfold held, in_queue, in_pending, in_store. destruct t as [[p v] u]. cbn [jpart jversion fst snd] in *.
  pose proof (cnt_nonneg (p, v, u) (metas_jt (lookup_or [] p (waiting_updates_ c)))).
  pose proof (cnt_nonneg (p, v, u) (metas_jt (lookup_or [] v (lookup_or ∅ p (pending_updates_ c))))).
  pose proof (cnt_nonneg (p, v, u) (metas_jt (lookup_or [] p (buffered_requests_ c)))).
  pose proof (cnt_nonneg (p, v, u) (ups_jt p v (lookup_or [] v (store_cell p (store_ c))).*1)).
  destruct Hm as [(q & Hm)|[(q & w & Hm)|(q & Hm)]].
  - destruct (Hw _ _ Hm) as [Hq _]. assert (q = p) as -> by congruence. specialize (Hpos _ Hm). lia.
  - destruct (Hp _ _ _ Hm) as [[Hq _] Hv]. assert (q = p) as -> by congruence. assert (w = v) as -> by congruence.
    specialize (Hpos _ Hm). lia.
  - destruct (Hb _ _ Hm) as [Hq _]. assert (q = p) as -> by congruence. specialize (Hpos _ Hm). lia.
Qed.

(** Joins with the same key in the stream store bring the same updates. *)
Lemma same_key_updates m m' : vs_is_fetch (vj_meta m) = false -> vs_is_fetch (vj_meta m') = false ->
  stream_key_of (vj_meta m') = stream_key_of (vj_meta m) -> exists t, t ∈ meta_jt m /\ t ∈ meta_jt m'.
Proof.
  intros Hf Hf' Hk. unfold meta_jt. rewrite Hf, Hf'.
  change (stream_key_of (vj_meta m)) with (vs_part_id (vj_meta m), join_ids (vj_meta m), vs_version (vj_meta m)) in Hk.
  change (stream_key_of (vj_meta m')) with (vs_part_id (vj_meta m'), join_ids (vj_meta m'), vs_version (vj_meta m')) in Hk.
  injection Hk as -> -> ->. assert (exists u, u ∈ join_ids (vj_meta m)) as [u Hu].
  { unfold join_ids. destruct (vs_ext_upstream_part_ids _) as [|u l]; eexists; left. }
  eexists. split; (apply list_elem_of_fmap; by exists u).
Qed.

(** No two joins on a node have the same key: an update is in one place. *)
Lemma other_keys Ap (s : sysS) l1 l2 m m' :
  steady Ap (pc (st s)) -> (forall t, on_node t s <= 1) -> pool s = l1 ++ TJoin m :: l2 ->
  vs_is_fetch (vj_meta m) = false -> vs_is_fetch (vj_meta m') = false ->
  waits (pc (st s)) m' \/ TJoin m' ∈ l1 ++ l2 \/ kReceiveJoin m' ∈ queue s ->
  stream_key_of (vj_meta m') <> stream_key_of (vj_meta m).
Proof.
  intros Hst Hon Hpl Hf Hf' Hm' Hk. destruct (same_key_updates m m' Hf Hf' Hk) as (t & Ht & Ht').
  specialize (Hon t). unfold on_node in Hon. rewrite Hpl, bind_app in Hon. cbn [mbind list_bind task_jt] in Hon.
  rewrite !cnt_app in Hon. apply cnt_pos in Ht as Hpos.
  assert (0 <= held t (pc (st s))) as Hh.
  { unfold held, in_queue, in_pending, in_store.
    repeat match goal with |- context [cnt t ?l] => pose proof (cnt_nonneg t l); generalize dependent (cnt t l); intros end. lia. }
  pose proof (cnt_nonneg t (l1 ≫= task_jt)). pose proof (cnt_nonneg t (l2 ≫= task_jt)). pose proof (cnt_nonneg t (queue s ≫= msg_jt)).
  destruct Hm' as [Hw|[Hp|Hq]].
  - pose proof (waits_held Ap _ _ _ Hst Hw Ht'). change (0 < cnt t (meta_jt m)) in Hpos. lia.
  - assert (0 < cnt t ((l1 ++ l2) ≫= task_jt)) as Hin by (apply cnt_pos, list_elem_of_bind; by exists (TJoin m')).
    rewrite bind_app, cnt_app in Hin. lia.
  - assert (0 < cnt t (queue s ≫= msg_jt)) as Hin by (apply cnt_pos, list_elem_of_bind; by exists (kReceiveJoin m')). lia.
Qed.

Lemma carried_others (ss ss' : streams) k m :
  (forall k', k' <> k -> ss' !! k' = ss !! k') ->
  (vs_is_fetch (vj_meta m) = false -> stream_key_of (vj_meta m) <> k) -> carried ss m -> carried ss' m.
Proof. intros Hs Hk. apply carried_mono. intros x Hf _ Hx. rewrite Hs; [done|by apply Hk]. Qed.

Lemma waits_queues (c c' : PC Stream) m : queues c' = queues c -> waits c' m -> waits c m.
Proof. unfold queues, waits. intros [= -> -> ->]. done. Qed.

Lemma join_step start Ap Here s tr os l1 m l2 st' :
  node_ok Ap Here (s, tr) -> (forall t, on_node t s <= 1) -> logging start (s, tr) ->
  pool s = l1 ++ TJoin m :: l2 -> run_join m (st s) = Ok (tt, st', os) ->
  constants st' = constants (st s) ->
  logging start (absorb os {| st := st'; pool := l1 ++ l2; queue := queue s; later := later s; grants := grants s |}, tr ++ os).
Proof.
  intros (_ & Hst & _ & Hq & _ & Hwf & _) Hon (Lw & Ls & Lp & Lq & Lt & La & Lx) Hpl Hr Ec. cbn [fst snd] in *.
  rewrite Hpl in Hwf, Lp. apply Forall_app in Hwf as [Hwf1 [[Hnf Hjw] Hwf2]%Forall_cons].
  apply Forall_app in Lp as [Lp1 [Lm Lp2]%Forall_cons]. cbn in Lm.
  destruct (run_join_joins ev m _ _ _ Hnf Lm Hr) as (Eq & Est & -> & Hk & [y Hy] & Hx).
  assert (forall m', carried (streams_of (st s)) m' ->
    waits (pc (st s)) m' \/ TJoin m' ∈ l1 ++ l2 \/ kReceiveJoin m' ∈ queue s -> carried (streams_of st') m') as Hoth.
  { intros m' Hc Hin. eapply carried_others; [exact Hk| |exact Hc]. intros Hf'. by eapply other_keys. }
  eapply logging_computes; cbn [st pool queue].
  - intros m' Hw. apply waits_queues with (c := pc (st s)) in Hw; [|done]. apply Hoth; [by apply Lw|by left].
  - unfold store_carries. by rewrite Est.
  - assert (Forall (task_carries ev (streams_of (st s))) (l1 ++ l2)) as Lp by by apply Forall_app.
    rewrite Forall_forall in Lp. apply Forall_forall. intros t Ht. specialize (Lp t Ht).
    destruct t; try done. apply Hoth; [done|by right; left].
  - rewrite Forall_forall in Lq. apply Forall_forall. intros t Ht. specialize (Lq t Ht).
    destruct t; try done. apply Hoth; [done|by right; right].
  - by repeat constructor.
  - done.
  - intros t [Ht|Ht]; [by apply La|]. apply list_elem_of_bind in Ht as (o & Ht & ->%list_elem_of_singleton).
    apply list_elem_of_fmap in Ht as (u & -> & _). destruct (Lx _ _ Hy) as (x0 & E0 & _). by exists x0.
  - intros p x0 x E0 Ex. destruct (Lx _ _ Ex) as (x1 & E1 & Hl). by simplify_eq.
  - intros p x' Hx'. unfold updated_here in Hx'. cbn [fst st] in Hx'. injection Ec as _ Euc _ _ _ _. rewrite Euc in Hx'.
    destruct (Hx p x' Hx') as (x & Ex & Hl). destruct (Lx _ _ Ex) as (x0 & E0 & _). exists x, x0. split_and!; [done..|auto].
Qed.

(** A computation that passes on what it was given. *)
Lemma passes_step start s tr os s1 :
  logging start (s, tr) -> passes ev (st s) os (st s1) -> constants (st s1) = constants (st s) ->
  (forall t, t ∈ pool s1 -> t ∈ pool s) -> queue s1 = queue s ->
  logging start (absorb os s1, tr ++ os).
Proof.
  intros (Lw & Ls & Lp & Lq & Lt & La & Lx) Hpass Ec Hpl Eq. cbn [fst snd] in *.
  destruct (Hpass Ls) as (Ls' & Ho & Equ & Hsub & Hkept & Ha).
  assert (forall m, carried (streams_of (st s)) m -> carried (streams_of (st s1)) m) as Hmono.
  { intros m. apply carried_mono. intros x _ _ Hx. by eapply lookup_weaken. }
  eapply logging_computes; [..|].
  - intros m Hw. apply Hmono, Lw. by eapply waits_queues.
  - done.
  - apply Forall_forall. intros t Ht. rewrite Forall_forall in Lp. specialize (Lp t (Hpl t Ht)).
    destruct t; try done. by apply Hmono.
  - rewrite Eq. eapply Forall_impl; [exact Lq|]. intros m. destruct m; try done. apply Hmono.
  - done.
  - done.
  - rewrite Ha. intros t [Ht|Ht]; [by apply La|]. by apply elem_of_nil in Ht.
  - intros p x0 x E0 Ex. destruct (Lx _ _ Ex) as (x1 & E1 & Hl). by simplify_eq.
  - intros p x' Hx'. unfold updated_here in Hx'. cbn [fst st] in Hx'. injection Ec as _ Euc _ _ _ _. rewrite Euc in Hx'.
    destruct (Hkept _ p x' Hx') as (x & Ex & Hl). destruct (Lx _ _ Ex) as (x0 & E0 & _). exists x, x0.
    split_and!; [done..|]. intros l. rewrite events_at_nil, app_nil_r by done. apply Hl.
Qed.

Lemma handle_step start s tr os m q st' :
  logging start (s, tr) -> msg_wf m -> queue s = m :: q -> Process m (st s) = Ok (tt, st', os) ->
  constants st' = constants (st s) ->
  logging start (absorb os {| st := st'; pool := pool s; queue := q; later := later s; grants := grants s |}, tr ++ os).
Proof.
  intros (Lw & Ls & Lp & Lq & Lt & La & Lx) Hwf Hqm Hr Ec. cbn [fst snd] in *. rewrite Hqm in Lq. apply Forall_cons in Lq as [Lm Lq].
  destruct (Process_log ev m _ _ _ Hwf Lm Hr Lw) as (Lw' & Ho & Es & Est & Hpm & Ha).
  eapply logging_computes; cbn [st pool queue].
  - done.
  - unfold store_carries. by rewrite Est.
  - by rewrite Es.
  - by rewrite Es.
  - done.
  - done.
  - rewrite Ha. intros t [Ht|Ht]; [by apply La|]. by apply elem_of_nil in Ht.
  - intros p x0 x E0 Ex. destruct (Lx _ _ Ex) as (x1 & E1 & Hl). by simplify_eq.
  - intros p x' Hx'. unfold updated_here in Hx'. cbn [fst st] in Hx'. injection Ec as _ Euc _ _ _ _. rewrite Euc, (Hpm _ p) in Hx'.
    destruct (Lx _ _ Hx') as (x0 & E0 & _). exists x', x0. split_and!; [done..|]. intros l. by rewrite events_at_nil, app_nil_r.
Qed.

Lemma logging_step start Ap Here s tr os s' :
  node_ok Ap Here (s, tr) -> (forall t, on_node t s <= 1) -> logging start (s, tr) ->
  fresh_outputs ev os -> constants (st s') = constants (st s) -> local_step s os s' ->
  logging start (s', tr ++ os).
Proof.
  intros Hok Hon Hlog Hf Ec Hstep. pose proof Hok as (_ & _ & _ & Hq & Hl & _). cbn [fst snd] in *.
  destruct Hstep as [s m q st' os Hqm Hm|s l1 t l2 st' os Hpl Hm|s st' os Hm|s l1 m l2 Hlm|s l1 p l2 u Hg].
  - rewrite Hqm in Hq. apply Forall_cons in Hq as [[Hwf _] _]. by eapply handle_step.
  - assert ((exists m, t = TJoin m) \/ forall m, t <> TJoin m) as [[m ->]|Hnj] by (destruct t; naive_solver).
    + by eapply join_step.
    + eapply passes_step; cbn [st pool queue]; [done| |done| |done].
      * eapply run_task_passes; [|..|exact Hm]; [done| |done].
        destruct Hlog as (_ & _ & Lp & _). cbn in Lp. rewrite Hpl in Lp. by apply Forall_app in Lp as [_ [? _]%Forall_cons].
      * intros t' Ht'. rewrite Hpl. set_solver.
  - eapply passes_step; cbn [st pool queue]; [done| |done|done|done]. eapply tracks_Ok; [apply passing_PeriodicCombine|done].
  - rewrite Hl in Hlm. by destruct l1.
  - rewrite app_nil_r. destruct Hlog as (Lw & Ls & Lp & Lq & Lt & La & Lx). split_and!; try done. cbn [fst queue].
    apply Forall_app. split; [done|]. by repeat constructor.
Qed.
Lemma logging_deliver start s tr m : msg_carries ev ∅ m -> logging start (s, tr) -> logging start (deliver m s, tr).
Proof.
  intros Hm (Lw & Ls & Lp & Lq & Lt & La & Lx). split_and!; try done. cbn. apply Forall_app. split; [done|].
  apply Forall_singleton. destruct m; try done. eapply carried_mono; [|exact Hm]. intros x _ _ Hx. by rewrite lookup_empty in Hx.
Qed.

(** ** The cluster *)

Lemma step_constants Ap Here s tr os s' :
  node_ok Ap Here (s, tr) -> local_step s os s' -> constants (st s') = constants (st s).
Proof.
  intros (_ & _ & _ & Hq & _) Hstep. cbn [fst snd] in *.
  destruct Hstep as [s m q st' os Hqm Hm|s l1 t l2 st' os Hpl Hm|s st' os Hm|s l1 m l2 Hlm|s l1 p l2 u Hg]; [| | |done|done].
  - rewrite Hqm in Hq. apply Forall_cons in Hq as [[Hwf _] _].
    exact (proj1 (tracks_Ok _ _ _ _ _ _ (routing_Process m Hwf) Hm)).
  - exact (proj1 (tracks_Ok _ _ _ _ _ _ (routing_run_task t) Hm)).
  - exact (proj1 (tracks_Ok _ _ _ _ _ _ routing_PeriodicCombine Hm)).
Qed.

Lemma on_node_once (c : clusterS) (n : node) t : cinv c -> n ∈ nodes c -> on_node t n.1 <= 1.
Proof.
  intros (_ & (hs & Hok & Hd) & Hbal) Hn. pose proof (made_once _ _ _ t Hok Hd) as Hle. fold (updates_made t c) in Hle.
  specialize (Hbal t). assert (0 <= updates_applied t c) by (apply sum_over_nonneg; intros; apply cnt_nonneg).
  unfold updates_in_flight in Hbal. pose proof (on_net_nonneg t (net c)).
  apply list_elem_of_split in Hn as (l1 & l2 & En). rewrite En, sum_over_app, sum_over_cons in Hbal.
  pose proof (sum_over_nonneg (fun n : node => on_node t n.1) l1 (fun n => on_node_nonneg t n.1)).
  pose proof (sum_over_nonneg (fun n : node => on_node t n.1) l2 (fun n => on_node_nonneg t n.1)). lia.
Qed.

(** The map tasks of the run emitted the events [ev]. *)
Definition emitted (c : clusterS) : Prop := forall n, n ∈ nodes c -> fresh_outputs ev n.2.

Lemma emitted_before c c' : cstep c c' -> emitted c' -> emitted c.
Proof.
  intros Hstep He n Hn. destruct Hstep as [l1 s tr l2 w os s' Hs|l1 s tr l2 w1 m w2|l1 s tr l2 w m Hm]; cbn [nodes] in *;
    unfold emitted in He; cbn [nodes] in He;
    (apply elem_of_app in Hn as [Hn|[->|Hn]%elem_of_cons]; [apply He; set_solver| |apply He; set_solver]).
  - intros u v o Ho. apply (He (s', tr ++ os)); [set_solver|]. cbn in *. set_solver.
  - apply (He (deliver m s, tr)). set_solver.
  - apply (He (deliver m s, tr)). set_solver.
Qed.

Definition logging_cluster (c0 c : clusterS) : Prop :=
  Forall2 (fun n0 n => logging (updated_here n0) n) (nodes c0) (nodes c) /\
  Forall (fun rm => msg_carries ev ∅ rm.2) (net c).

Lemma cstep_logging c0 c c' : cinv c -> emitted c' -> logging_cluster c0 c -> cstep c c' -> logging_cluster c0 c'.
Proof.
  intros Hinv He [Hl Hnet] Hstep. pose proof Hinv as (_ & (hs & Hn & _) & _).
  destruct Hstep as [l1 s tr l2 w os s' Hs|l1 s tr l2 w1 m w2|l1 s tr l2 w m Hm]; cbn [nodes net] in *;
    apply Forall2_app_inv_r in Hl as (k1 & k2' & Hl1 & Hl' & E0);
    apply Forall2_cons_inv_r in Hl' as (n0 & k2 & Hl0 & Hl2 & ->).
  - destruct (Forall2_lookup_r _ _ _ (length l1) (s, tr) Hn) as (h & _ & Hok); [by rewrite lookup_app_r, Nat.sub_diag|].
    assert (logging (updated_here n0) (s', tr ++ os)) as Hl0'.
    { eapply logging_step; [done| |done| |by eapply step_constants|done].
      - intros t. apply (on_node_once _ (s, tr) t Hinv). cbn. set_solver.
      - intros u v o Ho. apply (He (s', tr ++ os)); [cbn; set_solver|]. cbn. set_solver. }
    split; cbn [nodes net].
    + rewrite E0. apply Forall2_app; [done|]. by constructor.
    + apply Forall_app. split; [done|]. destruct Hl0' as (_ & _ & _ & _ & Lt & _). cbn [snd] in Lt.
      rewrite sent_app in Lt. by apply Forall_app in Lt as [_ ?].
  - apply Forall_app in Hnet as [Hnet1 [Hm Hnet2]%Forall_cons]. split; cbn [nodes net]; [|by apply Forall_app].
    rewrite E0. apply Forall2_app; [done|]. constructor; [by apply logging_deliver|done].
  - split; [|done]. cbn [nodes]. rewrite E0. apply Forall2_app; [done|]. constructor; [|done].
    apply logging_deliver; [|done]. by destruct m.
Qed.

Lemma cinitial_logging sp c0 : cinitial sp c0 -> logging_cluster c0 c0.
Proof.
  intros (Hnet & Hn & _). split; [|by rewrite Hnet].
  apply Forall_Forall2_diag, Forall_forall. intros n Hin. rewrite Forall_forall in Hn.
  destruct (Hn n Hin) as (Htr & q & cm & id & st' & os & Hset & Es).
  set (s0 := {| pc := new_pc; pm := q; cmap := cm; my_id := id |}) in Hset.
  assert (untouched s0) as Hu0 by (unfold untouched; cbn; split_and!; try done; by exists 0%nat).
  pose proof (wp_Ok any _ _ _ _ _ _ Hset (Setup_untouched sp s0 Hu0)) as (_ & Hw & Hp & Hb & _ & _ & (k & Hst) & _).
  assert (st n.1 = st') as Est by (by rewrite Es). split_and!.
  - rewrite Est. unfold waits. rewrite Hw, Hp, Hb. intros m [(p & Hm)|[(p & v & Hm)|(p & Hm)]];
      rewrite !lookup_or_empty in Hm; by apply elem_of_nil in Hm.
  - rewrite Est. unfold store_carries, store_cell. rewrite Hst. intros p v us.
    replace (if 0 <=? p then _ else _) with (∅ : gmap Z (list (Z * Stream))).
    + rewrite lookup_or_empty. set_solver.
    + destruct (0 <=? p); [|done]. destruct (replicate k _ !! _) as [y|] eqn:Ey; [|done].
      by apply lookup_replicate in Ey as [-> _].
  - by rewrite Es.
  - by rewrite Es.
  - by rewrite Htr.
  - rewrite Htr. intros t Ht. by apply elem_of_nil in Ht.
  - rewrite Htr. intros p x Hx. exists x. split; [done|]. apply log_start.
Qed.

Lemma run_logging sp c0 c1 c : crun sp c1 -> logging_cluster c0 c1 -> rtc cstep c1 c -> emitted c -> logging_cluster c0 c.
Proof.
  intros Hc Hl Hr He. assert (forall a b, rtc cstep a b -> emitted b -> emitted a) as Hback.
  { intros a b Hab. induction Hab as [|a b d Hab _ IH]; [done|]. intros Hd. by eapply emitted_before, IH. }
  induction Hr as [|x y z Hxy Hyz IH]; [done|]. apply IH; [by eapply crun_step| |done].
  eapply cstep_logging; [by eapply crun_inv|by eapply Hback|done|done].
Qed.

(** ** At rest *)

Lemma rest_not_mapping (s : sysS) u : sys_inv s -> stoks s = [] -> u ∉ running_maps_ (pc (st s)).
Proof.
  intros [(Hm & _) _] Et Hu. specialize (Hm u). rewrite Et, decide_True, cnt_nil in Hm by done. lia.
Qed.

(** At rest, what was made is of the iterations that are past. *)
Lemma rest_made Ap Here (n : node) t : node_ok Ap Here n -> at_rest n -> 0 < cnt t (made n.2) ->
  exists w, map_versions_ (pc (st n.1)) !! t.2 = Some w /\ 0 <= jversion t < w.
Proof.
  intros (Hinv & _ & _ & _ & Hl & _ & Hx) (Hp & Hq & Hg & _) Hpos.
  assert (stoks n.1 = []) as Ht by (unfold stoks; by rewrite Hp, Hq, Hl, Hg).
  pose proof (made_le t n.2) as Hle. specialize (Hx (t.2, jversion t)). rewrite Hp in Hx. cbn [mbind list_bind] in Hx.
  rewrite cnt_nil in Hx. assert (0 < started (pc (st n.1)) (t.2, jversion t)) as Hs by lia. unfold started in Hs. cbn [fst snd] in Hs.
  rewrite bool_decide_eq_false_2, andb_false_r in Hs by by apply rest_not_mapping.
  destruct (Z.leb_spec 0 (jversion t)), (Z.ltb_spec (jversion t) (map_version (pc (st n.1)) t.2)); cbn in Hs; try lia.
  unfold map_version, lookup_or in *. destruct (_ !! _) as [w|]; [eauto|]. cbn in *. lia.
Qed.

Lemma sum_over_pos {A} (f : A -> Z) l : 0 < sum_over f l -> exists a, a ∈ l /\ 0 < f a.
Proof.
  induction l as [|a l IH]; [done|]. rewrite sum_over_cons. intros Hs. destruct (decide (0 < f a)); [exists a; by split; [left|]|].
  destruct IH as (b & Hb & Hf); [lia|]. exists b. split; [by right|done].
Qed.
Lemma sum_over_elem {A} (f : A -> Z) l a : (forall b, 0 <= f b) -> a ∈ l -> f a <= sum_over f l.
Proof.
  intros Hf Ha. apply list_elem_of_split in Ha as (l1 & l2 & ->). rewrite sum_over_app, sum_over_cons.
  pose proof (sum_over_nonneg f l1 Hf). pose proof (sum_over_nonneg f l2 Hf). lia.
Qed.
Lemma NoDup_cnt {A} `{!EqDecision A} (l : list A) : (forall a, cnt a l <= 1) -> NoDup l.
Proof.
  induction l as [|a l IH]; intros Hc; [constructor|]. constructor.
  - intros Ha%cnt_pos. specialize (Hc a). rewrite cnt_cons, decide_True in Hc by done. lia.
  - apply IH. intros b. specialize (Hc b). rewrite cnt_cons in Hc. case_decide; lia.
Qed.

(** Every update partition is on one node. *)
Definition unshared (c : clusterS) : Prop :=
  forall i j ni nj p, nodes c !! i = Some ni -> nodes c !! j = Some nj ->
    is_Some (updated_here ni p) -> is_Some (updated_here nj p) -> i = j.

(** The updates of partition [p] that a node applied, as iteration and mapped partition. *)
Definition applied_at (p : Z) (n : node) : list (Z * Z) :=
  (fun t : jtok => (jversion t, t.2)) <$> filter (fun t => jpart t = p) (applied n.2).
Lemma elem_of_applied_at p (n : node) v u : (v, u) ∈ applied_at p n <-> (p, v, u) ∈ applied n.2.
Proof.
  unfold applied_at. rewrite list_elem_of_fmap. split.
  - intros ([[q w] z] & [= -> ->] & [Hq Hin]%list_elem_of_filter). by cbn in Hq; subst q.
  - intros Hin. exists (p, v, u). split; [done|]. by apply list_elem_of_filter.
Qed.
Lemma applied_at_events p (n : node) : applied_at p n ≫= (fun vu => ev (p, vu.1, vu.2)) = events_at ev p n.2.
Proof.
  unfold applied_at, events_at. induction (applied n.2) as [|[[q v] u] l IH]; [done|]. rewrite filter_cons.
  case_decide as Hd; [|done]. cbn in Hd. subst q. rewrite fmap_cons, !bind_cons, IH. done.
Qed.
Lemma applied_at_NoDup c p n : cinv c -> n ∈ nodes c -> NoDup (applied_at p n).
Proof.
  intros (_ & (hs & Hok & Hd) & Hbal) Hn. apply NoDup_fmap_2_strong.
  - intros [[q v] u] [[q' v'] u'] [Hq _]%list_elem_of_filter [Hq' _]%list_elem_of_filter Hvu. cbn in *. congruence.
  - apply NoDup_filter, NoDup_cnt. intros t. pose proof (made_once _ _ _ t Hok Hd) as Hle. fold (updates_made t c) in Hle.
    specialize (Hbal t). pose proof (sum_over_elem (fun n : node => cnt t (applied n.2)) _ n (fun _ => cnt_nonneg _ _) Hn) as Ha.
    fold (updates_applied t c) in Ha. cbn beta in Ha. enough (0 <= updates_in_flight t c) by lia. unfold updates_in_flight.
    pose proof (on_net_nonneg t (net c)).
    enough (0 <= sum_over (fun n : node => on_node t n.1) (nodes c)) by lia. apply sum_over_nonneg. intros. apply on_node_nonneg.
Qed.

(** An update is applied on the node of its partition. *)
Lemma applied_here c0 c i n t : unshared c0 -> logging_cluster c0 c -> nodes c !! i = Some n ->
  is_Some (updated_here n (jpart t)) -> 0 < updates_applied t c -> t ∈ applied n.2.
Proof.
  intros Hu [Hl _] Hi [x Hx] Hpos. destruct (sum_over_pos _ _ Hpos) as (n' & [j Hj]%list_elem_of_lookup & Hc). apply cnt_elem in Hc.
  destruct (Forall2_lookup_r _ _ _ _ _ Hl Hi) as (n0 & Hi0 & Ln). destruct (Forall2_lookup_r _ _ _ _ _ Hl Hj) as (n0' & Hj0 & Ln').
  destruct Ln as (_ & _ & _ & _ & _ & _ & Lx). destruct (Lx _ _ Hx) as (x0 & E0 & _).
  destruct Ln' as (_ & _ & _ & _ & _ & La & _). specialize (La t Hc).
  assert (i = j) as -> by (eapply Hu; [done|done|by eexists|done]). congruence.
Qed.

(** What a plan computes.  In a run without failures and migrations on nodes whose collection
    maps tell where the partitions are, whatever the interleaving: when the plan has come to
    rest and every partition of the map collection has been mapped [N] times, every partition
    of the update collection is its initial content after the events that the maps emitted
    for it, those of each iteration and each mapped partition once, in some order. *)
Lemma resting_plan_result sp c0 c N i n p x :
  cinitial sp c0 -> placed c0 -> unshared c0 -> rtc cstep c0 c -> emitted c ->
  net c = [] -> Forall at_rest (nodes c) ->
  Forall (fun n => map_Forall (fun _ w => w = N) (map_versions_ (pc (st n.1)))) (nodes c) ->
  0 <= p -> Forall (fun n => p < num_update_part_ (pc (st n.1))) (nodes c) ->
  nodes c !! i = Some n -> updated_here n p = Some x ->
  exists n0 x0 l, nodes c0 !! i = Some n0 /\ updated_here n0 p = Some x0 /\ NoDup l /\
    (forall v u, (v, u) ∈ l <-> 0 <= v < N /\ exists n', n' ∈ nodes c /\ is_Some (map_versions_ (pc (st n'.1)) !! u)) /\
    part_log x0 x (l ≫= (fun vu => ev (p, vu.1, vu.2))).
Proof.
  intros Hi Hpl Hun Hr He Hnet Hrest Hv Hp Hnp Hn Hx. pose proof (crun_start _ _ Hi) as Hc0.
  pose proof (crun_inv _ _ (crun_rtc _ _ _ Hc0 Hr)) as Hinv.
  pose proof (run_settled _ _ _ _ Hc0 (cinitial_settled _ _ Hi Hpl) Hr) as Hset.
  pose proof (run_logging _ _ _ _ Hc0 (cinitial_logging _ _ Hi) Hr He) as Hlog.
  destruct (Forall2_lookup_r _ _ _ _ _ (proj1 Hlog) Hn) as (n0 & Hn0 & Ln).
  pose proof Ln as (_ & _ & _ & _ & _ & _ & Lx). destruct (Lx _ _ Hx) as (x0 & E0 & Hl).
  pose proof (list_elem_of_lookup_2 _ _ _ Hn) as Hin.
  exists n0, x0, (applied_at p n). split; [done|]. split; [done|]. split; [by eapply applied_at_NoDup|]. split; [|by rewrite applied_at_events].
  rewrite Forall_forall in Hv. intros v u. rewrite elem_of_applied_at. split.
  - intros Ha. assert (0 < updates_made (p, v, u) c) as Hmade.
    { destruct Hinv as (_ & _ & Hbal). rewrite <- Hbal. apply cnt_pos in Ha.
      pose proof (sum_over_elem (fun n : node => cnt (p, v, u) (applied n.2)) _ n (fun _ => cnt_nonneg _ _) Hin) as Hle.
      fold (updates_applied (p, v, u) c) in Hle. cbn beta in Hle. unfold updates_in_flight. pose proof (on_net_nonneg (p, v, u) (net c)).
      pose proof (sum_over_nonneg (fun n : node => on_node (p, v, u) n.1) (nodes c) (fun n => on_node_nonneg _ n.1)). lia. }
    destruct (sum_over_pos _ _ Hmade) as (n' & Hn' & Hpos). pose proof Hinv as (_ & (hs & Hok & _) & _).
    pose proof Hn' as [j Hj]%list_elem_of_lookup. destruct (Forall2_lookup_r _ _ _ _ _ Hok Hj) as (h & _ & Hok').
    rewrite Forall_forall in Hrest. destruct (rest_made _ _ _ _ Hok' (Hrest n' Hn') Hpos) as (w & Hw & Hvw). cbn in Hw, Hvw.
    specialize (Hv n' Hn' u w Hw). cbn in Hv. subst w. split; [lia|]. exists n'. split; [done|by eexists].
  - intros (Hvn & n' & Hn' & Hu). eapply (applied_here c0 c i); [done|done|done|by eexists|].
    rewrite (rest_applied_once _ c n' p v u Hinv Hset Hnet Hrest); [lia| |done|done|lia|].
    + apply Forall_forall. intros n2 Hn2 k w Hk. rewrite (Hv n2 Hn2 k w Hk). lia.
    + rewrite Forall_forall in Hnp. specialize (Hnp n' Hn'). cbn in Hnp. lia.
Qed.
End Result.
