(* ===== verification/PlanInputs.v ===== *)
(** * What the maps of a plan read

    When a plan updates a collection other than the one it maps, the partitions it maps do not
    change: every map output is the map function of the content that the partition had when
    the plan was set up. *)

From S2P Require Import Prelude BinStream Specs Index Messages Partition PlanController PlanFrame PlanExclusion PlanTokens PlanProgress PlanCluster PlanDrain PlanComplete PlanSim PlanEvents PlanResult.

Section Inputs.
Context {P Stream : Type} `{UserCode P Stream} `{IterOrder}.
Abbreviation NodeS := (NodeSt P Stream).
Abbreviation outs := (list (out P Stream)).
Abbreviation Comp := (M NodeS (out P Stream)).

(** The collection mapped, the one updated, the plan; [In u x]: partition [u] has content [x]. *)
Context (mc uc pid : Z) (In : Z -> P -> Prop).
Context (Hne : uc <> mc) (Hget : fn_Getter mc = None).

Definition plan_ids (s : NodeS) : Prop :=
  map_collection_id_ (pc s) = mc /\ update_collection_id_ (pc s) = uc /\ plan_id_ (pc s) = pid /\ type_ (pc s) = TMapJoin.
Definition inputs_ok (s : NodeS) : Prop :=
  plan_ids s /\ forall u x, store_lookup (pm s) mc u = Some x -> In u x.
Definition out_input (o : out P Stream) : Prop :=
  match o with Submit (TMap u _ x) => In u x | _ => True end.
Definition reads (s : NodeS) (os : outs) (s' : NodeS) : Prop :=
  inputs_ok s -> inputs_ok s' /\ Forall out_input os.
Abbreviation reading := (tracks (P := P) (Stream := Stream) reads).

#[global] Instance reads_tracking : Tracking reads.
Proof using.
  split; [intros s Hs; by split|]. intros s1 s2 s3 os os' K1 K2 Hs. destruct (K1 Hs) as [Hs2 Ho1].
  destruct (K2 Hs2) as [Hs3 Ho2]. split; [done|]. by apply Forall_app.
Qed.

Lemma reads_skip (s : NodeS) os (s' : NodeS) :
  (map_collection_id_ (pc s'), update_collection_id_ (pc s'), plan_id_ (pc s'), type_ (pc s')) =
  (map_collection_id_ (pc s), update_collection_id_ (pc s), plan_id_ (pc s), type_ (pc s)) ->
  (forall u, store_lookup (pm s') mc u = store_lookup (pm s) mc u) -> Forall out_input os -> reads s os s'.
Proof using.
  intros [= E1 E2 E3 E4] Hp Ho [Hi Hs]. split; [|done]. split.
  - unfold plan_ids in *. by rewrite E1, E2, E3, E4.
  - intros u x. rewrite Hp. apply Hs.
Qed.
Lemma wp_reads {A} (m : Comp A) : (forall s, inputs_ok s -> wp any m s (fun _ s' os => reads s os s')) -> reading m.
Proof using.
  intros Hm s. unfold wp. destruct (m s) as [[[a s'] os]|e] eqn:E; [|done]. intros Hs.
  specialize (Hm s Hs). unfold wp in Hm. rewrite E in Hm. by apply Hm.
Qed.
Lemma reading_pm {A} (m : M (PartitionManager P) Empty_set A) :
  (forall q, wp any m q (fun _ q' _ => forall u, store_lookup q' mc u = store_lookup q mc u)) -> reading (on_pm m).
Proof using.
  intros Hm. apply tracks_on_pm. intros s. eapply wp_mono; [apply Hm|]. intros a q os Hq. by apply reads_skip.
Qed.
Lemma reading_Has c p : reading (on_pm (pm_Has c p)).
Proof using. apply reading_pm. intros q. by apply pm_Has_spec. Qed.
Lemma reading_Get c p : reading (on_pm (pm_Get c p)).
Proof using. apply reading_pm. intros q. apply pm_Get_spec; [|done]. intros x q' _ Hq u. apply (Hq mc u). Qed.
Lemma reading_Insert c p x : c <> mc -> reading (on_pm (pm_Insert c p x)).
Proof using.
  intros Hc. apply reading_pm. intros q. apply pm_Insert_spec. intros q' Hq u. rewrite Hq, decide_False; [done|naive_solver].
Qed.
Hint Resolve reading_Has reading_Get reading_Insert : track_db.

Ltac read_skip := intros; apply reads_skip; [cbn; repeat case_match; reflexivity|done|by repeat constructor].
Ltac read_step := track_step_with read_skip.
Ltac solve_reading := repeat read_step.

Lemma reading_Report f p v : reading (ReportFinishPart f p v).
Proof using. unfold ReportFinishPart. solve_reading. Qed.
Hint Resolve reading_Report : track_db.

Lemma reading_TryRunSomeMaps : reading TryRunSomeMaps.
Proof using.
  apply wp_reads. intros s Hs. unfold TryRunSomeMaps. wstep. wstep. rewrite (proj1 (proj1 Hs)).
  enough (reading (if min_version_ (pc s) =? expected_num_iter_ (pc s) then ret tt else
    for_each (iter (map_versions_ (pc s))) (fun kv =>
      let '(part_id, version) := kv in
      runnable <-- IsMapRunnable part_id ;;
      when runnable
        (h <-- on_pm (pm_Has mc part_id) ;;
         check h "partition_manager->Has(map_collection_id_, part_id)" ;;;
         p <-- on_pm (pm_Get mc part_id) ;; RunMap part_id version p)))) as Hk by apply Hk.
  read_step; [read_step|]. read_step. destruct x as [u v]. read_step; [unfold IsMapRunnable; solve_reading|].
  read_step. read_step; [read_step|]. read_step; [read_step|].
  apply wp_reads. intros s1 [_ Hs1]. wstep. apply zoom_wp, pm_Get_spec; [|done]. intros x q Hx Hq.
  unfold RunMap, pcs, mod_pc. wsteps. apply reads_skip; [done| |].
  - intros u'. apply (Hq mc u').
  - apply Forall_singleton. by apply Hs1.
Qed.
Hint Resolve reading_TryRunSomeMaps : track_db.

Lemma reading_TryRunWaitingJoins p : reading (TryRunWaitingJoins p).
Proof using.
  unfold TryRunWaitingJoins. read_step; [solve_reading|]. generalize (total_waiting a).
  intros n. revert p. induction n as [|n IH]; intros p; cbn [TryRunWaitingJoins_];
    unfold try_waiting, run_first_waiting, RunJoin, RunFetchRequest, IsJoinedBefore; solve_reading.
Qed.
Hint Resolve reading_TryRunWaitingJoins : track_db.

Lemma reading_Process m : msg_wf m -> reading (Process m).
Proof using.
  intros Hm. destruct m as [sp| |p u|p v us|v|m|fm bin sd rc|p u|p|mm body| |t|l]; cbn [Process]; try done.
  - unfold StartPlan. solve_reading.
  - unfold FinishMap. solve_reading.
  - unfold FinishJoin, CalcJoinTrackerSize, TryCheckpoint. solve_reading.
  - unfold UpdateVersion. solve_reading.
  - unfold ReceiveJoin, IsJoinedBefore. solve_reading.
  - unfold ReceiveFetchRequest, RunFetchRequest. solve_reading.
  - unfold FinishFetch. solve_reading.
  - unfold FinishCheckpoint. solve_reading.
Qed.

Lemma reading_Prepare p v us x : reading (PrepareMsgAndSend p v us x).
Proof using. unfold PrepareMsgAndSend, cmap_Lookup, cmap_Get, mapper_Get. solve_reading. Qed.
Hint Resolve reading_Prepare : track_db.

Lemma reading_run_task t : reading (run_task t).
Proof using Hne Hget.
  destruct t as [p v x|p v o|m|m v|p url|p v l]; cbn [run_task].
  - unfold run_map. solve_reading.
  - unfold run_mapped, AddMapOutput, AddStream. solve_reading.
  - apply wp_reads. intros s [(_ & Huc & _) _]. unfold run_join. wstep. wstep. rewrite Huc.
    match goal with |- wp any ?k s _ => enough (reading k) as Hk by apply Hk end. solve_reading.
  - unfold run_fetch. do 4 (read_step; [read_step|]). read_step; [|solve_reading]. read_step; [|read_step].
    unfold get_fn. destruct (fn_Getter (vs_collection_id (vj_meta m))) as [f|] eqn:Ef; [|intros s; by wsteps].
    assert (vs_collection_id (vj_meta m) <> mc) by congruence. solve_reading.
  - unfold run_checkpoint. solve_reading.
  - unfold run_combine. solve_reading.
Qed.
Lemma reading_PeriodicCombine : reading PeriodicCombine.
Proof using. unfold PeriodicCombine. solve_reading. Qed.

(** ** The cluster *)
Abbreviation sysS := (sys (P := P) (Stream := Stream)).
Abbreviation node := (sysS * outs)%type.
Abbreviation clusterS := (cluster (P := P) (Stream := Stream)).

(** A map output is the map function of the content of its partition. *)
Definition mapped_input (u : Z) (o : list Stream) : Prop :=
  exists x f, In u x /\ fn_Map (GetRealId pid) = Some f /\ o = f x.
Definition inputs_node (n : node) : Prop :=
  inputs_ok (st n.1) /\ (forall u v x, TMap u v x ∈ pool n.1 -> In u x) /\
  (forall u v o, Submit (TMapped u v o) ∈ n.2 -> mapped_input u o).

Lemma run_map_output u v x (s : NodeS) : plan_ids s -> In u x ->
  wp any (run_map u v x) s (fun _ _ os => forall u' v' o, Submit (TMapped u' v' o) ∈ os -> mapped_input u' o).
Proof using.
  intros (_ & _ & Hp & Ht) Hx. unfold run_map. wstep. wstep. wstep.
  { wstep. intros u' v' o Ho%list_elem_of_singleton. done. }
  rewrite Ht, Hp. unfold get_fn. destruct (fn_Map (GetRealId pid)) as [f|] eqn:Ef; [|by wsteps]. wsteps.
  intros u' v' o Ho. apply list_elem_of_singleton in Ho as [= -> _ ->]. by exists x, f.
Qed.

Lemma no_mapped (os : outs) u v o : maps_done os = [] -> Submit (TMapped u v o) ∉ os.
Proof using.
  intros Hd Hin. assert ((u, v) ∈ maps_done os) as Ho; [|rewrite Hd in Ho; by apply elem_of_nil in Ho].
  apply list_elem_of_bind. eexists. split; [|exact Hin]. left.
Qed.

Lemma inputs_absorb s tr os (s1 : sysS) :
  inputs_node (s, tr) -> reads (st s) os (st s1) -> (forall t, t ∈ pool s1 -> t ∈ pool s) ->
  (forall u v o, Submit (TMapped u v o) ∈ os -> mapped_input u o) -> inputs_node (absorb os s1, tr ++ os).
Proof using.
  intros (Hi & Hp & Ht) Hr Hpl Hos. destruct (Hr Hi) as [Hi' Ho]. split_and!; cbn [fst snd st pool absorb] in *.
  - done.
  - intros u v x [Hin|Hin%elem_of_submitted]%elem_of_app; [by eapply Hp, Hpl|].
    rewrite Forall_forall in Ho. exact (Ho _ Hin).
  - intros u v o [Hin|Hin]%elem_of_app; [by eapply Ht|by eapply Hos].
Qed.

Lemma inputs_step Ap Here s tr os s' :
  node_ok Ap Here (s, tr) -> inputs_node (s, tr) -> local_step s os s' -> inputs_node (s', tr ++ os).
Proof using Hne Hget.
  intros (_ & Hst & _ & Hq & Hl & _) Hin Hstep. cbn [fst snd] in *.
  destruct Hstep as [s m q st' os Hqm Hm|s l1 t l2 st' os Hpl Hm|s st' os Hm|s l1 m l2 Hlm|s l1 p l2 u Hg].
  - rewrite Hqm in Hq. apply Forall_cons in Hq as [[Hwf _] _]. eapply inputs_absorb; cbn [st pool]; [done| |done|].
    + by eapply tracks_Ok; [apply reading_Process|].
    + intros u v o Ho. by apply no_mapped in Ho; [|exact (tracks_Ok _ _ _ _ _ _ (mapless_Process m Hwf) Hm)].
  - eapply inputs_absorb; cbn [st pool]; [done| | |].
    + by eapply tracks_Ok; [apply reading_run_task|].
    + intros t' Ht'. rewrite Hpl. set_solver.
    + pose proof (wp_Ok any _ _ _ _ _ _ Hm (run_task_maps t Ap (st s) Hst)) as Hd. cbn beta in Hd.
      destruct t as [p v x|p v o|m|m v|p url|p v l]; cbn [task_maps] in Hd;
        try (intros u' v' o' Ho'; by apply no_mapped in Ho').
      destruct Hin as ((Hids & _) & Hp & _). cbn [fst snd] in *.
      refine (wp_Ok any _ _ _ _ _ _ Hm (run_map_output p v x (st s) Hids _)). apply (Hp p v x). rewrite Hpl. set_solver.
  - eapply inputs_absorb; cbn [st pool]; [done| |done|].
    + by eapply tracks_Ok; [apply reading_PeriodicCombine|].
    + intros u v o Ho. by apply no_mapped in Ho; [|exact (tracks_Ok _ _ _ _ _ _ mapless_PeriodicCombine Hm)].
  - rewrite Hl in Hlm. by destruct l1.
  - by rewrite app_nil_r.
Qed.

Lemma cstep_inputs c c' : cinv c -> Forall inputs_node (nodes c) -> cstep c c' -> Forall inputs_node (nodes c').
Proof using Hne Hget.
  intros (_ & (hs & Hn & _) & _) Hs Hstep.
  destruct Hstep as [l1 s tr l2 w os s' Hstep|l1 s tr l2 w1 m w2|l1 s tr l2 w m Hm]; cbn [nodes] in *;
    apply Forall_app in Hs as [Hs1 [Hs0 Hs2]%Forall_cons]; (apply Forall_app; split; [done|]; apply Forall_cons; split; [|done]).
  - destruct (Forall2_lookup_r _ _ _ (length l1) (s, tr) Hn) as (h & _ & Hok); [by rewrite lookup_app_r, Nat.sub_diag|].
    by eapply inputs_step.
  - done.
  - done.
Qed.
Lemma run_inputs sp c0 c : crun sp c0 -> Forall inputs_node (nodes c0) -> rtc cstep c0 c -> Forall inputs_node (nodes c).
Proof using Hne Hget.
  intros Hc Hs Hr. induction Hr as [|x y z Hxy _ IH]; [done|]. apply IH; [by eapply crun_step|].
  eapply cstep_inputs; [by eapply crun_inv|done|done].
Qed.
End Inputs.

(** ** The versions of the mapped partitions *)

Section Growth.
Context {P Stream : Type} `{UserCode P Stream} `{IterOrder}.
Abbreviation NodeS := (NodeSt P Stream).
Abbreviation outs := (list (out P Stream)).
Abbreviation sysS := (sys (P := P) (Stream := Stream)).
Abbreviation node := (sysS * outs)%type.
Abbreviation clusterS := (cluster (P := P) (Stream := Stream)).

(** A partition that has a version keeps one. *)
Definition grows (s : NodeS) (_ : outs) (s' : NodeS) : Prop :=
  forall u, is_Some (map_versions_ (pc s) !! u) -> is_Some (map_versions_ (pc s') !! u).
Abbreviation growing := (tracks (P := P) (Stream := Stream) grows).
#[global] Instance grows_tracking : Tracking grows.
Proof. split; unfold grows; auto. Qed.

Ltac grow_skip :=
  intros; let u := fresh in let Hu := fresh in intros u Hu; cbn;
  first [ solve [repeat case_match; exact Hu] | apply lookup_insert_is_Some'; by right ].
Ltac grow_step := track_step_with grow_skip.
Ltac solve_growing := repeat grow_step.

Lemma growing_Report f p v : growing (ReportFinishPart f p v).
Proof. unfold ReportFinishPart. solve_growing. Qed.
Lemma growing_on_pm {A} (m : M (PartitionManager P) Empty_set A) : growing (on_pm m).
Proof. apply tracks_on_pm. intros s. unfold wp. destruct (m (pm s)) as [[[a q] os]|e]; [by intros u|done]. Qed.
Hint Resolve growing_Report growing_on_pm : track_db.
Lemma growing_TryRunSomeMaps : growing TryRunSomeMaps.
Proof. unfold TryRunSomeMaps, IsMapRunnable, RunMap. solve_growing. Qed.
Lemma growing_TryRunWaitingJoins p : growing (TryRunWaitingJoins p).
Proof.
  unfold TryRunWaitingJoins. grow_step; [solve_growing|]. generalize (total_waiting a).
  intros n. revert p. induction n as [|n IH]; intros p; cbn [TryRunWaitingJoins_];
    unfold try_waiting, run_first_waiting, RunJoin, RunFetchRequest, IsJoinedBefore; solve_growing.
Qed.
Hint Resolve growing_TryRunSomeMaps growing_TryRunWaitingJoins : track_db.

Lemma growing_Process m : msg_wf m -> growing (Process m).
Proof.
  intros Hm. destruct m as [sp| |p u|p v us|v|m|fm bin sd rc|p u|p|mm body| |t|l]; cbn [Process]; try done.
  - unfold StartPlan. solve_growing.
  - unfold FinishMap. solve_growing.
  - unfold FinishJoin, CalcJoinTrackerSize, TryCheckpoint. solve_growing.
  - unfold UpdateVersion. solve_growing.
  - unfold ReceiveJoin, IsJoinedBefore. solve_growing.
  - unfold ReceiveFetchRequest, RunFetchRequest. solve_growing.
  - unfold FinishFetch. solve_growing.
  - unfold FinishCheckpoint. solve_growing.
  - solve_growing.
  - unfold FinishLoadWith. solve_growing.
Qed.
Lemma growing_Prepare p v us x : growing (PrepareMsgAndSend p v us x).
Proof. unfold PrepareMsgAndSend, cmap_Lookup, cmap_Get, mapper_Get. solve_growing. Qed.
Hint Resolve growing_Prepare : track_db.
Lemma growing_run_task t : growing (run_task t).
Proof.
  destruct t; cbn [run_task];
    unfold run_map, run_mapped, AddMapOutput, AddStream, run_join, run_fetch, run_checkpoint, run_combine; solve_growing.
Qed.
Lemma growing_PeriodicCombine : growing PeriodicCombine.
Proof. unfold PeriodicCombine. solve_growing. Qed.

(** Some node has a version of partition [u]. *)
Definition versioned (c : clusterS) (u : Z) : Prop :=
  exists n, n ∈ nodes c /\ is_Some (map_versions_ (pc (st n.1)) !! u).
Lemma versioned_local Ap Here (s : sysS) tr os s' u : node_ok Ap Here (s, tr) -> local_step s os s' ->
  is_Some (map_versions_ (pc (st s)) !! u) -> is_Some (map_versions_ (pc (st s')) !! u).
Proof.
  intros (_ & _ & _ & Hq & _) Hstep. cbn [fst snd] in *.
  destruct Hstep as [s m q st' os Hqm Hm|s l1 t l2 st' os Hpl Hm|s st' os Hm|s l1 m l2 Hlm|s l1 p l2 v Hg]; [| | |done|done].
  - rewrite Hqm in Hq. apply Forall_cons in Hq as [[Hwf _] _]. exact (tracks_Ok _ _ _ _ _ _ (growing_Process m Hwf) Hm u).
  - exact (tracks_Ok _ _ _ _ _ _ (growing_run_task t) Hm u).
  - exact (tracks_Ok _ _ _ _ _ _ growing_PeriodicCombine Hm u).
Qed.
Lemma versioned_step c c' u : cinv c -> cstep c c' -> versioned c u -> versioned c' u.
Proof.
  intros (_ & (hs & Hn & _) & _) Hstep (n & Hin & Hu).
  destruct Hstep as [l1 s tr l2 w os s' Hs|l1 s tr l2 w1 m w2|l1 s tr l2 w m Hm]; cbn [nodes] in *;
    (apply elem_of_app in Hin as [Hin|[->|Hin]%elem_of_cons]; [exists n; split; [set_solver|done]| |exists n; split; [set_solver|done]]).
  - exists (s', tr ++ os). split; [set_solver|].
    destruct (Forall2_lookup_r _ _ _ (length l1) (s, tr) Hn) as (h & _ & Hok); [by rewrite lookup_app_r, Nat.sub_diag|].
    by eapply versioned_local.
  - exists (deliver m s, tr). split; [set_solver|done].
  - exists (deliver m s, tr). split; [set_solver|done].
Qed.
Lemma run_versioned sp c0 c u : crun sp c0 -> rtc cstep c0 c -> versioned c0 u -> versioned c u.
Proof.
  intros Hc Hr. induction Hr as [|x y z Hxy _ IH]; [done|]. intros Hu. apply IH; [by eapply crun_step|].
  eapply versioned_step; [by eapply crun_inv|done|done].
Qed.

(** At rest, a partition of version [w > 0] has been mapped. *)
Lemma rest_mapped Ap Here (n : node) u w : node_ok Ap Here n -> at_rest n ->
  map_versions_ (pc (st n.1)) !! u = Some w -> 0 < w -> exists o, Submit (TMapped u 0 o) ∈ n.2.
Proof.
  intros (_ & _ & _ & _ & _ & _ & Hx) (Hp & _) Hu Hw. specialize (Hx (u, 0)). rewrite Hp in Hx. cbn [mbind list_bind] in Hx.
  assert (map_version (pc (st n.1)) u = w) as Hv by (unfold map_version, lookup_or; by rewrite Hu).
  unfold started in Hx. cbn [fst snd] in Hx. rewrite Hv in Hx.
  rewrite cnt_nil in Hx. assert ((u, 0) ∈ maps_done n.2) as Hin.
  { apply cnt_elem. rewrite (proj2 (Z.leb_le 0 0)), (proj2 (Z.ltb_lt 0 w)) in Hx by done. cbn in Hx. lia. }
  unfold maps_done in Hin. apply list_elem_of_bind in Hin as (o & Hin & Ho). destruct o as [t| | | | | |]; cbn in Hin; try set_solver.
  destruct t; cbn in Hin; try set_solver.
Qed.
End Growth.

(** ** Setup *)

Section SetupIds.
Context {P Stream : Type}.
Abbreviation NodeS := (NodeSt P Stream).

Definition spec_ids (sp : SpecWrapper) (s : NodeS) : Prop :=
  exists p, as_MapJoin (spec sp) = Some p /\
    plan_ids (map_collection_id p) (update_collection_id p) (spec_id sp) s.
Lemma Setup_ids sp (s : NodeS) : spec_type sp = TMapJoin -> wp any (Setup sp) s (fun _ s' _ => spec_ids sp s').
Proof.
  intros Hty. unfold Setup, cast_MapJoin, cmap_GetNumParts, cmap_Get, ReportFinishPart, pcs.
  repeat first [ wstep | (apply wp_on_pm; intros ? ?) | (unfold mod_pc at 1; wstep) ].
  all: match goal with Hx : as_MapJoin _ = Some ?x |- _ =>
    apply (wp_for_each_state any (plan_ids (map_collection_id x) (update_collection_id x) (spec_id sp)));
      [unfold plan_ids; cbn; by rewrite Hty|intros part s1 _ Hs1; unfold mod_pc; by wstep|intros s1 os1 Hs1] end.
  all: wstep; apply wp_on_pm; intros parts q'; wstep.
  all: match goal with Hx : as_MapJoin _ = Some ?x |- _ =>
    apply (wp_for_each_state any (plan_ids (map_collection_id x) (update_collection_id x) (spec_id sp)));
      [exact Hs1|intros part s2 _ Hs2; unfold mod_pc; by wstep|intros s2 os2 Hs2] end.
  all: wsteps; by eexists.
Qed.

Definition maps_versioned (s : NodeS) : Prop :=
  forall u, is_Some (store_lookup (pm s) (map_collection_id_ (pc s)) u) -> is_Some (map_versions_ (pc s) !! u).
Lemma set_map_versions_wp {A} (l : list (Z * A)) (s : NodeS) (Q : unit -> NodeS -> list (out P Stream) -> Prop) :
  (forall s' os, pm s' = pm s -> map_collection_id_ (pc s') = map_collection_id_ (pc s) ->
     (forall p, p ∈ l.*1 \/ is_Some (map_versions_ (pc s) !! p) -> is_Some (map_versions_ (pc s') !! p)) -> Q tt s' os) ->
  wp any (for_each l (fun part => mod_pc (fun c => c <| map_versions_ ::= <[part.1 := 0]> |>))) s Q.
Proof.
  revert s Q. induction l as [|[p x] l IH]; intros s Q HQ; cbn [for_each].
  - wstep. apply HQ; [done|done|]. set_solver.
  - wstep. unfold mod_pc at 1. wstep. apply IH. intros s' os Hpm Huc Hv. apply HQ; [done|done|].
    intros q Hq. apply Hv. cbn in *. rewrite lookup_insert_is_Some'. set_solver.
Qed.
Lemma Setup_maps_versioned sp (s : NodeS) : wp any (Setup sp) s (fun _ s' _ => maps_versioned s').
Proof.
  unfold Setup, cast_MapJoin, cmap_GetNumParts, cmap_Get, ReportFinishPart, pcs.
  repeat first [ wstep | (apply zoom_wp, pm_GetAll_spec; intros q1 l1 Hq1 Hl1 _)
               | (apply wp_on_pm; intros ? ?) | (unfold mod_pc at 1; wstep) ].
  all: apply set_map_versions_wp; intros s1 os1 Epm Emc Hv; wstep; apply zoom_wp, pm_GetAll_spec; intros q2 l2 Hq2 _ _; wstep.
  all: assert (maps_versioned (s1 <| pm := q2 |>)) as Hs1;
    [intros u [y Hy]; apply Hv; left; apply list_elem_of_fmap; exists (u, y); split; [done|]; apply Hl1;
     change (store_lookup q2 (map_collection_id_ (pc s1)) u = Some y) in Hy; rewrite Emc, (Hq2 _ u), Epm in Hy; cbn in Hy;
     by rewrite (Hq1 _ u) in Hy
    |apply (wp_for_each_state any maps_versioned); [exact Hs1|intros part s2 _ Hs2; unfold mod_pc; by wstep|intros s2 os2 Hs2]].
  all: by wsteps.
Qed.
End SetupIds.

(** ** Start of a run *)

Section Start.
Context {P Stream : Type} `{UserCode P Stream} `{IterOrder}.
Abbreviation node := (sys (P := P) (Stream := Stream) * list (out P Stream))%type.
Abbreviation clusterS := (cluster (P := P) (Stream := Stream)).

Lemma elem_of_local_maps (n : node) u : u ∈ local_maps n <-> maps_here (st n.1) u.
Proof.
  unfold local_maps, maps_here. rewrite list_elem_of_fmap. split.
  - intros ([u' x] & -> & Hx). rewrite elem_of_entries, lookup_or_store in Hx. by exists x.
  - intros [x Hx]. exists (u, x). split; [done|]. by rewrite elem_of_entries, lookup_or_store.
Qed.
Lemma elem_of_all_maps (c : clusterS) u : u ∈ mjoin (local_maps <$> nodes c) <-> exists n, n ∈ nodes c /\ maps_here (st n.1) u.
Proof.
  rewrite list_elem_of_join. split.
  - intros (l & Hu & (n & -> & Hn)%list_elem_of_fmap). exists n. by rewrite elem_of_local_maps in Hu.
  - intros (n & Hn & Hu). exists (local_maps n). split; [by apply elem_of_local_maps|by apply list_elem_of_fmap_2].
Qed.
Lemma all_maps_NoDup sp (c : clusterS) : cinitial sp c -> NoDup (mjoin (local_maps <$> nodes c)).
Proof.
  intros (_ & _ & Hd). apply NoDup_mjoin.
  - apply Forall_fmap, Forall_forall. intros n _. apply NoDup_keys.
  - intros i j li lj u. rewrite !list_lookup_fmap. intros (ni & Hi & ->)%fmap_Some (nj & Hj & ->)%fmap_Some.
    rewrite !elem_of_local_maps. by apply Hd.
Qed.

Lemma cinitial_Setup sp (c : clusterS) (n : node) (Q : NodeSt P Stream -> Prop) :
  cinitial sp c -> n ∈ nodes c -> (forall s, wp any (Setup sp) s (fun _ s' _ => Q s')) -> Q (st n.1).
Proof.
  intros (_ & Hn & _) Hin HQ. rewrite Forall_forall in Hn. destruct (Hn n Hin) as (_ & q & cm & id & st' & os & Hset & ->).
  exact (wp_Ok any _ _ _ _ _ (fun _ s' _ => Q s') Hset (HQ _)).
Qed.

Lemma cinitial_versioned sp (c : clusterS) u : cinitial sp c -> u ∈ mjoin (local_maps <$> nodes c) -> versioned c u.
Proof.
  intros Hi (n & Hn & Hu)%elem_of_all_maps. exists n. split; [done|].
  exact (cinitial_Setup sp c n maps_versioned Hi Hn (Setup_maps_versioned sp) u Hu).
Qed.

Lemma cinitial_inputs sp mp (c : clusterS) (In : Z -> P -> Prop) :
  spec_type sp = TMapJoin -> as_MapJoin (spec sp) = Some mp -> cinitial sp c ->
  (forall n u x, n ∈ nodes c -> store_lookup (pm (st n.1)) (map_collection_id mp) u = Some x -> In u x) ->
  Forall (inputs_node (map_collection_id mp) (update_collection_id mp) (spec_id sp) In) (nodes c).
Proof.
  intros Hty Hmp Hi HIn. apply Forall_forall. intros n Hn. pose proof Hi as (_ & Hall & _). rewrite Forall_forall in Hall.
  destruct (Hall n Hn) as (Htr & q & cm & id & st' & os & _ & Es).
  destruct (cinitial_Setup sp c n (spec_ids sp) Hi Hn (fun s => Setup_ids sp s Hty)) as (mp' & Hmp' & Hids).
  assert (mp' = mp) as -> by congruence. split_and!.
  - split; [done|]. intros u x. by apply HIn.
  - rewrite Es. cbn. set_solver.
  - rewrite Htr. set_solver.
Qed.
End Start.
