(* ===== verification/MapFunctions.v ===== *)
(** * Map plans (core/plan/mappartupdate.hpp, mapupdate.hpp, update_helper.hpp, collection.hpp)

    What a map/update plan registers with the function store: the user's map function wrapped
    so that it fills an [Output], and the user's update function wrapped so that it applies a
    stream of messages to a partition, read from a message or handed over locally.  With them
    the plan controller's [UserCode] is no longer abstract, and [PlanResult] says what the
    plan computes in terms of the user's functions.

    The functions of the user: [mappart] is given by the pairs it adds to the output. *)

From S2P Require Import Prelude BinStream Specs Index Messages Partition MapOutput Partitions PlanFunctions TypedCache PlanController PlanFrame PlanExclusion PlanTokens PlanProgress PlanCluster PlanDrain PlanComplete PlanSim PlanEvents PlanResult PlanInputs.

(** An error in a function that the framework calls without looking at the result. *)
Definition settle {A} (d : A) (r : res A) : A := match r with Ok a => a | Err _ => d end.
Definition result {S O A} (r : res (A * S * list O)) : res A :=
  match r with Ok (a, _, _) => Ok a | Err e => Err e end.

Section MapPlan.
Context {K V T1 T2 : Type} `{Countable K, !KeyOrder K, !KeyedObject K T2} `{!Serial K, !Serial V, !Serial T2}.
Abbreviation Str := (MapOutputStream K V).
Abbreviation Indexed := (IndexedSeqPartition K T2).

(** The partitions of the map collection are [SeqPartition<T1>], those of the update collection
    [IndexedSeqPartition<T2>]. *)
Inductive Part := SeqPart (l : list T1) | IndexedPart (p : Indexed).

(** ** Registering a plan *)

(** [mapper] and [num_part] are [Get] and [GetNumPart] of [update_collection->GetMapper()]. *)
Record MapPartJoin := {
  mapper : K -> Z; num_part : nat;
  mappart : list T1 -> list (K * V);
  update : T2 -> V -> T2;
  combine_func : option (V -> V -> V) }.
#[global] Instance eta_MapPartJoin : Eta MapPartJoin := fun p =>
  {| mapper := mapper p; num_part := num_part p; mappart := mappart p; update := update p;
     combine_func := combine_func p |}.

(** [MapJoin]: a function of one object. *)
Definition SetMapPart (map : T1 -> list (K * V)) (pl : MapPartJoin) : MapPartJoin :=
  pl <| mappart := foldl (fun o elem => o ++ map elem) [] |>.

Definition GetMapPartFunc (pl : MapPartJoin) (partition : Part) : res (Output K V) :=
  match partition with
  | SeqPart p => result (output_AddAll (O := Empty_set) (mapper pl) (mappart pl p) (mkOutput (num_part pl)) tt)
  | IndexedPart _ => Err (Undefined "static_cast<TypedPartition<ObjT1>*>")
  end.
(** The function registered with [AddMap]. *)
Definition map_func (pl : MapPartJoin) (partition : Part) : res (list Str) :=
  match GetMapPartFunc pl partition with
  | Ok o => Ok (out_buffer_ (match combine_func pl with Some f => output_SetCombineFunc f o | None => o end))
  | Err e => Err e
  end.

(** [GetJoinPartFunc] and [GetJoinPartFunc2] on an indexed partition. *)
Definition join_all (pl : MapPartJoin) (l : list (K * V)) (partition : Part) : res Part :=
  match partition with
  | IndexedPart p =>
      match for_each l (ip_join (update pl)) p with Ok (_, p', _) => Ok (IndexedPart p') | Err e => Err e end
  | SeqPart _ => Err (CheckFailed "dynamic_cast<Indexable<T>*> != nullptr")
  end.
Definition join_func (pl : MapPartJoin) (partition : Part) (bin : BinStream) : res Part :=
  match partition with
  | IndexedPart _ => match join_pairs bin with Ok (l, _, _) => join_all pl l partition | Err e => Err e end
  | SeqPart _ => Err (CheckFailed "dynamic_cast<Indexable<T>*> != nullptr")
  end.
Definition join_func2 (pl : MapPartJoin) (partition : Part) (s : Str) : res Part := join_all pl (buffer_ s) partition.

(** [GetGetterFunc], registered by a collection of indexed partitions. *)
Definition getter_func (bin : BinStream) (partition : Part) : res (BinStream * Part) :=
  match partition with
  | IndexedPart p => match GetGetterFunc bin p with Ok (r, p') => Ok (r, IndexedPart p') | Err e => Err e end
  | SeqPart _ => Err (CheckFailed "dynamic_cast<Indexable<T>*> != nullptr")
  end.

Record FunctionStore := {
  maps_ : gmap Z (Part -> res (list Str));
  updates_ : gmap Z (Part -> BinStream -> res Part);
  updates2_ : gmap Z (Part -> Str -> res Part);
  getter_ : gmap Z (BinStream -> Part -> res (BinStream * Part)) }.
#[global] Instance eta_FunctionStore : Eta FunctionStore := fun f =>
  {| maps_ := maps_ f; updates_ := updates_ f; updates2_ := updates2_ f; getter_ := getter_ f |}.
Definition empty_functions : FunctionStore := {| maps_ := ∅; updates_ := ∅; updates2_ := ∅; getter_ := ∅ |}.

Definition Register (plan_id : Z) (pl : MapPartJoin) (f : FunctionStore) : FunctionStore :=
  f <| maps_ ::= AddFunc plan_id (map_func pl) |>
    <| updates_ ::= AddFunc plan_id (join_func pl) |>
    <| updates2_ ::= AddFunc plan_id (join_func2 pl) |>.
(** [Collection::Register] for a collection of indexed partitions. *)
Definition RegisterHelper (id : Z) (f : FunctionStore) : FunctionStore := f <| getter_ ::= AddFunc id getter_func |>.

(** The plan controller's view of the function store and of the virtual methods of streams; a
    function that fails leaves its partition as it was and a map that fails has no output,
    which the controller's check of the number of streams refuses. *)
Context (sort : list (K * V) -> list (K * V)) (to_bin : Part -> BinStream).
Definition plan_code (f : FunctionStore) : UserCode Part Str :=
  {| part_ToBin := to_bin;
     fn_CreatePart := fun _ => None;
     fn_Map := fun id => (fun g p => settle [] (g p)) <$> maps_ f !! id;
     fn_MapWith := fun _ => None;
     fn_Join := fun id => (fun g p b => settle p (g p b)) <$> updates_ f !! id;
     fn_Join2 := fun id => (fun g p s => settle p (g p s)) <$> updates2_ f !! id;
     fn_Getter := fun id => (fun g b p => settle (empty_stream, p) (g b p)) <$> getter_ f !! id;
     stream_Serialize := Serialize;
     stream_DoCombine := stream_Combine sort;
     stream_DoAppend := fun a b => Append b a |}.

(** ** The functions log messages *)

Context (pl : MapPartJoin).
Definition mergeable (f : V -> V -> V) : Prop :=
  (forall o a b, update pl o (f a b) = update pl (update pl o a) b) /\
  (forall a b, storable a -> storable b -> storable (f a b)).

(** Two lists of messages with the same effect on every object. *)
Definition same_effect (l l' : list (K * V)) : Prop :=
  forall o k, foldl (update pl) o (values_of k l) = foldl (update pl) o (values_of k l').

Context (update_key : forall o v, Key (update pl o v) = Key o).
Context (update_comm : forall o a b, update pl (update pl o a) b = update pl (update pl o b) a).
Context (sort_perm : forall l, sort l ≡ₚ l).
Context (nonempty : forall (k : K) (v : V), enc k ++ enc v <> []).

Lemma values_of_app k (l l' : list (K * V)) : values_of k (l ++ l') = values_of k l ++ values_of k l'.
Proof. unfold values_of. by rewrite filter_app, fmap_app. Qed.
Lemma same_effect_app a a' b b' : same_effect a a' -> same_effect b b' -> same_effect (a ++ b) (a' ++ b').
Proof. intros Ha Hb o k. by rewrite !values_of_app, !foldl_app, Ha, Hb. Qed.
Lemma same_effect_perm l l' : l ≡ₚ l' -> same_effect l l'.
Proof using update_comm. intros Hl o k. apply foldl_update_perm; [done|]. unfold values_of. by rewrite Hl. Qed.
Lemma same_effect_trans a b c : same_effect a b -> same_effect b c -> same_effect a c.
Proof. intros Hab Hbc o k. by rewrite Hab. Qed.
Lemma merged_effect f l : mergeable f -> same_effect (merged f l) l.
Proof. intros [Hf _] o k. destruct l as [|x l]; [done|]. by apply merge_runs_values. Qed.

Definition stored (kv : K * V) : Prop := storable kv.1 /\ storable kv.2.
Lemma merge_runs_stored f x l : mergeable f -> stored x -> Forall stored l -> Forall stored (merge_runs f x l).
Proof.
  intros [Hf1 Hf2]. revert x. induction l as [|y l IH]; intros x Hx Hl; [by apply Forall_singleton|].
  apply Forall_cons in Hl as [[Hy1 Hy2] Hl]. cbn. case_decide; [|by constructor; [|apply IH]].
  apply IH; [|done]. destruct Hx as [Hx1 Hx2]. split; cbn; [done|by apply Hf2].
Qed.

Definition msg_stream_log (s : Str) (l : list (K * V)) : Prop :=
  (forall f, combine_func_ s = Some f -> mergeable f) /\ Forall stored (buffer_ s) /\ same_effect (buffer_ s) l.
Definition msg_bin_log (b : BinStream) (l : list (K * V)) : Prop :=
  exists l' b' os, join_pairs b = Ok (l', b', os) /\ same_effect l' l.
(** An indexed partition whose keys are all known has applied the messages. *)
Definition msg_part_log (x0 x : Part) (l : list (K * V)) : Prop :=
  match x0, x with
  | IndexedPart p0, IndexedPart p => (ip_ok p0 /\ forall k, known p0 k) ->
      ip_ok p /\ forall k, known p k /\ ip_view p k = foldl (update pl) (ip_view p0 k) (values_of k l)
  | SeqPart a, SeqPart b => a = b
  | _, _ => False
  end.

Lemma serialized_log s l : msg_stream_log s l -> msg_bin_log (Serialize s) l.
Proof using nonempty.
  intros (_ & Hst & He). unfold msg_bin_log, join_pairs, Serialize. rewrite SerializeOneBuffer_bytes. unfold bind, get.
  set (bs := concat _). unfold Size. cbn [buffer front]. rewrite Nat.sub_0_r.
  assert (length (buffer_ s) <= length bs)%nat as Hlen.
  { unfold bs. clear -nonempty. induction (buffer_ s) as [|kv b IH]; [done|]. cbn. rewrite length_app.
    pose proof (nonempty kv.1 kv.2). destruct (enc kv.1 ++ enc kv.2); [done|]. cbn. lia. }
  pose proof (read_pairs_all (buffer_ s) [] (length bs)) as Hr. cbn [app length] in Hr. fold bs in Hr. rewrite Hr; [|..|done].
  - by eexists _, _, _.
  - eapply Forall_impl; [exact Hst|]. intros kv [? ?]. split_and!; [done|done|apply nonempty].
Qed.

Lemma combined_log s l : msg_stream_log s l -> msg_stream_log (stream_Combine sort s) l.
Proof using update_comm sort_perm.
  intros Hs. pose proof Hs as (Hf & Hst & He). unfold stream_Combine. destruct (combine_func_ s) as [f|] eqn:Ef; [|exact Hs].
  specialize (Hf f eq_refl). unfold msg_stream_log. cbn. rewrite CombineOneBuffer_merged. split_and!.
  - rewrite Ef. by intros g [= <-].
  - assert (Forall stored (sort (buffer_ s))) as Hb by by rewrite sort_perm. unfold merged.
    destruct (sort (buffer_ s)) as [|x b]; [done|]. apply Forall_cons in Hb as [? ?]. by apply merge_runs_stored.
  - eapply same_effect_trans; [by apply merged_effect|]. eapply same_effect_trans; [|exact He]. by apply same_effect_perm.
Qed.

(** The joins into a partition whose keys are known succeed. *)
Lemma joins_all_known p l : ip_ok p -> (forall k, known p k) ->
  exists p' os, for_each l (ip_join (update pl)) p = Ok (tt, p', os) /\ ip_ok p' /\
    forall k, known p' k /\ ip_view p' k = apply_all (update pl) (ip_view p) l k.
Proof using update_key.
  intros Hok Hk. destruct (wp_none_Ok (for_each l (ip_join (update pl))) p (fun _ p' _ => ip_ok p' /\
      forall k, known p' k /\ ip_view p' k = apply_all (update pl) (ip_view p) l k)) as ([] & p' & os & Hrun & Hok' & Hv).
  - eapply (wp_for_each none (fun r p1 _ => ip_ok p1 /\ exists dn, l = dn ++ r /\
        forall k, known p1 k /\ ip_view p1 k = apply_all (update pl) (ip_view p) dn k)).
    + split; [done|]. exists []. auto.
    + intros kv r p1 os1 (Hok1 & dn & Heq & Hk1). eapply wp_mono; [apply ip_join_spec; [done|done|apply Hk1]|].
      intros [] p2 os2 [Hok2 Hv2]. split; [done|]. exists (dn ++ [kv]). split; [by rewrite Heq, <- app_assoc|].
      intros k. destruct (Hk1 k) as [Hkk Hv1]. destruct (Hv2 k Hkk) as [Hk2 ->]. split; [done|].
      unfold apply_all. rewrite foldl_app. cbn. unfold apply_one. destruct (decide (k = kv.1)); [|done]. by rewrite Hv1.
    + intros p2 os2 (Hok2 & dn & Heq & Hk2). rewrite app_nil_r in Heq. by subst dn.
  - by exists p', os.
Qed.

Lemma join_all_log x0 x l l' l2 : msg_part_log x0 x l -> same_effect l' l2 ->
  msg_part_log x0 (settle x (join_all pl l' x)) (l ++ l2).
Proof using update_key.
  intros Hx He. destruct x0 as [a|p0], x as [b|p]; cbn in Hx |- *; try done.
  destruct (for_each l' (ip_join (update pl)) p) as [[[u p'] os]|e] eqn:Er; cbn; intros Hp0; destruct (Hx Hp0) as [Hok Hv];
    destruct (joins_all_known p l' Hok (fun k => proj1 (Hv k))) as (p2 & os2 & Er2 & Hok2 & Hv2); rewrite Er in Er2; [|done].
  injection Er2 as -> -> ->. split; [done|]. intros k. split; [apply Hv2|]. rewrite (proj2 (Hv2 k)), apply_all_values, (proj2 (Hv k)).
  rewrite values_of_app, foldl_app. apply He.
Qed.

Lemma getter_keeps bin p r p' : ip_ok p -> (forall k, known p k) -> GetGetterFunc bin p = Ok (r, p') ->
  ip_ok p' /\ forall k, known p' k /\ ip_view p' k = ip_view p k.
Proof.
  intros Hok Hk. unfold GetGetterFunc. destruct (getter_loop (Size bin) empty_stream (bin, p)) as [[[r' s'] os]|e] eqn:Er; [|done].
  intros [= <- <-].
  refine (wp_Ok any _ _ _ _ _ (fun _ (s' : getter_state) _ => ip_ok s'.2 /\ forall k, known s'.2 k /\ ip_view s'.2 k = ip_view p k) Er _).
  clear Er. generalize (Size bin) empty_stream. intros fuel reply.
  assert (forall s : getter_state, (ip_ok s.2 /\ forall k, known s.2 k /\ ip_view s.2 k = ip_view p k) ->
    wp any (getter_loop fuel reply) s
      (fun _ (s' : getter_state) _ => ip_ok s'.2 /\ forall k, known s'.2 k /\ ip_view s'.2 k = ip_view p k)) as Hg; [|by apply Hg].
  revert reply. induction fuel as [|fuel IH]; intros reply s Hs; cbn [getter_loop]; wstep; wstep; (wstep; [by wstep|]); [by wstep|].
  wstep. apply zoom_wp. unfold wp at 1. destruct (dec s.1) as [[[key b'] o1]|e]; [|done]. wstep.
  apply zoom_wp. cbn [snd]. destruct Hs as [Hok1 Hv1].
  eapply wp_weaken; [apply ip_FindOrCreate_spec; [done|apply Hv1]|done|].
  intros i p1 o2 (Hok2 & Hi & _ & _ & Hv2). wstep. wstep. wstep. wstep. eapply wp_mono; [apply IH|by intros r3 s3 o3].
  cbn [snd]. split; [done|]. intros k. destruct (Hv1 k) as [Hk1 E1]. destruct (Hv2 k Hk1) as [Hk2 ->]. done.
Qed.

(** ** What the plan computes *)

Context (pid uc : Z).
Definition plan_functions : FunctionStore := Register pid pl (RegisterHelper uc empty_functions).
#[local] Instance plan_user : UserCode Part Str := plan_code plan_functions.

Lemma AddFunc_Some {F} (id id' : Z) (f g : F) : AddFunc id f ∅ !! id' = Some g -> id' = id /\ g = f.
Proof.
  unfold AddFunc, insert_new. cbn. rewrite lookup_empty. intros [[-> ->]|[_ E]]%lookup_insert_Some; [done|].
  by rewrite lookup_empty in E.
Qed.

#[local] Instance plan_log : EventLog Part Str (K * V).
Proof using update_key update_comm sort_perm nonempty.
  refine {| stream_log := msg_stream_log; bin_log := msg_bin_log; part_log := msg_part_log |}.
  - intros a la b lb (Hf & Ha & Ea) (_ & Hb & Eb). unfold msg_stream_log. cbn. split_and!; [done|by apply Forall_app|by apply same_effect_app].
  - apply combined_log.
  - apply serialized_log.
  - intros [a|p]; cbn; [done|]. intros [Hok Hk]. split; [done|]. intros k. by split.
  - intros id f x0 x l b l' (g & Hg & ->)%fmap_Some Hx (l2 & b' & os & Hb & He). cbn in Hg.
    apply AddFunc_Some in Hg as [_ ->]. unfold join_func. rewrite Hb. destruct x; [by destruct x0|by apply join_all_log].
  - intros id f x0 x l s l' (g & Hg & ->)%fmap_Some Hx (_ & _ & He). cbn in Hg.
    apply AddFunc_Some in Hg as [_ ->]. by apply join_all_log.
  - intros id f x0 x l b (g & Hg & ->)%fmap_Some Hx. cbn in Hg. apply AddFunc_Some in Hg as [_ ->].
    destruct x as [a|p]; [done|]. cbn. destruct (GetGetterFunc b p) as [[r p']|e] eqn:Eg; [|done]. cbn.
    destruct x0 as [a|p0]; [done|]. cbn in Hx |- *. intros Hp0. destruct (Hx Hp0) as [Hok Hv].
    destruct (getter_keeps b p r p' Hok (fun k => proj1 (Hv k)) Eg) as [Hok' Hv']. split; [done|].
    intros k. destruct (Hv' k) as [Hk' ->]. split; [done|apply Hv].
Defined.

(** The contents of the mapped partitions. *)
Context (contents : Z -> list T1).
Context (emits_ok : forall u kv, kv ∈ mappart pl (contents u) -> 0 <= mapper pl kv.1 < Z.of_nat (num_part pl) /\ stored kv).
Context (combine_ok : forall f, combine_func pl = Some f -> mergeable f).

(** The messages of mapped partition [u] for partition [p]. *)
Definition messages (t : jtok) : list (K * V) := filter (fun kv => mapper pl kv.1 = jpart t) (mappart pl (contents t.2)).

Lemma map_func_log u v : output_log messages u v (settle [] (map_func pl (SeqPart (contents u)))).
Proof using emits_ok combine_ok.
  intros q x. unfold map_func, GetMapPartFunc, result.
  destruct (wp_none_Ok _ _ _ (output_AddAll_spec (O := Empty_set) (mapper pl) (mappart pl (contents u)) (mkOutput (num_part pl)) tt
    ltac:(intros kv Hkv; unfold GetBufferSize; cbn; rewrite length_replicate; exact (proj1 (emits_ok u kv Hkv)))))
    as (o & [] & os & -> & _ & _ & _ & Ho). cbn [settle].
  assert (forall st, out_buffer_ o !! q = Some st -> Forall stored (buffer_ st) /\ buffer_ st = messages (Z.of_nat q, v, u)) as Hst.
  { intros st Hq. destruct (Ho q st Hq) as (st0 & [-> _]%lookup_replicate & _ & ->). cbn [buffer_ empty_out app]. split; [|done].
    apply Forall_forall. intros kv [_ Hkv]%list_elem_of_filter. by apply (emits_ok u). }
  destruct (combine_func pl) as [f|] eqn:Ef; cbn [out_buffer_ output_SetCombineFunc].
  - rewrite list_lookup_fmap. intros (st & Hq & ->)%fmap_Some. destruct (Hst st Hq) as [Hs Hm]. split_and!; cbn.
    + intros g [= <-]. by apply combine_ok.
    + done.
    + intros ob k. by rewrite Hm.
  - intros Hq. destruct (Hst x Hq) as [Hs Hm]. split_and!; [|done|intros ob k; by rewrite Hm].
    destruct (Ho q x Hq) as (st0 & [-> _]%lookup_replicate & -> & _). done.
Qed.

(** What one iteration adds to the object of key [k]. *)
Definition iteration_values (us : list Z) (k : K) : list V := us ≫= (fun u => values_of k (mappart pl (contents u))).

Lemma values_of_messages k v u : values_of k (messages (mapper pl k, v, u)) = values_of k (mappart pl (contents u)).
Proof using.
  unfold messages, values_of. cbn [jpart fst snd]. f_equal. rewrite list_filter_filter. apply list_filter_iff.
  intros kv. split; [tauto|]. intros <-. done.
Qed.
Lemma values_of_bind {A} k (l : list A) (f : A -> list (K * V)) : values_of k (l ≫= f) = l ≫= (fun a => values_of k (f a)).
Proof using. induction l as [|a l IH]; [done|]. by rewrite !bind_cons, values_of_app, IH. Qed.

(** The messages of [N] iterations over the partitions [us], in any order. *)
Lemma iterations_effect N us l k o : NoDup l -> NoDup us -> (forall v u, (v, u) ∈ l <-> 0 <= v < N /\ u ∈ us) ->
  foldl (update pl) o (values_of k (l ≫= (fun vu => messages (mapper pl k, vu.1, vu.2)))) =
  Nat.iter (Z.to_nat N) (fun o => foldl (update pl) o (iteration_values us k)) o.
Proof using update_comm.
  intros Hl Hus Hel. assert (l ≡ₚ seqZ 0 N ≫= (fun v => pair v <$> us)) as Hp.
  { apply NoDup_Permutation; [done| |].
    - apply NoDup_bind; [|intros; by apply NoDup_fmap_2; [intros ? ? [=]|]|apply NoDup_seqZ].
      intros v v' [w u] _ _ (? & [= -> _] & _)%list_elem_of_fmap (? & [= -> _] & _)%list_elem_of_fmap. done.
    - intros [v u]. rewrite Hel. split.
      + intros [Hv Hu]. apply list_elem_of_bind. exists v. split; [apply list_elem_of_fmap; by exists u|apply elem_of_seqZ; lia].
      + intros (w & (u' & [= -> ->] & Hu)%list_elem_of_fmap & Hv%elem_of_seqZ)%list_elem_of_bind. split; [lia|done]. }
  rewrite values_of_bind. rewrite (foldl_update_perm (update pl) _ ((seqZ 0 N ≫= (fun v => pair v <$> us)) ≫=
    (fun vu => values_of k (messages (mapper pl k, vu.1, vu.2))))) by (done || by rewrite Hp).
  clear Hl Hel Hp l. unfold seqZ. generalize (Z.to_nat N) as m. intros m. revert o.
  induction m as [|m IH]; intros o; [done|]. rewrite seq_S, fmap_app, !bind_app, foldl_app, IH. cbn.
  f_equal. rewrite app_nil_r. unfold iteration_values. clear. induction us as [|u us IH]; [done|].
  cbn. rewrite values_of_messages. f_equal. exact IH.
Qed.

Context `{IO : IterOrder}.
Abbreviation clusterS := (cluster (P := Part) (Stream := Str)).

(** The collection [mc] is in the nodes, with the contents above. *)
Definition holds_contents (mc : Z) (c : clusterS) : Prop :=
  forall n u x, n ∈ nodes c -> store_lookup (pm (st n.1)) mc u = Some x -> x = SeqPart (contents u).

Definition input_of (c : clusterS) (u : Z) (x : Part) : Prop :=
  u ∈ mjoin (local_maps <$> nodes c) /\ x = SeqPart (contents u).

Section run.
Context (sp : SpecWrapper) (mp : MapJoinSpec) (c0 c : clusterS).
Context (Hty : spec_type sp = TMapJoin) (Hmp : as_MapJoin (spec sp) = Some mp).
Context (Huc : update_collection_id mp = uc) (Hmc : map_collection_id mp <> uc).
Context (Hinit : cinitial sp c0) (Hcont : holds_contents (map_collection_id mp) c0) (Hrun : rtc cstep c0 c).

Lemma run_mapped_inputs n u v o : n ∈ nodes c -> Submit (TMapped u v o) ∈ n.2 ->
  u ∈ mjoin (local_maps <$> nodes c0) /\ o = settle [] (map_func pl (SeqPart (contents u))).
Proof using Hty Hmp Huc Hmc Hinit Hcont Hrun.
  intros Hn Ho. assert (fn_Getter (map_collection_id mp) = None) as Hget.
  { cbn. apply fmap_None. destruct (AddFunc uc getter_func ∅ !! map_collection_id mp) eqn:E; [|done].
    by apply AddFunc_Some in E as [? _]. }
  assert (update_collection_id mp <> map_collection_id mp) as Hne by congruence.
  pose proof (run_inputs (map_collection_id mp) (update_collection_id mp) (spec_id sp) (input_of c0) Hne Hget
    sp c0 c (crun_start _ _ Hinit)) as Hin.
  assert (Forall (inputs_node (map_collection_id mp) (update_collection_id mp) (spec_id sp)
    (input_of c0)) (nodes c)) as Hall.
  { apply Hin; [|done]. apply (cinitial_inputs sp mp); [done..|]. intros n0 u0 x Hn0 Hx. split; [|by eapply Hcont].
    apply elem_of_all_maps. exists n0. split; [done|]. unfold maps_here.
    destruct (cinitial_Setup sp c0 n0 (spec_ids sp) Hinit Hn0 (fun s => Setup_ids sp s Hty)) as (mp' & Hmp' & Hids & _).
    assert (mp' = mp) as -> by congruence. rewrite Hids. by exists x. }
  rewrite Forall_forall in Hall. destruct (Hall n Hn) as (_ & _ & Hm).
  destruct (Hm u v o Ho) as (x & f & (Hu & ->) & Hf & ->). split; [done|].
  cbn in Hf. apply fmap_Some in Hf as (g & Hg & ->). by apply AddFunc_Some in Hg as [_ ->].
Qed.

Lemma run_emitted : emitted messages c.
Proof using All.
  intros n Hn u v o Ho. destruct (run_mapped_inputs n u v o Hn Ho) as [_ ->]. apply map_func_log.
Qed.

(** The partitions that have versions at the end are those mapped at the start. *)
Lemma run_versions N u : 0 < N -> Forall at_rest (nodes c) ->
  Forall (fun n => map_Forall (fun _ w => w = N) (map_versions_ (pc (st n.1)))) (nodes c) ->
  (exists n, n ∈ nodes c /\ is_Some (map_versions_ (pc (st n.1)) !! u)) <-> u ∈ mjoin (local_maps <$> nodes c0).
Proof using Hty Hmp Huc Hmc Hinit Hcont Hrun.
  intros HN Hrest Hv. split.
  - intros (n & Hn & [w Hw]). destruct (crun_inv _ _ (crun_rtc _ _ _ (crun_start _ _ Hinit) Hrun)) as (_ & (hs & Hok & _) & _).
    pose proof Hn as [j Hj]%list_elem_of_lookup. destruct (Forall2_lookup_r _ _ _ _ _ Hok Hj) as (h & _ & Hokn).
    rewrite Forall_forall in Hrest, Hv. destruct (rest_mapped _ _ n u w Hokn (Hrest n Hn) Hw) as (o & Ho).
    { by rewrite (Hv n Hn u w Hw). }
    by destruct (run_mapped_inputs n u 0 o Hn Ho).
  - intros Hu. apply (run_versioned sp c0 c u (crun_start _ _ Hinit) Hrun). by eapply cinitial_versioned.
Qed.
End run.

(** The object of a key at the end of the plan. *)
Lemma plan_effect sp mp c0 c N i n k q :
  spec_type sp = TMapJoin -> as_MapJoin (spec sp) = Some mp ->
  update_collection_id mp = uc -> map_collection_id mp <> uc ->
  cinitial sp c0 -> placed c0 -> unshared c0 ->
  holds_contents (map_collection_id mp) c0 ->
  rtc cstep c0 c -> net c = [] -> Forall at_rest (nodes c) ->
  Forall (fun n => map_Forall (fun _ w => w = N) (map_versions_ (pc (st n.1)))) (nodes c) ->
  Forall (fun n => 0 <= mapper pl k < num_update_part_ (pc (st n.1))) (nodes c) ->
  nodes c !! i = Some n -> updated_here n (mapper pl k) = Some (IndexedPart q) ->
  exists n0 q0, nodes c0 !! i = Some n0 /\ updated_here n0 (mapper pl k) = Some (IndexedPart q0) /\
    (ip_ok q0 -> (forall k', known q0 k') ->
      ip_view q k = Nat.iter (Z.to_nat N) (fun o => foldl (update pl) o
        (iteration_values (mjoin (local_maps <$> nodes c0)) k)) (ip_view q0 k)).
Proof using update_key update_comm sort_perm nonempty emits_ok combine_ok.
  intros Hty Hmp Huc Hmc Hinit Hpl Hun Hcont Hrun Hnet Hrest Hv Hk Hn Hq.
  assert (0 <= mapper pl k) as Hk0 by (eapply Forall_lookup_1 in Hk; [|exact Hn]; cbn in Hk; lia).
  destruct (resting_plan_result messages sp c0 c N i n (mapper pl k) (IndexedPart q) Hinit Hpl Hun Hrun) as (n0 & x0 & l & Hn0 & Hx0 & Hl & Hel & Hlog);
    [by eapply run_emitted|done..|by eapply Forall_impl; [exact Hk|]; intros ? [_ ?]|done|done|].
  destruct x0 as [a|q0]; [done|]. exists n0, q0. split; [done|]. split; [done|]. intros Hok Hkn.
  destruct (Hlog (conj Hok Hkn)) as [_ Hview]. destruct (Hview k) as [_ ->].
  apply iterations_effect; [done|by eapply all_maps_NoDup|]. intros v u. rewrite Hel. split.
  - intros [Hvn Hu]. split; [done|]. eapply (run_versions sp mp c0 c); try done. lia.
  - intros [Hvn Hu]. split; [done|]. eapply (run_versions sp mp c0 c); try done. lia.
Qed.
End MapPlan.

(** ** A run: best scores

    Objects are scores of players; the map emits player and score, the scores of one player
    are combined and joined with [max]. *)

Definition raise_to (o : Z * Z) (v : Z) : Z * Z := (o.1, Z.max o.2 v).
Definition best_score : MapPartJoin :=
  SetMapPart (fun ps : Z * Z => [ps])
    {| mapper := fun k => k mod 2; num_part := 2; mappart := fun _ => []; update := raise_to;
       combine_func := Some Z.max |}.
Definition scores (u : Z) : list (Z * Z) := if u =? 0 then [(3, 10); (4, 50); (3, 30)] else [(4, 20); (6, 5); (3, 25)].
Abbreviation ScorePart := (Part (K := Z) (T1 := Z * Z) (T2 := Z * Z)).
Definition score_user : UserCode ScorePart (MapOutputStream Z Z) :=
  plan_user (T1 := Z * Z) key_sort (fun _ => empty_stream) best_score 0 2.
Definition score_start (u : Z) : PartitionManager ScorePart :=
  {| partitions_ := <[1 := {[u := SeqPart (scores u)]}]> {[2 := {[u := IndexedPart new_indexed]}]} |}.
Definition score_run :=
  computed (UC := score_user) (IO := iter_sorted) (counting_plan (-1) 0 1)
    (<[1 := view_of 1 [1; 2]]> {[2 := view_of 2 [1; 2]]}) [(1, score_start 0); (2, score_start 1)] two_nodes_steps.

Lemma score_emits u kv : kv ∈ mappart best_score (scores u) ->
  0 <= mapper best_score kv.1 < Z.of_nat (num_part best_score) /\ stored kv.
Proof.
  unfold scores. destruct (u =? 0); cbn; intros Hkv;
    (split; [pose proof (Z.mod_pos_bound kv.1 2); lia|]);
    repeat (apply elem_of_cons in Hkv as [->|Hkv]; [split; cbn; unfold storable; cbn; unfold in_int; lia|]); by apply elem_of_nil in Hkv.
Qed.
Lemma score_combines f : combine_func best_score = Some f -> mergeable best_score f.
Proof.
  intros [= <-]. split.
  - intros [k o] a b. cbn. unfold raise_to. cbn. f_equal. lia.
  - unfold storable. cbn. unfold in_int. lia.
Qed.

(** The partitions of the update collection on a node. *)
Definition local_updates {P Stream} (n : sys (P := P) (Stream := Stream) * list (out P Stream)) : list Z :=
  (entries (lookup_or ∅ (update_collection_id_ (pc (st n.1))) (partitions_ (pm (st n.1))))).*1.
Lemma local_updates_unshared {P Stream} (c : cluster (P := P) (Stream := Stream)) :
  NoDup (mjoin (local_updates <$> nodes c)) -> unshared c.
Proof.
  intros Hd i j ni nj p Hi Hj Hpi Hpj.
  assert (forall n : sys * list (out P Stream), is_Some (updated_here n p) -> p ∈ local_updates n) as Hm.
  { intros n [x Hx]. apply list_elem_of_fmap. exists (p, x). split; [done|]. by rewrite elem_of_entries, lookup_or_store. }
  eapply (NoDup_mjoin_inv (local_updates <$> nodes c)); [done|..|by apply Hm, Hpi|by apply Hm, Hpj]; by rewrite list_lookup_fmap, ?Hi, ?Hj.
Qed.

