(* ===== verification/MapWith.v ===== *)
(** * Map plans with a second collection
    (core/plan/mappartwithupdate.hpp, mapwithupdate.hpp, core/cache/abstract_fetcher.hpp)

    The function of the user maps a partition of the first collection and reads a second one
    through a typed cache.  What it does with the cache is an interaction [CacheProg]: it asks
    for objects or for whole partitions, which it releases afterwards, and goes on with the
    answers.  The cache turns these into calls of the fetcher, of which a map plan only knows
    the interface [AbstractFetcher].  [Serves] is what a fetcher promises while a map function
    runs; against a fetcher that keeps the promise, a map plan with a second collection is a
    map plan whose map function knows that collection ([mapwith_is_map]). *)

From stdpp Require Import gmultiset.
From S2P Require Import Prelude BinStream Specs Index Messages Partition MapOutput Partitions PlanFunctions TypedCache PlanController PlanFrame PlanExclusion PlanTokens PlanProgress PlanCluster PlanDrain PlanComplete PlanSim PlanEvents PlanResult PlanInputs MapFunctions.

(** ** The interface of the fetcher *)

(** Partitions are of type [WP]; [F] is the state behind the interface. *)
Class AbstractFetcher (WP F : Type) := {
  FetchObjs : Z -> Z -> Z -> gmap Z BinStream -> M F Empty_set (list BinStream);
  FetchPart : FetchMeta -> M F Empty_set WP;
  fet_FinishPart : FetchMeta -> M F Empty_set unit }.

Section With.
(** The map collection holds [T1], the second one [T2], the update collection [T3]. *)
Context {K V T1 T3 : Type} `{Countable K, !KeyOrder K, !KeyedObject K T3} `{!Serial K, !Serial V, !Serial T3}.
Context {K2 T2 : Type} `{Countable K2, !KeyedObject K2 T2, !KeyOrder K2, !Serial K2, !Serial T2}.
Abbreviation Str := (MapOutputStream K V).
Abbreviation Prt := (Part (K := K) (T1 := T1) (T2 := T3)).
Abbreviation WP := (IndexedSeqPartition K2 T2).
Context {F : Type} `{!AbstractFetcher WP F}.
Abbreviation FM := (M F Empty_set).

(** ** What a map function does with its cache *)

Inductive CacheProg (A : Type) : Type :=
| CDone (a : A)
| CGet (keys : list K2) (k : list T2 -> CacheProg A)
| CGetPartition (p : Z) (k : WP -> CacheProg A)
| CReleasePart (p : Z) (k : CacheProg A).
Arguments CDone {A} _.
Arguments CGet {A} _ _.
Arguments CGetPartition {A} _ _.
Arguments CReleasePart {A} _ _.

Fixpoint cbind {A B} (m : CacheProg A) (f : A -> CacheProg B) : CacheProg B :=
  match m with
  | CDone a => f a
  | CGet keys k => CGet keys (fun l => cbind (k l) f)
  | CGetPartition p k => CGetPartition p (fun x => cbind (k x) f)
  | CReleasePart p k => CReleasePart p (cbind k f)
  end.

(** [TypedCache::Get], [GetPartition] and [ReleasePart] on the fetcher. *)
Definition cache_Get (c : TypedCache) (keys : list K2) : FM (list T2) := fun s =>
  match FetchObjs (tc_plan_id c) (tc_partition_id c) (tc_collection_id c) (tc_Partition c keys) s with
  | Ok (rets, s', os) => match tc_Get (fun _ => Ok rets) c keys with Ok objs => Ok (objs, s', os) | Err e => Err e end
  | Err e => Err e
  end.
Definition cache_GetPartition (c : TypedCache (K := K2)) (partition_id : Z) : FM WP := FetchPart (part_meta c partition_id).
Definition cache_ReleasePart (c : TypedCache (K := K2)) (partition_id : Z) : FM unit := fet_FinishPart (part_meta c partition_id).

Fixpoint run_cache {A} (c : TypedCache) (m : CacheProg A) : FM A :=
  match m with
  | CDone a => ret a
  | CGet keys k => l <-- cache_Get c keys ;; run_cache c (k l)
  | CGetPartition p k => x <-- cache_GetPartition c p ;; run_cache c (k x)
  | CReleasePart p k => cache_ReleasePart c p ;;; run_cache c k
  end.

(** ** The plan *)

Record MapPartWithJoin := {
  with_collection : Z; with_mapper : K2 -> Z;
  mappartwith : list T1 -> CacheProg (list (K * V));
  mw_staleness : Z;
  (** the update collection, the update and the combine function *)
  mw_join : MapPartJoin (K := K) (V := V) (T1 := T1) (T2 := T3) }.

(** [MapWithJoin]: a function of one object; the output is filled as the objects come. *)
Definition SetMapPartWith (mapwith : T1 -> CacheProg (list (K * V))) (pl : MapPartWithJoin) : MapPartWithJoin :=
  {| with_collection := with_collection pl; with_mapper := with_mapper pl;
     mappartwith := foldl (fun o elem => cbind o (fun l => cbind (mapwith elem) (fun l' => CDone (l ++ l')))) (CDone []);
     mw_staleness := mw_staleness pl; mw_join := mw_join pl |}.

(** The cache that a call of the function makes. *)
Definition call_cache (pl : MapPartWithJoin) (pid version part_id : Z) : TypedCache :=
  {| tc_plan_id := pid; tc_partition_id := part_id; tc_version := version; tc_collection_id := with_collection pl;
     tc_mapper := with_mapper pl; tc_staleness := mw_staleness pl; tc_local_mode := true |}.

(** [part_id] is [partition->id]. *)
Definition GetMapPartWithFunc (pl : MapPartWithJoin) (pid version part_id : Z) (partition : Prt) : FM (Output K V) :=
  match partition with
  | SeqPart p =>
      l <-- run_cache (call_cache pl pid version part_id) (mappartwith pl p) ;;
      output_AddAll (mapper (mw_join pl)) l (mkOutput (num_part (mw_join pl)))
  | IndexedPart _ => throw (Undefined "static_cast<TypedPartition<ObjT1>*>")
  end.
(** The function registered with [AddMapWith]. *)
Definition mapwith_func (pl : MapPartWithJoin) (pid version part_id : Z) (partition : Prt) : FM (list Str) :=
  o <-- GetMapPartWithFunc pl pid version part_id partition ;;
  ret (out_buffer_ (match combine_func (mw_join pl) with Some f => output_SetCombineFunc f o | None => o end)).

(** The function store with its map [mapwiths_]. *)
Record WithFunctions := {
  other_functions : FunctionStore (K := K) (V := V) (T1 := T1) (T2 := T3);
  mapwiths_ : gmap Z (Z -> Z -> Z -> Prt -> FM (list Str)) }.
Definition RegisterWith (plan_id : Z) (pl : MapPartWithJoin) (f : WithFunctions) : WithFunctions :=
  {| mapwiths_ := AddFunc plan_id (mapwith_func pl) (mapwiths_ f);
     other_functions := (other_functions f)
       <| updates_ ::= AddFunc plan_id (join_func (mw_join pl)) |>
       <| updates2_ ::= AddFunc plan_id (join_func2 (mw_join pl)) |> |}.

(** ** What the fetcher promises *)

(** [store] are the partitions of the second collection; [I held] holds of the fetcher's state
    while the map function has the partitions [held]. *)
Class Serves (store : Z -> WP) (c : TypedCache (K := K2)) (I : gmultiset Z -> F -> Prop) : Prop := {
  serves_objs : forall held s keys, I held s -> (forall k, k ∈ keys -> servable store c k) ->
    wp none (FetchObjs (tc_plan_id c) (tc_partition_id c) (tc_collection_id c) (tc_Partition c keys)) s
      (fun rets s' _ => I held s' /\ exists replies, answers store (tc_Partition c keys) replies /\ rets ≡ₚ replies);
  serves_part : forall held s p, I held s ->
    wp none (FetchPart (part_meta c p)) s (fun x s' _ => x = store p /\ I (held ⊎ {[+ p +]}) s');
  serves_finish : forall held s p, I held s -> p ∈ held ->
    wp none (fet_FinishPart (part_meta c p)) s (fun _ s' _ => I (held ∖ {[+ p +]}) s') }.

(** What the map function computes when it knows the second collection. *)
Fixpoint eval {A} (store : Z -> WP) (c : TypedCache) (m : CacheProg A) : A :=
  match m with
  | CDone a => a
  | CGet keys k => eval store c (k (object store c <$> keys))
  | CGetPartition p k => eval store c (k (store p))
  | CReleasePart p k => eval store c k
  end.
(** It asks for keys in increasing order, which the collection can answer for, releases only
    partitions that it has, and all of them by its end. *)
Inductive well_used {A} (store : Z -> WP) (c : TypedCache) : gmultiset Z -> CacheProg A -> Prop :=
| used_done a : well_used store c ∅ (CDone a)
| used_get held keys k : (forall x, x ∈ keys -> servable store c x) -> StronglySorted (fun a b => key_lt b a = false) keys ->
    well_used store c held (k (object store c <$> keys)) -> well_used store c held (CGet keys k)
| used_part held p k : well_used store c (held ⊎ {[+ p +]}) (k (store p)) -> well_used store c held (CGetPartition p k)
| used_release held p k : p ∈ held -> well_used store c (held ∖ {[+ p +]}) k -> well_used store c held (CReleasePart p k).

Lemma run_cache_spec {A} store c I `{!Serves store c I} (m : CacheProg A) held s : well_used store c held m -> I held s ->
  wp none (run_cache c m) s (fun a s' _ => a = eval store c m /\ I ∅ s').
Proof.
  intros Hm. revert s. induction Hm as [a|held keys k Hk Hs _ IH|held p k _ IH|held p k Hp _ IH]; intros s HI; cbn [run_cache eval].
  - by wstep.
  - wstep. pose proof (serves_objs held s keys HI Hk) as Hf. unfold cache_Get, wp in *.
    destruct (FetchObjs _ _ _ _ s) as [[[rets s'] os]|e]; [|done]. destruct Hf as (HI' & replies & Ha & Hperm).
    rewrite (tc_Get_objects store c keys (fun _ => Ok rets) replies rets) by done. by apply IH.
  - wstep. eapply wp_mono; [by apply serves_part|]. intros x s' os (-> & HI'). by apply IH.
  - wstep. eapply wp_mono; [by apply serves_finish|]. intros [] s' os HI'. by apply IH.
Qed.

(** ** The plan as a map plan *)

Definition as_map (store : Z -> WP) (c : TypedCache) (pl : MapPartWithJoin) : MapPartJoin (K := K) (V := V) (T1 := T1) (T2 := T3) :=
  (mw_join pl) <| mappart := fun l => eval store c (mappartwith pl l) |>.

Lemma output_AddAll_state {S O} m l (o : Output K V) (s : S) :
  output_AddAll (O := O) m l o s =
  match result (output_AddAll (O := Empty_set) m l o tt) with Ok o' => Ok (o', s, []) | Err e => Err e end.
Proof.
  revert o. induction l as [|kv l IH]; intros o; [done|]. cbn [output_AddAll]. unfold bind, output_Add.
  destruct (_ && _); [|done]. unfold ret. rewrite IH. unfold result. by destruct (output_AddAll _ _ _ tt) as [[[o' []] os]|e].
Qed.

End With.
Arguments CDone {K2 T2 EqDecision1 H0 A} _.
Arguments CGet {K2 T2 EqDecision1 H0 A} _ _.
Arguments CGetPartition {K2 T2 EqDecision1 H0 A} _ _.
Arguments CReleasePart {K2 T2 EqDecision1 H0 A} _ _.

(** ** A fetcher that has the collection *)

(** Its state are the partitions that are held. *)
Section direct.
Context {K2 T2 : Type} `{Countable K2, !KeyedObject K2 T2, !KeyOrder K2, !Serial K2, !Serial T2}.
Context (store : Z -> IndexedSeqPartition K2 T2).
Definition direct_replies (requests : gmap Z BinStream) : res (list BinStream) :=
  foldr (fun kv rets => match GetGetterFunc kv.2 (store kv.1), rets with
    | Ok (r, _), Ok rs => Ok (r :: rs) | Err e, _ => Err e | _, Err e => Err e end) (Ok []) (entries requests).
Definition direct_fetcher : AbstractFetcher (IndexedSeqPartition K2 T2) (gmultiset Z) :=
  {| FetchObjs := fun _ _ _ requests s => match direct_replies requests with Ok rs => Ok (rs, s, []) | Err e => Err e end;
     FetchPart := fun meta => modify (fun held => held ⊎ {[+ fm_partition_id meta +]}) ;;; ret (store (fm_partition_id meta));
     fet_FinishPart := fun meta =>
       held <-- get ;; check (bool_decide (fm_partition_id meta ∈ held)) "" ;;; put (held ∖ {[+ fm_partition_id meta +]}) |}.
Lemma direct_replies_answers requests replies : answers store requests replies -> direct_replies requests = Ok replies.
Proof.
  unfold answers, direct_replies. induction 1 as [|kv r l rs [p' Hp] _ IH]; [done|]. cbn. by rewrite Hp, IH.
Qed.
Lemma direct_serves c : Serves (AbstractFetcher0 := direct_fetcher) store c (fun held s => s = held).
Proof.
  split.
  - intros held s keys -> Hk. pose proof (group_answers store c keys Hk) as Ha. unfold wp. cbn.
    rewrite (direct_replies_answers _ _ Ha). split; [done|]. by eexists.
  - intros held s p ->. cbn. wstep. wstep. by wstep.
  - intros held s p -> Hp. cbn. wstep. wstep. rewrite bool_decide_eq_true_2 by done. by wsteps.
Qed.
End direct.

(** Every number asks for two objects and for a partition. *)
Definition ask (e : Z) : CacheProg (K2 := Z) (T2 := Z * Z) (list (Z * Z)) :=
  CGet [e; e + 1] (fun objs => CGetPartition 1 (fun part => CReleasePart 1
    (CDone [(e, foldr Z.add (Z.of_nat (length (storage_ part))) objs.*2)]))).
Definition asking_plan : MapPartWithJoin (K := Z) (V := Z) (T1 := Z) (T3 := Z * Z) (K2 := Z) (T2 := Z * Z) :=
  SetMapPartWith ask {| with_collection := 7; with_mapper := fun k => k mod 2; mappartwith := fun _ => CDone []; mw_staleness := 1;
    mw_join := {| mapper := fun k => k mod 3; num_part := 3; mappart := fun _ => [];
                  update := fun o v => (o.1, o.2 + v); combine_func := None |} |}.

