(* ===== verification/PlanLedger.v ===== *)
(** * What a node knows about the progress of a plan

    A plan controller keeps, for every partition of the update collection, the number of
    complete iterations and the mapped partitions whose updates of the current iteration have
    been applied; for every partition of the map collection its version; and the version of
    the plan.  This file says how each handler and task changes them, for a node that takes no
    part in a migration: which reports the scheduler gets, that a map is started whenever the
    plan's version allows it, and that none is started before. *)

From S2P Require Import Prelude BinStream Specs Index Messages Partition PlanController PlanFrame PlanTokens PlanProgress PlanDrain.

Section Ledger.
Context {P Stream : Type} `{UserCode P Stream} `{IterOrder}.
Abbreviation NodeS := (NodeSt P Stream).
Abbreviation outs := (list (out P Stream)).
Abbreviation Comp := (M NodeS (out P Stream)).

Definition uversion (c : PC Stream) (p : Z) : Z := lookup_or 0 p (update_versions_ c).
Definition joined (c : PC Stream) (p v : Z) : gset Z := tracker_get p v (update_tracker_ c).

(** What only [Setup] sets. *)
Definition frozen (s : NodeS) :=
  (map_collection_id_ (pc s), update_collection_id_ (pc s), num_upstream_part_ (pc s), checkpoint_interval_ (pc s),
   expected_num_iter_ (pc s), staleness_ (pc s), plan_id_ (pc s), stop_updateing_partitions_ (pc s), my_id s).

(** Outputs that tell the scheduler nothing about updates and start no checkpoint. *)
Definition out_plain (o : out P Stream) : Prop :=
  match o with
  | ToScheduler m => c_flag m = CfMap
  | Submit (TCheckpoint _ _) => False
  | Push (kStart | kUpdateVersion _ | kFinishCheckpoint _) => False
  | _ => True
  end.

Definition updating (s s' : NodeS) : Prop :=
  forall p, is_Some (running_updates_ (pc s) !! p) -> is_Some (running_updates_ (pc s') !! p).

(** A step that the ledger does not see; new maps and updates may start. *)
Definition unseen (s : NodeS) (os : outs) (s' : NodeS) : Prop :=
  frozen s' = frozen s /\ min_version_ (pc s') = min_version_ (pc s) /\
  map_versions_ (pc s') = map_versions_ (pc s) /\ running_maps_ (pc s) ⊆ running_maps_ (pc s') /\
  (forall p, uversion (pc s') p = uversion (pc s) p) /\ (forall p v, joined (pc s') p v = joined (pc s) p v) /\
  updating s s' /\ Forall out_plain os.
(** The same, with no new maps. *)
Definition keeps_ledger (s : NodeS) (os : outs) (s' : NodeS) : Prop :=
  unseen s os s' /\ running_maps_ (pc s') = running_maps_ (pc s).

#[global] Instance unseen_tracking : Tracking unseen.
Proof.
  split; [intros s; split_and!; first [done | by intros p]|]. intros s1 s2 s3 os os' (F1 & M1 & V1 & R1 & U1 & T1 & P1 & O1) (F2 & M2 & V2 & R2 & U2 & T2 & P2 & O2).
  split_and!; [congruence|congruence|congruence|set_solver|intros; by rewrite U2|intros; by rewrite T2|by intros p ?; apply P2, P1|by apply Forall_app].
Qed.
#[global] Instance keeps_ledger_tracking : Tracking keeps_ledger.
Proof.
  split; [by split; [apply track_refl|]|]. intros s1 s2 s3 os os' [H1 E1] [H2 E2].
  split; [by eapply track_trans|congruence].
Qed.
Abbreviation keeping := (tracks (P := P) (Stream := Stream) keeps_ledger).

Lemma keeps_ledger_same s os s' :
  frozen s' = frozen s -> min_version_ (pc s') = min_version_ (pc s) ->
  (map_versions_ (pc s'), running_maps_ (pc s')) = (map_versions_ (pc s), running_maps_ (pc s)) ->
  (forall p, uversion (pc s') p = uversion (pc s) p) -> (forall p v, joined (pc s') p v = joined (pc s) p v) ->
  updating s s' -> Forall out_plain os -> keeps_ledger s os s'.
Proof. intros ? ? [= E1 E2] ? ? ? ?. split; [|done]. split_and!; try done. by rewrite E2. Qed.

Lemma uversion_touch p q (c : PC Stream) : uversion (c <| update_versions_ ::= touch 0 p |>) q = uversion c q.
Proof. apply lookup_or_touch. Qed.
Lemma joined_touch p v q w (c : PC Stream) : joined (c <| update_tracker_ ::= tracker_touch p v |>) q w = joined c q w.
Proof. apply tracker_get_touch. Qed.
End Ledger.

Ltac ledger_skip :=
  intros; first
    [ apply keeps_ledger_same;
      first [reflexivity | (by repeat constructor) | (intros ? ?; assumption)
            | (intros; apply lookup_or_touch) | (intros; apply tracker_get_touch)
            | (intros ?; cbn; apply is_Some_insert)]
    | unfold wp; repeat case_match; first [done | apply keeps_ledger_same; first [reflexivity | (by repeat constructor) | (intros ? ?; assumption)]] ].
Ltac ledger_step := track_step_with ledger_skip.
Ltac solve_ledger := repeat ledger_step.

Section Handlers.
Context {P Stream : Type} `{UserCode P Stream} `{IterOrder}.
Abbreviation NodeS := (NodeSt P Stream).
Abbreviation outs := (list (out P Stream)).
Abbreviation Comp := (M NodeS (out P Stream)).
Abbreviation keeping := (tracks (P := P) (Stream := Stream) keeps_ledger).

Lemma keeping_RunFetchRequest m : keeping (RunFetchRequest m).
Proof. unfold RunFetchRequest. solve_ledger. Qed.
Hint Resolve keeping_RunFetchRequest : track_db.
Lemma keeping_IsJoinedBefore m : keeping (IsJoinedBefore m).
Proof. unfold IsJoinedBefore. solve_ledger. Qed.
Hint Resolve keeping_IsJoinedBefore : track_db.
Lemma keeping_TryRunWaitingJoins p : keeping (TryRunWaitingJoins p).
Proof.
  unfold TryRunWaitingJoins. ledger_step; [solve_ledger|]. generalize (total_waiting a).
  intros n. revert p. induction n as [|n IH]; intros p; cbn [TryRunWaitingJoins_];
    unfold try_waiting, run_first_waiting, RunJoin; solve_ledger.
Qed.
Hint Resolve keeping_TryRunWaitingJoins : track_db.
Lemma keeping_Prepare p v us x : keeping (PrepareMsgAndSend p v us x).
Proof. unfold PrepareMsgAndSend, cmap_Lookup, cmap_Get, mapper_Get. solve_ledger. Qed.
Hint Resolve keeping_Prepare : track_db.
Lemma keeping_PeriodicCombine : keeping PeriodicCombine.
Proof. unfold PeriodicCombine. solve_ledger. Qed.
Lemma keeping_ReceiveFetchRequest fm bin sd rc : keeping (ReceiveFetchRequest fm bin sd rc).
Proof. unfold ReceiveFetchRequest. solve_ledger. Qed.
Lemma keeping_FinishFetch p u : keeping (FinishFetch p u).
Proof. unfold FinishFetch. solve_ledger. Qed.

(** Every task but the one that writes a checkpoint. *)
Lemma keeping_run_task t : match t with TCheckpoint _ _ => False | _ => True end -> keeping (run_task t).
Proof.
  destruct t as [p v x|p v o|m|m v|p url|p v l]; cbn [run_task]; intros Ht.
  - unfold run_map. solve_ledger.
  - unfold run_mapped, AddMapOutput, AddStream. solve_ledger.
  - unfold run_join. solve_ledger.
  - unfold run_fetch. solve_ledger.
  - done.
  - unfold run_combine. solve_ledger.
Qed.

(** ** Starting maps *)

(** A partition that the plan's version allows to be mapped is being mapped, or an update
    keeps it. *)
Definition attended (c : PC Stream) (u w : Z) : Prop :=
  w = expected_num_iter_ c \/ min_version_ c < w \/ u ∈ running_maps_ c \/
  (map_collection_id_ c = update_collection_id_ c /\ is_Some (running_updates_ c !! u)).
Definition awake (c : PC Stream) : Prop := forall u w, map_versions_ c !! u = Some w -> attended c u w.
(** No map is ahead of the plan's version by more than the staleness. *)
Definition within (c : PC Stream) : Prop := forall u w, map_versions_ c !! u = Some w ->
  w <= min_version_ c + staleness_ c + 1 /\ (u ∈ running_maps_ c -> w <= min_version_ c + staleness_ c).

Lemma unseen_attended (s : NodeS) os s' u w : unseen s os s' -> attended (pc s) u w -> attended (pc s') u w.
Proof.
  intros (F & M & V & R & _ & _ & Hu & _). injection F as E1 E2 E3 E4 E5 E6 E7 E8 E9. unfold attended.
  rewrite E1, E2, E5, M. intros [?|[?|[?|[? ?]]]]; [by left|right; by left|right; right; left; set_solver|].
  right; right; right. split; [done|by apply Hu].
Qed.
Lemma unseen_awake (s : NodeS) os s' : unseen s os s' -> awake (pc s) -> awake (pc s').
Proof.
  intros Hs Ha u w Hw. eapply unseen_attended; [done|]. apply Ha. destruct Hs as (_ & _ & V & _). by rewrite V in Hw.
Qed.
Lemma keeps_within (s : NodeS) os s' : keeps_ledger s os s' -> within (pc s) -> within (pc s').
Proof.
  intros [(F & M & V & _) R] Hw u w. injection F as E1 E2 E3 E4 E5 E6 E7 E8 E9. rewrite V, M, R, E6. apply Hw.
Qed.

Lemma wp_IsMapRunnable_at u w (s : NodeS) (Q : bool -> NodeS -> outs -> Prop) :
  map_versions_ (pc s) !! u = Some w -> stop_updateing_partitions_ (pc s) = ∅ -> 0 <= staleness_ (pc s) ->
  (forall b : bool, (if b then w <= min_version_ (pc s) + staleness_ (pc s) else attended (pc s) u w) -> Q b s []) ->
  wp any (IsMapRunnable u) s Q.
Proof.
  intros Hw Hst Hz HQ.
  assert (s <| pc ::= fun c => c <| map_versions_ ::= touch 0 u |> |> = s) as Es.
  { destruct s as [c q cm id]. cbn in *. unfold upd. cbn. f_equal. destruct c. cbn in *. by rewrite touch_present. }
  unfold IsMapRunnable, mod_pc. wstep. wstep. wstep.
  { wstep. apply HQ. right; right; left. by apply bool_decide_eq_true in Hif. }
  wstep.
  { wstep. apply HQ. right; right; right. apply andb_true_iff in Hif0 as [H1 H2]. split; [by apply Z.eqb_eq|].
    by apply bool_decide_eq_true in H2. }
  wstep.
  { wstep. apply andb_true_iff in Hif1 as [_ H2]. rewrite Hst in H2. apply bool_decide_eq_true in H2 as [? H2].
    by rewrite lookup_empty in H2. }
  wstep. wstep. rewrite Es, (lookup_or_Some _ _ _ _ Hw). wstep.
  { wstep. apply HQ. left. by apply Z.eqb_eq. }
  wstep. apply HQ. destruct (w <=? _) eqn:E; [by apply Z.leb_le|]. apply Z.leb_gt in E. right; left. lia.
Qed.

Lemma TryRunSomeMaps_ledger (s : NodeS) :
  stop_updateing_partitions_ (pc s) = ∅ -> min_version_ (pc s) <> expected_num_iter_ (pc s) ->
  0 <= staleness_ (pc s) -> within (pc s) ->
  wp any TryRunSomeMaps s (fun _ s' os => unseen s os s' /\ awake (pc s') /\ within (pc s')).
Proof.
  intros Hst Hmin Hz Hwi. unfold TryRunSomeMaps. wstep. wstep. wstep; [by destruct Hmin; apply Z.eqb_eq|].
  apply (wp_for_each any (fun l s' os => unseen s os s' /\ within (pc s') /\
    (forall u w, (u, w) ∈ l -> map_versions_ (pc s) !! u = Some w) /\
    forall u w, map_versions_ (pc s) !! u = Some w -> (u, w) ∈ l \/ attended (pc s') u w)).
  - split_and!; [apply track_refl|done|..]; intros u w; rewrite iter_perm, elem_of_map_to_list; tauto.
  - intros [u w] l s1 os (Hun & Hw1 & Hl & Hat). pose proof Hun as (F & M & V & _).
    injection F as E1 E2 E3 E4 E5 E6 E7 E8 E9.
    pose proof (Hl u w ltac:(left)) as Huw.
    assert (forall s' os', unseen s1 os' s' -> within (pc s') -> attended (pc s') u w ->
      unseen s (os ++ os') s' /\ within (pc s') /\
      (forall u w, (u, w) ∈ l -> map_versions_ (pc s) !! u = Some w) /\
      forall u w, map_versions_ (pc s) !! u = Some w -> (u, w) ∈ l \/ attended (pc s') u w) as Hdone.
    { intros s' os' Hun' Hw' Hat'. split_and!; [by eapply track_trans|done|intros; apply Hl; by right|].
      intros u' w' Hu'. destruct (Hat u' w' Hu') as [[[= -> ->]|Hin]%elem_of_cons|Ha]; [by right|by left|].
      right. by eapply unseen_attended. }
    wstep. apply (wp_IsMapRunnable_at u w); [by rewrite V|by rewrite E8|by rewrite E6|]. intros b Hb.
    destruct b; unfold when; [|wstep; apply (Hdone s1 []); [apply track_refl|done..]].
    wstep. apply zoom_wp, pm_Has_spec. wstep. wstep. wstep. apply zoom_wp, pm_Get_spec; [|done]. intros x q _ _.
    unfold RunMap, pcs, mod_pc. wstep. wstep. wstep. wstep. wstep. wstep. wstep. cbn [app]. apply Hdone.
    + split_and!; try done; [cbn; set_solver|by intros p|by repeat constructor].
    + intros u' w'. cbn. intros Hu'. destruct (Hw1 u' w' Hu') as [? Hr]. split; [done|].
      intros [->%elem_of_singleton|Hin]%elem_of_union; [|by apply Hr]. rewrite V, Huw in Hu'. by injection Hu' as <-.
    + right; right; left. cbn. set_solver.
  - intros s' os (Hun & Hw' & _ & Hat). split_and!; [done| |done]. intros u w Hw.
    destruct Hun as (_ & _ & V & _). rewrite V in Hw. destruct (Hat u w Hw) as [[]%elem_of_nil|?]; done.
Qed.

(** ** The handlers that change the ledger *)

Lemma tracks_after R `{!Tracking R} {A} (m : Comp A) (s : NodeS) o1 s1 (Q : A -> NodeS -> outs -> Prop) :
  tracks R m -> R s o1 s1 -> (forall a s' os, R s (o1 ++ os) s' -> Q a s' os) -> wp any m s1 Q.
Proof.
  intros Hm H1 HQ. eapply wp_mono; [apply Hm|]. intros a s' os H2. apply HQ. by eapply track_trans.
Qed.

(** What they leave alone. *)
Definition same_maps (s s' : NodeS) : Prop :=
  frozen s' = frozen s /\ min_version_ (pc s') = min_version_ (pc s) /\ map_versions_ (pc s') = map_versions_ (pc s).

Lemma unseen_same_maps (s : NodeS) os s' : unseen s os s' -> same_maps s s'.
Proof. intros (? & ? & ? & _). done. Qed.

Lemma ReceiveJoin_ledger m (s : NodeS) :
  (map_collection_id_ (pc s) = update_collection_id_ (pc s) -> is_Some (map_versions_ (pc s) !! vs_part_id (vj_meta m))) ->
  wp any (ReceiveJoin m) s (fun _ s' os => keeps_ledger s os s').
Proof.
  intros Hown. unfold ReceiveJoin. wstep. wstep. wstep; [apply tracks_mod; ledger_skip|].
  wstep. eapply wp_mono; [apply keeping_IsJoinedBefore|]. intros b s1 o1 H1. wstep; [wstep; by rewrite app_nil_r|].
  wstep. wstep.
  - apply Z.eqb_eq in Hif1. unfold mod_pc at 1. wstep. wstep. wstep. cbn [app].
    assert (keeps_ledger s1 [] (s1 <| pc ::= fun c => c <| map_versions_ ::= touch 0 (vs_part_id (vj_meta m)) |> |>)) as H2.
    { destruct H1 as [(_ & _ & V & _) _]. apply keeps_ledger_same; try done; [|by intros p].
      cbn. rewrite touch_present; [done|]. rewrite V. auto. }
    eapply tracks_after; [apply _| |exact (track_trans _ _ _ _ _ H1 H2)|]; [solve_ledger|].
    intros [] s3 o3. by rewrite app_nil_r.
  - wstep. cbn [app]. eapply tracks_after; [apply _| |exact H1|done]. solve_ledger.
Qed.

Lemma UpdateVersion_ledger v (s : NodeS) :
  stop_updateing_partitions_ (pc s) = ∅ -> 0 <= staleness_ (pc s) -> within (pc s) ->
  wp any (PlanController.UpdateVersion v) s (fun _ s' os =>
    v = min_version_ (pc s) + 1 /\ v < expected_num_iter_ (pc s) /\ frozen s' = frozen s /\ min_version_ (pc s') = v /\
    map_versions_ (pc s') = map_versions_ (pc s) /\ (forall p, uversion (pc s') p = uversion (pc s) p) /\
    (forall p w, joined (pc s') p w = if decide (w = v - 1) then ∅ else joined (pc s) p w) /\
    updating s s' /\ Forall out_plain os /\ awake (pc s') /\ within (pc s')).
Proof.
  intros Hst Hz Hwi. unfold PlanController.UpdateVersion, mod_pc. do 4 wstep. apply Z.ltb_lt in Hck. wstep. wstep. apply Z.eqb_eq in Hck0.
  wstep. wstep. set (s1 := upd pc _ s).
  eapply wp_mono; [apply (TryRunSomeMaps_ledger s1); [done| |done|]|].
  - cbn. lia.
  - intros u w Hw. destruct (Hwi u w Hw) as [? Hr]. cbn. split; [lia|]. intros Hin. specialize (Hr Hin). lia.
  - intros [] s' os ((F & M & V & _ & U & J & Hu & Ho) & Ha & Hw). cbn [app].
    split_and!; try done. intros p w. rewrite J. unfold joined, s1. cbn. apply tracker_get_delete.
Qed.

Lemma keeping_release_pending u last :
  keeping (mod_pc (fun c => c <| pending_updates_ ::= fun p =>
           <[u := touch [] last (lookup_or ∅ u p)]> p |>) ;;;
         pend <-- pcs (fun c => lookup_or [] last (lookup_or ∅ u (pending_updates_ c))) ;;
         when (negb (bool_decide (pend = [])))
           (mod_pc (fun c => c <| waiting_updates_ ::= fun w => <[u := lookup_or [] u w ++ pend]> w |>
                    <| pending_updates_ ::= fun p => <[u := delete last (lookup_or ∅ u p)]> p |>)) ;;;
         TryRunWaitingJoins u ;;; ret tt).
Proof. solve_ledger. Qed.

Lemma FinishMap_ledger u b w (s : NodeS) :
  stop_updateing_partitions_ (pc s) = ∅ -> min_version_ (pc s) <> expected_num_iter_ (pc s) ->
  0 <= staleness_ (pc s) -> within (pc s) -> u ∈ running_maps_ (pc s) -> map_versions_ (pc s) !! u = Some w ->
  wp any (FinishMap u b) s (fun _ s' os =>
    frozen s' = frozen s /\ min_version_ (pc s') = min_version_ (pc s) /\
    map_versions_ (pc s') = <[u := w + 1]> (map_versions_ (pc s)) /\
    (forall p, uversion (pc s') p = uversion (pc s) p) /\ (forall p v, joined (pc s') p v = joined (pc s) p v) /\
    updating s s' /\ Forall out_plain os /\ awake (pc s') /\ within (pc s')).
Proof.
  intros Hst Hmin Hz Hwi Hu Hw. unfold FinishMap. unfold mod_pc at 1 2. do 6 wstep.
  set (s1 := upd pc _ (upd pc _ s)).
  assert (s1 = s <| pc ::= fun c => c <| running_maps_ ::= fun x => x ∖ {[u]} |> |>) as E1.
  { unfold s1, upd. cbn. rewrite Hst, lookup_empty. done. }
  clearbody s1. subst s1. cbn [map_versions_ pc upd]. rewrite Hw. unfold mod_pc at 1. wstep. wstep. set (s2 := upd pc _ _).
  assert (frozen s2 = frozen s /\ min_version_ (pc s2) = min_version_ (pc s) /\
    map_versions_ (pc s2) = <[u := w + 1]> (map_versions_ (pc s)) /\
    running_maps_ (pc s2) = running_maps_ (pc s) ∖ {[u]} /\ updating s s2 /\
    (forall p, uversion (pc s2) p = uversion (pc s) p) /\ (forall p v, joined (pc s2) p v = joined (pc s) p v))
    as (F2 & M2 & V2 & R2 & P2 & U2 & J2) by (split_and!; first [done | by intros p]).
  clearbody s2. assert (within (pc s2)) as W2.
  { injection F2 as _ _ _ _ _ Es _ _ _. intros u' w'. rewrite V2, R2, M2, Es.
    intros [[<- <-]|[Hne Hu']]%lookup_insert_Some.
    - split; [destruct (Hwi u w Hw) as [_ Hr]; specialize (Hr Hu); lia|set_solver].
    - destruct (Hwi u' w' Hu') as [? Hr]. split; [done|]. set_solver. }
  unfold ReportFinishPart at 1, pcs at 1. do 6 wstep. set (rep := ToScheduler _).
  assert (keeps_ledger s2 [rep] s2) as K2 by (apply keeps_ledger_same; first [done | by intros p | by repeat constructor]).
  wstep. eapply tracks_after; [apply _| |exact K2|].
  { apply tracks_when; [apply _|]. apply keeping_release_pending. }
  intros [] s3 o3 K3. destruct K3 as [(F3 & M3 & V3 & _ & U3 & J3 & P3 & O3) R3].
  assert (within (pc s3)) as W3 by (eapply keeps_within; [|exact W2]; split; [|exact R3]; split_and!; try done; by rewrite R3).
  pose proof F3 as F3'. pose proof F2 as F2'. injection F3' as _ _ _ _ E3 S3 _ T3 _. injection F2' as _ _ _ _ E2 S2 _ T2 _.
  eapply wp_mono; [apply (TryRunSomeMaps_ledger s3); [congruence|congruence|lia|done]|].
  intros [] s4 o4 ((F4 & M4 & V4 & _ & U4 & J4 & P4 & O4) & A4 & W4). cbn [app].
  split_and!; try done; [congruence..| | |auto|].
  - intros p. by rewrite U4, U3.
  - intros p v. by rewrite J4, J3.
  - intros p Hp. by apply P4, P3, P2.
  - apply (Forall_app_2 _ (rep :: o3) o4); done.
Qed.

(** The report of a complete iteration of partition [p]. *)
Definition join_done (s : NodeS) (p v : Z) : out P Stream :=
  ToScheduler {| c_flag := CfJoin; c_version := v; c_node_id := my_id s; c_plan_id := plan_id_ (pc s); c_part_id := p |}.

Lemma FinishCheckpoint_ledger p (s : NodeS) :
  stop_updateing_partitions_ (pc s) = ∅ -> min_version_ (pc s) <> expected_num_iter_ (pc s) ->
  0 <= staleness_ (pc s) -> within (pc s) ->
  wp any (FinishCheckpoint p) s (fun _ s' os => same_maps s s' /\
    (forall q, uversion (pc s') q = uversion (pc s) q) /\ (forall q v, joined (pc s') q v = joined (pc s) q v) /\
    awake (pc s') /\ within (pc s') /\
    exists os', os = join_done s p (uversion (pc s) p) :: os' /\ Forall out_plain os').
Proof.
  intros Hst Hmin Hz Hwi. unfold FinishCheckpoint. unfold mod_pc. do 6 wstep. set (s1 := upd pc _ s).
  assert (same_maps s s1 /\ running_maps_ (pc s1) = running_maps_ (pc s) /\
    (forall q, uversion (pc s1) q = uversion (pc s) q) /\ (forall q v, joined (pc s1) q v = joined (pc s) q v))
    as ((F1 & M1 & V1) & R1 & U1 & J1) by (split_and!; [split_and!|..]; try done; intros; apply lookup_or_touch).
  clearbody s1. pose proof F1 as F1'. injection F1' as _ _ _ _ E1 S1 L1 T1 I1.
  assert (within (pc s1)) as W1 by (intros u w; rewrite V1, M1, R1, S1; apply Hwi).
  unfold ReportFinishPart, pcs. do 6 wstep. wstep. rewrite I1, L1.
  eapply wp_mono; [apply keeping_TryRunWaitingJoins|]. intros b s2 o2 K2. pose proof (keeps_within _ _ _ K2 W1) as W2.
  destruct K2 as [(F2 & M2 & V2 & _ & U2 & J2 & _ & O2) _].
  pose proof F2 as F2'. injection F2' as _ _ _ _ E2 S2 _ T2 _.
  eapply wp_mono; [apply (TryRunSomeMaps_ledger s2); [congruence|congruence|lia|done]|].
  intros [] s3 o3 ((F3 & M3 & V3 & _ & U3 & J3 & _ & O3) & A3 & W3). split_and!; [split_and!; congruence| | |done|done|].
  - intros q. by rewrite U3, U2.
  - intros q v. by rewrite J3, J2.
  - exists (o2 ++ o3). split; [done|by apply Forall_app].
Qed.

(** The outcome of [TryCheckpoint] and of the report when there is no checkpoint. *)
Definition completes (s : NodeS) (p v : Z) (os : outs) : Prop :=
  (exists os', os = join_done s p v :: os' /\ Forall out_plain os') \/ exists url, os = [Submit (TCheckpoint p url)].

Lemma complete_join p (s : NodeS) :
  wp any (runcp <-- TryCheckpoint p ;;
    if (runcp : bool) then ret tt else
    v <-- pcs (fun c => lookup_or 0 p (update_versions_ c)) ;;
    ReportFinishPart CfJoin p v ;;; TryRunWaitingJoins p ;;; ret tt) s (fun _ s' os =>
    same_maps s s' /\ running_maps_ (pc s') = running_maps_ (pc s) /\ updating s s' /\
    (forall q, uversion (pc s') q = uversion (pc s) q) /\ (forall q v, joined (pc s') q v = joined (pc s) q v) /\
    completes s p (uversion (pc s) p) os).
Proof.
  unfold TryCheckpoint at 1. unfold mod_pc. do 5 wstep. set (s1 := upd pc _ s).
  assert (same_maps s s1 /\ running_maps_ (pc s1) = running_maps_ (pc s) /\ updating s s1 /\
    (forall q, uversion (pc s1) q = uversion (pc s) q) /\ (forall q v, joined (pc s1) q v = joined (pc s) q v))
    as ((F1 & M1 & V1) & R1 & P1 & U1 & J1).
  { unfold s1, uversion, joined, same_maps, frozen, updating. cbn. destruct (_ =? 0); cbn; split_and!; try done.
    intros q. apply lookup_or_touch. }
  clearbody s1. wstep.
  - do 7 wstep. wstep. split_and!; [done|done| |done|done|right; by eexists].
    intros q Hq. cbn. apply is_Some_insert. by apply P1.
  - wstep. unfold pcs. wstep. wstep. unfold ReportFinishPart, pcs. do 7 wstep. injection F1 as F1 E2 E3 E4 E5 E6 E7 E8 E9.
    eapply wp_mono; [apply keeping_TryRunWaitingJoins|].
    intros b s2 o2 [(F2 & M2 & V2 & _ & U2 & J2 & P2 & O2) R2]. wstep.
    split_and!; [split_and!; [unfold frozen in *; congruence|congruence..]|congruence|by intros q Hq; apply P2, P1| | |].
    + intros q. by rewrite U2.
    + intros q v. by rewrite J2.
    + left. exists o2. split; [|done]. cbn [app]. unfold join_done. rewrite E7, E9, <- (U1 p). by rewrite app_nil_r.
Qed.

Lemma FinishJoin_ledger p v us (s : NodeS) :
  let T := list_to_set us ∪ joined (pc s) p v in
  wp any (FinishJoin p v us) s (fun _ s' os =>
    same_maps s s' /\ running_maps_ (pc s') = running_maps_ (pc s) /\
    (forall q, q <> p -> is_Some (running_updates_ (pc s) !! q) -> is_Some (running_updates_ (pc s') !! q)) /\
    if decide (Z.of_nat (size T) = num_upstream_part_ (pc s)) then
      (forall q, uversion (pc s') q = if decide (q = p) then uversion (pc s) p + 1 else uversion (pc s) q) /\
      (forall q w, joined (pc s') q w = if decide (q = p /\ w = v) then ∅ else joined (pc s) q w) /\
      completes s p (uversion (pc s) p + 1) os
    else
      (forall q, uversion (pc s') q = uversion (pc s) q) /\
      (forall q w, joined (pc s') q w = if decide (q = p /\ w = v) then T else joined (pc s) q w) /\
      Forall out_plain os).
Proof.
  intros T. unfold FinishJoin. unfold mod_pc at 1. do 4 wstep. set (s1 := upd pc _ s).
  assert (forall q w, joined (pc s1) q w = if decide (q = p /\ w = v) then T else joined (pc s) q w) as J1.
  { intros q w. unfold joined, s1. cbn. rewrite tracker_get_upd. destruct (decide (q = p /\ w = v)) as [[-> ->]|]; done. }
  assert (same_maps s s1 /\ running_maps_ (pc s1) = running_maps_ (pc s) /\
    (forall q, q <> p -> is_Some (running_updates_ (pc s) !! q) -> is_Some (running_updates_ (pc s1) !! q)) /\
    (forall q, uversion (pc s1) q = uversion (pc s) q) /\ num_upstream_part_ (pc s1) = num_upstream_part_ (pc s))
    as ((F1 & M1 & V1) & R1 & P1 & U1 & N1).
  { unfold s1. split_and!; try done. intros q Hne. cbn. by rewrite lookup_delete_ne. }
  clearbody s1. fold (joined (pc s1) p v). rewrite J1, decide_True by done. rewrite N1.
  destruct (decide (Z.of_nat (size T) = num_upstream_part_ (pc s))) as [Hif|Hif].
  - rewrite (proj2 (Z.eqb_eq _ _) Hif). unfold CalcJoinTrackerSize, mod_pc. do 4 wstep. set (s2 := upd pc _ _).
    assert (forall q w, joined (pc s2) q w = if decide (q = p /\ w = v) then ∅ else joined (pc s) q w) as J2.
    { intros q w. unfold joined, s2. cbn. rewrite tracker_get_upd. case_decide as Hd; [done|].
      change (joined (pc s1) q w = joined (pc s) q w). by rewrite J1, decide_False. }
    assert (forall q, uversion (pc s2) q = if decide (q = p) then uversion (pc s) p + 1 else uversion (pc s) q) as U2.
    { intros q. unfold uversion at 1. unfold s2. cbn. rewrite <- !U1. case_decide as Hd; [subst; apply lookup_or_insert|].
      by apply lookup_or_insert_ne. }
    assert (same_maps s1 s2 /\ running_maps_ (pc s2) = running_maps_ (pc s1) /\ updating s1 s2)
      as ((F2 & M2 & V2) & R2 & P2) by (split_and!; [split_and!|..]; first [done | by intros q]).
    clearbody s2. cbn [app].
    eapply wp_mono; [apply (complete_join p s2)|]. intros [] s3 o3 ((F3 & M3 & V3) & R3 & P3 & U3 & J3 & C3).
    split_and!; [split_and!; congruence|congruence|by intros q Hne Hq; apply P3, P2, P1| | |].
    + intros q. by rewrite U3, U2.
    + intros q w. by rewrite J3, J2.
    + rewrite U2, decide_True in C3 by done. unfold completes, join_done in *.
      assert (frozen s2 = frozen s) as F by congruence. injection F as _ _ _ _ _ _ E7 _ E9. by rewrite E7, E9 in C3.
  - rewrite (proj2 (Z.eqb_neq _ _) Hif). cbn [app].
    wstep. eapply wp_mono; [apply keeping_TryRunWaitingJoins|]. intros b s2 o2 [(F2 & M2 & V2 & _ & U2 & J2 & P2 & O2) R2].
    wstep. rewrite app_nil_r. split_and!; [split_and!; congruence|congruence|by intros q Hne Hq; apply P2, P1| | |done].
    + intros q. by rewrite U2, U1.
    + intros q w. by rewrite J2, J1.
Qed.

Lemma run_checkpoint_ledger p url (s : NodeS) :
  wp any (run_checkpoint p url) s (fun _ s' os => keeps_ledger s [] s' /\
    exists b, os = [WriteFile url b; Push (kFinishCheckpoint p)]).
Proof.
  unfold run_checkpoint. wstep. wstep. wstep. apply zoom_wp, pm_Has_spec. wstep. wstep. wstep.
  apply zoom_wp, pm_Get_spec; [|done]. intros x q _ _. wstep. wstep. wstep. split; [|by eexists].
  apply keeps_ledger_same; first [done | by intros r].
Qed.
End Handlers.

(** ** Updates wait for the map of their iteration

    When the map and the update collection are the same, an update of an iteration is not
    started before its partition has been mapped for that iteration. *)

Section Late.
Context {P Stream : Type} `{UserCode P Stream} `{IterOrder}.
Abbreviation NodeS := (NodeSt P Stream).
Abbreviation outs := (list (out P Stream)).
Abbreviation Comp := (M NodeS (out P Stream)).

Definition late (c : PC Stream) (m : VersionedJoinMeta) : Prop :=
  vs_is_fetch (vj_meta m) = false -> map_collection_id_ c = update_collection_id_ c ->
  vs_version (vj_meta m) < map_version c (vs_part_id (vj_meta m)).
Definition lates (c : PC Stream) : Prop := forall p m, m ∈ lookup_or [] p (waiting_updates_ c) -> late c m.
Definition out_late (c : PC Stream) (o : out P Stream) : Prop :=
  match o with Submit (TJoin m) => late c m | _ => True end.

Definition ahead (s s' : NodeS) : Prop :=
  (map_collection_id_ (pc s'), update_collection_id_ (pc s')) = (map_collection_id_ (pc s), update_collection_id_ (pc s)) /\
  forall p, map_version (pc s) p <= map_version (pc s') p.
Definition lags (s : NodeS) (os : outs) (s' : NodeS) : Prop :=
  lates (pc s) -> ahead s s' /\ lates (pc s') /\ Forall (out_late (pc s')) os.

Lemma ahead_late (s s' : NodeS) m : ahead s s' -> late (pc s) m -> late (pc s') m.
Proof. intros [[= E1 E2] Hv] Hl Hf He. rewrite E1, E2 in He. specialize (Hl Hf He). specialize (Hv (vs_part_id (vj_meta m))). lia. Qed.
#[global] Instance lags_tracking : Tracking lags.
Proof.
  split.
  - intros s Hs. split_and!; [by split|done|constructor].
  - intros s1 s2 s3 os os' H1 H2 Hs. destruct (H1 Hs) as ([E1 V1] & Hs2 & O1). destruct (H2 Hs2) as (A2 & Hs3 & O2).
    pose proof A2 as [E2 V2]. split; [|split; [done|]].
    + split; [congruence|]. intros p. specialize (V1 p). specialize (V2 p). lia.
    + apply Forall_app. split; [|done]. eapply Forall_impl; [exact O1|]. intros [| | | | |[]|]; try done. cbn. by apply ahead_late.
Qed.
Abbreviation lagging := (tracks (P := P) (Stream := Stream) lags).

Lemma wp_lags {A} (m : Comp A) : (forall s, lates (pc s) -> wp any m s (fun _ s' os => lags s os s')) -> lagging m.
Proof.
  intros Hm s. unfold wp. destruct (m s) as [[[a s'] os]|e] eqn:E; [|done]. intros Hs.
  specialize (Hm s Hs). unfold wp in Hm. rewrite E in Hm. by apply Hm.
Qed.
Lemma lags_same (s : NodeS) os (s' : NodeS) :
  ahead s s' -> (forall p m, m ∈ lookup_or [] p (waiting_updates_ (pc s')) -> m ∈ lookup_or [] p (waiting_updates_ (pc s)) \/ late (pc s') m) ->
  Forall (fun o => match o with Submit (TJoin _) => False | _ => True end) os -> lags s os s'.
Proof.
  intros Ha Hw Ho Hs. split; [done|]. split.
  - intros p m Hm. destruct (Hw p m Hm) as [Hin|?]; [|done]. by eapply ahead_late, Hs.
  - eapply Forall_impl; [exact Ho|]. intros o Hp. destruct o as [| | | | |[]|]; by try done.
Qed.
Lemma ahead_touch u (s : NodeS) : ahead s (s <| pc ::= fun c => c <| map_versions_ ::= touch 0 u |> |>).
Proof. split; [done|]. intros p. unfold map_version. cbn. rewrite lookup_or_touch. lia. Qed.
End Late.

Ltac lag_skip :=
  intros; first
    [ apply lags_same;
      [ first [(by split) | apply ahead_touch]
      | first [(intros ? ? ?; by left) | (intros ? ?; cbn; rewrite lookup_or_touch; by left)] | by repeat constructor ]
    | unfold wp; repeat case_match; first [done | apply lags_same; [by split|intros ? ? ?; by left|by repeat constructor]] ].
Ltac lag_step := track_step_with lag_skip.
Ltac solve_lag := repeat lag_step.

Section LateHandlers.
Context {P Stream : Type} `{UserCode P Stream} `{IterOrder}.
Abbreviation NodeS := (NodeSt P Stream).
Abbreviation outs := (list (out P Stream)).
Abbreviation Comp := (M NodeS (out P Stream)).
Abbreviation lagging := (tracks (P := P) (Stream := Stream) lags).

Lemma lagging_Report f p v : lagging (ReportFinishPart f p v).
Proof. unfold ReportFinishPart. solve_lag. Qed.
Hint Resolve lagging_Report : track_db.
Lemma lagging_TryRunSomeMaps : lagging TryRunSomeMaps.
Proof. unfold TryRunSomeMaps, IsMapRunnable, RunMap. solve_lag. Qed.
Hint Resolve lagging_TryRunSomeMaps : track_db.
Lemma lagging_RunFetchRequest m : lagging (RunFetchRequest m).
Proof. unfold RunFetchRequest. solve_lag. Qed.
Hint Resolve lagging_RunFetchRequest : track_db.
Lemma lagging_IsJoinedBefore m : lagging (IsJoinedBefore m).
Proof. unfold IsJoinedBefore. solve_lag. Qed.
Hint Resolve lagging_IsJoinedBefore : track_db.

Lemma RunJoin_lags retry m (s : NodeS) : (forall q, lagging (retry q)) -> late (pc s) m ->
  wp any (RunJoin retry m) s (fun _ s' os => lags s os s').
Proof.
  intros Hr Hm. unfold RunJoin. wstep. eapply wp_mono; [apply lagging_IsJoinedBefore|]. intros b s1 o1 H1.
  wstep; [eapply tracks_after; [apply _|apply Hr|exact H1|done]|].
  unfold pcs, mod_pc. do 7 wstep. cbn [app]. set (s2 := upd pc _ s1).
  assert (lags s1 [] s2) as H2 by lag_skip. pose proof (track_trans _ _ _ _ _ H1 H2) as H12.
  intros Hs. destruct (H12 Hs) as (A2 & Hs2 & O2). split_and!; [done..|]. rewrite app_nil_r in O2. apply Forall_app. split; [done|].
  repeat constructor. by eapply ahead_late.
Qed.

Lemma lagging_run_first_waiting retry p : (forall q, lagging (retry q)) -> lagging (run_first_waiting retry p).
Proof.
  intros Hr. apply wp_lags. intros s Hs. unfold run_first_waiting. wstep. wstep. wstep; [wstep; apply track_refl|].
  unfold mod_pc at 1. wstep. wstep. set (s1 := upd pc _ s). assert (lags s [] s1) as H1 by lag_skip.
  destruct (lookup_or [] p (waiting_updates_ (pc s))) as [|m rest] eqn:Hl; [wstep; exact H1|].
  unfold mod_pc at 1. wstep. wstep. set (s2 := upd pc _ s1).
  assert (lags s1 [] s2) as H2.
  { apply lags_same; [by split| |constructor]. intros q m'. unfold s2, s1. cbn.
    destruct (decide (p = q)) as [<-|]; [rewrite lookup_or_insert|rewrite lookup_or_insert_ne by done; by left].
    rewrite lookup_or_touch, Hl. left. by right. }
  pose proof (track_trans _ _ _ _ _ H1 H2) as H12. cbn [app] in *.
  assert (late (pc s2) m) as Hm.
  { eapply ahead_late; [apply H12, Hs|]. apply (Hs p). rewrite Hl. left. }
  wstep. wstep.
  - eapply wp_mono; [by apply RunJoin_lags|]. intros [] s3 o3 H3. wstep. rewrite app_nil_r. exact (track_trans _ _ _ _ _ H12 H3).
  - eapply wp_mono; [apply lagging_RunFetchRequest|]. intros [] s3 o3 H3. wstep. rewrite app_nil_r. exact (track_trans _ _ _ _ _ H12 H3).
Qed.
Lemma lagging_TryRunWaitingJoins p : lagging (TryRunWaitingJoins p).
Proof.
  unfold TryRunWaitingJoins. lag_step; [lag_step|]. generalize (total_waiting a). intros n. revert p.
  induction n as [|n IH]; intros p; cbn [TryRunWaitingJoins_]; unfold try_waiting;
    (lag_step; [lag_step|]); (lag_step; [lag_step|]); (lag_step; [solve_lag|]); (lag_step; [lag_step|]);
    apply lagging_run_first_waiting; intros q; [lag_step|]. lag_step; [apply IH|lag_step].
Qed.
Hint Resolve lagging_TryRunWaitingJoins : track_db.

Lemma push_waiting_lags p m (s : NodeS) : late (pc s) m ->
  lags s [] (s <| pc ::= fun c => c <| waiting_updates_ ::= fun w => <[p := lookup_or [] p w ++ [m]]> w |> |>).
Proof.
  intros Hm. apply lags_same; [by split| |constructor]. intros q m'. cbn.
  destruct (decide (p = q)) as [<-|]; [rewrite lookup_or_insert|rewrite lookup_or_insert_ne by done; by left].
  intros [?| ->%list_elem_of_singleton]%elem_of_app; [by left|by right].
Qed.

Lemma lagging_ReceiveJoin m : lagging (ReceiveJoin m).
Proof.
  intros s. unfold ReceiveJoin. wstep. wstep. wstep; [apply tracks_mod; lag_skip|].
  wstep. eapply wp_mono; [apply wp_joined|]. 2: { intros b s1 o1 H1. exact H1. } intros b _.
  set (s1 := upd pc _ s). assert (lags s [] s1) as H1 by lag_skip.
  assert (map_versions_ (pc s1) = map_versions_ (pc s) /\ map_collection_id_ (pc s1) = map_collection_id_ (pc s) /\
    update_collection_id_ (pc s1) = update_collection_id_ (pc s)) as (V1 & M1 & U1) by done. clearbody s1.
  wstep; [wstep; exact H1|]. wstep.
  assert (forall (pend : bool) s2, lags s1 [] s2 -> (pend = false -> late (pc s2) m) -> wp any
    (if pend then mod_pc (fun c => c <| pending_updates_ ::= fun p =>
      let inner := lookup_or ∅ (vs_part_id (vj_meta m)) p in
      <[vs_part_id (vj_meta m) := <[vs_version (vj_meta m) := lookup_or [] (vs_version (vj_meta m)) inner ++ [m]]> inner]> p |>)
     else mod_pc (fun c => c <| waiting_updates_ ::= fun w =>
      <[vs_part_id (vj_meta m) := lookup_or [] (vs_part_id (vj_meta m)) w ++ [m]]> w |>) ;;;
      TryRunWaitingJoins (vs_part_id (vj_meta m)) ;;; ret tt) s2 (fun _ s' os => lags s os s')) as Hend.
  { intros pend s2 H2 Hm. pose proof (track_trans _ _ _ _ _ H1 H2) as H12. destruct pend.
    - eapply tracks_after; [apply _| |exact H12|done]. apply tracks_mod. lag_skip.
    - unfold mod_pc. wstep. wstep. eapply tracks_after; [apply _| |exact (track_trans _ _ _ _ _ H12 (push_waiting_lags _ _ _ (Hm eq_refl)))|done].
      solve_lag. }
  wstep.
  - unfold mod_pc at 1. wstep. wstep. wstep. cbn [app]. apply Hend; [apply lags_same; [apply ahead_touch|by intros; left|constructor]|].
    intros Hb _ _. unfold map_version. cbn. rewrite lookup_or_touch, V1. by apply Z.leb_gt.
  - wstep. cbn [app]. apply (Hend false); [apply track_refl|]. intros _ _ He. apply Z.eqb_neq in Hif1. congruence.
Qed.

Lemma lagging_ReceiveFetchRequest fm bin sd rc : lagging (ReceiveFetchRequest fm bin sd rc).
Proof.
  unfold ReceiveFetchRequest. do 6 (lag_step; [lag_step|]). lag_step; [lag_step|]. lag_step; [lag_step|]. lag_step; [|lag_step].
  apply tracks_mod. intros s. by apply push_waiting_lags.
Qed.

Lemma FinishMap_lags u b (s : NodeS) : stop_updateing_partitions_ (pc s) = ∅ -> pending_ok (pending_updates_ (pc s)) ->
  wp any (FinishMap u b) s (fun _ s' os => lags s os s').
Proof.
  intros Hst Hpd. unfold FinishMap. unfold mod_pc at 1 2. do 6 wstep.
  set (s1 := upd pc _ (upd pc _ s)).
  assert (s1 = s <| pc ::= fun c => c <| running_maps_ ::= fun x => x ∖ {[u]} |> |>) as E1.
  { unfold s1, upd. cbn. rewrite Hst, lookup_empty. done. }
  clearbody s1. subst s1. set (s1 := upd pc _ s). assert (lags s [] s1) as H1 by lag_skip.
  destruct (map_versions_ (pc s1) !! u) as [w|] eqn:Hw; [|wstep; exact H1].
  unfold mod_pc at 1. wstep. wstep. set (s2 := upd pc _ s1).
  assert (forall p, map_version (pc s2) p = if decide (p = u) then w + 1 else map_version (pc s1) p) as V2.
  { intros p. unfold map_version, s2. cbn. case_decide; [subst; apply lookup_or_insert|by apply lookup_or_insert_ne]. }
  assert (lags s1 [] s2) as H2.
  { apply lags_same; [|by intros; left|constructor]. split; [done|]. intros p. rewrite V2. case_decide; [|lia].
    subst p. unfold map_version. rewrite (lookup_or_Some _ _ _ _ Hw). lia. }
  pose proof (track_trans _ _ _ _ _ H1 H2) as H12. cbn [app] in H12.
  assert (pending_updates_ (pc s2) = pending_updates_ (pc s)) as Ep by done. clearbody s2.
  unfold ReportFinishPart, pcs at 1. do 6 wstep. set (rep := ToScheduler _).
  assert (lags s [rep] s2) as H3 by (refine (track_trans _ _ _ _ _ H12 (_ : lags s2 [rep] s2)); lag_skip). clearbody rep.
  assert (forall o4 s4, lags s o4 s4 -> wp any TryRunSomeMaps s4 (fun _ s' os => lags s (o4 ++ os) s')) as Hmaps.
  { intros o4 s4 H4. eapply tracks_after; [apply _|apply lagging_TryRunSomeMaps|exact H4|done]. }
  wstep. wstep; [|apply (Hmaps [rep]), H3].
  unfold mod_pc at 1. wstep. wstep. set (s3 := upd pc _ s2). assert (lags s2 [] s3) as H4 by lag_skip.
  unfold pcs. wstep. wstep. cbn beta.
  assert (forall m, m ∈ lookup_or [] w (lookup_or ∅ u (pending_updates_ (pc s3))) -> late (pc s3) m) as Hpend.
  { intros m Hm. unfold s3 in Hm. cbn in Hm. rewrite lookup_or_insert, lookup_or_touch, Ep in Hm.
    destruct (Hpd u w m Hm) as [[Hk _] Hv]. intros _ _. change (map_version (pc s3)) with (map_version (pc s2)).
    rewrite V2, decide_True by done. lia. }
  generalize dependent (lookup_or [] w (lookup_or ∅ u (pending_updates_ (pc s3)))). intros pend Hpend.
  pose proof (track_trans _ _ _ _ _ H3 H4) as H5.
  assert (forall o5 s5, lags s o5 s5 -> wp any (TryRunWaitingJoins u ;;; ret tt) s5
    (fun _ s' os => wp any TryRunSomeMaps s' (fun _ s' os' => lags s (o5 ++ os ++ os') s'))) as Htry.
  { intros o5 s5 H6. eapply tracks_after; [apply _| |exact H6|]; [solve_lag|]. intros [] s6 o6 H7.
    eapply wp_mono; [by apply Hmaps|]. intros [] s7 o7. by rewrite app_assoc. }
  wstep. wstep; [|by eapply wp_mono; [apply Htry, H5|intros [] s6 o6; rewrite app_nil_r]].
  unfold mod_pc. wstep. set (s4 := upd pc _ s3). assert (lags s3 [] s4) as H6.
  { apply lags_same; [by split| |constructor]. intros q m'. unfold s4. cbn.
    destruct (decide (u = q)) as [<-|]; [rewrite lookup_or_insert|rewrite lookup_or_insert_ne by done; by left].
    intros [?|Hin]%elem_of_app; [by left|right; by apply Hpend]. }
  eapply wp_mono; [apply Htry; exact (track_trans _ _ _ _ _ H5 H6)|]. intros [] s6 o6. by rewrite !app_nil_r.
Qed.

Lemma lagging_TryCheckpoint p : lagging (TryCheckpoint p).
Proof.
  unfold TryCheckpoint. lag_step; [lag_step|]. lag_step; [|solve_lag]. apply tracks_mod. intros s.
  apply lags_same; [split; [|intros q; unfold map_version]|intros q m|constructor]; cbn; destruct (_ =? 0); cbn; auto; lia.
Qed.
Hint Resolve lagging_TryCheckpoint : track_db.

Lemma Process_lags m (s : NodeS) : msg_wf m -> stop_updateing_partitions_ (pc s) = ∅ -> pending_ok (pending_updates_ (pc s)) ->
  wp any (Process m) s (fun _ s' os => lags s os s').
Proof.
  intros Hm Hst Hpd. destruct m as [sp| |p u|p v us|v|m|fm bin sd rc|p u|p|mm body| |t|l]; cbn [Process]; try done.
  - apply lagging_TryRunSomeMaps.
  - by apply FinishMap_lags.
  - enough (lagging (FinishJoin p v us)) as Hl by apply Hl. unfold FinishJoin, CalcJoinTrackerSize. solve_lag.
  - enough (lagging (PlanController.UpdateVersion v)) as Hl by apply Hl. unfold PlanController.UpdateVersion. solve_lag.
  - apply lagging_ReceiveJoin.
  - apply lagging_ReceiveFetchRequest.
  - enough (lagging (FinishFetch p u)) as Hl by apply Hl. unfold FinishFetch. solve_lag.
  - enough (lagging (FinishCheckpoint p)) as Hl by apply Hl. unfold FinishCheckpoint. solve_lag.
Qed.
Lemma lagging_Prepare p v us x : lagging (PrepareMsgAndSend p v us x).
Proof. unfold PrepareMsgAndSend, cmap_Lookup, cmap_Get, mapper_Get. solve_lag. Qed.
Hint Resolve lagging_Prepare : track_db.
Lemma lagging_run_task t : lagging (run_task t).
Proof.
  destruct t as [p v x|p v o|m|m v|p url|p v l]; cbn [run_task].
  - unfold run_map. solve_lag.
  - unfold run_mapped, AddMapOutput, AddStream. solve_lag.
  - unfold run_join. solve_lag.
  - unfold run_fetch. solve_lag.
  - unfold run_checkpoint. solve_lag.
  - unfold run_combine. solve_lag.
Qed.
Lemma lagging_PeriodicCombine : lagging PeriodicCombine.
Proof. unfold PeriodicCombine. solve_lag. Qed.
End LateHandlers.
