(* ===== verification/PlanBsp.v ===== *)
(** * The ledger of a node in a plan without staleness

    The invariant of a node that runs a plan under a scheduler which advances the version of
    the plan only when every partition of the update collection has reported it.  With
    staleness 0 no iteration overtakes another, so the number of complete iterations of a
    partition tells which updates it has applied: all those of the iterations below it, those
    in the tracker of the iteration it is at, and none of later ones. *)

From S2P Require Import Prelude BinStream Specs Index Messages Partition PlanController PlanFrame PlanExclusion PlanTokens PlanProgress PlanCluster PlanDrain PlanComplete PlanEvents PlanLedger.

Lemma cnt_bind_le {A B C} `{!EqDecision B, !EqDecision C} (b : B) (c : C) (f : A -> list B) (g : A -> list C) l :
  (forall a, cnt b (f a) <= cnt c (g a)) -> cnt b (l ≫= f) <= cnt c (l ≫= g).
Proof.
  intros Hle. induction l as [|a l IH]; [done|]. rewrite !bind_cons, !cnt_app. specialize (Hle a). lia.
Qed.

Section Node.
Context {P Stream : Type} `{UC : UserCode P Stream} `{IO : IterOrder}.
Abbreviation NodeS := (NodeSt P Stream).
Abbreviation outs := (list (out P Stream)).
Abbreviation sysS := (sys (P := P) (Stream := Stream)).
Abbreviation node := (sysS * outs)%type.

(** ** What is on its way *)

Definition fin_jt (m : ctrl_msg) : list jtok := match m with kFinishJoin p v us => ups_jt p v us | _ => [] end.
Definition task_cp (t : task P Stream) : list Z := match t with TCheckpoint p _ => [p] | _ => [] end.
Definition msg_cp (m : ctrl_msg) : list Z := match m with kFinishCheckpoint p => [p] | _ => [] end.
Definition new_version (m : ctrl_msg) : option Z := match m with kUpdateVersion v => Some v | _ => None end.
(** Checkpoints that delay the report of a partition. *)
Definition checkpointing (s : sysS) (p : Z) : Z := cnt p (pool s ≫= task_cp) + cnt p (queue s ≫= msg_cp).

(** Messages to the scheduler, and the versions of partition [p] they report. *)
Definition reported (os : outs) : list ControllerMsg :=
  omap (fun o => match o with ToScheduler m => Some m | _ => None end) os.
Definition join_version (p : Z) (m : ControllerMsg) : option Z :=
  if bool_decide (c_flag m = CfJoin) && (c_part_id m =? p) then Some (c_version m) else None.
Definition join_versions (p : Z) (l : list ControllerMsg) : list Z := omap (join_version p) l.

Lemma applied_pushed (os : outs) : applied os = pushed os ≫= fin_jt.
Proof.
  unfold applied. induction os as [|o os IH]; [done|]. rewrite bind_cons, IH.
  destruct o as [| |[]| | | |]; done.
Qed.
Lemma plain_quiet (os : outs) : Forall out_plain os ->
  omap new_version (pushed os) = [] /\ kStart ∉ pushed os /\ (pushed os ≫= msg_cp) = [] /\ (submitted os ≫= task_cp) = [] /\
  Forall (fun m => c_flag m = CfMap) (reported os).
Proof.
  induction 1 as [|o os Ho _ (I1 & I2 & I3 & I4 & I5)]; [by split_and!; [|set_solver|..]|].
  destruct o as [m|r pl m|m|m|r f fm b|t|url b]; cbn in Ho |- *; fold (pushed os) (submitted os) (reported os).
  all: try (split_and!; done).
  - split_and!; try done. by constructor.
  - destruct m; try done; split_and!; try done; set_solver.
  - destruct t; done.
Qed.
Lemma map_reports_silent p l : Forall (fun m => c_flag m = CfMap) l -> join_versions p l = [].
Proof.
  unfold join_versions. induction 1 as [|m l Hm _ IH]; [done|]. cbn. rewrite IH. unfold join_version.
  by rewrite Hm, bool_decide_eq_false_2.
Qed.

(** ** The invariant *)

(** [N] iterations of plan [pid]; [U] are the partitions of the map collection. *)
Context (N pid : Z) (U : list Z).

(** What the versions and the tracker say about an update. *)
Definition counted (c : PC Stream) (t : jtok) : Z :=
  if jversion t <? uversion c (jpart t) then (if bool_decide (0 <= jversion t /\ t.2 ∈ U) then 1 else 0)
  else if bool_decide (jversion t = uversion c (jpart t) /\ t.2 ∈ joined c (jpart t) (jversion t)) then 1 else 0.

Definition parameters (s : NodeS) : Prop :=
  expected_num_iter_ (pc s) = N /\ staleness_ (pc s) = 0 /\ num_upstream_part_ (pc s) = Z.of_nat (length U) /\
  plan_id_ (pc s) = pid /\ stop_updateing_partitions_ (pc s) = ∅.
(** [H]: the partitions that the node maps. *)
Definition homes (H : Z -> Prop) (c : PC Stream) : Prop := forall u, is_Some (map_versions_ c !! u) <-> H u.
Definition tracker_ok (c : PC Stream) : Prop := forall p,
  0 <= uversion c p /\ (forall v, v <> uversion c p -> joined c p v = ∅) /\
  joined c p (uversion c p) ⊆ list_to_set U /\ (size (joined c p (uversion c p)) < length U)%nat.
(** The plan's versions that the node has been told, is about to be told, and the plan's
    version [V]; [d] are messages on their way from the scheduler. *)
Definition told_up_to (V : Z) (s : sysS) (d : list ctrl_msg) : Prop :=
  0 <= min_version_ (pc (st s)) <= Z.min V (N - 1) /\
  omap new_version (queue s ++ d) = seqZ (min_version_ (pc (st s)) + 1) (Z.min V (N - 1) - min_version_ (pc (st s))).
(** Partition [p] is here, [x] of its iterations have reached the scheduler and the reports
    of the others are on their way, in order; or it is not here. *)
Definition reports_ok (x : Z -> Z) (Upd : Z -> Prop) (s : sysS) (u : list ControllerMsg) : Prop := forall p,
  (Upd p /\ 0 <= x p /\ x p + checkpointing s p <= uversion (pc (st s)) p /\
   join_versions p u = seqZ (x p + 1) (uversion (pc (st s)) p - checkpointing s p - x p)) \/
  (~ Upd p /\ uversion (pc (st s)) p = 0 /\ checkpointing s p = 0 /\ join_versions p u = [] /\ forall v, joined (pc (st s)) p v = ∅).
Definition report_ok (s : NodeS) (m : ControllerMsg) : Prop :=
  c_flag m = CfMap \/ exists p v, ToScheduler m = join_done s p v.
Definition late_ok (s : sysS) : Prop :=
  lates (pc (st s)) /\ (forall m, TJoin m ∈ pool s -> late (pc (st s)) m) /\
  (forall p v us, kFinishJoin p v us ∈ queue s -> us <> [] /\
     (map_collection_id_ (pc (st s)) = update_collection_id_ (pc (st s)) -> v < map_version (pc (st s)) p)).

Record bsp_node (V : Z) (x : Z -> Z) (H Upd : Z -> Prop) (n : node) (u : list ControllerMsg) (d : list ctrl_msg) : Prop := {
  bn_parameters : parameters (st n.1);
  bn_homes : homes H (pc (st n.1));
  bn_within : within (pc (st n.1));
  bn_awake : kStart ∈ queue n.1 ++ d \/ awake (pc (st n.1));
  bn_told : told_up_to V n.1 d;
  bn_balance : forall t, cnt t (applied n.2) = cnt t (queue n.1 ≫= fin_jt) + counted (pc (st n.1)) t;
  bn_tracker : tracker_ok (pc (st n.1));
  bn_reports : reports_ok x Upd n.1 u;
  bn_sent : Forall (report_ok (st n.1)) u;
  bn_late : late_ok n.1 }.

(** ** Absorbing the outputs of a step *)

Lemma parameters_frozen (s s' : NodeS) : frozen s' = frozen s -> parameters s -> parameters s'.
Proof. intros [= E1 E2 E3 E4 E5 E6 E7 E8 E9]. unfold parameters. by rewrite E3, E5, E6, E7, E8. Qed.
Lemma report_ok_frozen (s s' : NodeS) m : frozen s' = frozen s -> report_ok s m -> report_ok s' m.
Proof.
  intros [= E1 E2 E3 E4 E5 E6 E7 E8 E9]. unfold report_ok, join_done. rewrite E7, E9. done.
Qed.

Lemma late_absorb (s : sysS) os (s1 : sysS) : late_ok s -> lags (st s) os (st s1) ->
  (forall t, t ∈ pool s1 -> t ∈ pool s) -> (forall m, m ∈ queue s1 -> m ∈ queue s) ->
  (forall p v us, Push (kFinishJoin p v us) ∈ os -> us <> [] /\
     (map_collection_id_ (pc (st s)) = update_collection_id_ (pc (st s)) -> v < map_version (pc (st s)) p)) ->
  late_ok (absorb os s1).
Proof.
  intros (L1 & L2 & L3) Hl Hp Hq Hf. destruct (Hl L1) as (A & L1' & Ho). pose proof A as [[= E1 E2] Hv].
  unfold late_ok. cbn [st pool queue absorb]. rewrite E1, E2. split_and!.
  - done.
  - intros m [Hm|Hm%elem_of_submitted]%elem_of_app; [by eapply ahead_late, L2, Hp|].
    rewrite Forall_forall in Ho. exact (Ho _ Hm).
  - intros p v us Hin. assert (us <> [] /\ (map_collection_id_ (pc (st s)) = update_collection_id_ (pc (st s)) ->
      v < map_version (pc (st s)) p)) as [? Hlt].
    { apply elem_of_app in Hin as [Hin|Hin%elem_of_pushed]; [by apply L3, Hq|by apply Hf]. }
    split; [done|]. intros Hmc. specialize (Hlt Hmc). specialize (Hv p). lia.
Qed.

Lemma told_absorb V (s : sysS) os (s1 : sysS) d : told_up_to V s d -> min_version_ (pc (st s1)) = min_version_ (pc (st s)) ->
  omap new_version (queue s1) = omap new_version (queue s) -> omap new_version (pushed os) = [] ->
  told_up_to V (absorb os s1) d.
Proof.
  unfold told_up_to. cbn [st queue absorb]. intros [Hb Ht] -> Eq Eo. split; [done|].
  by rewrite omap_app in Ht |- *; rewrite omap_app, Eq, Eo, app_nil_r.
Qed.

Lemma balance_absorb (s : sysS) tr os (s1 : sysS) : (forall t, cnt t (applied tr) = cnt t (queue s ≫= fin_jt) + counted (pc (st s)) t) ->
  (forall t, cnt t (queue s ≫= fin_jt) + counted (pc (st s)) t = cnt t (queue s1 ≫= fin_jt) + counted (pc (st s1)) t) ->
  forall t, cnt t (applied (tr ++ os)) = cnt t (queue (absorb os s1) ≫= fin_jt) + counted (pc (st (absorb os s1))) t.
Proof.
  intros Hb Hs t. cbn [st queue absorb]. unfold applied. rewrite !bind_app, !cnt_app.
  fold (applied tr). fold (applied os). rewrite Hb, Hs, applied_pushed. lia.
Qed.

Lemma awake_absorb (s : sysS) os (s1 : sysS) d : kStart ∈ queue s ++ d \/ awake (pc (st s)) ->
  (awake (pc (st s)) -> awake (pc (st s1))) -> (kStart ∈ queue s -> kStart ∈ queue s1 \/ awake (pc (st s1))) ->
  kStart ∈ queue (absorb os s1) ++ d \/ awake (pc (st (absorb os s1))).
Proof.
  cbn [st queue absorb]. intros [[Hq|Hd]%elem_of_app|Ha] Hk Hs; [|left; set_solver|right; auto].
  destruct (Hs Hq); [left; set_solver|by right].
Qed.

(** The ledger does not change. *)
Lemma node_unseen V x H Upd (s : sysS) tr u d os (s1 : sysS) :
  bsp_node V x H Upd (s, tr) u d ->
  frozen (st s1) = frozen (st s) -> min_version_ (pc (st s1)) = min_version_ (pc (st s)) ->
  (forall p, uversion (pc (st s1)) p = uversion (pc (st s)) p) -> (forall p v, joined (pc (st s1)) p v = joined (pc (st s)) p v) ->
  Forall out_plain os -> homes H (pc (st s1)) -> within (pc (st s1)) ->
  (awake (pc (st s)) -> awake (pc (st s1))) -> (kStart ∈ queue s -> kStart ∈ queue s1 \/ awake (pc (st s1))) ->
  omap new_version (queue s1) = omap new_version (queue s) ->
  (forall t, cnt t (queue s1 ≫= fin_jt) = cnt t (queue s ≫= fin_jt)) ->
  (forall p, checkpointing s1 p = checkpointing s p) -> late_ok (absorb os s1) ->
  bsp_node V x H Upd (absorb os s1, tr ++ os) (u ++ reported os) d.
Proof.
  intros [Bp Bh Bw Ba Bt Bb Bk Br Bs Bl] Hfr Hmin Hu Hj Ho Hh Hwi Hka Hks Hnv Hfin Hcp Hl. cbn [fst snd] in *.
  destruct (plain_quiet os Ho) as (Q1 & Q2 & Q3 & Q4 & Q5).
  assert (forall t, counted (pc (st s1)) t = counted (pc (st s)) t) as Hc by (intros t; unfold counted; by rewrite Hu, Hj).
  split; cbn [fst snd].
  - by eapply parameters_frozen.
  - done.
  - done.
  - by eapply awake_absorb.
  - by apply told_absorb with s.
  - apply (balance_absorb s); [done|]. intros t. by rewrite Hfin, Hc.
  - intros p. cbn [st absorb]. rewrite Hu. setoid_rewrite Hj. apply Bk.
  - intros p. specialize (Br p). unfold checkpointing in *. cbn [st pool queue absorb].
    unfold join_versions in *. rewrite omap_app, !bind_app, !cnt_app, Q3, Q4, Hu, !cnt_nil, !Z.add_0_r, Hcp.
    fold (join_versions p (reported os)). rewrite map_reports_silent, app_nil_r by done.
    destruct Br as [?|(? & ? & ? & ? & Hz)]; [by left|right]. split_and!; try done. intros v. by rewrite Hj.
  - apply Forall_app. split; [eapply Forall_impl; [exact Bs|]; intros m; by apply report_ok_frozen|].
    eapply Forall_impl; [exact Q5|]. by left.
  - done.
Qed.

(** ** The steps of a node *)

Lemma Process_no_fin m (s : NodeS) s' os p v us : msg_wf m -> Process m s = Ok (tt, s', os) -> Push (kFinishJoin p v us) ∉ os.
Proof.
  intros Hm Hr Hin. assert (Forall (out_in (fun _ => True)) os) as Ho.
  { apply (tracks_Ok _ _ _ _ _ _ (moving_Process (fun _ => True) m Hm ltac:(done) ltac:(done)) Hr). by intros ?. }
  rewrite Forall_forall in Ho. exact (Ho _ Hin).
Qed.

(** The joins that a computation says it finished. *)
Definition fins (ok : Z -> Z -> list Z -> Prop) (s : NodeS) (os : outs) (s' : NodeS) : Prop :=
  Forall (fun o => match o with Push (kFinishJoin p v us) => ok p v us | _ => True end) os.
#[local] Instance fins_tracking ok : Tracking (fins ok).
Proof. split; [constructor|]. intros s1 s2 s3 os os' H1 H2. by apply Forall_app. Qed.
Ltac fin_skip := intros; first [by repeat constructor | unfold wp; repeat case_match; first [done | by repeat constructor]].
Ltac solve_fins := repeat (track_step_with fin_skip).

Lemma run_task_fin t (s : NodeS) s' os p v us : run_task t s = Ok (tt, s', os) -> Push (kFinishJoin p v us) ∈ os ->
  exists m, t = TJoin m /\ p = vs_part_id (vj_meta m) /\ v = vs_version (vj_meta m) /\ us = join_ids (vj_meta m).
Proof.
  intros Hr Hin. set (ok := fun p v us => exists m, t = TJoin m /\ p = vs_part_id (vj_meta m) /\ v = vs_version (vj_meta m) /\
    us = join_ids (vj_meta m)).
  assert (tracks (fins ok) (run_task t)) as Hf.
  { destruct t as [q w y|q w o|m|m w|q url|q w l]; cbn [run_task].
    - unfold run_map. solve_fins.
    - unfold run_mapped, AddMapOutput, AddStream, PrepareMsgAndSend, cmap_Lookup, cmap_Get, mapper_Get. solve_fins.
    - unfold run_join. do 6 (track_step_with fin_skip; [solve_fins|]). apply tracks_emit. intros s1.
      repeat constructor. by exists m.
    - unfold run_fetch. solve_fins.
    - unfold run_checkpoint. solve_fins.
    - unfold run_combine, PrepareMsgAndSend, cmap_Lookup, cmap_Get, mapper_Get. solve_fins. }
  apply (tracks_Ok _ _ _ _ _ _ Hf) in Hr. unfold fins in Hr. rewrite Forall_forall in Hr. exact (Hr _ Hin).
Qed.

(** ** Handling a message *)

Section handle.
Context (V : Z) (x : Z -> Z) (H Upd : Z -> Prop) (Ap : jtok -> Prop) (Here : Z -> Prop).
Context (s : sysS) (tr : outs) (u : list ControllerMsg) (d : list ctrl_msg).
Context (Hbsp : bsp_node V x H Upd (s, tr) u d) (Hok : node_ok Ap Here (s, tr)).
Context (m : ctrl_msg) (q : list ctrl_msg) (st' : NodeS) (os : outs).
Context (Hq : queue s = m :: q) (Hr : Process m (st s) = Ok (tt, st', os)).
Let s1 : sysS := {| st := st'; pool := pool s; queue := q; later := later s; grants := grants s |}.

Lemma handled_wf : msg_wf m.
Proof. destruct Hok as (_ & _ & _ & Hqs & _). cbn [fst] in Hqs. rewrite Hq in Hqs. by apply Forall_cons in Hqs as [[? _] _]. Qed.

Lemma handle_late : late_ok (absorb os s1).
Proof.
  destruct Hok as (_ & (_ & _ & Hpd & _ & Hst) & _). cbn [fst] in *.
  apply late_absorb with s; [apply (bn_late _ _ _ _ _ _ _ Hbsp)| |done| |].
  - exact (wp_Ok any _ _ _ _ _ _ Hr (Process_lags m (st s) handled_wf Hst Hpd)).
  - intros m' Hin. rewrite Hq. by right.
  - intros p v us Hin. by destruct (Process_no_fin _ _ _ _ _ _ _ handled_wf Hr Hin).
Qed.

Lemma handle_unseen :
  fin_jt m = [] -> msg_cp m = [] -> new_version m = None ->
  frozen st' = frozen (st s) -> min_version_ (pc st') = min_version_ (pc (st s)) ->
  (forall p, uversion (pc st') p = uversion (pc (st s)) p) -> (forall p v, joined (pc st') p v = joined (pc (st s)) p v) ->
  Forall out_plain os -> homes H (pc st') -> within (pc st') ->
  (awake (pc (st s)) -> awake (pc st')) -> (m = kStart -> awake (pc st')) ->
  bsp_node V x H Upd (absorb os s1, tr ++ os) (u ++ reported os) d.
Proof.
  intros H1 H2 H3 Hf Hm Hu Hj Ho Hh Hw Ha Hs. apply node_unseen with s; try done.
  - rewrite Hq. intros [E|?]%elem_of_cons; [right; apply Hs; by symmetry|by left].
  - rewrite Hq. cbn. by rewrite H3.
  - intros t. rewrite Hq, bind_cons, H1. done.
  - intros p. unfold checkpointing. cbn [pool queue s1]. rewrite Hq, bind_cons, H2. done.
  - apply handle_late.
Qed.

Lemma handle_keeps :
  fin_jt m = [] -> msg_cp m = [] -> new_version m = None -> m <> kStart ->
  keeps_ledger (st s) os st' -> bsp_node V x H Upd (absorb os s1, tr ++ os) (u ++ reported os) d.
Proof.
  intros H1 H2 H3 H4 Hk. pose proof Hk as [Hun _]. pose proof Hun as (Hf & Hm & Hv & _ & Hu & Hj & _ & Ho).
  destruct Hbsp as [Bp Bh Bw Ba Bt Bb Bk Br Bs Bl]. cbn [fst] in *. apply handle_unseen; try done.
  - unfold homes. rewrite Hv. apply Bh.
  - by eapply keeps_within.
  - by eapply unseen_awake.
Qed.

(** The plan's version is below the number of iterations, so a controller still looks for
    maps to run. *)
Lemma unfinished : min_version_ (pc (st s)) <> expected_num_iter_ (pc (st s)) /\ 0 <= staleness_ (pc (st s)) /\
  stop_updateing_partitions_ (pc (st s)) = ∅.
Proof.
  destruct Hbsp as [(E1 & E2 & _ & _ & E3) _ _ _ [Bt _] _ _ _ _ _]. cbn [fst] in *. rewrite E1, E2. split_and!; [lia|lia|done].
Qed.

Lemma handle_start : m = kStart -> bsp_node V x H Upd (absorb os s1, tr ++ os) (u ++ reported os) d.
Proof.
  intros Em. pose proof Hr as Hr'. rewrite Em in Hr'. destruct unfinished as (Hne & Hz & Hst). pose proof Hbsp as [Bp Bh Bw Ba Bt Bb Bk Br Bs Bl]. cbn [fst] in *.
  pose proof (wp_Ok any _ _ _ _ _ _ Hr' (TryRunSomeMaps_ledger (st s) Hst Hne Hz Bw)) as ((Hf & Hm & Hv & _ & Hu & Hj & _ & Ho) & Ha & Hw).
  apply handle_unseen; rewrite ?Em; try done. unfold homes. rewrite Hv. apply Bh.
Qed.

Lemma handle_finish_map p b : m = kFinishMap p b -> bsp_node V x H Upd (absorb os s1, tr ++ os) (u ++ reported os) d.
Proof.
  intros Em. pose proof Hr as Hr'. rewrite Em in Hr'. destruct unfinished as (Hne & Hz & Hst). pose proof Hbsp as [Bp Bh Bw Ba Bt Bb Bk Br Bs Bl]. cbn [fst] in *.
  destruct Hok as (Hinv & _ & (_ & _ & Hrun & _) & _). cbn [fst] in *.
  assert (p ∈ running_maps_ (pc (st s))) as Hp by (eapply finished_map_was_running; [exact Hinv|rewrite Hq, Em; done]).
  destruct (Hrun p Hp) as [w Hw].
  pose proof (wp_Ok any _ _ _ _ _ _ Hr' (FinishMap_ledger p b w (st s) Hst Hne Hz Bw Hp Hw)) as (Hf & Hm & Hv & Hu & Hj & _ & Ho & Ha & Hw').
  apply handle_unseen; rewrite ?Em; try done. intros u'. rewrite Hv, lookup_insert_is_Some'. pose proof (Bh u') as Hu'.
  split; [intros [<-|?]; [by apply Bh; eexists|tauto]|tauto].
Qed.

Lemma handle_receive jm : m = kReceiveJoin jm ->
  (map_collection_id_ (pc (st s)) = update_collection_id_ (pc (st s)) -> H (vs_part_id (vj_meta jm))) ->
  bsp_node V x H Upd (absorb os s1, tr ++ os) (u ++ reported os) d.
Proof.
  intros Em Hown. pose proof Hr as Hr'. rewrite Em in Hr'. apply handle_keeps; rewrite ?Em; try done. refine (wp_Ok any _ _ _ _ _ _ Hr' (ReceiveJoin_ledger jm (st s) _)).
  intros He. apply (bn_homes _ _ _ _ _ _ _ Hbsp). by apply Hown.
Qed.

Lemma handle_update_version v : m = kUpdateVersion v -> (forall p, Upd p -> V <= x p) ->
  bsp_node V x H Upd (absorb os s1, tr ++ os) (u ++ reported os) d.
Proof.
  intros Em Hup. pose proof Hr as Hr'. rewrite Em in Hr'. destruct unfinished as (Hne & Hz & Hst). pose proof Hbsp as [Bp Bh Bw Ba Bt Bb Bk Br Bs Bl]. cbn [fst snd] in *.
  pose proof (wp_Ok any _ _ _ _ _ _ Hr' (UpdateVersion_ledger v (st s) Hst Hz Bw)) as (Hv & Hv' & Hf & Hm & Hmv & Hu & Hj & _ & Ho & Ha & Hw).
  destruct (plain_quiet os Ho) as (Q1 & Q2 & Q3 & Q4 & Q5).
  destruct Bt as [Hb Ht]. rewrite Hq, Em in Ht. cbn in Ht.
  assert (min_version_ (pc (st s)) < Z.min V (N - 1)) as Hlt.
  { destruct (decide (min_version_ (pc (st s)) < Z.min V (N - 1))); [done|]. rewrite seqZ_nil in Ht by lia. done. }
  assert (forall p w, joined (pc st') p w = joined (pc (st s)) p w) as Hj'.
  { intros p w. rewrite Hj. case_decide as Hd; [|done]. symmetry. destruct (Br p) as [(Hp & _ & Hle & _)|(_ & _ & _ & _ & Hz')]; [|done].
    destruct (Bk p) as (_ & Hk & _). apply Hk. specialize (Hup p Hp). pose proof (cnt_nonneg p (pool s ≫= task_cp)).
    pose proof (cnt_nonneg p (queue s ≫= msg_cp)). unfold checkpointing in Hle. lia. }
  assert (forall t, counted (pc st') t = counted (pc (st s)) t) as Hc by (intros t; unfold counted; by rewrite Hu, Hj').
  split; cbn [fst snd].
  - by eapply parameters_frozen.
  - unfold homes. cbn [st absorb s1]. rewrite Hmv. apply Bh.
  - done.
  - by right.
  - unfold told_up_to. cbn [st queue absorb s1]. rewrite Hm, Hv. split; [lia|].
    rewrite seqZ_cons in Ht by lia. injection Ht as _ Ht. rewrite !omap_app, Q1, app_nil_r, <- omap_app, Ht. f_equal; lia.
  - apply (balance_absorb s); [done|]. intros t. cbn [queue st s1]. rewrite Hq, Em, bind_cons. cbn [app fin_jt]. by rewrite Hc.
  - intros p. cbn [st absorb s1]. rewrite Hu. setoid_rewrite Hj'. apply Bk.
  - intros p. specialize (Br p). unfold checkpointing in *. cbn [st pool queue absorb s1]. rewrite Hq, Em in Br. cbn [mbind list_bind msg_cp app] in Br.
    unfold join_versions in *. rewrite omap_app, !bind_app, !cnt_app, Q3, Q4, Hu, !cnt_nil, !Z.add_0_r.
    fold (join_versions p (reported os)). rewrite map_reports_silent, app_nil_r by done.
    destruct Br as [?|(? & ? & ? & ? & Hz')]; [by left|right]. split_and!; try done. intros w. by rewrite Hj'.
  - apply Forall_app. split; [eapply Forall_impl; [exact Bs|]; intros m'; by apply report_ok_frozen|].
    eapply Forall_impl; [exact Q5|]. by left.
  - apply handle_late.
Qed.

(** At most one update or checkpoint of a partition is at work. *)
Definition msg_upd (m : ctrl_msg) : list Z := match m with kFinishJoin p _ _ | kFinishCheckpoint p => [p] | _ => [] end.
Lemma one_update p : cnt p (pool s ≫= task_cp) + cnt p (queue s ≫= msg_upd) <= 1.
Proof.
  destruct Hok as (((_ & Hu & _) & _) & _). cbn [fst] in Hu. specialize (Hu p).
  assert (cnt p (pool s ≫= task_cp) <= cnt (TokUpd p) (pool s ≫= task_toks)) as H1.
  { clear Hu. apply cnt_bind_le. intros t. destruct t; cbn [task_cp task_toks]; rewrite ?cnt_nil; try apply cnt_nonneg; try lia.
    rewrite !cnt_cons, !cnt_nil. do 2 case_decide; try lia; congruence. }
  assert (cnt p (queue s ≫= msg_upd) <= cnt (TokUpd p) (queue s ≫= msg_toks)) as H2.
  { clear Hu. apply cnt_bind_le. intros t. destruct t; cbn [msg_upd msg_toks]; rewrite ?cnt_nil; try apply cnt_nonneg; try lia;
    rewrite !cnt_cons, !cnt_nil; do 2 case_decide; try lia; congruence. }
  unfold stoks in Hu. rewrite !cnt_app in Hu.
  pose proof (cnt_nonneg (TokUpd p) (later s ≫= msg_toks)). pose proof (cnt_nonneg (TokUpd p) (TokFetch <$> grants s)).
  case_decide; lia.
Qed.

(** The reports after a step that completes an iteration of [p] or ends its checkpoint. *)
Lemma join_versions_done p p' v : join_versions p (reported [join_done (st s) p' v]) = if decide (p = p') then [v] else [].
Proof.
  cbn. unfold join_version. cbn. rewrite bool_decide_eq_true_2 by done. cbn.
  case_decide as Hd; [subst; by rewrite Z.eqb_refl|]. by rewrite (proj2 (Z.eqb_neq p' p)) by congruence.
Qed.

Lemma handle_finish_checkpoint p : m = kFinishCheckpoint p ->
  bsp_node V x H Upd (absorb os s1, tr ++ os) (u ++ reported os) d.
Proof.
  intros Em. pose proof Hr as Hr'. rewrite Em in Hr'. destruct unfinished as (Hne & Hz & Hst).
  pose proof Hbsp as [Bp Bh Bw Ba Bt Bb Bk Br Bs Bl]. cbn [fst snd] in *.
  pose proof (wp_Ok any _ _ _ _ _ _ Hr' (FinishCheckpoint_ledger p (st s) Hst Hne Hz Bw))
    as ((Hf & Hm & Hv) & Hu & Hj & Ha & Hw & os' & Eos & Ho).
  destruct (plain_quiet os' Ho) as (Q1 & Q2 & Q3 & Q4 & Q5).
  assert (pushed os = pushed os' /\ submitted os = submitted os' /\
    reported os = reported [join_done (st s) p (uversion (pc (st s)) p)] ++ reported os') as (Ep & Es & Er) by (by rewrite Eos).
  assert (forall p', checkpointing s p' = (if decide (p' = p) then 1 else 0) + checkpointing s1 p') as Hcp.
  { intros p'. unfold checkpointing. cbn [pool queue s1]. rewrite Hq, Em, bind_cons, cnt_app. cbn [msg_cp].
    rewrite cnt_cons, cnt_nil. do 2 case_decide; try lia; congruence. }
  assert (checkpointing s p = 1) as Hone.
  { pose proof (one_update p) as H1. unfold checkpointing in *. assert (cnt p (queue s ≫= msg_cp) <= cnt p (queue s ≫= msg_upd)).
    { apply cnt_bind_le. intros []; cbn; try apply cnt_nonneg; try lia. }
    specialize (Hcp p). rewrite decide_True in Hcp by done.
    pose proof (cnt_nonneg p (pool s1 ≫= task_cp)). pose proof (cnt_nonneg p (queue s1 ≫= msg_cp)). lia. }
  assert (forall t, counted (pc st') t = counted (pc (st s)) t) as Hc by (intros t; unfold counted; by rewrite Hu, Hj).
  split; cbn [fst snd].
  - by eapply parameters_frozen.
  - unfold homes. cbn [st absorb s1]. rewrite Hv. apply Bh.
  - done.
  - by right.
  - apply told_absorb with s; [done..| |by rewrite Ep]. cbn [queue s1]. by rewrite Hq, Em.
  - apply (balance_absorb s); [done|]. intros t. cbn [queue st s1]. rewrite Hq, Em, bind_cons. cbn [app fin_jt]. by rewrite Hc.
  - intros p'. cbn [st absorb s1]. rewrite Hu. setoid_rewrite Hj. apply Bk.
  - intros p'. specialize (Br p'). specialize (Hcp p'). cbn [st absorb s1].
    assert (checkpointing (absorb os s1) p' = checkpointing s1 p') as ->.
    { unfold checkpointing. cbn [pool queue absorb]. rewrite Ep, Es, !bind_app, !cnt_app, Q3, Q4, !cnt_nil. lia. }
    unfold join_versions in *. rewrite Er, !omap_app, Hu. fold (join_versions p' (reported os')).
    fold (join_versions p' (reported [join_done (st s) p (uversion (pc (st s)) p)])).
    rewrite join_versions_done, map_reports_silent, app_nil_r by done.
    case_decide as Hd; [subst p'|].
    + destruct Br as [(Hup & Hx & Hle & ->)|(_ & _ & Hz' & _)]; [left|lia]. split_and!; [done|done|lia|].
      replace (checkpointing s1 p) with 0 by lia. rewrite Hone in *. rewrite Z.sub_0_r.
      replace (uversion (pc (st s)) p - x p) with ((uversion (pc (st s)) p - 1 - x p) + 1) by lia.
      rewrite seqZ_app by lia. f_equal. rewrite seqZ_cons, seqZ_nil by lia. f_equal. lia.
    + rewrite Z.add_0_l in Hcp. rewrite app_nil_r, <- Hcp. destruct Br as [?|(? & ? & ? & ? & Hz')]; [by left|right].
      split_and!; try done. intros w. by rewrite Hj.
  - apply Forall_app. split; [eapply Forall_impl; [exact Bs|]; intros m'; by apply report_ok_frozen|].
    rewrite Er. apply Forall_app. split; [|eapply Forall_impl; [exact Q5|]; by left].
    constructor; [right|constructor]. eexists _, _. unfold join_done. injection Hf as _ _ _ _ _ _ E7 _ E9. cbn [st absorb s1]. by rewrite E7, E9.
  - apply handle_late.
Qed.

(** ** The end of a join *)

Section finish_join.
Context (p v : Z) (us : list Z).
Context (Em : m = kFinishJoin p v us) (HU : NoDup U).
Context (Hv : v = uversion (pc (st s)) p) (Hv0 : 0 <= v) (Hupd : Upd p) (Hus : forall u, u ∈ us -> u ∈ U).
Context (Honce : forall t, cnt t (applied tr) <= 1) (Hup : V <= x p).

Lemma no_checkpoint : checkpointing s p = 0 /\ forall p', checkpointing s1 p' = checkpointing s p'.
Proof.
  split.
  - pose proof (one_update p) as H1. unfold checkpointing. rewrite Hq, Em in *. rewrite bind_cons, cnt_app in *. cbn [msg_upd msg_cp] in *.
    rewrite cnt_cons, cnt_nil in *. rewrite decide_True in H1 by done.
    assert (cnt p (q ≫= msg_cp) <= cnt p (q ≫= msg_upd)) by (apply cnt_bind_le; intros []; cbn; try apply cnt_nonneg; lia).
    pose proof (cnt_nonneg p (pool s ≫= task_cp)). pose proof (cnt_nonneg p (q ≫= msg_cp)). lia.
  - intros p'. unfold checkpointing. cbn [pool queue s1]. rewrite Hq, Em, bind_cons. done.
Qed.

(** An update that ends is not in the tracker yet. *)
Lemma joined_once u' : cnt u' us + (if bool_decide (u' ∈ joined (pc (st s)) p v) then 1 else 0) =
  if bool_decide (u' ∈ list_to_set us ∪ joined (pc (st s)) p v) then 1 else 0.
Proof.
  pose proof (bn_balance _ _ _ _ _ _ _ Hbsp (p, v, u')) as Hb. cbn [fst snd] in Hb. specialize (Honce (p, v, u')).
  rewrite Hq, Em, bind_cons, cnt_app in Hb. cbn [fin_jt] in Hb. unfold counted in Hb. cbn [jpart jversion fst snd] in Hb.
  rewrite <- Hv, Z.ltb_irrefl in Hb. pose proof (cnt_nonneg (p, v, u') (q ≫= fin_jt)).
  assert (cnt (p, v, u') (ups_jt p v us) = cnt u' us) as Ec.
  { unfold ups_jt. clear. induction us as [|a l IH]; [done|]. rewrite fmap_cons, !cnt_cons, IH. do 2 case_decide; try lia; congruence. }
  rewrite Ec in Hb.
  rewrite (bool_decide_ext (v = v /\ u' ∈ joined (pc (st s)) p v) (u' ∈ joined (pc (st s)) p v)) in Hb by tauto.
  destruct (decide (u' ∈ us)) as [Hin|Hin].
  - pose proof (cnt_pos u' us Hin). rewrite (bool_decide_eq_true_2 (u' ∈ _ ∪ _)) by set_solver.
    destruct (bool_decide (u' ∈ joined _ _ _)); lia.
  - rewrite (cnt_zero u' us) by done.
    rewrite (bool_decide_ext (u' ∈ list_to_set us ∪ joined (pc (st s)) p v) (u' ∈ joined (pc (st s)) p v)) by set_solver. lia.
Qed.

Lemma finish_join_queue t : cnt t (queue s ≫= fin_jt) =
  (if decide (jpart t = p /\ jversion t = v) then cnt t.2 us else 0) + cnt t (q ≫= fin_jt).
Proof.
  rewrite Hq, Em, bind_cons, cnt_app. cbn [fin_jt]. f_equal. destruct t as [[p' v'] u']. cbn [jpart jversion fst snd]. unfold ups_jt.
  clear. induction us as [|a l IH]; [by case_decide|]. rewrite fmap_cons, !cnt_cons, IH.
  repeat case_decide; try lia; try congruence; naive_solver.
Qed.

Lemma complete_tracker (T : gset Z) : T ⊆ list_to_set U -> size T = length U -> forall u', u' ∈ T <-> u' ∈ U.
Proof.
  intros Hsub Hs u'. assert (T ≡ (list_to_set U : gset Z)) as ->; [|set_solver].
  apply set_subseteq_size_equiv; [done|]. rewrite size_list_to_set by done. lia.
Qed.

(** What a complete iteration tells the scheduler, or starts. *)
Lemma completes_outputs w : completes (st s) p w os -> omap new_version (pushed os) = [] /\ Forall (report_ok (st s)) (reported os) /\
  (forall p', p' <> p -> join_versions p' (reported os) = []) /\
  (forall p', p' <> p -> checkpointing (absorb os s1) p' = checkpointing s p') /\
  (checkpointing (absorb os s1) p = 0 /\ join_versions p (reported os) = [w] \/
   checkpointing (absorb os s1) p = 1 /\ join_versions p (reported os) = []).
Proof.
  destruct no_checkpoint as [Hcp Hcp1]. intros [(os' & -> & Ho)|(url & ->)].
  - destruct (plain_quiet os' Ho) as (Q1 & Q2 & Q3 & Q4 & Q5).
    assert (forall p', join_versions p' (reported (join_done (st s) p w :: os')) = if decide (p' = p) then [w] else []) as Hj.
    { intros p'. change (reported (join_done (st s) p w :: os')) with (reported [join_done (st s) p w] ++ reported os').
      unfold join_versions. rewrite omap_app. fold (join_versions p' (reported os')). rewrite map_reports_silent, app_nil_r by done.
      apply join_versions_done. }
    assert (forall p', checkpointing (absorb (join_done (st s) p w :: os') s1) p' = checkpointing s p') as Hc.
    { intros p'. rewrite <- Hcp1. unfold checkpointing. cbn [pool queue absorb].
      change (submitted (join_done (st s) p w :: os')) with (submitted os'). change (pushed (join_done (st s) p w :: os')) with (pushed os').
      rewrite !bind_app, !cnt_app, Q3, Q4, !cnt_nil. lia. }
    split_and!; [done| | | |].
    + change (reported (join_done (st s) p w :: os')) with (reported [join_done (st s) p w] ++ reported os').
      apply Forall_app. split; [|eapply Forall_impl; [exact Q5|]; by left]. constructor; [right; by eexists _, _|constructor].
    + intros p' Hne. by rewrite Hj, decide_False.
    + done.
    + left. by rewrite Hc, Hj, decide_True.
  - assert (forall p', checkpointing (absorb [Submit (TCheckpoint p url)] s1) p' = checkpointing s p' + if decide (p' = p) then 1 else 0) as Hc.
    { intros p'. rewrite <- Hcp1. unfold checkpointing. cbn [pool queue absorb]. rewrite !bind_app, !cnt_app. cbn -[cnt].
      rewrite cnt_cons, !cnt_nil. do 2 case_decide; try lia; congruence. }
    split_and!; [done|constructor|done| |].
    + intros p' Hne. rewrite Hc, decide_False by done. lia.
    + right. rewrite Hc, Hcp, decide_True by done. done.
Qed.

(** The partition has been mapped past the plan's version, so ending the update leaves no map
    waiting. *)
Lemma finish_join_awake : same_maps (st s) st' -> running_maps_ (pc st') = running_maps_ (pc (st s)) ->
  (forall p', p' <> p -> is_Some (running_updates_ (pc (st s)) !! p') -> is_Some (running_updates_ (pc st') !! p')) ->
  awake (pc (st s)) -> awake (pc st').
Proof.
  intros (Hf & Hm & Hmv) Hrm Hru Ha u' w Hw. injection Hf as E1 E2 _ _ E5 _ _ _ _. rewrite Hmv in Hw.
  unfold attended. rewrite E1, E2, E5, Hm, Hrm.
  destruct (Ha u' w Hw) as [?|[?|[?|[He Hs]]]]; [by left|right; by left|right; right; by left|].
  destruct (decide (u' = p)) as [->|Hne]; [|right; right; right; by auto].
  right; left. destruct (bn_late _ _ _ _ _ _ _ Hbsp) as (_ & _ & Hl). cbn [fst] in Hl.
  destruct (Hl p v us) as [_ Hlt]; [rewrite Hq, Em; left|]. specialize (Hlt He). unfold map_version in Hlt.
  rewrite (lookup_or_Some _ _ _ _ Hw) in Hlt. destruct (bn_told _ _ _ _ _ _ _ Hbsp) as [Hb _]. cbn [fst] in Hb.
  destruct (bn_reports _ _ _ _ _ _ _ Hbsp p) as [(_ & _ & Hle & _)|(Hno & _)]; [|done]. cbn [fst] in Hle.
  rewrite (proj1 no_checkpoint) in Hle. lia.
Qed.

Lemma finish_join_node :
  same_maps (st s) st' -> running_maps_ (pc st') = running_maps_ (pc (st s)) ->
  (forall p', p' <> p -> is_Some (running_updates_ (pc (st s)) !! p') -> is_Some (running_updates_ (pc st') !! p')) ->
  omap new_version (pushed os) = [] -> Forall (report_ok (st s)) (reported os) ->
  (forall t, cnt t (queue s ≫= fin_jt) + counted (pc (st s)) t = cnt t (q ≫= fin_jt) + counted (pc st') t) ->
  tracker_ok (pc st') -> reports_ok x Upd (absorb os s1) (u ++ reported os) ->
  bsp_node V x H Upd (absorb os s1, tr ++ os) (u ++ reported os) d.
Proof.
  intros Hsm Hrm Hru Hnv Hrep Hbal Hk Hrs. pose proof Hsm as (Hf & Hm & Hmv).
  pose proof Hbsp as [Bp Bh Bw Ba Bt Bb Bk Br Bs Bl]. cbn [fst snd] in *. split; cbn [fst snd].
  - by eapply parameters_frozen.
  - unfold homes. cbn [st absorb s1]. rewrite Hmv. apply Bh.
  - intros u' w. cbn [st absorb s1]. injection Hf as _ _ _ _ _ E6 _ _ _. rewrite Hmv, Hm, Hrm, E6. apply Bw.
  - apply awake_absorb with s; [done|by apply finish_join_awake|]. rewrite Hq, Em. intros [?|?]%elem_of_cons; [done|by left].
  - apply told_absorb with s; [done..| |done]. cbn [queue s1]. by rewrite Hq, Em.
  - by apply (balance_absorb s).
  - done.
  - done.
  - apply Forall_app. split; (eapply Forall_impl; [eassumption|]); intros m'; by apply report_ok_frozen.
  - apply handle_late.
Qed.

(** Balance: the updates of the join move from the message to the tracker. *)
Lemma finish_join_balance (c' : PC Stream) :
  (forall p' w, p' <> p -> uversion c' p' = uversion (pc (st s)) p' /\ joined c' p' w = joined (pc (st s)) p' w) ->
  (forall t, jpart t = p -> jversion t <> v -> counted c' t = counted (pc (st s)) t) ->
  (forall u', counted c' (p, v, u') = if bool_decide (u' ∈ list_to_set us ∪ joined (pc (st s)) p v) then 1 else 0) ->
  forall t, cnt t (queue s ≫= fin_jt) + counted (pc (st s)) t = cnt t (q ≫= fin_jt) + counted c' t.
Proof.
  intros Ho Hp Hc t. rewrite finish_join_queue. destruct t as [[p' v'] u']. cbn [jpart jversion fst snd].
  case_decide as Hd; [destruct Hd as [-> ->]|].
  - rewrite Hc, <- joined_once. unfold counted. cbn [jpart jversion fst snd]. rewrite <- Hv, Z.ltb_irrefl.
    rewrite (bool_decide_ext (v = v /\ u' ∈ joined (pc (st s)) p v) (u' ∈ joined (pc (st s)) p v)) by tauto. lia.
  - destruct (decide (p' = p)) as [->|Hne].
    + rewrite (Hp (p, v', u')); [lia|done|]. cbn. naive_solver.
    + unfold counted. cbn [jpart jversion fst snd]. destruct (Ho p' v' Hne) as [-> ->]. lia.
Qed.

Lemma handle_finish_join : bsp_node V x H Upd (absorb os s1, tr ++ os) (u ++ reported os) d.
Proof.
  pose proof Hr as Hr'. rewrite Em in Hr'.
  pose proof Hbsp as [Bp Bh Bw Ba Bt Bb Bk Br Bs Bl]. cbn [fst snd] in *. destruct no_checkpoint as [Hcp Hcp1].
  set (T := list_to_set us ∪ joined (pc (st s)) p v) in *.
  pose proof (wp_Ok any _ _ _ _ _ _ Hr' (FinishJoin_ledger p v us (st s))) as (Hsm & Hrm & Hru & Hc).
  assert (num_upstream_part_ (pc (st s)) = Z.of_nat (length U)) as Hn by apply Bp. rewrite Hn in Hc.
  destruct (Bk p) as (Hw0 & Hk1 & Hk2 & Hk3). rewrite <- Hv in *.
  assert (T ⊆ list_to_set U) as HT.
  { unfold T. intros u' [Hin%elem_of_list_to_set|Hin]%elem_of_union; [apply elem_of_list_to_set, Hus, Hin|by apply Hk2]. }
  destruct (Br p) as [(_ & Hx0 & Hxle & Hxr)|(Hno & _)]; [|done]. rewrite Hcp, <- Hv in *. fold T in Hc.
  assert (forall p' : Z, p' <> p -> forall s2 : sysS, (forall w, joined (pc (st s2)) p' w = joined (pc (st s)) p' w) ->
    uversion (pc (st s2)) p' = uversion (pc (st s)) p' -> checkpointing s2 p' = checkpointing s p' ->
    join_versions p' (reported os) = [] ->
    (Upd p' /\ 0 <= x p' /\ x p' + checkpointing s2 p' <= uversion (pc (st s2)) p' /\
     join_versions p' (u ++ reported os) = seqZ (x p' + 1) (uversion (pc (st s2)) p' - checkpointing s2 p' - x p')) \/
    (~ Upd p' /\ uversion (pc (st s2)) p' = 0 /\ checkpointing s2 p' = 0 /\ join_versions p' (u ++ reported os) = [] /\
     forall w, joined (pc (st s2)) p' w = ∅)) as Hothers.
  { intros p' Hne s2 E1 E2 E3 E4. unfold join_versions in *. rewrite omap_app, E4, app_nil_r, E2, E3.
    destruct (Br p') as [?|(? & ? & ? & ? & ?)]; [by left|right]. split_and!; try done. intros w. by rewrite E1. }
  destruct (decide (Z.of_nat (size T) = Z.of_nat (length U))) as [Hsz|Hsz]; destruct Hc as (Hu' & Hj' & Hout).
  - assert (forall u', u' ∈ T <-> u' ∈ U) as Hall by (apply complete_tracker; [done|lia]).
    assert (forall p' w, p' <> p -> uversion (pc st') p' = uversion (pc (st s)) p' /\ joined (pc st') p' w = joined (pc (st s)) p' w) as Hrest.
    { intros p' w Hne. rewrite Hu', Hj', !decide_False by naive_solver. done. }
    assert (uversion (pc st') p = v + 1 /\ forall w, joined (pc st') p w = ∅) as [Hup1 Hjp].
    { split; [by rewrite Hu', decide_True|]. intros w. rewrite Hj'. case_decide as Hd; [done|]. apply Hk1. naive_solver. }
    assert (omap new_version (pushed os) = [] /\ Forall (report_ok (st s)) (reported os) /\
      (forall p', p' <> p -> join_versions p' (reported os) = []) /\
      (forall p', p' <> p -> checkpointing (absorb os s1) p' = checkpointing s p') /\
      (checkpointing (absorb os s1) p = 0 /\ join_versions p (reported os) = [v + 1] \/
       checkpointing (absorb os s1) p = 1 /\ join_versions p (reported os) = [])) as (O1 & O2 & O3 & O4 & O5)
      by by apply completes_outputs.
    apply finish_join_node; try done.
    + apply finish_join_balance; [done|..].
      * intros [[p' v'] u'] Hp' Hne. cbn in Hp', Hne. subst p'. unfold counted. cbn [jpart jversion fst snd].
        rewrite Hup1, Hjp, <- Hv, (Hk1 v' Hne). destruct (Z.ltb_spec v' v), (Z.ltb_spec v' (v + 1)); try lia; try done.
        by rewrite !bool_decide_eq_false_2 by set_solver.
      * intros u'. unfold counted. cbn [jpart jversion fst snd]. rewrite Hup1, (proj2 (Z.ltb_lt v (v + 1))) by lia.
        fold T. rewrite (bool_decide_ext (0 <= v /\ u' ∈ U) (u' ∈ T)); [done|]. rewrite Hall. tauto.
    + intros p'. destruct (decide (p' = p)) as [->|Hne].
      * rewrite Hup1, Hjp. split_and!; [lia|done|set_solver|rewrite size_empty; lia].
      * destruct (Bk p') as (B0 & B1 & B2 & B3). destruct (Hrest p' (uversion (pc (st s)) p') Hne) as [-> ->]. split_and!; try done.
        intros w Hw. destruct (Hrest p' w Hne) as [_ ->]. by apply B1.
    + intros p'. destruct (decide (p' = p)) as [->|Hne].
      * left. cbn [st absorb s1]. rewrite Hup1. unfold join_versions in *. rewrite omap_app, Hxr.
        fold (join_versions p (reported os)). destruct O5 as [[-> E]|[-> E]]; unfold join_versions; rewrite E.
        -- split_and!; [done|done|lia|]. rewrite !Z.sub_0_r. replace (v + 1 - x p) with (v - x p + 1) by lia.
           rewrite seqZ_app by lia. f_equal. rewrite seqZ_cons, seqZ_nil by lia. f_equal. lia.
        -- split_and!; [done|done|lia|]. rewrite app_nil_r. f_equal. lia.
      * apply (Hothers p' Hne (absorb os s1)); cbn [st absorb s1]; [intros w; by apply Hrest|by apply (Hrest p' 0)|by apply O4|by apply O3].
  - destruct (plain_quiet os Hout) as (Q1 & Q2 & Q3 & Q4 & Q5).
    assert (forall p', checkpointing (absorb os s1) p' = checkpointing s p') as Hcp2.
    { intros p'. rewrite <- Hcp1. unfold checkpointing. cbn [pool queue absorb]. rewrite !bind_app, !cnt_app, Q3, Q4, !cnt_nil. lia. }
    apply finish_join_node; try done.
    + eapply Forall_impl; [exact Q5|]. by left.
    + apply finish_join_balance.
      * intros p' w Hne. rewrite Hu', Hj', decide_False by naive_solver. done.
      * intros [[p' v'] u'] Hp' Hne. cbn in Hp', Hne. subst p'. unfold counted. cbn [jpart jversion fst snd].
        by rewrite Hu', Hj', decide_False by naive_solver.
      * intros u'. unfold counted. cbn [jpart jversion fst snd]. rewrite Hu', <- Hv, Z.ltb_irrefl, Hj', decide_True by done.
        rewrite (bool_decide_ext (v = v /\ u' ∈ T) (u' ∈ T)) by tauto. done.
    + intros p'. rewrite Hu'. setoid_rewrite Hj'. destruct (decide (p' = p)) as [->|Hne].
      * rewrite <- Hv. split_and!; [done| | |].
        -- intros w Hne. rewrite decide_False by naive_solver. by apply Hk1.
        -- by rewrite decide_True.
        -- rewrite decide_True by done. pose proof (subseteq_size _ _ HT) as Hle. rewrite size_list_to_set in Hle by done. lia.
      * destruct (Bk p') as (? & B1 & B2 & B3). split_and!; try done.
        -- intros w Hw. rewrite decide_False by naive_solver. by apply B1.
        -- by rewrite decide_False by naive_solver.
        -- by rewrite decide_False by naive_solver.
    + intros p'. destruct (decide (p' = p)) as [->|Hne].
      * left. cbn [st absorb s1]. rewrite Hcp2, Hcp, Hu', <- Hv. unfold join_versions in *. rewrite omap_app.
        fold (join_versions p (reported os)). rewrite map_reports_silent, app_nil_r by done. done.
      * apply (Hothers p' Hne (absorb os s1)); cbn [st absorb s1]; [|done|done|by apply map_reports_silent].
        intros w. rewrite Hj', decide_False by naive_solver. done.
Qed.
End finish_join.
End handle.

(** ** All steps of a node *)

Lemma node_task V x H Upd Ap Here s tr u d l1 t l2 st' os :
  bsp_node V x H Upd (s, tr) u d -> node_ok Ap Here (s, tr) ->
  pool s = l1 ++ t :: l2 -> run_task t (st s) = Ok (tt, st', os) ->
  bsp_node V x H Upd
    (absorb os {| st := st'; pool := l1 ++ l2; queue := queue s; later := later s; grants := grants s |}, tr ++ os) (u ++ reported os) d.
Proof.
  intros Hb Hok Hp Hr. pose proof Hb as [Bp Bh Bw Ba Bt Bb Bk Br Bs Bl]. cbn [fst snd] in *.
  set (s1 := {| st := st'; pool := l1 ++ l2; queue := queue s; later := later s; grants := grants s |}).
  assert (late_ok (absorb os s1)) as Hl.
  { apply late_absorb with s; [done| | |done|].
    - exact (tracks_Ok _ _ _ _ _ _ (lagging_run_task t) Hr).
    - intros t' Ht'. rewrite Hp. cbn in Ht'. set_solver.
    - intros p v us Hin. destruct (run_task_fin _ _ _ _ _ _ _ Hr Hin) as (jm & -> & -> & -> & ->). split.
      + unfold join_ids. by destruct (vs_ext_upstream_part_ids _).
      + intros He. destruct Bl as (_ & Bl & _). apply (Bl jm); [rewrite Hp; set_solver| |done].
        destruct Hok as (_ & _ & _ & _ & _ & Hwf & _). cbn [fst] in Hwf. rewrite Hp in Hwf.
        apply Forall_app in Hwf as [_ [[? _] _]%Forall_cons]. done. }
  assert (forall t', t' = t -> match t' with TCheckpoint _ _ => False | _ => True end ->
    bsp_node V x H Upd (absorb os s1, tr ++ os) (u ++ reported os) d) as Hplain.
  { intros t' -> Ht. assert (keeps_ledger (st s) os st') as Hk by by eapply tracks_Ok; [apply keeping_run_task|].
    pose proof Hk as [Hun _]. pose proof Hun as (Hf & Hm & Hv & _ & Hu & Hj & _ & Ho).
    apply node_unseen with s; try done.
    - unfold homes. cbn [st s1]. rewrite Hv. apply Bh.
    - by eapply keeps_within.
    - by eapply unseen_awake.
    - by left.
    - intros p. unfold checkpointing. cbn [pool queue s1]. rewrite Hp, !bind_app, bind_cons, !cnt_app.
      assert (task_cp t = []) as -> by by destruct t. rewrite cnt_nil. lia. }
  destruct t as [p v y|p v o|jm|jm v|p url|p v l]; try by eapply Hplain.
  destruct (wp_Ok any _ _ _ _ _ _ Hr (run_checkpoint_ledger p url (st s))) as [[Hun Hrm] (b & ->)].
  pose proof Hun as (Hf & Hm & Hv & _ & Hu & Hj & _ & _). split; cbn [fst snd].
  - by eapply parameters_frozen.
  - unfold homes. cbn [st absorb s1]. rewrite Hv. apply Bh.
  - eapply keeps_within; [exact (conj Hun Hrm)|done].
  - apply awake_absorb with s; [done|by eapply unseen_awake|by left].
  - by apply told_absorb with s.
  - apply (balance_absorb s); [done|]. intros t. cbn [queue st s1]. unfold counted. by rewrite Hu, Hj.
  - intros p'. cbn [st absorb s1]. rewrite Hu. setoid_rewrite Hj. apply Bk.
  - intros p'. specialize (Br p'). cbn [st absorb s1 reported omap list_omap]. rewrite app_nil_r, Hu.
    assert (checkpointing (absorb [WriteFile url b; Push (kFinishCheckpoint p)] s1) p' = checkpointing s p') as ->.
    { unfold checkpointing. cbn [pool queue absorb s1]. rewrite Hp, !bind_app, bind_cons, !cnt_app. cbn -[cnt].
      rewrite !cnt_cons, !cnt_nil. lia. }
    destruct Br as [?|(? & ? & ? & ? & Hz)]; [by left|right]. split_and!; try done. intros w. by rewrite Hj.
  - cbn. rewrite app_nil_r. eapply Forall_impl; [exact Bs|]. intros m'. by apply report_ok_frozen.
  - done.
Qed.

(** What the rest of the cluster guarantees when a node takes a step: joins are sent to nodes
    that have the partition, and the updates that a join ends are those of the iteration that
    its partition is at. *)
Definition bsp_guarantees (V : Z) (x : Z -> Z) (H Upd : Z -> Prop) (s : sysS) (tr : outs) : Prop :=
  (forall p, Upd p -> V <= x p) /\ (forall t, cnt t (applied tr) <= 1) /\
  (forall jm, kReceiveJoin jm ∈ queue s -> map_collection_id_ (pc (st s)) = update_collection_id_ (pc (st s)) ->
     H (vs_part_id (vj_meta jm))) /\
  (forall p v us, kFinishJoin p v us ∈ queue s -> us <> [] ->
     v = uversion (pc (st s)) p /\ 0 <= v /\ Upd p /\ forall u, u ∈ us -> u ∈ U).

Lemma node_local V x H Upd Ap Here s tr u d os s' :
  NoDup U -> bsp_node V x H Upd (s, tr) u d -> node_ok Ap Here (s, tr) -> bsp_guarantees V x H Upd s tr ->
  local_step s os s' -> bsp_node V x H Upd (s', tr ++ os) (u ++ reported os) d.
Proof.
  intros HU Hb Hok (Hup & Honce & Hown & Hfin) Hstep.
  destruct Hstep as [s m q st' os Hq Hr|s l1 t l2 st' os Hp Hr|s st' os Hr|s l1 m l2 Hlm|s l1 p l2 u' Hg].
  - assert (msg_wf m) as Hwf by by eapply handled_wf. pose proof Hr as Hr'.
    destruct m as [sp| |p b|p v us|v|jm|fm bin sd rc|p u'|p|mm body| |t|l]; cbn [Process] in Hr'; try done.
    + by eapply handle_start.
    + by eapply handle_finish_map.
    + pose proof Hb as [_ _ _ _ _ _ _ _ _ (_ & _ & Bl)]. cbn [fst] in Bl.
      assert (kFinishJoin p v us ∈ queue s) as Hin by (rewrite Hq; left).
      destruct (Bl p v us Hin) as [Hne _]. destruct (Hfin p v us Hin Hne) as (? & ? & ? & ?).
      eapply handle_finish_join; try done. by apply Hup.
    + by eapply handle_update_version.
    + eapply handle_receive; try done. apply Hown. rewrite Hq. left.
    + eapply handle_keeps; try done. by eapply tracks_Ok; [apply keeping_ReceiveFetchRequest|].
    + eapply handle_keeps; try done. by eapply tracks_Ok; [apply keeping_FinishFetch|].
    + by eapply handle_finish_checkpoint.
    + eapply handle_keeps; try done. injection Hr' as <- <-. apply track_refl.
    + eapply handle_keeps; try done. injection Hr' as <- <-. apply keeps_ledger_same; try done. by intros p.
  - by eapply node_task.
  - pose proof (tracks_Ok _ _ _ _ _ _ keeping_PeriodicCombine Hr) as Hk. pose proof Hk as [Hun _].
    pose proof Hun as (Hf & Hm & Hv & _ & Hu & Hj & _ & Ho). pose proof Hb as [Bp Bh Bw Ba Bt Bb Bk Br Bs Bl]. cbn [fst snd] in *.
    apply node_unseen with s; try done.
    + unfold homes. cbn [st]. rewrite Hv. apply Bh.
    + by eapply keeps_within.
    + by eapply unseen_awake.
    + by left.
    + apply late_absorb with s; [done| |done|done|].
      * exact (tracks_Ok _ _ _ _ _ _ lagging_PeriodicCombine Hr).
      * intros p v us Hin. exfalso. assert (tracks (fins (fun _ _ _ => False)) PeriodicCombine) as Hn by (unfold PeriodicCombine; solve_fins).
        apply (tracks_Ok _ _ _ _ _ _ Hn) in Hr. unfold fins in Hr. rewrite Forall_forall in Hr. exact (Hr _ Hin).
  - destruct Hok as (_ & _ & _ & _ & Hl & _). cbn [fst] in Hl. rewrite Hl in Hlm. by destruct l1.
  - destruct Hb as [Bp Bh Bw Ba Bt Bb Bk Br Bs Bl]. cbn [fst snd] in *. rewrite !app_nil_r. split; cbn [fst snd st queue pool]; try done.
    + destruct Ba as [Ba|?]; [left; set_solver|by right].
    + unfold told_up_to. cbn [st queue]. destruct Bt as [? Bt]. split; [done|]. rewrite <- Bt, !omap_app. by rewrite app_nil_r.
    + intros t. rewrite bind_app, cnt_app, Bb. cbn -[cnt]. rewrite cnt_nil. lia.
    + intros p'. specialize (Br p'). unfold checkpointing in *. cbn [st pool queue]. rewrite bind_app, cnt_app. cbn -[cnt].
      by rewrite cnt_nil, Z.add_0_r.
    + destruct Bl as (? & ? & Bl). split_and!; try done. cbn [queue st]. intros p' v us [Hin|Hin]%elem_of_app; [by apply Bl|set_solver].
Qed.

(** A message arrives: from the network or a fetcher, or the next one from the scheduler. *)
Lemma node_deliver_other V x H Upd s tr u d m : fin_jt m = [] -> msg_cp m = [] -> new_version m = None ->
  (forall p v us, m <> kFinishJoin p v us) ->
  bsp_node V x H Upd (s, tr) u d -> bsp_node V x H Upd (deliver m s, tr) u d.
Proof.
  intros H1 H2 H3 H4 [Bp Bh Bw Ba Bt Bb Bk Br Bs Bl]. cbn [fst snd] in *. split; cbn [fst snd st queue pool deliver]; try done.
  - destruct Ba as [Ba|?]; [left; set_solver|by right].
  - unfold told_up_to. cbn [st queue deliver]. destruct Bt as [? Bt]. split; [done|]. rewrite <- Bt, !omap_app. cbn. rewrite H3.
    by rewrite app_nil_r.
  - intros t. rewrite bind_app, cnt_app, Bb, bind_cons, H1. cbn -[cnt]. rewrite cnt_nil. lia.
  - intros p'. specialize (Br p'). unfold checkpointing in *. cbn [st pool queue deliver]. rewrite bind_app, cnt_app, bind_cons, H2.
    cbn -[cnt]. by rewrite cnt_nil, Z.add_0_r.
  - destruct Bl as (? & ? & Bl). split_and!; try done. cbn [queue st deliver]. intros p' v us [Hin|Hin]%elem_of_app; [by apply Bl|].
    apply list_elem_of_singleton in Hin. by destruct (H4 p' v us).
Qed.
Lemma node_deliver_order V x H Upd s tr u d m : fin_jt m = [] -> msg_cp m = [] -> (forall p v us, m <> kFinishJoin p v us) ->
  bsp_node V x H Upd (s, tr) u (m :: d) -> bsp_node V x H Upd (deliver m s, tr) u d.
Proof.
  intros H1 H2 H4 [Bp Bh Bw Ba Bt Bb Bk Br Bs Bl]. cbn [fst snd] in *. split; cbn [fst snd st queue pool deliver]; try done.
  - by rewrite <- app_assoc.
  - unfold told_up_to. cbn [st queue deliver]. by rewrite <- app_assoc.
  - intros t. rewrite bind_app, cnt_app, Bb, bind_cons, H1. cbn -[cnt]. rewrite cnt_nil. lia.
  - intros p'. specialize (Br p'). unfold checkpointing in *. cbn [st pool queue deliver]. rewrite bind_app, cnt_app, bind_cons, H2.
    cbn -[cnt]. by rewrite cnt_nil, Z.add_0_r.
  - destruct Bl as (? & ? & Bl). split_and!; try done. cbn [queue st deliver]. intros p' v us [Hin|Hin]%elem_of_app; [by apply Bl|].
    apply list_elem_of_singleton in Hin. by destruct (H4 p' v us).
Qed.

(** ** The scheduler handles a report *)

(** The plan's version advances from [V] to [V']: the node is sent the new one, or the end. *)
Lemma node_announce V V' x x' H Upd (n : node) u u' d o : V <= V' <= V + 1 -> reports_ok x' Upd n.1 u' -> Forall (report_ok (st n.1)) u' ->
  omap new_version o = (if decide (V < V' /\ V' <= N - 1) then [V'] else []) ->
  bsp_node V x H Upd n u d -> bsp_node V' x' H Upd n u' (d ++ o).
Proof.
  intros HV Hr' Hs' Ho [Bp Bh Bw Ba [Bm Bt] Bb Bk Br Bs Bl]. split; try done.
  - destruct Ba as [Ba|?]; [left; set_solver|by right].
  - split; [lia|]. rewrite app_assoc, omap_app, Bt, Ho. case_decide as Hc.
    + replace (Z.min V' (N - 1) - min_version_ (pc (st n.1))) with ((Z.min V (N - 1) - min_version_ (pc (st n.1))) + 1) by lia.
      rewrite seqZ_app by lia. f_equal. rewrite seqZ_cons, seqZ_nil by lia. f_equal. lia.
    + rewrite app_nil_r. f_equal. lia.
Qed.

(** The next report of partition [p]: what it says, and what remains. *)
Lemma reports_next x Upd (s : sysS) m u p : c_flag m = CfJoin -> c_part_id m = p -> reports_ok x Upd s (m :: u) ->
  Upd p /\ c_version m = x p + 1 /\ x p + 1 <= uversion (pc (st s)) p /\
  reports_ok (fun q => if decide (q = p) then x p + 1 else x q) Upd s u.
Proof.
  intros Hf Hp Hr. assert (join_version p m = Some (c_version m)) as Hj.
  { unfold join_version. by rewrite Hf, Hp, bool_decide_eq_true_2, Z.eqb_refl. }
  pose proof (Hr p) as [(Hu & H0 & Hle & E)|(_ & _ & _ & E & _)].
  2: { unfold join_versions in E. cbn in E. by rewrite Hj in E. }
  unfold join_versions in E. cbn in E. rewrite Hj in E. set (k := uversion _ _ - _ - _) in E.
  assert (0 < k) as Hk. { destruct (decide (0 < k)); [done|]. by rewrite seqZ_nil in E by lia. }
  rewrite seqZ_cons in E by lia. injection E as Ev E.
  assert (0 <= checkpointing s p) by (unfold checkpointing; pose proof (cnt_nonneg p (pool s ≫= task_cp)); pose proof (cnt_nonneg p (queue s ≫= msg_cp)); lia).
  split_and!; [done|done|lia|]. intros q. destruct (decide (q = p)) as [->|Hq].
  - left. split_and!; [done|lia|lia|]. unfold join_versions. rewrite E. f_equal; lia.
  - assert (join_version q m = None) as Hn.
    { unfold join_version. by rewrite Hp, (proj2 (Z.eqb_neq p q)), andb_false_r by done. }
    specialize (Hr q). unfold join_versions in *. cbn in Hr. by rewrite Hn in Hr.
Qed.
(** Reports about maps are not counted. *)
Lemma reports_skip x Upd (s : sysS) m u : c_flag m = CfMap -> reports_ok x Upd s (m :: u) -> reports_ok x Upd s u.
Proof.
  intros Hf Hr p. assert (join_version p m = None) as Hn by (unfold join_version; by rewrite Hf, bool_decide_eq_false_2).
  specialize (Hr p). unfold join_versions in *. cbn in Hr. by rewrite Hn in Hr.
Qed.
(** A report of a partition that the node does not have. *)
Lemma reports_other x x' Upd (s : sysS) u : (forall p, Upd p -> x' p = x p) -> reports_ok x Upd s u -> reports_ok x' Upd s u.
Proof. intros Hx Hr p. destruct (Hr p) as [(Hu & H')|H']; [left; by rewrite Hx|by right]. Qed.
End Node.
