(* ===== verification/PlanStart.v ===== *)
(** * The start of a plan

    What [Setup] leaves in a plan controller, and the ledger ([PlanBsp]) of a node that has
    just been set up. *)

From S2P Require Import Prelude BinStream Specs Index Messages Partition PlanController PlanFrame PlanExclusion PlanTokens PlanProgress PlanCluster PlanDrain PlanComplete PlanSim PlanEvents PlanResult PlanInputs PlanLedger PlanBsp.

Section Start.
Context {P Stream : Type} `{UC : UserCode P Stream} `{IO : IterOrder}.
Abbreviation NodeS := (NodeSt P Stream).
Abbreviation outs := (list (out P Stream)).
Abbreviation sysS := (sys (P := P) (Stream := Stream)).
Abbreviation node := (sysS * outs)%type.
Abbreviation clusterS := (cluster (P := P) (Stream := Stream)).

(** The parameters of the plan, and versions that are all 0. *)
Definition set_up (sp : SpecWrapper) (mp : MapJoinSpec) (s : NodeS) : Prop :=
  as_MapJoin (Specs.spec sp) = Some mp /\
  (map_collection_id_ (pc s), update_collection_id_ (pc s), plan_id_ (pc s), expected_num_iter_ (pc s), staleness_ (pc s), min_version_ (pc s)) =
  (map_collection_id mp, update_collection_id mp, spec_id sp, num_iter mp, staleness mp, 0) /\
  forall p, uversion (pc s) p = 0.

Lemma Setup_parameters sp (s : NodeS) : wp any (Setup sp) s (fun _ s' _ => exists mp, set_up sp mp s').
Proof.
  unfold Setup, cast_MapJoin, cmap_GetNumParts, cmap_Get, ReportFinishPart, pcs.
  repeat first [ wstep | (apply wp_on_pm; intros ? ?) | (unfold mod_pc at 1; wstep) ].
  all: match goal with |- context [pm_GetAll (update_collection_id ?x)] =>
    apply (wp_for_each_state any (set_up sp x));
      [split_and!; [done|done|intros p; apply lookup_or_empty]
      |intros part s1 _ (? & ? & ?); unfold mod_pc; wstep; by split_and!|intros s1 os1 Hs1];
    wstep; apply wp_on_pm; intros parts q'; wstep;
    apply (wp_for_each_state any (set_up sp x)); [exact Hs1| |intros s2 os2 Hs2; wsteps; by exists x] end.
  all: intros part s2 _ (? & ? & Hu); unfold mod_pc; wstep; (split_and!; [done|done|]).
  all: intros p; unfold uversion; cbn; destruct (decide (part.1 = p)) as [<-|]; [apply lookup_or_insert|rewrite lookup_or_insert_ne by done; apply Hu].
Qed.

(** Exactly the partitions of the map collection have a version. *)
Lemma set_map_versions_homes {A} (l : list (Z * A)) (s : NodeS) (Q : unit -> NodeS -> outs -> Prop) :
  (forall s' os, pm s' = pm s -> map_collection_id_ (pc s') = map_collection_id_ (pc s) ->
     (forall p, is_Some (map_versions_ (pc s') !! p) <-> p ∈ l.*1 \/ is_Some (map_versions_ (pc s) !! p)) -> Q tt s' os) ->
  wp any (for_each l (fun part => mod_pc (fun c => c <| map_versions_ ::= <[part.1 := 0]> |>))) s Q.
Proof.
  revert s Q. induction l as [|[p x] l IH]; intros s Q HQ; cbn [for_each].
  - wstep. apply HQ; [done|done|]. set_solver.
  - wstep. unfold mod_pc at 1. wstep. apply IH. intros s' os Hpm Huc Hv. apply HQ; [done|done|].
    intros q. rewrite Hv. cbn. rewrite lookup_insert_is_Some', elem_of_cons. naive_solver.
Qed.
Definition only_maps (s : NodeS) : Prop := forall u, is_Some (map_versions_ (pc s) !! u) -> maps_here s u.
Lemma Setup_only_maps sp (s : NodeS) : wp any (Setup sp) s (fun _ s' _ => only_maps s').
Proof.
  unfold Setup, cast_MapJoin, cmap_GetNumParts, cmap_Get, ReportFinishPart, pcs.
  repeat first [ wstep | (apply zoom_wp, pm_GetAll_spec; intros q1 l1 Hq1 Hl1 _)
               | (apply wp_on_pm; intros ? ?) | (unfold mod_pc at 1; wstep) ].
  all: apply set_map_versions_homes; intros s1 os1 Epm Emc Hv; wstep; apply zoom_wp, pm_GetAll_spec; intros q2 l2 Hq2 _ _; wstep.
  all: assert (only_maps (s1 <| pm := q2 |>)) as Hs1;
    [intros u Hu; apply Hv in Hu as [Hu|[y Hu]];
      [apply list_elem_of_fmap in Hu as ((u' & y) & -> & Hin); apply Hl1 in Hin; exists y;
       change (store_lookup q2 (map_collection_id_ (pc s1)) u' = Some y); rewrite Emc, (Hq2 _ u'), Epm; cbn; by rewrite (Hq1 _ u')
      |cbn in Hu; by rewrite lookup_empty in Hu]
    |apply (wp_for_each_state any only_maps); [exact Hs1|intros part s2 _ Hs2; unfold mod_pc; by wstep|intros s2 os2 Hs2]].
  all: by wsteps.
Qed.

(** ** The ledger at the start *)

Lemma start_bsp sp mp (c : clusterS) (n : node) U x d :
  cinitial sp c -> n ∈ nodes c -> as_MapJoin (Specs.spec sp) = Some mp -> 0 < num_iter mp -> staleness mp = 0 ->
  num_upstream_part_ (pc (st n.1)) = Z.of_nat (length U) -> U <> [] ->
  (forall p, is_Some (updated_here n p) -> x p = 0) -> kStart ∈ d -> omap new_version d = [] ->
  bsp_node (num_iter mp) (spec_id sp) U 0 x (maps_here (st n.1)) (fun p => is_Some (updated_here n p)) n [] d.
Proof.
  intros Hi Hn Hmp HN Hstale Hup HU Hx Hd1 Hd2.
  destruct (cinitial_Setup sp c n (fun s => exists mp, set_up sp mp s) Hi Hn (Setup_parameters sp)) as (mp' & Hmp' & Hpar & Huv).
  assert (mp' = mp) as -> by congruence. clear Hmp'. injection Hpar as Emc Euc Epid Eexp Est Emin.
  pose proof (cinitial_Setup sp c n maps_versioned Hi Hn (Setup_maps_versioned sp)) as Hh1.
  pose proof (cinitial_Setup sp c n only_maps Hi Hn (Setup_only_maps sp)) as Hh2.
  pose proof Hi as (_ & Hall & _). rewrite Forall_forall in Hall. destruct (Hall n Hn) as (Htr & q & cm & id & st' & os & Hset & Es).
  assert (untouched (st n.1)) as (Ht & Hw & _ & _ & Hstop & Hrm & _ & Hv0).
  { rewrite Es. cbn [st]. eapply (wp_Ok any _ _ _ _ _ (fun _ s' _ => untouched s') Hset), Setup_untouched.
    unfold untouched. cbn. split_and!; try done. by exists 0%nat. }
  assert (pool n.1 = [] /\ queue n.1 = []) as [Ep Eq] by (by rewrite Es).
  assert (forall p v, joined (pc (st n.1)) p v = ∅) as Hj.
  { intros p v. unfold joined, tracker_get. by rewrite Ht, !lookup_or_empty. }
  split; rewrite ?Eq, ?Htr.
  - split_and!; [done|by rewrite Est|done..].
  - intros u. split; [apply Hh2|apply Hh1].
  - intros u w Hu. assert (w = 0) as -> by (specialize (Hv0 u); unfold lookup_or in Hv0; by rewrite Hu in Hv0).
    rewrite Emin, Est, Hstale, Hrm. split; [lia|set_solver].
  - by left.
  - unfold told_up_to. rewrite Emin, Eq. split; [lia|]. cbn [app]. rewrite Hd2, seqZ_nil by lia. done.
  - intros t. unfold counted. rewrite Huv, Hj. cbn -[cnt]. rewrite cnt_nil.
    rewrite (bool_decide_eq_false_2 (jversion t = 0 /\ _)) by set_solver.
    destruct (Z.ltb_spec (jversion t) 0); [|lia]. rewrite bool_decide_eq_false_2 by lia. done.
  - intros p. rewrite Huv. split_and!; [lia|intros v _; apply Hj|rewrite Hj; set_solver|rewrite Hj, size_empty].
    destruct U; [done|cbn; lia].
  - intros p. unfold checkpointing. rewrite Ep, Eq, Huv. cbn -[cnt]. rewrite !cnt_nil.
    destruct (decide (is_Some (updated_here n p))) as [Hs|Hs]; [left|right; by split_and!].
    rewrite (Hx p Hs). split_and!; [done|lia|lia|by rewrite seqZ_nil by lia].
  - constructor.
  - unfold late_ok. rewrite Ep, Eq. split_and!; [|set_solver..]. intros p m. rewrite Hw, lookup_or_empty. set_solver.
Qed.
End Start.
