(* ===== verification/Controller.v ===== *)
(** * The controller actor (core/worker/controller.hpp, controller.cpp)

    One [Controller] per node holds a [PlanController] per running plan and dispatches the
    messages of its queue to them by plan id.  A message for a plan that has no controller,
    because it was terminated or never set up, is ignored.  The timers, which are only
    logged, are left out. *)

From S2P Require Import Prelude BinStream Specs Index Messages Partition PlanController.

Section Controller.
Context {P Stream : Type} `{UserCode P Stream} `{IterOrder}.

Record Controller := {
  plan_controllers_ : gmap Z (PC Stream);
  erased_ : gmap Z bool;
  ctl_pm : PartitionManager P;
  ctl_cmap : CollectionMap;
  ctl_node : Z }.
#[global] Instance eta_Controller : Eta Controller := fun c =>
  {| plan_controllers_ := plan_controllers_ c; erased_ := erased_ c; ctl_pm := ctl_pm c;
     ctl_cmap := ctl_cmap c; ctl_node := ctl_node c |}.

Abbreviation KM := (M Controller (out P Stream)).

(** [plan_controllers_[plan_id]->handler(...)] *)
Definition on_plan {A} (plan_id : Z) (m : M (NodeSt P Stream) (out P Stream) A) : KM A := fun c =>
  match plan_controllers_ c !! plan_id with
  | None => Err (Undefined "plan_controllers_[plan_id]")
  | Some pc0 =>
      match m {| pc := pc0; pm := ctl_pm c; cmap := ctl_cmap c; my_id := ctl_node c |} with
      | Ok (a, s, os) =>
          Ok (a, c <| plan_controllers_ ::= <[plan_id := pc s]> |> <| ctl_pm := pm s |>
                   <| ctl_cmap := cmap s |>, os)
      | Err e => Err e
      end
  end.

(** A new plan controller is created, but an existing one of the plan is kept. *)
Definition ctl_Setup (spec : SpecWrapper) : KM unit :=
  modify (fun c => c <| plan_controllers_ ::= fun m =>
    match m !! spec_id spec with Some _ => m | None => <[spec_id spec := new_pc]> m end |>) ;;;
  on_plan (spec_id spec) (Setup spec).

Definition TerminatePlan (plan_id : Z) : KM unit :=
  c <-- get ;;
  check (bool_decide (is_Some (plan_controllers_ c !! plan_id)))
    "plan_controllers_.find(plan_id) != end" ;;;
  modify (fun c => c <| erased_ ::= <[plan_id := true]> |> <| plan_controllers_ ::= delete plan_id |>) ;;;
  emit (ToScheduler {| c_flag := CfFinish; c_version := -1; c_node_id := ctl_node c;
                       c_plan_id := plan_id; c_part_id := -1 |}).

Definition ctl_Process (plan_id : Z) (m : ctrl_msg) : KM unit :=
  match m with
  | kSetup spec => ctl_Setup spec
  | _ =>
      c <-- get ;;
      if bool_decide (plan_controllers_ c !! plan_id = None) then ret tt
      else match m with
           | kTerminatePlan => TerminatePlan plan_id
           | _ => on_plan plan_id (Process m)
           end
  end.

(** ** Plans do not disturb each other *)

Definition about (plan_id : Z) (m : ctrl_msg) : Prop :=
  match m with kSetup spec => spec_id spec = plan_id | _ => True end.

Definition same_plan (k : Z) (c c' : Controller) : Prop :=
  plan_controllers_ c' !! k = plan_controllers_ c !! k.

Lemma on_plan_other {A} plan_id k (m : M (NodeSt P Stream) (out P Stream) A) c :
  k <> plan_id -> wp any (on_plan plan_id m) c (fun _ c' _ => same_plan k c c').
Proof.
  intros Hk. unfold on_plan, wp. destruct (plan_controllers_ c !! plan_id); [|done].
  destruct (m _) as [[[a' s] os']|e]; [|done]. unfold same_plan. cbn. by rewrite lookup_insert_ne.
Qed.

(** A message about one plan leaves the controllers of the others as they are. *)
Lemma ctl_Process_other plan_id m k c :
  about plan_id m -> k <> plan_id -> wp any (ctl_Process plan_id m) c (fun _ c' _ => same_plan k c c').
Proof.
  intros Ha Hk. destruct m; cbn in Ha; cbn [ctl_Process]; unfold ctl_Setup, TerminatePlan;
    try (wstep; wstep; wstep; [by wstep|by apply on_plan_other]).
  - subst plan_id. wstep. wstep. eapply wp_mono; [by apply on_plan_other|].
    intros x c' os Hs. unfold same_plan in *. rewrite Hs. cbn.
    destruct (plan_controllers_ c !! spec_id spec); [done|]. by rewrite lookup_insert_ne.
  - repeat wstep; try done. unfold same_plan. cbn. by rewrite lookup_delete_ne.
Qed.

(** A message for a plan that is not set up, or terminated, changes and sends nothing. *)
Lemma ctl_Process_ignored plan_id m c :
  plan_controllers_ c !! plan_id = None -> (forall spec, m <> kSetup spec) ->
  ctl_Process plan_id m c = Ok (tt, c, []).
Proof.
  intros Hn Hm. assert (Hb : bool_decide (plan_controllers_ c !! plan_id = None) = true)
    by (by apply bool_decide_eq_true).
  destruct m; try (unfold ctl_Process, bind, get; by rewrite Hb). by destruct (Hm spec).
Qed.
End Controller.
Arguments Controller : clear implicits.
