(* ===== verification/Fetcher.v ===== *)
(** * The fetcher (core/cache/fetcher.hpp, fetcher.cpp, core/cache/abstract_fetcher.hpp)

    One [Fetcher] per node gives the map functions access to partitions of the fetched
    collection: whole partitions ([FetchPart]/[FinishPart]) and single objects
    ([FetchObjs]).  It is an actor with a work queue, and at the same time a monitor: map
    threads call [FetchPart] and [FetchObjs] directly and wait on a condition variable.
    Every section of the code that runs under the mutex [m_] is one definition here, so
    that the places where a thread gives the mutex up are the places where other threads
    can come in.

    [Section System] puts the fetcher together with the calling threads, its work queue,
    its executor and the controllers that answer its requests; [sys_step] executes one
    event of this system, [sys_run] a sequence of them. *)

From S2P Require Import Prelude BinStream Index Messages Partition.

(** ** Two-level maps: [std::map<int, std::map<int, V>>] *)

Section two_level.
Context {A : Type}.
Implicit Types m : gmap Z (gmap Z A).

Definition find2 (c p : Z) m : option A := m !! c ≫= (.!! p).
Definition set2 (c p : Z) (x : A) m : gmap Z (gmap Z A) := <[c := <[p := x]> (lookup_or ∅ c m)]> m.
Definition erase2 (c p : Z) m : gmap Z (gmap Z A) := <[c := delete p (lookup_or ∅ c m)]> m.

Lemma find2_inner c p m : lookup_or ∅ c m !! p = find2 c p m.
Proof. unfold find2, lookup_or. destruct (m !! c); [done|]. apply lookup_empty. Qed.

Lemma find2_touch c c' p' m : find2 c' p' (touch ∅ c m) = find2 c' p' m.
Proof. rewrite <- !find2_inner. by rewrite lookup_or_touch. Qed.

Lemma find2_set2 c p x c' p' m :
  find2 c' p' (set2 c p x m) = if decide ((c', p') = (c, p)) then Some x else find2 c' p' m.
Proof.
  rewrite <- !find2_inner. unfold set2. destruct (decide (c = c')) as [->|].
  - rewrite lookup_or_insert. destruct (decide (p = p')) as [->|].
    + by rewrite lookup_insert_eq, decide_True.
    + rewrite lookup_insert_ne, decide_False by congruence. done.
  - rewrite lookup_or_insert_ne, decide_False by congruence. done.
Qed.

Lemma find2_erase2 c p c' p' m :
  find2 c' p' (erase2 c p m) = if decide ((c', p') = (c, p)) then None else find2 c' p' m.
Proof.
  rewrite <- !find2_inner. unfold erase2. destruct (decide (c = c')) as [->|].
  - rewrite lookup_or_insert. destruct (decide (p = p')) as [->|].
    + by rewrite lookup_delete_eq, decide_True.
    + rewrite lookup_delete_ne, decide_False by congruence. done.
  - rewrite lookup_or_insert_ne, decide_False by congruence. done.
Qed.
End two_level.
Arguments find2 : simpl never.
Arguments set2 : simpl never.
Arguments erase2 : simpl never.

Section Fetcher.
Context {P : Type}.
(** [FunctionStore::GetCreatePart]: create an empty partition, then [FromBin]. *)
Variable create_part : Z -> option (BinStream -> P).

(** ** State *)

(** A [shared_ptr<AbstractPartition>]: null, the object that the partition manager also
    owns (and that updates change), or a copy of the fetcher's own. *)
Inductive part_ptr :=
| PNull
| PLocal (cid pid : Z)
| PCopy (x : P).

(** [recv_binstream_] maps to the caller's vector, named by the id of the calling thread;
    [vectors] holds those vectors. *)
Record Fetcher := {
  recv_finished_ : gmap Z Z;
  recv_binstream_ : gmap Z Z;
  vectors : gmap Z (list BinStream);
  partition_versions_ : gmap Z (gmap Z Z);
  partition_cache_ : gmap Z (gmap Z part_ptr);
  requesting_versions_ : gmap Z (gmap Z (list Z));
  local_access_count_ : gmap (Z * Z) Z;
  partition_manager_ : PartitionManager P;
  collection_map_ : CollectionMap;
  node_id_ : Z }.
#[global] Instance eta_Fetcher : Eta Fetcher := fun f =>
  {| recv_finished_ := recv_finished_ f; recv_binstream_ := recv_binstream_ f;
     vectors := vectors f; partition_versions_ := partition_versions_ f;
     partition_cache_ := partition_cache_ f; requesting_versions_ := requesting_versions_ f;
     local_access_count_ := local_access_count_ f; partition_manager_ := partition_manager_ f;
     collection_map_ := collection_map_ f; node_id_ := node_id_ f |}.

Definition new_fetcher (pm : PartitionManager P) (cm : CollectionMap) (node : Z) : Fetcher :=
  {| recv_finished_ := ∅; recv_binstream_ := ∅; vectors := ∅; partition_versions_ := ∅;
     partition_cache_ := ∅; requesting_versions_ := ∅; local_access_count_ := ∅;
     partition_manager_ := pm; collection_map_ := cm; node_id_ := node |}.

(** A message in the fetcher's work queue: [data[0]] the flag, [data[1]] the meta data and,
    when the message has three parts, [data[2]]. *)
Record fmsg := { fm_flag : FetcherFlag; fm_meta : FetchMeta; fm_bin : option BinStream }.

Inductive fout :=
| FSend (recver plan_id : Z) (m : ctrl_msg)   (* sender_->Send *)
| FPush (m : fmsg)                            (* GetWorkQueue()->Push *)
| FExec (m : fmsg).                           (* executor_->Add(FetchPartReplyRemote(msg)) *)

Abbreviation FM := (M Fetcher fout).

Definition fQid (f : Fetcher) : Z := GetFetcherQid (node_id_ f).
Definition mkey (m : FetchMeta) : Z * Z := (fm_collection_id m, fm_partition_id m).

(** ** Whole partitions *)

(** [partition_versions_[cid]] is created when it is missing. *)
Definition IsVersionSatisfied (meta : FetchMeta) : FM bool :=
  modify (fun f => f <| partition_versions_ ::= touch ∅ (fm_collection_id meta) |>) ;;;
  f <-- get ;;
  match find2 (fm_collection_id meta) (fm_partition_id meta) (partition_versions_ f) with
  | Some v => ret (fm_version meta <=? v)
  | None => ret false
  end.

Definition TryAccessLocal (meta : FetchMeta) : FM unit :=
  f <-- get ;;
  match local_access_count_ f !! mkey meta with
  | Some n => modify (fun f => f <| local_access_count_ ::= <[mkey meta := n + 1]> |>)
  | None => ret tt
  end.

(** [return partition_cache_[cid][pid]], which makes a missing entry null. *)
Definition cache_get (meta : FetchMeta) : FM part_ptr :=
  f <-- get ;;
  let x := default PNull (find2 (fm_collection_id meta) (fm_partition_id meta) (partition_cache_ f)) in
  modify (fun f => f <| partition_cache_ ::= set2 (fm_collection_id meta) (fm_partition_id meta) x |>) ;;;
  ret x.

(** FetchPart, first critical section: the process cache. *)
Definition FetchPart_cached (meta : FetchMeta) : FM (option part_ptr) :=
  sat <-- IsVersionSatisfied meta ;;
  if sat then
    TryAccessLocal meta ;;;
    p <-- cache_get meta ;;
    ret (Some p)
  else ret None.

(** FetchPart, between the critical sections: the request goes to the own work queue. *)
Definition FetchPart_request (meta : FetchMeta) : FM unit :=
  emit (FPush {| fm_flag := kFetchPartRequest; fm_meta := meta; fm_bin := None |}).

(** FetchPart, second critical section: the predicate of [cv_.wait]. *)
Definition FetchPart_wait (meta : FetchMeta) : FM bool := IsVersionSatisfied meta.

(** FetchPart, third critical section. *)
Definition FetchPart_access (meta : FetchMeta) : FM part_ptr :=
  TryAccessLocal meta ;;; cache_get meta.

Definition SendFetchPart (meta : FetchMeta) : FM unit :=
  f <-- get ;;
  node <-- cmap_Lookup (fm_collection_id meta) (fm_partition_id meta) (collection_map_ f) ;;
  let recver := GetControllerActorQid node in
  emit (FSend recver (fm_plan_id meta) (kFetchRequest meta empty_stream (fQid f) recver)).

Definition SendFinishPart (meta : FetchMeta) : FM unit :=
  f <-- get ;;
  emit (FSend (GetControllerActorQid (GetNodeId (fQid f))) (fm_plan_id meta)
          (kFinishFetch (fm_partition_id meta) (fm_upstream_part_id meta))).

(** [requesting_versions_[cid][pid]] *)
Definition get_requests (meta : FetchMeta) : FM (list Z) :=
  f <-- get ;;
  ret (default [] (find2 (fm_collection_id meta) (fm_partition_id meta) (requesting_versions_ f))).
Definition set_requests (meta : FetchMeta) (q : list Z) : FM unit :=
  modify (fun f => f <| requesting_versions_ ::=
    set2 (fm_collection_id meta) (fm_partition_id meta) q |>).

Definition with_version (meta : FetchMeta) (v : Z) : FetchMeta :=
  {| fm_plan_id := fm_plan_id meta; fm_upstream_part_id := fm_upstream_part_id meta;
     fm_collection_id := fm_collection_id meta; fm_partition_id := fm_partition_id meta;
     fm_version := v; fm_local_mode := fm_local_mode meta |}.

Definition TryFetchNextVersion (meta : FetchMeta) (version : Z) : FM unit :=
  q <-- get_requests meta ;;
  let q := filter (fun v => version < v) q in
  set_requests meta q ;;;
  match q with
  | [] => ret tt
  | next_version :: _ =>
      check (fm_version meta <? next_version) "next_version > meta.version" ;;;
      SendFetchPart (with_version meta next_version)
  end.

Definition FinishPart (meta : FetchMeta) : FM unit :=
  f <-- get ;;
  match local_access_count_ f !! mkey meta with
  | None => ret tt
  | Some n =>
      check (0 <? n) "local_access_count_[p] > 0" ;;;
      modify (fun f => f <| local_access_count_ ::= <[mkey meta := n - 1]> |>) ;;;
      when (n - 1 =? 0)
        (SendFinishPart meta ;;;
         let version := default 0
           (find2 (fm_collection_id meta) (fm_partition_id meta) (partition_versions_ f)) in
         modify (fun f => f
           <| partition_versions_ ::= erase2 (fm_collection_id meta) (fm_partition_id meta) |>
           <| partition_cache_ ::= erase2 (fm_collection_id meta) (fm_partition_id meta) |>) ;;;
         TryFetchNextVersion meta version ;;;
         modify (fun f => f <| local_access_count_ ::= delete (mkey meta) |>))
  end.

Definition data_size (m : fmsg) : Z := if fm_bin m then 3 else 2.

Definition FetchPartRequest (msg : fmsg) : FM unit :=
  check (data_size msg =? 2) "msg.data.size() == 2" ;;;
  let meta := fm_meta msg in
  sat <-- IsVersionSatisfied meta ;;
  if sat then ret tt else
  q <-- get_requests meta ;;
  set_requests meta q ;;;
  match last q with
  | None => set_requests meta (q ++ [fm_version meta]) ;;; SendFetchPart meta
  | Some v => when (v <? fm_version meta) (set_requests meta (q ++ [fm_version meta]))
  end.

Definition on_manager {A} (m : M (PartitionManager P) Empty_set A) : FM A :=
  zoom partition_manager_ (fun x f => f <| partition_manager_ := x |>)
    (fun e : Empty_set => match e with end) m.

(** The entry that a reply makes. *)
Definition store_part (meta : FetchMeta) (p : part_ptr) : FM unit :=
  modify (fun f => f
    <| partition_versions_ ::=
         set2 (fm_collection_id meta) (fm_partition_id meta) (fm_version meta) |>
    <| partition_cache_ ::= set2 (fm_collection_id meta) (fm_partition_id meta) p |>).

Definition FetchPartReplyLocal (msg : fmsg) : FM unit :=
  check (data_size msg =? 2) "msg.data.size() == 2" ;;;
  let meta := fm_meta msg in
  _ <-- on_manager (pm_Get (fm_collection_id meta) (fm_partition_id meta)) ;;
  store_part meta (PLocal (fm_collection_id meta) (fm_partition_id meta)) ;;;
  f <-- get ;;
  check (bool_decide (local_access_count_ f !! mkey meta = None))
    "local_access_count_.find({cid, pid}) == end" ;;;
  modify (fun f => f <| local_access_count_ ::= <[mkey meta := 0]> |>).

Definition FetchPartReplyRemote (msg : fmsg) : FM unit :=
  check (data_size msg =? 3) "msg.data.size() == 3" ;;;
  let meta := fm_meta msg in
  bin <-- deref (fm_bin msg) "msg.data[2]" ;;
  match create_part (fm_collection_id meta) with
  | None => throw (CheckFailed "create_part_.find(id) != end")
  | Some create =>
      store_part meta (PCopy (create bin)) ;;;
      TryFetchNextVersion meta (fm_version meta)
  end.

(** ** Single objects *)

Definition FetchObjsReply (msg : fmsg) : FM unit :=
  check (data_size msg =? 3) "msg.data.size() == 3" ;;;
  bin <-- deref (fm_bin msg) "msg.data[2]" ;;
  let up := fm_upstream_part_id (fm_meta msg) in
  f <-- get ;;
  check (bool_decide (is_Some (recv_binstream_ f !! up)))
    "recv_binstream_.find(upstream_part_id) != end" ;;;
  vec <-- deref (recv_binstream_ f !! up) "recv_binstream_[upstream_part_id]" ;;
  modify (fun f => f <| vectors ::= fun vs => <[vec := lookup_or [] vec vs ++ [bin]]> vs |>
                     <| recv_finished_ ::= fun r => <[up := lookup_or 0 up r + 1]> r |>).

(** FetchObjs, first critical section: [rets], the vector of thread [vec], is registered. *)
Definition FetchObjs_register (vec upstream_part_id : Z) : FM unit :=
  modify (fun f => f <| recv_binstream_ ::= <[upstream_part_id := vec]> |>).

(** FetchObjs: one request per partition, in the order of the partition ids; [local_mode] is
    left uninitialized by the code and not read for a version of -1. *)
Definition FetchObjs_send (plan_id upstream_part_id collection_id : Z)
    (part_to_keys : gmap Z BinStream) : FM unit :=
  for_each (entries part_to_keys) (fun kv =>
    f <-- get ;;
    node <-- cmap_Lookup collection_id kv.1 (collection_map_ f) ;;
    let recver := GetControllerActorQid node in
    let fetch_meta :=
      {| fm_plan_id := plan_id; fm_upstream_part_id := upstream_part_id;
         fm_collection_id := collection_id; fm_partition_id := kv.1; fm_version := -1;
         fm_local_mode := false |} in
    emit (FSend recver plan_id (kFetchRequest fetch_meta kv.2 (fQid f) recver))).

(** FetchObjs, second critical section: the predicate of [cv_.wait], which makes a missing
    counter 0. *)
Definition FetchObjs_ready (upstream_part_id recv_count : Z) : FM bool :=
  modify (fun f => f <| recv_finished_ ::= touch 0 upstream_part_id |>) ;;;
  f <-- get ;;
  ret (lookup_or 0 upstream_part_id (recv_finished_ f) =? recv_count).

Definition FetchObjs_end (upstream_part_id : Z) : FM unit :=
  modify (fun f => f <| recv_binstream_ ::= delete upstream_part_id |>
                     <| recv_finished_ ::= delete upstream_part_id |>).

(** ** The actor *)

Definition fet_Process (msg : fmsg) : FM unit :=
  match fm_flag msg with
  | kFetchObjsReply => FetchObjsReply msg
  | kFetchPartRequest => FetchPartRequest msg
  | kFetchPartReplyRemote => emit (FExec msg)
  | kFetchPartReplyLocal => FetchPartReplyLocal msg
  end.

(** ** The system around the fetcher *)

(** A map thread in a call of [FetchPart], or between [FetchPart] and [FinishPart].  [Idle]:
    outside; [Requesting]: past the first critical section; [Waiting]: in [cv_.wait];
    [Woken]: the wait is over, the mutex released; [Holding]: [FetchPart] returned a
    partition, cached at the given version; [Crashed]: it returned null, which the caller
    dereferences. *)
Inductive thread :=
| Idle
| Requesting (meta : FetchMeta)
| Waiting (meta : FetchMeta)
| Woken (meta : FetchMeta)
| Holding (meta : FetchMeta) (p : part_ptr) (version : Z)
| Crashed (meta : FetchMeta).

(** [requests] are the fetch requests that the controllers have not answered, [tasks] the
    replies handed to the executor, [ctl_version] the version of each partition at its
    controller, [grants] the number of local accesses the controller has granted and not
    been told the end of. *)
Record Sys := {
  fet : Fetcher;
  threads : gmap Z thread;
  queue : list fmsg;
  tasks : list fmsg;
  requests : list FetchMeta;
  ctl_version : gmap (Z * Z) Z;
  grants : gmap (Z * Z) Z }.
#[global] Instance eta_Sys : Eta Sys := fun s =>
  {| fet := fet s; threads := threads s; queue := queue s; tasks := tasks s;
     requests := requests s; ctl_version := ctl_version s; grants := grants s |}.

Definition ver_at (s : Sys) (k : Z * Z) : Z := default 0 (ctl_version s !! k).
Definition grants_at (s : Sys) (k : Z * Z) : Z := default 0 (grants s !! k).

(** Whether the controller of a partition answers with access to the partition itself: the
    partition is on the fetcher's node and [local_mode] is set. *)
Variable is_local : Z * Z -> bool.

(** What an output does; [k] is the partition of the call that emitted it (a
    [kFinishFetch] names no collection, the controller of the plan knows it). *)
Definition deliver (k : Z * Z) (s : Sys) (o : fout) : Sys :=
  match o with
  | FSend _ _ (kFetchRequest meta _ _ _) => s <| requests ::= fun l => l ++ [meta] |>
  | FSend _ _ (kFinishFetch _ _) => s <| grants ::= <[k := grants_at s k - 1]> |>
  | FSend _ _ _ => s
  | FPush m => s <| queue ::= fun l => l ++ [m] |>
  | FExec m => s <| tasks ::= fun l => l ++ [m] |>
  end.

(** Run a fetcher operation on partition [k] and deliver what it emits. *)
Definition fet_run {A} (k : Z * Z) (m : FM A) (s : Sys) (cont : A -> Sys -> Sys) : res Sys :=
  match m (fet s) with
  | Ok (a, f, os) => Ok (cont a (foldl (deliver k) (s <| fet := f |>) os))
  | Err e => Err e
  end.

Definition set_thread (t : Z) (th : thread) (s : Sys) : Sys := s <| threads ::= <[t := th]> |>.

(** The return of [FetchPart]. *)
Definition returned (t : Z) (meta : FetchMeta) (p : part_ptr) (s : Sys) : Sys :=
  match p with
  | PNull => set_thread t (Crashed meta) s
  | _ => set_thread t (Holding meta p
           (default 0 (find2 (fm_collection_id meta) (fm_partition_id meta)
              (partition_versions_ (fet s))))) s
  end.

Inductive event :=
| ECall (t : Z) (meta : FetchMeta)    (* a thread calls FetchPart *)
| EPush (t : Z)                       (* ... pushes its request *)
| EWake (t : Z)                       (* ... finds its wait predicate true *)
| EAccess (t : Z)                     (* ... takes the mutex again and returns *)
| EFinish (t : Z)                     (* a thread calls FinishPart *)
| EProcess                            (* the actor takes a message from its queue *)
| ETask (i : nat)                     (* the executor runs a task *)
| EAnswer (i : nat) (lm : bool) (bin : BinStream)  (* a controller answers a request *)
| EAdvance (k : Z * Z) (n : Z).       (* a partition moves to a later version *)

(** The controller's reply carries the current version of the partition; for a local
    access, which is granted once, it is at least the requested one.  [local_mode] of the
    reply is uninitialized. *)
Definition answer (meta : FetchMeta) (lm : bool) (bin : BinStream) (s : Sys) : fmsg :=
  {| fm_flag := if is_local (mkey meta) then kFetchPartReplyLocal else kFetchPartReplyRemote;
     fm_meta := {| fm_plan_id := fm_plan_id meta; fm_upstream_part_id := fm_upstream_part_id meta;
                   fm_collection_id := fm_collection_id meta;
                   fm_partition_id := fm_partition_id meta;
                   fm_version := ver_at s (mkey meta); fm_local_mode := lm |};
     fm_bin := if is_local (mkey meta) then None else Some bin |}.

(** One event: [None] when it cannot happen in this state, an error when a CHECK fails. *)
Definition sys_step (e : event) (s : Sys) : option (res Sys) :=
  match e with
  | ECall t meta =>
      match threads s !! t with
      | Some Idle => Some (fet_run (mkey meta) (FetchPart_cached meta) s (fun r s' =>
          match r with
          | Some p => returned t meta p s'
          | None => set_thread t (Requesting meta) s'
          end))
      | _ => None
      end
  | EPush t =>
      match threads s !! t with
      | Some (Requesting meta) => Some (fet_run (mkey meta) (FetchPart_request meta) s
          (fun _ s' => set_thread t (Waiting meta) s'))
      | _ => None
      end
  | EWake t =>
      match threads s !! t with
      | Some (Waiting meta) => Some (fet_run (mkey meta) (FetchPart_wait meta) s
          (fun sat s' => if sat then set_thread t (Woken meta) s' else s'))
      | _ => None
      end
  | EAccess t =>
      match threads s !! t with
      | Some (Woken meta) => Some (fet_run (mkey meta) (FetchPart_access meta) s
          (fun p s' => returned t meta p s'))
      | _ => None
      end
  | EFinish t =>
      match threads s !! t with
      | Some (Holding meta _ _) => Some (fet_run (mkey meta) (FinishPart meta) s
          (fun _ s' => set_thread t Idle s'))
      | _ => None
      end
  | EProcess =>
      match queue s with
      | m :: q => Some (fet_run (mkey (fm_meta m)) (fet_Process m) (s <| queue := q |>)
                          (fun _ s' => s'))
      | [] => None
      end
  | ETask i =>
      match tasks s !! i with
      | Some m => Some (fet_run (mkey (fm_meta m)) (FetchPartReplyRemote m)
                          (s <| tasks ::= delete i |>) (fun _ s' => s'))
      | None => None
      end
  | EAnswer i lm bin =>
      match requests s !! i with
      | Some meta =>
          if negb (is_local (mkey meta)) then
            Some (Ok (s <| requests ::= delete i |>
                        <| queue ::= fun l => l ++ [answer meta lm bin s] |>))
          else if fm_version meta <=? ver_at s (mkey meta) then
            Some (Ok (s <| requests ::= delete i |>
                        <| queue ::= fun l => l ++ [answer meta lm bin s] |>
                        <| grants ::= <[mkey meta := grants_at s (mkey meta) + 1]> |>))
          else None
      | None => None
      end
  | EAdvance k n =>
      if 0 <=? n then Some (Ok (s <| ctl_version ::= <[k := ver_at s k + n]> |>)) else None
  end.

Fixpoint sys_run (es : list event) (s : Sys) : option (res Sys) :=
  match es with
  | [] => Some (Ok s)
  | e :: es' =>
      match sys_step e s with
      | Some (Ok s') => sys_run es' s'
      | r => r
      end
  end.

Definition sys_init (f : Fetcher) (ts : list Z) : Sys :=
  {| fet := f; threads := list_to_map ((fun t => (t, Idle)) <$> ts); queue := []; tasks := [];
     requests := []; ctl_version := ∅; grants := ∅ |}.
End Fetcher.
