(* ===== verification/FetcherProofs.v ===== *)
(** * What the fetcher guarantees

    The invariant [Inv] of the system of [Fetcher.v], preserved by every event: each
    partition has at most one request on the way, the queue of requested versions is empty
    exactly when nothing is on the way, a local partition is granted once and counted by
    the threads that hold it, and a waiting thread of a remote partition always has a
    request that will wake it.  [Section Races] has the interleavings in which local access
    fails. *)

From S2P Require Import Prelude BinStream Index Messages Partition Fetcher.

Section proofs.
Context {P : Type} (create_part : Z -> option (BinStream -> P)) (is_local : Z * Z -> bool).
Implicit Types (f : Fetcher (P := P)) (s : Sys (P := P)) (k : Z * Z) (meta : FetchMeta).

(** ** The entries of one partition *)

Definition vers f k : option Z := find2 k.1 k.2 (partition_versions_ f).
Definition cach f k : option part_ptr := find2 k.1 k.2 (partition_cache_ f).
Definition reqs f k : list Z := default [] (find2 k.1 k.2 (requesting_versions_ f)).
Definition cnt f k : option Z := local_access_count_ f !! k.

(** The two maps that the fetcher only reads. *)
Definition frame f f' : Prop :=
  collection_map_ f' = collection_map_ f /\
  same_store (partition_manager_ f') (partition_manager_ f).

(** [f'] is [f] with new entries for partition [k]. *)
Record at_key k f f' (v : option Z) (p : option part_ptr) (q : list Z) (n : option Z) : Prop := {
  at_vers : forall k', vers f' k' = if decide (k' = k) then v else vers f k';
  at_cach : forall k', cach f' k' = if decide (k' = k) then p else cach f k';
  at_reqs : forall k', reqs f' k' = if decide (k' = k) then q else reqs f k';
  at_cnt : forall k', cnt f' k' = if decide (k' = k) then n else cnt f k';
  at_frame : frame f f' }.

Lemma at_key_refl k f : at_key k f f (vers f k) (cach f k) (reqs f k) (cnt f k).
Proof. by split; try (intros k'; case_decide; by subst). Qed.

Lemma at_key_trans k f f1 f2 v p q n v' p' q' n' :
  at_key k f f1 v p q n -> at_key k f1 f2 v' p' q' n' -> at_key k f f2 v' p' q' n'.
Proof.
  intros [H1 H2 H3 H4 [H5 H6]] [G1 G2 G3 G4 [G5 G6]]. split.
  - intros k'. rewrite G1. case_decide; [done|]. by rewrite H1, decide_False.
  - intros k'. rewrite G2. case_decide; [done|]. by rewrite H2, decide_False.
  - intros k'. rewrite G3. case_decide; [done|]. by rewrite H3, decide_False.
  - intros k'. rewrite G4. case_decide; [done|]. by rewrite H4, decide_False.
  - split; [congruence|]. by etrans.
Qed.

Lemma at_key_self k f f' v p q n :
  at_key k f f' v p q n -> vers f' k = v /\ cach f' k = p /\ reqs f' k = q /\ cnt f' k = n.
Proof. intros [H1 H2 H3 H4 _]. by rewrite H1, H2, H3, H4, !decide_True. Qed.

(** Whether the cached version satisfies a request. *)
Definition satisfied f meta : bool :=
  match vers f (mkey meta) with Some v => fm_version meta <=? v | None => false end.

(** ** Operations *)

Lemma IsVersionSatisfied_spec meta f Q :
  (forall f', at_key (mkey meta) f f' (vers f (mkey meta)) (cach f (mkey meta))
     (reqs f (mkey meta)) (cnt f (mkey meta)) -> Q (satisfied f meta) f' []) ->
  wp none (IsVersionSatisfied meta) f Q.
Proof.
  intros HQ. unfold IsVersionSatisfied. wstep. wstep. wstep. wstep. cbn.
  rewrite find2_touch.
  assert (Hk : at_key (mkey meta) f
    f <| partition_versions_ ::= touch ∅ (fm_collection_id meta) |>
    (vers f (mkey meta)) (cach f (mkey meta)) (reqs f (mkey meta)) (cnt f (mkey meta))).
  { split; try (intros k'; case_decide; by subst); [|done].
    intros [c' p']. unfold vers. cbn. rewrite find2_touch. case_decide as He; [|done].
    by injection He as -> ->. }
  specialize (HQ _ Hk). unfold satisfied, vers, mkey in HQ. cbn in HQ.
  by destruct (find2 (fm_collection_id meta) (fm_partition_id meta) (partition_versions_ f)); wstep.
Qed.

Lemma TryAccessLocal_spec meta f Q :
  (forall f', at_key (mkey meta) f f' (vers f (mkey meta)) (cach f (mkey meta))
     (reqs f (mkey meta)) (Z.succ <$> cnt f (mkey meta)) -> Q tt f' []) ->
  wp none (TryAccessLocal meta) f Q.
Proof.
  intros HQ. unfold TryAccessLocal. wstep. wstep. unfold cnt in HQ.
  destruct (local_access_count_ f !! mkey meta) as [n|] eqn:Hn; wstep; apply HQ.
  - split; try (intros k'; case_decide; by subst); try done.
    intros k'. unfold cnt. cbn. case_decide; subst; [by rewrite lookup_insert_eq|].
    by rewrite lookup_insert_ne.
  - split; try (intros k'; case_decide; by subst); try done.
Qed.

Lemma cache_get_spec meta f Q :
  (forall f', at_key (mkey meta) f f' (vers f (mkey meta))
     (Some (default PNull (cach f (mkey meta)))) (reqs f (mkey meta)) (cnt f (mkey meta)) ->
     Q (default PNull (cach f (mkey meta))) f' []) ->
  wp none (cache_get meta) f Q.
Proof.
  intros HQ. unfold cache_get. wsteps. cbn. apply HQ.
  split; try (intros k'; case_decide; by subst); try done.
  intros [c' p']. unfold cach, mkey. cbn. rewrite find2_set2. by case_decide.
Qed.

Lemma set_requests_spec meta q f Q :
  (forall f', at_key (mkey meta) f f' (vers f (mkey meta)) (cach f (mkey meta)) q
     (cnt f (mkey meta)) -> Q tt f' []) ->
  wp none (set_requests meta q) f Q.
Proof.
  intros HQ. unfold set_requests. wstep. apply HQ.
  split; try (intros k'; case_decide; by subst); try done.
  intros [c' p']. unfold reqs, mkey. cbn. rewrite find2_set2. by case_decide.
Qed.

Lemma store_part_spec meta p f Q :
  (forall f', at_key (mkey meta) f f' (Some (fm_version meta)) (Some p) (reqs f (mkey meta))
     (cnt f (mkey meta)) -> Q tt f' []) ->
  wp none (store_part meta p) f Q.
Proof.
  intros HQ. unfold store_part. wstep. apply HQ.
  split; try (intros k'; case_decide; by subst); try done;
    intros [c' p']; unfold vers, cach, mkey; cbn; rewrite find2_set2; by case_decide.
Qed.

(** The node of a partition is known. *)
Definition located f k : Prop :=
  exists node, forall (S O : Type) (st : S),
    cmap_Lookup (O := O) k.1 k.2 (collection_map_ f) st = Ok (node, st, []).

Lemma SendFetchPart_spec meta f Q :
  located f (mkey meta) ->
  (forall r b x y, Q tt f [FSend r (fm_plan_id meta) (kFetchRequest meta b x y)]) ->
  wp none (SendFetchPart meta) f Q.
Proof.
  intros [node Hn] HQ. unfold SendFetchPart. wstep. wstep. cbn. wstep.
  unfold wp at 1. unfold mkey in Hn. cbn in Hn. rewrite Hn. cbn. wstep. apply HQ.
Qed.

(** The request for the next version, when one is needed. *)
Definition next_request meta (q : list Z) (os : list fout) : Prop :=
  match q with
  | [] => os = []
  | v :: _ => exists r b x y,
      os = [FSend r (fm_plan_id meta) (kFetchRequest (with_version meta v) b x y)]
  end.

Lemma TryFetchNextVersion_spec meta version f Q :
  located f (mkey meta) -> fm_version meta <= version ->
  (forall f' os, at_key (mkey meta) f f' (vers f (mkey meta)) (cach f (mkey meta))
     (filter (fun v => version < v) (reqs f (mkey meta))) (cnt f (mkey meta)) ->
     next_request meta (filter (fun v => version < v) (reqs f (mkey meta))) os -> Q tt f' os) ->
  wp none (TryFetchNextVersion meta version) f Q.
Proof.
  intros Hl Hle HQ. unfold TryFetchNextVersion, get_requests. wstep. wstep. wstep. wstep. cbn.
  change (default [] _) with (reqs f (mkey meta)). wstep. apply set_requests_spec. intros f' Hf'.
  destruct (filter _ (reqs f (mkey meta))) as [|v q] eqn:Hq.
  - wstep. by apply HQ.
  - wstep. apply wp_check.
    + intros _. apply SendFetchPart_spec.
      * destruct Hl as [node Hn]. exists node. by rewrite (proj1 (at_frame _ _ _ _ _ _ _ Hf')).
      * intros. apply HQ; [done|]. cbn. eauto 10.
    + intros Hc. apply Z.ltb_ge in Hc.
      assert (v ∈ filter (fun v => version < v) (reqs f (mkey meta))) as Hin
        by (rewrite Hq; set_solver).
      apply list_elem_of_filter in Hin. lia.
Qed.

Lemma on_manager_Get_spec c p f Q :
  is_Some (store_lookup (partition_manager_ f) c p) ->
  (forall x f', at_key (c, p) f f' (vers f (c, p)) (cach f (c, p)) (reqs f (c, p)) (cnt f (c, p)) ->
     Q x f' []) ->
  wp none (on_manager (pm_Get c p)) f Q.
Proof.
  intros [x Hx] HQ. unfold on_manager. apply zoom_wp. apply pm_Get_spec.
  - intros y m' _ Hm'. cbn. apply HQ. split; try (intros k'; case_decide; by subst). by split.
  - rewrite Hx. done.
Qed.

Lemma located_at_key k f f' k' v p q n : at_key k f f' v p q n -> located f k' -> located f' k'.
Proof. intros H [node Hn]. exists node. by rewrite (proj1 (at_frame _ _ _ _ _ _ _ H)). Qed.

Lemma at_key_count k f f' v p q n n' :
  at_key k f f' v p q n ->
  at_key k f (f' <| local_access_count_ ::= <[k := n']> |>) v p q (Some n').
Proof.
  intros [H1 H2 H3 H4 H5]. split; try done. intros k'. unfold cnt. cbn.
  case_decide; [subst; by rewrite lookup_insert_eq|]. rewrite lookup_insert_ne by done.
  specialize (H4 k'). by rewrite decide_False in H4.
Qed.

Lemma at_key_uncount k f f' v p q n :
  at_key k f f' v p q n ->
  at_key k f (f' <| local_access_count_ ::= delete k |>) v p q None.
Proof.
  intros [H1 H2 H3 H4 H5]. split; try done. intros k'. unfold cnt. cbn.
  case_decide; [subst; by rewrite lookup_delete_eq|]. rewrite lookup_delete_ne by done.
  specialize (H4 k'). by rewrite decide_False in H4.
Qed.

Lemma at_key_erase meta f f' v p q n :
  at_key (mkey meta) f f' v p q n ->
  at_key (mkey meta) f
    (f' <| partition_versions_ ::= erase2 (fm_collection_id meta) (fm_partition_id meta) |>
        <| partition_cache_ ::= erase2 (fm_collection_id meta) (fm_partition_id meta) |>)
    None None q n.
Proof.
  intros [H1 H2 H3 H4 H5]. split; try done.
  - intros [c' p']. unfold vers at 1. cbn. rewrite find2_erase2. unfold mkey.
    case_decide as He; [done|]. specialize (H1 (c', p')). by rewrite decide_False in H1.
  - intros [c' p']. unfold cach at 1. cbn. rewrite find2_erase2. unfold mkey.
    case_decide as He; [done|]. specialize (H2 (c', p')). by rewrite decide_False in H2.
Qed.

(** The entries after a first change, in terms of the state before. *)
Ltac at_trans H1 H2 :=
  let E1 := fresh in let E2 := fresh in let E3 := fresh in let E4 := fresh in
  destruct (at_key_self _ _ _ _ _ _ _ H1) as (E1 & E2 & E3 & E4);
  rewrite ?E1, ?E2, ?E3, ?E4 in H2; clear E1 E2 E3 E4;
  pose proof (at_key_trans _ _ _ _ _ _ _ _ _ _ _ _ H1 H2); clear H1 H2.

Lemma FetchPart_access_spec meta f Q :
  (forall f', at_key (mkey meta) f f' (vers f (mkey meta))
     (Some (default PNull (cach f (mkey meta)))) (reqs f (mkey meta))
     (Z.succ <$> cnt f (mkey meta)) -> Q (default PNull (cach f (mkey meta))) f' []) ->
  wp none (FetchPart_access meta) f Q.
Proof.
  intros HQ. unfold FetchPart_access. wstep. apply TryAccessLocal_spec. intros f1 H1.
  apply cache_get_spec. intros f2 H2.
  rewrite (proj1 (proj2 (at_key_self _ _ _ _ _ _ _ H1))).
  at_trans H1 H2. by apply HQ.
Qed.

Lemma FetchPart_cached_spec meta f Q :
  (satisfied f meta = true -> forall f', at_key (mkey meta) f f' (vers f (mkey meta))
     (Some (default PNull (cach f (mkey meta)))) (reqs f (mkey meta))
     (Z.succ <$> cnt f (mkey meta)) -> Q (Some (default PNull (cach f (mkey meta)))) f' []) ->
  (satisfied f meta = false -> forall f', at_key (mkey meta) f f' (vers f (mkey meta))
     (cach f (mkey meta)) (reqs f (mkey meta)) (cnt f (mkey meta)) -> Q None f' []) ->
  wp none (FetchPart_cached meta) f Q.
Proof.
  intros H1 H0. unfold FetchPart_cached. wstep. apply IsVersionSatisfied_spec. intros f1 Hf1.
  destruct (satisfied f meta); [|wstep; by apply H0].
  wstep. apply TryAccessLocal_spec. intros f2 Hf2. at_trans Hf1 Hf2. wstep.
  apply cache_get_spec. intros f3 Hf3. wstep.
  rewrite (proj1 (proj2 (at_key_self _ _ _ _ _ _ _ H))).
  at_trans H Hf3. by apply H1.
Qed.

Lemma FetchPartRequest_spec meta f Q :
  located f (mkey meta) ->
  (satisfied f meta = true -> forall f', at_key (mkey meta) f f' (vers f (mkey meta))
     (cach f (mkey meta)) (reqs f (mkey meta)) (cnt f (mkey meta)) -> Q tt f' []) ->
  (satisfied f meta = false -> reqs f (mkey meta) = [] -> forall f' r b x y,
     at_key (mkey meta) f f' (vers f (mkey meta)) (cach f (mkey meta)) [fm_version meta]
       (cnt f (mkey meta)) -> Q tt f' [FSend r (fm_plan_id meta) (kFetchRequest meta b x y)]) ->
  (forall v, satisfied f meta = false -> last (reqs f (mkey meta)) = Some v -> forall f',
     at_key (mkey meta) f f' (vers f (mkey meta)) (cach f (mkey meta))
       (if v <? fm_version meta then reqs f (mkey meta) ++ [fm_version meta]
        else reqs f (mkey meta)) (cnt f (mkey meta)) -> Q tt f' []) ->
  wp none (FetchPartRequest {| fm_flag := kFetchPartRequest; fm_meta := meta; fm_bin := None |}) f Q.
Proof.
  intros Hl Hsat Hnew Hold. unfold FetchPartRequest, get_requests. cbn. wstep. wstep; [|done].
  wstep. apply IsVersionSatisfied_spec. intros f1 H1.
  destruct (satisfied f meta); [wstep; by apply Hsat|].
  wstep. wstep. wstep. wstep. cbn. change (default [] _) with (reqs f1 (mkey meta)).
  destruct (at_key_self _ _ _ _ _ _ _ H1) as (_ & _ & -> & _).
  wstep. apply set_requests_spec. intros f2 H2. at_trans H1 H2. rename H into H2.
  destruct (last (reqs f (mkey meta))) as [v|] eqn:Hlast.
  - wstep.
    + apply set_requests_spec. intros f3 H3. at_trans H2 H3.
      apply (Hold v); [done..|]. by rewrite Hif.
    + apply (Hold v); [done..|]. by rewrite Hif.
  - apply last_None in Hlast. rewrite Hlast in *. wstep. apply set_requests_spec. intros f3 H3.
    at_trans H2 H3. apply SendFetchPart_spec; [by eapply located_at_key|].
    intros. by apply Hnew.
Qed.

Lemma FetchPartReplyLocal_spec meta f Q :
  is_Some (store_lookup (partition_manager_ f) (fm_collection_id meta) (fm_partition_id meta)) ->
  cnt f (mkey meta) = None ->
  (forall f', at_key (mkey meta) f f' (Some (fm_version meta))
     (Some (PLocal (fm_collection_id meta) (fm_partition_id meta))) (reqs f (mkey meta)) (Some 0) ->
     Q tt f' []) ->
  wp none (FetchPartReplyLocal
    {| fm_flag := kFetchPartReplyLocal; fm_meta := meta; fm_bin := None |}) f Q.
Proof.
  intros Hs Hc HQ. unfold FetchPartReplyLocal. cbn. wstep. wstep; [|done]. wstep.
  apply on_manager_Get_spec; [done|]. intros x f1 H1. change (_, _) with (mkey meta) in H1.
  wstep. apply store_part_spec. intros f2 H2. at_trans H1 H2. wstep. wstep.
  pose proof (at_key_self _ _ _ _ _ _ _ H) as (_ & _ & _ & Hc2). unfold cnt in Hc2 at 1.
  wstep. apply wp_check.
  - intros _. wstep. apply HQ. by eapply at_key_count.
  - rewrite Hc2, Hc. by rewrite bool_decide_eq_true_2.
Qed.

Lemma FetchPartReplyRemote_spec meta bin create f Q :
  create_part (fm_collection_id meta) = Some create -> located f (mkey meta) ->
  (forall f' os, at_key (mkey meta) f f' (Some (fm_version meta)) (Some (PCopy (create bin)))
     (filter (fun v => fm_version meta < v) (reqs f (mkey meta))) (cnt f (mkey meta)) ->
     next_request meta (filter (fun v => fm_version meta < v) (reqs f (mkey meta))) os ->
     Q tt f' os) ->
  wp none (FetchPartReplyRemote create_part
    {| fm_flag := kFetchPartReplyRemote; fm_meta := meta; fm_bin := Some bin |}) f Q.
Proof.
  intros Hc Hl HQ. unfold FetchPartReplyRemote. cbn. wstep. wstep; [|done]. wstep.
  wstep; [|done]. injection Hx as <-. rewrite Hc. wstep. apply store_part_spec. intros f1 H1.
  apply TryFetchNextVersion_spec; [by eapply located_at_key|done|]. intros f2 os H2 Hos.
  rewrite (proj1 (proj2 (proj2 (at_key_self _ _ _ _ _ _ _ H1)))) in Hos.
  at_trans H1 H2. by apply HQ.
Qed.

Lemma FinishPart_spec meta f Q :
  located f (mkey meta) ->
  (cnt f (mkey meta) = None -> Q tt f []) ->
  (forall n, cnt f (mkey meta) = Some n -> 0 < n /\ exists w, vers f (mkey meta) = Some w /\
     fm_version meta <= w /\
     (1 < n -> forall f', at_key (mkey meta) f f' (Some w) (cach f (mkey meta)) (reqs f (mkey meta))
        (Some (n - 1)) -> Q tt f' []) /\
     (n = 1 -> forall f' r os,
        at_key (mkey meta) f f' None None (filter (fun v => w < v) (reqs f (mkey meta))) None ->
        next_request meta (filter (fun v => w < v) (reqs f (mkey meta))) os ->
        Q tt f' (FSend r (fm_plan_id meta)
                   (kFinishFetch (fm_partition_id meta) (fm_upstream_part_id meta)) :: os))) ->
  wp none (FinishPart meta) f Q.
Proof.
  intros Hl H0 H1. unfold FinishPart. wstep. wstep. unfold cnt in H0, H1.
  destruct (local_access_count_ f !! mkey meta) as [n|] eqn:Hn; [|wstep; by apply H0].
  destruct (H1 n eq_refl) as (Hpos & w & Hw & Hle & Hmore & Hlast). wstep. wstep; [|lia].
  wstep. wstep. pose proof (at_key_count _ _ _ _ _ _ _ (n - 1) (at_key_refl (mkey meta) f)) as Ha.
  wstep; [|apply Hmore; [lia|by rewrite <- Hw]].
  assert (n = 1) as -> by lia. unfold SendFinishPart. wstep. wstep. wstep. wstep.
  cbn [app]. wstep. wstep. wstep.
  change (find2 _ _ _) with (vers f (mkey meta)). rewrite Hw. cbn [default].
  pose proof (at_key_erase _ _ _ _ _ _ _ Ha) as Hb.
  apply TryFetchNextVersion_spec; [by eapply located_at_key|done|]. intros f2 os H2 Hos.
  rewrite (proj1 (proj2 (proj2 (at_key_self _ _ _ _ _ _ _ Hb)))) in Hos.
  at_trans Hb H2. wstep. rewrite app_nil_r. cbn. apply (Hlast eq_refl); [|done].
  by eapply at_key_uncount.
Qed.

(** ** The invariant of the system *)

(** Requests and replies on the way: at a controller, in the queue, or in the executor. *)
Definition reply_of (m : fmsg) : option (bool * FetchMeta) :=
  match fm_flag m with
  | kFetchPartReplyLocal | kFetchPartReplyRemote => Some (false, fm_meta m)
  | _ => None
  end.
Definition flying s : list (bool * FetchMeta) :=
  ((fun m => (true, m)) <$> requests s) ++ omap reply_of (queue s) ++
  ((fun m => (false, fm_meta m)) <$> tasks s).
Definition flight s k : list (bool * FetchMeta) := filter (fun x => mkey x.2 = k) (flying s).
Definition replies (l : list (bool * FetchMeta)) : Z :=
  Z.of_nat (length (filter (fun x => x.1 = false) l)).

(** The number of threads that hold partition [k]. *)
Definition holds k (th : thread (P := P)) : Prop :=
  match th with Holding meta _ _ => mkey meta = k | _ => False end.
#[global] Instance holds_dec k th : Decision (holds k th).
Proof. destruct th; cbn; apply _. Defined.
Definition holders s k : Z := Z.of_nat (size (filter (fun x => holds k x.2) (threads s))).

(** What a partition needs to be fetched at all: the collection map names its node, and it
    is stored here (local) or its collection has a constructor registered (remote). *)
Definition served f k : Prop :=
  located f k /\
  if is_local k then is_Some (store_lookup (partition_manager_ f) k.1 k.2)
  else is_Some (create_part k.1).

Definition request_msg meta : fmsg :=
  {| fm_flag := kFetchPartRequest; fm_meta := meta; fm_bin := None |}.

(** A waiting thread will be woken: its version is there, its request is in the queue, or
    a version that satisfies it has been requested. *)
Definition waits s meta : Prop :=
  satisfied (fet s) meta = true \/ request_msg meta ∈ queue s \/
  exists u, u ∈ reqs (fet s) (mkey meta) /\ fm_version meta <= u.

(** The cached version, replies on the way and the controller's version are all recent
    enough for the request. *)
Definition reached s meta : Prop :=
  (forall w, vers (fet s) (mkey meta) = Some w -> fm_version meta <= w) /\
  (forall m, (false, m) ∈ flight s (mkey meta) -> fm_version meta <= fm_version m) /\
  fm_version meta <= ver_at s (mkey meta).

Record RemoteInv s k : Prop := {
  r_cnt : cnt (fet s) k = None;
  r_one : (length (flight s k) <= 1)%nat;
  r_reqs : reqs (fet s) k = [] <-> flight s k = [];
  r_vers : forall w, vers (fet s) k = Some w ->
    w <= ver_at s k /\ (forall m, (false, m) ∈ flight s k -> w <= fm_version m) /\
    exists x, cach (fet s) k = Some (PCopy x);
  r_reply : forall m, (false, m) ∈ flight s k -> fm_version m <= ver_at s k }.

Definition LocalIdle s k : Prop :=
  cnt (fet s) k = None /\ vers (fet s) k = None /\ (length (flight s k) <= 1)%nat /\
  (reqs (fet s) k = [] <-> flight s k = []) /\ holders s k = 0 /\
  grants_at s k = replies (flight s k) /\ default PNull (cach (fet s) k) = PNull /\
  (forall m, (false, m) ∈ flight s k -> fm_version m <= ver_at s k).
Definition LocalGranted s k (w : Z) : Prop :=
  cnt (fet s) k = Some (holders s k) /\ vers (fet s) k = Some w /\ flight s k = [] /\
  reqs (fet s) k <> [] /\ cach (fet s) k = Some (PLocal k.1 k.2) /\ grants_at s k = 1 /\
  w <= ver_at s k.

Definition KeyInv s k : Prop :=
  if is_local k then LocalIdle s k \/ exists w, LocalGranted s k w else RemoteInv s k.

Definition ThreadInv s (th : thread (P := P)) : Prop :=
  match th with
  | Idle | Requesting _ => True
  | Waiting meta => is_local (mkey meta) = false -> waits s meta
  | Woken meta => if is_local (mkey meta) then reached s meta else satisfied (fet s) meta = true
  | Holding meta p w =>
      fm_version meta <= w /\
      if is_local (mkey meta)
      then p = PLocal (fm_collection_id meta) (fm_partition_id meta) /\
           vers (fet s) (mkey meta) = Some w
      else exists x, p = PCopy x
  | Crashed meta => is_local (mkey meta) = true
  end.

Definition thread_meta (th : thread (P := P)) : option FetchMeta :=
  match th with
  | Idle => None
  | Requesting m | Waiting m | Woken m | Holding m _ _ | Crashed m => Some m
  end.

(** A reply is of the kind that the partition's place says. *)
Definition reply_shape (m : fmsg) : Prop :=
  if is_local (mkey (fm_meta m))
  then m = {| fm_flag := kFetchPartReplyLocal; fm_meta := fm_meta m; fm_bin := None |}
  else exists bin,
    m = {| fm_flag := kFetchPartReplyRemote; fm_meta := fm_meta m; fm_bin := Some bin |}.

Variable f0 : Fetcher (P := P).

Record Inv s : Prop := {
  i_frame : frame f0 (fet s);
  i_keys : forall k, KeyInv s k;
  i_threads : forall t th, threads s !! t = Some th ->
    ThreadInv s th /\ forall m, thread_meta th = Some m -> served f0 (mkey m);
  i_requests : forall m, m ∈ requests s -> served f0 (mkey m);
  i_queue : forall m, m ∈ queue s -> served f0 (mkey (fm_meta m)) /\
    (m = request_msg (fm_meta m) \/ reply_shape m);
  i_tasks : forall m, m ∈ tasks s -> served f0 (mkey (fm_meta m)) /\ reply_shape m /\
    is_local (mkey (fm_meta m)) = false }.

(** Only what is on the way matters, not where. *)
Lemma flight_perm s s' k : flying s ≡ₚ flying s' -> flight s k ≡ₚ flight s' k.
Proof. intros H. unfold flight. by rewrite H. Qed.

Lemma flight_cons s s' x k :
  flying s' ≡ₚ x :: flying s ->
  flight s' k ≡ₚ if decide (mkey x.2 = k) then x :: flight s k else flight s k.
Proof. intros H. unfold flight. rewrite H, filter_cons. by case_decide. Qed.

Lemma small_perm {A} (l l' : list A) : l ≡ₚ l' -> (length l <= 1)%nat -> l = l'.
Proof.
  intros H Hl. destruct l as [|x [|y l]]; cbn in Hl; [|..|lia].
  - symmetry. by apply Permutation_nil_r.
  - symmetry. by apply Permutation_singleton_r.
Qed.

(** The same entries and traffic for a partition. *)
Record same_key s s' k : Prop := {
  sk_vers : vers (fet s') k = vers (fet s) k;
  sk_cach : cach (fet s') k = cach (fet s) k;
  sk_reqs : reqs (fet s') k = reqs (fet s) k;
  sk_cnt : cnt (fet s') k = cnt (fet s) k;
  sk_flight : flight s k ≡ₚ flight s' k;
  sk_holders : holders s' k = holders s k;
  sk_grants : grants_at s' k = grants_at s k;
  sk_ver : ver_at s k <= ver_at s' k }.

Lemma KeyInv_flight_small s k : KeyInv s k -> (length (flight s k) <= 1)%nat.
Proof.
  unfold KeyInv. destruct (is_local k).
  - intros [(_ & _ & H & _)|(w & _ & _ & H & _)]; [done|]. rewrite H. cbn. lia.
  - by intros [].
Qed.

Lemma KeyInv_same s s' k : same_key s s' k -> KeyInv s k -> KeyInv s' k.
Proof.
  intros [H1 H2 H3 H4 H5 H6 H7 H8] HK.
  apply small_perm in H5; [|by apply KeyInv_flight_small].
  unfold KeyInv in *. destruct (is_local k).
  - unfold LocalIdle, LocalGranted in *. rewrite H1, H2, H3, H4, H6, H7, <- H5.
    destruct HK as [HK|[w HK]]; [left|right; exists w]; [|intuition lia].
    destruct HK as (? & ? & ? & ? & ? & ? & ? & HK). split_and!; try done.
    intros m Hm. specialize (HK m Hm). lia.
  - destruct HK as [K1 K2 K3 K4 K5]. split.
    + by rewrite H4.
    + by rewrite <- H5.
    + by rewrite H3, <- H5.
    + intros w Hw. rewrite H1 in Hw. destruct (K4 w Hw) as (A & B & x & C). rewrite H2, <- H5.
      split; [lia|]. split; [done|]. by exists x.
    + rewrite <- H5. intros m Hm. specialize (K5 m Hm). lia.
Qed.

(** What a step does to the partition of a thread, as far as the thread can see: requests
    are not lost, versions do not decrease, and a held local partition stays. *)
Record kept s s' : Prop := {
  k_waits : forall m, is_local (mkey m) = false -> waits s m -> waits s' m;
  k_sat : forall m, is_local (mkey m) = false ->
    satisfied (fet s) m = true -> satisfied (fet s') m = true;
  k_reached : forall m, is_local (mkey m) = true -> reached s m -> reached s' m;
  k_held : forall t m p w, threads s' !! t = Some (Holding m p w) ->
    is_local (mkey m) = true -> vers (fet s) (mkey m) = Some w -> vers (fet s') (mkey m) = Some w }.

Lemma ThreadInv_kept s s' t th :
  kept s s' -> threads s' !! t = Some th -> ThreadInv s th -> ThreadInv s' th.
Proof.
  intros [H1 H2 H2' H3] Ht. destruct th; cbn; auto; [by destruct (is_local _) eqn:?; auto|].
  intros [Hv Hp]. split; [done|].
  destruct (is_local (mkey meta)) eqn:Hl; [|done]. destruct Hp as [-> Hp]. split; [done|].
  by eapply H3.
Qed.

(** A step on partition [k] that changes at most thread [t]. *)
Lemma Inv_step s s' k :
  Inv s -> frame (fet s) (fet s') ->
  (forall k', k' <> k -> same_key s s' k') -> KeyInv s' k ->
  (forall t th, threads s' !! t = Some th ->
    ThreadInv s' th /\ forall m, thread_meta th = Some m -> served f0 (mkey m)) ->
  (forall m, m ∈ requests s' -> m ∈ requests s \/ served f0 (mkey m)) ->
  (forall m, m ∈ queue s' -> m ∈ queue s \/ (served f0 (mkey (fm_meta m)) /\
    (m = request_msg (fm_meta m) \/ reply_shape m))) ->
  (forall m, m ∈ tasks s' -> m ∈ tasks s \/ (served f0 (mkey (fm_meta m)) /\ reply_shape m /\
    is_local (mkey (fm_meta m)) = false)) ->
  Inv s'.
Proof.
  intros [I1 I2 I3 I4 I5 I6] Hf Hk HK HT HR HQ HTa. split.
  - destruct I1, Hf. split; [congruence|]. by etrans.
  - intros k'. destruct (decide (k' = k)) as [->|]; [done|].
    eapply KeyInv_same; [by apply Hk|done].
  - done.
  - intros m [?|?]%HR; auto.
  - intros m [?|?]%HQ; auto.
  - intros m [?|?]%HTa; auto.
Qed.

Lemma satisfied_vers f f' m :
  vers f' (mkey m) = vers f (mkey m) -> satisfied f' m = satisfied f m.
Proof. unfold satisfied. by intros ->. Qed.

Lemma kept_step s s' k :
  (forall k', k' <> k -> same_key s s' k') ->
  (forall m, mkey m <> k -> request_msg m ∈ queue s -> request_msg m ∈ queue s') ->
  (forall m, mkey m = k -> is_local k = false -> waits s m -> waits s' m) ->
  (forall m, mkey m = k -> is_local k = false ->
     satisfied (fet s) m = true -> satisfied (fet s') m = true) ->
  (forall m, mkey m = k -> is_local k = true -> reached s m -> reached s' m) ->
  (forall t m p w, threads s' !! t = Some (Holding m p w) -> mkey m = k -> is_local k = true ->
     vers (fet s) k = Some w -> vers (fet s') k = Some w) ->
  kept s s'.
Proof.
  intros Hk Hq H1 H2 H3 H4. split.
  - intros m Hl Hw. destruct (decide (mkey m = k)) as [<-|Hne]; [auto|].
    destruct (Hk _ Hne). destruct Hw as [Hw|[Hw|(u & Hu & Hle)]].
    + left. by rewrite <- Hw, (satisfied_vers _ _ _ sk_vers0).
    + right; left. auto.
    + right; right. exists u. by rewrite sk_reqs0.
  - intros m Hl Hw. destruct (decide (mkey m = k)) as [<-|Hne]; [auto|].
    by rewrite <- Hw, (satisfied_vers _ _ _ (sk_vers _ _ _ (Hk _ Hne))).
  - intros m Hl Hw. destruct (decide (mkey m = k)) as [<-|Hne]; [auto|].
    destruct (Hk _ Hne) as [Hv _ _ _ Hf _ _ Hver]. destruct Hw as (A & B & C).
    split; [by rewrite Hv|]. split; [|lia]. intros m'. rewrite <- Hf. apply B.
  - intros t m p w Ht Hl Hv. destruct (decide (mkey m = k)) as [<-|Hne]; [eauto|].
    by rewrite (sk_vers _ _ _ (Hk _ Hne)).
Qed.

(** Counting holders when thread [t] moves on. *)
Definition b2z (b : bool) : Z := if b then 1 else 0.
Lemma holders_set_thread s t th th' k :
  threads s !! t = Some th ->
  holders (set_thread t th' s) k =
    holders s k - b2z (bool_decide (holds k th)) + b2z (bool_decide (holds k th')).
Proof.
  intros Ht. unfold holders, set_thread. cbn.
  assert (Hgen : forall x, Z.of_nat (size (filter (fun x : Z * thread => holds k x.2) (<[t := x]> (threads s)))) =
    b2z (bool_decide (holds k x)) +
    Z.of_nat (size (filter (fun x : Z * thread => holds k x.2) (delete t (threads s))))).
  { intros x. rewrite <- insert_delete_eq, map_filter_insert. cbn. unfold b2z. case_decide as Hd.
    - rewrite bool_decide_eq_true_2 by done.
      rewrite map_size_insert_None; [lia|].
      apply map_lookup_filter_None. left. apply lookup_delete_eq.
    - rewrite bool_decide_eq_false_2 by done.
      rewrite delete_id by apply lookup_delete_eq. lia. }
  rewrite Hgen. rewrite <- (insert_id (threads s) t th Ht) at 2. rewrite Hgen. lia.
Qed.
Lemma holders_fet s f' k : holders (s <| fet := f' |>) k = holders s k.
Proof. done. Qed.

Lemma same_key_at s s' k k' f' v p q n :
  at_key k (fet s) f' v p q n -> fet s' = f' -> k' <> k ->
  flight s k' ≡ₚ flight s' k' -> holders s' k' = holders s k' ->
  grants_at s' k' = grants_at s k' -> ver_at s' k' = ver_at s k' -> same_key s s' k'.
Proof.
  intros [H1 H2 H3 H4 _] <- Hne Hf Hh Hg Hv. split; [..|lia]; try done.
  - by rewrite H1, decide_False.
  - by rewrite H2, decide_False.
  - by rewrite H3, decide_False.
  - by rewrite H4, decide_False.
Qed.

Lemma Inv_thread s t th th' f' k p n :
  Inv s -> threads s !! t = Some th ->
  at_key k (fet s) f' (vers (fet s) k) p (reqs (fet s) k) n ->
  (forall k', holds k' th \/ holds k' th' -> k' = k) ->
  let s' := set_thread t th' (s <| fet := f' |>) in
  KeyInv s' k -> ThreadInv s' th' -> (forall m, thread_meta th' = Some m -> served f0 (mkey m)) ->
  Inv s'.
Proof.
  intros HI Ht Hat Hh s' HK HT Hm.
  assert (Hsame : forall k', k' <> k -> same_key s s' k').
  { intros k' Hne. eapply (same_key_at s s' k k'); [exact Hat| | | | | |]; try done.
    unfold s'. rewrite (holders_set_thread _ t th) by done. rewrite holders_fet.
    rewrite !bool_decide_eq_false_2; [cbn; lia|..]; intros ?; apply Hne; eauto. }
  pose proof (at_key_self _ _ _ _ _ _ _ Hat) as (Hv & _ & Hr & _).
  assert (kept s s') as Hkept.
  { apply (kept_step _ _ k); try done.
    - intros m <- Hl [H|[H|(u & H & Hle)]].
      + left. rewrite <- H. by apply satisfied_vers.
      + by right; left.
      + right; right. exists u. split; [|done]. cbn. by rewrite Hr.
    - intros m <- Hl <-. by apply satisfied_vers.
    - intros m <- Hl (A & B & C). split; [|done]. cbn. by rewrite Hv.
    - intros t' m q w _ <- Hl. cbn. by rewrite Hv. }
  apply (Inv_step s s' k); auto; try (by intros ? ?; left).
  - apply (at_frame _ _ _ _ _ _ _ Hat).
  - intros t' th'' Ht'. cbn in Ht'. destruct (decide (t = t')) as [->|].
    + rewrite lookup_insert_eq in Ht'. injection Ht' as <-. done.
    + rewrite lookup_insert_ne in Ht' by done.
      destruct (i_threads _ HI _ _ Ht') as [A B]. split; [|done].
      eapply (ThreadInv_kept s); [done| |done]. cbn. by rewrite lookup_insert_ne.
Qed.

Lemma satisfied_true f m :
  satisfied f m = true <-> exists w, vers f (mkey m) = Some w /\ fm_version m <= w.
Proof.
  unfold satisfied. destruct (vers f (mkey m)) as [w|].
  - rewrite Z.leb_le. split; [by exists w|by intros (? & [= ->] & ?)].
  - split; [done|by intros (? & ? & ?)].
Qed.

Lemma returned_ptr t meta p s w :
  p <> PNull -> vers (fet s) (mkey meta) = Some w ->
  returned t meta p s = set_thread t (Holding meta p w) s.
Proof. unfold vers, mkey. cbn. intros Hp Hv. unfold returned. rewrite Hv. by destruct p. Qed.

(** A thread reads the cache: by [TryAccessLocal] and the return of the cached pointer. *)
Lemma Inv_access s t th meta f' :
  Inv s -> threads s !! t = Some th -> (forall k', ~ holds k' th) -> served f0 (mkey meta) ->
  (if is_local (mkey meta) then forall w, vers (fet s) (mkey meta) = Some w -> fm_version meta <= w
   else satisfied (fet s) meta = true) ->
  at_key (mkey meta) (fet s) f' (vers (fet s) (mkey meta))
    (Some (default PNull (cach (fet s) (mkey meta)))) (reqs (fet s) (mkey meta))
    (Z.succ <$> cnt (fet s) (mkey meta)) ->
  Inv (returned t meta (default PNull (cach (fet s) (mkey meta))) (s <| fet := f' |>)).
Proof.
  intros HI Ht Hth Hs Hok Hat. pose proof (i_keys _ HI (mkey meta)) as HK. unfold KeyInv in HK.
  pose proof (at_key_self _ _ _ _ _ _ _ Hat) as (Hv & Hc & Hr & Hn).
  assert (Hh : forall th' k, holders (set_thread t th' (s <| fet := f' |>)) k =
            holders s k + b2z (bool_decide (holds k th'))).
  { intros th' k. rewrite (holders_set_thread _ t th) by done. rewrite holders_fet.
    rewrite (bool_decide_eq_false_2 (holds k th)) by auto. cbn. lia. }
  assert (Hfs : forall th', fet (set_thread t th' (s <| fet := f' |>)) = f') by done.
  assert (Hone : forall th', (forall k', holds k' th' -> k' = mkey meta) ->
    forall k', holds k' th \/ holds k' th' -> k' = mkey meta).
  { intros th' H' k' [Hx|Hx]; [by destruct (Hth k')|auto]. }
  destruct (is_local (mkey meta)) eqn:Hl.
  - destruct HK as [HK|[w HK]].
    + destruct HK as (K1 & K2 & K3 & K4 & K5 & K6 & K7 & K8). rewrite K7. cbn [returned].
      eapply (Inv_thread s t th (Crashed meta) f'); eauto; [by apply Hone|..|by intros ? [= <-]].
      unfold KeyInv. rewrite Hl. left. unfold LocalIdle. rewrite Hh.
      rewrite !Hfs, Hv, Hc, Hr, Hn, K1, K7. split_and!; try done. cbn. lia.
    + destruct HK as (K1 & K2 & K3 & K4 & K5 & K6 & K7). rewrite K5. cbn [default id].
      rewrite (returned_ptr _ _ _ _ w) by (try done; cbn; by rewrite Hv).
      eapply (Inv_thread s t th (Holding meta _ w) f'); eauto;
        [by apply Hone; intros ? <-|..|by intros ? [= <-]].
      * unfold KeyInv. rewrite Hl. right. exists w. unfold LocalGranted. rewrite Hh.
        rewrite !Hfs, Hv, Hc, Hr, Hn, K1, K5. split_and!; try done.
        cbn [holds]. rewrite bool_decide_eq_true_2 by done. done.
      * cbn. rewrite Hl. split; [by apply Hok|]. by rewrite Hv, K2.
  - apply satisfied_true in Hok as (w & Hw & Hle).
    destruct (r_vers _ _ HK w Hw) as (Hver & Hrep & x & Hx). rewrite Hx. cbn [default id].
    rewrite (returned_ptr _ _ _ _ w) by (try done; cbn; by rewrite Hv).
    eapply (Inv_thread s t th (Holding meta _ w) f'); eauto;
      [by apply Hone; intros ? <-|..|by intros ? [= <-]].
    + unfold KeyInv. rewrite Hl. destruct HK as [K1 K2 K3 K4 K5]. split; try done.
      * by rewrite Hfs, Hn, K1.
      * by rewrite Hfs, Hr.
      * intros w' Hw'. rewrite Hfs in *. rewrite Hv in Hw'. rewrite Hc, Hx. cbn.
        destruct (K4 w' Hw') as (A & B & C). eauto.
    + cbn. rewrite Hl. eauto.
Qed.
(** ** Traffic *)

#[local] Arguments flying : simpl never.
#[local] Arguments flight : simpl never.
#[local] Arguments holders : simpl never.
#[local] Arguments ver_at : simpl never.
#[local] Arguments grants_at : simpl never.
#[local] Arguments vers : simpl never.
#[local] Arguments cach : simpl never.
#[local] Arguments reqs : simpl never.
#[local] Arguments cnt : simpl never.
#[local] Arguments satisfied : simpl never.
#[local] Arguments KeyInv : simpl never.
#[local] Arguments waits : simpl never.
#[local] Arguments reached : simpl never.

Lemma flying_request s m : flying (s <| requests ::= fun l => l ++ [m] |>) ≡ₚ (true, m) :: flying s.
Proof. unfold flying. cbn. rewrite fmap_app. cbn. solve_Permutation. Qed.

Lemma flying_pop s m q :
  queue s = m :: q -> flying s ≡ₚ option_list (reply_of m) ++ flying (s <| queue := q |>).
Proof.
  intros Hq. unfold flying. cbn. rewrite Hq. cbn. destruct (reply_of m); cbn; [|done].
  solve_Permutation.
Qed.

Lemma flying_task s m : reply_of m = Some (false, fm_meta m) ->
  flying (s <| tasks ::= fun l => l ++ [m] |>) ≡ₚ (false, fm_meta m) :: flying s.
Proof. intros _. unfold flying. cbn. rewrite fmap_app. cbn. solve_Permutation. Qed.

Lemma flying_untask s i m :
  tasks s !! i = Some m -> flying s ≡ₚ (false, fm_meta m) :: flying (s <| tasks ::= delete i |>).
Proof.
  intros Hi. unfold flying. cbn. rewrite (delete_Permutation _ _ _ Hi) at 1. cbn.
  solve_Permutation.
Qed.

Lemma flying_unrequest s i m :
  requests s !! i = Some m -> flying s ≡ₚ (true, m) :: flying (s <| requests ::= delete i |>).
Proof. intros Hi. unfold flying. cbn. by rewrite (delete_Permutation _ _ _ Hi) at 1. Qed.

Lemma flying_reply s m : reply_of m = Some (false, fm_meta m) ->
  flying (s <| queue ::= fun l => l ++ [m] |>) ≡ₚ (false, fm_meta m) :: flying s.
Proof.
  intros Hm. unfold flying. cbn. rewrite omap_app. cbn. rewrite Hm. cbn. solve_Permutation.
Qed.

Lemma holders_zero s k t th : holders s k = 0 -> threads s !! t = Some th -> ~ holds k th.
Proof.
  unfold holders. intros Hz Ht Hh. assert (size (filter (fun x => holds k x.2) (threads s)) = 0%nat) as H0 by lia.
  apply map_size_empty_inv in H0. apply (map_filter_empty_not_lookup _ _ t th) in H0; [|done].
  by destruct H0.
Qed.

Lemma reply_shape_of m : reply_shape m -> reply_of m = Some (false, fm_meta m).
Proof.
  unfold reply_shape, reply_of. destruct (is_local _).
  - by intros ->.
  - by intros [bin ->].
Qed.

(** A step on partition [k] that leaves the threads alone. *)
Lemma Inv_traffic s s' k v p q n :
  Inv s -> at_key k (fet s) (fet s') v p q n ->
  threads s' = threads s -> ctl_version s' = ctl_version s ->
  (forall k', k' <> k -> flight s k' ≡ₚ flight s' k' /\ grants_at s' k' = grants_at s k') ->
  KeyInv s' k ->
  (forall m, mkey m <> k -> request_msg m ∈ queue s -> request_msg m ∈ queue s') ->
  (forall m, mkey m = k -> is_local k = false -> waits s m -> waits s' m) ->
  (forall m, mkey m = k -> is_local k = false ->
     satisfied (fet s) m = true -> satisfied (fet s') m = true) ->
  (forall m, mkey m = k -> is_local k = true -> reached s m -> reached s' m) ->
  (forall w, is_local k = true -> vers (fet s) k = Some w -> vers (fet s') k = Some w) ->
  (forall m, m ∈ requests s' -> m ∈ requests s \/ served f0 (mkey m)) ->
  (forall m, m ∈ queue s' -> m ∈ queue s \/ (served f0 (mkey (fm_meta m)) /\
    (m = request_msg (fm_meta m) \/ reply_shape m))) ->
  (forall m, m ∈ tasks s' -> m ∈ tasks s \/ (served f0 (mkey (fm_meta m)) /\ reply_shape m /\
    is_local (mkey (fm_meta m)) = false)) ->
  Inv s'.
Proof.
  intros HI Hat Hth Hctl Hk HK Hq Hw Hs Hr Hv R1 R2 R3.
  assert (Hsame : forall k', k' <> k -> same_key s s' k').
  { intros k' Hne. destruct (Hk k' Hne). eapply (same_key_at s s' k k'); try done.
    - unfold holders. by rewrite Hth.
    - unfold ver_at. by rewrite Hctl. }
  assert (kept s s') as Hkept by (apply (kept_step _ _ k); eauto).
  apply (Inv_step s s' k); auto; [apply (at_frame _ _ _ _ _ _ _ Hat)|].
  intros t th Ht. pose proof Ht as Ht'. rewrite Hth in Ht.
  destruct (i_threads _ HI _ _ Ht) as [A B]. split; [|done].
  by eapply (ThreadInv_kept s).
Qed.

Lemma fet_run_wp {A} k (m : M Fetcher fout A) s cont (Q : Sys -> Prop) :
  wp none m (fet s) (fun a f' os => Q (cont a (foldl (deliver k) (s <| fet := f' |>) os))) ->
  exists s', fet_run k m s cont = Ok s' /\ Q s'.
Proof.
  unfold wp, fet_run. destruct (m (fet s)) as [[[a f'] os]|e]; [|done]. eauto.
Qed.

Lemma waits_pop s s' meta q0 m :
  queue s = request_msg meta :: q0 -> queue s' = q0 -> mkey m = mkey meta ->
  (forall u, u ∈ reqs (fet s) (mkey meta) -> u ∈ reqs (fet s') (mkey meta)) ->
  vers (fet s') (mkey meta) = vers (fet s) (mkey meta) ->
  waits s' meta -> waits s m -> waits s' m.
Proof.
  intros Hq Hq' Hk Hr Hv Hm [H|[H|(u & H & Hle)]].
  - left. rewrite <- H. apply satisfied_vers. by rewrite Hk.
  - rewrite Hq in H. apply elem_of_cons in H as [H|H]; [by injection H as ->|].
    right; left. by rewrite Hq'.
  - right; right. exists u. rewrite Hk in *. auto.
Qed.

Lemma reached_same s s' m :
  vers (fet s') (mkey m) = vers (fet s) (mkey m) -> flying s ≡ₚ flying s' ->
  ver_at s (mkey m) <= ver_at s' (mkey m) -> reached s m -> reached s' m.
Proof.
  intros Hv Hf Hle (A & B & C). split; [by rewrite Hv|]. split; [|lia].
  intros m'. rewrite <- (flight_perm _ _ _ Hf). apply B.
Qed.

(** Nothing about partition [k] changes but the queue of requested versions, which only
    grows. *)
Lemma KeyInv_more_reqs s s' k q :
  KeyInv s k -> at_key k (fet s) (fet s') (vers (fet s) k) (cach (fet s) k) q (cnt (fet s) k) ->
  flight s k ≡ₚ flight s' k -> threads s' = threads s -> grants_at s' k = grants_at s k ->
  ctl_version s' = ctl_version s -> (q = [] <-> reqs (fet s) k = []) -> KeyInv s' k.
Proof.
  intros HK Hat Hf Hth Hg Hctl Hq.
  apply small_perm in Hf; [|by apply KeyInv_flight_small].
  pose proof (at_key_self _ _ _ _ _ _ _ Hat) as (Hv & Hc & Hr & Hn).
  assert (Hh : holders s' k = holders s k) by (unfold holders; by rewrite Hth).
  assert (Hver : ver_at s' k = ver_at s k) by (unfold ver_at; by rewrite Hctl).
  unfold KeyInv, LocalIdle, LocalGranted in *. destruct (is_local k).
  - rewrite Hv, Hc, Hr, Hn, Hh, Hg, Hver, <- Hf. rewrite Hq. destruct HK as [HK|[w HK]]; [by left|].
    right. exists w. destruct HK as (? & ? & ? & ? & ?). split_and!; try tauto.
  - destruct HK as [K1 K2 K3 K4 K5]. split.
    + by rewrite Hn.
    + by rewrite <- Hf.
    + by rewrite Hr, Hq, <- Hf.
    + intros w. rewrite Hv, Hver, <- Hf, Hc. apply K4.
    + rewrite Hver, <- Hf. apply K5.
Qed.

Lemma served_located s k : Inv s -> served f0 k -> located (fet s) k.
Proof. intros HI [[node Hn] _]. exists node. by rewrite (proj1 (i_frame _ HI)). Qed.

(** The first request for a partition is sent. *)
Lemma KeyInv_first_request s s' k m :
  KeyInv s k -> reqs (fet s) k = [] ->
  at_key k (fet s) (fet s') (vers (fet s) k) (cach (fet s) k) [fm_version m] (cnt (fet s) k) ->
  flight s' k = [(true, m)] -> threads s' = threads s -> grants_at s' k = grants_at s k ->
  ctl_version s' = ctl_version s -> KeyInv s' k.
Proof.
  intros HK Hq Hat Hf Hth Hg Hctl.
  pose proof (at_key_self _ _ _ _ _ _ _ Hat) as (Hv & Hc & Hr & Hn).
  assert (Hh : holders s' k = holders s k) by (unfold holders; by rewrite Hth).
  assert (Hver : ver_at s' k = ver_at s k) by (unfold ver_at; by rewrite Hctl).
  unfold KeyInv, LocalIdle, LocalGranted in *. destruct (is_local k).
  - destruct HK as [HK|[w HK]]; [left|naive_solver].
    destruct HK as (K1 & K2 & K3 & K4 & K5 & K6 & K7 & K8).
    assert (flight s k = []) as Hf0 by (by apply K4).
    rewrite Hv, Hc, Hr, Hn, Hh, Hg, Hver, Hf. split_and!; try done; [by rewrite K6, Hf0|set_solver].
  - destruct HK as [K1 K2 K3 K4 K5]. split.
    + by rewrite Hn.
    + rewrite Hf. cbn. lia.
    + by rewrite Hr, Hf.
    + intros w. rewrite Hv, Hver, Hf, Hc. intros Hw. destruct (K4 w Hw) as (A & B & C).
      split_and!; try done. set_solver.
    + rewrite Hf. set_solver.
Qed.

Lemma reqs_nil_flight s k : KeyInv s k -> reqs (fet s) k = [] -> flight s k = [].
Proof.
  unfold KeyInv. destruct (is_local k).
  - intros [(_ & _ & _ & H & _)|(w & _ & _ & H & _)]; [by intros ?%H|done].
  - intros [_ _ H _ _]. by intros ?%H.
Qed.

Lemma Inv_process_request s meta q0 :
  Inv s -> queue s = request_msg meta :: q0 ->
  exists s', fet_run (mkey meta) (fet_Process (request_msg meta)) (s <| queue := q0 |>)
               (fun _ s' => s') = Ok s' /\ Inv s'.
Proof.
  intros HI Hq. assert (Hserved : served f0 (mkey meta)).
  { apply (i_queue _ HI (request_msg meta)). rewrite Hq. set_solver. }
  pose proof (i_keys _ HI (mkey meta)) as HK.
  pose proof (flying_pop _ _ _ Hq) as Hfly. cbn in Hfly.
  assert (Hother : forall m, mkey m <> mkey meta -> request_msg m ∈ queue s -> request_msg m ∈ q0).
  { intros m Hne. rewrite Hq. intros [[= ->]|H]%elem_of_cons; done. }
  assert (Hsub : forall m, m ∈ q0 -> m ∈ queue s) by (rewrite Hq; set_solver).
  apply fet_run_wp. cbn [fet_Process fm_flag request_msg].
  apply FetchPartRequest_spec; [by apply (served_located s)| | |].
  - intros Hsat f' Hat. cbn in Hsat, Hat |- *. pose proof (at_key_self _ _ _ _ _ _ _ Hat) as (Hv & _ & Hr & _).
    eapply (Inv_traffic s _ (mkey meta)); eauto; cbn.
    + intros k' _. split; [by apply flight_perm|done].
    + eapply KeyInv_more_reqs; eauto. by apply flight_perm.
    + intros m Hm _ Hw. eapply waits_pop; eauto; cbn; [by rewrite Hr|].
      left. by rewrite <- Hsat; apply satisfied_vers.
    + intros m Hm _ <-. apply satisfied_vers. cbn. by rewrite Hm, Hv.
    + intros m Hm _. apply reached_same; [cbn; by rewrite Hm|done..].
    + by rewrite Hv.
  - intros Hsat Hnil f' r b x y Hat. cbn in Hsat, Hnil, Hat.
    set (s1 := s <| queue := q0 |> <| fet := f' |>).
    pose proof (flying_request s1 meta) as Hfly2.
    set (s2 := s1 <| requests ::= fun l => l ++ [meta] |>) in *. change (Inv s2).
    assert (Hfl : forall k', flight s2 k' ≡ₚ
      if decide (mkey meta = k') then (true, meta) :: flight s k' else flight s k').
    { intros k'. rewrite (flight_cons _ _ _ _ Hfly2). cbn [snd].
      case_decide; [constructor|]; symmetry; by apply flight_perm. }
    assert (Hfk : flight s2 (mkey meta) = [(true, meta)]).
    { symmetry. apply small_perm; [|cbn; lia]. rewrite Hfl, decide_True by done.
      by rewrite (reqs_nil_flight _ _ HK Hnil). }
    change f' with (fet s2) in Hat.
    pose proof (at_key_self _ _ _ _ _ _ _ Hat) as (Hv & _ & Hr & _).
    eapply (Inv_traffic s s2 (mkey meta)); eauto.
    + intros k' Hne. split; [|done]. rewrite Hfl, decide_False by done. done.
    + by eapply KeyInv_first_request.
    + intros m Hm _ Hw. eapply (waits_pop s _ meta q0); eauto.
      * rewrite Hnil. set_solver.
      * right; right. exists (fm_version meta). rewrite Hr. set_solver.
    + intros m Hm _ <-. apply satisfied_vers. by rewrite Hm, Hv.
    + intros m Hm _ (A & B & C). split; [|split]; [by rewrite Hm, Hv, <- Hm| |done].
      intros m'. rewrite Hm, Hfk. set_solver.
    + by rewrite Hv.
    + intros m [H|H%list_elem_of_singleton]%elem_of_app; [by left|right; by subst].
  - intros v Hsat Hlast f' Hat. cbn in Hsat, Hlast, Hat |- *. pose proof (at_key_self _ _ _ _ _ _ _ Hat) as (Hv & _ & Hr & _).
    assert (Hvin : v ∈ reqs (fet s) (mkey meta)) by (by apply last_Some_elem_of).
    eapply (Inv_traffic s _ (mkey meta)); eauto; cbn.
    + intros k' _. split; [by apply flight_perm|done].
    + eapply KeyInv_more_reqs; eauto; [by apply flight_perm|].
      destruct (v <? fm_version meta); [|done]. split; intros H; [by destruct (reqs _ _)|].
      by rewrite H in Hlast.
    + intros m Hm _ Hw. eapply waits_pop; eauto; cbn.
      * intros u Hu. rewrite Hr. destruct (v <? fm_version meta); set_solver.
      * right; right. cbn. rewrite Hr. destruct (v <? fm_version meta) eqn:E.
        -- exists (fm_version meta). set_solver.
        -- exists v. split; [done|]. by apply Z.ltb_ge.
    + intros m Hm _ <-. apply satisfied_vers. cbn. by rewrite Hm, Hv.
    + intros m Hm _. apply reached_same; [cbn; by rewrite Hm|done..].
    + by rewrite Hv.
Qed.

(** Taking the one reply for partition [k] off the way. *)
Lemma flight_landed s s' x k' :
  Inv s -> flying s ≡ₚ x :: flying s' ->
  (mkey x.2 <> k' -> flight s k' ≡ₚ flight s' k') /\
  (mkey x.2 = k' -> flight s k' = [x] /\ flight s' k' = []).
Proof.
  intros HI Hf. pose proof (flight_cons _ _ _ k' Hf) as Hk.
  pose proof (KeyInv_flight_small _ _ (i_keys _ HI k')) as Hsm. split; intros Hx.
  - by rewrite decide_False in Hk.
  - rewrite decide_True in Hk by done. apply small_perm in Hk; [|done].
    rewrite Hk in Hsm. cbn in Hsm. assert (flight s' k' = []) as E by (apply nil_length_inv; lia).
    by rewrite Hk, E.
Qed.

Lemma Inv_process_local s meta q0 :
  let msg := {| fm_flag := kFetchPartReplyLocal; fm_meta := meta; fm_bin := None |} in
  Inv s -> queue s = msg :: q0 -> is_local (mkey meta) = true ->
  exists s', fet_run (mkey meta) (fet_Process msg) (s <| queue := q0 |>) (fun _ s' => s') = Ok s' /\
             Inv s'.
Proof.
  intros msg HI Hq Hl.
  assert (Hin : msg ∈ queue s) by (rewrite Hq; set_solver).
  destruct (i_queue _ HI _ Hin) as [Hserved _]. cbn in Hserved.
  pose proof (i_keys _ HI (mkey meta)) as HK. unfold KeyInv in HK. rewrite Hl in HK.
  pose proof (flying_pop _ _ _ Hq) as Hfly.
  assert (Hland : forall k', _) by (intros k'; exact (flight_landed _ _ _ k' HI Hfly)).
  cbn [fst snd] in Hland. destruct (proj2 (Hland (mkey meta)) eq_refl) as [Hf1 Hf2].
  destruct HK as [HK|[w HK]]; [|destruct HK as (_ & _ & HK & _); congruence].
  destruct HK as (K1 & K2 & K3 & K4 & K5 & K6 & K7 & K8).
  apply fet_run_wp. cbn [fet_Process fm_flag msg].
  apply FetchPartReplyLocal_spec; [|done|].
  { destruct Hserved as [_ Hst]. rewrite Hl in Hst. destruct Hst as [x Hx]. exists x.
    rewrite <- Hx. apply (proj2 (i_frame _ HI)). }
  intros f' Hat. cbn [foldl fet] in Hat |- *.
  set (s2 := s <| queue := q0 |> <| fet := f' |>). change f' with (fet s2) in Hat.
  pose proof (at_key_self _ _ _ _ _ _ _ Hat) as (Hv & Hc & Hr & Hn).
  assert (Hf2' : flight s2 (mkey meta) = []) by exact Hf2.
  eapply (Inv_traffic s s2 (mkey meta)); eauto; try (intros m _ Hl'; congruence).
  - intros k' Hne. split; [|done]. by apply (proj1 (Hland k')).
  - unfold KeyInv. rewrite Hl. right. exists (fm_version meta). unfold LocalGranted.
    rewrite Hv, Hc, Hr, Hn. change (holders s2 (mkey meta)) with (holders s (mkey meta)).
    rewrite K5.
    split_and!; try done.
    + intros Hnil%K4. congruence.
    + change (grants_at s (mkey meta) = 1). by rewrite K6, Hf1.
    + apply K8. rewrite Hf1. set_solver.
  - intros m Hne. rewrite Hq. intros [[= ->]|H]%elem_of_cons; done.
  - intros m Hm _ (A & B & C). split_and!.
    + intros w. rewrite Hm, Hv. intros [= <-]. apply B. rewrite Hm, Hf1. set_solver.
    + intros m'. rewrite Hm, Hf2'. set_solver.
    + done.
  - intros m Hm. left. rewrite Hq. set_solver.
Qed.

Lemma Inv_process_remote s meta bin q0 :
  let msg := {| fm_flag := kFetchPartReplyRemote; fm_meta := meta; fm_bin := Some bin |} in
  Inv s -> queue s = msg :: q0 -> is_local (mkey meta) = false ->
  exists s', fet_run (mkey meta) (fet_Process msg) (s <| queue := q0 |>) (fun _ s' => s') = Ok s' /\
             Inv s'.
Proof.
  intros msg HI Hq Hl.
  assert (Hin : msg ∈ queue s) by (rewrite Hq; set_solver).
  destruct (i_queue _ HI _ Hin) as [Hserved _]. cbn in Hserved.
  apply fet_run_wp. cbn [fet_Process fm_flag msg]. wstep. cbn [foldl deliver].
  set (s1 := s <| queue := q0 |>). set (s2 := _ <| tasks ::= _ |>).
  assert (Hfly : flying s ≡ₚ flying s2).
  { etrans; [apply (flying_pop _ _ _ Hq)|]. symmetry. exact (flying_task s1 msg eq_refl). }
  pose proof (at_key_refl (mkey meta) (fet s)) as Hat.
  change (fet s) with (fet s2) in Hat at 2.
  eapply (Inv_traffic s s2 (mkey meta)); eauto; try done.
  - intros k' _. split; [by apply flight_perm|done].
  - eapply KeyInv_more_reqs; [apply (i_keys _ HI)|exact Hat|by apply flight_perm|done..].
  - intros m Hne. rewrite Hq. intros [[= ->]|H]%elem_of_cons; done.
  - intros m Hm _ [H|[H|H]]; [by left| |by right; right]. right; left.
    rewrite Hq in H. by apply elem_of_cons in H as [[=]|H].
  - intros m Hm Hl'. congruence.
  - intros m Hm. left. rewrite Hq. set_solver.
  - intros m [H|H%list_elem_of_singleton]%elem_of_app; [by left|right]. subst m.
    split_and!; [done| |done]. unfold reply_shape. cbn. rewrite Hl. by exists bin.
Qed.

Definition after_next meta (q : list Z) s : Sys :=
  match q with
  | [] => s
  | v :: _ => s <| requests ::= fun l => l ++ [with_version meta v] |>
  end.

Lemma deliver_next k meta q os s :
  next_request meta q os -> foldl (deliver k) s os = after_next meta q s.
Proof. destruct q as [|v q]; [by intros ->|]. by intros (r & b & x & y & ->). Qed.

Lemma after_next_same meta q s :
  fet (after_next meta q s) = fet s /\ threads (after_next meta q s) = threads s /\
  queue (after_next meta q s) = queue s /\ tasks (after_next meta q s) = tasks s /\
  ctl_version (after_next meta q s) = ctl_version s /\ grants (after_next meta q s) = grants s.
Proof. by destruct q. Qed.

(** What is on the way after the request for the next version, if any: that request. *)
Lemma after_next_flight meta q s :
  flight s (mkey meta) = [] ->
  (forall k', k' <> mkey meta -> flight s k' ≡ₚ flight (after_next meta q s) k') /\
  flight (after_next meta q s) (mkey meta) =
    match q with [] => [] | v :: _ => [(true, with_version meta v)] end.
Proof.
  intros Hf. destruct q as [|v q]; [done|]. cbn [after_next].
  pose proof (flying_request s (with_version meta v)) as Hfly. split.
  - intros k' Hne. rewrite (flight_cons _ _ _ k' Hfly). rewrite decide_False; [done|].
    intros <-. by apply Hne.
  - symmetry. apply small_perm; [|cbn; lia]. rewrite (flight_cons _ _ _ _ Hfly).
    by rewrite decide_True, Hf.
Qed.

Lemma after_next_requests meta q s m :
  m ∈ requests (after_next meta q s) -> m ∈ requests s \/ mkey m = mkey meta.
Proof.
  destruct q as [|v q]; [by left|]. cbn.
  intros [H|H%list_elem_of_singleton]%elem_of_app; [by left|right; by subst].
Qed.

Lemma Inv_task s i meta bin :
  let msg := {| fm_flag := kFetchPartReplyRemote; fm_meta := meta; fm_bin := Some bin |} in
  Inv s -> tasks s !! i = Some msg ->
  exists s', fet_run (mkey meta) (FetchPartReplyRemote create_part msg) (s <| tasks ::= delete i |>)
               (fun _ s' => s') = Ok s' /\ Inv s'.
Proof.
  intros msg HI Hi. assert (Hin : msg ∈ tasks s) by (by eapply list_elem_of_lookup_2).
  destruct (i_tasks _ HI _ Hin) as (Hserved & _ & Hl). cbn in Hserved, Hl.
  pose proof (i_keys _ HI (mkey meta)) as HK. unfold KeyInv in HK. rewrite Hl in HK.
  pose proof (flying_untask _ _ _ Hi) as Hfly.
  assert (Hland : forall k', _) by (intros k'; exact (flight_landed _ _ _ k' HI Hfly)).
  cbn [fst snd] in Hland. destruct (proj2 (Hland (mkey meta)) eq_refl) as [Hf1 Hf2].
  destruct HK as [K1 K2 K3 K4 K5].
  pose proof Hserved as [_ Hcr]. rewrite Hl in Hcr. destruct Hcr as [create Hcr].
  apply fet_run_wp.
  apply (FetchPartReplyRemote_spec _ _ create); [done|by apply (served_located s)|].
  intros f' os Hat Hos. rewrite (deliver_next _ _ _ _ _ Hos). cbn [fet upd eta eta_Sys] in *.
  change (fet (s <| tasks ::= delete i |>)) with (fet s) in *.
  set (q := filter (fun v => fm_version meta < v) (reqs (fet s) (mkey meta))) in *.
  set (s1 := s <| tasks ::= delete i |> <| fet := f' |>).
  destruct (after_next_same meta q s1) as (E1 & E2 & E3 & E4 & E5 & E6).
  destruct (after_next_flight meta q s1 Hf2) as [F1 F2].
  set (s2 := after_next meta q s1) in *. change f' with (fet s1) in Hat. rewrite <- E1 in Hat.
  pose proof (at_key_self _ _ _ _ _ _ _ Hat) as (Hv & Hc & Hr & Hn).
  assert (Hver : ver_at s2 (mkey meta) = ver_at s (mkey meta)) by (unfold ver_at; by rewrite E5).
  assert (Hsat : forall m, mkey m = mkey meta ->
            satisfied (fet s) m = true -> satisfied (fet s2) m = true).
  { intros m Hm. rewrite !satisfied_true, Hm, Hv. intros (w & Hw & Hle).
    destruct (K4 w Hw) as (_ & B & _). exists (fm_version meta). split; [done|].
    specialize (B meta). rewrite Hf1 in B. specialize (B ltac:(set_solver)). lia. }
  eapply (Inv_traffic s s2 (mkey meta)); eauto; try (intros *; congruence).
  - intros k' Hne. split.
    + rewrite <- (F1 k' Hne). by apply (proj1 (Hland k')).
    + unfold grants_at. by rewrite E6.
  - unfold KeyInv. rewrite Hl. split.
    + by rewrite Hn.
    + rewrite F2. destruct q; cbn; lia.
    + rewrite Hr, F2. by destruct q.
    + intros w. rewrite Hv, Hver, Hc, F2. intros [= <-]. split_and!.
      * apply K5. rewrite Hf1. set_solver.
      * destruct q; set_solver.
      * eauto.
    + rewrite F2. destruct q; set_solver.
  - intros m Hne. by rewrite E3.
  - intros m Hm _ [H|[H|(u & Hu & Hle)]].
    + left. auto.
    + right; left. by rewrite E3.
    + destruct (decide (fm_version meta < u)) as [Hlt|Hge].
      * right; right. exists u. split; [|done]. rewrite Hm, Hr in *.
        apply list_elem_of_filter. by split.
      * left. apply satisfied_true. exists (fm_version meta). rewrite Hm, Hv. split; [done|lia].
  - intros m [H|H]%after_next_requests; [by left|right; by rewrite H].
  - rewrite E3. by left.
  - rewrite E4. intros m Hm. left. cbn in Hm. by eapply list_elem_of_delete_inv.
Qed.

Lemma holders_pos s k t th : threads s !! t = Some th -> holds k th -> 0 < holders s k.
Proof.
  intros Ht Hh. destruct (decide (holders s k = 0)) as [Hz|].
  - by destruct (holders_zero _ _ _ _ Hz Ht).
  - unfold holders in *. lia.
Qed.

(** The last holder of a local partition releases it. *)
Lemma Inv_release s t meta p w f' q :
  Inv s -> threads s !! t = Some (Holding meta p w) -> is_local (mkey meta) = true ->
  LocalGranted s (mkey meta) w -> holders s (mkey meta) = 1 -> served f0 (mkey meta) ->
  at_key (mkey meta) (fet s) f' None None q None ->
  Inv (set_thread t Idle (after_next meta q
        (s <| fet := f' |> <| grants ::= <[mkey meta := grants_at s (mkey meta) - 1]> |>))).
Proof.
  intros HI Ht Hl HG Hone Hserved Hat. destruct HG as (K1 & K2 & K3 & K4 & K5 & K6 & K7).
  set (s1 := s <| fet := f' |> <| grants ::= _ |>).
  destruct (after_next_same meta q s1) as (E1 & E2 & E3 & E4 & E5 & E6).
  destruct (after_next_flight meta q s1 K3) as [F1 F2].
  set (s2 := after_next meta q s1) in *. set (s3 := set_thread t Idle s2).
  change f' with (fet s1) in Hat. rewrite <- E1 in Hat.
  pose proof (at_key_self _ _ _ _ _ _ _ Hat) as (Hv & Hc & Hr & Hn).
  assert (Ht2 : threads s2 !! t = Some (Holding meta p w)) by (by rewrite E2).
  assert (Hh : forall k', holders s3 k' = holders s k' - b2z (bool_decide (mkey meta = k'))).
  { intros k'. unfold s3. rewrite (holders_set_thread _ _ _ _ _ Ht2).
    rewrite (bool_decide_eq_false_2 (holds k' Idle)) by (cbn; tauto).
    unfold holders. rewrite E2. change (threads s1) with (threads s).
    rewrite (bool_decide_ext (holds k' (Holding meta p w)) (mkey meta = k')) by done. cbn. lia. }
  assert (Hsame : forall k', k' <> mkey meta -> same_key s s3 k').
  { intros k' Hne. eapply (same_key_at s s3 (mkey meta) k'); [exact Hat| | | | | |]; try done.
    - exact (F1 k' Hne).
    - rewrite Hh, bool_decide_eq_false_2 by done. cbn. lia.
    - unfold grants_at. cbn. rewrite E6. cbn. by rewrite lookup_insert_ne.
    - unfold ver_at. cbn. by rewrite E5. }
  assert (Hz : holders s3 (mkey meta) = 0).
  { rewrite Hh, bool_decide_eq_true_2 by done. cbn. lia. }
  apply (Inv_step s s3 (mkey meta)); auto; cbn; rewrite ?E3, ?E4; try by left.
  - exact (at_frame _ _ _ _ _ _ _ Hat).
  - unfold KeyInv. rewrite Hl. left. unfold LocalIdle.
    change (fet s3) with (fet s2). change (flight s3 (mkey meta)) with (flight s2 (mkey meta)).
    rewrite Hv, Hc, Hr, Hn, F2, Hz. split_and!; try done; try (by destruct q).
    + destruct q; cbn; lia.
    + unfold grants_at at 1. cbn. rewrite E6. cbn. rewrite lookup_insert_eq. cbn. rewrite K6.
      by destruct q.
    + destruct q; set_solver.
  - assert (kept s s3) as Hkept.
    { apply (kept_step _ _ (mkey meta)); auto; try congruence.
      - intros m _. cbn. by rewrite E3.
      - intros m Hm _ (A & B & C). change (fet s3) with (fet s2). split_and!.
        + intros w'. change (fet s3) with (fet s2). by rewrite Hm, Hv.
        + intros m'. change (flight s3 (mkey m)) with (flight s2 (mkey m)). rewrite Hm, F2.
          destruct q; set_solver.
        + unfold ver_at. cbn. by rewrite E5.
      - intros t' m p' w' Ht' Hm. by destruct (holders_zero _ _ _ _ Hz Ht'). }
    intros t' th Ht'. destruct (decide (t = t')) as [->|Hne].
    + rewrite lookup_insert_eq in Ht'. by injection Ht' as <-.
    + assert (Hts : threads s !! t' = Some th) by (by rewrite lookup_insert_ne, E2 in Ht').
      destruct (i_threads _ HI _ _ Hts) as [A B]. split; [|done].
      by eapply (ThreadInv_kept s s3).
  - intros m [H|H]%after_next_requests; [by left|right; by rewrite H].
Qed.

Lemma Inv_finish s t meta p w :
  Inv s -> threads s !! t = Some (Holding meta p w) ->
  exists s', fet_run (mkey meta) (FinishPart meta) s (fun _ s' => set_thread t Idle s') = Ok s' /\
             Inv s'.
Proof.
  intros HI Ht. destruct (i_threads _ HI _ _ Ht) as [[Hle Hp] Hserved].
  specialize (Hserved meta eq_refl). pose proof (i_keys _ HI (mkey meta)) as HK.
  assert (Hh : forall f', holders (set_thread t Idle (s <| fet := f' |>)) (mkey meta) =
                          holders s (mkey meta) - 1).
  { intros f'. rewrite (holders_set_thread _ t (Holding meta p w)) by done. cbn [holds].
    rewrite bool_decide_eq_true_2, bool_decide_eq_false_2 by tauto. rewrite holders_fet. cbn. lia. }
  assert (Hown : forall k', holds k' (Holding meta p w) \/ holds k' (@Idle P) -> k' = mkey meta)
    by (by intros k' [<-|[]]).
  apply fet_run_wp. apply FinishPart_spec; [by apply (served_located s)| |].
  - intros Hn. cbn [foldl].
    eapply (Inv_thread s t _ Idle (fet s)); [done|exact Ht|apply at_key_refl|done| |done|done].
    unfold KeyInv in *. destruct (is_local (mkey meta)).
    + destruct Hp as [_ Hw]. destruct HK as [(_ & K & _)|(w' & K & _)]; congruence.
    + by destruct HK as [K1 K2 K3 K4 K5].
  - intros n Hn. unfold KeyInv in HK. destruct (is_local (mkey meta)) eqn:Hl;
      [|destruct HK as [K1 _ _ _ _]; congruence].
    destruct Hp as [_ Hw]. destruct HK as [(_ & K & _)|(w' & HK)]; [congruence|].
    assert (w' = w) as -> by (destruct HK as (_ & K & _); congruence).
    pose proof HK as (K1 & K2 & K3 & K4 & K5 & K6 & K7).
    assert (n = holders s (mkey meta)) as -> by congruence.
    split; [by eapply holders_pos|]. exists w. split_and!; [done..| |].
    + intros Hgt f' Hat. cbn [foldl]. rewrite <- K2 in Hat.
      eapply (Inv_thread s t _ Idle f'); [done|exact Ht|exact Hat|done| |done|done].
      pose proof (at_key_self _ _ _ _ _ _ _ Hat) as (Hv & Hc & Hr & Hcn).
      unfold KeyInv. rewrite Hl. right. exists w. unfold LocalGranted. rewrite Hh.
      change (fet (set_thread t Idle (s <| fet := f' |>))) with f'.
      by rewrite Hv, Hc, Hr, Hcn.
    + intros Hone f' r os Hat Hos. cbn [foldl deliver]. rewrite (deliver_next _ _ _ _ _ Hos).
      by eapply (Inv_release s t meta p w).
Qed.

(** A controller answers a request. *)
Lemma Inv_answer s i lm bin meta s' :
  Inv s -> requests s !! i = Some meta ->
  s' = s <| requests ::= delete i |> <| queue ::= fun l => l ++ [answer is_local meta lm bin s] |>
         <| grants := if is_local (mkey meta)
                      then <[mkey meta := grants_at s (mkey meta) + 1]> (grants s)
                      else grants s |> ->
  Inv s'.
Proof.
  intros HI Hi Hs'. set (msg := answer is_local meta lm bin s) in *.
  assert (Hserved : served f0 (mkey meta)) by (by eapply (i_requests _ HI), list_elem_of_lookup_2).
  assert (Hshape : reply_shape msg).
  { unfold reply_shape. assert (E : mkey (fm_meta msg) = mkey meta) by done. rewrite E.
    unfold msg, answer. clear. destruct (is_local (mkey meta)); [done|by exists bin]. }
  pose proof (flying_unrequest _ _ _ Hi) as Hfly1.
  pose proof (flying_reply (s <| requests ::= delete i |>) msg (reply_shape_of _ Hshape)) as Hfly2.
  assert (Hfl : forall k', flight s' k' ≡ₚ
    if decide (mkey meta = k') then (false, fm_meta msg) :: flight (s <| requests ::= delete i |>) k'
    else flight (s <| requests ::= delete i |>) k').
  { intros k'. rewrite Hs'. exact (flight_cons _ _ (false, fm_meta msg) k' Hfly2). }
  assert (Hland : forall k', _) by (intros k'; exact (flight_landed _ _ _ k' HI Hfly1)).
  cbn [fst snd] in Hland. destruct (proj2 (Hland (mkey meta)) eq_refl) as [Hf1 Hf2].
  assert (Hfk : flight s' (mkey meta) = [(false, fm_meta msg)]).
  { symmetry. apply small_perm; [|cbn; lia]. by rewrite Hfl, decide_True, Hf2. }
  assert (Hver : ver_at s' = ver_at s) by (by subst s').
  assert (Hfet : fet s' = fet s) by (by subst s').
  assert (Hhold : holders s' = holders s) by (by subst s').
  pose proof (at_key_refl (mkey meta) (fet s)) as Hat. rewrite <- Hfet in Hat at 2.
  pose proof (i_keys _ HI (mkey meta)) as HK.
  eapply (Inv_traffic s s' (mkey meta)); eauto; try (by subst s').
  - intros k' Hne. split.
    + rewrite Hfl, decide_False by done. by apply (proj1 (Hland k')).
    + subst s'. unfold grants_at. cbn. destruct (is_local _); [|done]. by rewrite lookup_insert_ne.
  - unfold KeyInv, LocalIdle, LocalGranted in *. rewrite Hfet, Hfk, Hhold, Hver.
    destruct (is_local (mkey meta)) eqn:Hl.
    + destruct HK as [HK|(w & HK)]; [left|destruct HK as (_ & _ & HK & _); congruence].
      destruct HK as (K1 & K2 & K3 & K4 & K5 & K6 & K7 & K8).
      split_and!; try done; [by rewrite K4, Hf1| |].
      * subst s'. unfold grants_at. cbn. rewrite lookup_insert_eq. cbn.
        fold (grants_at s (mkey meta)). by rewrite K6, Hf1.
      * intros m [= ->]%list_elem_of_singleton. done.
    + destruct HK as [K1 K2 K3 K4 K5]. split; rewrite ?Hfet, ?Hfk, ?Hver; try done.
      * by rewrite K3, Hf1.
      * intros w Hw. destruct (K4 w Hw) as (A & B & C). split_and!; [done| |done].
        intros m [= ->]%list_elem_of_singleton. done.
      * intros m [= ->]%list_elem_of_singleton. done.
  - intros m _ H. subst s'. cbn. set_solver.
  - intros m _ _ [H|[H|H]].
    + left. by rewrite Hfet.
    + right; left. subst s'. cbn. set_solver.
    + right; right. by rewrite Hfet.
  - intros m Hm _ (A & B & C). unfold reached. rewrite Hfet, Hver, Hm, Hfk. rewrite Hm in A, C.
    split_and!; try done. intros m' [= ->]%list_elem_of_singleton. done.
  - intros m Hm. left. subst s'. cbn in Hm. by eapply list_elem_of_delete_inv.
  - intros m Hm. subst s'. cbn in Hm. apply elem_of_app in Hm as [H|H%list_elem_of_singleton]; [by left|].
    right. subst m. by split; [|right].
  - intros m Hm. left. by subst s'.
Qed.

Lemma Inv_advance s k n :
  Inv s -> 0 <= n -> Inv (s <| ctl_version ::= <[k := ver_at s k + n]> |>).
Proof.
  intros HI Hn. set (s' := s <| ctl_version ::= _ |>).
  assert (Hv : forall k', ver_at s k' <= ver_at s' k').
  { intros k'. unfold ver_at at 2. cbn. destruct (decide (k = k')) as [->|].
    - rewrite lookup_insert_eq. cbn. lia.
    - by rewrite lookup_insert_ne. }
  assert (Hsame : forall k', same_key s s' k') by (intros k'; by split).
  assert (kept s s') as Hkept.
  { apply (kept_step _ _ k); auto. intros m _ _. by apply reached_same. }
  apply (Inv_step s s' k); auto.
  - done.
  - by apply (KeyInv_same s), (i_keys _ HI).
  - intros t th Ht. destruct (i_threads _ HI _ _ Ht) as [A B]. split; [|done].
    by eapply (ThreadInv_kept s s').
Qed.

(** A thread moves on without access to a partition, and the entries stay. *)
Lemma Inv_silent s t th th' f' k :
  Inv s -> threads s !! t = Some th ->
  at_key k (fet s) f' (vers (fet s) k) (cach (fet s) k) (reqs (fet s) k) (cnt (fet s) k) ->
  (forall k', ~ holds k' th) -> (forall k', ~ holds k' th') ->
  let s' := set_thread t th' (s <| fet := f' |>) in
  ThreadInv s' th' -> (forall m, thread_meta th' = Some m -> served f0 (mkey m)) -> Inv s'.
Proof.
  intros HI Ht Hat H1 H2 s' HT Hm.
  pose proof (at_key_self _ _ _ _ _ _ _ Hat) as (Hv & Hc & Hr & Hn).
  eapply (Inv_thread s t th th' f' k); eauto.
  - intros k' [H|H]; [by destruct (H1 k')|by destruct (H2 k')].
  - apply (KeyInv_same s); [|apply (i_keys _ HI)]. split; try done.
    rewrite (holders_set_thread _ t th) by done. rewrite holders_fet.
    rewrite !bool_decide_eq_false_2 by auto. cbn. lia.
Qed.

(** The call of [FetchPart] puts its request into the queue. *)
Lemma Inv_push s t meta :
  Inv s -> threads s !! t = Some (Requesting meta) ->
  Inv (set_thread t (Waiting meta) (s <| queue ::= fun l => l ++ [request_msg meta] |>)).
Proof.
  intros HI Ht. destruct (i_threads _ HI _ _ Ht) as [_ Hm].
  set (s1 := s <| queue ::= _ |>).
  assert (Hfly : flying s ≡ₚ flying s1).
  { unfold flying. cbn. by rewrite omap_app, app_nil_r. }
  assert (HI1 : Inv s1).
  { pose proof (at_key_refl (mkey meta) (fet s)) as Hat.
    change (fet s) with (fet s1) in Hat at 2.
    eapply (Inv_traffic s s1 (mkey meta)); eauto; try done.
    - intros k' _. split; [by apply flight_perm|done].
    - eapply KeyInv_more_reqs; [apply (i_keys _ HI)|exact Hat|by apply flight_perm|done..].
    - intros m _ H. cbn. set_solver.
    - intros m _ _ [H|[H|H]]; [by left|right; left; cbn; set_solver|by right; right].
    - intros m _ _. by apply reached_same.
    - intros m [H|H%list_elem_of_singleton]%elem_of_app; [by left|right]. subst m.
      split; [by apply (Hm meta)|by left]. }
  apply (Inv_silent s1 t (Requesting meta) (Waiting meta) (fet s1) (mkey meta)); auto.
  - apply at_key_refl.
  - intros _. right; left. cbn. set_solver.
Qed.

(** ** Every event keeps the invariant, and none fails a CHECK *)

(** Threads fetch partitions that exist. *)
Definition event_ok (e : event) : Prop :=
  match e with ECall _ meta => served f0 (mkey meta) | _ => True end.

Lemma Inv_call s t meta :
  Inv s -> served f0 (mkey meta) -> threads s !! t = Some Idle ->
  exists s', fet_run (mkey meta) (FetchPart_cached meta) s (fun r s' =>
      match r with
      | Some p => returned t meta p s'
      | None => set_thread t (Requesting meta) s'
      end) = Ok s' /\ Inv s'.
Proof.
  intros HI Hs Ht. apply fet_run_wp. apply FetchPart_cached_spec.
  - intros Hsat f' Hat. cbn [foldl]. eapply Inv_access; eauto.
    destruct (is_local _); [|done]. apply satisfied_true in Hsat as (w & Hw & Hle).
    intros w' Hw'. by simplify_eq.
  - intros _ f' Hat. cbn [foldl].
    eapply (Inv_silent s t Idle (Requesting meta) f'); eauto; [done|by intros m [= <-]].
Qed.

Lemma Inv_wake s t meta :
  Inv s -> threads s !! t = Some (Waiting meta) ->
  exists s', fet_run (mkey meta) (FetchPart_wait meta) s
    (fun sat s' => if sat then set_thread t (Woken meta) s' else s') = Ok s' /\ Inv s'.
Proof.
  intros HI Ht. destruct (i_threads _ HI _ _ Ht) as [HT Hm]. apply fet_run_wp.
  unfold FetchPart_wait. apply IsVersionSatisfied_spec. intros f' Hat. cbn [foldl].
  pose proof (at_key_self _ _ _ _ _ _ _ Hat) as (Hv & Hc & Hr & Hn).
  destruct (satisfied (fet s) meta) eqn:Hsat.
  - eapply (Inv_silent s t _ (Woken meta) f'); eauto. cbn. destruct (is_local (mkey meta)) eqn:Hl.
    + apply satisfied_true in Hsat as (w & Hw & Hle). pose proof (i_keys _ HI (mkey meta)) as HK.
      unfold KeyInv in HK. rewrite Hl in HK.
      destruct HK as [(_ & K & _)|(w' & K)]; [congruence|].
      destruct K as (K1 & K2 & K3 & K4 & K5 & K6 & K7). assert (w' = w) as -> by congruence.
      split_and!.
      * intros w'. cbn. rewrite Hv. intros; by simplify_eq.
      * intros m. change (flight _ _) with (flight s (mkey meta)). rewrite K3. set_solver.
      * change (fm_version meta <= ver_at s (mkey meta)). lia.
    + rewrite <- Hsat. by apply satisfied_vers.
  - assert (E : s <| fet := f' |> = set_thread t (Waiting meta) (s <| fet := f' |>)).
    { unfold set_thread. cbn. by rewrite insert_id. }
    rewrite E. eapply (Inv_silent s t _ (Waiting meta) f'); eauto.
    intros Hl. destruct (HT Hl) as [H|[H|(u & Hu & Hle)]]; [congruence|by right; left|].
    right; right. exists u. cbn. by rewrite Hr.
Qed.

Lemma Inv_sys_step e s r :
  Inv s -> event_ok e -> sys_step create_part is_local e s = Some r ->
  exists s', r = Ok s' /\ Inv s'.
Proof.
  intros HI He Hstep. destruct e as [t meta|t|t|t|t| |i|i lm bin|k n]; cbn in Hstep.
  - destruct (threads s !! t) as [[]|] eqn:Ht; try done. injection Hstep as <-. by apply Inv_call.
  - destruct (threads s !! t) as [[]|] eqn:Ht; try done. injection Hstep as <-.
    eexists. split; [reflexivity|]. by apply (Inv_push s t meta HI).
  - destruct (threads s !! t) as [[]|] eqn:Ht; try done. injection Hstep as <-. by apply Inv_wake.
  - destruct (threads s !! t) as [[]|] eqn:Ht; try done. injection Hstep as <-.
    destruct (i_threads _ HI _ _ Ht) as [HT Hm].
    apply fet_run_wp. apply FetchPart_access_spec. intros f' Hat. cbn [foldl].
    eapply Inv_access; eauto. cbn in HT.
    destruct (is_local _); [by destruct HT|done].
  - destruct (threads s !! t) as [[]|] eqn:Ht; try done. injection Hstep as <-.
    by eapply Inv_finish.
  - destruct (queue s) as [|m q] eqn:Hq; [done|]. injection Hstep as <-.
    destruct (i_queue _ HI m) as [_ Hm]; [rewrite Hq; set_solver|].
    destruct Hm as [Hm|Hm].
    + rewrite Hm in Hq |- *. by apply Inv_process_request.
    + unfold reply_shape in Hm. destruct (is_local (mkey (fm_meta m))) eqn:Hl.
      * rewrite Hm in Hq |- *. by apply Inv_process_local.
      * destruct Hm as [bin Hm]. rewrite Hm in Hq |- *. by apply Inv_process_remote.
  - destruct (tasks s !! i) as [m|] eqn:Hi; [|done]. injection Hstep as <-.
    destruct (i_tasks _ HI m) as (_ & Hm & Hl); [by eapply list_elem_of_lookup_2|].
    unfold reply_shape in Hm. rewrite Hl in Hm. destruct Hm as [bin Hm].
    rewrite Hm in Hi |- *. by apply Inv_task.
  - destruct (requests s !! i) as [meta|] eqn:Hi; [|done].
    destruct (is_local (mkey meta)) eqn:Hl; cbn in Hstep.
    + destruct (fm_version meta <=? _); [|done]. injection Hstep as <-. eexists. split; [done|].
      eapply (Inv_answer s i lm bin meta); eauto. by rewrite Hl.
    + injection Hstep as <-. eexists. split; [done|].
      eapply (Inv_answer s i lm bin meta); eauto. by rewrite Hl.
  - destruct (Z.leb_spec 0 n); [|done]. injection Hstep as <-. eexists. split; [done|].
    by apply Inv_advance.
Qed.

Lemma Inv_run es s r :
  Inv s -> Forall event_ok es -> sys_run create_part is_local es s = Some r ->
  exists s', r = Ok s' /\ Inv s'.
Proof.
  revert s. induction es as [|e es IH]; cbn; intros s HI Hes Hrun.
  - injection Hrun as <-. eauto.
  - apply Forall_cons in Hes as [He Hes].
    destruct (sys_step create_part is_local e s) as [r'|] eqn:Hst; [|done].
    destruct (Inv_sys_step _ _ _ HI He Hst) as (s' & -> & HI'). by apply (IH s').
Qed.

Lemma Inv_init ts :
  f0 = new_fetcher (partition_manager_ f0) (collection_map_ f0) (node_id_ f0) ->
  Inv (sys_init f0 ts).
Proof.
  intros Hf0.
  assert (Hv : forall k, vers f0 k = None) by (intros k; by rewrite Hf0).
  assert (Hc : forall k, cach f0 k = None) by (intros k; by rewrite Hf0).
  assert (Hr : forall k, reqs f0 k = []) by (intros k; by rewrite Hf0).
  assert (Hn : forall k, cnt f0 k = None) by (intros k; by rewrite Hf0).
  assert (Hf : forall k, flight (sys_init f0 ts) k = []) by done.
  split; try done.
  - intros k. unfold KeyInv. destruct (is_local k).
    + left. unfold LocalIdle, holders. cbn. rewrite Hv, Hc, Hr, Hn, Hf.
      split_and!; try done; [cbn; lia| |set_solver].
      assert (E : filter (fun x : Z * thread (P := P) => holds k x.2)
        (list_to_map ((fun t => (t, Idle)) <$> ts) : gmap Z thread) = ∅); [|by rewrite E].
      apply map_empty. intros t. apply map_lookup_filter_None. right. intros th Ht.
      apply elem_of_list_to_map_2, list_elem_of_fmap in Ht as (? & [= -> ->] & _). by intros [].
    + split; cbn; rewrite ?Hv, ?Hc, ?Hr, ?Hn, ?Hf; try done; [cbn; lia|set_solver].
  - intros t th Ht. cbn in Ht.
    apply elem_of_list_to_map_2, list_elem_of_fmap in Ht as (? & [= -> ->] & _). done.
  - cbn. set_solver.
  - cbn. set_solver.
  - cbn. set_solver.
Qed.

(** What the invariant says about a thread that holds a partition. *)
Lemma Inv_holding s t meta p w :
  Inv s -> threads s !! t = Some (Holding meta p w) ->
  fm_version meta <= w /\
  if is_local (mkey meta)
  then p = PLocal (fm_collection_id meta) (fm_partition_id meta) /\
       local_access_count_ (fet s) !! mkey meta = Some (holders s (mkey meta)) /\
       0 < holders s (mkey meta) /\ grants_at s (mkey meta) = 1
  else exists x, p = PCopy x.
Proof.
  intros HI Ht. destruct (i_threads _ HI _ _ Ht) as [[Hle Hp] _]. split; [done|].
  pose proof (i_keys _ HI (mkey meta)) as HK. unfold KeyInv in HK.
  destruct (is_local (mkey meta)); [|done]. destruct Hp as [-> Hw].
  destruct HK as [(_ & K & _)|(w' & K1 & K2 & K3 & K4 & K5 & K6 & K7)]; [congruence|].
  split_and!; try done. by eapply holders_pos.
Qed.

(** A waiting thread of a remote partition is never forgotten. *)
Lemma Inv_waiting s t meta :
  Inv s -> threads s !! t = Some (Waiting meta) -> is_local (mkey meta) = false ->
  satisfied (fet s) meta = true \/ request_msg meta ∈ queue s \/ flight s (mkey meta) <> [].
Proof.
  intros HI Ht Hl. destruct (i_threads _ HI _ _ Ht) as [HT _].
  destruct (HT Hl) as [H|[H|(u & Hu & _)]]; [by left|by right; left|right; right].
  pose proof (i_keys _ HI (mkey meta)) as HK. unfold KeyInv in HK. rewrite Hl in HK.
  intros Hf%(r_reqs _ _ HK). rewrite Hf in Hu. set_solver.
Qed.

Lemma wake_step s t meta :
  threads s !! t = Some (Waiting meta) -> satisfied (fet s) meta = true ->
  exists s', sys_step create_part is_local (EWake t) s = Some (Ok s') /\
    threads s' !! t = Some (Woken meta).
Proof.
  intros Ht Hs. cbn. rewrite Ht. unfold FetchPart_wait.
  destruct (fet_run_wp (mkey meta) (IsVersionSatisfied meta) s
    (fun sat s' => if sat then set_thread t (Woken meta) s' else s')
    (fun s' => threads s' !! t = Some (Woken meta))) as (s' & -> & H); [|eauto].
  apply IsVersionSatisfied_spec. intros f' _. rewrite Hs. cbn. by rewrite lookup_insert_eq.
Qed.

Lemma access_step s t meta :
  threads s !! t = Some (Woken meta) ->
  exists s' th, sys_step create_part is_local (EAccess t) s = Some (Ok s') /\
    threads s' !! t = Some th /\ (th = Crashed meta \/ exists p w, th = Holding meta p w).
Proof.
  intros Ht. cbn. rewrite Ht.
  destruct (fet_run_wp (mkey meta) (FetchPart_access meta) s
    (fun p s' => returned t meta p s')
    (fun s' => exists th, threads s' !! t = Some th /\
       (th = Crashed meta \/ exists p w, th = Holding meta p w))) as (s' & -> & th & H); [|eauto].
  apply FetchPart_access_spec. intros f' _. cbn [foldl].
  destruct (default PNull (cach (fet s) (mkey meta))); cbn; rewrite lookup_insert_eq; eauto 10.
Qed.
End proofs.

(** The states the system reaches from an idle fetcher. *)
Definition fetcher_run {P} (create_part : Z -> option (BinStream -> P)) (is_local : Z * Z -> bool)
    (pm : PartitionManager P) (cm : CollectionMap) (node : Z) (ts : list Z) (es : list event) :
    option (res Sys) :=
  sys_run create_part is_local es (sys_init (new_fetcher pm cm node) ts).

Lemma fetcher_run_Inv {P} create_part is_local (pm : PartitionManager P) cm node ts es r :
  Forall (event_ok create_part is_local (new_fetcher pm cm node)) es ->
  fetcher_run create_part is_local pm cm node ts es = Some r ->
  exists s, r = Ok s /\ Inv create_part is_local (new_fetcher pm cm node) s.
Proof. intros Hes Hrun. by eapply Inv_run; [apply Inv_init| |]. Qed.

(** C25: Whatever the interleaving of map threads, the fetcher's actor and executor, and the
    controllers' answers, as long as threads fetch partitions that exist: no CHECK of the
    fetcher fails; at most one request or reply per partition is on the way; a thread that
    holds a partition holds one of at least the version it asked for; a held local
    partition is the partition manager's own, [local_access_count_] is exactly the number
    of its holders and the access the controller granted has not been given back, and a
    held remote partition is a private copy; and only a local fetch can return null. *)
Theorem fetcher_access_safe {P} create_part is_local (pm : PartitionManager P) cm node ts es r :
  Forall (event_ok create_part is_local (new_fetcher pm cm node)) es ->
  fetcher_run create_part is_local pm cm node ts es = Some r ->
  exists s, r = Ok s /\
    (forall k, (length (flight s k) <= 1)%nat) /\
    (forall t meta p w, threads s !! t = Some (Holding meta p w) ->
      fm_version meta <= w /\
      if is_local (mkey meta)
      then p = PLocal (fm_collection_id meta) (fm_partition_id meta) /\
           local_access_count_ (fet s) !! mkey meta = Some (holders s (mkey meta)) /\
           0 < holders s (mkey meta) /\ grants_at s (mkey meta) = 1
      else exists x, p = PCopy x) /\
    (forall t meta, threads s !! t = Some (Crashed meta) -> is_local (mkey meta) = true).
Proof.
  intros Hes Hrun. destruct (fetcher_run_Inv _ _ _ _ _ _ _ _ Hes Hrun) as (s & -> & HI).
  exists s. split_and!; [done| | |].
  - intros k. eapply KeyInv_flight_small, (i_keys _ _ _ _ HI).
  - intros t meta p w. by eapply Inv_holding.
  - intros t meta Ht. by destruct (i_threads _ _ _ _ HI _ _ Ht) as [H _].
Qed.

(** C26: A fetch of a remote partition is never forgotten.  In every reachable state in which
    the queue and the executor are empty and no request is at a controller, a thread that
    waits for a remote partition finds its wait predicate true, and its [FetchPart] then
    returns a copy of the version it asked for or a later one.  This holds although replies
    may carry an older version than requested (the fetcher asks again) and a request may be
    absorbed by one for a later version. *)
Theorem remote_fetch_completes {P} create_part is_local (pm : PartitionManager P) cm node ts es s t meta :
  Forall (event_ok create_part is_local (new_fetcher pm cm node)) es ->
  fetcher_run create_part is_local pm cm node ts es = Some (Ok s) ->
  threads s !! t = Some (Waiting meta) -> is_local (mkey meta) = false ->
  queue s = [] -> tasks s = [] -> requests s = [] ->
  exists s', sys_run create_part is_local [EWake t; EAccess t] s = Some (Ok s') /\
    exists x w, threads s' !! t = Some (Holding meta (PCopy x) w) /\ fm_version meta <= w.
Proof.
  intros Hes Hrun Ht Hl Hq Htk Hr.
  destruct (fetcher_run_Inv _ _ _ _ _ _ _ _ Hes Hrun) as (? & [= <-] & HI).
  destruct (Inv_waiting _ _ _ _ _ _ HI Ht Hl) as [Hs|[H|H]].
  - destruct (wake_step create_part is_local _ _ _ Ht Hs) as (s1 & Hs1 & Ht1).
    destruct (access_step create_part is_local _ _ _ Ht1) as (s2 & th & Hs2 & Ht2 & Hth).
    destruct (Inv_sys_step _ _ _ (EWake t) _ _ HI I Hs1) as (? & [= <-] & HI1).
    destruct (Inv_sys_step _ _ _ (EAccess t) _ _ HI1 I Hs2) as (? & [= <-] & HI2).
    exists s2. split; [cbn [sys_run]; by rewrite Hs1, Hs2|].
    destruct Hth as [->|(p & w & ->)].
    + destruct (i_threads _ _ _ _ HI2 _ _ Ht2) as [Hc _]. cbn in Hc. congruence.
    + destruct (Inv_holding _ _ _ _ _ _ _ _ HI2 Ht2) as [Hle Hp]. rewrite Hl in Hp.
      destruct Hp as [x ->]. eauto.
  - rewrite Hq in H. set_solver.
  - destruct H. unfold flight, flying. by rewrite Hq, Htk, Hr.
Qed.

(** ** A small node: partition 0 is here, partition 1 on another node *)

Section Races.

Definition ex_create (c : Z) : option (BinStream -> BinStream) := if c =? 0 then Some id else None.
Definition ex_local (k : Z * Z) : bool := bool_decide (k = (0, 0)).
Definition ex_pm : PartitionManager BinStream := {| partitions_ := {[0 := {[0 := empty_stream]}]} |}.
Definition ex_cm : CollectionMap :=
  {[0 := {| view_collection_id := 0; view_num_partition := 2; view_mapper := {| v_ := [1; 2] |} |}]}.
Definition ex_run (es : list event) : option (res (Sys (P := BinStream))) :=
  fetcher_run ex_create ex_local ex_pm ex_cm 1 [1; 2] es.
Definition ex_meta (plan part version : Z) : FetchMeta :=
  {| fm_plan_id := plan; fm_upstream_part_id := -1; fm_collection_id := 0;
     fm_partition_id := part; fm_version := version; fm_local_mode := true |}.
Definition ex_data (n : nat) : BinStream := {| buffer := replicate n Byte.x00; front := 0 |}.

(** Two threads fetch the same partition; one request goes out, its reply is processed. *)
Definition both_requested (part : Z) : list event :=
  [ECall 1 (ex_meta 1 part 0); ECall 2 (ex_meta 1 part 0); EPush 1; EPush 2; EProcess; EProcess;
   EAnswer 0 false (ex_data 1); EProcess].

(** Everything in the system that a thread's state does not show. *)
Definition quiet (s : Sys (P := BinStream)) : bool :=
  bool_decide (length (queue s) = 0%nat /\ length (tasks s) = 0%nat /\ length (requests s) = 0%nat).
Definition outcome (t : Z) (r : option (res (Sys (P := BinStream)))) : option (bool * bool * bool) :=
  match r with
  | Some (Ok s) =>
      Some (match threads s !! t with Some (Crashed _) => true | _ => false end,
            match threads s !! t with Some (Waiting _) => true | _ => false end, quiet s)
  | _ => None
  end.

(** [FetchPart] gives up the mutex between the end of its wait and the access to the
    partition, and a local partition is erased when its last holder finishes.  Two threads
    of a node that fetch the same local partition can therefore meet in two ways: if both
    have been woken and one fetches and finishes before the other takes the mutex again,
    the other gets a null pointer; if one fetches and finishes before the other is woken,
    the other waits forever, because its request was absorbed by the first one's: nothing
    is in the queue, the executor or at a controller, and waking it again changes nothing. *)
Theorem local_fetch_races :
  outcome 2 (ex_run (both_requested 0 ++ [EWake 1; EWake 2; EAccess 1; EFinish 1; EAccess 2])) =
    Some (true, false, true) /\
  outcome 2 (ex_run (both_requested 0 ++ [EWake 1; EAccess 1; EFinish 1; EWake 2; EWake 2])) =
    Some (false, true, true).
Proof. split; vm_compute; reflexivity. Qed.

(** The cache of remote partitions does not know the plan.  A first plan fetches
    partition 1 at its version 5; a later plan, whose versions start at 0 again, asks for
    version 1 of the partition as that plan has changed it, and is given the copy the first
    plan fetched, without any message to the partition's node. *)
Theorem cache_outlives_plan :
  let fetched := [EAdvance (0, 1) 5; ECall 1 (ex_meta 1 1 5); EPush 1; EProcess;
                  EAnswer 0 false (ex_data 1); EProcess; ETask 0; EWake 1; EAccess 1; EFinish 1] in
  match ex_run fetched, ex_run (fetched ++ [ECall 1 (ex_meta 2 1 1)]) with
  | Some (Ok s), Some (Ok s') =>
      quiet s = true /\ quiet s' = true /\
      threads s' !! 1 = Some (Holding (ex_meta 2 1 1) (PCopy (ex_data 1)) 5)
  | _, _ => False
  end.
Proof. vm_compute. done. Qed.

Lemma ex_served part :
  part = 0 \/ part = 1 -> served ex_create ex_local (new_fetcher ex_pm ex_cm 1) (0, part).
Proof.
  intros [->| ->]; (split; [eexists; intros S O st; vm_compute; reflexivity|]);
    vm_compute; by eexists.
Qed.

Definition ex_local_run : list event := both_requested 0 ++ [EWake 1; EAccess 1; EWake 2; EAccess 2].

(** A fact about the final state of a run. *)
Definition final {A} (f : Sys (P := BinStream) -> A) (r : option (res (Sys (P := BinStream)))) :
    option A :=
  match r with Some (Ok s) => Some (f s) | _ => None end.

Lemma fetcher_access_safe_witness :
  exists s, ex_run ex_local_run = Some (Ok s) /\ holders s (0, 0) = 2 /\
    local_access_count_ (fet s) !! (0, 0) = Some 2 /\ grants_at s (0, 0) = 1.
Proof.
  assert (Ht : final (fun s => threads s !! 1) (ex_run ex_local_run) =
    Some (Some (Holding (ex_meta 1 0 0) (PLocal 0 0) 0))) by (vm_compute; reflexivity).
  assert (Hh : final (fun s => holders s (0, 0)) (ex_run ex_local_run) = Some 2)
    by (vm_compute; reflexivity).
  destruct (ex_run ex_local_run) as [r|] eqn:Hrun; [|discriminate Ht].
  destruct (fetcher_access_safe ex_create ex_local ex_pm ex_cm 1 [1; 2] ex_local_run r)
    as (s & -> & Hone & Hhold & _); [repeat constructor; apply ex_served; auto|exact Hrun|].
  injection Ht as Ht. injection Hh as Hh. exists s.
  destruct (Hhold _ _ _ _ Ht) as [_ (_ & Hc & _ & Hg)].
  change (mkey (ex_meta 1 0 0)) with (0, 0) in Hc, Hg. rewrite Hh in Hc.
  exact (conj eq_refl (conj Hh (conj Hc Hg))).
Defined.

Definition ex_remote_run : list event :=
  [EAdvance (0, 1) 1; ECall 1 (ex_meta 1 1 3); EPush 1; EProcess; EAnswer 0 false (ex_data 1); EProcess;
   ETask 0; EAdvance (0, 1) 3; EAnswer 0 true (ex_data 2); EProcess; ETask 0].

Lemma remote_fetch_completes_witness :
  exists s s', ex_run ex_remote_run = Some (Ok s) /\
    sys_run ex_create ex_local [EWake 1; EAccess 1] s = Some (Ok s') /\
    exists x w, threads s' !! 1 = Some (Holding (ex_meta 1 1 3) (PCopy x) w) /\ 3 <= w.
Proof.
  assert (Hf : final (fun s => (threads s !! 1, queue s, tasks s, requests s)) (ex_run ex_remote_run) =
    Some (Some (Waiting (ex_meta 1 1 3)), [], [], [])) by (vm_compute; reflexivity).
  destruct (ex_run ex_remote_run) as [[s|e]|] eqn:Hrun; [|discriminate Hf..].
  injection Hf as H1 H2 H3 H4. exists s.
  destruct (remote_fetch_completes ex_create ex_local ex_pm ex_cm 1 [1; 2]
    ex_remote_run s 1 (ex_meta 1 1 3)) as (s' & Hs' & Hx);
    [repeat constructor; apply ex_served; auto|exact Hrun|exact H1|reflexivity|exact H2|exact H3|exact H4|].
  exists s'. split; [reflexivity|]. split; [exact Hs'|exact Hx].
Defined.
End Races.
