(* ===== verification/CollectionStatus.v ===== *)
(** * Which collections the running plans read and write
    (core/scheduler/collection_status.{hpp,cpp})

    The scheduler adds a plan when it starts it and removes it when the plan finishes.
    A second writer of a collection, or a writer that starts beside a reader, is a failed
    CHECK; a reader that starts beside a writer is not looked at.  The component also keeps
    the last checkpoint of each collection.  The timestamps of the source, which are only logged, are left out. *)

From S2P Require Import Prelude BinStream Dag Specs.

Record CollectionStatus := {
  cur_plans_ : gmap Z ReadWriteVector;
  read_ids_ : gmap Z Z;
  write_ids_ : gmap Z Z;
  last_cp_ : gmap Z string }.
#[export] Instance eta_Status : Eta CollectionStatus := fun s =>
  {| cur_plans_ := cur_plans_ s; read_ids_ := read_ids_ s; write_ids_ := write_ids_ s;
     last_cp_ := last_cp_ s |}.

Definition empty_status : CollectionStatus :=
  {| cur_plans_ := ∅; read_ids_ := ∅; write_ids_ := ∅; last_cp_ := ∅ |}.

Abbreviation CSM := (M CollectionStatus Empty_set).

Definition GetLastCP (collection_id : Z) : CSM string :=
  s <-- get ;;
  check (bool_decide (is_Some (last_cp_ s !! collection_id))) "last_cp_.find(collection_id) != end" ;;;
  deref (last_cp_ s !! collection_id) "last_cp_.find(collection_id)->second".

Definition AddCP (collection_id : Z) (url : string) : CSM unit :=
  modify (fun s => s <| last_cp_ ::= <[collection_id := url]> |>).

Definition add_read (r : Z) : CSM unit :=
  modify (fun s => s <| read_ids_ ::= fun m => <[r := lookup_or 0 r m + 1]> m |>).

Definition add_write (w : Z) : CSM unit :=
  s <-- get ;;
  check (bool_decide (write_ids_ s !! w = None)) "write_ids_.find(w) == end" ;;;
  check (bool_decide (read_ids_ s !! w = None)) "read_ids_.find(w) == end" ;;;
  modify (fun s => s <| write_ids_ ::= fun m => <[w := lookup_or 0 w m + 1]> m |>).

Definition AddPlan (id : Z) (p : ReadWriteVector) : CSM unit :=
  s <-- get ;;
  check (bool_decide (cur_plans_ s !! id = None)) "cur_plans_.find(id) == end" ;;;
  modify (fun s => s <| cur_plans_ ::= <[id := p]> |>) ;;;
  for_each p.1 add_read ;;;
  for_each p.2 add_write.

Definition drop_read (r : Z) : CSM unit :=
  s <-- get ;;
  check (bool_decide (is_Some (read_ids_ s !! r))) "read_ids_.find(r) != end" ;;;
  modify (fun s => s <| read_ids_ ::= fun m => <[r := lookup_or 0 r m - 1]> m |>) ;;;
  s <-- get ;;
  when (lookup_or 0 r (read_ids_ s) =? 0) (modify (fun s => s <| read_ids_ ::= delete r |>)).

Definition drop_write (w : Z) : CSM unit :=
  s <-- get ;;
  check (bool_decide (is_Some (write_ids_ s !! w))) "write_ids_.count(w) == 1" ;;;
  modify (fun s => s <| write_ids_ ::= delete w |>).

Definition FinishPlan (plan_id : Z) : CSM unit :=
  s <-- get ;;
  check (bool_decide (is_Some (cur_plans_ s !! plan_id))) "cur_plans_.find(plan_id) != end" ;;;
  p <-- deref (cur_plans_ s !! plan_id) "cur_plans_[plan_id]" ;;
  for_each p.1 drop_read ;;;
  for_each p.2 drop_write ;;;
  modify (fun s => s <| cur_plans_ ::= delete plan_id |>).

Definition GetCurrentPlans (s : CollectionStatus) : list Z := keys (cur_plans_ s).
Definition GetReads (s : CollectionStatus) : list Z := keys (read_ids_ s).
Definition GetWrites (s : CollectionStatus) : list Z := keys (write_ids_ s).

Fixpoint with_cp (cids : list Z) : CSM (list (Z * string)) :=
  match cids with
  | [] => ret []
  | c :: cids' => url <-- GetLastCP c ;; l <-- with_cp cids' ;; ret ((c, url) :: l)
  end.
Definition GetReadsAndCP : CSM (list (Z * string)) := s <-- get ;; with_cp (GetReads s).
Definition GetWritesAndCP : CSM (list (Z * string)) := s <-- get ;; with_cp (GetWrites s).

(** ** The counters agree with the running plans *)

Definition occ (c : Z) (l : list Z) : Z := Z.of_nat (length (filter (fun x => x = c) l)).

Definition all_reads (m : gmap Z ReadWriteVector) : list Z := map_to_list m ≫= fun x => x.2.1.
Definition all_writes (m : gmap Z ReadWriteVector) : list Z := map_to_list m ≫= fun x => x.2.2.

(** [counts m l]: [m] holds the number of occurrences of each element of [l] and no other
    entry. *)
Definition counts (m : gmap Z Z) (l : list Z) : Prop :=
  (forall c, lookup_or 0 c m = occ c l) /\ (forall c n, m !! c = Some n -> 0 < n).

Definition status_ok (s : CollectionStatus) : Prop :=
  counts (read_ids_ s) (all_reads (cur_plans_ s)) /\
  counts (write_ids_ s) (all_writes (cur_plans_ s)) /\
  NoDup (all_writes (cur_plans_ s)).

(** [writable w r k]: the collections [w] can be written beside readers of [r] and writers
    of [k]. *)
Definition writable (w r k : list Z) : Prop := NoDup (w ++ k) /\ forall c, c ∈ w -> c ∉ r.

(** A plan can start beside the running ones. *)
Definition admissible (s : CollectionStatus) (id : Z) (p : ReadWriteVector) : Prop :=
  cur_plans_ s !! id = None /\
  writable p.2 (p.1 ++ all_reads (cur_plans_ s)) (all_writes (cur_plans_ s)).

Lemma occ_cons c x l : occ c (x :: l) = (if decide (x = c) then 1 else 0) + occ c l.
Proof. unfold occ. rewrite filter_cons. case_decide; cbn; lia. Qed.
Lemma occ_app c l k : occ c (l ++ k) = occ c l + occ c k.
Proof. unfold occ. rewrite filter_app, length_app. lia. Qed.
Lemma occ_nonneg c l : 0 <= occ c l.
Proof. unfold occ. lia. Qed.
Lemma occ_pos c l : 0 < occ c l <-> c ∈ l.
Proof.
  induction l as [|x l IH]; [unfold occ; cbn; split; [lia|set_solver]|].
  rewrite occ_cons, elem_of_cons, <- IH. pose proof (occ_nonneg c l).
  case_decide; split; intros; intuition lia.
Qed.
#[export] Instance occ_perm c : Proper ((≡ₚ) ==> (=)) (occ c).
Proof. intros l k Hlk. unfold occ. by rewrite Hlk. Qed.
#[export] Instance counts_perm : Proper ((=) ==> (≡ₚ) ==> iff) counts.
Proof. intros m _ <- l k Hlk. unfold counts. by setoid_rewrite Hlk. Qed.
Lemma counts_Some m l c : counts m l -> is_Some (m !! c) <-> c ∈ l.
Proof.
  intros [Hc Hp]. rewrite <- occ_pos, <- Hc. split.
  - intros [n Hn]. rewrite (lookup_or_Some _ _ _ _ Hn). eauto.
  - intros H. destruct (m !! c) eqn:E; [done|]. rewrite lookup_or_None in H by done. lia.
Qed.
Lemma counts_None m l c : counts m l -> m !! c = None <-> c ∉ l.
Proof. intros H. rewrite <- (counts_Some m l c H). apply eq_None_not_Some. Qed.

Lemma counts_add m l c : counts m l -> counts (<[c := lookup_or 0 c m + 1]> m) (c :: l).
Proof.
  intros [Hc Hp]. split.
  - intros d. rewrite occ_cons. case_decide as Hd.
    + subst d. rewrite lookup_or_insert, Hc. lia.
    + rewrite lookup_or_insert_ne by done. rewrite Hc. lia.
  - intros d n. rewrite lookup_insert_Some. intros [[-> <-]|[_ Hn]]; [|eauto].
    rewrite Hc. pose proof (occ_nonneg d l). lia.
Qed.

Lemma counts_drop m l c : counts m (c :: l) ->
  counts (if lookup_or 0 c m - 1 =? 0 then delete c m else <[c := lookup_or 0 c m - 1]> m) l.
Proof.
  intros [Hc Hp]. pose proof (Hc c) as Hcc. rewrite occ_cons, decide_True in Hcc by done.
  assert (forall d, d <> c -> lookup_or 0 d m = occ d l) as Hne.
  { intros d Hd. rewrite Hc, occ_cons, decide_False by done. lia. }
  destruct (Z.eqb_spec (lookup_or 0 c m - 1) 0) as [E|E].
  - split.
    + intros d. destruct (decide (d = c)) as [->|Hd].
      * rewrite lookup_or_None by apply lookup_delete_eq. lia.
      * rewrite <- Hne by done. unfold lookup_or. by rewrite lookup_delete_ne.
    + intros d n [_ Hn]%lookup_delete_Some. eauto.
  - split.
    + intros d. destruct (decide (d = c)) as [->|Hd].
      * rewrite lookup_or_insert. lia.
      * rewrite lookup_or_insert_ne by done. auto.
    + intros d n. rewrite lookup_insert_Some. intros [[-> <-]|[_ Hn]]; [|eauto].
      pose proof (occ_nonneg d l). lia.
Qed.

(** ** The operations *)

Lemma add_reads_spec E l s :
  wp E (for_each l add_read) s (fun _ s' _ =>
    cur_plans_ s' = cur_plans_ s /\ write_ids_ s' = write_ids_ s /\ last_cp_ s' = last_cp_ s /\
    forall k, counts (read_ids_ s) k -> counts (read_ids_ s') (l ++ k)).
Proof.
  revert s. induction l as [|r l IH]; intros s; cbn; [by apply wp_ret|].
  apply wp_bind. apply wp_modify. eapply wp_mono; [apply IH|]. cbn.
  intros _ s' _ (-> & -> & -> & Hk). split_and!; [done..|]. intros k Hs.
  rewrite Permutation_middle. by apply Hk, counts_add.
Qed.

(** The writes are accepted exactly when they can be written beside what is counted. *)
Lemma add_writes_spec l s kr kw :
  counts (read_ids_ s) kr -> counts (write_ids_ s) kw -> NoDup kw ->
  wp (fun _ => ~ writable l kr kw) (for_each l add_write) s (fun _ s' _ =>
    cur_plans_ s' = cur_plans_ s /\ read_ids_ s' = read_ids_ s /\ last_cp_ s' = last_cp_ s /\
    counts (write_ids_ s') (l ++ kw) /\ writable l kr kw).
Proof.
  revert s kw. induction l as [|w l IH]; intros s kw Hr Hw Hnd; cbn.
  { apply wp_ret. split_and!; try done. split; [done|set_solver]. }
  unfold add_write at 1. repeat wstep.
  - apply bool_decide_eq_true in Hck, Hck0. cbn.
    rewrite (counts_None _ _ w Hr) in Hck0. rewrite (counts_None _ _ w Hw) in Hck.
    assert (w :: l ++ kw ≡ₚ l ++ w :: kw) as HP by by rewrite Permutation_middle.
    assert (writable (w :: l) kr kw <-> writable l kr (w :: kw)) as HW.
    { unfold writable. cbn. rewrite HP. set_solver. }
    eapply wp_weaken; [apply (IH _ (w :: kw)); [done|by apply counts_add|by constructor]| |]; cbn.
    + intros _. by rewrite HW.
    + intros _ s' _. rewrite HP, HW. by intros (-> & -> & -> & ? & ?).
  - intros Hf. apply bool_decide_eq_false in Hf. rewrite (counts_None _ _ w Hr) in Hf.
    intros [_ Hd]. apply (Hd w); [set_solver|]. by apply dec_stable.
  - intros Hf. apply bool_decide_eq_false in Hf. rewrite (counts_None _ _ w Hw) in Hf.
    intros [Hn _]. apply NoDup_cons in Hn as [Hn _]. set_solver.
Qed.

Lemma drop_reads_spec l s k : counts (read_ids_ s) (l ++ k) ->
  wp none (for_each l drop_read) s (fun _ s' _ =>
    cur_plans_ s' = cur_plans_ s /\ write_ids_ s' = write_ids_ s /\ last_cp_ s' = last_cp_ s /\
    counts (read_ids_ s') k).
Proof.
  revert s. induction l as [|r l IH]; intros s Hs; cbn; [by apply wp_ret|].
  unfold drop_read at 1. repeat first [wstep | progress cbn].
  - cbn in Hif. rewrite lookup_or_insert in Hif. pose proof (counts_drop _ _ _ Hs) as Hd. rewrite Hif in Hd.
    eapply wp_mono; [apply IH; cbn; by rewrite delete_insert_eq|].
    cbn. by intros _ s' _ (-> & -> & -> & ?).
  - cbn in Hif. rewrite lookup_or_insert in Hif. pose proof (counts_drop _ _ _ Hs) as Hd. rewrite Hif in Hd.
    eapply wp_mono; [apply IH; cbn; done|]. cbn. by intros _ s' _ (-> & -> & -> & ?).
  - intros Hf. apply bool_decide_eq_false in Hf. apply Hf.
    apply (counts_Some _ _ r Hs). set_solver.
Qed.

Lemma drop_writes_spec l s k : counts (write_ids_ s) (l ++ k) -> NoDup (l ++ k) ->
  wp none (for_each l drop_write) s (fun _ s' _ =>
    cur_plans_ s' = cur_plans_ s /\ read_ids_ s' = read_ids_ s /\ last_cp_ s' = last_cp_ s /\
    counts (write_ids_ s') k).
Proof.
  revert s. induction l as [|w l IH]; intros s Hs Hnd; cbn; [by apply wp_ret|].
  cbn in Hnd. apply NoDup_cons in Hnd as [Hw Hnd].
  unfold drop_write at 1. repeat first [wstep | progress cbn].
  - eapply wp_mono; [apply IH; cbn; [|done]|].
    + pose proof (counts_drop _ _ _ Hs) as Hd. destruct Hs as [Hs _].
      pose proof (Hs w) as E. cbn [app] in E. rewrite occ_cons, decide_True in E by done.
      assert (occ w (l ++ k) = 0) as E0.
      { pose proof (occ_nonneg w (l ++ k)). rewrite <- occ_pos in Hw. lia. }
      by replace (lookup_or 0 w (write_ids_ s) - 1) with 0 in Hd by lia.
    + cbn. by intros _ s' _ (-> & -> & -> & ?).
  - intros Hf. apply bool_decide_eq_false in Hf. apply Hf.
    apply (counts_Some _ _ w Hs). set_solver.
Qed.

Lemma all_reads_insert m id p : m !! id = None -> all_reads (<[id := p]> m) ≡ₚ p.1 ++ all_reads m.
Proof. intros Hm. unfold all_reads. by rewrite map_to_list_insert. Qed.
Lemma all_writes_insert m id p : m !! id = None -> all_writes (<[id := p]> m) ≡ₚ p.2 ++ all_writes m.
Proof. intros Hm. unfold all_writes. by rewrite map_to_list_insert. Qed.
Lemma all_reads_delete m id p : m !! id = Some p -> all_reads m ≡ₚ p.1 ++ all_reads (delete id m).
Proof. intros Hm. rewrite <- all_reads_insert by apply lookup_delete_eq. by rewrite insert_delete_id. Qed.
Lemma all_writes_delete m id p : m !! id = Some p -> all_writes m ≡ₚ p.2 ++ all_writes (delete id m).
Proof. intros Hm. rewrite <- all_writes_insert by apply lookup_delete_eq. by rewrite insert_delete_id. Qed.

Lemma AddPlan_spec s id p : status_ok s ->
  wp (fun _ => ~ admissible s id p) (AddPlan id p) s (fun _ s' _ =>
    admissible s id p /\ cur_plans_ s' = <[id := p]> (cur_plans_ s) /\
    last_cp_ s' = last_cp_ s /\ status_ok s').
Proof.
  intros (Hr & Hw & Hnd). unfold AddPlan, admissible, status_ok. repeat first [wstep | progress cbn].
  - apply bool_decide_eq_true in Hck. eapply wp_mono; [apply add_reads_spec|]. cbn.
    intros _ s1 _ (Hc1 & Hw1 & Hl1 & Hr1). specialize (Hr1 _ Hr). rewrite <- Hw1 in Hw.
    eapply wp_weaken; [by apply (add_writes_spec p.2 s1 _ _ Hr1 Hw)| |].
    + intros e Hn [_ Ha]. done.
    + intros _ s2 _ (Hc2 & Hr2 & Hl2 & Hw2 & Ha). rewrite Hc2, Hc1, Hr2, Hl2, Hl1.
      rewrite all_reads_insert, all_writes_insert by done. destruct Ha. done.
  - intros Hf [Ha _]. by apply bool_decide_eq_false in Hf.
Qed.

Lemma FinishPlan_spec s id p : status_ok s -> cur_plans_ s !! id = Some p ->
  wp none (FinishPlan id) s (fun _ s' _ =>
    cur_plans_ s' = delete id (cur_plans_ s) /\ last_cp_ s' = last_cp_ s /\ status_ok s').
Proof.
  intros (Hr & Hw & Hnd) Hp. unfold FinishPlan, status_ok.
  rewrite (all_reads_delete _ _ _ Hp) in Hr.
  rewrite (all_writes_delete _ _ _ Hp) in Hw, Hnd.
  repeat first [wstep | progress cbn].
  - rewrite Hp in Hx. injection Hx as <-.
    eapply wp_mono; [by apply drop_reads_spec|]. intros _ s1 _ (Hc1 & Hw1 & Hl1 & Hr1).
    rewrite <- Hw1 in Hw.
    repeat first [wstep | progress cbn]. eapply wp_mono; [by apply drop_writes_spec|].
    intros _ s2 _ (Hc2 & Hr2 & Hl2 & Hw2). repeat first [wstep | progress cbn].
    rewrite Hc2, Hc1, Hr2, Hl2, Hl1. apply NoDup_app in Hnd as (_ & _ & ?). done.
  - intros Hn. congruence.
  - intros Hf. apply bool_decide_eq_false in Hf. apply Hf. by rewrite Hp.
Qed.

(** ** Histories *)

Inductive status_event :=
| EvStart (id : Z) (p : ReadWriteVector)
| EvFinish (id : Z)
| EvCheckpoint (cid : Z) (url : string).

Definition status_step (e : status_event) : CSM unit :=
  match e with
  | EvStart id p => AddPlan id p
  | EvFinish id => FinishPlan id
  | EvCheckpoint cid url => AddCP cid url
  end.

Lemma empty_status_ok : status_ok empty_status.
Proof.
  unfold status_ok, counts, all_reads, all_writes, occ, empty_status. cbn.
  rewrite map_to_list_empty. cbn. split_and!; try constructor; try set_solver.
Qed.

Lemma status_step_ok e s : status_ok s -> wp any (status_step e) s (fun _ s' _ => status_ok s').
Proof.
  intros Hs. destruct e as [id p|id|cid url]; cbn.
  - eapply wp_weaken; [by apply AddPlan_spec|done|]. by intros ??? (?&?&?&?).
  - destruct (cur_plans_ s !! id) as [p|] eqn:Hp.
    + eapply wp_weaken; [by eapply FinishPlan_spec|done|]. by intros ??? (?&?&?).
    + unfold FinishPlan. repeat wstep; congruence.
  - by apply wp_modify.
Qed.

Lemma status_history_ok l s os :
  for_each l status_step empty_status = Ok (tt, s, os) -> status_ok s.
Proof.
  intros Hrun. apply (wp_Ok any _ _ _ _ _ (fun _ s _ => status_ok s) Hrun). apply (wp_for_each_state _ status_ok).
  - apply empty_status_ok.
  - intros e s1 _ Hs1. by apply status_step_ok.
  - done.
Qed.

Lemma elem_of_all_writes m c : c ∈ all_writes m <-> exists i p, m !! i = Some p /\ c ∈ p.2.
Proof.
  unfold all_writes. rewrite list_elem_of_bind. split.
  - intros ([i p] & Hc & Hi%elem_of_map_to_list). eauto.
  - intros (i & p & Hi & Hc). exists (i, p). by rewrite elem_of_map_to_list.
Qed.
Lemma elem_of_all_reads m c : c ∈ all_reads m <-> exists i p, m !! i = Some p /\ c ∈ p.1.
Proof.
  unfold all_reads. rewrite list_elem_of_bind. split.
  - intros ([i p] & Hc & Hi%elem_of_map_to_list). eauto.
  - intros (i & p & Hi & Hc). exists (i, p). by rewrite elem_of_map_to_list.
Qed.

Lemma single_writer s i j p q c : status_ok s ->
  cur_plans_ s !! i = Some p -> cur_plans_ s !! j = Some q -> i <> j -> c ∈ p.2 -> c ∉ q.2.
Proof.
  intros (_ & _ & Hnd) Hi Hj Hij Hc Hq. rewrite (all_writes_delete _ _ _ Hi) in Hnd.
  apply NoDup_app in Hnd as (_ & Hd & _). apply (Hd c Hc), elem_of_all_writes.
  exists j, q. by rewrite lookup_delete_ne.
Qed.

(** C21: after any history of plan starts, plan ends and checkpoints, the tables of the
    collection status describe the running plans: a collection is listed as read (written)
    exactly when a running plan reads (writes) it, no two running plans write one
    collection, a new plan is admitted exactly when its id is new and what it writes is
    neither written by a running plan nor read by one or by itself, and every running plan
    can be finished. *)
Theorem collection_status_sound l s os :
  for_each l status_step empty_status = Ok (tt, s, os) ->
  (forall c, c ∈ GetReads s <-> exists i p, cur_plans_ s !! i = Some p /\ c ∈ p.1) /\
  (forall c, c ∈ GetWrites s <-> exists i p, cur_plans_ s !! i = Some p /\ c ∈ p.2) /\
  (forall i j p q c, cur_plans_ s !! i = Some p -> cur_plans_ s !! j = Some q -> i <> j ->
     c ∈ p.2 -> c ∉ q.2) /\
  (forall id p, (exists s' os', AddPlan id p s = Ok (tt, s', os')) <-> admissible s id p) /\
  (forall id p, cur_plans_ s !! id = Some p ->
     exists s' os', FinishPlan id s = Ok (tt, s', os') /\ cur_plans_ s' = delete id (cur_plans_ s)).
Proof.
  intros Hs%status_history_ok. split_and!.
  - intros c. unfold GetReads. rewrite elem_of_keys, <- elem_of_all_reads. apply counts_Some, Hs.
  - intros c. unfold GetWrites. rewrite elem_of_keys, <- elem_of_all_writes. apply counts_Some, Hs.
  - intros i j p q c. by apply single_writer.
  - intros id p. pose proof (AddPlan_spec s id p Hs) as Hw. unfold wp in Hw.
    destruct (AddPlan id p s) as [[[[] s'] os']|e]; split.
    + by destruct Hw.
    + by eauto.
    + by intros (? & ? & ?).
    + done.
  - intros id p Hp. destruct (wp_none_Ok _ _ _ (FinishPlan_spec _ _ _ Hs Hp))
      as ([] & s' & os' & Hf & Hc & _). eauto.
Qed.

Definition demo_history : list status_event :=
  [EvStart 0 ([], [1]); EvFinish 0; EvStart 1 ([1], [2]); EvCheckpoint 1 "/cp"; EvStart 2 ([1], [3])].

Lemma collection_status_sound_witness :
  exists s os, for_each demo_history status_step empty_status = Ok (tt, s, os) /\
    GetReads s = [1] /\ GetWrites s = [2; 3] /\ ~ admissible s 3 ([], [1]).
Proof.
  destruct (for_each demo_history status_step empty_status) as [[[[] s] os]|e] eqn:E;
    [|vm_compute in E; discriminate].
  exists s, os. destruct (collection_status_sound _ _ _ E) as (_ & _ & _ & Ha & _).
  vm_compute in E. injection E as <- <-. split_and!; [reflexivity..|].
  intros Hn. apply Ha in Hn as (s' & os' & Hn). vm_compute in Hn. discriminate.
Defined.
