(* ===== verification/Assigner.v ===== *)
(** * Assigning the blocks of an input to the nodes (io/assigner.{hpp,cpp}, io/meta.hpp)

    [Load] browses the input, sends one block to each node in turn and [FinishBlock] counts
    the blocks that were read.  A node gets a block stored on its own host while there is
    one.  What the file system reports ([browser_->Browse]) and the host-name lookup
    ([GetIP]) are arguments. *)

From S2P Require Import Prelude BinStream.

(** ** The messages *)

Record StoredBlock := { sb_url : string; sb_offset : Z; sb_node_id : Z }.

Record AssignedBlock := {
  ab_url : string; ab_offset : size_t; ab_id : Z; ab_collection_id : Z;
  ab_is_load_meta : bool; ab_is_whole_file : bool }.
#[export] Instance Serial_AssignedBlock : Serial AssignedBlock.
Proof.
  refine {| enc := fun b => enc (ab_url b) ++ enc (ab_offset b) ++ enc (ab_id b) ++
              enc (ab_collection_id b) ++ enc (ab_is_load_meta b) ++ enc (ab_is_whole_file b);
            dec := (u <-- dec ;; o <-- dec ;; i <-- dec ;; c <-- dec ;; m <-- dec ;; w <-- dec ;;
                    ret {| ab_url := u; ab_offset := o; ab_id := i; ab_collection_id := c;
                           ab_is_load_meta := m; ab_is_whole_file := w |});
            storable := fun b => storable (ab_url b) /\ storable (ab_offset b) /\
              storable (ab_id b) /\ storable (ab_collection_id b) /\
              storable (ab_is_load_meta b) /\ storable (ab_is_whole_file b) |}.
  solve_reads.
Defined.

Record FinishedBlock := {
  fb_block_id : Z; fb_node_id : Z; fb_qid : Z; fb_hostname : string; fb_collection_id : Z }.
#[export] Instance Serial_FinishedBlock : Serial FinishedBlock.
Proof.
  refine {| enc := fun b => enc (fb_block_id b) ++ enc (fb_node_id b) ++ enc (fb_qid b) ++
              enc (fb_hostname b) ++ enc (fb_collection_id b);
            dec := (i <-- dec ;; n <-- dec ;; q <-- dec ;; h <-- dec ;; c <-- dec ;;
                    ret {| fb_block_id := i; fb_node_id := n; fb_qid := q; fb_hostname := h;
                           fb_collection_id := c |});
            storable := fun b => storable (fb_block_id b) /\ storable (fb_node_id b) /\
              storable (fb_qid b) /\ storable (fb_hostname b) /\ storable (fb_collection_id b) |}.
  solve_reads.
Defined.

(** A block of the file system: its file and offset, and a host that stores it. *)
Record BlockInfo := { bi_filename : string; bi_offset : Z; bi_hostname : string }.

(** ** Blocks in the order of [std::pair<std::string, size_t>] *)

Abbreviation block := (string * Z)%type.

Definition block_le (a b : block) : Prop :=
  match String.compare a.1 b.1 with Lt => True | Eq => a.2 <= b.2 | Gt => False end.
#[export] Instance block_le_dec a b : Decision (block_le a b).
Proof. unfold block_le. destruct (String.compare a.1 b.1); apply _. Defined.

(** [*s.begin()] *)
Definition set_begin (s : gset block) : option block :=
  head (merge_sort block_le (elements s)).

Record Assigner := {
  init_ : bool;
  locality_map_ : gmap string (gset block);
  blocks_ : gmap block (list string);
  assigned_blocks_ : gmap Z block;
  finished_blocks_ : gmap Z StoredBlock;
  block_id_ : Z;
  num_finished_ : Z;
  num_assigned_ : Z;
  expected_num_finished_ : Z;
  is_load_meta_ : bool;
  is_whole_file_ : bool;
  locality_count_ : Z * Z }.
#[export] Instance eta_Assigner : Eta Assigner := fun a =>
  {| init_ := init_ a; locality_map_ := locality_map_ a; blocks_ := blocks_ a;
     assigned_blocks_ := assigned_blocks_ a; finished_blocks_ := finished_blocks_ a;
     block_id_ := block_id_ a; num_finished_ := num_finished_ a;
     num_assigned_ := num_assigned_ a; expected_num_finished_ := expected_num_finished_ a;
     is_load_meta_ := is_load_meta_ a; is_whole_file_ := is_whole_file_ a;
     locality_count_ := locality_count_ a |}.

Definition new_assigner : Assigner :=
  {| init_ := false; locality_map_ := ∅; blocks_ := ∅; assigned_blocks_ := ∅;
     finished_blocks_ := ∅; block_id_ := 0; num_finished_ := 0; num_assigned_ := 0;
     expected_num_finished_ := 0; is_load_meta_ := false; is_whole_file_ := false;
     locality_count_ := (0, 0) |}.

(** The output: a block and the node it is sent to. *)
Abbreviation AM := (M Assigner (Z * AssignedBlock)).

Definition add_block (get_ip : string -> string) (b : BlockInfo) (a : Assigner) : Assigner :=
  let p := (bi_filename b, bi_offset b) in
  let host := get_ip (bi_hostname b) in
  a <| locality_map_ ::= fun m => <[host := default ∅ (m !! host) ∪ {[p]}]> m |>
    <| blocks_ ::= fun m => <[p := default [] (m !! p) ++ [host]]> m |>.

Definition InitBlocks (get_ip : string -> string) (browsed : list BlockInfo) : AM unit :=
  modify (fun a => foldl (fun a b => add_block get_ip b a) a browsed) ;;;
  modify (fun a => a <| init_ := true |>).

Definition GetNumBlocks : AM Z :=
  a <-- get ;; check (init_ a) "init_" ;;; ret (Z.of_nat (size (blocks_ a))).

Definition choose_block (host : string) : AM block :=
  a <-- get ;;
  match locality_map_ a !! host ≫= set_begin with
  | Some b =>
      modify (fun a => a <| locality_count_ ::= fun c => (c.1 + 1, c.2) |>) ;;; ret b
  | None =>
      b <-- deref (set_begin (dom (blocks_ a))) "blocks_.begin()->first" ;;
      modify (fun a => a <| locality_count_ ::= fun c => (c.1, c.2 + 1) |>) ;;; ret b
  end.

Definition forget_locality (b : block) (locs : list string) (a : Assigner) : Assigner :=
  foldl (fun a loc => a <| locality_map_ ::= fun m =>
           <[loc := default ∅ (m !! loc) ∖ {[b]}]> m |>) a locs.

Definition Assign (collection_id : Z) (slave : string * Z) : AM bool :=
  a <-- get ;;
  if bool_decide (blocks_ a = ∅) then ret false else
  b <-- choose_block slave.1 ;;
  a <-- get ;;
  let id := block_id_ a in
  modify (fun a => a <| block_id_ ::= Z.succ |>) ;;;
  emit (slave.2, {| ab_url := b.1; ab_offset := SizeT b.2; ab_id := id;
                    ab_collection_id := collection_id; ab_is_load_meta := is_load_meta_ a;
                    ab_is_whole_file := is_whole_file_ a |}) ;;;
  check (bool_decide (is_Some (blocks_ a !! b))) "b != blocks_.end()" ;;;
  locs <-- deref (blocks_ a !! b) "b->second" ;;
  check (0 <? Z.of_nat (length locs)) "locs.size() > 0" ;;;
  modify (forget_locality b locs) ;;;
  modify (fun a => a <| blocks_ ::= delete b |> <| num_assigned_ ::= Z.succ |>
                     <| assigned_blocks_ ::= fun m => insert_new m (id, b) |>) ;;;
  ret true.

(** The loop of [Load] that is compiled: one block to each slave in turn. *)
Fixpoint assign_all (collection_id : Z) (slaves : list (string * Z)) (to_assign : nat)
    (index : Z) : AM unit :=
  match to_assign with
  | O => ret tt
  | S n =>
      slave <-- deref (slaves !! Z.to_nat index) "slaves[index]" ;;
      suc <-- Assign collection_id slave ;;
      check suc "suc == true" ;;;
      assign_all collection_id slaves n (Z.rem (index + 1) (Z.of_nat (length slaves)))
  end.

Definition Load (get_ip : string -> string) (browsed : list BlockInfo) (collection_id : Z)
    (slaves : list (string * Z)) (num_local_threads : list Z)
    (is_load_meta is_whole_file : bool) : AM Z :=
  modify (fun a => a <| is_load_meta_ := is_load_meta |> <| is_whole_file_ := is_whole_file |>) ;;;
  check (bool_decide (length slaves = length num_local_threads))
    "slaves.size() == num_local_threads.size()" ;;;
  InitBlocks get_ip browsed ;;;
  modify (fun a => a <| num_finished_ := 0 |> <| num_assigned_ := 0 |>
                     <| expected_num_finished_ := Z.of_nat (size (blocks_ a)) |>) ;;;
  a <-- get ;;
  assign_all collection_id slaves (size (blocks_ a)) 0 ;;;
  gets expected_num_finished_.

Definition FinishBlock (b : FinishedBlock) : AM bool :=
  a <-- get ;;
  check (bool_decide (is_Some (assigned_blocks_ a !! fb_block_id b)))
    "assigned_blocks_.find(block.block_id) != end" ;;;
  p <-- deref (assigned_blocks_ a !! fb_block_id b) "assigned_blocks_[block.block_id]" ;;
  modify (fun a => a <| assigned_blocks_ ::= delete (fb_block_id b) |>
    <| finished_blocks_ ::= fun m =>
         insert_new m (fb_block_id b, {| sb_url := p.1; sb_offset := p.2; sb_node_id := fb_node_id b |}) |>
    <| num_finished_ ::= Z.succ |>) ;;;
  a <-- get ;;
  if num_finished_ a =? expected_num_finished_ a then ret true
  else Assign (fb_collection_id b) (fb_hostname b, fb_node_id b) ;;; ret false.

Definition Done (a : Assigner) : bool := num_finished_ a =? expected_num_finished_ a.
Definition GetFinishedBlocks (a : Assigner) : gmap Z StoredBlock := finished_blocks_ a.

(** ** The locality index agrees with the blocks left *)

Definition hosts_of (a : Assigner) (b : block) : list string := default [] (blocks_ a !! b).

Definition assigner_ok (a : Assigner) : Prop :=
  (forall h b, b ∈ default ∅ (locality_map_ a !! h) <-> h ∈ hosts_of a b) /\
  (forall b locs, blocks_ a !! b = Some locs -> locs <> []).

Lemma set_begin_Some s b : set_begin s = Some b -> b ∈ s.
Proof.
  unfold set_begin. intros Hb%head_Some_elem_of.
  rewrite merge_sort_Permutation in Hb. by apply elem_of_elements.
Qed.
Lemma set_begin_None s : set_begin s = None -> s = ∅.
Proof.
  unfold set_begin. intros Hb%head_None. apply leibniz_equiv, elements_empty_inv.
  apply Permutation_nil_r. by rewrite <- (merge_sort_Permutation block_le), Hb.
Qed.

Lemma new_assigner_ok : assigner_ok new_assigner.
Proof. split; unfold hosts_of; cbn; set_solver. Qed.

Lemma add_block_ok get_ip b a : assigner_ok a -> assigner_ok (add_block get_ip b a).
Proof.
  intros [Hl Hne]. unfold add_block. set (p := (bi_filename b, bi_offset b)).
  set (host := get_ip (bi_hostname b)). split; unfold hosts_of in *; cbn.
  - intros h q. specialize (Hl h q). rewrite !lookup_insert.
    destruct (decide (host = h)) as [->|Hh], (decide (p = q)) as [->|Hp]; cbn; set_solver.
  - intros q locs. rewrite lookup_insert_Some. intros [[-> <-]|[_ Hq]]; [|eauto].
    by destruct (default [] _).
Qed.

Lemma add_blocks get_ip l a :
  let a' := foldl (fun a b => add_block get_ip b a) a l in
  (assigner_ok a -> assigner_ok a') /\
  dom (blocks_ a') = dom (blocks_ a) ∪ list_to_set ((fun b => (bi_filename b, bi_offset b)) <$> l) /\
  assigned_blocks_ a' = assigned_blocks_ a /\ finished_blocks_ a' = finished_blocks_ a /\
  block_id_ a' = block_id_ a /\ is_load_meta_ a' = is_load_meta_ a /\
  is_whole_file_ a' = is_whole_file_ a.
Proof.
  revert a. induction l as [|b l IH]; intros a; cbn; [split_and!; set_solver|].
  destruct (IH (add_block get_ip b a)) as (Hok & Hd & -> & -> & -> & -> & ->).
  split_and!; [eauto using add_block_ok| |done..]. rewrite Hd. cbn. rewrite dom_insert_L. set_solver.
Qed.

Lemma forget_locality_spec b locs a h :
  default ∅ (locality_map_ (forget_locality b locs a) !! h) =
  default ∅ (locality_map_ a !! h) ∖ (if decide (h ∈ locs) then {[b]} else ∅).
Proof.
  unfold forget_locality. revert a. induction locs as [|l locs IH]; intros a; cbn.
  { rewrite decide_False by set_solver. set_solver. }
  rewrite IH. cbn. rewrite lookup_insert. destruct (decide (l = h)) as [->|]; cbn.
  - rewrite (decide_True (P := h ∈ h :: locs)) by set_solver. case_decide; set_solver.
  - destruct (decide (h ∈ locs)).
    + rewrite decide_True by set_solver. done.
    + rewrite decide_False by set_solver. done.
Qed.

Lemma forget_locality_frame b locs a :
  exists L, forget_locality b locs a = a <| locality_map_ := L |>.
Proof.
  unfold forget_locality. revert a. induction locs as [|l locs IH]; intros a; cbn [foldl].
  - exists (locality_map_ a). by destruct a.
  - destruct (IH (a <| locality_map_ ::= fun m => <[l := default ∅ (m !! l) ∖ {[b]}]> m |>))
      as [L ->]. by exists L.
Qed.

Lemma choose_block_spec host a : assigner_ok a -> blocks_ a <> ∅ ->
  wp none (choose_block host) a (fun b a' os => os = [] /\ is_Some (blocks_ a !! b) /\
    (forall b', host ∈ hosts_of a b' -> host ∈ hosts_of a b) /\
    exists c, a' = a <| locality_count_ := c |>).
Proof.
  intros [Hl Hne] Hb. unfold choose_block. repeat first [wstep | progress cbn].
  - destruct (locality_map_ a !! host) as [L|] eqn:HL; [|done]. cbn in Hm.
    apply set_begin_Some in Hm. pose proof (proj1 (Hl host p)) as Hlb.
    rewrite HL in Hlb. specialize (Hlb Hm). split_and!; [done| |by intros|by eexists].
    unfold hosts_of in Hlb. destruct (blocks_ a !! p); [done|set_solver].
  - apply set_begin_Some, elem_of_dom in Hx. split_and!; [done..| |by eexists].
    intros b' Hb'. exfalso. apply Hl in Hb'.
    destruct (locality_map_ a !! host) as [L|] eqn:HL; [|set_solver]. cbn in Hm.
    apply set_begin_None in Hm. set_solver.
  - intros Hn%set_begin_None. apply Hb. by apply dom_empty_inv_L.
Qed.

Definition block_of (ab : AssignedBlock) : block := (ab_url ab, size_val (ab_offset ab)).

(** What [Assign] does when a block is left: one block leaves [blocks_], a local one if
    there is one, and is sent under the next id. *)
Lemma Assign_spec cid slave a : assigner_ok a -> blocks_ a <> ∅ ->
  wp none (Assign cid slave) a (fun r a' os => r = true /\ assigner_ok a' /\
    exists b, is_Some (blocks_ a !! b) /\ blocks_ a' = delete b (blocks_ a) /\
      (forall b', slave.1 ∈ hosts_of a b' -> slave.1 ∈ hosts_of a b) /\
      assigned_blocks_ a' = insert_new (assigned_blocks_ a) (block_id_ a, b) /\
      block_id_ a' = block_id_ a + 1 /\ finished_blocks_ a' = finished_blocks_ a /\
      num_finished_ a' = num_finished_ a /\ expected_num_finished_ a' = expected_num_finished_ a /\
      is_load_meta_ a' = is_load_meta_ a /\ is_whole_file_ a' = is_whole_file_ a /\
      os = [(slave.2, {| ab_url := b.1; ab_offset := SizeT b.2; ab_id := block_id_ a;
               ab_collection_id := cid; ab_is_load_meta := is_load_meta_ a;
               ab_is_whole_file := is_whole_file_ a |})]).
Proof.
  intros Hok Hb. unfold Assign. apply wp_bind, wp_get. rewrite bool_decide_eq_false_2 by done.
  apply wp_bind. eapply wp_mono; [by apply choose_block_spec|].
  intros b a1 os (-> & [locs Hbl] & Hloc & c & ->). cbn. repeat first [wstep | progress cbn in *].
  - rewrite Hbl in Hx. injection Hx as <-. split; [done|]. clear Hck Hck0.
    match goal with |- context [forget_locality _ _ ?x] => set (a1 := x) end.
    pose proof (forget_locality_spec b locs a1) as HF.
    destruct (forget_locality_frame b locs a1) as [L EL]. rewrite EL in *. cbn in HF |- *.
    destruct Hok as [Hl Hne]. split.
    { split; unfold hosts_of; cbn.
      - intros h q. rewrite HF. specialize (Hl h q). unfold hosts_of in Hl. rewrite lookup_delete.
        destruct (decide (b = q)) as [->|Hq]; cbn.
        + rewrite Hbl in Hl. cbn in Hl. case_decide; set_solver.
        + case_decide; set_solver.
      - intros q ls. intros [_ Hq]%lookup_delete_Some. eauto. }
    exists b. by split_and!.
  - intros Hf. rewrite Hbl in Hx. injection Hx as <-. destruct Hok as [_ Hne].
    apply Hne in Hbl. apply Z.ltb_ge in Hf. destruct locs; [done|]. cbn in Hf. lia.
  - congruence.
  - intros Hf. apply bool_decide_eq_false in Hf. apply Hf. by rewrite Hbl.
Qed.

(** ** Loading *)

Lemma elements_remove (s : gset block) b : b ∈ s -> b :: elements (s ∖ {[b]}) ≡ₚ elements s.
Proof.
  intros Hb. rewrite <- elements_union_singleton by set_solver.
  by rewrite <- union_difference_singleton_L.
Qed.

(** The loop sends the blocks left with consecutive ids to the slaves in turn. *)
Lemma assign_all_spec cid slaves n index a :
  assigner_ok a -> slaves <> [] -> size (blocks_ a) = n -> 0 <= index < Z.of_nat (length slaves) ->
  (forall i, block_id_ a <= i -> assigned_blocks_ a !! i = None) ->
  wp none (assign_all cid slaves n index) a (fun _ a' os =>
    assigner_ok a' /\ blocks_ a' = ∅ /\
    block_of <$> os.*2 ≡ₚ elements (dom (blocks_ a)) /\
    ab_id <$> os.*2 = seqZ (block_id_ a) (Z.of_nat n) /\
    Forall (fun o => ab_collection_id o.2 = cid) os /\
    (forall i o, os !! i = Some o ->
       snd <$> slaves !! Z.to_nat ((index + Z.of_nat i) mod Z.of_nat (length slaves)) = Some o.1) /\
    (forall i b, assigned_blocks_ a' !! i = Some b <->
       assigned_blocks_ a !! i = Some b \/
       exists k o, os !! k = Some o /\ i = block_id_ a + Z.of_nat k /\ b = block_of o.2) /\
    finished_blocks_ a' = finished_blocks_ a /\ num_finished_ a' = num_finished_ a /\
    expected_num_finished_ a' = expected_num_finished_ a).
Proof.
  intros Hok Hsl. revert index a Hok. induction n as [|n IH]; intros index a Hok Hn Hi Hfr; cbn.
  { apply map_size_empty_iff in Hn. apply wp_ret. rewrite Hn, dom_empty_L, elements_empty. cbn.
    split_and!; try done. intros i b. split; [by left|]. intros [?|(k & o & Hk & _)]; [done|].
    by rewrite lookup_nil in Hk. }
  destruct (lookup_lt_is_Some_2 slaves (Z.to_nat index) ltac:(lia)) as [sl Hsl'].
  repeat wstep; [|rewrite Hsl'; done]. rewrite Hsl' in Hx. injection Hx as <-.
  eapply wp_mono; [apply Assign_spec; [done|by intros E; rewrite E, map_size_empty in Hn]|].
  intros r a1 os1 (-> & Hok1 & b & [locs Hb] & Hb1 & _ & Ha1 & Hid & Hf & Hnf & He & _ & _ & ->).
  apply wp_bind, wp_check; [intros _|done].
  assert (assigned_blocks_ a1 = <[block_id_ a := b]> (assigned_blocks_ a)) as Ha1'.
  { rewrite Ha1. unfold insert_new. cbn. by rewrite Hfr by lia. }
  set (len := Z.of_nat (length slaves)) in *.
  rewrite Z.rem_mod_nonneg by lia.
  eapply wp_mono; [apply IH; [done| | |]|].
  - rewrite Hb1, map_size_delete_Some by eauto. lia.
  - apply Z.mod_pos_bound. lia.
  - intros i Hi'. rewrite Ha1', lookup_insert_ne by lia. apply Hfr. lia.
  - intros _ a2 os (Hok2 & Hb2 & Hp & Hids & Hc & Hnode & Hasg & Hf2 & Hn2 & He2).
    cbn. split_and!; try done; try congruence.
    + etrans; [apply Permutation_cons; [|exact Hp]; reflexivity|]. rewrite Hb1, dom_delete_L.
      apply elem_of_dom_2, elements_remove in Hb. by destruct b.
    + rewrite Hids, Hid, (seqZ_cons (block_id_ a)) by lia. do 2 f_equal; lia.
    + by constructor.
    + intros [|i] o; cbn.
      * intros [= <-]. rewrite Z.add_0_r, Z.mod_small by lia. by rewrite Hsl'.
      * intros Ho. rewrite <- (Hnode i o Ho). do 2 f_equal.
        rewrite Zplus_mod_idemp_l. do 2 f_equal. lia.
    + intros i b'. rewrite Hasg, Ha1', lookup_insert_Some, Hid. split.
      * intros [[[<- <-]|[_ ?]]|(k & o & Hk & -> & ->)]; [right|by left|right].
        -- exists 0%nat. eexists. split_and!; [done|cbn; lia|]. by destruct b.
        -- exists (S k), o. split_and!; [done|lia|done].
      * intros [Hold|([|k] & o & Hk & -> & ->)].
        -- left. right. split; [|done]. intros <-. by rewrite Hfr in Hold by lia.
        -- left. left. injection Hk as <-. split; [cbn; lia|]. by destruct b.
        -- right. exists k, o. split_and!; [done|lia|done].
Qed.

(** The distinct blocks of the input. *)
Definition input_blocks (browsed : list BlockInfo) : gset block :=
  list_to_set ((fun b => (bi_filename b, bi_offset b)) <$> browsed).

Lemma Load_spec get_ip browsed cid slaves threads meta whole :
  slaves <> [] -> length slaves = length threads ->
  let n := size (input_blocks browsed) in
  wp none (Load get_ip browsed cid slaves threads meta whole) new_assigner (fun r a os =>
    r = Z.of_nat n /\ blocks_ a = ∅ /\
    block_of <$> os.*2 ≡ₚ elements (input_blocks browsed) /\
    ab_id <$> os.*2 = seqZ 0 (Z.of_nat n) /\
    Forall (fun o => ab_collection_id o.2 = cid) os /\
    (forall i o, os !! i = Some o ->
       snd <$> slaves !! Z.to_nat (Z.of_nat i mod Z.of_nat (length slaves)) = Some o.1) /\
    (forall i b, assigned_blocks_ a !! i = Some b <->
       exists k o, os !! k = Some o /\ i = Z.of_nat k /\ b = block_of o.2) /\
    finished_blocks_ a = ∅ /\ num_finished_ a = 0 /\ expected_num_finished_ a = Z.of_nat n).
Proof.
  intros Hsl Hlen n. unfold Load, InitBlocks. rewrite bool_decide_eq_true_2 by done.
  repeat wstep; [|done]. cbn -[foldl].
  match goal with |- context [foldl ?f ?x browsed] =>
    destruct (add_blocks get_ip browsed x) as (Hok & Hd & Ha & Hf & Hi & _);
    set (a0 := foldl f x browsed) in * end.
  change (dom (blocks_ a0) = dom (∅ : gmap block (list string)) ∪ input_blocks browsed) in Hd.
  rewrite dom_empty_L, (left_id_L ∅ (∪)) in Hd. cbn in Ha, Hf, Hi.
  assert (size (blocks_ a0) = n) as Hn by by rewrite <- size_dom, Hd.
  eapply wp_mono; [apply assign_all_spec; cbn; [|done..| |]|]; cbn.
  - destruct Hok as [Hl Hne]; [apply new_assigner_ok|]. by split.
  - destruct slaves; [done|]. cbn. lia.
  - intros i _. by rewrite Ha, lookup_empty.
  - rewrite Hd, Ha, Hf, Hi, Hn. intros _ a os (_ & Hb & Hp & Hids & Hc & Hnode & Hasg & Hf' & Hnf & He).
    repeat wstep. rewrite app_nil_r. split_and!; try done.
    intros i b. rewrite Hasg, lookup_empty. split.
    + intros [?|(k & o & Hk & -> & ->)]; [done|]. by exists k, o.
    + intros (k & o & Hk & -> & ->). right. by exists k, o.
Qed.

(** C19: loading an input from any non-empty set of nodes sends every distinct block of it
    exactly once, under the ids 0, 1, ... in the order of sending, the [i]-th one to the
    node [i] modulo the number of nodes. *)
Theorem load_assigns_every_block get_ip browsed cid slaves threads meta whole :
  slaves <> [] -> length slaves = length threads ->
  exists a os,
    Load get_ip browsed cid slaves threads meta whole new_assigner =
      Ok (Z.of_nat (size (input_blocks browsed)), a, os) /\
    block_of <$> os.*2 ≡ₚ elements (input_blocks browsed) /\
    ab_id <$> os.*2 = seqZ 0 (Z.of_nat (length os)) /\
    forall i o, os !! i = Some o -> ab_collection_id o.2 = cid /\
      snd <$> slaves !! Z.to_nat (Z.of_nat i mod Z.of_nat (length slaves)) = Some o.1.
Proof.
  intros Hsl Hlen.
  destruct (wp_none_Ok _ _ _ (Load_spec get_ip browsed cid slaves threads meta whole Hsl Hlen))
    as (r & a & os & -> & -> & _ & Hp & Hids & Hc & Hnode & _).
  exists a, os. split_and!; [done..| |].
  - rewrite Hids. do 2 f_equal. apply (f_equal length) in Hids.
    rewrite !length_fmap, length_seqZ in Hids. lia.
  - intros i o Ho. split; [|by apply Hnode]. by eapply Forall_lookup in Hc.
Qed.

(** ** Finishing *)

Fixpoint finish_all (l : list FinishedBlock) : AM (list bool) :=
  match l with
  | [] => ret []
  | fb :: l' => done <-- FinishBlock fb ;; rest <-- finish_all l' ;; ret (done :: rest)
  end.

Lemma FinishBlock_spec fb a p : blocks_ a = ∅ -> assigned_blocks_ a !! fb_block_id fb = Some p ->
  finished_blocks_ a !! fb_block_id fb = None ->
  wp none (FinishBlock fb) a (fun r a' os => os = [] /\
    r = (num_finished_ a + 1 =? expected_num_finished_ a) /\ blocks_ a' = ∅ /\
    assigned_blocks_ a' = delete (fb_block_id fb) (assigned_blocks_ a) /\
    finished_blocks_ a' = <[fb_block_id fb :=
      {| sb_url := p.1; sb_offset := p.2; sb_node_id := fb_node_id fb |}]> (finished_blocks_ a) /\
    num_finished_ a' = num_finished_ a + 1 /\ expected_num_finished_ a' = expected_num_finished_ a).
Proof.
  intros Hb Hp Hf. unfold FinishBlock. apply wp_bind, wp_get. rewrite Hp.
  repeat wstep; try done; cbn in *; injection Hx as <-; unfold insert_new, Z.succ in *; cbn;
    rewrite Hf.
  - by rewrite Hif.
  - unfold Assign. apply wp_bind, wp_get. rewrite bool_decide_eq_true_2 by done.
    repeat wstep. cbn. by rewrite Hif.
Qed.

Lemma finish_all_spec l a : blocks_ a = ∅ -> NoDup (fb_block_id <$> l) -> l <> [] ->
  num_finished_ a + Z.of_nat (length l) = expected_num_finished_ a ->
  (forall fb, fb ∈ l -> is_Some (assigned_blocks_ a !! fb_block_id fb) /\
                        finished_blocks_ a !! fb_block_id fb = None) ->
  wp none (finish_all l) a (fun r a' os => os = [] /\
    r = replicate (length l - 1) false ++ [true] /\
    (forall i, i ∉ fb_block_id <$> l -> finished_blocks_ a' !! i = finished_blocks_ a !! i) /\
    forall fb p, fb ∈ l -> assigned_blocks_ a !! fb_block_id fb = Some p ->
      finished_blocks_ a' !! fb_block_id fb =
      Some {| sb_url := p.1; sb_offset := p.2; sb_node_id := fb_node_id fb |}).
Proof.
  revert a. induction l as [|fb l IH]; intros a Hb Hnd Hne Hn Hl; [done|]. cbn in Hnd |- *.
  apply NoDup_cons in Hnd as [Hfb Hnd]. destruct (Hl fb) as [[p Hp] Hf]; [set_solver|].
  apply wp_bind. eapply wp_mono; [by apply FinishBlock_spec|].
  intros r a1 os1 (-> & -> & Hb1 & Ha1 & Hf1 & Hn1 & He1). cbn in Hn.
  assert (forall fb', fb' ∈ l -> fb_block_id fb <> fb_block_id fb') as Hdiff.
  { intros fb' Hfb' E. apply Hfb. rewrite E. by apply list_elem_of_fmap_2. }
  destruct (decide (l = [])) as [->|Hl'].
  - cbn in *. repeat wstep. cbn. rewrite (proj2 (Z.eqb_eq _ _)) by lia. split_and!; try done.
    + intros i Hi. rewrite Hf1, lookup_insert_ne by set_solver. done.
    + intros fb' p' ->%list_elem_of_singleton Hp'. rewrite Hf1, lookup_insert_eq.
      by simplify_eq.
  - assert (length l <> 0%nat) as Hlen by by destruct l.
    rewrite (proj2 (Z.eqb_neq _ _)) by lia.
    apply wp_bind. eapply wp_mono; [apply IH; try done; [lia|]|].
    + intros fb' Hfb'. destruct (Hl fb') as [Hs Hs']; [set_solver|].
      rewrite Ha1, Hf1, lookup_delete_ne, lookup_insert_ne by auto. done.
    + intros r a2 os2 (-> & -> & Ho & Hfin). repeat wstep. cbn. split_and!; try done.
      * destruct (length l) as [|k]; [done|]. cbn. by rewrite Nat.sub_0_r.
      * intros i Hi. rewrite Ho, Hf1, lookup_insert_ne by set_solver. done.
      * intros fb' p' [->|Hfb']%elem_of_cons Hp'.
        -- rewrite Ho, Hf1, lookup_insert_eq by done. by simplify_eq.
        -- apply Hfin; [done|]. rewrite Ha1, lookup_delete_ne by auto. done.
Qed.

(** C20: once an input of at least one block is loaded, the blocks may be reported finished
    in any order: no report fails a CHECK or sends anything, the assigner says it is done at
    the last report and not before, and the record of each block is the block that was sent
    under its id and the node that reported it. *)
Theorem finish_blocks_complete get_ip browsed cid slaves threads meta whole r a os l :
  slaves <> [] -> length slaves = length threads -> browsed <> [] ->
  Load get_ip browsed cid slaves threads meta whole new_assigner = Ok (r, a, os) ->
  fb_block_id <$> l ≡ₚ seqZ 0 (Z.of_nat (length os)) ->
  exists a', finish_all l a = Ok (replicate (length os - 1) false ++ [true], a', []) /\
    forall fb i o, fb ∈ l -> fb_block_id fb = Z.of_nat i -> os !! i = Some o ->
      GetFinishedBlocks a' !! fb_block_id fb =
      Some {| sb_url := ab_url o.2; sb_offset := size_val (ab_offset o.2); sb_node_id := fb_node_id fb |}.
Proof.
  intros Hsl Hlen Hbr Hload Hl.
  pose proof (wp_Ok none _ _ _ _ _ _ Hload
    (Load_spec get_ip browsed cid slaves threads meta whole Hsl Hlen))
    as (_ & Hb & _ & Hids & _ & _ & Hasg & Hf & Hn & He).
  assert (length os = size (input_blocks browsed)) as Hos.
  { apply (f_equal length) in Hids. rewrite !length_fmap, length_seqZ in Hids. lia. }
  assert (length l = length os) as Hll.
  { apply Permutation_length in Hl. rewrite length_fmap, length_seqZ in Hl. lia. }
  assert (length os <> 0%nat) as Hpos.
  { rewrite Hos. destruct browsed as [|b browsed]; [done|]. unfold input_blocks. cbn.
    rewrite size_union_alt, size_singleton. lia. }
  assert (forall fb, fb ∈ l -> is_Some (assigned_blocks_ a !! fb_block_id fb) /\
                               finished_blocks_ a !! fb_block_id fb = None) as Hready.
  { intros fb Hfb. rewrite Hf, lookup_empty. split; [|done].
    apply (list_elem_of_fmap_2 fb_block_id) in Hfb. rewrite Hl, elem_of_seqZ in Hfb.
    destruct (lookup_lt_is_Some_2 os (Z.to_nat (fb_block_id fb)) ltac:(lia)) as [o Ho].
    exists (block_of o.2). apply Hasg. exists (Z.to_nat (fb_block_id fb)), o.
    split_and!; [done|lia|done]. }
  destruct (wp_none_Ok _ _ _ (finish_all_spec l a Hb ltac:(rewrite Hl; apply NoDup_seqZ)
    ltac:(by intros ->) ltac:(lia) Hready)) as (r' & a' & os' & Hfin & -> & -> & _ & Hrec).
  exists a'. rewrite Hfin, Hll. split; [done|]. intros fb i o Hfb Hi Ho.
  apply (Hrec fb (block_of o.2) Hfb). apply Hasg. by exists i, o.
Qed.

(** an input without blocks sends nothing, so no node ever reports a finished block and
    the loading plan, which ends with the last report, does not end. *)
Theorem load_of_empty_input_sends_nothing get_ip cid (slots : list (string * Z * Z)) meta whole :
  exists a, Load get_ip [] cid slots.*1 slots.*2 meta whole new_assigner = Ok (0, a, []) /\
    Done a = true.
Proof.
  unfold Load, InitBlocks, bind, modify, check, get, gets.
  rewrite bool_decide_eq_true_2 by by rewrite !length_fmap. eexists. split; reflexivity.
Qed.

Definition demo_input : list BlockInfo :=
  [ {| bi_filename := "f"; bi_offset := 0; bi_hostname := "h1" |};
    {| bi_filename := "f"; bi_offset := 0; bi_hostname := "h2" |};
    {| bi_filename := "f"; bi_offset := 64; bi_hostname := "h2" |};
    {| bi_filename := "g"; bi_offset := 0; bi_hostname := "h1" |} ].
Definition demo_slaves : list (string * Z) := [("h1", 1); ("h2", 2)].
Definition finished_by (node id : Z) : FinishedBlock :=
  {| fb_block_id := id; fb_node_id := node; fb_qid := node * 8; fb_hostname := "h"; fb_collection_id := 5 |}.

Lemma load_assigns_every_block_witness :
  demo_slaves <> [] /\ exists a os,
    Load id demo_input 5 demo_slaves [4; 4] false false new_assigner = Ok (3, a, os) /\ os.*1 = [1; 2; 1].
Proof.
  split; [discriminate|].
  destruct (load_assigns_every_block id demo_input 5 demo_slaves [4; 4] false false
    ltac:(discriminate) eq_refl) as (a & os & HL & _).
  exists a, os. split; [exact HL|]. vm_compute in HL. by injection HL as <- <-.
Defined.

Lemma finish_blocks_complete_witness :
  exists r a os a', Load id demo_input 5 demo_slaves [4; 4] false false new_assigner = Ok (r, a, os) /\
    finish_all (finished_by 1 <$> [2; 0; 1]) a = Ok ([false; false; true], a', []).
Proof.
  destruct (Load id demo_input 5 demo_slaves [4; 4] false false new_assigner) as [[[r a] os]|e] eqn:HL;
    [|vm_compute in HL; discriminate].
  destruct (finish_blocks_complete id demo_input 5 demo_slaves [4; 4] false false r a os
    (finished_by 1 <$> [2; 0; 1]) ltac:(discriminate) eq_refl ltac:(discriminate) HL) as (a' & Hf & _).
  - vm_compute in HL. injection HL as <- <- <-. vm_compute.
    apply (Permutation_trans (perm_skip _ (perm_skip _ (Permutation_refl _)))).
    apply (Permutation_trans (perm_swap _ _ _)). apply perm_skip. apply perm_swap.
  - exists r, a, os, a'. split; [done|]. rewrite Hf. by vm_compute in HL; injection HL as <- <- <-.
Defined.
