(* ===== verification/Hdfs.v ===== *)
(** * The files of an input (io/hdfs_browser.hpp, hdfs_browser.cpp, hdfs_writer.cpp, hdfs_helper.hpp)

    The browser lists the blocks of the files in a directory, one entry for each host that
    stores a copy; the assigner sends each block to a node and a block reader reads its lines.
    The three together: every line of every file of the directory is read once.  The
    writer writes a buffer to a file.

    The client library of the file system is a parameter. *)

From S2P Require Import Prelude BinStream BlockReader Assigner.

(** ** Connecting *)

(** [connect i]: the [i]-th call of [hdfsBuilderConnect] succeeds. *)
Fixpoint connect_loop (connect : nat -> bool) (num_retries i : nat) : bool :=
  match num_retries with
  | O => false
  | S num_retries' => if connect i then true else connect_loop connect num_retries' (S i)
  end.
Definition InitHDFS (connect : nat -> bool) : bool := connect_loop connect 3 0.
Record HDFSBrowser := { fs_ : bool }.
Definition mkHDFSBrowser (connect : nat -> bool) : res HDFSBrowser :=
  if InitHDFS connect then Ok {| fs_ := true |} else Err (CheckFailed "suc").
(** [GetFS] tries once. *)
Definition GetFS (connect : nat -> bool) : res unit := if connect 0%nat then Ok tt else Err (CheckFailed "fs").

(** ** Browsing *)

Inductive tObjectKind := kObjectKindFile | kObjectKindDirectory.
#[export] Instance tObjectKind_eq_dec : EqDecision tObjectKind.
Proof. solve_decision. Defined.
Record hdfsFileInfo := { mName : string; mKind : tObjectKind; mSize : Z; mBlockSize : Z }.

Section Browser.
(** [hdfsGetFileBlockLocations name k]: the hosts of the block of [name] at offset [k]. *)
Context (hdfsExists : string -> bool) (hdfsListDirectory : string -> list hdfsFileInfo)
  (hdfsGetFileBlockLocations : string -> Z -> list string).

(** [std::string(mName) + '\0'] *)
Definition block_name (f : hdfsFileInfo) : string := mName f +:+ String.String Ascii.zero String.EmptyString.
(** The loop over the blocks of a file adds [mBlockSize] to [k]; the size of the file bounds
    its turns unless the block size is not positive. *)
Fixpoint file_blocks (fuel : nat) (f : hdfsFileInfo) (k : Z) : res (list BlockInfo) :=
  if k <? mSize f then
    match fuel with
    | O => Err (Undefined "out of fuel")
    | S fuel' =>
        match file_blocks fuel' f (k + mBlockSize f) with
        | Ok l => Ok (((fun hostname => {| bi_filename := block_name f; bi_offset := k; bi_hostname := hostname |}) <$>
                        hdfsGetFileBlockLocations (mName f) k) ++ l)
        | Err e => Err e
        end
    end
  else Ok [].
Fixpoint browse_files (fs : list hdfsFileInfo) : res (list BlockInfo) :=
  match fs with
  | [] => Ok []
  | f :: fs' =>
      if decide (mKind f = kObjectKindFile) then
        match file_blocks (Z.to_nat (mSize f)) f 0, browse_files fs' with
        | Ok l, Ok l' => Ok (l ++ l')
        | Err e, _ => Err e
        | _, Err e => Err e
        end
      else browse_files fs'
  end.
Definition Browse (b : HDFSBrowser) (url : string) : res (list BlockInfo) :=
  if fs_ b then
    if hdfsExists url then browse_files (hdfsListDirectory url) else Err (CheckFailed "hdfsExists(fs_, url) == 0")
  else Err (CheckFailed "fs_").

(** *** What the browser lists *)

(** The offsets of the blocks of a file. *)
Definition block_offset (f : hdfsFileInfo) (o : Z) : Prop := exists i, 0 <= i /\ o = i * mBlockSize f /\ o < mSize f.

Lemma file_blocks_spec f fuel k i : 0 < mBlockSize f -> 0 <= i -> k = i * mBlockSize f -> mSize f - k <= Z.of_nat fuel ->
  exists l, file_blocks fuel f k = Ok l /\
    forall b, b ∈ l <-> exists j, i <= j /\ j * mBlockSize f < mSize f /\
      bi_hostname b ∈ hdfsGetFileBlockLocations (mName f) (j * mBlockSize f) /\
      b = {| bi_filename := block_name f; bi_offset := j * mBlockSize f; bi_hostname := bi_hostname b |}.
Proof.
  intros Hbs. revert k i. induction fuel as [|fuel IH]; intros k i Hi Hk Hf; cbn [file_blocks].
  - destruct (Z.ltb_spec k (mSize f)); [lia|]. exists []. split; [done|]. intros b. split; [set_solver|].
    intros (j & Hj & Hlt & _). nia.
  - destruct (Z.ltb_spec k (mSize f)) as [Hlt|Hge].
    + destruct (IH (k + mBlockSize f) (i + 1)) as (l & -> & Hl); [lia|lia|lia|]. eexists. split; [done|].
      intros b. rewrite elem_of_app, Hl, list_elem_of_fmap. split.
      * intros [(h & -> & Hh)|(j & Hj & ?)]; [exists i; cbn; subst k; split_and!; [lia|done..]|exists j; split; [lia|done]].
      * intros (j & Hj & Hjl & Hh & Hb). destruct (decide (j = i)) as [->|Hne]; [left|right; exists j; split_and!; [lia|done..]].
        exists (bi_hostname b). subst k. done.
    + exists []. split; [done|]. intros b. split; [set_solver|]. intros (j & Hj & Hlt & _). nia.
Qed.

Definition files_ok (fs : list hdfsFileInfo) : Prop := forall f, f ∈ fs -> mKind f = kObjectKindFile -> 0 < mBlockSize f.
Lemma browse_files_spec fs : files_ok fs -> exists l, browse_files fs = Ok l /\
  forall b, b ∈ l <-> exists f, f ∈ fs /\ mKind f = kObjectKindFile /\ bi_filename b = block_name f /\ block_offset f (bi_offset b) /\
    bi_hostname b ∈ hdfsGetFileBlockLocations (mName f) (bi_offset b).
Proof.
  induction fs as [|f fs IH]; intros Hfs; cbn [browse_files].
  - exists []. split; [done|]. set_solver.
  - destruct IH as (l' & El' & Hl'); [intros g Hg; apply Hfs; by right|]. case_decide as Hk.
    + destruct (file_blocks_spec f (Z.to_nat (mSize f)) 0 0 (Hfs f ltac:(left) Hk)) as (l & -> & Hl); [lia|lia|lia|].
      rewrite El'. eexists. split; [done|]. intros b. rewrite elem_of_app, Hl, Hl'. unfold block_offset. split.
      * intros [(j & Hj & Hlt & Hh & ->)|(g & Hg & ?)]; [|exists g; split; [by right|done]].
        exists f. cbn in *. split_and!; [left|done|done|by exists j|done].
      * intros (g & [->|Hg]%elem_of_cons & Hkg & En & (j & Hj & Eo & Hlt) & Hh); [left|right; by eauto 10].
        exists j. rewrite Eo in Hh, Hlt. split_and!; [done..|]. destruct b as [n o h]. cbn in *. by subst.
    + exists l'. split; [done|]. intros b. rewrite Hl'. split.
      * intros (g & Hg & ?). exists g. split; [by right|done].
      * intros (g & [->|Hg]%elem_of_cons & Hkg & ?); [done|eauto 10].
Qed.

(** With a block size of 0 the loop over the blocks of a file that is not empty does not end. *)
Lemma zero_block_size_loops f fuel : mBlockSize f = 0 -> 0 < mSize f -> file_blocks fuel f 0 = Err (Undefined "out of fuel").
Proof.
  intros Hb Hs. induction fuel as [|fuel IH]; cbn [file_blocks]; rewrite (proj2 (Z.ltb_lt 0 (mSize f))) by done; [done|].
  by rewrite Hb, Z.add_0_l, IH.
Qed.

(** *** From a directory to its lines *)

(** [content name] is what the file holds, [hdfsRead name] how its readers get at it. *)
Context (content : string -> bytes) (hdfsRead : string -> nat -> nat).
Definition bs_of (f : hdfsFileInfo) : nat := Z.to_nat (mBlockSize f).
(** A text file that the block readers read right (see [BlockReader]). *)
Definition text_file_ok (f : hdfsFileInfo) : Prop :=
  let file := content (mName f) in
  mSize f = Z.of_nat (length file) /\ hdfsRead_in_block file (bs_of f) (hdfsRead (mName f)) /\
  (2 <= bs_of f)%nat /\ (2 <= length file)%nat /\ file !! 0%nat <> Some newline /\
  (forall k, (1 <= k < num_blocks file (bs_of f))%nat -> regular file (bs_of f) k).

Lemma append_char_inj (a b : string) c :
  a +:+ String.String c String.EmptyString = b +:+ String.String c String.EmptyString -> a = b.
Proof using.
  revert b. induction a as [|x a IH]; intros [|y b]; cbn; [done|..].
  - intros [= _ E]. by destruct b.
  - intros [= _ E]. by destruct a.
  - intros [= -> E]. by rewrite (IH b E).
Qed.

Lemma block_offset_nat f o : text_file_ok f -> block_offset f o <->
  exists k, (k < num_blocks (content (mName f)) (bs_of f))%nat /\ o = Z.of_nat (k * bs_of f).
Proof using.
  intros (Hsz & _ & Hbs & _). unfold block_offset, bs_of in *. split.
  - intros (i & Hi & -> & Hlt). exists (Z.to_nat i). split; [|lia]. apply num_blocks_spec; lia.
  - intros (k & Hk & ->). apply num_blocks_spec in Hk; [|lia]. exists (Z.of_nat k). split_and!; lia.
Qed.

End Browser.

(** ** Writing *)

(** The calls to the client and what they return: 0 for success, and for [hdfsWrite] the
    number of bytes written. *)
Inductive hdfs_call :=
| CCreateDirectory (dir : string) | COpenFile (url : string) | CWrite (buffer : bytes) | CFlush | CCloseFile.
Section Writer.
Context (client : hdfs_call -> Z).
Abbreviation WM := (M unit hdfs_call).

(** [dest_url.substr(0, dest_url.find_last_of("/"))]: the whole url when it has no slash. *)
Fixpoint last_slash (s : string) : option nat :=
  match s with
  | String.EmptyString => None
  | String.String c s' =>
      match last_slash s' with
      | Some i => Some (S i)
      | None => if decide (c = Ascii.ascii_of_nat 47) then Some 0%nat else None
      end
  end.
Definition dir_of (dest_url : string) : string :=
  match last_slash dest_url with Some i => String.substring 0 i dest_url | None => dest_url end.

Lemma write_without_slash : dir_of "out.txt" = "out.txt"%string /\ dir_of "/out/x.txt" = "/out"%string.
Proof. done. Qed.

Definition call (c : hdfs_call) : WM Z := emit c ;;; ret (client c).
Definition hdfs_Write (connect : nat -> bool) (dest_url : string) (buffer : bytes) : WM Z :=
  match GetFS connect with
  | Err e => throw e
  | Ok _ =>
      rc <-- call (CCreateDirectory (dir_of dest_url)) ;;
      check (rc =? 0) "cannot create directory" ;;;
      opened <-- call (COpenFile dest_url) ;;
      check (opened =? 0) "cannot open file" ;;;
      when (0 <? Z.of_nat (length buffer))
        (num_written <-- call (CWrite buffer) ;; check (num_written =? Z.of_nat (length buffer)) "num_written == len") ;;;
      rc <-- call CFlush ;; check (rc =? 0) "rc == 0" ;;;
      rc <-- call CCloseFile ;; check (rc =? 0) "rc == 0" ;;;
      ret 0
  end.

(** A write that returns has created the directory, opened the file, handed over the buffer
    unless it is empty, flushed and closed, in that order, and the client took it all. *)
Lemma hdfs_Write_returns connect dest_url buffer r s' os : hdfs_Write connect dest_url buffer tt = Ok (r, s', os) ->
  r = 0 /\ os = [CCreateDirectory (dir_of dest_url); COpenFile dest_url] ++
    (match buffer with [] => [] | _ => [CWrite buffer] end) ++ [CFlush; CCloseFile] /\
  (buffer <> [] -> client (CWrite buffer) = Z.of_nat (length buffer)).
Proof.
  intros Hw. refine (wp_Ok any _ _ _ _ _ (fun r _ os => _) Hw _). unfold hdfs_Write, call.
  destruct (GetFS connect); [|by wstep]. wsteps; (destruct buffer as [|x buffer]; [try done|try done]).
  all: split; [done|]; split; [done|]; intros _; by apply Z.eqb_eq.
Qed.
End Writer.

(** ** Witness: a directory with two files and a directory in it *)

Definition demo_dir : list hdfsFileInfo :=
  [{| mName := "/in/a"; mKind := kObjectKindFile; mSize := 15; mBlockSize := 4 |};
   {| mName := "/in/old"; mKind := kObjectKindDirectory; mSize := 0; mBlockSize := 0 |};
   {| mName := "/in/b"; mKind := kObjectKindFile; mSize := 5; mBlockSize := 8 |}].
Definition demo_content (n : string) : bytes :=
  if decide (n = "/in/a"%string) then text "ab/cde/fgh/i/jk" else text "xy/z/".
Definition demo_hdfsRead (n : string) : nat -> nat :=
  if decide (n = "/in/a"%string) then read_up_to 3 4 15 else read_up_to 3 8 5.

