(* ===== verification/SchedulerState.v ===== *)
(** * The scheduler's state and messages (core/scheduler/scheduler_elem.{hpp,cpp} and the
    private members of the managers in core/scheduler/*.hpp)

    The managers share one [SchedulerElem] and call each other, so the model has one state
    with a field per manager and one output type.  The callbacks the managers store
    ([std::function<void()>]) are closures over a few integers: here each closure the source
    creates is a constructor that holds what it captures, and the file of the scheduler says
    what invoking it does.  Timestamps, which are only logged, are left out. *)

From S2P Require Import Prelude BinStream Dag DagRunner Specs Index Messages Assigner CollectionStatus.

(** ** Messages to a worker: a [ScheduleFlag] and its content *)

Inductive worker_msg :=
| kUpdateCollection (collection_id : Z) (view : CollectionView)
| kLoadBlock (b : AssignedBlock)
| kDummy
| kExit
| kDistribute (part_id plan_id : Z) (spec : DistributeSpec)
| kCheckpoint (collection_id part_id : Z) (dest_url : string)
| kLoadCheckpoint (collection_id part_id : Z) (dest_url : string)
| kWritePartition (collection_id part_id : Z) (dest_url : string).

(** ** Messages to the scheduler *)

Inductive sched_msg :=
| kRegisterProgram (node_id num_local_threads : Z) (program : ProgramContext)
| kUpdateCollectionReply (collection_id node_id : Z)
| kFinishBlock (b : FinishedBlock)
| kFinishDistribute (collection_id part_id node_id plan_id : Z)
| kFinishCheckpointS (qid collection_id : Z)
| kFinishLoadCheckpoint (qid collection_id : Z)
| kFinishWritePartition (qid collection_id : Z)
| kControl (ctrl : ControllerMsg)
| kFinishPlan (plan_id : Z)
| kRecovery (dead_nodes : gset Z).

Inductive sched_out :=
| ToWorker (qid : Z) (m : worker_msg)
| ToController (qid plan_id : Z) (m : ctrl_msg)
| ToSelf (m : sched_msg)       (* ToScheduler: through the scheduler's own queue *)
| ExitPromise.                 (* exit_promise_.set_value() *)

(** ** Callbacks *)

(** The callback of [RecoverManager::Recover]. *)
Inductive recover_callback :=
| CbFinishRecovery                                     (* Scheduler::Recovery, first branch *)
| CbReassign (plan_id : Z) (reads : list (Z * string)) (* Scheduler::Recovery, second branch *).

Inductive callback :=
| CbFinishPlan (plan_id : Z)               (* Scheduler::RunPlan, FinishDistribute, FinishBlock *)
| CbCheckpointLoaded (cid : Z)             (* CheckpointManager::LoadCheckpoint *)
| CbAborted (dead_nodes : gset Z)          (* Scheduler::Recovery *)
| CbRecoverLoaded (cid : Z)                (* RecoverManager::Recover, Type::LoadCheckpoint *)
| CbRecoverUpdated (cid : Z)               (* RecoverManager::Recover, Type::UpdateCollectionMap *)
| CbWithLoaded (plan_id : Z) (meta : list (Z * Z * Z)) (with_cid : Z)
                                           (* ControlManager::PreBatchMigrate, outer *)
| CbWithUpdated (plan_id : Z) (meta : list (Z * Z * Z)). (* the same, inner *)

(** ** The managers *)

Record SchedulerElem := { collection_map : CollectionMap; nodes : gmap Z NodeInfo }.
#[export] Instance eta_Elem : Eta SchedulerElem := fun e =>
  {| collection_map := collection_map e; nodes := nodes e |}.

Record CollectionManager := {
  received_replies_ : gmap Z (gset Z); colm_callbacks_ : gmap Z callback }.
#[export] Instance eta_CollectionManager : Eta CollectionManager := fun c =>
  {| received_replies_ := received_replies_ c; colm_callbacks_ := colm_callbacks_ c |}.

Record CheckpointLoader := {
  loadcheckpoint_reply_count_map_ : gmap Z Z;
  expected_loadcheckpoint_reply_count_map_ : gmap Z Z;
  cpl_callbacks_ : gmap Z callback }.
#[export] Instance eta_CheckpointLoader : Eta CheckpointLoader := fun c =>
  {| loadcheckpoint_reply_count_map_ := loadcheckpoint_reply_count_map_ c;
     expected_loadcheckpoint_reply_count_map_ := expected_loadcheckpoint_reply_count_map_ c;
     cpl_callbacks_ := cpl_callbacks_ c |}.

(** CheckpointManager and WriteManager keep the same three maps. *)
Record ReplyCounter := {
  reply_count_map : gmap Z Z; expected_reply_count_map : gmap Z Z; cid_pid_ : gmap Z Z }.
#[export] Instance eta_ReplyCounter : Eta ReplyCounter := fun c =>
  {| reply_count_map := reply_count_map c; expected_reply_count_map := expected_reply_count_map c;
     cid_pid_ := cid_pid_ c |}.

Record DistributeManager := {
  part_expected_map_ : gmap Z Z; distribute_map_ : gmap Z (gmap Z Z) }.
#[export] Instance eta_DistributeManager : Eta DistributeManager := fun d =>
  {| part_expected_map_ := part_expected_map_ d; distribute_map_ := distribute_map_ d |}.

Record BlockManager := {
  assigners_ : gmap Z Assigner; stored_blocks_ : gmap Z (gmap Z StoredBlock);
  block_cid_pid_ : gmap Z Z }.
#[export] Instance eta_BlockManager : Eta BlockManager := fun b =>
  {| assigners_ := assigners_ b; stored_blocks_ := stored_blocks_ b; block_cid_pid_ := block_cid_pid_ b |}.

Record RecoverManager := {
  recovering_collections_ : gset Z; updating_collections_ : gset Z; started_ : bool;
  recover_callback_ : option recover_callback }.
#[export] Instance eta_RecoverManager : Eta RecoverManager := fun r =>
  {| recovering_collections_ := recovering_collections_ r;
     updating_collections_ := updating_collections_ r; started_ := started_ r;
     recover_callback_ := recover_callback_ r |}.

(** Part and node versions of one plan.  The source has six maps from plan ids to these
    tables, three for map and three for update; they are always indexed by the plan first,
    so the model keeps one [VTable] per plan and kind. *)
Record VTable := {
  part_versions : gmap Z Z; node_versions : gmap Z Z; node_count : gmap Z Z }.
#[export] Instance eta_VTable : Eta VTable := fun t =>
  {| part_versions := part_versions t; node_versions := node_versions t; node_count := node_count t |}.
Definition empty_table : VTable := {| part_versions := ∅; node_versions := ∅; node_count := ∅ |}.

Record ControlManager := {
  versions_ : gmap Z Z;
  expected_versions_ : gmap Z Z;
  is_setup_ : gmap Z (gset Z);
  is_finished_ : gmap Z (gset Z);
  specs_ : gmap Z SpecWrapper;
  parts_migrated : gmap Z (list Z);
  map_tables : gmap Z VTable;
  update_tables : gmap Z VTable;
  cp_count_ : gmap Z (gmap Z (gset Z));
  ctl_callbacks_ : gmap Z callback;
  cached_part_to_node_ : gmap Z (gmap Z (list Z)) }.
#[export] Instance eta_ControlManager : Eta ControlManager := fun c =>
  {| versions_ := versions_ c; expected_versions_ := expected_versions_ c;
     is_setup_ := is_setup_ c; is_finished_ := is_finished_ c; specs_ := specs_ c;
     parts_migrated := parts_migrated c; map_tables := map_tables c;
     update_tables := update_tables c; cp_count_ := cp_count_ c;
     ctl_callbacks_ := ctl_callbacks_ c; cached_part_to_node_ := cached_part_to_node_ c |}.

(** The runner the scheduler was configured with. *)
Inductive dag_runner := RSequential (r : SequentialDagRunner) | RWide (r : WideDagRunner).

Record Sch := {
  elem : SchedulerElem;
  collection_manager : CollectionManager;
  checkpoint_loader : CheckpointLoader;
  checkpoint_manager : ReplyCounter;
  write_manager : ReplyCounter;
  distribute_manager : DistributeManager;
  block_manager : BlockManager;
  recover_manager : RecoverManager;
  control_manager : ControlManager;
  collection_status : CollectionStatus;
  register_program_count_ : Z;
  init_program_ : bool;
  program_ : ProgramContext;
  dag_runner_ : option dag_runner }.
#[export] Instance eta_Sch : Eta Sch := fun s =>
  {| elem := elem s; collection_manager := collection_manager s;
     checkpoint_loader := checkpoint_loader s; checkpoint_manager := checkpoint_manager s;
     write_manager := write_manager s; distribute_manager := distribute_manager s;
     block_manager := block_manager s; recover_manager := recover_manager s;
     control_manager := control_manager s; collection_status := collection_status s;
     register_program_count_ := register_program_count_ s; init_program_ := init_program_ s;
     program_ := program_ s; dag_runner_ := dag_runner_ s |}.

Abbreviation SM := (M Sch sched_out).

Definition new_scheduler : Sch :=
  {| elem := {| collection_map := ∅; nodes := ∅ |};
     collection_manager := {| received_replies_ := ∅; colm_callbacks_ := ∅ |};
     checkpoint_loader := {| loadcheckpoint_reply_count_map_ := ∅;
       expected_loadcheckpoint_reply_count_map_ := ∅; cpl_callbacks_ := ∅ |};
     checkpoint_manager := {| reply_count_map := ∅; expected_reply_count_map := ∅; cid_pid_ := ∅ |};
     write_manager := {| reply_count_map := ∅; expected_reply_count_map := ∅; cid_pid_ := ∅ |};
     distribute_manager := {| part_expected_map_ := ∅; distribute_map_ := ∅ |};
     block_manager := {| assigners_ := ∅; stored_blocks_ := ∅; block_cid_pid_ := ∅ |};
     recover_manager := {| recovering_collections_ := ∅; updating_collections_ := ∅;
       started_ := false; recover_callback_ := None |};
     control_manager := {| versions_ := ∅; expected_versions_ := ∅; is_setup_ := ∅;
       is_finished_ := ∅; specs_ := ∅; parts_migrated := ∅; map_tables := ∅; update_tables := ∅;
       cp_count_ := ∅; ctl_callbacks_ := ∅; cached_part_to_node_ := ∅ |};
     collection_status := empty_status;
     register_program_count_ := 0; init_program_ := false;
     program_ := {| specs := []; dag := empty_dag |}; dag_runner_ := None |}.

(** ** Running a manager inside the scheduler *)

Definition on_status {A} (m : M CollectionStatus Empty_set A) : SM A :=
  zoom collection_status (fun c s => s <| collection_status := c |>)
    (fun o : Empty_set => match o with end) m.
Definition mod_ctl (f : ControlManager -> ControlManager) : SM unit :=
  modify (fun s => s <| control_manager ::= f |>).
Definition mod_recover (f : RecoverManager -> RecoverManager) : SM unit :=
  modify (fun s => s <| recover_manager ::= f |>).

(** ** Sending (scheduler_elem.cpp) *)

Definition node_ids (e : SchedulerElem) : list Z :=
  (fun kv => node_host_id (info_node kv.2)) <$> entries (nodes e).

Definition SendToAllWorkers (m : worker_msg) : SM unit :=
  s <-- get ;; emits ((fun n => ToWorker (GetWorkerQid n) m) <$> node_ids (elem s)).
Definition SendTo (node_id : Z) (m : worker_msg) : SM unit :=
  emit (ToWorker (GetWorkerQid node_id) m).
Definition ToScheduler (m : sched_msg) : SM unit := emit (ToSelf m).
Definition SendToAllControllers (plan_id : Z) (m : ctrl_msg) : SM unit :=
  s <-- get ;; emits ((fun n => ToController (GetControllerActorQid n) plan_id m) <$> node_ids (elem s)).
Definition SendToController (node_id plan_id : Z) (m : ctrl_msg) : SM unit :=
  emit (ToController (GetControllerActorQid node_id) plan_id m).

(** [elem_->collection_map->Get(cid)] and a later assignment through the reference. *)
Definition view_of (cid : Z) : SM CollectionView := s <-- get ;; cmap_Get cid (collection_map (elem s)).
Definition put_view (cid : Z) (cv : CollectionView) : SM unit :=
  modify (fun s => s <| elem ::= fun e => e <| collection_map ::= <[cid := cv]> |> |>).

(** Number of live nodes: [elem_->nodes.size()]. *)
Definition num_nodes (s : Sch) : Z := Z.of_nat (size (nodes (elem s))).

(** [v[i]] of an [std::vector<int>]: unchecked. *)
Definition at_index {S O A} (l : list A) (i : Z) (what : string) : M S O A :=
  deref (if 0 <=? i then l !! Z.to_nat i else None) what.

(** ** Reasoning about sends and lookups *)

Lemma wp_view_of E cid cv s (Q : CollectionView -> Sch -> list sched_out -> Prop) :
  collection_map (elem s) !! cid = Some cv -> Q cv s [] -> wp E (view_of cid) s Q.
Proof.
  intros Hcv HQ. unfold view_of, cmap_Get. apply wp_bind, wp_get. rewrite Hcv.
  by apply wp_bind, wp_check; [intros _; apply wp_deref; [intros _ [= <-]|]|].
Qed.

(** A loop over the indices of a vector whose body sends one message per element. *)
Lemma for_each_indexed {S O A} (l : list A) (body : Z -> M S O unit) (g : Z -> A -> O) s :
  (forall j x, l !! j = Some x -> body (Z.of_nat j) s = Ok (tt, s, [g (Z.of_nat j) x])) ->
  for_each (seqZ 0 (Z.of_nat (length l))) body s =
  Ok (tt, s, zip_with g (seqZ 0 (Z.of_nat (length l))) l).
Proof.
  induction l as [|x l IH] using rev_ind; intros Hb; [done|]. apply wp_exact.
  rewrite length_app, Nat.add_1_r, seqZ_snoc. apply for_each_app. unfold wp at 1.
  rewrite IH by (intros j y Hj; by apply Hb, lookup_app_l_Some).
  cbn. unfold wp, bind. rewrite (Hb (length l) x) by (by rewrite list_lookup_middle).
  unfold ret. cbn. split_and!; try done.
  rewrite zip_with_app by apply length_zip_seqZ. done.
Qed.
