(* ===== verification/Managers.v ===== *)
(** * The small managers of the scheduler (core/scheduler/collection_manager.cpp,
    checkpoint_loader.cpp, checkpoint_manager.cpp, write_manager.cpp,
    distribute_manager.cpp, block_manager.cpp, recover_manager.cpp)

    Each sends a batch of requests to the workers, counts the replies and then invokes the
    callback it was given or reports the end of the plan.  What invoking a callback does is
    the variable [invoke], which the file of the scheduler instantiates. *)

From S2P Require Import Prelude BinStream Specs Index Messages Assigner CollectionStatus SchedulerState.

(** ** CollectionManager: push a collection view to all workers *)

Definition mod_colm (f : CollectionManager -> CollectionManager) : SM unit :=
  modify (fun s => s <| collection_manager ::= f |>).

(** [callbacks_.insert] keeps a callback that is already there. *)
Definition Update (collection_id : Z) (f : callback) : SM unit :=
  mod_colm (fun c => c <| colm_callbacks_ ::= fun m => insert_new m (collection_id, f) |>
                       <| received_replies_ ::= <[collection_id := ∅]> |>) ;;;
  cv <-- view_of collection_id ;;
  SendToAllWorkers (kUpdateCollection collection_id cv).

Section with_callbacks.
Context (invoke : callback -> SM unit).

Definition FinishUpdate (collection_id node_id : Z) : SM unit :=
  mod_colm (fun c => c <| received_replies_ ::= fun m =>
    <[collection_id := default ∅ (m !! collection_id) ∪ {[node_id]}]> m |>) ;;;
  s <-- get ;;
  let c := collection_manager s in
  when (Z.of_nat (size (default ∅ (received_replies_ c !! collection_id))) =? num_nodes s)
    (mod_colm (fun c => c <| received_replies_ ::= <[collection_id := ∅]> |>) ;;;
     check (bool_decide (is_Some (colm_callbacks_ c !! collection_id))) "callbacks_.find(collection_id) != end" ;;;
     f <-- deref (colm_callbacks_ c !! collection_id) "callbacks_[collection_id]" ;;
     invoke f ;;;
     mod_colm (fun c => c <| colm_callbacks_ ::= delete collection_id |>)).

(** ** CheckpointLoader *)

Definition mod_cpl (f : CheckpointLoader -> CheckpointLoader) : SM unit :=
  modify (fun s => s <| checkpoint_loader ::= f |>).

Definition SendLoadCommand (cid part_id node_id : Z) (url : string) : SM unit :=
  SendTo node_id (kLoadCheckpoint cid part_id (GetCheckpointUrl url cid part_id)).

Definition LoadCheckpoint (cid : Z) (url : string) (f : callback) : SM unit :=
  cv <-- view_of cid ;;
  let n := mapper_GetNumParts (view_mapper cv) in
  mod_cpl (fun c => c <| loadcheckpoint_reply_count_map_ ::= <[cid := 0]> |>
                      <| expected_loadcheckpoint_reply_count_map_ ::= <[cid := n]> |>
                      <| cpl_callbacks_ ::= fun m => insert_new m (cid, f) |>) ;;;
  for_each (seqZ 0 n) (fun i =>
    node_id <-- mapper_Get i (view_mapper cv) ;; SendLoadCommand cid i node_id url).

Definition LoadCheckpointPartial (cid : Z) (url : string) (parts : list Z) (f : callback) : SM unit :=
  mod_cpl (fun c => c <| loadcheckpoint_reply_count_map_ ::= <[cid := 0]> |>
                      <| cpl_callbacks_ ::= fun m => insert_new m (cid, f) |>
                      <| expected_loadcheckpoint_reply_count_map_ ::= <[cid := Z.of_nat (length parts)]> |>) ;;;
  cv <-- view_of cid ;;
  for_each parts (fun part_id =>
    node_id <-- mapper_Get part_id (view_mapper cv) ;; SendLoadCommand cid part_id node_id url).

Definition FinishLoadCheckpoint (collection_id : Z) : SM unit :=
  mod_cpl (fun c => c <| loadcheckpoint_reply_count_map_ ::= fun m =>
    <[collection_id := lookup_or 0 collection_id m + 1]> m |>) ;;;
  s <-- get ;;
  let c := checkpoint_loader s in
  when (lookup_or 0 collection_id (loadcheckpoint_reply_count_map_ c) =?
        lookup_or 0 collection_id (expected_loadcheckpoint_reply_count_map_ c))
    (check (bool_decide (is_Some (cpl_callbacks_ c !! collection_id))) "callbacks_.find(collection_id) != end" ;;;
     f <-- deref (cpl_callbacks_ c !! collection_id) "callbacks_[collection_id]" ;;
     invoke f ;;;
     mod_cpl (fun c => c <| cpl_callbacks_ ::= delete collection_id |>)).

(** ** CheckpointManager *)

Definition mod_cpm (f : ReplyCounter -> ReplyCounter) : SM unit :=
  modify (fun s => s <| checkpoint_manager ::= f |>).

Definition start_counting (cid plan_id expected : Z) (c : ReplyCounter) : ReplyCounter :=
  c <| cid_pid_ ::= <[cid := plan_id]> |> <| reply_count_map ::= <[cid := 0]> |>
    <| expected_reply_count_map ::= <[cid := expected]> |>.
Definition count_reply (cid : Z) (c : ReplyCounter) : ReplyCounter :=
  c <| reply_count_map ::= fun m => <[cid := lookup_or 0 cid m + 1]> m |>.
Definition all_replied (cid : Z) (c : ReplyCounter) : bool :=
  lookup_or 0 cid (reply_count_map c) =? lookup_or 0 cid (expected_reply_count_map c).

Definition Checkpoint (w : SpecWrapper) : SM unit :=
  sp <-- GetCheckpointSpec w ;;
  let cid := cp_cid sp in
  cv <-- view_of cid ;;
  let n := mapper_GetNumParts (view_mapper cv) in
  mod_cpm (start_counting cid (spec_id w) n) ;;;
  for_each (seqZ 0 n) (fun i =>
    node_id <-- mapper_Get i (view_mapper cv) ;;
    SendTo node_id (kCheckpoint cid i (GetCheckpointUrl (cp_url sp) cid i))) ;;;
  on_status (AddCP cid (cp_url sp)).

(** The url of the specification is not used: the last checkpoint is loaded. *)
Definition cpm_LoadCheckpoint (w : SpecWrapper) : SM unit :=
  sp <-- GetLoadCheckpointSpec w ;;
  let cid := lcp_cid sp in
  mod_cpm (fun c => c <| cid_pid_ ::= <[cid := spec_id w]> |>) ;;;
  url <-- on_status (GetLastCP cid) ;;
  LoadCheckpoint cid url (CbCheckpointLoaded cid).

Definition FinishCheckpoint (collection_id : Z) : SM unit :=
  mod_cpm (count_reply collection_id) ;;;
  s <-- get ;;
  let c := checkpoint_manager s in
  when (all_replied collection_id c)
    (ToScheduler (kFinishPlan (lookup_or 0 collection_id (cid_pid_ c))) ;;;
     mod_cpm (fun c => c <| cid_pid_ ::= delete collection_id |>)).

(** ** WriteManager *)

Definition mod_wm (f : ReplyCounter -> ReplyCounter) : SM unit :=
  modify (fun s => s <| write_manager ::= f |>).

Definition Write (w : SpecWrapper) : SM unit :=
  sp <-- GetWriteSpec w ;;
  let id := write_collection_id sp in
  cv <-- view_of id ;;
  let n := mapper_GetNumParts (view_mapper cv) in
  mod_wm (start_counting id (spec_id w) n) ;;;
  for_each (seqZ 0 n) (fun i =>
    node_id <-- mapper_Get i (view_mapper cv) ;;
    SendTo node_id (kWritePartition id i (write_url sp +:+ "/part-" +:+ pretty i))).

Definition FinishWritePartition (collection_id : Z) : SM unit :=
  mod_wm (count_reply collection_id) ;;;
  s <-- get ;;
  let c := write_manager s in
  when (all_replied collection_id c)
    (ToScheduler (kFinishPlan (lookup_or 0 collection_id (cid_pid_ c)))).

(** ** DistributeManager *)

Definition mod_dm (f : DistributeManager -> DistributeManager) : SM unit :=
  modify (fun s => s <| distribute_manager ::= f |>).

(** [node_iter] walks the map of nodes and starts again at its end: the [i]-th partition
    goes to the [i mod n]-th of the [n] nodes. *)
Definition Distribute (w : SpecWrapper) : SM unit :=
  sp <-- deref (match spec w with SDistribute s => Some s | _ => None end) "static_cast<DistributeSpec*>" ;;
  mod_dm (fun d => d <| part_expected_map_ ::= <[spec_id w := dist_num_partition sp]> |>) ;;;
  s <-- get ;;
  let ns := node_ids (elem s) in
  for_each (seqZ 0 (dist_num_partition sp)) (fun i =>
    check (negb (bool_decide (ns = []))) "node_iter != elem_->nodes.end()" ;;;
    n <-- deref (ns !! Z.to_nat (i mod Z.of_nat (length ns))) "node_iter->second" ;;
    emit (ToWorker (GetWorkerQid n) (kDistribute i (spec_id w) sp))).

(** [part_to_node[i] = m[i]] for every part, each of which must be there. *)
Definition part_to_node_of (m : gmap Z Z) (n : Z) : SM (list Z) :=
  check (forallb (fun i => bool_decide (is_Some (m !! i))) (seqZ 0 n)) "every part is known" ;;;
  ret ((fun i => lookup_or 0 i m) <$> seqZ 0 n).

Definition new_view (cid : Z) (part_to_node : list Z) : CollectionView :=
  {| view_collection_id := cid; view_num_partition := Z.of_nat (length part_to_node);
     view_mapper := {| v_ := part_to_node |} |}.

Definition FinishDistribute (collection_id part_id node_id plan_id : Z) : SM unit :=
  mod_dm (fun d => d <| distribute_map_ ::= fun m =>
    <[collection_id := <[part_id := node_id]> (lookup_or ∅ collection_id m)]> m |>) ;;;
  s <-- get ;;
  let d := distribute_manager s in
  let m := lookup_or ∅ collection_id (distribute_map_ d) in
  let expected := lookup_or 0 plan_id (part_expected_map_ d) in
  when (Z.of_nat (size m) =? expected)
    (p2n <-- part_to_node_of m expected ;;
     put_view collection_id (new_view collection_id p2n) ;;;
     Update collection_id (CbFinishPlan plan_id)).

(** ** BlockManager *)

Definition on_assigner {A} (cid : Z) (m : M Assigner (Z * AssignedBlock) A) : SM A :=
  zoom (fun s => lookup_or new_assigner cid (assigners_ (block_manager s)))
    (fun a s => s <| block_manager ::= fun b => b <| assigners_ ::= <[cid := a]> |> |>)
    (fun o => ToWorker (GetWorkerQid o.1) (kLoadBlock o.2)) m.
Definition mod_bm (f : BlockManager -> BlockManager) : SM unit :=
  modify (fun s => s <| block_manager ::= f |>).

(** [browse] and [get_ip] are the file system and the host-name lookup. *)
Definition bm_Load (browse : string -> list BlockInfo) (get_ip : string -> string) (w : SpecWrapper) : SM unit :=
  sp <-- GetLoadSpec w ;;
  s <-- get ;;
  let infos := (entries (nodes (elem s))).*2 in
  let cid := load_collection_id sp in
  mod_bm (fun b => b <| assigners_ ::= <[cid := new_assigner]> |>) ;;;
  on_assigner cid (Load get_ip (browse (load_url sp)) cid
    ((fun i => (hostname (info_node i), node_host_id (info_node i))) <$> infos)
    (num_local_threads <$> infos) (is_load_meta sp) (is_whole_file sp)) ;;;
  mod_bm (fun b => b <| block_cid_pid_ ::= <[cid := spec_id w]> |>).

Definition bm_FinishBlock (fb : FinishedBlock) : SM unit :=
  let cid := fb_collection_id fb in
  s <-- get ;;
  deref (assigners_ (block_manager s) !! cid) "assigners_[block.collection_id]" ;;;
  done <-- on_assigner cid (FinishBlock fb) ;;
  when done
    (s <-- get ;;
     let blocks := GetFinishedBlocks (lookup_or new_assigner cid (assigners_ (block_manager s))) in
     mod_bm (fun b => b <| stored_blocks_ ::= <[cid := blocks]> |>) ;;;
     p2n <-- part_to_node_of (sb_node_id <$> blocks) (Z.of_nat (size blocks)) ;;
     put_view cid (new_view cid p2n) ;;;
     Update cid (CbFinishPlan (lookup_or 0 cid (block_cid_pid_ (block_manager s))))).
End with_callbacks.

(** ** RecoverManager *)

Inductive RecoverType := RtLoadCheckpoint | RtUpdateCollectionMap.

(** The loop of [ReplaceDeadnodesAndReturnUpdated]: [k] parts were moved so far; the new
    nodes are taken from the live ones in turn. *)
Fixpoint replace_dead (dead_nodes : gset Z) (live : list Z) (i : Z) (k : nat) (part_to_node : list Z) :
    SM (list Z * list Z) :=
  match part_to_node with
  | [] => ret ([], [])
  | node_id :: rest =>
      if bool_decide (node_id ∈ dead_nodes) then
        n <-- deref (live !! (k mod length live)%nat) "live_node_iter->second" ;;
        r <-- replace_dead dead_nodes live (i + 1) (S k) rest ;;
        ret (n :: r.1, i :: r.2)
      else
        r <-- replace_dead dead_nodes live (i + 1) k rest ;;
        ret (node_id :: r.1, r.2)
  end.

Definition ReplaceDeadnodesAndReturnUpdated (cid : Z) (dead_nodes : gset Z) : SM (list Z) :=
  cv <-- view_of cid ;;
  s <-- get ;;
  r <-- replace_dead dead_nodes (node_ids (elem s)) 0 0 (v_ (view_mapper cv)) ;;
  put_view cid (cv <| view_mapper := {| v_ := r.1 |} |>) ;;;
  ret r.2.

Definition Recover (dead_nodes : gset Z) (writes reads : list (Z * string)) (cb : recover_callback) : SM unit :=
  s <-- get ;;
  check (negb (started_ (recover_manager s))) "started_ == false" ;;;
  mod_recover (fun _ => {| recovering_collections_ := ∅; updating_collections_ := ∅;
                           started_ := true; recover_callback_ := Some cb |}) ;;;
  for_each writes (fun w =>
    mod_recover (fun r => r <| recovering_collections_ ::= (.∪ {[w.1]}) |>) ;;;
    ReplaceDeadnodesAndReturnUpdated w.1 dead_nodes ;;;
    LoadCheckpoint w.1 w.2 (CbRecoverLoaded w.1)) ;;;
  for_each reads (fun r =>
    mod_recover (fun m => m <| recovering_collections_ ::= (.∪ {[r.1]}) |>) ;;;
    updates <-- ReplaceDeadnodesAndReturnUpdated r.1 dead_nodes ;;
    LoadCheckpointPartial r.1 r.2 updates (CbRecoverLoaded r.1)) ;;;
  for_each (writes ++ reads) (fun c =>
    mod_recover (fun r => r <| updating_collections_ ::= (.∪ {[c.1]}) |>) ;;;
    Update c.1 (CbRecoverUpdated c.1)).

Definition RecoverDoneForACollection (invoke_recover : recover_callback -> SM unit) (cid : Z)
    (type : RecoverType) : SM unit :=
  s <-- get ;;
  check (started_ (recover_manager s)) "started_" ;;;
  match type with
  | RtLoadCheckpoint =>
      check (bool_decide (cid ∈ recovering_collections_ (recover_manager s)))
        "recovering_collections_.find(cid) != end" ;;;
      mod_recover (fun r => r <| recovering_collections_ ::= (.∖ {[cid]}) |>)
  | RtUpdateCollectionMap =>
      check (bool_decide (cid ∈ updating_collections_ (recover_manager s)))
        "updating_collections_.find(cid) != end" ;;;
      mod_recover (fun r => r <| updating_collections_ ::= (.∖ {[cid]}) |>)
  end ;;;
  s <-- get ;;
  let r := recover_manager s in
  when (bool_decide (recovering_collections_ r = ∅ /\ updating_collections_ r = ∅))
    (mod_recover (fun r => r <| started_ := false |>) ;;;
     check (bool_decide (is_Some (recover_callback_ r))) "callback_ != nullptr" ;;;
     cb <-- deref (recover_callback_ r) "callback_" ;;
     invoke_recover cb ;;;
     mod_recover (fun r => r <| recover_callback_ := None |>)).
