(* ===== verification/ControlManager.v ===== *)
(** * The control manager: versions of a running plan and migration
    (core/scheduler/control_manager.{hpp,cpp})

    Every plan controller reports each finished map (kMap) and each finished update of a
    partition (kJoin).  The control manager keeps, for every partition, the number of
    iterations it finished, for every node the minimum over its partitions and how many
    partitions are at that minimum, and for the plan the minimum over the update
    partitions, which it broadcasts when it advances.  Migration moves a partition between
    nodes and has to move it in these tables too.  The code between [#ifdef WITH_LB] and
    [WITH_LB_JOIN] is not compiled; [BGCP] is [false]. *)

From S2P Require Import Prelude BinStream Specs Index Messages CollectionStatus SchedulerState Managers.

(** ** The version tables *)

Section tables.
Context {O : Type}.
Abbreviation TM := (M VTable O).

(** The number of parts on [node_id] at [version]. *)
Fixpoint count_parts (part_to_node : list Z) (node_id version : Z) (pvs : list (Z * Z)) : TM Z :=
  match pvs with
  | [] => ret 0
  | pv :: pvs' =>
      n <-- at_index part_to_node pv.1 "part_to_node_map[pv.first]" ;;
      c <-- count_parts part_to_node node_id version pvs' ;;
      ret ((if (n =? node_id) && (pv.2 =? version) then 1 else 0) + c)
  end.

(** The common part of [HandleUpdateMapVersion] and [HandleUpdateJoinVersion]: the result
    says that the version of the part's node advanced. *)
Definition advance (part_to_node : list Z) (part_id version : Z) : TM bool :=
  t <-- get ;;
  check (lookup_or 0 part_id (part_versions t) + 1 =? version) "version updated by 1 every time" ;;;
  modify (fun t => t <| part_versions ::= <[part_id := version]> |>) ;;;
  node_id <-- at_index part_to_node part_id "part_to_node_map[ctrl.part_id]" ;;
  modify (fun t => t <| node_versions ::= touch 0 node_id |>) ;;;
  t <-- get ;;
  if lookup_or 0 node_id (node_versions t) =? version - 1 then
    check (0 <? lookup_or 0 node_id (node_count t)) "node_count[node_id] > 0" ;;;
    modify (fun t => t <| node_count ::= fun m => <[node_id := lookup_or 0 node_id m - 1]> m |>) ;;;
    t <-- get ;;
    if lookup_or 0 node_id (node_count t) =? 0 then
      modify (fun t => t <| node_versions ::= fun m => <[node_id := lookup_or 0 node_id m + 1]> m |>) ;;;
      t <-- get ;;
      n <-- count_parts part_to_node node_id (lookup_or 0 node_id (node_versions t))
              (entries (part_versions t)) ;;
      modify (fun t => t <| node_count ::= <[node_id := n]> |>) ;;;
      ret true
    else ret false
  else ret false.
End tables.

(** [BatchMigrate]: the minimum and count of [from_id] over the parts it still has;
    reading a part's version creates a missing entry. *)
Definition touch_parts (parts : list Z) (t : VTable) : VTable :=
  t <| part_versions ::= fun m => foldl (fun m i => touch 0 i m) m parts |>.
Definition recount (part_to_node : list Z) (from_id : Z) (t : VTable) : VTable :=
  let parts := GetNodeParts from_id {| v_ := part_to_node |} in
  let version i := lookup_or 0 i (part_versions t) in
  let new_min := foldl (fun m i => if version i <? m then version i else m) 1000000 parts in
  let count := Z.of_nat (length (filter (fun i => version i = new_min) parts)) in
  touch_parts parts t <| node_count ::= <[from_id := count]> |>
                      <| node_versions ::= <[from_id := new_min]> |>.

(** The receiving node; [key] is the index the count is incremented at. *)
Definition enter_node (to_id part_id key : Z) (t : VTable) : VTable :=
  let t := t <| part_versions ::= touch 0 part_id |> <| node_versions ::= touch 0 to_id |> in
  let pv := lookup_or 0 part_id (part_versions t) in
  let nv := lookup_or 0 to_id (node_versions t) in
  if pv <? nv then
    t <| node_count ::= <[to_id := 1]> |> <| node_versions ::= <[to_id := pv]> |>
  else if pv =? nv then
    t <| node_count ::= fun m => <[key := lookup_or 0 key m + 1]> m |>
  else t.

Definition on_map_table {A} (plan_id : Z) (m : M VTable sched_out A) : SM A :=
  zoom (fun s => lookup_or empty_table plan_id (map_tables (control_manager s)))
    (fun t s => s <| control_manager ::= fun c => c <| map_tables ::= <[plan_id := t]> |> |>) id m.
Definition on_update_table {A} (plan_id : Z) (m : M VTable sched_out A) : SM A :=
  zoom (fun s => lookup_or empty_table plan_id (update_tables (control_manager s)))
    (fun t s => s <| control_manager ::= fun c => c <| update_tables ::= <[plan_id := t]> |> |>) id m.

(** [specs_[plan_id]], whose [spec] is null for an unknown plan. *)
Definition spec_of (plan_id : Z) : SM SpecWrapper :=
  s <-- get ;; deref (specs_ (control_manager s) !! plan_id) "specs_[plan_id].spec".
Definition version_of (plan_id : Z) (s : Sch) : Z := lookup_or 0 plan_id (versions_ (control_manager s)).
Definition expected_version (plan_id : Z) (s : Sch) : Z :=
  lookup_or 0 plan_id (expected_versions_ (control_manager s)).
Definition map_table (plan_id : Z) (s : Sch) : VTable :=
  lookup_or empty_table plan_id (map_tables (control_manager s)).
Definition update_table (plan_id : Z) (s : Sch) : VTable :=
  lookup_or empty_table plan_id (update_tables (control_manager s)).

(** ** Versions *)

Definition checkpoint_dir (sp : MapJoinSpec) (version : Z) : string :=
  checkpoint_path sp +:+ "/cp-" +:+ pretty (Z.quot version (checkpoint_interval sp)).

Definition UpdateVersion (plan_id : Z) : SM unit :=
  w <-- spec_of plan_id ;;
  sp <-- GetMapJoinSpec w ;;
  mod_ctl (fun c => c <| versions_ ::= fun m => <[plan_id := lookup_or 0 plan_id m + 1]> m |>) ;;;
  s <-- get ;;
  let v := version_of plan_id s in
  when (negb (checkpoint_interval sp =? 0) && (Z.rem v (checkpoint_interval sp) =? 0))
    (check (negb (bool_decide (checkpoint_path sp = ""))) "checkpoint_path.size()" ;;;
     on_status (AddCP (update_collection_id sp) (checkpoint_dir sp v))) ;;;
  if v =? expected_version plan_id s then SendToAllControllers plan_id kTerminatePlan
  else SendToAllControllers plan_id (kUpdateVersion v).

Definition HandleUpdateMapVersion (ctrl : ControllerMsg) : SM unit :=
  w <-- spec_of (c_plan_id ctrl) ;;
  sp <-- cast_MapJoin w ;;
  cv <-- view_of (map_collection_id sp) ;;
  on_map_table (c_plan_id ctrl)
    (advance (v_ (view_mapper cv)) (c_part_id ctrl) (c_version ctrl)) ;;;
  ret tt.

(** No node that has an update partition is still at the plan's version. *)
Definition all_nodes_passed (t : VTable) (version : Z) : bool :=
  forallb (fun nv => (lookup_or 0 nv.1 (node_count t) =? 0) || negb (nv.2 =? version))
    (entries (node_versions t)).

Definition HandleUpdateJoinVersion (ctrl : ControllerMsg) : SM unit :=
  w <-- spec_of (c_plan_id ctrl) ;;
  sp <-- cast_MapJoin w ;;
  cv <-- view_of (update_collection_id sp) ;;
  advanced <-- on_update_table (c_plan_id ctrl)
    (advance (v_ (view_mapper cv)) (c_part_id ctrl) (c_version ctrl)) ;;
  when advanced
    (s <-- get ;;
     when (all_nodes_passed (update_table (c_plan_id ctrl) s) (version_of (c_plan_id ctrl) s))
       (UpdateVersion (c_plan_id ctrl))).

Definition GetCurVersion (plan_id : Z) (s : Sch) : Z := version_of plan_id s.

(** Only sent when [BGCP] is [true]. *)
Definition ReceiveFinishCP (plan_id part_id version : Z) : SM unit :=
  s <-- get ;;
  if version_of plan_id s =? expected_version plan_id s then ret tt else
  mod_ctl (fun c => c <| cp_count_ ::= fun m =>
    let vs := lookup_or ∅ plan_id m in
    <[plan_id := <[version := lookup_or ∅ version vs ∪ {[part_id]}]> vs]> m |>) ;;;
  w <-- spec_of plan_id ;;
  sp <-- GetMapJoinSpec w ;;
  cv <-- view_of (map_collection_id sp) ;;
  s <-- get ;;
  let parts := lookup_or ∅ version (lookup_or ∅ plan_id (cp_count_ (control_manager s))) in
  when ((Z.of_nat (size parts) =? view_num_partition cv) && negb (checkpoint_interval sp =? 0))
    (check (negb (bool_decide (checkpoint_path sp = ""))) "checkpoint_path.size()" ;;;
     on_status (AddCP (update_collection_id sp) (checkpoint_dir sp (version_of plan_id s)))).

(** ** Starting and ending a plan *)

Definition RunPlan (w : SpecWrapper) (f : callback) : SM unit :=
  check (bool_decide (spec_type w = TMapJoin) || bool_decide (spec_type w = TMapWithJoin))
    "type == kMapJoin || type == kMapWithJoin" ;;;
  let plan_id := spec_id w in
  sp <-- cast_MapJoin w ;;
  mod_ctl (fun c => c <| specs_ ::= <[plan_id := w]> |> <| is_setup_ ::= <[plan_id := ∅]> |>
                      <| is_finished_ ::= <[plan_id := ∅]> |> <| versions_ ::= <[plan_id := 0]> |>
                      <| expected_versions_ ::= <[plan_id := num_iter sp]> |>) ;;;
  check (negb (num_iter sp =? 0)) "expected_versions_[plan_id] != 0" ;;;
  mod_ctl (fun c => c <| ctl_callbacks_ ::= <[plan_id := f]> |>) ;;;
  SendToAllControllers plan_id (kSetup w).

Definition AbortPlan (plan_id : Z) (f : callback) : SM unit :=
  s <-- get ;;
  check (bool_decide (is_Some (ctl_callbacks_ (control_manager s) !! plan_id)))
    "callbacks_.find(plan_id) != end" ;;;
  mod_ctl (fun c => c <| ctl_callbacks_ ::= <[plan_id := f]> |>) ;;;
  SendToAllControllers plan_id kTerminatePlan.

Definition reset_nodes (ns : list Z) (t : VTable) : VTable :=
  foldl (fun t n => t <| node_versions ::= <[n := 0]> |> <| node_count ::= <[n := 0]> |>) t ns.
Definition reset_parts (part_to_node : list Z) (t : VTable) : VTable :=
  foldl (fun t iv => t <| node_count ::= fun m => <[iv.2 := lookup_or 0 iv.2 m + 1]> m |>
                       <| part_versions ::= <[iv.1 := 0]> |>)
    t (zip (seqZ 0 (Z.of_nat (length part_to_node))) part_to_node).

Definition Init (plan_id : Z) : SM unit :=
  s <-- get ;;
  let ns := node_ids (elem s) in
  on_map_table plan_id (modify (reset_nodes ns)) ;;;
  on_update_table plan_id (modify (reset_nodes ns)) ;;;
  w <-- spec_of plan_id ;;
  sp <-- cast_MapJoin w ;;
  mv <-- view_of (map_collection_id sp) ;;
  on_map_table plan_id (modify (reset_parts (v_ (view_mapper mv)))) ;;;
  uv <-- view_of (update_collection_id sp) ;;
  on_update_table plan_id (modify (reset_parts (v_ (view_mapper uv)))) ;;;
  mod_ctl (fun c => c <| cached_part_to_node_ ::= fun m =>
    <[plan_id := <[map_collection_id sp := v_ (view_mapper mv)]> (lookup_or ∅ plan_id m)]> m |>).

(** ** Migration *)

Abbreviation migration := (Z * Z * Z)%type.   (* from_id, to_id, part_id *)

(** [CHECK_EQ(part_to_node[part_id], from_id); part_to_node[part_id] = to_id] *)
Definition move_part (cid : Z) (m : migration) : SM CollectionView :=
  let '(from_id, to_id, part_id) := m in
  cv <-- view_of cid ;;
  n <-- at_index (v_ (view_mapper cv)) part_id "part_to_node[part_id]" ;;
  check (n =? from_id) "part_to_node[part_id] == from_id" ;;;
  let cv' := cv <| view_mapper := {| v_ := <[Z.to_nat part_id := to_id]> (v_ (view_mapper cv)) |} |> in
  put_view cid cv' ;;;
  ret cv'.

(** The update table when [part_id] leaves [from_id]. *)
Definition leave_update (part_to_node : list Z) (m : migration) (version : Z) : M VTable sched_out unit :=
  let '(from_id, _, part_id) := m in
  modify (fun t => t <| part_versions ::= touch 0 part_id |> <| node_versions ::= touch 0 from_id |>) ;;;
  t <-- get ;;
  check (lookup_or 0 part_id (part_versions t) =? version) "only migrate for the minimum version" ;;;
  check (lookup_or 0 part_id (part_versions t) =? lookup_or 0 from_id (node_versions t))
    "update_part_versions_ == update_node_versions_" ;;;
  let count := lookup_or 0 from_id (node_count t) in
  if 1 <? count then modify (fun t => t <| node_count ::= <[from_id := count - 1]> |>)
  else if count =? 1 then modify (recount part_to_node from_id)
  else check false "update_node_count_[plan_id][from_id] >= 1".

(** The map table, when map and update collection are the same. *)
Definition leave_map (part_to_node : list Z) (m : migration) (t : VTable) : VTable :=
  let '(from_id, _, part_id) := m in
  let t := t <| part_versions ::= touch 0 part_id |> <| node_versions ::= touch 0 from_id |> in
  if lookup_or 0 from_id (node_versions t) =? lookup_or 0 part_id (part_versions t) then
    let count := lookup_or 0 from_id (node_count t) in
    if 1 <? count then t <| node_count ::= <[from_id := count - 1]> |>
    else recount part_to_node from_id t
  else t.

Definition migrate_one (plan_id : Z) (sp : MapJoinSpec) (m : migration) : SM unit :=
  let '(from_id, to_id, part_id) := m in
  let cid := update_collection_id sp in
  cv0 <-- view_of cid ;;
  check ((0 <=? part_id) && (part_id <? mapper_GetNumParts (view_mapper cv0))) "part_id < part_to_node.size()" ;;;
  cv <-- move_part cid m ;;
  let p2n := v_ (view_mapper cv) in
  s <-- get ;;
  on_update_table plan_id (leave_update p2n m (version_of plan_id s)) ;;;
  when (map_collection_id sp =? cid) (on_map_table plan_id (modify (leave_map p2n m))) ;;;
  on_update_table plan_id (modify (enter_node to_id part_id to_id)) ;;;
  when (map_collection_id sp =? cid)
    (on_map_table plan_id (modify (enter_node to_id part_id part_id))) ;;;  (* map_node_count_[plan_id][part_id] *)
  SendToAllControllers plan_id (kMigratePartition
    {| mm_flag := kStartMigrate; mm_plan_id := plan_id; mm_collection_id := cid;
       mm_partition_id := part_id; mm_from_id := from_id; mm_to_id := to_id;
       mm_num_nodes := num_nodes s |} (MBView cv)).

Definition BatchMigrate (plan_id : Z) (meta : list migration) : SM unit :=
  w <-- spec_of plan_id ;;
  sp <-- cast_MapJoin w ;;
  view_of (update_collection_id sp) ;;;
  for_each meta (migrate_one plan_id sp).

Definition PreBatchMigrate (plan_id : Z) (meta : list migration) : SM unit :=
  w <-- spec_of plan_id ;;
  sp <-- cast_MapJoin w ;;
  match spec w with
  | SMapWithJoin ws =>
      when ((map_collection_id sp =? update_collection_id sp) &&
            negb (map_collection_id sp =? with_collection_id ws))
        (view_of (with_collection_id ws) ;;;
         url <-- on_status (GetLastCP (with_collection_id ws)) ;;
         for_each meta (fun m => move_part (with_collection_id ws) m ;;; ret tt) ;;;
         LoadCheckpointPartial (with_collection_id ws) url (snd <$> meta)
           (CbWithLoaded plan_id meta (with_collection_id ws)))
  | _ => ret tt
  end ;;;
  BatchMigrate plan_id meta.

(** The two callbacks of [PreBatchMigrate]. *)
Definition with_loaded (plan_id : Z) (meta : list migration) (with_cid : Z) : SM unit :=
  Update with_cid (CbWithUpdated plan_id meta).
Definition with_updated (plan_id : Z) (meta : list migration) : SM unit :=
  for_each meta (fun m => SendToController m.1.2 plan_id (kFinishLoadWith m)).

Definition MigrateMapOnly (plan_id from_id to_id part_id : Z) : SM unit :=
  s <-- get ;;
  check (bool_decide (is_Some (part_versions (map_table plan_id s) !! part_id)))
    "map_part_versions_[plan_id].find(part_id) != end" ;;;
  w <-- spec_of plan_id ;;
  sp <-- cast_MapJoin w ;;
  cv <-- view_of (map_collection_id sp) ;;
  check (negb (map_collection_id sp =? update_collection_id sp)) "map_collection_id != update_collection_id" ;;;
  n <-- mapper_Get part_id (view_mapper cv) ;;
  check (n =? from_id) "part_to_node[part_id] == from_id" ;;;
  SendToController from_id plan_id (kMigratePartition
    {| mm_flag := kStartMigrateMapOnly; mm_plan_id := plan_id; mm_collection_id := map_collection_id sp;
       mm_partition_id := part_id; mm_from_id := from_id; mm_to_id := to_id;
       mm_num_nodes := num_nodes s |} (MBView cv)).

(** ** Choosing what to migrate *)

(** The inner loop of [TryMigrate] over the versions [vs]: the first part of the slow node
    at the lowest version, unless it was migrated at that version before, in which case the
    next version is tried. *)
Fixpoint pick_part (groups : Z -> list Z) (version : Z -> Z) (vs : list Z) : SM (option Z) :=
  match vs with
  | [] => ret None
  | v :: vs' =>
      match groups v with
      | [] => ret None
      | part_id :: _ =>
          s <-- get ;;
          let migrated := lookup_or [] part_id (parts_migrated (control_manager s)) in
          if bool_decide (version part_id ∈ migrated) then pick_part groups version vs'
          else
            mod_ctl (fun c => c <| parts_migrated ::= <[part_id := migrated ++ [version part_id]]> |>) ;;;
            ret (Some part_id)
      end
  end.

Fixpoint pair_nodes (mapper : SimplePartToNodeMapper) (version : Z -> Z) (vs : list Z)
    (slow fast : list Z) : SM (list migration) :=
  match slow, fast with
  | s :: slow', f :: fast' =>
      let groups v := filter (fun p => version p = v) (GetNodeParts s mapper) in
      r <-- pick_part groups version vs ;;
      match r with
      | Some part_id => l <-- pair_nodes mapper version vs slow' fast' ;; ret ((s, f, part_id) :: l)
      | None => pair_nodes mapper version vs slow' fast
      end
  | _, _ => ret []
  end.

Definition TryMigrate (plan_id : Z) : SM unit :=
  w <-- spec_of plan_id ;;
  sp <-- cast_MapJoin w ;;
  when (map_collection_id sp =? update_collection_id sp)
    (s <-- get ;;
     let cur := version_of plan_id s in
     let max_version := cur + staleness sp + 1 in
     let at_version v := (filter (fun nv => nv.2 = v) (entries (node_versions (map_table plan_id s)))).*1 in
     let slow := if cur <? max_version then at_version cur else [] in
     cv <-- view_of (map_collection_id sp) ;;
     let version p := lookup_or 0 p (part_versions (map_table plan_id s)) in
     meta <-- pair_nodes (view_mapper cv) version (seqZ cur (max_version - cur)) slow (at_version max_version) ;;
     PreBatchMigrate plan_id meta).

(** ** Recovery of the map partitions *)

Definition reassign_part (version : Z) (r : migration) (t : VTable) : VTable :=
  let '(part_id, _, to_id) := r in
  enter_node to_id part_id part_id (t <| part_versions ::= <[part_id := version]> |>).

Definition ReassignMap (plan_id collection_id : Z) : SM unit :=
  w <-- spec_of plan_id ;;
  sp <-- cast_MapJoin w ;;
  check (collection_id =? map_collection_id sp) "only support map now (no with)" ;;;
  s <-- get ;;
  let cached := lookup_or [] collection_id (lookup_or ∅ plan_id (cached_part_to_node_ (control_manager s))) in
  cv <-- view_of collection_id ;;
  let p2n := v_ (view_mapper cv) in
  check (bool_decide (length cached = length p2n)) "cached_part_to_node.size() == new_part_to_node.size()" ;;;
  let reassignments : list migration :=
    filter (fun r => r.1.2 <> r.2) (zip (zip (seqZ 0 (Z.of_nat (length p2n))) cached) p2n) in
  mod_ctl (fun c => c <| cached_part_to_node_ ::= fun m =>
    <[plan_id := <[collection_id := p2n]> (lookup_or ∅ plan_id m)]> m |>) ;;;
  let version := version_of plan_id s in
  on_map_table plan_id (modify (fun t => foldl (fun t r => reassign_part version r t) t reassignments)) ;;;
  SendToAllControllers plan_id
    (kReassignMap ((fun r => (r.2, r.1.1, version)) <$> reassignments)).

(** ** Control *)

Definition Control (invoke : callback -> SM unit) (ctrl : ControllerMsg) : SM unit :=
  let plan_id := c_plan_id ctrl in
  match c_flag ctrl with
  | CfSetup =>
      mod_ctl (fun c => c <| is_setup_ ::= fun m =>
        <[plan_id := lookup_or ∅ plan_id m ∪ {[c_node_id ctrl]}]> m |>) ;;;
      s <-- get ;;
      when (Z.of_nat (size (lookup_or ∅ plan_id (is_setup_ (control_manager s)))) =? num_nodes s)
        (SendToAllControllers plan_id kStart ;;; Init plan_id)
  | CfMap => HandleUpdateMapVersion ctrl
  | CfJoin => HandleUpdateJoinVersion ctrl
  | CfFinish =>
      mod_ctl (fun c => c <| is_finished_ ::= fun m =>
        <[plan_id := lookup_or ∅ plan_id m ∪ {[c_node_id ctrl]}]> m |>) ;;;
      s <-- get ;;
      when (Z.of_nat (size (lookup_or ∅ plan_id (is_finished_ (control_manager s)))) =? num_nodes s)
        (check (bool_decide (is_Some (ctl_callbacks_ (control_manager s) !! plan_id)))
           "callbacks_.find(ctrl.plan_id) != end" ;;;
         f <-- deref (ctl_callbacks_ (control_manager s) !! plan_id) "callbacks_[ctrl.plan_id]" ;;
         invoke f ;;;
         mod_ctl (fun c => c <| ctl_callbacks_ ::= delete plan_id |>))
  | CfFinishMigrate => ret tt    (* logs the duration *)
  | CfFinishCP => ReceiveFinishCP plan_id (c_part_id ctrl) (c_version ctrl)
  end.
