(* ===== verification/ControlVersions.v ===== *)
(** * The control manager's version tables are right
    (theorems about core/scheduler/control_manager.cpp)

    [table_ok]: for every node the table holds the minimum of the versions of its
    partitions and how many of them are at that minimum.  [is_min]: the plan's version is
    the minimum over all update partitions.  Both are kept by every report of a finished
    update and by migration, and the plan's version is broadcast exactly when that minimum
    advances. *)

From S2P Require Import Prelude BinStream Specs Index Messages CollectionStatus SchedulerState Managers ControlManager.

(** ** Tables *)

Definition parts_on (p2n : list Z) (n : Z) : list Z := GetNodeParts n {| v_ := p2n |}.
Definition pversion (t : VTable) (i : Z) : Z := lookup_or 0 i (part_versions t).
Definition nversion (t : VTable) (n : Z) : Z := lookup_or 0 n (node_versions t).
Definition ncount (t : VTable) (n : Z) : Z := lookup_or 0 n (node_count t).
(** How many parts of node [n] are at version [v]. *)
Definition tally (p2n : list Z) (t : VTable) (n v : Z) : Z :=
  Z.of_nat (length (filter (fun i => pversion t i = v) (parts_on p2n n))).

Definition in_range (p2n : list Z) (i : Z) : Prop := 0 <= i < Z.of_nat (length p2n).

Record table_ok (p2n : list Z) (t : VTable) : Prop := {
  ok_parts : forall i, is_Some (part_versions t !! i) <-> in_range p2n i;
  ok_nodes : forall n, parts_on p2n n <> [] -> is_Some (node_versions t !! n);
  ok_count : forall n, ncount t n = tally p2n t n (nversion t n);
  ok_lower : forall n i, i ∈ parts_on p2n n -> nversion t n <= pversion t i;
  ok_attained : forall n, parts_on p2n n <> [] -> 0 < ncount t n }.

Definition is_min (p2n : list Z) (t : VTable) (v : Z) : Prop :=
  (forall i, in_range p2n i -> v <= pversion t i) /\
  exists i, in_range p2n i /\ pversion t i = v.

Lemma elem_of_parts_on p2n n i :
  i ∈ parts_on p2n n <-> 0 <= i /\ p2n !! Z.to_nat i = Some n.
Proof. apply elem_of_GetNodeParts. Qed.

Lemma NoDup_parts_on p2n n : NoDup (parts_on p2n n).
Proof.
  unfold parts_on, GetNodeParts. cbn [v_].
  eapply sublist_NoDup; [|apply fmap_sublist, sublist_filter].
  rewrite fst_zip by (rewrite length_zip_seqZ; lia). apply NoDup_seqZ.
Qed.

Lemma parts_on_range p2n n i : i ∈ parts_on p2n n -> in_range p2n i.
Proof. rewrite elem_of_parts_on. intros [? H%lookup_lt_Some]. unfold in_range. lia. Qed.

Lemma owner p2n i : in_range p2n i -> exists n, p2n !! Z.to_nat i = Some n /\ i ∈ parts_on p2n n.
Proof.
  intros Hi. destruct (lookup_lt_is_Some_2 p2n (Z.to_nat i)) as [n Hn]; [unfold in_range in Hi; lia|].
  exists n. split; [done|]. apply elem_of_parts_on. split; [apply Hi|done].
Qed.

Lemma tally_pos p2n t n v : 0 < tally p2n t n v <-> exists i, i ∈ parts_on p2n n /\ pversion t i = v.
Proof.
  unfold tally. split.
  - destruct (filter _ _) as [|i l] eqn:E; [cbn; lia|]. intros _. exists i.
    assert (i ∈ filter (fun i => pversion t i = v) (parts_on p2n n)) as Hi by (rewrite E; set_solver).
    apply list_elem_of_filter in Hi. tauto.
  - intros (i & Hi & Hv).
    assert (i ∈ filter (fun i => pversion t i = v) (parts_on p2n n)) as Hin by by apply list_elem_of_filter.
    destruct (filter _ _); [set_solver|cbn; lia].
Qed.

Lemma tally_nonneg p2n t n v : 0 <= tally p2n t n v.
Proof. unfold tally. lia. Qed.

(** Two tables that agree on the parts of a node have the same tally there. *)
Lemma tally_ext p2n t t' n v :
  (forall i, i ∈ parts_on p2n n -> pversion t i = v <-> pversion t' i = v) ->
  tally p2n t n v = tally p2n t' n v.
Proof. intros H. unfold tally. do 2 f_equal. by apply filter_ext_in. Qed.

(** Changing one part of the node. *)
Lemma tally_split (l : list Z) (f : Z -> Prop) `{!forall x, Decision (f x)} p : NoDup l -> p ∈ l ->
  length (filter f l) = ((if decide (f p) then 1 else 0) + length (filter (fun i => i <> p /\ f i) l))%nat.
Proof.
  induction l as [|x l IH]; intros Hnd Hp; [set_solver|]. apply NoDup_cons in Hnd as [Hx Hnd].
  rewrite !filter_cons. destruct (decide (x = p)) as [->|Hxp].
  - rewrite (decide_False (P := p <> p /\ _)) by tauto.
    assert (filter (fun i => i <> p /\ f i) l = filter f l) as ->.
    { apply filter_ext_in. intros y Hy. split; [tauto|]. intros. split; [|done]. by intros ->. }
    destruct (decide (f p)); cbn; lia.
  - apply elem_of_cons in Hp as [->|Hp]; [done|]. specialize (IH Hnd Hp).
    destruct (decide (f x)).
    + rewrite (decide_True (P := x <> p /\ _)) by tauto. cbn. lia.
    + by rewrite (decide_False (P := x <> p /\ _)) by tauto.
Qed.

Lemma tally_update p2n t t' n p v :
  p ∈ parts_on p2n n -> (forall i, i <> p -> pversion t' i = pversion t i) ->
  tally p2n t' n v + (if decide (pversion t p = v) then 1 else 0) =
  tally p2n t n v + (if decide (pversion t' p = v) then 1 else 0).
Proof.
  intros Hp Heq. unfold tally.
  rewrite (tally_split _ (fun i => pversion t i = v) p (NoDup_parts_on p2n n) Hp).
  rewrite (tally_split _ (fun i => pversion t' i = v) p (NoDup_parts_on p2n n) Hp).
  assert (filter (fun i => i <> p /\ pversion t' i = v) (parts_on p2n n) =
          filter (fun i => i <> p /\ pversion t i = v) (parts_on p2n n)) as ->.
  { apply filter_ext_in. intros i _. split; intros [Hi Hv]; (split; [done|]);
      [by rewrite <- Heq|by rewrite Heq]. }
  do 2 case_decide; lia.
Qed.

(** ** Counting the parts of a node in the table *)

Lemma count_parts_run {O} p2n n v pvs t :
  (forall pv, pv ∈ pvs -> in_range p2n pv.1) ->
  count_parts (O := O) p2n n v pvs t =
  Ok (Z.of_nat (length (filter (fun pv => p2n !! Z.to_nat pv.1 = Some n /\ pv.2 = v) pvs)), t, []).
Proof.
  induction pvs as [|pv pvs IH]; intros Hr; [done|].
  apply wp_exact. cbn [count_parts]. unfold at_index.
  destruct (owner p2n pv.1) as (m & Hm & _); [apply Hr; set_solver|].
  assert (in_range p2n pv.1) as Hpv by (apply Hr; set_solver).
  rewrite (proj2 (Z.leb_le 0 pv.1)) by apply Hpv. rewrite Hm.
  apply wp_bind, wp_deref; [|done]. intros _ [= <-]. apply wp_bind.
  unfold wp at 1. rewrite IH by set_solver. apply wp_ret. split; [|done].
  rewrite filter_cons. destruct (Z.eqb_spec m n) as [->|Hne], (Z.eqb_spec pv.2 v) as [->|Hv]; cbn [andb].
  - rewrite decide_True by done. cbn. lia.
  - rewrite decide_False by tauto. done.
  - rewrite decide_False by (intros [? _]; simplify_eq). done.
  - rewrite decide_False by tauto. done.
Qed.

Lemma count_entries p2n t n v : (forall i, is_Some (part_versions t !! i) <-> in_range p2n i) ->
  Z.of_nat (length (filter (fun pv => p2n !! Z.to_nat pv.1 = Some n /\ pv.2 = v)
    (entries (part_versions t)))) = tally p2n t n v.
Proof.
  intros Hd. unfold tally. f_equal.
  rewrite <- (length_fmap fst (filter _ (entries _))).
  apply Permutation_length, NoDup_Permutation.
  - eapply sublist_NoDup; [apply (NoDup_keys (part_versions t))|]. apply fmap_sublist, sublist_filter.
  - eapply sublist_NoDup; [apply NoDup_parts_on|apply sublist_filter].
  - intros i. rewrite list_elem_of_fmap, list_elem_of_filter, elem_of_parts_on. split.
    + intros ([j w] & -> & [[Ho Hw] Hin%elem_of_entries]%list_elem_of_filter). cbn in *.
      split; [unfold pversion; by rewrite (lookup_or_Some _ _ _ _ Hin)|].
      split; [|done]. apply (Hd j). eauto.
    + intros (Hv & Hi & Ho). assert (in_range p2n i) as Hr.
      { apply lookup_lt_Some in Ho. unfold in_range. lia. }
      apply Hd in Hr as [w Hw]. exists (i, w). split; [done|].
      rewrite list_elem_of_filter, elem_of_entries. cbn. split_and!; [done| |done].
      unfold pversion in Hv. by rewrite (lookup_or_Some _ _ _ _ Hw) in Hv.
Qed.

(** ** One report *)

Lemma pversion_cong t t' i : part_versions t = part_versions t' -> pversion t i = pversion t' i.
Proof. unfold pversion. by intros ->. Qed.
Lemma tally_cong p2n t t' n v : part_versions t = part_versions t' -> tally p2n t n v = tally p2n t' n v.
Proof. intros H. apply tally_ext. intros i _. by rewrite (pversion_cong _ _ _ H). Qed.

(** What the table says of one node. *)
Definition node_ok (p2n : list Z) (t : VTable) (n : Z) : Prop :=
  (parts_on p2n n <> [] -> is_Some (node_versions t !! n) /\ 0 < ncount t n) /\
  ncount t n = tally p2n t n (nversion t n) /\
  (forall i, i ∈ parts_on p2n n -> nversion t n <= pversion t i).

Lemma node_ok_cong p2n t t' n : node_ok p2n t n -> part_versions t' = part_versions t ->
  node_versions t' !! n = node_versions t !! n -> ncount t' n = ncount t n -> node_ok p2n t' n.
Proof.
  intros (H1 & H2 & H3) Ep Env Enc. unfold node_ok.
  assert (nversion t' n = nversion t n) as -> by (unfold nversion, lookup_or; by rewrite Env).
  rewrite Env, Enc, (tally_cong _ _ _ _ _ Ep). split_and!; [done..|].
  intros i Hi. rewrite (pversion_cong _ _ _ Ep). auto.
Qed.

(** A table is rebuilt at the nodes [ch]; the others are as before. *)
Lemma table_ok_nodes p2n p2n' t t' (ch : Z -> Prop) `{!forall n, Decision (ch n)} :
  table_ok p2n t ->
  (forall i, is_Some (part_versions t' !! i) <-> in_range p2n' i) ->
  (forall m, ~ ch m -> parts_on p2n' m ≡ₚ parts_on p2n m /\
     (forall i, i ∈ parts_on p2n m -> pversion t' i = pversion t i) /\
     node_versions t' !! m = node_versions t !! m /\ ncount t' m = ncount t m) ->
  (forall n, ch n -> node_ok p2n' t' n) ->
  table_ok p2n' t'.
Proof.
  intros Hok Hd Hoth Hch.
  assert (forall m, node_ok p2n' t' m) as Hall; [|constructor; [done|..]; intros m; apply (Hall m)].
  intros m. destruct (decide (ch m)) as [Hm|Hm]; [auto|].
  destruct (Hoth m Hm) as (Hperm & Hpv & Hnv & Hnc).
  assert (nversion t' m = nversion t m) as Env by (unfold nversion, lookup_or; by rewrite Hnv).
  unfold node_ok. rewrite Hnv, Hnc, Env. split_and!.
  - intros Hne. assert (parts_on p2n m <> []) as Hne'.
    { intros E. apply Hne, Permutation_nil_r. by rewrite Hperm, E. }
    split; [by apply (ok_nodes _ _ Hok)|by apply (ok_attained _ _ Hok)].
  - rewrite (ok_count _ _ Hok). unfold tally. rewrite Hperm. do 2 f_equal.
    apply filter_ext_in. intros i Hi. by rewrite Hpv.
  - intros i. rewrite Hperm. intros Hi. rewrite Hpv by done. by apply (ok_lower _ _ Hok).
Qed.

(** What a report of version [pversion t p + 1] for a part [p] does to the table. *)
Lemma advance_spec {O} p2n t p : table_ok p2n t -> in_range p2n p ->
  wp none (advance (O := O) p2n p (pversion t p + 1)) t (fun b t' os => os = [] /\
    table_ok p2n t' /\ part_versions t' = <[p := pversion t p + 1]> (part_versions t) /\
    (b = false -> forall V, (forall i, in_range p2n i -> V <= pversion t i) ->
       (exists i, in_range p2n i /\ pversion t i = V) ->
       exists i, in_range p2n i /\ pversion t' i = V)).
Proof.
  intros Hok Hp. destruct (owner p2n p Hp) as (n & Hn & Hpn). unfold advance.
  assert (parts_on p2n n <> []) as Hne by (intros E; rewrite E in Hpn; set_solver).
  pose proof (ok_nodes _ _ Hok n Hne) as Hns. unfold at_index.
  rewrite (proj2 (Z.leb_le 0 p)) by apply Hp. rewrite Hn.
  set (v := pversion t p) in *.
  set (t1 := t <| part_versions ::= <[p := v + 1]> |>).
  assert (forall i, pversion t1 i = if decide (i = p) then v + 1 else pversion t i) as Hpv.
  { intros i. unfold pversion, t1. cbn. case_decide; [subst; apply lookup_or_insert|].
    by apply lookup_or_insert_ne. }
  assert (forall i, i <> p -> pversion t1 i = pversion t i) as Hoth.
  { intros i Hi. by rewrite Hpv, decide_False. }
  assert (pversion t1 p = v + 1) as Hp1 by by rewrite Hpv, decide_True.
  assert (forall i, is_Some (part_versions t1 !! i) <-> in_range p2n i) as Hd1.
  { intros i. cbn. rewrite lookup_insert_is_Some', (ok_parts _ _ Hok i).
    split; [intros [<-|?]; done|by right]. }
  pose proof (fun w => tally_update p2n t t1 n p w Hpn Hoth) as Htu. rewrite Hp1 in Htu. fold v in Htu.
  pose proof (ok_lower _ _ Hok n) as Hlow. pose proof (Hlow p Hpn) as Hlp. fold v in Hlp.
  assert (forall i, i ∈ parts_on p2n n -> nversion t n <= pversion t1 i) as Hlow1.
  { intros i Hi. rewrite Hpv. case_decide; [lia|auto]. }
  assert (forall t', part_versions t' = part_versions t1 ->
    (forall m, m <> n -> node_versions t' !! m = node_versions t !! m /\ ncount t' m = ncount t m) ->
    is_Some (node_versions t' !! n) -> 0 < ncount t' n ->
    ncount t' n = tally p2n t1 n (nversion t' n) ->
    (forall i, i ∈ parts_on p2n n -> nversion t' n <= pversion t1 i) -> table_ok p2n t') as Hre.
  { intros t' E1 E2 E3 E4 E5 E6. apply (table_ok_nodes p2n p2n t t' (fun m => m = n) Hok).
    - intros i. by rewrite E1.
    - intros m Hm. destruct (E2 m Hm). split_and!; try done.
      intros i Hi. rewrite (pversion_cong _ _ i E1). apply Hoth. intros ->.
      apply elem_of_parts_on in Hi as [_ Hi]. congruence.
    - intros m ->. split_and!; [done|by rewrite E5, (tally_cong _ _ _ _ _ E1)|].
      intros i Hi. rewrite (pversion_cong _ _ i E1). auto. }
  pose proof (ok_count _ _ Hok n) as Hcn. pose proof (ok_attained _ _ Hok n Hne) as Hat.
  assert (touch 0 n (node_versions t) = node_versions t) as Htouch by by apply touch_present.
  repeat first [wstep | progress cbn [part_versions node_versions node_count upd eta eta_VTable] in *
                | rewrite Htouch in * ].
  all: try (injection Hx as <-).
  all: fold (nversion t n) in *; fold (ncount t n) in *.
  - (* the last part of the node at its minimum *)
    rewrite Htouch in *. rewrite !lookup_or_insert in *. fold (nversion t n) in *.
    apply Z.eqb_eq in Hif, Hif0. unfold wp.
    rewrite count_parts_run by (intros [i w] Hi%elem_of_entries; apply Hd1; by exists w).
    rewrite (count_entries p2n t1) by done. unfold bind, modify, ret. split_and!; try done.
    specialize (Htu v) as Hv. specialize (Htu (v + 1)) as Hv1.
    rewrite decide_True, decide_False in Hv by lia. rewrite decide_False, decide_True in Hv1 by lia.
    replace (nversion t n) with v in * by lia. pose proof (tally_nonneg p2n t n (v + 1)).
    apply Hre; cbn; [done|..]; unfold ncount, nversion; cbn; rewrite ?lookup_insert_eq, ?lookup_or_insert.
    + intros m Hm. rewrite lookup_insert_ne by done. by rewrite !lookup_or_insert_ne by done.
    + done.
    + lia.
    + done.
    + intros i Hi. specialize (Hlow1 i Hi).
      assert (pversion t1 i <> v); [|lia]. intros E.
      assert (0 < tally p2n t1 n v); [|lia]. apply tally_pos. eauto.
  - (* other parts of the node are still at its minimum *)
    rewrite Htouch in *. rewrite !lookup_or_insert in *. fold (nversion t n) in *.
    apply Z.eqb_eq in Hif. apply Z.eqb_neq in Hif0.
    specialize (Htu v) as Hv. rewrite decide_True, decide_False in Hv by lia.
    assert (nversion t n = v) as Hnv by lia. rewrite Hnv in Hcn, Hlow1. split_and!; try done.
    + set (t' := Build_VTable _ _ _).
      assert (ncount t' n = ncount t n - 1) as Ec by apply lookup_or_insert.
      assert (nversion t' n = v) as En by exact Hnv.
      apply Hre; rewrite ?Ec, ?En; try done; try lia.
      intros m Hm. split; [done|]. by apply lookup_or_insert_ne.
    + intros _ V HV (i & Hi & Hiv). destruct (decide (i = p)) as [->|Hip].
      * assert (0 < tally p2n t1 n v) as (j & Hj & Hjv)%tally_pos by lia.
        exists j. split; [by eapply parts_on_range|]. by rewrite <- Hiv.
      * exists i. split; [done|]. rewrite <- Hiv. by apply Hoth.
  - intros E. apply Z.ltb_ge in E. unfold none. lia.
  - (* the node's minimum is below the part's version *)
    rewrite Htouch in *. fold (nversion t n) in *. apply Z.eqb_neq in Hif.
    specialize (Htu (nversion t n)) as Hv. rewrite !decide_False in Hv by lia. split_and!; try done.
    + apply Hre; cbn; try done. unfold ncount, nversion in *. cbn. lia.
    + intros _ V HV (i & Hi & Hiv). destruct (decide (i = p)) as [->|Hip].
      * assert (0 < tally p2n t n (nversion t n)) as (j & Hj & Hjv)%tally_pos by lia.
        apply parts_on_range in Hj. specialize (HV j Hj). fold v in Hiv. lia.
      * exists i. split; [done|]. rewrite <- Hiv. by apply Hoth.
  - done.
  - fold v. by rewrite Z.eqb_refl.
Qed.

(** ** The plan's version *)

(** The plan is a map-update plan with specification [sp]. *)
Definition plan_spec (plan_id : Z) (sp : MapJoinSpec) (s : Sch) : Prop :=
  exists w, specs_ (control_manager s) !! plan_id = Some w /\ as_MapJoin (spec w) = Some sp /\
    (spec_type w = TMapJoin \/ spec_type w = TMapWithJoin).

Record tracked (plan_id : Z) (sp : MapJoinSpec) (p2n : list Z) (s : Sch) : Prop := {
  tr_spec : plan_spec plan_id sp s;
  tr_view : exists cv, collection_map (elem s) !! update_collection_id sp = Some cv /\
    v_ (view_mapper cv) = p2n;
  tr_table : table_ok p2n (update_table plan_id s);
  tr_min : is_min p2n (update_table plan_id s) (version_of plan_id s) }.

(** A plan that takes checkpoints says where. *)
Definition checkpoints_ok (sp : MapJoinSpec) : Prop :=
  checkpoint_interval sp = 0 \/ checkpoint_path sp <> "".

(** What is sent to the controllers when the plan reaches version [v]. *)
Definition announcement (plan_id : Z) (s : Sch) (v : Z) : list sched_out :=
  (fun n => ToController (GetControllerActorQid n) plan_id
     (if v =? expected_version plan_id s then kTerminatePlan else kUpdateVersion v)) <$> node_ids (elem s).

Lemma wp_spec_of E plan_id w s (Q : SpecWrapper -> Sch -> list sched_out -> Prop) :
  specs_ (control_manager s) !! plan_id = Some w -> Q w s [] -> wp E (spec_of plan_id) s Q.
Proof.
  intros Hw HQ. unfold spec_of. apply wp_bind, wp_get, wp_deref; rewrite Hw; [|done].
  by intros _ [= <-].
Qed.

Lemma wp_cast_MapJoin E w sp s (Q : MapJoinSpec -> Sch -> list sched_out -> Prop) :
  as_MapJoin (spec w) = Some sp -> Q sp s [] -> wp E (cast_MapJoin w) s Q.
Proof. intros Hw HQ. unfold cast_MapJoin. apply wp_deref; rewrite Hw; [|done]. by intros _ [= <-]. Qed.

Lemma UpdateVersion_spec plan_id sp s : plan_spec plan_id sp s -> checkpoints_ok sp ->
  wp none (UpdateVersion plan_id) s (fun _ s' os =>
    version_of plan_id s' = version_of plan_id s + 1 /\
    control_manager s' = (control_manager s)
      <| versions_ ::= <[plan_id := version_of plan_id s + 1]> |> /\
    elem s' = elem s /\ os = announcement plan_id s (version_of plan_id s + 1)).
Proof.
  intros (w & Hw & Hsp & Hty) Hcp.
  unfold UpdateVersion, GetMapJoinSpec, mod_ctl.
  apply wp_bind. eapply wp_spec_of; [done|].
  apply wp_bind, wp_bind, wp_check; [intros _|].
  2: { intros E. apply orb_false_iff in E as [E1%bool_decide_eq_false E2%bool_decide_eq_false]. tauto. }
  eapply wp_cast_MapJoin; [done|]. apply wp_bind, wp_modify, wp_bind, wp_get.
  unfold version_of, expected_version. cbn. rewrite lookup_or_insert.
  fold (version_of plan_id s). fold (expected_version plan_id s).
  assert (forall s1, elem s1 = elem s ->
    wp none (if version_of plan_id s + 1 =? expected_version plan_id s
             then SendToAllControllers plan_id kTerminatePlan
             else SendToAllControllers plan_id (kUpdateVersion (version_of plan_id s + 1))) s1
      (fun _ s2 o2 => s2 = s1 /\ o2 = announcement plan_id s (version_of plan_id s + 1))) as Hsend.
  { intros s1 He. unfold announcement.
    destruct (_ =? _); unfold SendToAllControllers; by wsteps; rewrite He. }
  apply wp_bind. wstep.
  - repeat wstep.
    + unfold on_status. apply zoom_wp. unfold AddCP. apply wp_modify. cbn.
      eapply wp_mono; [apply Hsend; done|]. intros _ s2 o2 [-> ->]. cbn.
      split_and!; [apply lookup_or_insert|done..].
    + intros E. apply negb_false_iff, bool_decide_eq_true in E.
      apply andb_true_iff in Hif as [Hi%negb_true_iff%Z.eqb_neq _]. by destruct Hcp.
  - eapply wp_mono; [apply Hsend; done|]. intros _ s2 o2 [-> ->]. cbn.
    split_and!; [apply lookup_or_insert|done..].
Qed.

(** The test of [HandleUpdateJoinVersion] over nodes decides whether a partition is left at
    the plan's version. *)
Lemma all_nodes_passed_iff p2n t V : table_ok p2n t -> (forall i, in_range p2n i -> V <= pversion t i) ->
  all_nodes_passed t V = true <-> forall i, in_range p2n i -> pversion t i <> V.
Proof.
  intros Hok HV. unfold all_nodes_passed. rewrite forallb_forall. setoid_rewrite <- list_elem_of_In. split.
  - intros Hall i Hi Hiv. destruct (owner p2n i Hi) as (n & _ & Hin).
    assert (parts_on p2n n <> []) as Hne by (intros E; rewrite E in Hin; set_solver).
    destruct (ok_nodes _ _ Hok n Hne) as [nv Hnv].
    specialize (Hall (n, nv) ltac:(by apply elem_of_entries)). cbn in Hall.
    pose proof (ok_attained _ _ Hok n Hne) as Hat. pose proof (ok_lower _ _ Hok n i Hin) as Hlow.
    rewrite (ok_count _ _ Hok n) in Hat. apply tally_pos in Hat as (j & Hj & Hjv).
    pose proof (HV j (parts_on_range _ _ _ Hj)). pose proof (ok_attained _ _ Hok n Hne).
    assert (nversion t n = nv) as E by by apply lookup_or_Some.
    apply orb_true_iff in Hall as [Hc%Z.eqb_eq|Hc%negb_true_iff%Z.eqb_neq];
      [unfold ncount in *; lia|lia].
  - intros Hno [n nv] Hn%elem_of_entries. cbn. apply orb_true_iff.
    destruct (Z.eqb_spec (lookup_or 0 n (node_count t)) 0) as [|Hc]; [by left|right].
    apply negb_true_iff, Z.eqb_neq. intros ->.
    assert (nversion t n = V) as E by by apply lookup_or_Some.
    pose proof (ok_count _ _ Hok n) as Hcn. rewrite E in Hcn.
    pose proof (tally_nonneg p2n t n V). unfold ncount in Hcn.
    assert (0 < tally p2n t n V) as (j & Hj & Hjv)%tally_pos by lia.
    by apply (Hno j); [eapply parts_on_range|].
Qed.

Lemma nodes_not_passed p2n t V : table_ok p2n t -> (forall i, in_range p2n i -> V <= pversion t i) ->
  all_nodes_passed t V = false -> exists i, in_range p2n i /\ pversion t i = V.
Proof.
  intros Hok HV Hf.
  destruct (decide (Exists (fun i => pversion t i = V) (seqZ 0 (Z.of_nat (length p2n))))) as [He|Hno].
  - apply Exists_exists in He as (i & Hi%elem_of_seqZ & Hiv). exists i. split; [unfold in_range; lia|done].
  - exfalso. apply not_true_iff_false in Hf. apply Hf, (proj2 (all_nodes_passed_iff p2n t V Hok HV)).
    intros i Hi Hiv. apply Hno, Exists_exists. exists i. rewrite elem_of_seqZ.
    unfold in_range in Hi. split; [lia|done].
Qed.

(** The minimum after a report for part [p]: it is unchanged while a part is left at it, and
    otherwise goes up by one. *)
Lemma is_min_step p2n t t' p V : is_min p2n t V -> in_range p2n p ->
  part_versions t' = <[p := pversion t p + 1]> (part_versions t) ->
  (forall i, in_range p2n i -> V <= pversion t' i) /\
  ((exists i, in_range p2n i /\ pversion t' i = V) -> is_min p2n t' V) /\
  ((forall i, in_range p2n i -> pversion t' i <> V) -> is_min p2n t' (V + 1)).
Proof.
  intros [Hl (i0 & Hi0 & Hv0)] Hp Ht'.
  assert (forall i, pversion t' i = if decide (i = p) then pversion t p + 1 else pversion t i) as Hpv.
  { intros i. unfold pversion. rewrite Ht'. case_decide; [subst; apply lookup_or_insert|].
    by apply lookup_or_insert_ne. }
  assert (forall i, in_range p2n i -> V <= pversion t' i) as Hl'.
  { intros i Hi. rewrite Hpv. case_decide; [specialize (Hl p Hp); lia|auto]. }
  split_and!; [done|by split|]. intros Hno. split.
  - intros i Hi. specialize (Hno i Hi). specialize (Hl' i Hi). lia.
  - exists p. split; [done|]. rewrite Hpv, decide_True by done.
    assert (i0 = p) as <-; [|lia]. apply dec_stable. intros Hne. apply (Hno i0 Hi0).
    by rewrite Hpv, decide_False.
Qed.

Definition join_report (plan_id node_id part_id version : Z) : ControllerMsg :=
  {| c_flag := CfJoin; c_version := version; c_node_id := node_id; c_plan_id := plan_id;
     c_part_id := part_id |}.

Lemma tracked_frame plan_id sp p2n s s' :
  tracked plan_id sp p2n s -> elem s' = elem s ->
  specs_ (control_manager s') = specs_ (control_manager s) ->
  table_ok p2n (update_table plan_id s') ->
  is_min p2n (update_table plan_id s') (version_of plan_id s') -> tracked plan_id sp p2n s'.
Proof.
  intros [Hs Hv _ _] He Hsp Ht Hm. constructor; [|by rewrite He|done..].
  unfold plan_spec. by rewrite Hsp.
Qed.

Lemma HandleUpdateJoinVersion_spec plan_id sp p2n s node_id p :
  tracked plan_id sp p2n s -> checkpoints_ok sp -> in_range p2n p ->
  wp none (HandleUpdateJoinVersion
      (join_report plan_id node_id p (pversion (update_table plan_id s) p + 1))) s
    (fun _ s' os => tracked plan_id sp p2n s' /\ elem s' = elem s /\
      expected_version plan_id s' = expected_version plan_id s /\
      part_versions (update_table plan_id s') =
        <[p := pversion (update_table plan_id s) p + 1]> (part_versions (update_table plan_id s)) /\
      os = (if version_of plan_id s' =? version_of plan_id s then []
            else announcement plan_id s (version_of plan_id s')) /\
      version_of plan_id s <= version_of plan_id s' <= version_of plan_id s + 1).
Proof.
  intros Htr Hcp Hp. pose proof Htr as [(w & Hw & Hsp & Hty) (cv & Hcv & Hp2n) Hok Hmin].
  unfold HandleUpdateJoinVersion. cbn [c_plan_id c_part_id c_version join_report].
  apply wp_bind. eapply wp_spec_of; [done|]. apply wp_bind. eapply wp_cast_MapJoin; [done|].
  apply wp_bind. eapply wp_view_of; [done|]. rewrite Hp2n.
  set (t := update_table plan_id s) in *. set (V := version_of plan_id s) in *.
  apply wp_bind. unfold on_update_table. apply zoom_wp.
  eapply wp_mono; [exact (advance_spec p2n t p Hok Hp)|].
  intros b t' os (-> & Hok' & Hpv' & Hstay).
  destruct (is_min_step p2n t t' p V Hmin Hp Hpv') as (Hl' & Hsame & Hnext).
  set (s1 := s <| control_manager ::= fun c => c <| update_tables ::= <[plan_id := t']> |> |>).
  assert (update_table plan_id s1 = t') as Ht1 by apply lookup_or_insert.
  assert (forall s2, elem s2 = elem s -> specs_ (control_manager s2) = specs_ (control_manager s) ->
    expected_version plan_id s2 = expected_version plan_id s ->
    update_table plan_id s2 = t' -> is_min p2n t' (version_of plan_id s2) ->
    tracked plan_id sp p2n s2 /\ elem s2 = elem s /\
    expected_version plan_id s2 = expected_version plan_id s /\
    part_versions (update_table plan_id s2) = <[p := pversion t p + 1]> (part_versions t)) as Hend.
  { intros s2 E1 E2 E3 E4 E5. split_and!; try done; [|by rewrite E4].
    apply (tracked_frame plan_id sp p2n s); try done; by rewrite E4. }
  assert (is_min p2n t' V -> tracked plan_id sp p2n s1 /\ elem s1 = elem s /\
      expected_version plan_id s1 = expected_version plan_id s /\
      part_versions (update_table plan_id s1) = <[p := pversion t p + 1]> (part_versions t) /\
      [] = (if version_of plan_id s1 =? V then [] else announcement plan_id s (version_of plan_id s1)) /\
      V <= version_of plan_id s1 <= V + 1) as Hkeep.
  { intros Hm. change (version_of plan_id s1) with V. rewrite Z.eqb_refl.
    destruct (Hend s1) as (? & ? & ? & ?); try done. split_and!; try done; lia. }
  wstep; cbn; [|apply Hkeep; destruct b; [done|]; apply Hsame, Hstay; [done|apply Hmin..]].
  fold s1. apply wp_bind, wp_get. rewrite Ht1. change (version_of plan_id s1) with V. wstep; cbn.
  - pose proof (proj1 (all_nodes_passed_iff p2n t' V Hok' Hl') Hif0) as Hpassed.
    eapply wp_mono; [apply (UpdateVersion_spec plan_id sp s1); [by exists w|done]|].
    change (version_of plan_id s1) with V. intros _ s2 os2 (Ev & Ec & Ee & ->).
    destruct (Hend s2) as (? & ? & ? & ?).
    + done.
    + by rewrite Ec.
    + unfold expected_version. by rewrite Ec.
    + unfold update_table. rewrite Ec. apply lookup_or_insert.
    + rewrite Ev. by apply Hnext.
    + rewrite Ev. rewrite (proj2 (Z.eqb_neq _ _)) by lia. split_and!; try done; lia.
  - apply Hkeep, Hsame. by apply (nodes_not_passed p2n t' V Hok' Hl').
Qed.

(** ** Init *)

Lemma reset_nodes_spec ns t :
  part_versions (reset_nodes ns t) = part_versions t /\
  (forall n, node_versions (reset_nodes ns t) !! n =
     if decide (n ∈ ns) then Some 0 else node_versions t !! n) /\
  (forall n, ncount (reset_nodes ns t) n = if decide (n ∈ ns) then 0 else ncount t n).
Proof.
  unfold reset_nodes, ncount. revert t. induction ns as [|m ns IH]; intros t; cbn [foldl].
  { split_and!; [done|..]; intros n; by rewrite decide_False by set_solver. }
  destruct (IH (t <| node_versions ::= <[m := 0]> |> <| node_count ::= <[m := 0]> |>)) as (-> & E1 & E2).
  cbn in *. split_and!; [done|..]; intros n.
  - rewrite E1, lookup_insert. repeat case_decide; try done; set_solver.
  - rewrite E2. destruct (decide (m = n)) as [<-|Hn].
    + rewrite lookup_or_insert. repeat case_decide; try done; set_solver.
    + rewrite lookup_or_insert_ne by done. repeat case_decide; try done; set_solver.
Qed.

Lemma parts_on_snoc p2n x n :
  parts_on (p2n ++ [x]) n = parts_on p2n n ++ (if decide (x = n) then [Z.of_nat (length p2n)] else []).
Proof.
  unfold parts_on, GetNodeParts. cbn [v_].
  rewrite length_app, Nat.add_1_r, seqZ_snoc, zip_with_app by apply length_zip_seqZ.
  rewrite filter_app, fmap_app. f_equal. cbn [zip_with]. rewrite filter_cons, filter_nil. cbn.
  by destruct (decide (x = n)).
Qed.

Lemma reset_parts_spec p2n t :
  node_versions (reset_parts p2n t) = node_versions t /\
  (forall i, part_versions (reset_parts p2n t) !! i =
     if decide (in_range p2n i) then Some 0 else part_versions t !! i) /\
  (forall n, ncount (reset_parts p2n t) n = ncount t n + Z.of_nat (length (parts_on p2n n))).
Proof.
  unfold ncount. induction p2n as [|x p2n IH] using rev_ind.
  { split_and!; [done|..]; [intros i|].
    2: { intros n. change (parts_on [] n) with (@nil Z). change (reset_parts [] t) with t. cbn. lia. }
    rewrite decide_False; [done|]. unfold in_range. cbn. lia. }
  assert (reset_parts (p2n ++ [x]) t =
    (reset_parts p2n t) <| node_count ::= fun m => <[x := lookup_or 0 x m + 1]> m |>
                        <| part_versions ::= <[Z.of_nat (length p2n) := 0]> |>) as ->.
  { unfold reset_parts. rewrite length_app, Nat.add_1_r, seqZ_snoc, zip_with_app by apply length_zip_seqZ.
    by rewrite foldl_app. }
  destruct IH as (E1 & E2 & E3). cbn. split_and!; [done|..].
  - intros i. rewrite lookup_insert, E2. unfold in_range. rewrite length_app. cbn.
    repeat case_decide; try done; lia.
  - intros n. rewrite parts_on_snoc, length_app. destruct (decide (x = n)) as [->|Hn].
    + rewrite lookup_or_insert, E3. cbn. lia.
    + rewrite lookup_or_insert_ne, E3 by done. cbn. lia.
Qed.

Lemma parts_on_nonempty p2n n : parts_on p2n n <> [] -> n ∈ p2n.
Proof.
  intros Hne. destruct (parts_on p2n n) as [|i l] eqn:E; [done|].
  assert (i ∈ parts_on p2n n) as [_ Hi]%elem_of_parts_on by (rewrite E; set_solver).
  by apply list_elem_of_lookup_2 in Hi.
Qed.

(** The tables of a plan that was never run. *)
Lemma init_table_ok ns p2n : (forall n, n ∈ p2n -> n ∈ ns) -> p2n <> [] ->
  let t := reset_parts p2n (reset_nodes ns empty_table) in
  table_ok p2n t /\ is_min p2n t 0.
Proof.
  intros Hns Hne t.
  destruct (reset_nodes_spec ns empty_table) as (Ep & Env & Enc).
  destruct (reset_parts_spec p2n (reset_nodes ns empty_table)) as (Fnv & Fp & Fc).
  fold t in Fnv, Fp, Fc. rewrite Ep in Fp. cbn in Fp, Env.
  assert (forall i, pversion t i = 0) as Hpv.
  { intros i. unfold pversion, lookup_or. rewrite Fp. by case_decide; rewrite ?lookup_empty. }
  assert (forall n, nversion t n = 0) as Hnv.
  { intros n. unfold nversion, lookup_or. rewrite Fnv, Env. by case_decide; rewrite ?lookup_empty. }
  assert (forall n, ncount t n = Z.of_nat (length (parts_on p2n n))) as Hnc.
  { intros n. rewrite Fc, Enc. by case_decide. }
  split; [constructor|split].
  - intros i. rewrite Fp. case_decide as Hi; [by split; [|eexists]|].
    rewrite lookup_empty. by split; [intros []|].
  - intros n Hn. rewrite Fnv, Env, decide_True; [done|]. by apply Hns, parts_on_nonempty.
  - intros n. rewrite Hnc, Hnv. unfold tally. do 2 f_equal. symmetry. apply filter_all.
    intros i _. apply Hpv.
  - intros n i _. rewrite Hnv, Hpv. lia.
  - intros n Hn. rewrite Hnc. destruct (parts_on p2n n); [done|cbn; lia].
  - intros i _. rewrite Hpv. lia.
  - exists 0. split; [|done]. destruct p2n; [done|]. unfold in_range. cbn. lia.
Qed.

Lemma Init_spec plan_id sp s mv uv :
  plan_spec plan_id sp s -> version_of plan_id s = 0 ->
  update_tables (control_manager s) !! plan_id = None ->
  collection_map (elem s) !! map_collection_id sp = Some mv ->
  collection_map (elem s) !! update_collection_id sp = Some uv ->
  v_ (view_mapper uv) <> [] -> (forall n, n ∈ v_ (view_mapper uv) -> n ∈ node_ids (elem s)) ->
  wp none (Init plan_id) s (fun _ s' os => os = [] /\ elem s' = elem s /\
    expected_version plan_id s' = expected_version plan_id s /\
    tracked plan_id sp (v_ (view_mapper uv)) s' /\ version_of plan_id s' = 0).
Proof.
  intros (w & Hw & Hsp & Hty) HV Hfresh Hmv Huv Hne Hns. unfold Init, on_map_table, on_update_table, mod_ctl.
  apply wp_bind, wp_get, wp_bind, zoom_wp, wp_modify, wp_bind, zoom_wp, wp_modify. cbn.
  apply wp_bind. eapply wp_spec_of; [done|]. apply wp_bind. eapply wp_cast_MapJoin; [done|].
  apply wp_bind. eapply wp_view_of; [done|]. apply wp_bind, zoom_wp, wp_modify. cbn.
  apply wp_bind. eapply wp_view_of; [done|]. apply wp_bind, zoom_wp, wp_modify, wp_modify. cbn.
  rewrite lookup_or_insert, (lookup_or_None _ _ _ Hfresh).
  destruct (init_table_ok (node_ids (elem s)) (v_ (view_mapper uv)) Hns Hne) as [Hok Hmin].
  split_and!; try done. constructor.
  - by exists w.
  - by exists uv.
  - unfold update_table. cbn. by rewrite !lookup_or_insert.
  - unfold update_table, version_of in *. cbn. by rewrite !lookup_or_insert, HV.
Qed.

(** ** Migration *)

Section migration.
Context (p2n : list Z) (from_id to_id p : Z).
Hypothesis Hp : in_range p2n p.
Hypothesis Hfrom : p2n !! Z.to_nat p = Some from_id.
Hypothesis Hdiff : from_id <> to_id.

Definition moved : list Z := <[Z.to_nat p := to_id]> p2n.

Lemma moved_range i : in_range moved i <-> in_range p2n i.
Proof. unfold in_range, moved. by rewrite length_insert. Qed.

Lemma elem_of_parts_moved n i : i ∈ parts_on moved n <->
  if decide (i = p) then n = to_id else i ∈ parts_on p2n n.
Proof.
  rewrite elem_of_parts_on. unfold moved, in_range in *. case_decide as Hi.
  - subst i. rewrite list_lookup_insert_eq by lia. split; [by intros [_ [= ->]]|].
    intros ->. split; [lia|done].
  - rewrite elem_of_parts_on.
    split; intros [H0 H1]; (split; [done|]);
      [rewrite list_lookup_insert_ne in H1 by lia|rewrite list_lookup_insert_ne by lia]; done.
Qed.

Lemma p_on_from : p ∈ parts_on p2n from_id.
Proof. apply elem_of_parts_on. split; [apply Hp|done]. Qed.
Lemma p_on_only n : p ∈ parts_on p2n n -> n = from_id.
Proof. intros [_ H]%elem_of_parts_on. congruence. Qed.

Lemma parts_moved_from : parts_on p2n from_id ≡ₚ p :: parts_on moved from_id.
Proof.
  apply NoDup_Permutation; [apply NoDup_parts_on| |].
  - constructor; [|apply NoDup_parts_on]. rewrite elem_of_parts_moved, decide_True by done. done.
  - intros i. rewrite elem_of_cons, elem_of_parts_moved. pose proof p_on_from.
    case_decide as Hi; [subst; tauto|tauto].
Qed.

Lemma parts_moved_to : parts_on moved to_id ≡ₚ p :: parts_on p2n to_id.
Proof.
  apply NoDup_Permutation; [apply NoDup_parts_on| |].
  - constructor; [|apply NoDup_parts_on]. by intros ?%p_on_only.
  - intros i. rewrite elem_of_cons, elem_of_parts_moved. case_decide as Hi; [subst; tauto|tauto].
Qed.

Lemma parts_moved_other n : n <> from_id -> n <> to_id -> parts_on moved n ≡ₚ parts_on p2n n.
Proof.
  intros Hf Ht. apply NoDup_Permutation; [apply NoDup_parts_on..|].
  intros i. rewrite elem_of_parts_moved. case_decide as Hi; [|done]. subst i.
  split; [done|]. by intros ?%p_on_only.
Qed.

Lemma tally_cons t i l v : (length (filter (fun i => pversion t i = v) (i :: l)) =
  (if decide (pversion t i = v) then 1 else 0) + length (filter (fun i => pversion t i = v) l))%nat.
Proof. rewrite filter_cons. by case_decide. Qed.

Lemma tally_moved_from t v :
  tally p2n t from_id v = (if decide (pversion t p = v) then 1 else 0) + tally moved t from_id v.
Proof. unfold tally. rewrite parts_moved_from, tally_cons. case_decide; lia. Qed.
Lemma tally_moved_to t v :
  tally moved t to_id v = (if decide (pversion t p = v) then 1 else 0) + tally p2n t to_id v.
Proof. unfold tally. rewrite parts_moved_to, tally_cons. case_decide; lia. Qed.
End migration.

Lemma foldl_min (f : Z -> Z) l b :
  let m := foldl (fun m i => if f i <? m then f i else m) b l in
  m <= b /\ (forall i, i ∈ l -> m <= f i) /\ (m = b \/ exists i, i ∈ l /\ f i = m).
Proof.
  revert b. induction l as [|x l IH]; intros b; cbn.
  { split_and!; [lia|set_solver|by left]. }
  destruct (IH (if f x <? b then f x else b)) as (H1 & H2 & H3).
  destruct (Z.ltb_spec (f x) b); split_and!; try lia.
  1,3: intros i [->|Hi]%elem_of_cons; [lia|auto].
  - destruct H3 as [H3|(i & Hi & H3)]; right; [exists x|exists i]; split; [set_solver|lia|set_solver|done].
  - destruct H3 as [H3|(i & Hi & H3)]; [by left|right]. exists i. split; [set_solver|done].
Qed.

Lemma touch_parts_id l t : (forall i, i ∈ l -> is_Some (part_versions t !! i)) -> touch_parts l t = t.
Proof.
  intros Hl. unfold touch_parts. assert (foldl (fun m i => touch 0 i m) (part_versions t) l = part_versions t) as E.
  { induction l as [|i l IH]; [done|]. cbn. rewrite touch_present by (apply Hl; set_solver).
    apply IH. set_solver. }
  destruct t. cbn in *. by rewrite E.
Qed.

(** The versions of a plan stay below the constant [BatchMigrate] starts its minimum from. *)
Definition versions_bounded (p2n : list Z) (t : VTable) : Prop :=
  forall i, in_range p2n i -> pversion t i <= 1000000.

Lemma recount_ok p2n t from_id : (forall i, is_Some (part_versions t !! i) <-> in_range p2n i) ->
  versions_bounded p2n t ->
  part_versions (recount p2n from_id t) = part_versions t /\
  node_ok p2n (recount p2n from_id t) from_id /\
  forall m, m <> from_id -> node_versions (recount p2n from_id t) !! m = node_versions t !! m /\
    ncount (recount p2n from_id t) m = ncount t m.
Proof.
  intros Hd Hb. unfold recount. fold (parts_on p2n from_id).
  rewrite touch_parts_id by (intros i Hi; apply Hd; by eapply parts_on_range).
  destruct (foldl_min (fun i => lookup_or 0 i (part_versions t)) (parts_on p2n from_id) 1000000)
    as (Hm1 & Hm2 & Hm3).
  set (m := foldl _ _ _) in *. cbn [part_versions node_versions node_count upd eta eta_VTable].
  split_and!; [done| |].
  - unfold node_ok, nversion, ncount. cbn. rewrite lookup_or_insert, lookup_insert_eq, lookup_or_insert.
    split_and!; [|done|exact Hm2]. intros Hne. split; [done|].
    assert (exists i, i ∈ parts_on p2n from_id /\ lookup_or 0 i (part_versions t) = m) as (i & Hi & Him).
    { destruct Hm3 as [Hm3|?]; [|done]. destruct (parts_on p2n from_id) as [|i l] eqn:E; [done|].
      exists i. split; [set_solver|]. specialize (Hm2 i ltac:(set_solver)).
      assert (in_range p2n i) as Hr by (apply (parts_on_range p2n from_id); rewrite E; set_solver).
      specialize (Hb i Hr). unfold pversion in Hb. lia. }
    assert (i ∈ filter (fun i => lookup_or 0 i (part_versions t) = m) (parts_on p2n from_id)) as Hin
      by by apply list_elem_of_filter.
    destruct (filter _ _); [set_solver|cbn; lia].
  - intros k Hk. cbn. rewrite lookup_insert_ne by done. split; [done|].
    unfold ncount. cbn. by rewrite lookup_or_insert_ne.
Qed.

Lemma touch_table t i n : is_Some (part_versions t !! i) -> is_Some (node_versions t !! n) ->
  t <| part_versions ::= touch 0 i |> <| node_versions ::= touch 0 n |> = t.
Proof. intros Hi Hn. destruct t. cbn in *. by rewrite !touch_present. Qed.

Lemma leave_update_spec p2n t from_id to_id p V :
  table_ok p2n t -> versions_bounded p2n t -> in_range p2n p ->
  p2n !! Z.to_nat p = Some from_id -> from_id <> to_id ->
  pversion t p = V -> nversion t from_id = V ->
  wp none (leave_update (moved p2n to_id p) (from_id, to_id, p) V) t (fun _ t' os => os = [] /\
    part_versions t' = part_versions t /\ node_ok (moved p2n to_id p) t' from_id /\
    forall m, m <> from_id -> node_versions t' !! m = node_versions t !! m /\ ncount t' m = ncount t m).
Proof.
  intros Hok Hb Hp Hfrom Hdiff Hpv Hnv. unfold leave_update.
  pose proof (p_on_from p2n from_id p Hp Hfrom) as Hpf.
  assert (parts_on p2n from_id <> []) as Hne by (intros E; rewrite E in Hpf; set_solver).
  apply wp_bind, wp_modify.
  rewrite touch_table by first [by apply (ok_parts _ _ Hok) | by apply (ok_nodes _ _ Hok)].
  apply wp_bind, wp_get. fold (pversion t p) (nversion t from_id) (ncount t from_id). rewrite Hpv, Hnv.
  pose proof (ok_count _ _ Hok from_id) as Hc. pose proof (ok_attained _ _ Hok from_id Hne) as Hat.
  rewrite Hnv, (tally_moved_from p2n from_id to_id p Hp Hfrom Hdiff), decide_True in Hc by done.
  repeat wstep; rewrite ?Z.eqb_refl in *; try done; cbn.
  - apply Z.ltb_lt in Hif. split_and!; try done.
    + unfold node_ok, nversion, ncount. cbn. rewrite lookup_or_insert.
      fold (nversion t from_id) (ncount t from_id). rewrite Hnv. split_and!.
      * intros _. split; [by apply (ok_nodes _ _ Hok)|lia].
      * rewrite (tally_cong _ _ t) by done. lia.
      * intros i Hi. rewrite <- Hnv. apply (ok_lower _ _ Hok).
        rewrite (parts_moved_from p2n from_id to_id p Hp Hfrom Hdiff). set_solver.
    + intros m Hm. unfold ncount. cbn. by rewrite lookup_or_insert_ne.
  - destruct (recount_ok (moved p2n to_id p) t from_id) as (H1 & H2 & H3); [| |done].
    + intros i. rewrite moved_range. apply (ok_parts _ _ Hok).
    + intros i Hi. apply Hb. by apply (proj1 (moved_range p2n to_id p i)).
  - intros _. apply Z.ltb_ge in Hif. apply Z.eqb_neq in Hif0. unfold none. lia.
Qed.

Lemma enter_node_spec p2n t0 t from_id to_id p V :
  table_ok p2n t0 -> in_range p2n p -> p2n !! Z.to_nat p = Some from_id -> from_id <> to_id ->
  parts_on p2n to_id <> [] -> part_versions t = part_versions t0 ->
  (forall m, m <> from_id -> node_versions t !! m = node_versions t0 !! m /\ ncount t m = ncount t0 m) ->
  node_ok (moved p2n to_id p) t from_id ->
  pversion t0 p = V -> (forall i, in_range p2n i -> V <= pversion t0 i) ->
  table_ok (moved p2n to_id p) (enter_node to_id p to_id t) /\
  part_versions (enter_node to_id p to_id t) = part_versions t0.
Proof.
  intros Hok Hp Hfrom Hdiff Hto Epv Hoth Hnf HpV HV.
  destruct (Hoth to_id ltac:(done)) as [Env Enc].
  assert (nversion t to_id = nversion t0 to_id) as Env' by (unfold nversion, lookup_or; by rewrite Env).
  unfold enter_node. rewrite touch_table.
  2: { rewrite Epv. by apply (ok_parts _ _ Hok). }
  2: { rewrite Env. by apply (ok_nodes _ _ Hok). }
  fold (pversion t p) (nversion t to_id). rewrite (pversion_cong _ _ p Epv), HpV, Env'.
  pose proof (ok_count _ _ Hok to_id) as Hc. pose proof (ok_attained _ _ Hok to_id Hto) as Hat.
  assert (V <= nversion t0 to_id) as Hge.
  { rewrite Hc in Hat. apply tally_pos in Hat as (j & Hj & <-). apply HV. by eapply parts_on_range. }
  assert (forall t', part_versions t' = part_versions t -> 
    (forall m, m <> to_id -> node_versions t' !! m = node_versions t !! m /\ ncount t' m = ncount t m) ->
    is_Some (node_versions t' !! to_id) -> nversion t' to_id = V ->
    ncount t' to_id = 1 + tally p2n t0 to_id V -> 0 < ncount t' to_id ->
    table_ok (moved p2n to_id p) t' /\ part_versions t' = part_versions t0) as Hre.
  { intros t' E1 E2 E3 E4 E5 E6. split; [|congruence].
    apply (table_ok_nodes p2n _ t0 t' (fun n => n = from_id \/ n = to_id) Hok).
    - intros i. rewrite E1, Epv, moved_range. apply (ok_parts _ _ Hok).
    - intros m Hm. destruct (E2 m ltac:(tauto)) as [-> ->]. destruct (Hoth m ltac:(tauto)) as [-> ->].
      split_and!; [apply (parts_moved_other p2n from_id); tauto| |done..].
      intros i _. apply pversion_cong. congruence.
    - intros n [->| ->].
      + destruct (E2 from_id Hdiff) as [H1 H2]. by apply (node_ok_cong _ t).
      + unfold node_ok. rewrite E4, E5.
        rewrite (tally_moved_to p2n from_id) by done.
        rewrite (tally_cong _ t' t0) by congruence.
        rewrite (pversion_cong t' t0) by congruence. rewrite decide_True by done.
        split_and!; [intros _; split; [done|lia]|done|].
        intros i Hi%parts_on_range. apply (proj1 (moved_range p2n to_id p i)) in Hi. rewrite (pversion_cong t' t0) by congruence. auto. }
  destruct (Z.ltb_spec V (nversion t0 to_id)) as [Hlt|Hle]; [|rewrite (proj2 (Z.eqb_eq _ _)) by lia].
  - apply Hre; unfold ncount, nversion; cbn; rewrite ?lookup_or_insert, ?lookup_insert_eq; try done; try lia.
    + intros m Hm. rewrite lookup_insert_ne by done. by rewrite lookup_or_insert_ne.
    + assert (~ 0 < tally p2n t0 to_id V) as Ht; [|pose proof (tally_nonneg p2n t0 to_id V); lia].
      intros (j & Hj & Hjv)%tally_pos. pose proof (ok_lower _ _ Hok to_id j Hj). lia.
  - apply Hre; unfold ncount; cbn; rewrite ?lookup_or_insert; try fold (ncount t to_id); try done.
    + intros m Hm. by rewrite lookup_or_insert_ne.
    + rewrite Env. by apply (ok_nodes _ _ Hok).
    + unfold nversion in *. cbn. lia.
    + rewrite Enc, Hc. replace (nversion t0 to_id) with V by lia. lia.
    + lia.
Qed.

Definition start_migrate (plan_id : Z) (sp : MapJoinSpec) (m : migration) (nodes : Z) : MigrateMeta :=
  {| mm_flag := kStartMigrate; mm_plan_id := plan_id; mm_collection_id := update_collection_id sp;
     mm_partition_id := m.2; mm_from_id := m.1.1; mm_to_id := m.1.2; mm_num_nodes := nodes |}.

Lemma min_node p2n t n p V : table_ok p2n t -> (forall i, in_range p2n i -> V <= pversion t i) ->
  p ∈ parts_on p2n n -> pversion t p = V -> nversion t n = V.
Proof.
  intros Hok HV Hp Hpv. pose proof (ok_lower _ _ Hok n p Hp) as Hl.
  assert (parts_on p2n n <> []) as Hne by (intros E; rewrite E in Hp; set_solver).
  pose proof (ok_attained _ _ Hok n Hne) as Hat. rewrite (ok_count _ _ Hok) in Hat.
  apply tally_pos in Hat as (j & Hj & Hjv). specialize (HV j (parts_on_range _ _ _ Hj)). lia.
Qed.

(** A partition at the plan's version can be moved to a node that has partitions: the tables
    stay right for the new placement, which is sent to every controller. *)
Lemma migrate_one_spec plan_id sp p2n s from_id to_id p :
  tracked plan_id sp p2n s -> versions_bounded p2n (update_table plan_id s) ->
  in_range p2n p -> p2n !! Z.to_nat p = Some from_id -> from_id <> to_id ->
  pversion (update_table plan_id s) p = version_of plan_id s -> parts_on p2n to_id <> [] ->
  wp none (migrate_one plan_id sp (from_id, to_id, p)) s (fun _ s' os =>
    tracked plan_id sp (moved p2n to_id p) s' /\ version_of plan_id s' = version_of plan_id s /\
    expected_version plan_id s' = expected_version plan_id s /\ nodes (elem s') = nodes (elem s) /\
    part_versions (update_table plan_id s') = part_versions (update_table plan_id s) /\
    exists cv, v_ (view_mapper cv) = moved p2n to_id p /\
      os = (fun n => ToController (GetControllerActorQid n) plan_id
              (kMigratePartition (start_migrate plan_id sp (from_id, to_id, p) (num_nodes s)) (MBView cv)))
             <$> node_ids (elem s)).
Proof.
  intros Htr Hb Hp Hfrom Hdiff HpV Hto. pose proof Htr as [(w & Hw & Hsp & Hty) (cv & Hcv & Hp2n) Hok Hmin].
  set (t := update_table plan_id s) in *. set (V := version_of plan_id s) in *.
  pose proof (min_node p2n t from_id p V Hok (proj1 Hmin) (p_on_from _ _ _ Hp Hfrom) HpV) as Hnv.
  unfold migrate_one. apply wp_bind. eapply wp_view_of; [done|].
  apply wp_bind, wp_check; [intros _|].
  2: { unfold mapper_GetNumParts. rewrite Hp2n. unfold in_range in Hp. intros E.
       apply andb_false_iff in E as [E%Z.leb_gt|E%Z.ltb_ge]; lia. }
  apply wp_bind. unfold move_part. apply wp_bind. eapply wp_view_of; [done|]. rewrite Hp2n.
  unfold at_index. rewrite (proj2 (Z.leb_le 0 p)), Hfrom by apply Hp.
  apply wp_bind, wp_deref; [intros _ [= <-]|done]. apply wp_bind, wp_check; [intros _|by rewrite Z.eqb_refl].
  fold (moved p2n to_id p). unfold put_view. apply wp_bind, wp_modify, wp_ret.
  set (cv' := cv <| view_mapper := {| v_ := moved p2n to_id p |} |>).
  change (v_ (view_mapper cv')) with (moved p2n to_id p).
  apply wp_bind, wp_get. set (s1 := s <| elem ::= _ |>). change (version_of plan_id s1) with V.
  apply wp_bind. unfold on_update_table, on_map_table. apply zoom_wp.
  change (lookup_or empty_table plan_id (update_tables (control_manager s1))) with t.
  eapply wp_mono; [by apply leave_update_spec|]. intros _ t1 os (-> & E1 & Hnf & E2).
  destruct (enter_node_spec p2n t t1 from_id to_id p V Hok Hp Hfrom Hdiff Hto E1 E2 Hnf HpV (proj1 Hmin))
    as [Hok2 Hpv2]. set (t2 := enter_node to_id p to_id t1) in *.
  assert (is_min (moved p2n to_id p) t2 V) as Hmin2.
  { destruct Hmin as [Hl (i & Hi & Hiv)]. split.
    - intros j Hj. rewrite (pversion_cong _ _ _ Hpv2). by apply Hl, (moved_range p2n to_id p j).
    - exists i. rewrite moved_range, (pversion_cong _ _ _ Hpv2). done. }
  assert (forall s2, elem s2 = elem s1 -> specs_ (control_manager s2) = specs_ (control_manager s) ->
    versions_ (control_manager s2) = versions_ (control_manager s) ->
    expected_versions_ (control_manager s2) = expected_versions_ (control_manager s) ->
    update_tables (control_manager s2) !! plan_id = Some t2 ->
    wp none (SendToAllControllers plan_id (kMigratePartition
        (start_migrate plan_id sp (from_id, to_id, p) (num_nodes s1)) (MBView cv'))) s2
      (fun _ s' os => tracked plan_id sp (moved p2n to_id p) s' /\ version_of plan_id s' = V /\
        expected_version plan_id s' = expected_version plan_id s /\ nodes (elem s') = nodes (elem s) /\
        part_versions (update_table plan_id s') = part_versions t /\
        exists cv, v_ (view_mapper cv) = moved p2n to_id p /\
          os = (fun n => ToController (GetControllerActorQid n) plan_id
              (kMigratePartition (start_migrate plan_id sp (from_id, to_id, p) (num_nodes s)) (MBView cv)))
             <$> node_ids (elem s))) as Hend.
  { intros s2 F1 F2 F3 F4 F5. assert (update_table plan_id s2 = t2) as Ht2 by by apply lookup_or_Some.
    assert (version_of plan_id s2 = V) as HV2 by (unfold version_of; by rewrite F3).
    unfold SendToAllControllers. apply wp_bind, wp_get, wp_emits. rewrite F1, HV2, Ht2.
    split_and!; try done.
    - constructor; [exists w; split_and!; [by rewrite F2|done..]| |by rewrite Ht2|by rewrite Ht2, HV2].
      exists cv'. rewrite F1. cbn. by rewrite lookup_insert_eq.
    - unfold expected_version. by rewrite F4.
    - by exists cv'. }
  apply wp_bind. wstep; [apply zoom_wp, wp_modify|]; apply wp_bind, zoom_wp, wp_modify;
    cbn [control_manager update_tables upd eta eta_Sch eta_ControlManager];
    rewrite lookup_or_insert; apply wp_bind; [apply wp_when; [|congruence]|apply wp_when; [congruence|]];
    intros _; [apply zoom_wp, wp_modify|]; apply Hend; cbn; try done; by rewrite lookup_insert_eq.
Qed.

(** ** Histories of a plan *)

Lemma BatchMigrate_one plan_id sp p2n s from_id to_id p Q :
  tracked plan_id sp p2n s ->
  wp none (migrate_one plan_id sp (from_id, to_id, p)) s Q ->
  wp none (BatchMigrate plan_id [(from_id, to_id, p)]) s Q.
Proof.
  intros [(w & Hw & Hsp & _) (cv & Hcv & _) _ _] Hm. unfold BatchMigrate.
  apply wp_bind. eapply wp_spec_of; [done|]. apply wp_bind. eapply wp_cast_MapJoin; [done|].
  apply wp_bind. eapply wp_view_of; [done|]. cbn. apply wp_bind.
  eapply wp_mono; [exact Hm|]. intros [] s' os HQ. apply wp_ret. cbn. by rewrite app_nil_r.
Qed.

(** [history plan_id sp s p2n os]: the plan was initialized and then got reports of finished
    updates, in order for each partition, and migrations of partitions at the plan's version
    to nodes that have update partitions; [p2n] is the current placement, [os] everything
    sent since. *)
Inductive history (plan_id : Z) (sp : MapJoinSpec) : Sch -> list Z -> list sched_out -> Prop :=
| history_init s0 s mv uv :
    plan_spec plan_id sp s0 -> version_of plan_id s0 = 0 ->
    update_tables (control_manager s0) !! plan_id = None ->
    collection_map (elem s0) !! map_collection_id sp = Some mv ->
    collection_map (elem s0) !! update_collection_id sp = Some uv ->
    v_ (view_mapper uv) <> [] -> (forall n, n ∈ v_ (view_mapper uv) -> n ∈ node_ids (elem s0)) ->
    NoDup (node_ids (elem s0)) ->
    Init plan_id s0 = Ok (tt, s, []) ->
    history plan_id sp s (v_ (view_mapper uv)) []
| history_join s p2n os node_id p s' os' :
    history plan_id sp s p2n os -> in_range p2n p ->
    HandleUpdateJoinVersion (join_report plan_id node_id p (pversion (update_table plan_id s) p + 1)) s
      = Ok (tt, s', os') ->
    history plan_id sp s' p2n (os ++ os')
| history_migrate s p2n os from_id to_id p s' os' :
    history plan_id sp s p2n os -> in_range p2n p ->
    versions_bounded p2n (update_table plan_id s) ->
    p2n !! Z.to_nat p = Some from_id -> from_id <> to_id -> parts_on p2n to_id <> [] ->
    pversion (update_table plan_id s) p = version_of plan_id s ->
    BatchMigrate plan_id [(from_id, to_id, p)] s = Ok (tt, s', os') ->
    history plan_id sp s' (moved p2n to_id p) (os ++ os').

(** The plan versions node [n] is told; the order to terminate stands for the last one. *)
Definition told (plan_id expected n : Z) (o : sched_out) : option Z :=
  match o with
  | ToController q pl m =>
      if (q =? GetControllerActorQid n) && (pl =? plan_id) then
        match m with kUpdateVersion v => Some v | kTerminatePlan => Some expected | _ => None end
      else None
  | _ => None
  end.

Lemma told_broadcast plan_id expected n m ns : NoDup ns -> n ∈ ns ->
  omap (told plan_id expected n) ((fun k => ToController (GetControllerActorQid k) plan_id m) <$> ns) =
  match m with kUpdateVersion v => [v] | kTerminatePlan => [expected] | _ => [] end.
Proof.
  intros Hnd Hn. induction Hnd as [|k ns Hk Hnd IH]; [set_solver|]. cbn.
  rewrite Z.eqb_refl, andb_true_r. unfold GetControllerActorQid in *.
  assert (n ∉ ns -> omap (told plan_id expected n)
    ((fun k => ToController (k * kMagic + 3) plan_id m) <$> ns) = []) as Hno.
  { clear IH Hnd Hk Hn. intros Hn. induction ns as [|j ns IH]; [done|]. cbn.
    unfold GetControllerActorQid, kMagic in *.
    rewrite (proj2 (Z.eqb_neq (j * 8 + 3) (n * 8 + 3))) by (assert (j <> n) by set_solver; lia).
    cbn. apply IH. set_solver. }
  destruct (decide (k = n)) as [->|Hkn].
  - rewrite Z.eqb_refl, Hno by done. by destruct m.
  - rewrite (proj2 (Z.eqb_neq _ _)) by (unfold kMagic; lia). cbn. apply IH. set_solver.
Qed.

Lemma history_inv plan_id sp s p2n os : checkpoints_ok sp -> history plan_id sp s p2n os ->
  tracked plan_id sp p2n s /\ NoDup (node_ids (elem s)) /\
  forall n, n ∈ node_ids (elem s) ->
    0 <= version_of plan_id s /\
    omap (told plan_id (expected_version plan_id s) n) os = seqZ 1 (version_of plan_id s).
Proof.
  intros Hcp. induction 1 as [s0 s mv uv H1 H2 H3 H4 H5 H6 H7 H8 Hrun
    |s p2n os node_id p s' os' _ (Htr & Hnd & Ht) Hp Hrun
    |s p2n os from_id to_id p s' os' _ (Htr & Hnd & Ht) Hp Hb Hf Hd Hto HpV Hrun].
  - pose proof (wp_Ok _ _ _ _ _ _ _ Hrun (Init_spec plan_id sp s0 mv uv H1 H2 H3 H4 H5 H6 H7))
      as (_ & He & _ & Htr & HV). rewrite He, HV. split_and!; try done.
  - pose proof (wp_Ok _ _ _ _ _ _ _ Hrun (HandleUpdateJoinVersion_spec plan_id sp p2n s node_id p Htr Hcp Hp))
      as (Htr' & He & Hex & _ & Hos & HV). rewrite He. split_and!; [done..|].
    intros n Hn. destruct (Ht n Hn) as [HV0 Ht']. split; [lia|].
    rewrite omap_app, Hex, Ht', Hos. clear Hos.
    destruct (Z.eqb_spec (version_of plan_id s') (version_of plan_id s)) as [->|Hne].
    + by rewrite app_nil_r.
    + assert (version_of plan_id s' = version_of plan_id s + 1) as E by lia.
      unfold announcement. rewrite told_broadcast by done.
      replace (version_of plan_id s') with (version_of plan_id s + 1) by lia.
      rewrite seqZ_app by lia. f_equal. rewrite (Z.add_comm 1). rewrite seqZ_cons, seqZ_nil by lia.
      by destruct (Z.eqb_spec (version_of plan_id s + 1) (expected_version plan_id s)) as [<-|_].
  - pose proof (wp_Ok _ _ _ _ _ _ _ Hrun (BatchMigrate_one plan_id sp p2n s from_id to_id p _ Htr
      (migrate_one_spec plan_id sp p2n s from_id to_id p Htr Hb Hp Hf Hd HpV Hto)))
      as (Htr' & HV & Hex & Hns & _ & cv & _ & ->).
    assert (node_ids (elem s') = node_ids (elem s)) as En by (unfold node_ids; by rewrite Hns).
    rewrite En, HV, Hex. split_and!; [done..|]. intros n Hn. destruct (Ht n Hn) as [HV0 Ht'].
    split; [done|]. by rewrite omap_app, Ht', told_broadcast, app_nil_r.
Qed.



(** ** Executions *)

Definition demo_node (id : Z) : NodeInfo :=
  {| info_node := {| node_host_id := id; hostname := "h"; node_port := 0; is_recovery := false |};
     num_local_threads := 4 |}.
Definition demo_plan (map_cid update_cid iters : Z) : MapJoinSpec :=
  {| map_collection_id := map_cid; update_collection_id := update_cid; combine_timeout := 0;
     num_iter := iters; staleness := 0; checkpoint_interval := 0; checkpoint_path := "";
     description := "" |}.
Definition demo_wrapper (sp : MapJoinSpec) : SpecWrapper :=
  {| spec_type := TMapJoin; spec_id := 3; spec_name := "demo"; spec := SMapJoin sp |}.

(** The scheduler when all nodes have set up plan 3. *)
Definition demo_start (sp : MapJoinSpec) (ns p2n : list Z) : Sch :=
  new_scheduler
    <| elem := {| nodes := list_to_map ((fun n => (n, demo_node n)) <$> ns);
                  collection_map := <[map_collection_id sp := {| view_collection_id := map_collection_id sp;
                      view_num_partition := Z.of_nat (length p2n); view_mapper := {| v_ := p2n |} |}]>
                    {[update_collection_id sp := {| view_collection_id := update_collection_id sp;
                      view_num_partition := Z.of_nat (length p2n); view_mapper := {| v_ := p2n |} |}]} |} |>
    <| control_manager ::= fun c => c <| specs_ := {[3 := demo_wrapper sp]} |>
         <| versions_ := {[3 := 0]} |> <| expected_versions_ := {[3 := num_iter sp]} |> |>.

Definition final (m : SM unit) (s : Sch) : Sch := match m s with Ok (_, s', _) => s' | Err _ => s end.
Definition outputs (m : SM unit) (s : Sch) : list sched_out :=
  match m s with Ok (_, _, os) => os | Err _ => [] end.

Definition demo_s0 : Sch := demo_start (demo_plan 7 8 2) [1; 2] [1; 2; 1].
Definition demo_s1 : Sch := final (Init 3) demo_s0.
Definition demo_report (p v : Z) : SM unit := HandleUpdateJoinVersion (join_report 3 1 p v).
Definition demo_s2 : Sch := final (demo_report 0 1) demo_s1.
Definition demo_s3 : Sch := final (demo_report 1 1) demo_s2.
Definition demo_s4 : Sch := final (demo_report 2 1) demo_s3.
Definition demo_s5 : Sch := final (BatchMigrate 3 [(1, 2, 0)]) demo_s4.

Lemma demo_history : history 3 (demo_plan 7 8 2) demo_s5 [2; 2; 1]
  ((([] ++ outputs (demo_report 0 1) demo_s1) ++ outputs (demo_report 1 1) demo_s2) ++
     outputs (demo_report 2 1) demo_s3 ++ outputs (BatchMigrate 3 [(1, 2, 0)]) demo_s4).
Proof.
  rewrite app_assoc.
  apply (history_migrate 3 _ demo_s4 [1; 2; 1] _ 1 2 0); try by vm_compute.
  2: { intros i Hi. unfold in_range in Hi. cbn in Hi.
       assert (i = 0 \/ i = 1 \/ i = 2) as [->|[->| ->]] by lia; by vm_compute. }
  apply (history_join 3 _ demo_s3 _ _ 1 2); [|done|by vm_compute].
  apply (history_join 3 _ demo_s2 _ _ 1 1); [|done|by vm_compute].
  apply (history_join 3 _ demo_s1 _ _ 1 0); [|done|by vm_compute].
  eapply (history_init 3 (demo_plan 7 8 2) demo_s0 demo_s1 _
    {| view_collection_id := 8; view_num_partition := 3; view_mapper := {| v_ := [1; 2; 1] |} |});
    try by vm_compute.
  - exists (demo_wrapper (demo_plan 7 8 2)). split_and!; [by vm_compute..|by left].
  - intros n Hn. vm_compute in Hn |- *. set_solver.
  - vm_compute. repeat constructor; set_solver.
Qed.



(** Nodes 1 and 2 have one update partition each, node 3 none; both partitions finish
    iteration 1, partition 0 moves to node 3 and partition 1 finishes iteration 2. *)
Definition overtaking : SM unit :=
  Init 3 ;;; demo_report 0 1 ;;; demo_report 1 1 ;;; BatchMigrate 3 [(1, 3, 0)] ;;; demo_report 1 2.

(** a partition that is moved to a node without update partitions is no longer waited
    for: the node's version is still 0, so the branch that counts the partition is not
    taken, the node is skipped as having no partition, and the plan's version overtakes the
    partition. *)
Theorem migration_to_empty_node_is_overtaken :
  exists s os, overtaking (demo_start (demo_plan 7 8 5) [1; 2; 3] [1; 2]) = Ok (tt, s, os) /\
    GetCurVersion 3 s = 2 /\ pversion (update_table 3 s) 0 = 1 /\
    In (ToController (GetControllerActorQid 1) 3 (kUpdateVersion 2)) os.
Proof.
  destruct (overtaking (demo_start (demo_plan 7 8 5) [1; 2; 3] [1; 2])) as [[[[] s] os]|e] eqn:E;
    vm_compute in E; [|discriminate]. exists s, os. injection E as <- <-.
  split_and!; [reflexivity..|]. cbn. tauto.
Qed.

(** when the map collection is the update collection, a migration to a node whose
    minimum is the partition's version adds one to the count of the node whose id is the
    partition's id: node 2 then has two partitions at its minimum and a count of one. *)
Theorem migration_counts_wrong_node :
  exists s os, (Init 3 ;;; BatchMigrate 3 [(1, 2, 0)])
                 (demo_start (demo_plan 8 8 5) [1; 2] [1; 2; 1]) = Ok (tt, s, os) /\
    tally [2; 2; 1] (map_table 3 s) 2 0 = 2 /\ ncount (map_table 3 s) 2 = 1 /\
    ncount (map_table 3 s) 0 = 1.
Proof.
  destruct ((Init 3 ;;; BatchMigrate 3 [(1, 2, 0)]) (demo_start (demo_plan 8 8 5) [1; 2] [1; 2; 1]))
    as [[[[] s] os]|e] eqn:E; vm_compute in E; [|discriminate].
  exists s, os. injection E as <- <-. by split_and!.
Qed.
