(* ===== verification/PlanRun.v ===== *)
(** * A plan under the control manager

    The nodes of a plan ([PlanCluster]) together with the scheduler's control manager: the
    reports of a node's plan controller reach the control manager in the order they were
    sent, and its orders reach each plan controller in the order they were sent; nothing else
    is ordered.  A run starts when the last node has reported the end of its setup and the
    control manager has told all nodes to start, and has no failures and no migrations. *)

From S2P Require Import Prelude BinStream Specs Index Messages CollectionStatus SchedulerState Managers ControlManager ControlVersions Partition PlanController PlanFrame PlanExclusion PlanTokens PlanProgress PlanCluster PlanDrain PlanComplete PlanSim PlanEvents PlanResult PlanInputs PlanLedger PlanBsp.

Section Run.
Context {P Stream : Type} `{UC : UserCode P Stream} `{IO : IterOrder}.
Abbreviation NodeS := (NodeSt P Stream).
Abbreviation outs := (list (out P Stream)).
Abbreviation sysS := (sys (P := P) (Stream := Stream)).
Abbreviation node := (sysS * outs)%type.
Abbreviation clusterS := (cluster (P := P) (Stream := Stream)).

(** ** The system *)

(** [up] and [down] are the channels between each node and the scheduler, in the order of
    the nodes. *)
Record plan_run := {
  cl : clusterS; up : list (list ControllerMsg); down : list (list ctrl_msg); sched : Sch }.

(** What the scheduler sends to the controller of node [id]. *)
Definition orders (pid id : Z) (os : list sched_out) : list ctrl_msg :=
  omap (fun o => match o with
                 | ToController q pl m => if (q =? GetControllerActorQid id) && (pl =? pid) then Some m else None
                 | _ => None end) os.
Definition send_orders (pid : Z) (os : list sched_out) (ns : list node) (d : list (list ctrl_msg)) : list (list ctrl_msg) :=
  zip_with (fun n l => l ++ orders pid (my_id (st n.1)) os) ns d.

Lemma orders_broadcast pid id m ns : NoDup ns -> id ∈ ns ->
  orders pid id ((fun k => ToController (GetControllerActorQid k) pid m) <$> ns) = [m].
Proof.
  intros Hnd Hn. unfold orders. induction Hnd as [|k ns Hk Hnd IH]; [set_solver|]. cbn. rewrite Z.eqb_refl, andb_true_r.
  unfold GetControllerActorQid, kMagic in *. destruct (decide (k = id)) as [->|Hne].
  - rewrite Z.eqb_refl. f_equal. clear IH Hn Hnd. induction ns as [|j ns IH]; [done|]. cbn.
    rewrite (proj2 (Z.eqb_neq (j * 8 + 3) (id * 8 + 3))) by (assert (j <> id) by set_solver; lia). apply IH. set_solver.
  - rewrite (proj2 (Z.eqb_neq _ _)) by lia. apply IH. set_solver.
Qed.
Lemma send_orders_lookup pid os ns d i d' : send_orders pid os ns d !! i = Some d' ->
  exists n d0, ns !! i = Some n /\ d !! i = Some d0 /\ d' = d0 ++ orders pid (my_id (st n.1)) os.
Proof. unfold send_orders. intros (n & d0 & -> & Hn & Hd)%lookup_zip_with_Some. eauto. Qed.

(** Messages of the local fetcher and of the loader. *)
Definition from_node (m : ctrl_msg) : Prop :=
  match m with kFetchRequest _ _ _ _ | kFinishLoadWith _ => True | _ => False end.

Context (invoke : callback -> SM unit) (pid : Z).
Inductive pstep : plan_run -> plan_run -> Prop :=
| pstep_node r i n os s' u :
    PlanCluster.nodes (cl r) !! i = Some n -> up r !! i = Some u -> local_step n.1 os s' ->
    pstep r {| cl := {| PlanCluster.nodes := <[i := (s', n.2 ++ os)]> (PlanCluster.nodes (cl r)); net := net (cl r) ++ sent os |};
               up := <[i := u ++ reported os]> (up r); down := down r; sched := sched r |}
| pstep_net r i n w1 m w2 :
    PlanCluster.nodes (cl r) !! i = Some n -> net (cl r) = w1 ++ (GetControllerActorQid (my_id (st n.1)), m) :: w2 ->
    pstep r {| cl := {| PlanCluster.nodes := <[i := (deliver m n.1, n.2)]> (PlanCluster.nodes (cl r)); net := w1 ++ w2 |};
               up := up r; down := down r; sched := sched r |}
| pstep_local r i n m :
    PlanCluster.nodes (cl r) !! i = Some n -> from_node m ->
    pstep r {| cl := {| PlanCluster.nodes := <[i := (deliver m n.1, n.2)]> (PlanCluster.nodes (cl r)); net := net (cl r) |};
               up := up r; down := down r; sched := sched r |}
| pstep_report r i m u s' os :
    up r !! i = Some (m :: u) -> Control invoke m (sched r) = Ok (tt, s', os) ->
    pstep r {| cl := cl r; up := <[i := u]> (up r); down := send_orders pid os (PlanCluster.nodes (cl r)) (down r); sched := s' |}
| pstep_order r i n m d :
    PlanCluster.nodes (cl r) !! i = Some n -> down r !! i = Some (m :: d) -> environment m ->
    pstep r {| cl := {| PlanCluster.nodes := <[i := (deliver m n.1, n.2)]> (PlanCluster.nodes (cl r)); net := net (cl r) |};
               up := up r; down := <[i := d]> (down r); sched := sched r |}.

(** The start: every node is set up and the control manager handles the last report of it. *)
Record pinitial (sp : SpecWrapper) (mp : MapJoinSpec) (uv : CollectionView) (r : plan_run) : Prop := {
  pi_cluster : cinitial sp (cl r);
  pi_spec : as_MapJoin (Specs.spec sp) = Some mp;
  pi_id : spec_id sp = pid;
  pi_up : up r = (fun _ => []) <$> PlanCluster.nodes (cl r);
  pi_control : exists s0 ctrl os mv, c_flag ctrl = CfSetup /\ c_plan_id ctrl = pid /\
    Control invoke ctrl s0 = Ok (tt, sched r, os) /\
    Z.of_nat (size (lookup_or ∅ pid (is_setup_ (control_manager s0)) ∪ {[c_node_id ctrl]})) = num_nodes s0 /\
    down r = send_orders pid os (PlanCluster.nodes (cl r)) ((fun _ => []) <$> PlanCluster.nodes (cl r)) /\
    plan_spec pid mp s0 /\ version_of pid s0 = 0 /\ expected_version pid s0 = num_iter mp /\
    update_tables (control_manager s0) !! pid = None /\
    collection_map (elem s0) !! map_collection_id mp = Some mv /\
    collection_map (elem s0) !! update_collection_id mp = Some uv /\
    v_ (view_mapper uv) <> [] /\ (forall n, n ∈ v_ (view_mapper uv) -> n ∈ node_ids (elem s0)) /\
    NoDup (node_ids (elem s0)) /\
    (forall n, n ∈ PlanCluster.nodes (cl r) -> my_id (st n.1) ∈ node_ids (elem s0)) }.

(** Nothing is left to do. *)
Definition quiescent (r : plan_run) : Prop :=
  net (cl r) = [] /\ Forall at_rest (PlanCluster.nodes (cl r)) /\ Forall (fun u => u = []) (up r) /\ Forall (fun d => d = []) (down r).

(** ** The cluster takes the steps of [PlanCluster] *)

Lemma cstep_deliver (c : clusterS) i n m : PlanCluster.nodes c !! i = Some n -> environment m ->
  cstep c {| PlanCluster.nodes := <[i := (deliver m n.1, n.2)]> (PlanCluster.nodes c); net := net c |}.
Proof.
  intros Hi Hm. destruct c as [ns w], n as [s tr]. cbn [PlanCluster.nodes net fst snd] in *.
  rewrite (insert_take_drop ns i) by (by eapply lookup_lt_Some).
  rewrite <- (take_drop_middle ns i _ Hi) at 1. by apply cstep_env.
Qed.
Lemma cstep_receive (c : clusterS) i n w1 m w2 : PlanCluster.nodes c !! i = Some n ->
  net c = w1 ++ (GetControllerActorQid (my_id (st n.1)), m) :: w2 ->
  cstep c {| PlanCluster.nodes := <[i := (deliver m n.1, n.2)]> (PlanCluster.nodes c); net := w1 ++ w2 |}.
Proof.
  intros Hi Hw. destruct c as [ns w], n as [s tr]. cbn [PlanCluster.nodes net fst snd] in *. subst w.
  rewrite (insert_take_drop ns i) by (by eapply lookup_lt_Some).
  rewrite <- (take_drop_middle ns i _ Hi) at 1. apply cstep_net.
Qed.
Lemma pstep_cluster r r' : pstep r r' -> rtc cstep (cl r) (cl r').
Proof.
  intros [? i n os s' u Hi Hu Hs|? i n w1 m w2 Hi Hw|? i n m Hi Hm|? i m u s' os Hu Hc|? i n m d Hi Hd Hm]; cbn [cl].
  - by apply rtc_once, cstep_at.
  - by apply rtc_once, cstep_receive.
  - apply rtc_once, cstep_deliver; [done|]. by destruct m.
  - done.
  - by apply rtc_once, cstep_deliver.
Qed.
Lemma prun_cluster r r' : rtc pstep r r' -> rtc cstep (cl r) (cl r').
Proof. induction 1 as [|x y z Hxy _ IH]; [done|]. etrans; [by apply pstep_cluster|done]. Qed.
End Run.
