(* ===== verification/PlanCompletes.v ===== *)
(** * A plan without staleness comes to its end

    The control manager of the scheduler and the plan controllers of the nodes together
    ([PlanRun]): when nothing is left to do, every iteration of the plan is complete.  The
    control manager advances the version of the plan to the minimum that the update partitions
    reported, a node maps its partitions as soon as that version allows it, and a partition
    reports an iteration as soon as it has the updates of all mapped partitions; none of the
    three waits for something that does not come. *)

From S2P Require Import Prelude BinStream Specs Index Messages CollectionStatus SchedulerState Managers ControlManager ControlVersions Partition PlanController PlanFrame PlanExclusion PlanTokens PlanProgress PlanCluster PlanDrain PlanComplete PlanSim PlanEvents PlanResult PlanInputs PlanLedger PlanBsp PlanStart PlanRun.

(** ** Reports of maps *)

Definition untold {A} (m : M VTable sched_out A) : Prop := forall t, wp any m t (fun _ _ os => os = []).
Lemma untold_count_parts p2n n v pvs : untold (count_parts p2n n v pvs).
Proof.
  induction pvs as [|pv pvs IH]; intros t; cbn [count_parts]; [by wstep|]. unfold at_index. wstep. wstep. wstep.
  eapply wp_mono; [apply IH|]. intros c t' os ->. by wstep.
Qed.
Lemma untold_advance p2n p v : untold (advance p2n p v).
Proof.
  intros t. unfold advance, at_index. repeat wstep; try done.
  all: eapply wp_mono; [apply untold_count_parts|]; intros c t' os ->; by wsteps.
Qed.

(** The parts of the scheduler that the plan's version depends on. *)
Definition plan_state (s : Sch) :=
  (elem s, specs_ (control_manager s), update_tables (control_manager s), versions_ (control_manager s),
   expected_versions_ (control_manager s)).
Lemma HandleUpdateMapVersion_frame ctrl s :
  wp any (HandleUpdateMapVersion ctrl) s (fun _ s' os => os = [] /\ plan_state s' = plan_state s).
Proof.
  unfold HandleUpdateMapVersion, spec_of, cast_MapJoin, SchedulerState.view_of, cmap_Get.
  repeat wstep. unfold on_map_table. apply zoom_wp. eapply wp_mono; [apply untold_advance|]. intros b t' os ->. by wstep.
Qed.

(** ** The control manager starts the plan *)

Lemma Init_versions plan_id s : update_tables (control_manager s) !! plan_id = None ->
  wp any (Init plan_id) s (fun _ s' _ => forall i, pversion (update_table plan_id s') i = 0).
Proof.
  intros Hfresh. unfold Init, on_map_table, on_update_table, mod_ctl, spec_of, cast_MapJoin, SchedulerState.view_of, cmap_Get.
  repeat first [apply zoom_wp | wstep]. intros i. unfold update_table, pversion. cbn. rewrite !lookup_or_insert.
  match goal with |- context [reset_parts ?p ?t] => destruct (reset_parts_spec p t) as (_ & E & _) end.
  unfold lookup_or. rewrite E. case_decide; [done|].
  match goal with |- context [reset_nodes ?p ?t] => destruct (reset_nodes_spec p t) as (-> & _) end.
  rewrite (lookup_or_None _ _ _ Hfresh). done.
Qed.
Lemma last_setup_starts invoke pid mp mv uv ctrl s0 :
  c_flag ctrl = CfSetup -> c_plan_id ctrl = pid ->
  Z.of_nat (size (lookup_or ∅ pid (is_setup_ (control_manager s0)) ∪ {[c_node_id ctrl]})) = num_nodes s0 ->
  plan_spec pid mp s0 -> version_of pid s0 = 0 -> update_tables (control_manager s0) !! pid = None ->
  collection_map (elem s0) !! map_collection_id mp = Some mv -> collection_map (elem s0) !! update_collection_id mp = Some uv ->
  v_ (view_mapper uv) <> [] -> (forall n, n ∈ v_ (view_mapper uv) -> n ∈ node_ids (elem s0)) ->
  wp any (Control invoke ctrl) s0 (fun _ s1 os => ControlVersions.tracked pid mp (v_ (view_mapper uv)) s1 /\ elem s1 = elem s0 /\
    expected_version pid s1 = expected_version pid s0 /\ version_of pid s1 = 0 /\
    (forall i, pversion (update_table pid s1) i = 0) /\
    os = (fun n => ToController (GetControllerActorQid n) pid kStart) <$> node_ids (elem s0)).
Proof.
  intros Hf Hpid Hsize Hsp HV Hfresh Hmv Huv Hne Hns. unfold Control. rewrite Hf, Hpid. unfold mod_ctl.
  apply wp_bind, wp_modify, wp_bind, wp_get. cbn -[num_nodes Init]. rewrite lookup_or_insert.
  rewrite (proj2 (Z.eqb_eq _ _)) by exact Hsize. apply wp_when; [intros _|done].
  unfold SendToAllControllers. apply wp_bind, wp_bind, wp_get, wp_emits.
  eapply wp_mono; [apply wp_conj; [eapply (wp_weaken none any); [by apply (Init_spec pid mp _ mv uv)|done|intros ? ? ? Hi; exact Hi]|by apply Init_versions]|].
  intros _ s1 os ((-> & He & Hex & Ht & HV1) & Hz). split_and!; [done|done|exact Hex|done|done|by rewrite app_nil_r].
Qed.

(** ** The invariant of a run *)

Section Completes.
Context {P Stream : Type} `{UC : UserCode P Stream} `{IO : IterOrder}.
Abbreviation NodeS := (NodeSt P Stream).
Abbreviation outs := (list (out P Stream)).
Abbreviation sysS := (sys (P := P) (Stream := Stream)).
Abbreviation node := (sysS * outs)%type.
Abbreviation clusterS := (cluster (P := P) (Stream := Stream)).
Abbreviation runS := (plan_run (P := P) (Stream := Stream)).
Abbreviation cnodes r := (PlanCluster.nodes (cl r)).

(** No contents are looked at here. *)
#[local] Instance no_log : EventLog P Stream unit.
Proof. by refine {| stream_log := fun _ _ => True; bin_log := fun _ _ => True; part_log := fun _ _ _ => True |}. Defined.

Context (invoke : callback -> SM unit) (pid : Z) (sp : SpecWrapper) (mp : MapJoinSpec) (uv : CollectionView) (r0 : runS).
Let p2n : list Z := v_ (view_mapper uv).
(** The partitions of the map collection. *)
Let U : list Z := mjoin (local_maps <$> cnodes r0).
Let N : Z := num_iter mp.

(** The cluster is set up for the plan: partitions are where the collection maps say and on
    one node each, and the nodes and the scheduler agree on how many there are. *)
Record plan_start : Prop := {
  ps_initial : pinitial invoke pid sp mp uv r0;
  ps_placed : placed (cl r0);
  ps_unshared : unshared (cl r0);
  ps_iterations : 0 < num_iter mp;
  ps_staleness : staleness mp = 0;
  ps_checkpoints : checkpoints_ok mp;
  ps_maps : U <> [];
  ps_counts : Forall (fun n : node => num_upstream_part_ (pc (st n.1)) = Z.of_nat (length U) /\
    num_update_part_ (pc (st n.1)) = Z.of_nat (length p2n)) (cnodes r0);
  ps_range : forall n p, n ∈ cnodes r0 -> is_Some (updated_here n p) -> in_range p2n p }.
Context (Hstart : plan_start).

Definition sched_ok (s : Sch) : Prop :=
  ControlVersions.tracked pid mp p2n s /\ expected_version pid s = N /\ version_of pid s <= N /\ NoDup (node_ids (elem s)) /\
  forall n, n ∈ cnodes r0 -> my_id (st n.1) ∈ node_ids (elem s).
Abbreviation plan_version r := (version_of pid (sched r)).
Abbreviation part_version r := (pversion (update_table pid (sched r))).

Definition pnode_ok (r : runS) (n0 n : node) (u : list ControllerMsg) (d : list ctrl_msg) : Prop :=
  constants (st n.1) = constants (st n0.1) /\
  bsp_node N pid U (plan_version r) (part_version r) (maps_here (st n0.1)) (fun p => is_Some (updated_here n0 p)) n u d /\
  Forall environment d.
Record pinv (r : runS) : Prop := {
  pv_cluster : rtc cstep (cl r0) (cl r);
  pv_sched : sched_ok (sched r);
  pv_up : length (up r) = length (cnodes r0);
  pv_down : length (down r) = length (cnodes r0);
  pv_length : length (cnodes r) = length (cnodes r0);
  pv_nodes : forall i n0 n u d, cnodes r0 !! i = Some n0 -> cnodes r !! i = Some n ->
    up r !! i = Some u -> down r !! i = Some d -> pnode_ok r n0 n u d }.

(** ** What the cluster guarantees *)

Lemma run_cinv r : pinv r -> cinv (cl r).
Proof. intros Hr. eapply crun_inv, crun_rtc; [apply crun_start, (pi_cluster _ _ _ _ _ _ (ps_initial Hstart))|apply (pv_cluster _ Hr)]. Qed.

Lemma node_at r i n : pinv r -> cnodes r !! i = Some n -> exists n0 u d, cnodes r0 !! i = Some n0 /\
  up r !! i = Some u /\ down r !! i = Some d /\ pnode_ok r n0 n u d.
Proof.
  intros Hr Hi. pose proof (lookup_lt_Some _ _ _ Hi) as Hlt. rewrite (pv_length _ Hr) in Hlt.
  destruct (lookup_lt_is_Some_2 (cnodes r0) i Hlt) as [n0 Hn0].
  destruct (lookup_lt_is_Some_2 (up r) i) as [u Hu]; [by rewrite (pv_up _ Hr)|].
  destruct (lookup_lt_is_Some_2 (down r) i) as [d Hd]; [by rewrite (pv_down _ Hr)|].
  exists n0, u, d. split_and!; try done. by eapply pv_nodes.
Qed.

Lemma applied_once r n t : pinv r -> n ∈ cnodes r -> cnt t (applied n.2) <= 1.
Proof.
  intros Hr Hn. pose proof (run_cinv r Hr) as (_ & (hs & Hok & Hd) & Hbal).
  pose proof (made_once _ _ _ t Hok Hd) as H1. fold (updates_made t (cl r)) in H1. specialize (Hbal t).
  pose proof (sum_over_elem (fun n : node => cnt t (applied n.2)) _ n (fun _ => cnt_nonneg _ _) Hn) as H2.
  fold (updates_applied t (cl r)) in H2. cbn beta in H2. unfold updates_in_flight in Hbal.
  pose proof (on_net_nonneg t (net (cl r))).
  pose proof (sum_over_nonneg (fun n : node => on_node t n.1) (cnodes r) (fun n => on_node_nonneg _ n.1)). lia.
Qed.

(** An update that was applied was made by a map that the plan's version allowed. *)
Lemma applied_made r n p v u : pinv r -> n ∈ cnodes r -> 0 < cnt (p, v, u) (applied n.2) ->
  u ∈ U /\ 0 <= v <= Z.min (plan_version r) (N - 1).
Proof.
  intros Hr Hn Ha. pose proof (run_cinv r Hr) as (_ & (hs & Hok & Hd) & Hbal). specialize (Hbal (p, v, u)).
  pose proof (sum_over_elem (fun n : node => cnt (p, v, u) (applied n.2)) _ n (fun _ => cnt_nonneg _ _) Hn) as H2.
  fold (updates_applied (p, v, u) (cl r)) in H2. cbn beta in H2. unfold updates_in_flight in Hbal.
  pose proof (on_net_nonneg (p, v, u) (net (cl r))).
  pose proof (sum_over_nonneg (fun n : node => on_node (p, v, u) n.1) (cnodes r) (fun n => on_node_nonneg _ n.1)).
  assert (0 < updates_made (p, v, u) (cl r)) as Hm by lia.
  destruct (sum_over_pos _ _ Hm) as (n' & Hn' & Hpos). pose proof Hn' as [j Hj]%list_elem_of_lookup.
  destruct (node_at r j n' Hr Hj) as (n0 & u' & d & Hn0 & _ & _ & _ & Hb & _).
  destruct (Forall2_lookup_r _ _ _ _ _ Hok Hj) as (h & _ & (_ & _ & (_ & _ & Hrun & Hhere & Hge) & _ & _ & _ & Hx)).
  pose proof (made_le (p, v, u) n'.2) as Hle. cbn [jversion fst snd] in Hle. specialize (Hx (u, v)).
  pose proof (cnt_nonneg (u, v) (pool n'.1 ≫= task_maps)).
  assert (0 < started (pc (st n'.1)) (u, v)) as Hs by lia. unfold started in Hs. cbn [fst snd] in Hs. specialize (Hge u).
  assert (0 <= v /\ exists w, map_versions_ (pc (st n'.1)) !! u = Some w /\ (v < w \/ v = w /\ u ∈ running_maps_ (pc (st n'.1)))) as (Hv0 & w & Hw & Hvw).
  { unfold map_version, lookup_or in *. destruct (Z.leb_spec 0 v), (Z.ltb_spec v (default 0 (map_versions_ (pc (st n'.1)) !! u))); cbn [andb] in Hs.
    1: { split; [done|]. destruct (map_versions_ (pc (st n'.1)) !! u) as [w|]; cbn in *; [|lia]. exists w. auto. }
    all: destruct (Z.eqb_spec v (default 0 (map_versions_ (pc (st n'.1)) !! u))); cbn [andb] in Hs; [|lia].
    all: case_bool_decide as Hr'; [|lia]; destruct (Hrun u Hr') as [w Hw]; rewrite Hw in *; cbn in *.
    all: split; [lia|]; exists w; auto. }
  destruct Hb as [Bp Bh Bw _ [Bt _] _ _ _ _ _]. destruct Bp as (_ & Es & _). destruct (Bw u w Hw) as [B1 B2]. rewrite Es in *. split.
  - apply elem_of_all_maps. exists n0. split; [by eapply list_elem_of_lookup_2|]. apply Bh. by exists w.
  - split; [done|]. destruct Hvw as [?|[-> Hrm]]; [lia|]. specialize (B2 Hrm). lia.
Qed.

(** A node applies updates to, and holds, partitions that it started with. *)
Lemma run_logged r i n0 n : pinv r -> cnodes r0 !! i = Some n0 -> cnodes r !! i = Some n ->
  (forall t, t ∈ applied n.2 -> is_Some (updated_here n0 (jpart t))) /\
  (forall p, is_Some (updated_here n p) -> is_Some (updated_here n0 p)).
Proof.
  intros Hr Hn0 Hn. pose proof (pi_cluster _ _ _ _ _ _ (ps_initial Hstart)) as Hi.
  assert (emitted (fun _ => @nil unit) (cl r)) as He by (intros n' _ u v o _ q y _; exact I).
  pose proof (run_logging (fun _ => @nil unit) sp (cl r0) (cl r0) (cl r) (crun_start _ _ Hi) (cinitial_logging _ _ _ Hi)
    (pv_cluster _ Hr) He) as [Hlog _].
  destruct (Forall2_lookup_lr _ _ _ _ _ _ Hlog Hn0 Hn) as (_ & _ & _ & _ & _ & Hw & Hp). split; [done|].
  intros p [y Hy]. destruct (Hp p y Hy) as (x0 & Hx0 & _). by exists x0.
Qed.
Lemma applied_where r i n0 n t : pinv r -> cnodes r0 !! i = Some n0 -> cnodes r !! i = Some n ->
  0 < cnt t (applied n.2) -> is_Some (updated_here n0 (jpart t)).
Proof. intros Hr Hn0 Hn Ha. apply (proj1 (run_logged r i n0 n Hr Hn0 Hn)). by apply cnt_elem. Qed.

Lemma version_reported r n0 p : pinv r -> n0 ∈ cnodes r0 -> is_Some (updated_here n0 p) -> plan_version r <= part_version r p.
Proof.
  intros Hr Hn Hp. destruct (pv_sched _ Hr) as ([_ _ _ [Hmin _]] & _). apply Hmin. by eapply ps_range.
Qed.

Lemma joins_own r i n0 n jm : pinv r -> cnodes r0 !! i = Some n0 -> cnodes r !! i = Some n ->
  constants (st n.1) = constants (st n0.1) -> kReceiveJoin jm ∈ queue n.1 ->
  is_Some (updated_here n0 (vs_part_id (vj_meta jm))).
Proof.
  intros Hr Hn0 Hn Hc Hin. pose proof (pi_cluster _ _ _ _ _ _ (ps_initial Hstart)) as Hi.
  pose proof (run_settled _ _ _ _ (crun_start _ _ Hi) (cinitial_settled _ _ Hi (ps_placed Hstart)) (pv_cluster _ Hr)) as [Hs _].
  rewrite Forall_forall in Hs. destruct (Hs n ltac:(by eapply list_elem_of_lookup_2)) as [(_ & Hq & _) _].
  rewrite Forall_forall in Hq. destruct (Hq _ Hin) as (n' & Hn' & Hl). unfold constants in Hc. injection Hc as _ _ _ _ Eid _.
  rewrite Eid in Hl. apply (ps_placed Hstart n' n0); [done|by eapply list_elem_of_lookup_2|done].
Qed.

Lemma run_guarantees r i n0 n : pinv r -> cnodes r0 !! i = Some n0 -> cnodes r !! i = Some n ->
  bsp_guarantees U (plan_version r) (part_version r) (maps_here (st n0.1)) (fun p => is_Some (updated_here n0 p)) n.1 n.2.
Proof.
  intros Hr Hn0 Hn. destruct (node_at r i n Hr Hn) as (n0' & u & d & Hn0' & _ & _ & Hc & Hb & _). assert (n0' = n0) as -> by congruence.
  pose proof (list_elem_of_lookup_2 _ _ _ Hn) as Hin. split_and!.
  - intros p Hp. eapply version_reported; [done|by eapply list_elem_of_lookup_2|done].
  - intros t. by eapply applied_once.
  - intros jm Hj He. pose proof (joins_own r i n0 n jm Hr Hn0 Hn Hc Hj) as Ho. unfold constants in Hc. injection Hc as E1 E2 _ _ _ _.
    unfold maps_here. rewrite <- E1, He, E2. exact Ho.
  - intros p v us Hj Hne. destruct us as [|u1 us]; [done|].
    destruct Hb as [_ _ _ _ _ Bb _ Br _ _].
    assert (forall u', u' ∈ u1 :: us -> 0 < cnt (p, v, u') (queue n.1 ≫= fin_jt)) as Hpos.
    { intros u' Hu'. apply cnt_pos, list_elem_of_bind. exists (kFinishJoin p v (u1 :: us)). split; [|done]. cbn [fin_jt].
      apply list_elem_of_fmap. by exists u'. }
    assert (forall t, 0 <= counted U (pc (st n.1)) t) as Hcge by (intros t; unfold counted; repeat case_match; lia).
    assert (forall u', u' ∈ u1 :: us -> 0 < cnt (p, v, u') (applied n.2)) as Happ.
    { intros u' Hu'. rewrite Bb. specialize (Hpos u' Hu'). specialize (Hcge (p, v, u')). lia. }
    pose proof (Happ u1 ltac:(left)) as H1. destruct (applied_made r n p v u1 Hr Hin H1) as [HU1 Hv].
    pose proof (applied_where r i n0 n (p, v, u1) Hr Hn0 Hn H1) as Hup. cbn [jpart fst] in Hup.
    pose proof (version_reported r n0 p Hr (list_elem_of_lookup_2 _ _ _ Hn0) Hup) as Hrep.
    destruct (Br p) as [(_ & Hx0 & Hle & _)|(Hno & _)]; [|done].
    assert (0 <= checkpointing n.1 p) by (unfold checkpointing; pose proof (cnt_nonneg p (pool n.1 ≫= task_cp)); pose proof (cnt_nonneg p (queue n.1 ≫= msg_cp)); lia).
    split_and!; [|lia|done|intros u' Hu'; by eapply applied_made, Happ].
    destruct (decide (v = uversion (pc (st n.1)) p)) as [|Hne']; [done|]. exfalso.
    pose proof (applied_once r n (p, v, u1) Hr Hin) as H2. rewrite Bb in H2. specialize (Hpos u1 ltac:(left)).
    assert (counted U (pc (st n.1)) (p, v, u1) = 1) as Hc1; [|lia]. unfold counted. cbn [jpart jversion fst snd].
    rewrite (proj2 (Z.ltb_lt _ _)) by lia. by rewrite bool_decide_eq_true_2 by (split; [lia|done]).
Qed.

(** No partition completes more than [N] iterations. *)
Lemma uversion_bound r i n p : pinv r -> cnodes r !! i = Some n -> uversion (pc (st n.1)) p <= N.
Proof.
  intros Hr Hn. destruct (node_at r i n Hr Hn) as (n0 & u & d & Hn0 & _ & _ & _ & [_ _ _ _ _ Bb _ _ _ _] & _).
  pose proof (ps_iterations Hstart). destruct (decide (uversion (pc (st n.1)) p <= N)) as [|Hgt]; [done|]. exfalso.
  pose proof (ps_maps Hstart) as HU. destruct U as [|u1 U'] eqn:EU; [done|].
  assert (0 < cnt (p, uversion (pc (st n.1)) p - 1, u1) (applied n.2)) as Ha.
  { rewrite Bb. pose proof (cnt_nonneg (p, uversion (pc (st n.1)) p - 1, u1) (queue n.1 ≫= fin_jt)). unfold counted. cbn [jpart jversion fst snd].
    rewrite (proj2 (Z.ltb_lt _ _)) by lia. rewrite bool_decide_eq_true_2; [lia|]. split; [lia|left]. }
  destruct (applied_made r n _ _ _ Hr (list_elem_of_lookup_2 _ _ _ Hn) Ha). unfold N in *. lia.
Qed.

(** ** Every step keeps the invariant *)

(** A step that changes node [i] and its channels only. *)
Lemma pinv_node r r' i n' u' d' : pinv r -> rtc cstep (cl r) (cl r') -> sched r' = sched r ->
  (exists n, cnodes r !! i = Some n) -> cnodes r' = <[i := n']> (cnodes r) ->
  (forall j u, j <> i -> up r' !! j = Some u -> up r !! j = Some u) -> up r' !! i = Some u' -> length (up r') = length (up r) ->
  (forall j d, j <> i -> down r' !! j = Some d -> down r !! j = Some d) -> down r' !! i = Some d' -> length (down r') = length (down r) ->
  (forall n0, cnodes r0 !! i = Some n0 -> pnode_ok r n0 n' u' d') -> pinv r'.
Proof.
  intros Hr Hs Es [n Hn] En Hu Hui Lu Hd Hdi Ld Hok. split.
  - etrans; [apply (pv_cluster _ Hr)|done].
  - rewrite Es. apply (pv_sched _ Hr).
  - rewrite Lu. apply (pv_up _ Hr).
  - rewrite Ld. apply (pv_down _ Hr).
  - rewrite En, length_insert. apply (pv_length _ Hr).
  - intros j n0 n1 u d Hn0 Hn1 Huj Hdj. unfold pnode_ok. rewrite Es. destruct (decide (j = i)) as [->|Hne].
    + rewrite En, list_lookup_insert_eq in Hn1 by (by eapply lookup_lt_Some). simplify_eq. by apply Hok.
    + rewrite En, list_lookup_insert_ne in Hn1 by done. eapply (pv_nodes _ Hr); [done|done|by apply Hu|by apply Hd].
Qed.
(** The local step of a node. *)
Lemma pinv_local r i n os s' u : pinv r -> cnodes r !! i = Some n -> up r !! i = Some u -> local_step n.1 os s' ->
  pinv {| cl := {| PlanCluster.nodes := <[i := (s', n.2 ++ os)]> (cnodes r); net := net (cl r) ++ sent os |};
          up := <[i := u ++ reported os]> (up r); down := down r; sched := sched r |}.
Proof.
  intros Hr Hn Hu Hs. destruct (node_at r i n Hr Hn) as (n0 & u0 & d & Hn0 & Hu0 & Hd & Hok). assert (u0 = u) as -> by congruence.
  eapply (pinv_node r _ i (s', n.2 ++ os) (u ++ reported os) d Hr); cbn [cl up down sched PlanCluster.nodes]; try done.
  - by apply rtc_once, cstep_at.
  - by eexists.
  - intros j u' Hj. by rewrite list_lookup_insert_ne.
  - apply list_lookup_insert_eq. by eapply lookup_lt_Some.
  - apply length_insert.
  - intros n0' Hn0'. assert (n0' = n0) as -> by congruence. destruct Hok as (Hc & Hb & He).
    pose proof (run_cinv r Hr) as (_ & (hs & Hnodes & _) & _).
    destruct (Forall2_lookup_r _ _ _ _ _ Hnodes Hn) as (h & _ & Hnok). pose proof (run_guarantees r i n0 n Hr Hn0 Hn) as Hg.
    destruct n as [s tr]. cbn [fst snd] in *. split_and!; [|by eapply node_local; [eapply all_maps_NoDup, ps_initial|..]|done].
    rewrite <- Hc. by eapply step_constants.
Qed.
(** A message other than an order of the scheduler arrives. *)
Lemma pinv_deliver r i n m w : pinv r -> cnodes r !! i = Some n -> fin_jt m = [] -> msg_cp m = [] -> new_version m = None ->
  (forall p v us, m <> kFinishJoin p v us) ->
  rtc cstep (cl r) {| PlanCluster.nodes := <[i := (deliver m n.1, n.2)]> (cnodes r); net := w |} ->
  pinv {| cl := {| PlanCluster.nodes := <[i := (deliver m n.1, n.2)]> (cnodes r); net := w |};
          up := up r; down := down r; sched := sched r |}.
Proof.
  intros Hr Hn H1 H2 H3 H4 Hs. destruct (node_at r i n Hr Hn) as (n0 & u & d & Hn0 & Hu & Hd & Hok).
  eapply (pinv_node r _ i (deliver m n.1, n.2) u d Hr); cbn [cl up down sched PlanCluster.nodes]; try done.
  - by eexists.
  - intros n0' Hn0'. assert (n0' = n0) as -> by congruence. destruct Hok as (Hc & Hb & He). destruct n as [s tr].
    split_and!; [done|by apply node_deliver_other|done].
Qed.
Lemma pinv_order r i n m d : pinv r -> cnodes r !! i = Some n -> down r !! i = Some (m :: d) -> environment m ->
  pinv {| cl := {| PlanCluster.nodes := <[i := (deliver m n.1, n.2)]> (cnodes r); net := net (cl r) |};
          up := up r; down := <[i := d]> (down r); sched := sched r |}.
Proof.
  intros Hr Hn Hd Hm. destruct (node_at r i n Hr Hn) as (n0 & u & d' & Hn0 & Hu & Hd' & Hok). assert (d' = m :: d) as -> by congruence.
  eapply (pinv_node r _ i (deliver m n.1, n.2) u d Hr); cbn [cl up down sched PlanCluster.nodes]; try done.
  - by apply rtc_once, cstep_deliver.
  - by eexists.
  - intros j d' Hj. by rewrite list_lookup_insert_ne.
  - apply list_lookup_insert_eq. by eapply lookup_lt_Some.
  - apply length_insert.
  - intros n0' Hn0'. assert (n0' = n0) as -> by congruence. destruct Hok as (Hc & Hb & He). apply Forall_cons in He as [_ He]. destruct n as [s tr].
    split_and!; [done|by apply node_deliver_order; destruct m|done].
Qed.
(** The scheduler handles a report and announces a version; [f] is what it sends each node. *)
Lemma pinv_sched r i m u s' os : pinv r -> up r !! i = Some (m :: u) -> sched_ok s' ->
  version_of pid (sched r) <= version_of pid s' <= version_of pid (sched r) + 1 ->
  (forall n0, n0 ∈ cnodes r0 -> Forall environment (orders pid (my_id (st n0.1)) os) /\
     omap new_version (orders pid (my_id (st n0.1)) os) =
       if decide (version_of pid (sched r) < version_of pid s' /\ version_of pid s' <= N - 1) then [version_of pid s'] else []) ->
  (forall j n0 n u', cnodes r0 !! j = Some n0 -> cnodes r !! j = Some n -> <[i := u]> (up r) !! j = Some u' ->
     (forall u0, up r !! j = Some u0 -> reports_ok (part_version r) (fun p => is_Some (updated_here n0 p)) n.1 u0) ->
     reports_ok (pversion (update_table pid s')) (fun p => is_Some (updated_here n0 p)) n.1 u') ->
  pinv {| cl := cl r; up := <[i := u]> (up r); down := send_orders pid os (cnodes r) (down r); sched := s' |}.
Proof.
  intros Hr Hu Hs HV Ho Hrep. split; cbn [cl up down sched].
  - apply (pv_cluster _ Hr).
  - done.
  - rewrite length_insert. apply (pv_up _ Hr).
  - unfold send_orders. rewrite length_zip_with, (pv_length _ Hr), (pv_down _ Hr). lia.
  - apply (pv_length _ Hr).
  - intros j n0 n u' d' Hn0 Hn Hu' Hd'. destruct (send_orders_lookup _ _ _ _ _ _ Hd') as (n1 & d & Hn1 & Hd & ->).
    assert (n1 = n) as -> by congruence. destruct (node_at r j n Hr Hn) as (n0' & u0 & d0 & Hn0' & Hu0 & Hd0 & Hc & Hb & He).
    assert (n0' = n0) as -> by congruence. assert (d0 = d) as -> by congruence.
    assert (my_id (st n.1) = my_id (st n0.1)) as -> by (unfold constants in Hc; by injection Hc).
    destruct (Ho n0 ltac:(by eapply list_elem_of_lookup_2)) as [He' Hn'].
    split_and!; [done| |by apply Forall_app]. eapply node_announce; [exact HV| | |exact Hn'|exact Hb].
    + apply (Hrep j n0 n u' Hn0 Hn Hu'). intros u1 Hu1. assert (u1 = u0) as -> by congruence. apply (bn_reports _ _ _ _ _ _ _ _ _ _ Hb).
    + pose proof (bn_sent _ _ _ _ _ _ _ _ _ _ Hb) as Hsent. destruct (decide (j = i)) as [->|Hne].
      * rewrite list_lookup_insert_eq in Hu' by (by eapply lookup_lt_Some). assert (u0 = m :: u) as -> by congruence.
        injection Hu' as <-. by apply Forall_cons in Hsent as [_ ?].
      * rewrite list_lookup_insert_ne in Hu' by done. by assert (u' = u0) as -> by congruence.
Qed.
(** A report about a map leaves the version of the plan. *)
Lemma pinv_map_report r i m u s' os : pinv r -> up r !! i = Some (m :: u) -> c_flag m = CfMap ->
  Control invoke m (sched r) = Ok (tt, s', os) ->
  pinv {| cl := cl r; up := <[i := u]> (up r); down := send_orders pid os (cnodes r) (down r); sched := s' |}.
Proof.
  intros Hr Hu Hf Hc. unfold Control in Hc. rewrite Hf in Hc.
  destruct (wp_Ok any _ _ _ _ _ (fun _ s' os => os = [] /\ plan_state s' = plan_state (sched r)) Hc (HandleUpdateMapVersion_frame m (sched r)))
    as [-> [= Ee Es Et Ev Ex]].
  assert (update_table pid s' = update_table pid (sched r)) as Eu by (unfold update_table; by rewrite Et).
  assert (version_of pid s' = version_of pid (sched r)) as EV by (unfold version_of; by rewrite Ev).
  pose proof (pv_sched _ Hr) as (Ht & HN & HVr & Hnd & Hids).
  apply pinv_sched with m; [done|done| |lia| |].
  - split_and!; [|unfold expected_version; by rewrite Ex|by rewrite EV|by rewrite Ee|by rewrite Ee].
    apply (tracked_frame pid mp p2n (sched r)); rewrite ?Eu, ?EV; try done; apply Ht.
  - intros n0 _. split; [constructor|]. rewrite decide_False by lia. done.
  - intros j n0 n u' _ _ Hu' Hrep. rewrite Eu. destruct (decide (j = i)) as [->|Hne].
    + rewrite list_lookup_insert_eq in Hu' by (by eapply lookup_lt_Some). injection Hu' as <-. eapply reports_skip; [done|by apply Hrep].
    + rewrite list_lookup_insert_ne in Hu' by done. by apply Hrep.
Qed.
(** A report of a complete iteration of a partition counts for that partition, and the version
    of the plan goes up when all partitions have it. *)
Lemma pinv_join_report r i m u s' os : pinv r -> up r !! i = Some (m :: u) -> c_flag m = CfJoin ->
  Control invoke m (sched r) = Ok (tt, s', os) ->
  pinv {| cl := cl r; up := <[i := u]> (up r); down := send_orders pid os (cnodes r) (down r); sched := s' |}.
Proof.
  intros Hr Hu Hf Hc. pose proof (lookup_lt_Some _ _ _ Hu) as Hlt. rewrite (pv_up _ Hr), <- (pv_length _ Hr) in Hlt.
  destruct (lookup_lt_is_Some_2 _ _ Hlt) as [n Hn].
  destruct (node_at r i n Hr Hn) as (n0 & u0 & d & Hn0 & Hu0 & _ & _ & Hb & _). assert (u0 = m :: u) as -> by congruence.
  destruct (reports_next _ _ _ m u (c_part_id m) Hf eq_refl (bn_reports _ _ _ _ _ _ _ _ _ _ Hb)) as (Hup & Hv & Hle & Hnext).
  set (p := c_part_id m) in *. pose proof (ps_range Hstart n0 p ltac:(by eapply list_elem_of_lookup_2) Hup) as Hp.
  pose proof (uversion_bound r i n p Hr Hn) as Hbound.
  pose proof (bn_sent _ _ _ _ _ _ _ _ _ _ Hb) as [Hm _]%Forall_cons. destruct Hm as [Hm|(p' & v' & Hm)]; [congruence|].
  injection Hm as Hm. assert (c_plan_id m = pid) as Hpid.
  { rewrite Hm. cbn. apply (bn_parameters _ _ _ _ _ _ _ _ _ _ Hb). }
  assert (m = join_report pid (c_node_id m) p (part_version r p + 1)) as Em.
  { destruct m; cbn in *. unfold join_report. subst. f_equal; done. }
  pose proof (pv_sched _ Hr) as (Ht & HN & HVr & Hnd & Hids).
  unfold Control in Hc. rewrite Hf, Em in Hc.
  pose proof (wp_Ok _ _ _ _ _ _ _ Hc (HandleUpdateJoinVersion_spec pid mp p2n (sched r) (c_node_id m) p Ht (ps_checkpoints Hstart) Hp))
    as (Ht' & Ee & Eex & Epv & Hos & HV).
  assert (forall q, pversion (update_table pid s') q = if decide (q = p) then part_version r p + 1 else part_version r q) as Hx.
  { intros q. unfold pversion at 1. rewrite Epv. case_decide; [subst q; apply lookup_or_insert|by apply lookup_or_insert_ne]. }
  assert (version_of pid s' <= N) as HVN.
  { pose proof Ht' as [_ _ _ [Hmin _]]. specialize (Hmin p Hp). rewrite Hx, decide_True in Hmin by done. lia. }
  apply pinv_sched with m; [done|done| |done| |].
  - unfold sched_ok. rewrite Eex, Ee. by split_and!.
  - intros n1 Hn1. rewrite Hos. destruct (Z.eqb_spec (version_of pid s') (version_of pid (sched r))) as [E|E].
    + split; [constructor|]. by rewrite decide_False by lia.
    + unfold announcement. rewrite orders_broadcast by (try done; by apply Hids). rewrite HN.
      destruct (Z.eqb_spec (version_of pid s') N) as [EN|EN]; (split; [by repeat constructor|]).
      * by rewrite decide_False by lia.
      * by rewrite decide_True by lia.
  - intros j n1 n' u' Hn1 Hn' Hu' Hrep. destruct (decide (j = i)) as [->|Hne].
    + rewrite list_lookup_insert_eq in Hu' by (by eapply lookup_lt_Some). injection Hu' as <-.
      assert (n1 = n0) as -> by congruence. assert (n' = n) as -> by congruence.
      eapply reports_other; [|exact Hnext]. intros q _. cbn beta. by rewrite Hx.
    + rewrite list_lookup_insert_ne in Hu' by done. eapply reports_other; [|by apply Hrep]. intros q Hq. rewrite Hx.
      rewrite decide_False; [done|]. intros ->. apply Hne. by eapply (ps_unshared Hstart).
Qed.

Lemma pstep_pinv r r' : pinv r -> pstep invoke pid r r' -> pinv r'.
Proof.
  intros Hr Hs. destruct Hs as [r i n os s' u Hi Hu Hs|r i n w1 m w2 Hi Hw|r i n m Hi Hm|r i m u s' os Hu Hc|r i n m d Hi Hd Hm].
  - by apply pinv_local.
  - pose proof (run_cinv r Hr) as (Hnet & _). unfold net_ok in Hnet. rewrite Hw in Hnet.
    apply Forall_app in Hnet as [_ [(jm & Hjm & _) _]%Forall_cons]. cbn in Hjm. subst m.
    apply pinv_deliver; try done. by apply rtc_once, cstep_receive.
  - apply pinv_deliver; try done; try by destruct m. apply rtc_once, cstep_deliver; [done|by destruct m].
  - pose proof (lookup_lt_Some _ _ _ Hu) as Hlt. rewrite (pv_up _ Hr), <- (pv_length _ Hr) in Hlt.
    destruct (lookup_lt_is_Some_2 _ _ Hlt) as [n Hn].
    destruct (node_at r i n Hr Hn) as (n0 & u0 & d & _ & Hu0 & _ & _ & Hb & _). assert (u0 = m :: u) as -> by congruence.
    pose proof (bn_sent _ _ _ _ _ _ _ _ _ _ Hb) as [Hm _]%Forall_cons. destruct Hm as [Hm|(p' & v' & [= Hm])].
    + by eapply pinv_map_report.
    + eapply pinv_join_report; try done. by rewrite Hm.
  - by eapply pinv_order.
Qed.

Lemma pinv_start : pinv r0.
Proof.
  pose proof (ps_initial Hstart) as [Hi Hmp Hid Hup (s0 & ctrl & os & mv & Hf & Hpl & Hc & Hsize & Hd & Hsp & HV & Hex & Hfresh & Hmv & Huv & Hne & Hns & Hnd & Hids)].
  pose proof (wp_Ok any _ _ _ _ _ _ Hc (last_setup_starts invoke pid mp mv uv ctrl s0 Hf Hpl Hsize Hsp HV Hfresh Hmv Huv Hne Hns))
    as (Ht & Ee & Eex & EV & Hz & Hos).
  split.
  - done.
  - pose proof (ps_iterations Hstart). unfold sched_ok. rewrite Eex, Ee, EV. split_and!; try done. unfold N. lia.
  - by rewrite Hup, length_fmap.
  - rewrite Hd. unfold send_orders. rewrite length_zip_with, length_fmap. lia.
  - done.
  - intros i n0 n u d Hn0 Hn Hu Hdi. assert (n = n0) as -> by congruence.
    pose proof (list_elem_of_lookup_2 _ _ _ Hn0) as Hin. rewrite Hup, list_lookup_fmap, Hn0 in Hu. injection Hu as <-.
    rewrite Hd in Hdi. destruct (send_orders_lookup _ _ _ _ _ _ Hdi) as (n1 & d0 & Hn1 & Hd0 & ->). assert (n1 = n0) as -> by congruence.
    rewrite list_lookup_fmap, Hn0 in Hd0. injection Hd0 as <-. rewrite Hos, orders_broadcast by (try done; by apply Hids).
    pose proof (ps_counts Hstart) as Hcnt. rewrite Forall_forall in Hcnt. destruct (Hcnt n0 Hin) as [Hup0 _].
    split_and!; [done| |by repeat constructor]. rewrite EV. rewrite <- Hid.
    eapply start_bsp; try done; try apply Hstart; [intros p _; rewrite Hid; apply Hz|left].
Qed.

Lemma rtc_pinv r r' : pinv r -> rtc (pstep invoke pid) r r' -> pinv r'.
Proof. intros Hr Hs. revert Hr. induction Hs as [|x y z Hxy _ IH]; [done|]. intros Hx. by eapply IH, pstep_pinv. Qed.

(** ** Nothing is left to do *)

Section rest.
Context (r : runS) (Hr : pinv r) (Hq : quiescent r).

Lemma rest_node i n : cnodes r !! i = Some n -> exists n0, cnodes r0 !! i = Some n0 /\ at_rest n /\
  constants (st n.1) = constants (st n0.1) /\ sys_inv n.1 /\ stoks n.1 = [] /\
  bsp_node N pid U (plan_version r) (part_version r) (maps_here (st n0.1)) (fun p => is_Some (updated_here n0 p)) n [] [] /\
  forall u w, map_versions_ (pc (st n.1)) !! u = Some w -> 0 <= w.
Proof.
  intros Hn. destruct (node_at r i n Hr Hn) as (n0 & u & d & Hn0 & Hu & Hd & Hc & Hb & _). exists n0.
  destruct Hq as (_ & Hrest & Hup & Hdn). rewrite Forall_lookup in Hrest; rewrite Forall_lookup in Hup; rewrite Forall_lookup in Hdn.
  rewrite (Hup _ _ Hu), (Hdn _ _ Hd) in Hb. pose proof (Hrest _ _ Hn) as Ha.
  pose proof (run_cinv r Hr) as (_ & (hs & Hok & _) & _).
  destruct (Forall2_lookup_r _ _ _ _ _ Hok Hn) as (h & _ & (Hinv & _ & (_ & _ & _ & _ & Hge) & _ & Hl & _)).
  split_and!; try done.
  - destruct Ha as (Hp & Hqu & Hg & _). unfold stoks. by rewrite Hp, Hqu, Hl, Hg.
  - intros u' w Hw. specialize (Hge u'). unfold map_version, lookup_or in Hge. by rewrite Hw in Hge.
Qed.

(** Every map is past iteration [v]. *)
Definition past (v : Z) : Prop := Forall (fun n : node => map_Forall (fun _ w => v < w) (map_versions_ (pc (st n.1)))) (cnodes r).

(** Then the updates of that iteration are applied, ... *)
Lemma past_applied v q u : 0 <= v -> past v -> in_range p2n q -> u ∈ U -> updates_applied (q, v, u) (cl r) = 1.
Proof.
  intros Hv Hpast Hrange HU. pose proof (pi_cluster _ _ _ _ _ _ (ps_initial Hstart)) as Hi.
  apply elem_of_all_maps in HU as (n0 & [i Hn0]%list_elem_of_lookup & Hu). pose proof (lookup_lt_Some _ _ _ Hn0) as Hlt.
  rewrite <- (pv_length _ Hr) in Hlt. destruct (lookup_lt_is_Some_2 _ _ Hlt) as [n Hn].
  destruct (rest_node i n Hn) as (n0' & Hn0' & _ & Hc & _ & _ & Hb & _). assert (n0' = n0) as -> by congruence.
  eapply (rest_applied_once _ (cl r) n); try done; try apply Hq.
  - by apply run_cinv.
  - eapply run_settled; [by apply crun_start|apply (cinitial_settled sp); [done|apply (ps_placed Hstart)]|apply (pv_cluster _ Hr)].
  - by eapply list_elem_of_lookup_2.
  - by apply (bn_homes _ _ _ _ _ _ _ _ _ _ Hb).
  - pose proof (ps_counts Hstart) as Hcnt. rewrite Forall_forall in Hcnt. destruct (Hcnt n0 ltac:(by eapply list_elem_of_lookup_2)) as [_ Hnum].
    unfold constants in Hc. injection Hc as _ _ _ -> _ _. by rewrite Hnum.
Qed.
Lemma past_held v q u : 0 <= v -> past v -> in_range p2n q -> u ∈ U ->
  exists i n0 n, cnodes r0 !! i = Some n0 /\ cnodes r !! i = Some n /\ is_Some (updated_here n0 q) /\ 0 < cnt (q, v, u) (applied n.2).
Proof.
  intros Hv Hpast Hrange HU. pose proof (past_applied v q u Hv Hpast Hrange HU) as H1.
  destruct (sum_over_pos (fun n : node => cnt (q, v, u) (applied n.2)) (cnodes r)) as (n & [i Hn]%list_elem_of_lookup & Ha);
    [unfold updates_applied in H1; lia|].
  destruct (rest_node i n Hn) as (n0 & Hn0 & _). exists i, n0, n. split_and!; try done.
  by apply (applied_where r i n0 n (q, v, u)).
Qed.
(** ... the partitions have completed it, ... *)
Lemma past_completed k i n0 n q : (forall v, 0 <= v < k -> past v) -> cnodes r0 !! i = Some n0 -> cnodes r !! i = Some n ->
  is_Some (updated_here n0 q) -> k <= uversion (pc (st n.1)) q.
Proof.
  intros Hk Hn0 Hn Hup. destruct (decide (k <= uversion (pc (st n.1)) q)) as [|Hlt]; [done|]. exfalso.
  destruct (rest_node i n Hn) as (n0' & Hn0' & (_ & Hqu & _) & _ & _ & _ & [_ _ _ _ _ Bb Bk _ _ _] & _). assert (n0' = n0) as -> by congruence.
  destruct (Bk q) as (H0 & _ & _ & Hsize). set (v := uversion _ _) in *.
  pose proof (ps_range Hstart n0 q ltac:(by eapply list_elem_of_lookup_2) Hup) as Hrange.
  assert (list_to_set U ⊆ joined (pc (st n.1)) q v) as Hsub.
  { intros u HU%elem_of_list_to_set. destruct (past_held v q u H0 (Hk v ltac:(lia)) Hrange HU) as (j & n1 & n' & Hn1 & Hn' & Hup' & Ha).
    assert (j = i) as -> by by eapply (ps_unshared Hstart). assert (n' = n) as -> by congruence.
    rewrite Bb, Hqu in Ha. cbn [mbind list_bind] in Ha. rewrite cnt_nil in Ha. unfold counted in Ha. cbn [jpart jversion fst snd] in Ha.
    fold v in Ha. rewrite Z.ltb_irrefl in Ha. case_bool_decide as Hc; [apply Hc|lia]. }
  apply subseteq_size in Hsub. rewrite size_list_to_set in Hsub; [lia|]. eapply all_maps_NoDup, ps_initial, Hstart.
Qed.
(** ... their reports have reached the scheduler, ... *)
Lemma rest_reported i n0 n q : cnodes r0 !! i = Some n0 -> cnodes r !! i = Some n -> is_Some (updated_here n0 q) ->
  part_version r q = uversion (pc (st n.1)) q.
Proof.
  intros Hn0 Hn Hup. destruct (rest_node i n Hn) as (n0' & Hn0' & (Hp & Hqu & _) & _ & _ & _ & [_ _ _ _ _ _ _ Br _ _] & _).
  assert (n0' = n0) as -> by congruence. destruct (Br q) as [(_ & _ & Hle & E)|(Hno & _)]; [|done].
  unfold checkpointing in *. rewrite Hp, Hqu in *. cbn -[cnt] in *. rewrite cnt_nil in *.
  set (k := uversion _ _ - _ - _) in E. destruct (decide (0 < k)); [|lia]. by rewrite seqZ_cons in E.
Qed.
(** ... the plan has its version, ... *)
Lemma past_version k : 0 <= k -> (forall v, 0 <= v < k -> past v) -> k <= plan_version r.
Proof.
  intros Hk0 Hk. pose proof (ps_maps Hstart) as HU. destruct U as [|u1 U'] eqn:EU; [done|].
  destruct (pv_sched _ Hr) as ([_ _ _ [_ (q & Hrange & <-)]] & _).
  destruct (decide (k = 0)) as [->|Hne].
  - assert (exists n0, n0 ∈ cnodes r0) as (n0 & [i Hn0]%list_elem_of_lookup).
    { assert (u1 ∈ U) as Hu by (rewrite EU; left). apply elem_of_all_maps in Hu as (n0 & ? & _). eauto. }
    pose proof (lookup_lt_Some _ _ _ Hn0) as Hlt. rewrite <- (pv_length _ Hr) in Hlt. destruct (lookup_lt_is_Some_2 _ _ Hlt) as [n Hn].
    destruct (rest_node i n Hn) as (_ & _ & _ & _ & _ & _ & [_ _ _ _ [Bm _] _ _ _ _ _] & _).
    destruct (pv_sched _ Hr) as ([_ _ _ [Hmin _]] & _). specialize (Hmin q Hrange). lia.
  - destruct (past_held 0 q u1 ltac:(done) (Hk 0 ltac:(lia)) Hrange ltac:(rewrite EU; left)) as (i & n0 & n & Hn0 & Hn & Hup & _).
    rewrite (rest_reported i n0 n q Hn0 Hn Hup). by eapply past_completed.
Qed.
(** ... and the next iteration is mapped. *)
Lemma past_next k : 0 <= k < N -> (forall v, 0 <= v < k -> past v) -> past k.
Proof.
  intros Hk Hpast. apply Forall_forall. intros n [i Hn]%list_elem_of_lookup u w Hw. cbn.
  pose proof (past_version k ltac:(lia) Hpast) as HV.
  destruct (rest_node i n Hn) as (n0 & Hn0 & (_ & Hqu & _) & _ & Hinv & Ht & [Bp _ _ Ba [Bm Bt] _ _ _ _ _] & _).
  rewrite Hqu in *. assert (min_version_ (pc (st n.1)) = Z.min (plan_version r) (N - 1)) as Hmin.
  { cbn in Bt. set (j := _ - min_version_ _) in Bt. destruct (decide (0 < j)); [by rewrite seqZ_cons in Bt|lia]. }
  destruct Ba as [Ba|Ba]; [set_solver|]. destruct Bp as (EN & _).
  destruct (Ba u w Hw) as [->|[Hlt|[Hrm|[Hmc Hru]]]].
  - rewrite EN. lia.
  - lia.
  - by apply (rest_not_mapping n.1 u Hinv Ht) in Hrm.
  - exfalso. apply (rest_not_busy n.1 u Hinv Ht). by left.
Qed.
Lemma all_past v : 0 <= v < N -> past v.
Proof.
  intros [Hv0 HvN]. revert HvN. refine (Zlt_0_ind (fun z => z < N -> past z) _ v Hv0).
  intros k IH Hk0 HkN. apply past_next; [done|]. intros v' Hv'. by apply IH; [|lia].
Qed.
(** The end: the plan's version, the versions of the maps and those of the partitions. *)
Lemma final_version : plan_version r = N.
Proof.
  pose proof (ps_iterations Hstart). pose proof (past_version N ltac:(unfold N; lia) all_past).
  pose proof (pv_sched _ Hr) as (_ & _ & Hle & _). lia.
Qed.
Lemma final_map_version n u w : n ∈ cnodes r -> map_versions_ (pc (st n.1)) !! u = Some w -> w = N.
Proof.
  intros [i Hn]%list_elem_of_lookup Hw. pose proof (ps_iterations Hstart).
  destruct (rest_node i n Hn) as (n0 & Hn0 & _ & _ & _ & _ & [Bp _ Bw _ [Bm _] _ _ _ _ _] & _).
  destruct (Bw u w Hw) as [Hle _]. destruct Bp as (_ & Es & _). rewrite Es in Hle.
  pose proof (all_past (N - 1) ltac:(unfold N; lia)) as Hpast. unfold past in Hpast. rewrite Forall_forall in Hpast.
  specialize (Hpast n ltac:(by eapply list_elem_of_lookup_2) u w Hw). cbn in Hpast. lia.
Qed.
Lemma final_update_version n q : n ∈ cnodes r -> is_Some (updated_here n q) -> uversion (pc (st n.1)) q = N.
Proof.
  intros [i Hn]%list_elem_of_lookup Hh. destruct (rest_node i n Hn) as (n0 & Hn0 & _).
  apply (proj2 (run_logged r i n0 n Hr Hn0 Hn)) in Hh.
  pose proof (past_completed N i n0 n q all_past Hn0 Hn Hh). pose proof (uversion_bound r i n q Hr Hn). lia.
Qed.
End rest.
End Completes.

(** C1: A plan without staleness never stalls short of its end.  The nodes of a cluster run a map-update plan
    under the scheduler's control manager, whatever the interleaving of their steps, of the
    messages between them and of the reports and orders between them and the scheduler:
    whenever nothing is left to do, every partition of the map collection has been mapped in
    all iterations, the update of every partition of the update collection by every mapped
    partition in every iteration has been applied exactly once, every partition of the update
    collection has completed all iterations, and the plan's version at the scheduler is their
    number, so that the scheduler has told all nodes to terminate the plan.  No node waits for
    an order that does not come, and the scheduler waits for no report that does not come. *)
Theorem plan_completes {P Stream : Type} `{UC : UserCode P Stream} `{IO : IterOrder}
    (invoke : callback -> SM unit) (pid : Z) (sp : SpecWrapper) (mp : MapJoinSpec) (uv : CollectionView) (r0 r : plan_run (P := P) (Stream := Stream)) :
  plan_start invoke pid sp mp uv r0 -> rtc (pstep invoke pid) r0 r -> quiescent r ->
  version_of pid (sched r) = num_iter mp /\
  (forall n u w, n ∈ PlanCluster.nodes (cl r) -> map_versions_ (pc (st n.1)) !! u = Some w -> w = num_iter mp) /\
  (forall n q, n ∈ PlanCluster.nodes (cl r) -> is_Some (updated_here n q) -> uversion (pc (st n.1)) q = num_iter mp) /\
  (forall q v u, in_range (v_ (view_mapper uv)) q -> 0 <= v < num_iter mp ->
     u ∈ mjoin (local_maps <$> PlanCluster.nodes (cl r0)) -> updates_applied (q, v, u) (cl r) = 1).
Proof.
  intros Hstart Hrun Hq. assert (pinv pid mp uv r0 r) as Hr by (eapply rtc_pinv; [done|by eapply pinv_start|done]).
  split_and!.
  - by eapply final_version.
  - intros n u w. by eapply final_map_version.
  - intros n q. by eapply final_update_version.
  - intros q v u Hrange Hv Hu. eapply past_applied; try done; [lia|by eapply all_past].
Qed.
