(* ===== verification/PlanPlay.v ===== *)
(** * A plan under the control manager, executed

    An executable form of the steps of [PlanRun] that always takes the first step that is
    enabled, and a plan of two iterations on two nodes run with it to its end. *)

From S2P Require Import Prelude BinStream Specs Index Messages CollectionStatus SchedulerState Managers ControlManager ControlVersions Partition PlanController PlanFrame PlanExclusion PlanTokens PlanProgress PlanCluster PlanDrain PlanComplete PlanSim PlanEvents PlanResult PlanInputs MapFunctions PlanLedger PlanBsp PlanStart PlanRun PlanCompletes.

Section Play.
Context {P Stream : Type} `{UC : UserCode P Stream} `{IO : IterOrder}.
Abbreviation runS := (plan_run (P := P) (Stream := Stream)).
Abbreviation clusterS := (cluster (P := P) (Stream := Stream)).
Context (invoke : callback -> SM unit) (pid : Z).

(** An order of the scheduler reaches node [i], node [i] handles a message or runs a task, the
    [k]-th message of the network reaches node [i], a report of node [i] reaches the scheduler. *)
Inductive paction := POrder (i : nat) | PHandle (i : nat) | PTask (i : nat) | PNet (i k : nat) | PReport (i : nat).

Definition an_order (m : ctrl_msg) : bool := match m with kStart | kUpdateVersion _ | kTerminatePlan => true | _ => false end.
Definition psim_step (r : runS) (a : paction) : option runS :=
  match a with
  | POrder i =>
      n ← PlanCluster.nodes (cl r) !! i; d ← down r !! i;
      match d with
      | m :: d => if an_order m
          then Some {| cl := {| PlanCluster.nodes := <[i := (deliver m n.1, n.2)]> (PlanCluster.nodes (cl r)); net := net (cl r) |};
                       up := up r; down := <[i := d]> (down r); sched := sched r |}
          else None
      | [] => None
      end
  | PHandle i =>
      n ← PlanCluster.nodes (cl r) !! i; u ← up r !! i;
      match queue n.1 with
      | m :: q => o ← run_on (Process m) n.1 (pool n.1) q;
          Some {| cl := {| PlanCluster.nodes := <[i := (o.2, n.2 ++ o.1)]> (PlanCluster.nodes (cl r)); net := net (cl r) ++ sent o.1 |};
                  up := <[i := u ++ reported o.1]> (up r); down := down r; sched := sched r |}
      | [] => None
      end
  | PTask i =>
      n ← PlanCluster.nodes (cl r) !! i; u ← up r !! i;
      match pool n.1 with
      | t :: l => o ← run_on (run_task t) n.1 l (queue n.1);
          Some {| cl := {| PlanCluster.nodes := <[i := (o.2, n.2 ++ o.1)]> (PlanCluster.nodes (cl r)); net := net (cl r) ++ sent o.1 |};
                  up := <[i := u ++ reported o.1]> (up r); down := down r; sched := sched r |}
      | [] => None
      end
  | PNet i k =>
      n ← PlanCluster.nodes (cl r) !! i; rm ← net (cl r) !! k;
      if rm.1 =? GetControllerActorQid (my_id (st n.1)) then
        Some {| cl := {| PlanCluster.nodes := <[i := (deliver rm.2 n.1, n.2)]> (PlanCluster.nodes (cl r));
                         net := take k (net (cl r)) ++ drop (S k) (net (cl r)) |};
                up := up r; down := down r; sched := sched r |}
      else None
  | PReport i =>
      u ← up r !! i;
      match u with
      | m :: u => match Control invoke m (sched r) with
          | Ok (tt, s', os) => Some {| cl := cl r; up := <[i := u]> (up r);
              down := send_orders pid os (PlanCluster.nodes (cl r)) (down r); sched := s' |}
          | Err _ => None
          end
      | [] => None
      end
  end.

Lemma psim_step_sound r a r' : psim_step r a = Some r' -> pstep invoke pid r r'.
Proof.
  destruct a as [i|i|i|i k|i]; cbn [psim_step]; intros Hc.
  - apply bind_Some in Hc as (n & Hi & (d & Hd & Hc)%bind_Some). destruct d as [|m d]; [done|].
    destruct (an_order m) eqn:Hm; [|done]. injection Hc as <-. apply pstep_order; [done|done|by destruct m].
  - apply bind_Some in Hc as (n & Hi & (u & Hu & Hc)%bind_Some). destruct (queue n.1) as [|m q] eqn:Hq; [done|].
    apply bind_Some in Hc as ([os s'] & Hr & [= <-]). apply pstep_node; [done|done|]. unfold run_on in Hr.
    destruct (Process m (st n.1)) as [[[[] st'] os']|] eqn:E; [|done]. injection Hr as <- <-. by apply (step_handle _ m q).
  - apply bind_Some in Hc as (n & Hi & (u & Hu & Hc)%bind_Some). destruct (pool n.1) as [|t l] eqn:Hp; [done|].
    apply bind_Some in Hc as ([os s'] & Hr & [= <-]). apply pstep_node; [done|done|]. unfold run_on in Hr.
    destruct (run_task t (st n.1)) as [[[[] st'] os']|] eqn:E; [|done]. injection Hr as <- <-. by apply (step_task _ [] t l).
  - apply bind_Some in Hc as (n & Hi & ([q m] & Hk & Hc)%bind_Some). cbn [fst snd] in Hc.
    destruct (Z.eqb_spec q (GetControllerActorQid (my_id (st n.1)))) as [->|]; [|done]. injection Hc as <-.
    apply pstep_net; [done|]. by rewrite take_drop_middle.
  - apply bind_Some in Hc as (u & Hu & Hc). destruct u as [|m u]; [done|].
    destruct (Control invoke m (sched r)) as [[[[] s'] os]|] eqn:E; [|done]. injection Hc as <-. by eapply pstep_report.
Qed.

(** What may be done in a cluster of [k] nodes when [w] messages are on the network. *)
Definition pactions (k w : nat) : list paction :=
  i ← seq 0 k; [POrder i; PHandle i; PTask i; PReport i] ++ (PNet i <$> seq 0 w).
Fixpoint first_step (r : runS) (l : list paction) : option runS :=
  match l with
  | [] => None
  | a :: l => match psim_step r a with Some r' => Some r' | None => first_step r l end
  end.
Fixpoint play (fuel : nat) (r : runS) : runS :=
  match fuel with
  | O => r
  | S fuel => match first_step r (pactions (length (PlanCluster.nodes (cl r))) (length (net (cl r)))) with
      | Some r' => play fuel r'
      | None => r
      end
  end.
Lemma first_step_sound r l r' : first_step r l = Some r' -> pstep invoke pid r r'.
Proof.
  induction l as [|a l IH]; cbn; [done|]. destruct (psim_step r a) as [r1|] eqn:E; [|done]. intros [= <-]. by eapply psim_step_sound.
Qed.
Lemma play_sound fuel r : rtc (pstep invoke pid) r (play fuel r).
Proof.
  induction fuel as [|fuel IH] in r |- *; cbn [play]; [done|]. destruct (first_step _ _) as [r'|] eqn:E; [|done].
  eapply rtc_l; [by eapply first_step_sound|done].
Qed.

(** Nothing is left to do, as a test. *)
Definition is_quiescent (r : runS) : bool :=
  match net (cl r) with [] => true | _ => false end && forallb resting (PlanCluster.nodes (cl r)) &&
  forallb (fun u => match u with [] => true | _ => false end) (up r) && forallb (fun d => match d with [] => true | _ => false end) (down r).
Lemma nils_test {A} (ls : list (list A)) : forallb (fun u => match u with [] => true | _ => false end) ls = true -> Forall (fun u => u = []) ls.
Proof.
  rewrite forallb_forall. intros Hf. apply Forall_forall. intros u Hu%list_elem_of_In. specialize (Hf u Hu). by destruct u.
Qed.
Lemma is_quiescent_sound r : is_quiescent r = true -> quiescent r.
Proof.
  unfold is_quiescent. rewrite !andb_true_iff. intros (((Hn & Hr) & Hu) & Hd).
  split_and!; [by destruct (net (cl r))|by apply resting_at_rest|by apply nils_test|by apply nils_test].
Qed.
End Play.

(** ** Plans on two nodes

    Nodes 1 and 2; collection 1, which is mapped, has a partition on each; [p2n] tells where
    the partitions of collection 2 are, which is updated. *)

Definition last_setup : ControllerMsg := {| c_flag := CfSetup; c_version := -1; c_node_id := 2; c_plan_id := 0; c_part_id := -1 |}.
Definition two_nodes_plan (iters : Z) : MapJoinSpec :=
  {| map_collection_id := 1; update_collection_id := 2; combine_timeout := -1; num_iter := iters; staleness := 0;
     checkpoint_interval := 0; checkpoint_path := ""; description := "" |}.
Definition two_nodes_map (p2n : list Z) : CollectionMap := <[1 := PlanSim.view_of 1 [1; 2]]> {[2 := PlanSim.view_of 2 p2n]}.
(** Node 1 has reported the end of its setup, node 2 is about to. *)
Definition two_nodes_sched (iters : Z) (p2n : list Z) : Sch :=
  new_scheduler
    <| elem := {| SchedulerState.nodes := <[1 := ControlVersions.demo_node 1]> {[2 := ControlVersions.demo_node 2]};
                  collection_map := two_nodes_map p2n |} |>
    <| control_manager ::= fun c => c <| specs_ := {[0 := counting_plan (-1) 0 iters]} |>
         <| versions_ := {[0 := 0]} |> <| expected_versions_ := {[0 := iters]} |> <| is_setup_ := {[0 := {[1]}]} |> |>.
Definition nothing (f : callback) : SM unit := ret tt.

(** Tests for the hypotheses about starts. *)
Definition starts_well {P Stream} (ids p2n : list Z) (c : cluster (P := P) (Stream := Stream)) : bool :=
  let U := mjoin (local_maps <$> PlanCluster.nodes c) in
  bool_decide (NoDup U) && well_placed c && bool_decide (NoDup (mjoin (local_updates <$> PlanCluster.nodes c))) && bool_decide (U <> []) &&
  forallb (fun n => bool_decide (my_id (st n.1) ∈ ids) && (num_upstream_part_ (pc (st n.1)) =? Z.of_nat (length U)) &&
     (num_update_part_ (pc (st n.1)) =? Z.of_nat (length p2n)) &&
     forallb (fun p => (0 <=? p) && (p <? Z.of_nat (length p2n))) (local_updates n)) (PlanCluster.nodes c).

Section TwoNodes.
Context {P Stream : Type} `{UC : UserCode P Stream} `{IO : IterOrder} (iters : Z) (p2n : list Z) (q1 q2 : PartitionManager P).
Definition two_nodes_start : option (plan_run (P := P) (Stream := Stream)) :=
  c ← start_cluster (counting_plan (-1) 0 iters) (two_nodes_map p2n) [(1, q1); (2, q2)];
  match Control nothing last_setup (two_nodes_sched iters p2n) with
  | Ok (tt, s, os) =>
      if starts_well [1; 2] p2n c then
        Some {| cl := c; up := (fun _ => []) <$> PlanCluster.nodes c;
                down := send_orders 0 os (PlanCluster.nodes c) ((fun _ => []) <$> PlanCluster.nodes c); sched := s |}
      else None
  | Err _ => None
  end.
Definition two_nodes_run (fuel : nat) : option (plan_run * plan_run) :=
  r0 ← two_nodes_start; let r := play nothing 0 fuel r0 in if is_quiescent r then Some (r0, r) else None.

Lemma two_nodes_plan_start r : 0 < iters -> p2n <> [] -> p2n ⊆ [1; 2] -> two_nodes_start = Some r ->
  plan_start nothing 0 (counting_plan (-1) 0 iters) (two_nodes_plan iters) (PlanSim.view_of 2 p2n) r.
Proof.
  intros HN Hne Hsub Hr. unfold two_nodes_start in Hr. apply bind_Some in Hr as (c & Hc & Hr).
  destruct (Control nothing last_setup (two_nodes_sched iters p2n)) as [[[[] s] os]|] eqn:E; [|done].
  destruct (starts_well [1; 2] p2n c) eqn:Hw; [|done]. injection Hr as <-.
  unfold starts_well in Hw. rewrite !andb_true_iff, !bool_decide_eq_true in Hw. destruct Hw as ((((Hd & Hp) & Hu) & HU) & Hall).
  assert (forall n, n ∈ PlanCluster.nodes c -> my_id (st n.1) ∈ [1; 2] /\
    num_upstream_part_ (pc (st n.1)) = Z.of_nat (length (mjoin (local_maps <$> PlanCluster.nodes c))) /\
    num_update_part_ (pc (st n.1)) = Z.of_nat (length p2n) /\ forall p, p ∈ local_updates n -> in_range p2n p) as Hn.
  { intros n Hn%list_elem_of_In. rewrite forallb_forall in Hall. specialize (Hall n Hn). rewrite !andb_true_iff, bool_decide_eq_true, !Z.eqb_eq, forallb_forall in Hall.
    destruct Hall as (((? & ?) & ?) & Hp'). split_and!; try done. intros p Hin%list_elem_of_In. specialize (Hp' p Hin).
    apply andb_true_iff in Hp' as [?%Z.leb_le ?%Z.ltb_lt]. done. }
  split; cbn [cl]; try done.
  - split; cbn [cl up down sched]; try done; [by eapply start_cluster_initial|].
    exists (two_nodes_sched iters p2n), last_setup, os, (PlanSim.view_of 1 [1; 2]). split_and!; try done.
    + exists (counting_plan (-1) 0 iters). split_and!; [done|done|by left].
    + apply (bool_decide_eq_true (NoDup _)). by vm_compute.
    + intros n Hin. apply (Hn n Hin).
  - by apply well_placed_placed.
  - by apply local_updates_unshared.
  - by left.
  - apply Forall_forall. intros n Hin. destruct (Hn n Hin) as (_ & ? & ? & _). done.
  - intros n p Hin Hh. apply (Hn n Hin). destruct Hh as [x Hx]. apply list_elem_of_fmap. exists (p, x). split; [done|].
    by rewrite elem_of_entries, lookup_or_store.
Qed.
Lemma two_nodes_run_sound fuel r0 r : 0 < iters -> p2n <> [] -> p2n ⊆ [1; 2] -> two_nodes_run fuel = Some (r0, r) ->
  plan_start nothing 0 (counting_plan (-1) 0 iters) (two_nodes_plan iters) (PlanSim.view_of 2 p2n) r0 /\
  rtc (pstep nothing 0) r0 r /\ quiescent r.
Proof.
  intros HN Hne Hsub Hr. unfold two_nodes_run in Hr. apply bind_Some in Hr as (r1 & Hs & Hr).
  destruct (is_quiescent _) eqn:Hq; [|done]. injection Hr as <- <-.
  split; [by apply two_nodes_plan_start|]. split; [apply play_sound|by apply is_quiescent_sound].
Qed.
Lemma two_nodes_run_start fuel r0 r : two_nodes_run fuel = Some (r0, r) -> two_nodes_start = Some r0.
Proof. unfold two_nodes_run. intros (r1 & Hs & Hr)%bind_Some. destruct (is_quiescent _); [|done]. by injection Hr as <- _. Qed.
End TwoNodes.

(** ** Two iterations of the counting plan *)

Definition number_run : option (plan_run (P := Z) (Stream := Z) * plan_run) :=
  two_nodes_run (UC := counting 2) (IO := iter_sorted) 2 [1; 2]
    {| partitions_ := <[1 := {[0 := 5]}]> {[2 := {[0 := 100]}]} |} {| partitions_ := <[1 := {[1 := 6]}]> {[2 := {[1 := 200]}]} |} 100.

(** The numbers of both partitions are added twice to each partition of the other collection. *)
Lemma number_run_end :
  (rs ← number_run; Some ((fun n : sys * list (out Z Z) => entries <$> partitions_ (pm (st n.1)) !! 2) <$> PlanCluster.nodes (cl rs.2))) =
  Some [Some [(0, 122)]; Some [(1, 222)]].
Proof. by vm_compute. Qed.

(** The run ends with version 2 for all nodes, partitions and the scheduler. *)
Lemma plan_completes_witness :
  exists r0 r, number_run = Some (r0, r) /\ version_of 0 (sched r) = 2 /\ updates_applied (1, 1, 0) (cl r) = 1.
Proof.
  destruct number_run as [[r0 r]|] eqn:E; [|vm_compute in E; discriminate]. exists r0, r. split; [done|].
  assert (bool_decide (0 ∈ mjoin (local_maps <$> PlanCluster.nodes (cl r0))) = true) as Hin by (vm_compute in E; injection E as <- _; by vm_compute).
  pose proof E as Hrun. unfold number_run in Hrun. apply two_nodes_run_sound in Hrun as (Hs & Hr & Hq); [|done..].
  destruct (plan_completes (UC := counting 2) (IO := iter_sorted) nothing 0 (counting_plan (-1) 0 2) (two_nodes_plan 2)
    (PlanSim.view_of 2 [1; 2]) r0 r Hs Hr Hq) as (H1 & _ & _ & H4). split; [exact H1|]. clear E. apply (H4 1 1 0); [done|done|].
  by apply bool_decide_eq_true in Hin.
Defined.
