(* ===== verification/Applications.v ===== *)
(** * What programs compute under the scheduler
    (core/plan/context.hpp: count; examples/tfidf/wordcount.cpp)

    The plan controllers, the control manager and the user's functions together: what a
    map/update plan leaves in the partitions when a run under the scheduler has nothing left to
    do; and two plans that count. *)

From Stdlib Require Import OrderedTypeEx.
From S2P Require Import Prelude BinStream Specs Index Messages CollectionStatus SchedulerState Managers ControlManager ControlVersions Partition MapOutput Partitions PlanFunctions TypedCache PlanController PlanFrame PlanExclusion PlanTokens PlanProgress PlanCluster PlanDrain PlanComplete PlanSim PlanEvents PlanResult PlanInputs MapFunctions PlanLedger PlanBsp PlanStart PlanRun PlanCompletes PlanPlay.

(** ** A map/update plan under the scheduler *)

Section Scheduled.
Context {K V T1 T2 : Type} `{Countable K, !KeyOrder K, !KeyedObject K T2} `{!Serial K, !Serial V, !Serial T2}.
Abbreviation Str := (MapOutputStream K V).
Abbreviation Prt := (Part (K := K) (T1 := T1) (T2 := T2)).
Context (sort : list (K * V) -> list (K * V)) (to_bin : Prt -> BinStream) (pl : MapPartJoin (K := K) (V := V) (T1 := T1) (T2 := T2)).
Context (update_key : forall o v, Key (update pl o v) = Key o).
Context (update_comm : forall o a b, update pl (update pl o a) b = update pl (update pl o b) a).
Context (sort_perm : forall l, sort l ≡ₚ l) (nonempty : forall (k : K) (v : V), enc k ++ enc v <> []).
Context (pid uc : Z) (contents : Z -> list T1).
Context (emits_ok : forall u kv, kv ∈ mappart pl (contents u) -> 0 <= mapper pl kv.1 < Z.of_nat (num_part pl) /\ stored kv).
Context (combine_ok : forall f, combine_func pl = Some f -> mergeable pl f).
#[local] Instance scheduled_user : UserCode Prt Str := plan_user sort to_bin pl pid uc.
Context `{IO : IterOrder} (invoke : callback -> SM unit) (sp : SpecWrapper) (mp : MapJoinSpec) (uv : CollectionView).
Context (r0 r : plan_run (P := Prt) (Stream := Str)).

(** The plan maps collection [mc], with the contents above, and updates another collection, in
    which no object is there yet; it is set up on the cluster ([plan_start]) and has come to an
    end. *)
Record scheduled : Prop := {
  sc_type : spec_type sp = TMapJoin;
  sc_spec : as_MapJoin (spec sp) = Some mp;
  sc_update : update_collection_id mp = uc;
  sc_map : map_collection_id mp <> uc;
  sc_contents : holds_contents contents (map_collection_id mp) (cl r0);
  sc_empty : forall n p x, n ∈ PlanCluster.nodes (cl r0) -> updated_here n p = Some x -> x = IndexedPart new_indexed;
  sc_start : plan_start invoke pid sp mp uv r0;
  sc_run : rtc (pstep invoke pid) r0 r;
  sc_end : quiescent r }.

Lemma scheduled_effect i n k q : scheduled -> 0 <= mapper pl k < Z.of_nat (length (v_ (view_mapper uv))) ->
  PlanCluster.nodes (cl r) !! i = Some n -> updated_here n (mapper pl k) = Some (IndexedPart q) ->
  ip_view q k = Nat.iter (Z.to_nat (num_iter mp)) (fun o => foldl (update pl) o
    (iteration_values pl contents (mjoin (local_maps <$> PlanCluster.nodes (cl r0))) k)) (of_key k).
Proof using update_key update_comm sort_perm nonempty emits_ok combine_ok.
  intros [Hty Hmp Huc Hmc Hcont Hempty Hstart Hrun Hq] Hk Hn Hh.
  pose proof (rtc_pinv invoke pid sp mp uv r0 Hstart r0 r (pinv_start invoke pid sp mp uv r0 Hstart) Hrun) as Hr.
  assert (Forall (fun n : sys * list (out Prt Str) => num_update_part_ (pc (st n.1)) = Z.of_nat (length (v_ (view_mapper uv))))
    (PlanCluster.nodes (cl r))) as Hnum.
  { apply Forall_lookup. intros j n' Hj. destruct (node_at pid mp uv r0 r j n' Hr Hj) as (n0 & _ & _ & Hn0 & _ & _ & Hc & _).
    pose proof (ps_counts _ _ _ _ _ _ Hstart) as Hcnt. rewrite Forall_lookup in Hcnt. destruct (Hcnt j n0 Hn0) as [_ <-].
    unfold constants in Hc. by injection Hc. }
  destruct (plan_effect sort to_bin pl update_key update_comm sort_perm nonempty pid uc contents emits_ok combine_ok
    sp mp (cl r0) (cl r) (num_iter mp) i n k q) as (n0 & q0 & Hn0 & Hq0 & Hv); try done.
  - apply (pi_cluster _ _ _ _ _ _ (ps_initial _ _ _ _ _ _ Hstart)).
  - apply (ps_placed _ _ _ _ _ _ Hstart).
  - apply (ps_unshared _ _ _ _ _ _ Hstart).
  - by apply prun_cluster in Hrun.
  - apply Hq.
  - apply Hq.
  - apply Forall_forall. intros n' Hn' u w Hw. by eapply (final_map_version invoke pid sp mp uv r0 Hstart).
  - eapply Forall_impl; [exact Hnum|]. by intros n' ->.
  - pose proof (Hempty n0 _ _ (list_elem_of_lookup_2 _ _ _ Hn0) Hq0) as [= ->].
    apply Hv; [apply new_indexed_ok|intros k'; by apply unsorted_known].
Qed.
End Scheduled.

(** ** Adding up ints *)

(** [a + b] of two [int]s: overflow is undefined in C++ and wraps in the generated code. *)
Definition int_add (a b : Z) : Z := (a + b + 2 ^ 31) mod 2 ^ 32 - 2 ^ 31.
Lemma int_add_in_int a b : in_int (int_add a b).
Proof. unfold int_add, in_int. pose proof (Z.mod_pos_bound (a + b + 2 ^ 31) (2 ^ 32)). lia. Qed.
Lemma int_add_exact a b : in_int (a + b) -> int_add a b = a + b.
Proof. unfold int_add, in_int. intros Hab. rewrite Z.mod_small by lia. lia. Qed.
Lemma int_add_assoc a b c : int_add (int_add a b) c = int_add a (int_add b c).
Proof.
  unfold int_add. set (M := 2 ^ 32). f_equal. set (x := (a + b + 2 ^ 31) mod M). set (y := (b + c + 2 ^ 31) mod M).
  assert (x = (a + b + 2 ^ 31) - M * ((a + b + 2 ^ 31) / M)) as Hx by (unfold x; rewrite Z.mod_eq by done; lia).
  assert (y = (b + c + 2 ^ 31) - M * ((b + c + 2 ^ 31) / M)) as Hy by (unfold y; rewrite Z.mod_eq by done; lia).
  rewrite Hx, Hy.
  replace (a + b + 2 ^ 31 - M * ((a + b + 2 ^ 31) / M) - 2 ^ 31 + c + 2 ^ 31)
    with (a + b + c + 2 ^ 31 + (- ((a + b + 2 ^ 31) / M)) * M) by lia.
  replace (a + (b + c + 2 ^ 31 - M * ((b + c + 2 ^ 31) / M) - 2 ^ 31) + 2 ^ 31)
    with (a + b + c + 2 ^ 31 + (- ((b + c + 2 ^ 31) / M)) * M) by lia.
  by rewrite !Z.mod_add.
Qed.
Lemma int_add_comm a b : int_add a b = int_add b a.
Proof. unfold int_add. by rewrite (Z.add_comm a b). Qed.

(** Messages that all are 1. *)
Lemma count_ones (n : nat) a : Z.of_nat n < 2 ^ 31 -> 0 <= a -> a + Z.of_nat n < 2 ^ 31 -> foldl int_add a (replicate n 1) = a + Z.of_nat n.
Proof.
  revert a. induction n as [|n IH]; intros a Hn Ha Hs; cbn -[Z.of_nat]; [lia|].
  rewrite int_add_exact by (unfold in_int; lia). rewrite IH by lia. lia.
Qed.
Lemma replicate_bind {A B} (l : list A) (f : A -> nat) (b : B) : l ≫= (fun x => replicate (f x) b) = replicate (sum_list (f <$> l)) b.
Proof. induction l as [|x l IH]; [done|]. rewrite bind_cons, IH. cbn. by rewrite replicate_add. Qed.

(** ** Context::count *)

Record CountObjT := { co_a : Z; co_b : Z }.
#[export] Instance KeyedObject_CountObjT : KeyedObject Z CountObjT.
Proof. by refine {| Key := co_a; of_key := fun k => {| co_a := k; co_b := 0 |} |}. Defined.
#[export] Instance Serial_CountObjT : Serial CountObjT.
Proof.
  refine {| enc := fun o => enc (co_a o) ++ enc (co_b o); dec := (a <-- dec ;; b <-- dec ;; ret {| co_a := a; co_b := b |});
            storable := fun o => storable (co_a o) /\ storable (co_b o) |}.
  solve_reads.
Defined.

(** The plan of [count]; [hash] is [std::hash<int>]. *)
Definition count_plan {T1} (hash : Z -> Z) : MapPartJoin (K := Z) (V := Z) (T1 := T1) (T2 := CountObjT) :=
  SetMapPart (fun obj => [(0, 1)])
    {| mapper := Hash_Get hash 1; num_part := 1; mappart := fun _ => [];
       update := fun a b => {| co_a := co_a a; co_b := int_add (co_b a) b |};
       combine_func := Some int_add |}.

Lemma count_mappart {T1} hash (l : list T1) : mappart (count_plan hash) l = replicate (length l) (0, 1).
Proof.
  assert (forall o, foldl (fun (o : list (Z * Z)) (_ : T1) => o ++ [(0, 1)]) o l = o ++ replicate (length l) (0, 1)) as Hf; [|apply (Hf [])].
  induction l as [|x l IH]; intros o; cbn; [by rewrite app_nil_r|]. by rewrite IH, <- app_assoc.
Qed.
Lemma values_of_replicate {K V} `{EqDecision K} (k : K) (n : nat) (v : V) : values_of k (replicate n (k, v)) = replicate n v.
Proof. unfold values_of. induction n as [|n IH]; [done|]. cbn [replicate]. rewrite filter_cons, decide_True by done. cbn [fmap list_fmap]. by f_equal. Qed.
Lemma count_updates {T1} hash (l : list Z) o :
  foldl (update (count_plan (T1 := T1) hash)) o l = {| co_a := co_a o; co_b := foldl int_add (co_b o) l |}.
Proof. revert o. induction l as [|x l IH]; intros o; cbn; [by destruct o|]. by rewrite IH. Qed.
Lemma count_values {T1} hash (contents : Z -> list T1) us :
  iteration_values (count_plan hash) contents us 0 = replicate (sum_list ((fun u => length (contents u)) <$> us)) 1.
Proof.
  unfold iteration_values. rewrite <- replicate_bind.
  induction us as [|u us IH]; [done|]. by rewrite !bind_cons, IH, count_mappart, values_of_replicate.
Qed.

Section Count.
Context {T1 : Type} (hash : Z -> Z) (sort : list (Z * Z) -> list (Z * Z)) (sort_perm : forall l, sort l ≡ₚ l).
Context (to_bin : Part (K := Z) (T1 := T1) (T2 := CountObjT) -> BinStream).

(** C8: [Context::count] counts.  It runs a map/update plan that sends 1 for every object of a
    collection to the object 0 of a collection with one partition.  When the run of the plan
    under the scheduler has nothing left to do, that object holds the number of objects in
    all partitions of the counted collection on all nodes, as long as that number is an
    [int]. *)
Theorem count_counts `{IO : IterOrder} invoke sp mp uv pid uc contents r0 r i n q :
  scheduled sort to_bin (count_plan hash) pid uc contents invoke sp mp uv r0 r ->
  num_iter mp = 1 -> length (v_ (view_mapper uv)) = 1%nat ->
  let total := sum_list ((fun u => length (contents u)) <$> mjoin (local_maps <$> PlanCluster.nodes (cl r0))) in
  Z.of_nat total < 2 ^ 31 ->
  PlanCluster.nodes (cl r) !! i = Some n -> updated_here n 0 = Some (IndexedPart q) ->
  ip_view q 0 = {| co_a := 0; co_b := Z.of_nat total |}.
Proof using sort_perm.
  intros Hsc HN Hparts total Htot Hn Hq. assert (forall k, mapper (count_plan (T1 := T1) hash) k = 0) as Hm0 by (intros k; apply Z.mod_1_r).
  etrans; [eapply (scheduled_effect sort to_bin (count_plan hash)); [..|exact Hsc| |exact Hn|]|].
  - done.
  - intros o a b. cbn. f_equal. rewrite !int_add_assoc. f_equal. apply int_add_comm.
  - done.
  - by intros k v.
  - intros u kv. rewrite count_mappart, Hm0. intros [-> _]%elem_of_replicate. split; [done|]. split; cbn; unfold storable; cbn; unfold in_int; lia.
  - intros f [= <-]. split; [intros o a b; cbn; f_equal; by rewrite int_add_assoc|]. intros a b _ _. apply int_add_in_int.
  - rewrite Hm0, Hparts. done.
  - by rewrite Hm0.
  - rewrite HN. change (Z.to_nat 1) with 1%nat. unfold Nat.iter. cbn [nat_rect]. rewrite count_updates, count_values.
    fold total. by rewrite count_ones by (cbn; lia).
Qed.
End Count.

(** ** examples/tfidf/wordcount.cpp *)

Record WC := { word : string; wc_count : Z }.
#[export] Instance KeyedObject_WC : KeyedObject string WC.
Proof. by refine {| Key := word; of_key := fun k => {| word := k; wc_count := 0 |} |}. Defined.
#[export] Instance Serial_WC : Serial WC.
Proof.
  refine {| enc := fun o => enc (word o) ++ enc (wc_count o); dec := (a <-- dec ;; b <-- dec ;; ret {| word := a; wc_count := b |});
            storable := fun o => storable (word o) /\ storable (wc_count o) |}.
  solve_reads.
Defined.
(** [std::string]s are compared byte by byte. *)
#[export] Instance KeyOrder_string : KeyOrder string.
Proof.
  assert (forall a b, String.ltb a b = true <-> String_as_OT.lt a b) as Hlt.
  { intros a b. rewrite <- String_as_OT.cmp_lt. unfold String.ltb. change (String_as_OT.cmp a b) with (String.compare a b). by destruct (String.compare a b). }
  refine {| key_lt := String.ltb |}.
  - intros k. apply not_true_iff_false. rewrite Hlt. intros Hk. by apply (String_as_OT.lt_not_eq _ _ Hk).
  - intros a b c. rewrite !Hlt. apply String_as_OT.lt_trans.
  - intros a b. rewrite !Hlt. destruct (String_as_OT.compare a b) as [?|?|?]; auto.
Defined.

(** [tokens] is [boost::tokenizer] with the separators blank, tab and newline; the contents of
    a partition are the lines that its block reader gives. *)
Definition wordcount_plan (tokens : string -> list string) (hash : string -> Z) (num_parts : nat) :
    MapPartJoin (K := string) (V := Z) (T1 := string) (T2 := WC) :=
  {| mapper := Hash_Get hash (Z.of_nat num_parts); num_part := num_parts;
     mappart := fun lines => lines ≫= (fun line => (fun w => (w, 1)) <$> tokens line);
     update := fun wc c => {| word := word wc; wc_count := int_add (wc_count wc) c |};
     combine_func := Some int_add |}.

(** How often a word is in some lines. *)
Definition occurrences (tokens : string -> list string) (w : string) (lines : list string) : nat :=
  length (filter (fun x => x = w) (lines ≫= tokens)).

Lemma wordcount_values tokens hash np contents us w :
  iteration_values (wordcount_plan tokens hash np) contents us w = replicate (sum_list ((fun u => occurrences tokens w (contents u)) <$> us)) 1.
Proof.
  unfold iteration_values. rewrite <- replicate_bind. induction us as [|u us IH]; [done|]. rewrite !bind_cons, IH. f_equal.
  unfold occurrences. cbn [mappart wordcount_plan]. induction (contents u) as [|l ls IHl]; [done|].
  rewrite !bind_cons, filter_app, length_app, replicate_add, <- IHl. unfold values_of. rewrite filter_app, fmap_app. f_equal. clear.
  induction (tokens l) as [|x xs IH]; [done|]. rewrite fmap_cons, !filter_cons. cbn [fst].
  case_decide; [|done]. rewrite fmap_cons. cbn [snd length replicate]. by f_equal.
Qed.
Lemma wordcount_updates tokens hash np (l : list Z) o :
  foldl (update (wordcount_plan tokens hash np)) o l = {| word := word o; wc_count := foldl int_add (wc_count o) l |}.
Proof. revert o. induction l as [|x l IH]; intros o; cbn; [by destruct o|]. by rewrite IH. Qed.

Section WordCount.
Context (tokens : string -> list string) (hash : string -> Z) (num_parts : nat).
Context (sort : list (string * Z) -> list (string * Z)) (sort_perm : forall l, sort l ≡ₚ l).
Context (to_bin : Part (K := string) (T1 := string) (T2 := WC) -> BinStream).

(** C7: The word count program counts words.  It maps the lines of a file, split into blocks that
    are on any number of nodes, to a message 1 for every word, and adds the messages up at the
    word's object in a collection partitioned by the hash of the words, whether messages are
    combined before they are sent or not.  When the run of the plan under the scheduler has
    nothing left to do, the object of every word holds how often the word is in all lines, as
    long as that number is an [int]. *)
Theorem wordcount_counts `{IO : IterOrder} invoke sp mp uv pid uc contents r0 r i n w q :
  scheduled sort to_bin (wordcount_plan tokens hash num_parts) pid uc contents invoke sp mp uv r0 r ->
  num_iter mp = 1 -> length (v_ (view_mapper uv)) = num_parts -> num_parts <> 0%nat ->
  (forall u x, x ∈ contents u ≫= tokens -> length_fits (String.list_byte_of_string x)) ->
  let total := sum_list ((fun u => occurrences tokens w (contents u)) <$> mjoin (local_maps <$> PlanCluster.nodes (cl r0))) in
  Z.of_nat total < 2 ^ 31 ->
  PlanCluster.nodes (cl r) !! i = Some n -> updated_here n (Hash_Get hash (Z.of_nat num_parts) w) = Some (IndexedPart q) ->
  ip_view q w = {| word := w; wc_count := Z.of_nat total |}.
Proof using sort_perm.
  intros Hsc HN Hparts Hnp Hfit total Htot Hn Hq.
  assert (forall k, 0 <= mapper (wordcount_plan tokens hash num_parts) k < Z.of_nat num_parts) as Hm by (intros k; apply Z.mod_pos_bound; lia).
  etrans; [eapply (scheduled_effect sort to_bin (wordcount_plan tokens hash num_parts)); [..|exact Hsc| |exact Hn|exact Hq]|].
  - done.
  - intros o a b. cbn. f_equal. rewrite !int_add_assoc. f_equal. apply int_add_comm.
  - done.
  - intros k v [_ E]%app_nil. done.
  - intros u kv Hkv. split; [apply Hm|]. cbn in Hkv. apply list_elem_of_bind in Hkv as (l & Hkv & Hl).
    apply list_elem_of_fmap in Hkv as (x & -> & Hx). split; [apply (Hfit u), list_elem_of_bind; by exists l|].
    cbn; unfold storable; cbn; unfold in_int; lia.
  - intros f [= <-]. split; [intros o a b; cbn; f_equal; by rewrite int_add_assoc|]. intros a b _ _. apply int_add_in_int.
  - rewrite Hparts. apply Hm.
  - rewrite HN. change (Z.to_nat 1) with 1%nat. unfold Nat.iter. cbn [nat_rect]. rewrite wordcount_updates, wordcount_values.
    fold total. by rewrite count_ones by (cbn; lia).
Qed.
End WordCount.

(** ** Runs *)

(** A collection of five objects in two partitions on two nodes is counted. *)
Definition five_objects (u : Z) : list Z := if u =? 0 then [7; 8; 9] else [4; 5].
Definition count_user : UserCode (Part (K := Z) (T1 := Z) (T2 := CountObjT)) (MapOutputStream Z Z) :=
  plan_user key_sort (fun _ => empty_stream) (count_plan (T1 := Z) id) 0 2.
Definition count_run :=
  two_nodes_run (UC := count_user) (IO := iter_sorted) 1 [1]
    {| partitions_ := <[1 := {[0 := SeqPart (five_objects 0)]}]> {[2 := {[0 := IndexedPart new_indexed]}]} |}
    {| partitions_ := <[1 := {[1 := SeqPart (five_objects 1)]}]> {[2 := ∅]} |} 100.

Section tests.
Context {K V T1 T2 : Type} `{Countable K, !EqDecision T1}.
Abbreviation Stream := (MapOutputStream K V).
Abbreviation Prt := (Part (K := K) (T1 := T1) (T2 := T2)).
Abbreviation runS := (plan_run (P := Prt) (Stream := Stream)).
(** The partition [p] of the updated collection on node [i]. *)
Definition final_partition (i : nat) (p : Z) (r : runS) :
    option (sys (P := Prt) (Stream := Stream) * list (out Prt Stream) * IndexedSeqPartition K T2) :=
  n ← PlanCluster.nodes (cl r) !! i;
  match updated_here n p with Some (IndexedPart q) => Some (n, q) | _ => None end.
Lemma final_partition_here i p (r : runS) n q :
  final_partition i p r = Some (n, q) -> PlanCluster.nodes (cl r) !! i = Some n /\ updated_here n p = Some (IndexedPart q).
Proof.
  unfold final_partition. intros (n' & Hn & Hq)%bind_Some. destruct (updated_here n' p) as [[l|q']|] eqn:E; [done| |done].
  injection Hq as -> ->. done.
Qed.

(** The contents of collection 1 at the start, and that collection 2 is empty. *)
Definition has_contents (contents : Z -> list T1) (ux : Z * Prt) : bool :=
  match ux.2 with SeqPart l => bool_decide (l = contents ux.1) | IndexedPart _ => false end.
Definition is_new (px : Z * Prt) : bool :=
  match px.2 with
  | IndexedPart q => match storage_ q, sorted_size_ q with [], O => bool_decide (unsorted_ q = ∅) | _, _ => false end
  | SeqPart _ => false end.
Definition starts_with (contents : Z -> list T1) (r : runS) : bool :=
  forallb (fun n => forallb (has_contents contents) (entries (lookup_or ∅ 1 (partitions_ (pm (st n.1))))) &&
    forallb is_new (entries (lookup_or ∅ (update_collection_id_ (pc (st n.1))) (partitions_ (pm (st n.1))))) )
    (PlanCluster.nodes (cl r)).
Lemma starts_with_sound contents (r : runS) : starts_with contents r = true ->
  holds_contents contents 1 (cl r) /\
  forall n p x, n ∈ PlanCluster.nodes (cl r) -> updated_here n p = Some x -> x = IndexedPart new_indexed.
Proof.
  unfold starts_with. rewrite forallb_forall. intros Hall. split.
  - intros n u x Hn%list_elem_of_In Hx. specialize (Hall n Hn). apply andb_true_iff in Hall as [Hc _].
    rewrite forallb_forall in Hc. specialize (Hc (u, x)). rewrite <- list_elem_of_In, elem_of_entries, lookup_or_store in Hc. specialize (Hc Hx).
    unfold has_contents in Hc. cbn in Hc. destruct x; [|done]. by apply bool_decide_eq_true in Hc as ->.
  - intros n p x Hn%list_elem_of_In Hx. specialize (Hall n Hn). apply andb_true_iff in Hall as [_ Hc].
    rewrite forallb_forall in Hc. specialize (Hc (p, x)). rewrite <- list_elem_of_In, elem_of_entries, lookup_or_store in Hc. specialize (Hc Hx).
    unfold is_new in Hc. cbn in Hc. destruct x as [l|[l m k]]; [done|]. cbn in Hc. destruct l, k; try done. by apply bool_decide_eq_true in Hc as ->.
Qed.
End tests.

Lemma count_counts_witness :
  exists r0 r n q, count_run = Some (r0, r) /\ PlanCluster.nodes (cl r) !! 0%nat = Some n /\ updated_here n 0 = Some (IndexedPart q) /\
    ip_view q 0 = {| co_a := 0; co_b := 5 |}.
Proof.
  assert (0 < 1 /\ [1] <> [] /\ [1] ⊆ [1; 2]) as (H1 & H2 & H3) by (split_and!; [done|done|set_solver]).
  assert (bool_decide (is_Some (rs ← count_run; if starts_with five_objects rs.1 && bool_decide (sum_list ((fun u => length (five_objects u)) <$> mjoin (local_maps <$> PlanCluster.nodes (cl rs.1))) = 5%nat)
    then final_partition 0 0 rs.2 else None)) = true) as Hs by by vm_compute.
  apply bool_decide_eq_true in Hs as [[n q] Hs]. apply bind_Some in Hs as ([r0 r] & E & Hf). cbn [fst snd] in Hf.
  destruct (starts_with _ _) eqn:Hstart in Hf; [|done]. apply starts_with_sound in Hstart as [Hcont Hnew]. cbn [andb] in Hf.
  destruct (bool_decide _) eqn:Ht in Hf; [|done]. apply bool_decide_eq_true in Ht. apply final_partition_here in Hf as [Hn Hq].
  pose proof E as Hrun. unfold count_run in Hrun. apply two_nodes_run_sound in Hrun as (Hst & Hr & Hend); [|exact H1|exact H2|exact H3].
  exists r0, r, n, q. split; [exact E|]. split; [exact Hn|]. split; [exact Hq|]. clear E.
  assert (scheduled key_sort (fun _ => empty_stream) (count_plan (T1 := Z) id) 0 2 five_objects nothing (counting_plan (-1) 0 1) (two_nodes_plan 1)
    (PlanSim.view_of 2 [1]) r0 r) as Hsc by (split; [reflexivity|reflexivity|reflexivity|discriminate|exact Hcont|exact Hnew|exact Hst|exact Hr|exact Hend]).
  pose proof (count_counts id key_sort (fun l => merge_sort_Permutation key_le l) (fun _ => empty_stream) nothing _ _ _ 0 2 five_objects r0 r 0
    n q Hsc eq_refl eq_refl) as Hc. cbn zeta in Hc.
  rewrite Ht in Hc. exact (Hc eq_refl Hn Hq).
Defined.

(** Three lines in two partitions on two nodes; the words are partitioned by their length. *)
Fixpoint split_blanks (w : string) (s : string) : list string :=
  let done := if bool_decide (w = ""%string) then [] else [w] in
  match s with
  | EmptyString => done
  | String c s => if bool_decide (c = Ascii.ascii_of_nat 32) then done ++ split_blanks "" s else split_blanks (w ++ String c "") s
  end.
Definition three_lines (u : Z) : list string := if u =? 0 then ["to be or not"; "to be"]%string else ["be  that"]%string.
Definition word_le (x y : string * Z) : Prop := String.leb x.1 y.1 = true.
#[local] Instance word_le_dec : RelDecision word_le := fun x y => bool_dec (String.leb x.1 y.1) true.
Definition length_hash (w : string) : Z := Z.of_nat (String.length w).
Definition demo_wordcount : MapPartJoin := wordcount_plan (split_blanks "") length_hash 2.
Definition wordcount_user : UserCode (Part (K := string) (T1 := string) (T2 := WC)) (MapOutputStream string Z) :=
  plan_user (merge_sort word_le) (fun _ => empty_stream) demo_wordcount 0 2.
Definition wordcount_run :=
  two_nodes_run (UC := wordcount_user) (IO := iter_sorted) 1 [1; 2]
    {| partitions_ := <[1 := {[0 := SeqPart (three_lines 0)]}]> {[2 := {[0 := IndexedPart new_indexed]}]} |}
    {| partitions_ := <[1 := {[1 := SeqPart (three_lines 1)]}]> {[2 := {[1 := IndexedPart new_indexed]}]} |} 100.

Lemma wordcount_counts_witness :
  exists r0 r n q, wordcount_run = Some (r0, r) /\ PlanCluster.nodes (cl r) !! 0%nat = Some n /\ updated_here n 0 = Some (IndexedPart q) /\
    ip_view q "be"%string = {| word := "be"; wc_count := 3 |}.
Proof.
  assert (0 < 1 /\ [1; 2] <> [] /\ [1; 2] ⊆ [1; 2]) as (H1 & H2 & H3) by (split_and!; [done|done|set_solver]).
  assert (bool_decide (is_Some (rs ← wordcount_run; if starts_with three_lines rs.1 && bool_decide (sum_list ((fun u => occurrences (split_blanks "") "be" (three_lines u)) <$> mjoin (local_maps <$> PlanCluster.nodes (cl rs.1))) = 3%nat)
    then final_partition 0 0 rs.2 else None)) = true) as Hs by by vm_compute.
  apply bool_decide_eq_true in Hs as [[n q] Hs]. apply bind_Some in Hs as ([r0 r] & E & Hf). cbn [fst snd] in Hf.
  destruct (starts_with _ _) eqn:Hstart in Hf; [|done]. apply starts_with_sound in Hstart as [Hcont Hnew]. cbn [andb] in Hf.
  destruct (bool_decide _) eqn:Ht in Hf; [|done]. apply bool_decide_eq_true in Ht. apply final_partition_here in Hf as [Hn Hq].
  pose proof E as Hrun. unfold wordcount_run in Hrun. apply two_nodes_run_sound in Hrun as (Hst & Hr & Hend); [|exact H1|exact H2|exact H3].
  exists r0, r, n, q. split; [exact E|]. split; [exact Hn|]. split; [exact Hq|]. clear E.
  assert (scheduled (merge_sort word_le) (fun _ => empty_stream) demo_wordcount 0 2 three_lines nothing (counting_plan (-1) 0 1) (two_nodes_plan 1)
    (PlanSim.view_of 2 [1; 2]) r0 r) as Hsc by (split; [reflexivity|reflexivity|reflexivity|discriminate|exact Hcont|exact Hnew|exact Hst|exact Hr|exact Hend]).
  pose proof (wordcount_counts (split_blanks "") length_hash 2 (merge_sort word_le) (fun l => merge_sort_Permutation word_le l)
    (fun _ => empty_stream) nothing _ _ _ 0 2 three_lines r0 r 0 n "be" q Hsc eq_refl eq_refl ltac:(discriminate)) as Hc. cbn zeta in Hc.
  rewrite Ht in Hc. refine (Hc _ eq_refl Hn Hq). clear.
  intros u x. unfold three_lines. destruct (u =? 0); cbn; intros Hx;
    repeat (apply elem_of_cons in Hx as [->|Hx]; [done|]); by apply elem_of_nil in Hx.
Defined.
