(* ===== verification/Scheduler.v ===== *)
(** * The scheduler actor (core/scheduler/scheduler.{hpp,cpp})

    The scheduler takes the program from the workers, asks the runner for runnable plans,
    starts each with the manager of its kind and, on kFinishPlan, asks the runner again.
    This file also ties the managers' callbacks to what they do. *)

From S2P Require Import Prelude BinStream Dag DagRunner Specs Index Messages Assigner CollectionStatus.
From S2P Require Import SchedulerState Managers ControlManager.

(** ** The runner behind [std::unique_ptr<AbstractDagRunner>] *)

Definition runner_remaining (r : dag_runner) : Z :=
  match r with RSequential d => GetNumRemainingPlans d | RWide d => GetNumRemainingPlans d end.

Definition with_runner {A} (f : forall D, DagRunner D -> M D Empty_set A) (r : dag_runner) :
    res (A * dag_runner * list Empty_set) :=
  match r with
  | RSequential d => match f _ _ d with Ok (a, d', os) => Ok (a, RSequential d', os) | Err e => Err e end
  | RWide d => match f _ _ d with Ok (a, d', os) => Ok (a, RWide d', os) | Err e => Err e end
  end.

Definition on_runner {A} (f : forall D, DagRunner D -> M D Empty_set A) : SM A :=
  s <-- get ;;
  r <-- deref (dag_runner_ s) "dag_runner_" ;;
  match with_runner f r with
  | Ok (a, r', _) => modify (fun s => s <| dag_runner_ := Some r' |>) ;;; ret a
  | Err e => throw e
  end.

Section scheduler.
(** The file system and the host-name lookup. *)
Context (browse : string -> list BlockInfo) (get_ip : string -> string).

Definition Exit : SM unit := SendToAllWorkers kExit ;;; emit ExitPromise.

Definition RunDummy : SM unit := SendToAllWorkers kDummy.

(** [Scheduler::RunPlan]: after the bookkeeping, the manager of the plan's type takes over. *)
Definition start_manager (w : SpecWrapper) : SM unit :=
  match spec_type w with
  | TDistribute => Distribute w
  | TLoad => bm_Load browse get_ip w
  | TMapJoin | TMapWithJoin => RunPlan w (CbFinishPlan (spec_id w))
  | TWrite => Write w
  | TCheckpoint => Checkpoint w
  | TLoadCheckpoint => cpm_LoadCheckpoint w
  | TInit => check false "spec.type"
  end.

Definition sch_RunPlan (plan_id : Z) : SM unit :=
  s <-- get ;;
  check ((0 <=? plan_id) && (plan_id <? Z.of_nat (length (specs (program_ s))))) "plan_id < program_.specs.size()" ;;;
  w <-- at_index (specs (program_ s)) plan_id "program_.specs[plan_id]" ;;
  on_status (AddPlan plan_id (GetReadWrite (spec w))) ;;;
  start_manager w.

Definition TryRunPlan : SM unit :=
  s <-- get ;;
  r <-- deref (dag_runner_ s) "dag_runner_" ;;
  if runner_remaining r =? 0 then Exit
  else
    plans <-- on_runner (fun D _ => GetRunnablePlans) ;;
    for_each plans sch_RunPlan.

(** ** Recovery *)

Definition set_map_join (sp : MapJoinSpec) (s : Spec) : Spec :=
  match s with
  | SMapJoin _ => SMapJoin sp
  | SMapWithJoin w => SMapWithJoin {| with_base := sp; with_collection_id := with_collection_id w |}
  | _ => s
  end.

(** The body of the loop of [FinishRecovery] over the one current plan. *)
Definition restart_plan (pid : Z) : SM unit :=
  on_status (FinishPlan pid) ;;;
  s <-- get ;;
  check ((0 <=? pid) && (pid <? Z.of_nat (length (specs (program_ s))))) "pid < program_.specs.size()" ;;;
  w <-- at_index (specs (program_ s)) pid "program_.specs[pid]" ;;
  sp <-- GetMapJoinSpec w ;;
  let cur_version := GetCurVersion pid s in
  let interval := checkpoint_interval sp in
  check (negb (interval =? 0)) "mapupdate_spec->checkpoint_interval" ;;;
  let new_iter := num_iter sp - Z.quot cur_version interval * interval in
  id <-- GetRecoverPlanId pid ;;
  let sp' := {| map_collection_id := map_collection_id sp; update_collection_id := update_collection_id sp;
                combine_timeout := combine_timeout sp; num_iter := new_iter; staleness := staleness sp;
                checkpoint_interval := checkpoint_interval sp; checkpoint_path := checkpoint_path sp;
                description := description sp |} in
  let w' := w <| spec := set_map_join sp' (spec w) |> <| spec_id := id |> in
  modify (fun s => s <| program_ := {| specs := <[Z.to_nat pid := w']> (specs (program_ s));
                                       dag := dag (program_ s) |} |>) ;;;
  sch_RunPlan pid.

Definition FinishRecovery : SM unit :=
  s <-- get ;;
  let cur_plans := GetCurrentPlans (collection_status s) in
  check (bool_decide (length cur_plans = 1%nat)) "cur_plans.size() == 1" ;;;
  for_each cur_plans restart_plan.

Definition invoke_recover (cb : recover_callback) : SM unit :=
  match cb with
  | CbFinishRecovery => FinishRecovery
  | CbReassign plan_id reads =>
      check (bool_decide (length reads = 1%nat)) "reads.size() == 1" ;;;
      r <-- deref (head reads) "reads.begin()" ;;
      ReassignMap plan_id r.1
  end.

(** What each stored [std::function] does. *)
Definition invoke (cb : callback) : SM unit :=
  match cb with
  | CbFinishPlan plan_id => ToScheduler (kFinishPlan plan_id)
  | CbCheckpointLoaded cid =>
      s <-- get ;;
      ToScheduler (kFinishPlan (lookup_or 0 cid (cid_pid_ (checkpoint_manager s)))) ;;;
      mod_cpm (fun c => c <| cid_pid_ ::= delete cid |>)
  | CbAborted dead_nodes =>
      reads <-- on_status GetReadsAndCP ;;
      writes <-- on_status GetWritesAndCP ;;
      Recover dead_nodes writes reads CbFinishRecovery
  | CbRecoverLoaded cid => RecoverDoneForACollection invoke_recover cid RtLoadCheckpoint
  | CbRecoverUpdated cid => RecoverDoneForACollection invoke_recover cid RtUpdateCollectionMap
  | CbWithLoaded plan_id meta with_cid => with_loaded plan_id meta with_cid
  | CbWithUpdated plan_id meta => with_updated plan_id meta
  end.

Definition lost_in_view (dead_nodes : gset Z) (cid : Z) : SM bool :=
  cv <-- view_of cid ;;
  ret (existsb (fun n => bool_decide (n ∈ dead_nodes)) (v_ (view_mapper cv))).

(** The loop returns at the first written collection that lost a partition. *)
Fixpoint lost_any (dead_nodes : gset Z) (writes : list Z) : SM bool :=
  match writes with
  | [] => ret false
  | w :: writes' =>
      b <-- lost_in_view dead_nodes w ;; if b then ret true else lost_any dead_nodes writes'
  end.
Definition LostWriteCollection (dead_nodes : gset Z) : SM bool :=
  s <-- get ;; lost_any dead_nodes (GetWrites (collection_status s)).

Definition Recovery (dead_nodes : gset Z) : SM unit :=
  modify (fun s => s <| elem ::= fun e => e <| nodes ::= fun m =>
    foldl (fun m n => delete n m) m (members dead_nodes) |> |>) ;;;
  s <-- get ;;
  let cur_plans := GetCurrentPlans (collection_status s) in
  check (bool_decide (length cur_plans = 1%nat)) "cur_plans.size() == 1" ;;;
  plan_id <-- deref (head cur_plans) "cur_plans[0]" ;;
  w <-- at_index (specs (program_ s)) plan_id "program_.specs[plan_id]" ;;
  check (bool_decide (spec_type w = TMapJoin) || bool_decide (spec_type w = TMapWithJoin))
    "type == kMapJoin || type == kMapWithJoin" ;;;
  lost <-- LostWriteCollection dead_nodes ;;
  if lost then AbortPlan plan_id (CbAborted dead_nodes)
  else
    reads <-- on_status GetReadsAndCP ;;
    Recover dead_nodes [] reads (CbReassign plan_id reads).

(** ** Starting *)

Definition Ready (ns : list Node) : SM unit :=
  for_each ns (fun n =>
    s <-- get ;;
    check (bool_decide (nodes (elem s) !! node_host_id n = None)) "elem_->nodes.find(node.id) == end" ;;;
    modify (fun s => s <| elem ::= fun e => e <| nodes ::=
      <[node_host_id n := {| info_node := n; num_local_threads := 0 |}]> |> |>)).

(** [wide] is the configuration: [dag_runner_type_ == wide] or [sequential]. *)
Definition RegisterProgram (wide : bool) (node_id threads : Z) (program : ProgramContext) : SM unit :=
  s <-- get ;;
  check (bool_decide (is_Some (nodes (elem s) !! node_id))) "elem_->nodes.find(node_id) != end" ;;;
  modify (fun s => s <| elem ::= fun e => e <| nodes ::= alter (fun i =>
    {| info_node := info_node i; num_local_threads := threads |}) node_id |> |>) ;;;
  when (negb (init_program_ s))
    (modify (fun s => s <| init_program_ := true |> <| program_ := program |>
       <| dag_runner_ := Some (if wide then RWide (make_runner (dag program))
                               else RSequential (make_runner (dag program))) |>)) ;;;
  modify (fun s => s <| register_program_count_ ::= Z.succ |>) ;;;
  s <-- get ;;
  when (register_program_count_ s =? num_nodes s) TryRunPlan.

Definition sch_FinishPlan (plan_id : Z) : SM unit :=
  let plan_id := if IsRecoverPlan plan_id then GetRealId plan_id else plan_id in
  on_runner (fun D _ => FinishRun plan_id) ;;;
  on_status (FinishPlan plan_id) ;;;
  TryRunPlan.

(** [Scheduler::Process]. *)
Definition sch_Process (wide : bool) (m : sched_msg) : SM unit :=
  match m with
  | kRegisterProgram node_id threads program => RegisterProgram wide node_id threads program
  | kUpdateCollectionReply cid node_id => FinishUpdate invoke cid node_id
  | kFinishBlock b => bm_FinishBlock b
  | kFinishDistribute cid part_id node_id plan_id => FinishDistribute cid part_id node_id plan_id
  | kFinishCheckpointS _ cid => FinishCheckpoint cid
  | kFinishLoadCheckpoint _ cid => FinishLoadCheckpoint invoke cid
  | kFinishWritePartition _ cid => FinishWritePartition cid
  | kControl ctrl => Control invoke ctrl
  | kFinishPlan plan_id => sch_FinishPlan plan_id
  | kRecovery dead_nodes => Recovery dead_nodes
  end.
End scheduler.
