(* ===== verification/SchedulerProofs.v ===== *)
(** * Theorems about the scheduler and its managers

    Counting replies, distributing a collection, replacing dead nodes and running the plans
    one after another. *)

From S2P Require Import Prelude BinStream Dag DagRunner Specs Index Messages Assigner CollectionStatus.
From S2P Require Import SchedulerState Managers ControlManager Scheduler.

(** ** Replacing dead nodes *)

Lemma replace_dead_spec dead live i k p2n s : live <> [] -> (forall n, n ∈ live -> n ∉ dead) ->
  wp none (replace_dead dead live i k p2n) s (fun r s' os => s' = s /\ os = [] /\
    length r.1 = length p2n /\
    (forall j n, p2n !! j = Some n -> n ∉ dead -> r.1 !! j = Some n) /\
    (forall j n, p2n !! j = Some n -> n ∈ dead -> exists m, r.1 !! j = Some m /\ m ∈ live) /\
    (forall p, p ∈ r.2 <-> exists j n, p = i + Z.of_nat j /\ p2n !! j = Some n /\ n ∈ dead)).
Proof.
  intros Hne Hlive. revert i k. induction p2n as [|n p2n IH]; intros i k; cbn [replace_dead].
  { apply wp_ret. split_and!; try done. intros p. split; [set_solver|].
    intros (j & n & _ & Hj & _). by rewrite lookup_nil in Hj. }
  assert (forall (r : list Z * list Z) a l,
    length r.1 = length p2n ->
    (forall j n, p2n !! j = Some n -> n ∉ dead -> r.1 !! j = Some n) ->
    (forall j n, p2n !! j = Some n -> n ∈ dead -> exists m, r.1 !! j = Some m /\ m ∈ live) ->
    (forall p, p ∈ r.2 <-> exists j n, p = (i + 1) + Z.of_nat j /\ p2n !! j = Some n /\ n ∈ dead) ->
    (n ∉ dead /\ a = n /\ l = r.2 \/ n ∈ dead /\ a ∈ live /\ l = i :: r.2) ->
    length (a :: r.1) = length (n :: p2n) /\
    (forall j m, (n :: p2n) !! j = Some m -> m ∉ dead -> (a :: r.1) !! j = Some m) /\
    (forall j m, (n :: p2n) !! j = Some m -> m ∈ dead -> exists m', (a :: r.1) !! j = Some m' /\ m' ∈ live) /\
    (forall p, p ∈ l <-> exists j m, p = i + Z.of_nat j /\ (n :: p2n) !! j = Some m /\ m ∈ dead)) as Hcons.
  { intros r a l H1 H2 H3 H4 Ha. split_and!; [cbn; lia|..].
    - intros [|j] m Hj Hm; cbn in *; [|by apply H2]. injection Hj as ->.
      destruct Ha as [(_ & -> & _)|(? & _)]; [done|contradiction].
    - intros [|j] m Hj Hm; cbn in *; [|by apply (H3 j m)]. injection Hj as ->.
      destruct Ha as [(? & _)|(_ & ? & _)]; [contradiction|eauto].
    - intros p. assert ((exists j m, p = i + Z.of_nat j /\ (n :: p2n) !! j = Some m /\ m ∈ dead) <->
        p = i /\ n ∈ dead \/ p ∈ r.2) as ->.
      { rewrite H4. split.
        - intros ([|j] & m & -> & Hj & Hm); cbn in Hj; [injection Hj as ->; left; split; [lia|done]|].
          right. exists j, m. split_and!; [lia|done..].
        - intros [[-> Hn]|(j & m & -> & Hj & Hm)]; [exists 0%nat, n|exists (S j), m]; split_and!; done || lia. }
      destruct Ha as [(Hn & _ & ->)|(Hn & _ & ->)]; rewrite ?elem_of_cons; tauto. }
  repeat wstep.
  - apply bool_decide_eq_true in Hif. eapply wp_mono; [apply IH|].
    intros r s' os (-> & -> & H1 & H2 & H3 & H4). apply wp_ret. split; [done|]. split; [done|].
    apply (Hcons r); [done..|]. right. split_and!; [done| |done]. by eapply list_elem_of_lookup_2.
  - intros Hn. apply lookup_ge_None in Hn. destruct live; [done|].
    pose proof (Nat.mod_upper_bound k (length (z :: live))). cbn in *. unfold none. lia.
  - apply bool_decide_eq_false in Hif. eapply wp_mono; [apply IH|].
    intros r s' os (-> & -> & H1 & H2 & H3 & H4). apply wp_ret. split; [done|]. split; [done|].
    apply (Hcons r); [done..|]. by left.
Qed.

(** C22: moving the partitions of a collection off dead nodes: the new placement uses no dead
    node, partitions on live nodes stay where they are, and the list that is returned (the
    partitions to reload) is exactly the list of partitions that were lost. *)
Theorem dead_nodes_replaced cid cv dead s :
  collection_map (elem s) !! cid = Some cv -> node_ids (elem s) <> [] ->
  (forall n, n ∈ node_ids (elem s) -> n ∉ dead) ->
  exists lost s' cv', ReplaceDeadnodesAndReturnUpdated cid dead s = Ok (lost, s', []) /\
    collection_map (elem s') !! cid = Some cv' /\
    length (v_ (view_mapper cv')) = length (v_ (view_mapper cv)) /\
    (forall n, n ∈ v_ (view_mapper cv') -> n ∉ dead) /\
    (forall j n, v_ (view_mapper cv) !! j = Some n -> n ∉ dead -> v_ (view_mapper cv') !! j = Some n) /\
    (forall p, p ∈ lost <-> exists j n, p = Z.of_nat j /\ v_ (view_mapper cv) !! j = Some n /\ n ∈ dead).
Proof.
  intros Hcv Hne Hlive. edestruct (wp_none_Ok (ReplaceDeadnodesAndReturnUpdated cid dead) s) as (l & s' & os & Hrun & HQ).
  - unfold ReplaceDeadnodesAndReturnUpdated, put_view. apply wp_bind. eapply wp_view_of; [done|].
    apply wp_bind, wp_get, wp_bind. eapply wp_mono; [by apply replace_dead_spec|].
    intros r s1 os (-> & -> & H1 & H2 & H3 & H4). apply wp_bind, wp_modify, wp_ret.
    instantiate (1 := fun l s' os => os = [] /\ exists cv', collection_map (elem s') !! cid = Some cv' /\ _ cv' l).
    split; [done|]. eexists. cbn. rewrite lookup_insert_eq. split; [done|].
    instantiate (1 := fun cv' l => length (v_ (view_mapper cv')) = length (v_ (view_mapper cv)) /\
      (forall j n, v_ (view_mapper cv) !! j = Some n -> n ∉ dead -> v_ (view_mapper cv') !! j = Some n) /\
      (forall j n, v_ (view_mapper cv) !! j = Some n -> n ∈ dead ->
         exists m, v_ (view_mapper cv') !! j = Some m /\ m ∈ node_ids (elem s)) /\
      (forall p, p ∈ l <-> exists j n, p = 0 + Z.of_nat j /\ v_ (view_mapper cv) !! j = Some n /\ n ∈ dead)).
    cbn. done.
  - destruct HQ as (-> & cv' & Hcv' & H1 & H2 & H3 & H4). exists l, s', cv'. split_and!; try done.
    intros n [j Hj]%list_elem_of_lookup_1.
    destruct (lookup_lt_is_Some_2 (v_ (view_mapper cv)) j) as [m Hm].
    { rewrite <- H1. by eapply lookup_lt_Some. }
    destruct (decide (m ∈ dead)) as [Hd|Hd].
    + destruct (H3 j m Hm Hd) as (m' & Hm' & Hl). simplify_eq. by apply Hlive.
    + rewrite (H2 j m Hm Hd) in Hj. by simplify_eq.
Qed.

(** Witness: three partitions on nodes 0, 1, 2; node 1 died and nodes 0 and 2 are left. *)
Definition small_node (i : Z) : NodeInfo :=
  {| info_node := {| node_host_id := i; hostname := "h"; node_port := 1; is_recovery := false |};
     num_local_threads := 1 |}.
Definition small_scheduler : Sch :=
  new_scheduler <| elem := {| collection_map := {[ 5 := new_view 5 [0; 1; 2] ]};
                              nodes := {[ 0 := small_node 0; 2 := small_node 2 ]} |} |>.

Lemma dead_nodes_replaced_witness :
  exists lost s' cv', ReplaceDeadnodesAndReturnUpdated 5 {[ 1 ]} small_scheduler = Ok (lost, s', []) /\
    collection_map (elem s') !! 5 = Some cv' /\ (forall n, n ∈ v_ (view_mapper cv') -> n ∉ ({[ 1 ]} : gset Z)).
Proof.
  destruct (dead_nodes_replaced 5 (new_view 5 [0; 1; 2]) {[ 1 ]} small_scheduler)
    as (lost & s' & cv' & H1 & H2 & _ & H3 & _).
  - reflexivity.
  - by vm_compute.
  - assert (node_ids (elem small_scheduler) = [0; 2]) as -> by (vm_compute; reflexivity).
    intros n Hn. set_solver.
  - exists lost, s', cv'. split_and!; done.
Defined.

(** ** Counting replies *)

(** The manager waits for [n] replies for a collection on behalf of a plan and has [k]. *)
Definition counting (cid pid : Z) (n k : nat) (c : ReplyCounter) : Prop :=
  reply_count_map c !! cid = Some (Z.of_nat k) /\
  expected_reply_count_map c !! cid = Some (Z.of_nat n) /\ cid_pid_ c !! cid = Some pid.

Lemma counting_start cid pid n c : counting cid pid n 0 (start_counting cid pid (Z.of_nat n) c).
Proof. unfold counting, start_counting. cbn. by rewrite !lookup_insert_eq. Qed.

Lemma counting_reply cid pid n k c : counting cid pid n k c ->
  counting cid pid n (S k) (count_reply cid c) /\
  all_replied cid (count_reply cid c) = bool_decide (S k = n) /\
  lookup_or 0 cid (cid_pid_ (count_reply cid c)) = pid.
Proof.
  intros (Hk & Hn & Hp). unfold counting, all_replied, count_reply, lookup_or. cbn.
  rewrite Hk, Hn, Hp, lookup_insert_eq. cbn. split_and!; try done.
  - f_equal. lia.
  - destruct (Z.eqb_spec (Z.of_nat k + 1) (Z.of_nat n)); symmetry;
      [apply bool_decide_eq_true|apply bool_decide_eq_false]; lia.
Qed.

Lemma counting_reply_other cid cid' pid n k c : cid <> cid' ->
  counting cid pid n k c -> counting cid pid n k (count_reply cid' c).
Proof.
  intros Hne (Hk & Hn & Hp). unfold counting, count_reply. cbn.
  by rewrite lookup_insert_ne.
Qed.

(** Running a handler for each of a list of replies, of this and of other collections. *)
Section replies.
Context (counter : Sch -> ReplyCounter) (finish : Z -> SM unit) (cid pid : Z) (n : nat).
Context (own_reply : forall k s, counting cid pid n k (counter s) -> exists s',
  finish cid s = Ok (tt, s', if bool_decide (S k = n) then [ToSelf (kFinishPlan pid)] else []) /\
  ((S k < n)%nat -> counting cid pid n (S k) (counter s'))).
Context (other_reply : forall cid' k s, cid' <> cid -> counting cid pid n k (counter s) -> exists s' os,
  finish cid' s = Ok (tt, s', os) /\ counting cid pid n k (counter s')).

Lemma replies_counted cids k s : counting cid pid n k (counter s) ->
  (k + count_occ Z.eq_dec cids cid < n)%nat ->
  exists s1 os1, for_each cids finish s = Ok (tt, s1, os1) /\
    counting cid pid n (k + count_occ Z.eq_dec cids cid) (counter s1).
Proof using own_reply other_reply.
  revert k s. induction cids as [|c cids IH]; intros k s Hc Hlt; cbn in *.
  - exists s, []. by rewrite Nat.add_0_r.
  - destruct (Z.eq_dec c cid) as [->|Hne].
    + destruct (own_reply k s Hc) as (s1 & Hrun & Hc1).
      destruct (IH (S k) s1) as (s2 & os2 & Hrun2 & Hc2); [apply Hc1; lia|lia|].
      eexists s2, _. unfold bind. rewrite Hrun, Hrun2. split; [done|].
      by rewrite <- Nat.add_succ_comm.
    + destruct (other_reply c k s Hne Hc) as (s1 & os1 & Hrun & Hc1).
      destruct (IH k s1 Hc1 Hlt) as (s2 & os2 & Hrun2 & Hc2).
      eexists s2, _. unfold bind. by rewrite Hrun, Hrun2.
Qed.

Lemma replies_finish cids s : counting cid pid n 0 (counter s) ->
  (count_occ Z.eq_dec cids cid < n)%nat ->
  exists s1 os1 s2, for_each cids finish s = Ok (tt, s1, os1) /\
    finish cid s1 = Ok (tt, s2, if bool_decide (S (count_occ Z.eq_dec cids cid) = n)
                                then [ToSelf (kFinishPlan pid)] else []).
Proof using own_reply other_reply.
  intros Hc Hlt. destruct (replies_counted cids 0 s Hc Hlt) as (s1 & os1 & Hrun & Hc1).
  destruct (own_reply _ _ Hc1) as (s2 & Hrun2 & _). by exists s1, os1, s2.
Qed.
End replies.

Lemma mapper_Get_in {S O} (m : SimplePartToNodeMapper) j x (s : S) : v_ m !! j = Some x ->
  mapper_Get (O := O) (Z.of_nat j) m s = Ok (x, s, []).
Proof.
  intros Hj. pose proof (lookup_lt_Some _ _ _ Hj). unfold mapper_Get, check.
  rewrite (proj2 (andb_true_iff _ _)); [|split; [apply Z.leb_le|apply Z.ltb_lt]; lia].
  unfold bind, ret. rewrite Nat2Z.id, Hj. done.
Qed.

(** One message to the owner of every partition of a collection. *)
Definition to_owners (cv : CollectionView) (msg : Z -> worker_msg) : list sched_out :=
  zip_with (fun i n => ToWorker (GetWorkerQid n) (msg i))
    (seqZ 0 (Z.of_nat (length (v_ (view_mapper cv))))) (v_ (view_mapper cv)).

Lemma send_to_owners cv msg s :
  for_each (seqZ 0 (mapper_GetNumParts (view_mapper cv)))
    (fun i => n <-- mapper_Get i (view_mapper cv) ;; SendTo n (msg i)) s =
  Ok (tt, s, to_owners cv msg).
Proof.
  unfold mapper_GetNumParts, to_owners. apply for_each_indexed.
  intros j x Hj. unfold bind. rewrite (mapper_Get_in _ _ _ _ Hj). done.
Qed.

Arguments count_reply : simpl never.

Section write_replies.
Context (cid pid : Z) (n : nat).
Lemma write_own_reply k s : counting cid pid n k (write_manager s) -> exists s',
  FinishWritePartition cid s = Ok (tt, s', if bool_decide (S k = n) then [ToSelf (kFinishPlan pid)] else []) /\
  ((S k < n)%nat -> counting cid pid n (S k) (write_manager s')).
Proof.
  intros (Hc & Hall & Hpid)%counting_reply. unfold FinishWritePartition, mod_wm, bind, modify, get, when. cbn.
  rewrite Hall, Hpid. eexists. by case_bool_decide.
Qed.
Lemma write_other_reply cid' k s : cid' <> cid -> counting cid pid n k (write_manager s) -> exists s' os,
  FinishWritePartition cid' s = Ok (tt, s', os) /\ counting cid pid n k (write_manager s').
Proof.
  intros Hne Hc. apply (counting_reply_other _ cid') in Hc; [|done].
  unfold FinishWritePartition, mod_wm, bind, modify, get, when. cbn.
  destruct (all_replied _ _); by eexists _, _.
Qed.
Lemma checkpoint_own_reply k s : counting cid pid n k (checkpoint_manager s) -> exists s',
  FinishCheckpoint cid s = Ok (tt, s', if bool_decide (S k = n) then [ToSelf (kFinishPlan pid)] else []) /\
  ((S k < n)%nat -> counting cid pid n (S k) (checkpoint_manager s')).
Proof.
  intros (Hc & Hall & Hpid)%counting_reply. unfold FinishCheckpoint, mod_cpm, bind, modify, get, when. cbn.
  rewrite Hall, Hpid. case_bool_decide; eexists; (split; [done|]); [lia|done].
Qed.
Lemma checkpoint_other_reply cid' k s : cid' <> cid -> counting cid pid n k (checkpoint_manager s) ->
  exists s' os, FinishCheckpoint cid' s = Ok (tt, s', os) /\ counting cid pid n k (checkpoint_manager s').
Proof.
  intros Hne Hc. apply (counting_reply_other _ cid') in Hc; [|done].
  unfold FinishCheckpoint, mod_cpm, bind, modify, get, when. cbn.
  destruct (all_replied _ _); eexists _, _; (split; [done|]); [|done].
  destruct Hc as (H1 & H2 & H3). unfold counting. cbn. split_and!; try done. by rewrite lookup_delete_ne.
Qed.
End write_replies.

(** a write plan asks the owner of every partition exactly once, naming one file per
    partition, and is reported finished by exactly the reply that completes the count,
    whatever replies for other collections arrive in between. *)
Theorem write_plan_completes w sp cv s cids :
  spec_type w = TWrite -> spec w = SWrite sp ->
  collection_map (elem s) !! write_collection_id sp = Some cv ->
  let n := length (v_ (view_mapper cv)) in
  (count_occ Z.eq_dec cids (write_collection_id sp) < n)%nat ->
  exists s1 os s2 s3,
    Write w s = Ok (tt, s1, to_owners cv (fun i =>
      kWritePartition (write_collection_id sp) i (write_url sp +:+ "/part-" +:+ pretty i))) /\
    for_each cids FinishWritePartition s1 = Ok (tt, s2, os) /\
    FinishWritePartition (write_collection_id sp) s2 = Ok (tt, s3,
      if bool_decide (S (count_occ Z.eq_dec cids (write_collection_id sp)) = n)
      then [ToSelf (kFinishPlan (spec_id w))] else []).
Proof.
  intros Ht Hs Hv n Hlt. set (cid := write_collection_id sp) in *.
  set (s1 := s <| write_manager ::= start_counting cid (spec_id w) (Z.of_nat n) |>).
  destruct (replies_finish write_manager FinishWritePartition cid (spec_id w) n
    (write_own_reply _ _ _) (write_other_reply _ _ _) cids s1) as (s2 & os & s3 & H2 & H3);
    [apply counting_start|done|].
  exists s1, os, s2, s3. split_and!; [|done..]. apply wp_exact.
  unfold Write, GetWriteSpec. rewrite Ht, Hs. repeat wstep; try done. injection Hx as <-.
  eapply wp_view_of; [done|]. unfold mod_wm. repeat wstep.
  unfold wp. rewrite send_to_owners. done.
Qed.

Lemma Checkpoint_sends w sp cv s :
  spec_type w = TCheckpoint -> spec w = SCheckpoint sp ->
  collection_map (elem s) !! cp_cid sp = Some cv ->
  Checkpoint w s = Ok (tt,
    s <| checkpoint_manager ::= start_counting (cp_cid sp) (spec_id w) (Z.of_nat (length (v_ (view_mapper cv)))) |>
      <| collection_status ::= fun c => c <| last_cp_ ::= <[cp_cid sp := cp_url sp]> |> |>,
    to_owners cv (fun i => kCheckpoint (cp_cid sp) i (GetCheckpointUrl (cp_url sp) (cp_cid sp) i))).
Proof.
  intros Ht Hs Hv. apply wp_exact. unfold Checkpoint, GetCheckpointSpec. rewrite Ht, Hs.
  repeat wstep; try done. injection Hx as <-. eapply wp_view_of; [done|]. unfold mod_cpm. repeat wstep.
  unfold wp at 1. rewrite send_to_owners. unfold on_status. apply zoom_wp.
  unfold AddCP. apply wp_modify. cbn. by rewrite app_nil_r.
Qed.

Lemma LoadCheckpoint_sends cid url f cv s :
  collection_map (elem s) !! cid = Some cv ->
  exists s', LoadCheckpoint cid url f s = Ok (tt, s',
    to_owners cv (fun i => kLoadCheckpoint cid i (GetCheckpointUrl url cid i))).
Proof.
  intros Hv. eexists. apply wp_exact. unfold LoadCheckpoint, SendLoadCommand, mod_cpl.
  wstep. eapply wp_view_of; [done|]. repeat wstep. unfold wp. by rewrite send_to_owners.
Qed.

(** C37: a checkpoint plan asks the owner of every partition exactly once to write the file
    of that partition, makes the url the last checkpoint of the collection, and is reported
    finished by exactly the reply that completes the count. *)
Theorem checkpoint_plan_completes w sp cv s cids :
  spec_type w = TCheckpoint -> spec w = SCheckpoint sp ->
  collection_map (elem s) !! cp_cid sp = Some cv ->
  let n := length (v_ (view_mapper cv)) in
  (count_occ Z.eq_dec cids (cp_cid sp) < n)%nat ->
  exists s1 os s2 s3,
    Checkpoint w s = Ok (tt, s1, to_owners cv (fun i =>
      kCheckpoint (cp_cid sp) i (GetCheckpointUrl (cp_url sp) (cp_cid sp) i))) /\
    GetLastCP (cp_cid sp) (collection_status s1) = Ok (cp_url sp, collection_status s1, []) /\
    for_each cids FinishCheckpoint s1 = Ok (tt, s2, os) /\
    FinishCheckpoint (cp_cid sp) s2 = Ok (tt, s3,
      if bool_decide (S (count_occ Z.eq_dec cids (cp_cid sp)) = n)
      then [ToSelf (kFinishPlan (spec_id w))] else []).
Proof.
  intros Ht Hs Hv n Hlt. set (cid := cp_cid sp) in *.
  set (s0 := s <| checkpoint_manager ::= start_counting cid (spec_id w) (Z.of_nat n) |>).
  set (s1 := s0 <| collection_status ::= fun c => c <| last_cp_ ::= <[cid := cp_url sp]> |> |>).
  destruct (replies_finish checkpoint_manager FinishCheckpoint cid (spec_id w) n
    (checkpoint_own_reply _ _ _) (checkpoint_other_reply _ _ _) cids s1) as (s2 & os & s3 & H2 & H3);
    [apply counting_start|done|].
  exists s1, os, s2, s3. split_and!; [| |done..].
  - by apply Checkpoint_sends.
  - unfold GetLastCP, bind, get, check. cbn. by rewrite lookup_insert_eq.
Qed.

(** Witness: the three partitions of collection 5; a reply for collection 9 and two for 5 have
    arrived, so the next one ends the plan. *)
Definition small_write : SpecWrapper :=
  {| spec_id := 4; spec_type := TWrite; spec_name := "w";
     spec := SWrite {| write_collection_id := 5; write_url := "out" |} |}.
Definition small_checkpoint : SpecWrapper :=
  {| spec_id := 4; spec_type := TCheckpoint; spec_name := "cp";
     spec := SCheckpoint {| cp_cid := 5; cp_url := "cp" |} |}.

Lemma write_plan_completes_witness :
  exists s2 s3, FinishWritePartition 5 s2 = Ok (tt, s3, [ToSelf (kFinishPlan 4)]).
Proof.
  destruct (write_plan_completes small_write {| write_collection_id := 5; write_url := "out" |}
    (new_view 5 [0; 1; 2]) small_scheduler [5; 9; 5]) as (s1 & os & s2 & s3 & _ & _ & H).
  - reflexivity.
  - reflexivity.
  - reflexivity.
  - cbn. lia.
  - exists s2, s3. exact H.
Defined.

Lemma checkpoint_plan_completes_witness :
  exists s2 s3, FinishCheckpoint 5 s2 = Ok (tt, s3, [ToSelf (kFinishPlan 4)]).
Proof.
  destruct (checkpoint_plan_completes small_checkpoint {| cp_cid := 5; cp_url := "cp" |}
    (new_view 5 [0; 1; 2]) small_scheduler [5; 9; 5]) as (s1 & os & s2 & s3 & _ & _ & _ & H).
  - reflexivity.
  - reflexivity.
  - reflexivity.
  - cbn. lia.
  - exists s2, s3. exact H.
Defined.

(** ** Pushing a view to every node *)

(** [cid] is being updated: the nodes in [R] have answered and [f] runs at the end. *)
Definition updating (cid : Z) (f : callback) (R : gset Z) (s : Sch) : Prop :=
  received_replies_ (collection_manager s) !! cid = Some R /\
  colm_callbacks_ (collection_manager s) !! cid = Some f.

Lemma Update_updating cid f cv s : collection_map (elem s) !! cid = Some cv ->
  colm_callbacks_ (collection_manager s) !! cid = None ->
  exists s', Update cid f s = Ok (tt, s',
      (fun n => ToWorker (GetWorkerQid n) (kUpdateCollection cid cv)) <$> node_ids (elem s)) /\
    updating cid f ∅ s' /\ elem s' = elem s /\ recover_manager s' = recover_manager s.
Proof.
  intros Hcv Hcb. eexists. split.
  - apply wp_exact. unfold Update, mod_colm. repeat wstep. eapply wp_view_of; [done|].
    unfold SendToAllWorkers. repeat wstep. split_and!; reflexivity.
  - unfold updating, insert_new. cbn. rewrite Hcb. cbn. by rewrite !lookup_insert_eq.
Qed.

(** The callback runs in a state that satisfies [P] and leaves one that satisfies [Q]; the
    two are not about the collection manager. *)
Section finish_update.
Context (inv : callback -> SM unit) (cid : Z) (f : callback) (os : list sched_out).
Context (P Q : Sch -> Prop).
Context (P_frame : forall s c, P s -> P (s <| collection_manager := c |>)).
Context (Q_frame : forall s c, Q s -> Q (s <| collection_manager := c |>)).
Context (inv_f : forall s, P s -> exists s', inv f s = Ok (tt, s', os) /\ Q s').

Lemma FinishUpdate_step R n s : updating cid f R s -> n ∉ R -> P s ->
  let last := bool_decide (size R + 1 = size (nodes (elem s)))%nat in
  exists s', FinishUpdate inv cid n s = Ok (tt, s', if last then os else []) /\
    if last then Q s' else elem s' = elem s /\ updating cid f (R ∪ {[n]}) s' /\ P s'.
Proof using P_frame Q_frame inv_f.
  intros [HR Hf] Hn HP last. unfold updating.
  assert (Z.of_nat (size (R ∪ {[n]})) =? num_nodes s = last) as Hlast.
  { rewrite size_union, size_singleton by set_solver. unfold num_nodes, last.
    case_bool_decide; [apply Z.eqb_eq|apply Z.eqb_neq]; lia. }
  unfold FinishUpdate, mod_colm, bind, modify, get, when, check, deref. cbn.
  rewrite HR, lookup_insert_eq. cbn -[size num_nodes].
  match goal with |- context [Z.of_nat ?a =? num_nodes ?t] => change (num_nodes t) with (num_nodes s) end.
  rewrite Hlast, Hf, bool_decide_eq_true_2 by eauto. unfold ret. destruct last; cbn.
  - match goal with |- context [inv f ?t] => destruct (inv_f t) as (s' & -> & HQ); [by apply (P_frame s)|] end.
    cbn. rewrite app_nil_r. eexists. split; [done|]. by apply (Q_frame s').
  - eexists. split; [done|]. cbn. rewrite lookup_insert_eq. split_and!; try done. by apply (P_frame s).
Qed.

(** The replies of the nodes, in any order: the last one runs the callback. *)
Lemma FinishUpdate_all R replies s : updating cid f R s -> P s ->
  NoDup replies -> (forall n, n ∈ replies -> n ∉ R) ->
  replies <> [] -> (size R + length replies = size (nodes (elem s)))%nat ->
  exists s', for_each replies (FinishUpdate inv cid) s = Ok (tt, s', os) /\ Q s'.
Proof using P_frame Q_frame inv_f.
  revert R s. induction replies as [|n l IH]; intros R s Hu HP Hnd Hdis Hne Hsz; [done|].
  apply NoDup_cons in Hnd as [Hn Hnd]. cbn in Hsz. cbn [for_each].
  destruct (FinishUpdate_step R n s Hu) as (s1 & Hrun & Hnext); [set_solver|done|].
  unfold bind. rewrite Hrun. destruct l as [|m l].
  - rewrite bool_decide_eq_true_2 in * by (cbn in Hsz; lia). cbn. unfold ret. rewrite app_nil_r. eauto.
  - rewrite bool_decide_eq_false_2 in * by (cbn in Hsz; lia). destruct Hnext as (He & Hu1 & HP1).
    destruct (IH (R ∪ {[n]}) s1) as (s2 & Hrun2 & HQ); [done|done|done|..].
    + intros k Hk. apply not_elem_of_union. split; [set_solver|]. intros ->%elem_of_singleton. done.
    + done.
    + rewrite size_union, size_singleton, He by set_solver. cbn in *. lia.
    + rewrite Hrun2. eauto.
Qed.

(** The replies of all nodes to a new update. *)
Lemma FinishUpdate_nodes replies s : updating cid f ∅ s -> P s -> node_ids (elem s) <> [] ->
  replies ≡ₚ keys (nodes (elem s)) ->
  exists s', for_each replies (FinishUpdate inv cid) s = Ok (tt, s', os) /\ Q s'.
Proof using P_frame Q_frame inv_f.
  intros Hu HP Hne Hreplies. apply (FinishUpdate_all ∅); [done|done|..].
  - rewrite Hreplies. apply NoDup_keys.
  - set_solver.
  - intros ->. symmetry in Hreplies. apply Permutation_nil_r in Hreplies. apply Hne.
    unfold node_ids. apply fmap_nil_inv in Hreplies. by rewrite Hreplies.
  - rewrite size_empty, Hreplies. unfold keys. by rewrite length_fmap, length_entries.
Qed.
End finish_update.

(** ** Distributing a collection *)

(** [m] holds the nodes of the partitions that have reported. *)
Definition distributing (cid pid n : Z) (m : gmap Z Z) (s : Sch) : Prop :=
  lookup_or ∅ cid (distribute_map_ (distribute_manager s)) = m /\
  lookup_or 0 pid (part_expected_map_ (distribute_manager s)) = n /\
  colm_callbacks_ (collection_manager s) !! cid = None.

Definition broadcast (s : Sch) (m : worker_msg) : list sched_out :=
  (fun n => ToWorker (GetWorkerQid n) m) <$> node_ids (elem s).

Lemma FinishDistribute_more cid pid n m p nd s : distributing cid pid n m s -> m !! p = None ->
  Z.of_nat (S (size m)) < n ->
  exists s', FinishDistribute cid p nd pid s = Ok (tt, s', []) /\ elem s' = elem s /\
    distributing cid pid n (<[p := nd]> m) s'.
Proof.
  intros (Hm & Hn & Hcb) Hp Hlt. eexists. split; [apply wp_exact; unfold FinishDistribute, mod_dm|].
  - repeat wstep; cbn in Hif; [|split_and!; reflexivity].
    rewrite lookup_or_insert, Hm, Hn, map_size_insert_None in Hif by done. apply Z.eqb_eq in Hif. lia.
  - unfold distributing. cbn. by rewrite lookup_or_insert, Hm.
Qed.

Lemma FinishDistribute_last cid pid n m p nd s : distributing cid pid n m s -> m !! p = None ->
  Z.of_nat (S (size m)) = n -> (forall i, 0 <= i < n -> is_Some (<[p := nd]> m !! i)) ->
  let cv := new_view cid ((fun i => lookup_or 0 i (<[p := nd]> m)) <$> seqZ 0 n) in
  exists s', FinishDistribute cid p nd pid s = Ok (tt, s', broadcast s (kUpdateCollection cid cv)) /\
    collection_map (elem s') !! cid = Some cv /\ nodes (elem s') = nodes (elem s) /\
    updating cid (CbFinishPlan pid) ∅ s'.
Proof.
  intros (Hm & Hn & Hcb) Hp Hsz Hall cv.
  set (s1 := s <| distribute_manager ::= fun d => d <| distribute_map_ ::= fun m =>
    <[cid := <[p := nd]> (lookup_or ∅ cid m)]> m |> |>).
  set (s2 := s1 <| elem ::= fun e => e <| collection_map ::= <[cid := cv]> |> |>).
  destruct (Update_updating cid (CbFinishPlan pid) cv s2) as (s3 & Hrun & Hu & He & _);
    [cbn; by rewrite lookup_insert_eq|done|].
  exists s3. split_and!; [|by rewrite He; cbn; rewrite lookup_insert_eq|by rewrite He|done].
  apply wp_exact. unfold FinishDistribute, mod_dm, put_view, part_to_node_of.
  repeat wstep; cbn in *; rewrite ?lookup_or_insert, ?Hm, ?Hn in *.
  - unfold wp. replace (Update _ _ _) with (Update cid (CbFinishPlan pid) s2); [by rewrite Hrun|].
    unfold s2, s1, cv. cbn. by rewrite ?lookup_or_insert, ?Hm.
  - intros Hf. exfalso. apply not_false_iff_true in Hf; [done|]. apply forallb_forall.
    intros i Hi. apply bool_decide_eq_true, Hall. apply list_elem_of_In, elem_of_seqZ in Hi. lia.
  - exfalso. rewrite map_size_insert_None in Hif by done. apply Z.eqb_neq in Hif. lia.
Qed.

(** The reports of the partitions, in any order. *)
Lemma FinishDistribute_all cid pid n parts m s : distributing cid pid n m s ->
  NoDup parts.*1 -> (forall p, p ∈ parts.*1 -> m !! p = None) ->
  parts <> [] -> Z.of_nat (size m + length parts) = n ->
  (forall i, 0 <= i < n -> is_Some ((list_to_map parts ∪ m : gmap Z Z) !! i)) ->
  exists s' cv, for_each parts (fun p => FinishDistribute cid p.1 p.2 pid) s =
      Ok (tt, s', broadcast s (kUpdateCollection cid cv)) /\
    cv = new_view cid ((fun i => lookup_or 0 i (list_to_map parts ∪ m)) <$> seqZ 0 n) /\
    collection_map (elem s') !! cid = Some cv /\ nodes (elem s') = nodes (elem s) /\
    updating cid (CbFinishPlan pid) ∅ s'.
Proof.
  revert m s. induction parts as [|[p nd] parts IH]; intros m s Hd Hnd Hfresh Hne Hsz Hall; [done|].
  cbn [fmap list_fmap] in Hnd, Hfresh. apply NoDup_cons in Hnd as [Hp Hnd]. cbn in Hsz, Hp.
  assert (m !! p = None) as Hmp by (apply Hfresh; cbn; set_solver).
  assert (list_to_map parts !! p = @None Z) as Hlp by by apply not_elem_of_list_to_map_1.
  assert (list_to_map ((p, nd) :: parts) ∪ m = (list_to_map parts ∪ <[p := nd]> m : gmap Z Z)) as Heq.
  { cbn. rewrite <- insert_union_l. by apply insert_union_r. }
  rewrite Heq in *. cbn [for_each fst snd]. destruct parts as [|q parts].
  - rewrite list_to_map_nil, (left_id_L ∅ (∪)) in *. cbn in Hsz.
    destruct (FinishDistribute_last cid pid n m p nd s) as (s' & Hrun & H1 & H2 & H3); [done|done|lia|done|].
    eexists s', _. unfold bind. rewrite Hrun. cbn. unfold ret. rewrite app_nil_r. done.
  - destruct (FinishDistribute_more cid pid n m p nd s) as (s1 & Hrun & He & Hd1); [done|done|cbn in Hsz; lia|].
    destruct (IH (<[p := nd]> m) s1) as (s2 & cv & Hrun2 & Hcv & H1 & H2 & H3); [done|done|..].
    + intros k Hk. rewrite lookup_insert_ne by (intros <-; done). apply Hfresh. set_solver.
    + done.
    + rewrite map_size_insert_None by done. cbn in *. lia.
    + done.
    + exists s2, cv. unfold bind. rewrite Hrun, Hrun2. unfold broadcast in *. rewrite He in *. done.
Qed.

(** All [n] partitions of a collection report. *)
Lemma FinishDistribute_complete cid pid n parts s :
  distributing cid pid n ∅ s -> 0 < n -> parts.*1 ≡ₚ seqZ 0 n ->
  exists s' cv, for_each parts (fun p => FinishDistribute cid p.1 p.2 pid) s =
      Ok (tt, s', broadcast s (kUpdateCollection cid cv)) /\
    cv = new_view cid ((fun i => lookup_or 0 i (list_to_map parts)) <$> seqZ 0 n) /\
    collection_map (elem s') !! cid = Some cv /\ nodes (elem s') = nodes (elem s) /\
    updating cid (CbFinishPlan pid) ∅ s'.
Proof.
  intros Hd Hn Hparts.
  assert (length parts = Z.to_nat n) as Hlen by (rewrite <- (length_fmap fst), Hparts; apply length_seqZ).
  destruct (FinishDistribute_all cid pid n parts ∅ s) as (s' & cv & Hrun & Hcv & Hrest).
  - done.
  - rewrite Hparts. apply NoDup_seqZ.
  - done.
  - intros ->. cbn in Hlen. lia.
  - rewrite map_size_empty. lia.
  - intros i Hi. rewrite (right_id_L ∅ (∪)). apply elem_of_dom. rewrite dom_list_to_map_L.
    apply elem_of_list_to_set. rewrite Hparts. apply elem_of_seqZ. lia.
  - rewrite (right_id_L ∅ (∪)) in Hcv. eauto 10.
Qed.

(** All nodes confirm the view of a collection whose update ends a plan. *)
Lemma FinishUpdate_ends_plan browse get_ip cid pid replies s :
  updating cid (CbFinishPlan pid) ∅ s -> node_ids (elem s) <> [] -> replies ≡ₚ keys (nodes (elem s)) ->
  exists s', for_each replies (FinishUpdate (invoke browse get_ip) cid) s =
    Ok (tt, s', [ToSelf (kFinishPlan pid)]).
Proof.
  intros Hu Hne Hr. destruct (FinishUpdate_nodes (invoke browse get_ip) cid (CbFinishPlan pid)
    [ToSelf (kFinishPlan pid)] (fun _ => True) (fun _ => True) ltac:(done) ltac:(done)
    ltac:(by eexists) replies s) as (s' & Hrun & _); [done..|]. eauto.
Qed.

Lemma Distribute_sends w sp s : spec w = SDistribute sp -> node_ids (elem s) <> [] ->
  Distribute w s = Ok (tt,
    s <| distribute_manager ::= fun d => d <| part_expected_map_ ::= <[spec_id w := dist_num_partition sp]> |> |>,
    (fun i => ToWorker (GetWorkerQid (default 0 (node_ids (elem s) !! Z.to_nat (i mod Z.of_nat (length (node_ids (elem s))))) ))
                (kDistribute i (spec_id w) sp)) <$> seqZ 0 (dist_num_partition sp)).
Proof.
  intros Hs Hne. apply wp_exact. unfold Distribute, mod_dm. rewrite Hs. repeat wstep; [|done].
  injection Hx as <-. set (s1 := s <| distribute_manager ::= _ |>).
  change (node_ids (elem s1)) with (node_ids (elem s)). set (ns := node_ids (elem s)) in *.
  eapply (wp_for_each none (fun l s' os => s' = s1 /\ exists k, seqZ 0 (dist_num_partition sp) = k ++ l /\
    os = (fun i => ToWorker (GetWorkerQid (default 0 (ns !! Z.to_nat (i mod Z.of_nat (length ns))))) (kDistribute i (spec_id w) sp)) <$> k)).
  - split; [done|]. by exists [].
  - intros i l s2 os (-> & k & Hk & ->). repeat wstep.
    + split; [done|]. exists (k ++ [i]). rewrite Hk, <- app_assoc. split; [done|].
      rewrite fmap_app. cbn. by rewrite Hx.
    + intros Hn%lookup_ge_None. pose proof (Z.mod_pos_bound i (Z.of_nat (length ns))).
      destruct ns; [done|]. cbn in *. unfold none. lia.
    + intros Hf. rewrite bool_decide_eq_false_2 in Hf by done. done.
  - intros s' os (-> & k & Hk & ->). rewrite app_nil_r in Hk. by subst k.
Qed.

Lemma round_robin_sends (ns : list Z) (msg : Z -> worker_msg) n i : ns <> [] -> 0 <= i < n ->
  exists x, x ∈ ns /\
    ((fun i => ToWorker (GetWorkerQid (default 0 (ns !! Z.to_nat (i mod Z.of_nat (length ns))))) (msg i))
      <$> seqZ 0 n) !! Z.to_nat i = Some (ToWorker (GetWorkerQid x) (msg i)).
Proof.
  intros Hne Hi. rewrite list_lookup_fmap, lookup_seqZ_lt, Z2Nat.id, Z.add_0_l by lia.
  destruct (lookup_lt_is_Some_2 ns (Z.to_nat (i mod Z.of_nat (length ns)))) as [x Hx].
  - destruct ns as [|a l]; [done|]. pose proof (Z.mod_pos_bound i (Z.of_nat (length (a :: l)))). cbn in *. lia.
  - exists x. split; [by eapply list_elem_of_lookup_2|]. unfold fmap, option_fmap, option_map. by rewrite Hx.
Qed.

Lemma view_of_reports cid n (parts : list (Z * Z)) p x :
  parts.*1 ≡ₚ seqZ 0 n -> (p, x) ∈ parts ->
  v_ (view_mapper (new_view cid ((fun i => lookup_or 0 i (list_to_map parts)) <$> seqZ 0 n))) !! Z.to_nat p = Some x.
Proof.
  intros Hparts Hp. assert (0 <= p < n) as Hpn.
  { assert (p ∈ seqZ 0 n) as Hin by (rewrite <- Hparts; by apply (list_elem_of_fmap_2 fst _ (p, x))).
    apply elem_of_seqZ in Hin. lia. }
  unfold new_view. cbn [v_ view_mapper]. rewrite list_lookup_fmap, lookup_seqZ_lt, Z2Nat.id, Z.add_0_l by lia.
  unfold fmap, option_fmap, option_map. f_equal.
  apply lookup_or_Some, elem_of_list_to_map_1; [|done]. rewrite Hparts. apply NoDup_seqZ.
Qed.


(** Witness: two nodes, three partitions that report in the order 1, 2, 0. *)
Definition small_distribute : DistributeSpec :=
  {| dist_collection_id := 7; dist_num_partition := 3; dist_data := empty_stream |}.

(** ** Recovery *)

Lemma replace_dead_nothing dead live i k p2n s : (forall n, n ∈ p2n -> n ∉ dead) ->
  replace_dead dead live i k p2n s = Ok ((p2n, []), s, []).
Proof.
  revert i. induction p2n as [|n p2n IH]; intros i H; [done|]. cbn.
  rewrite bool_decide_eq_false_2 by set_solver. unfold bind. rewrite IH by set_solver. done.
Qed.

(** A recovery goes on waiting while a collection is to be loaded. *)
Lemma RecoverDone_waiting inv cid s : started_ (recover_manager s) = true ->
  cid ∈ updating_collections_ (recover_manager s) -> recovering_collections_ (recover_manager s) <> ∅ ->
  RecoverDoneForACollection inv cid RtUpdateCollectionMap s =
  Ok (tt, s <| recover_manager ::= fun r => r <| updating_collections_ ::= (.∖ {[cid]}) |> |>, []).
Proof.
  intros H1 H2 H3. unfold RecoverDoneForACollection, mod_recover, check, when, bind, get, modify.
  rewrite H1, bool_decide_eq_true_2 by done. unfold ret. cbn.
  rewrite bool_decide_eq_false_2 by (by intros [? _]). done.
Qed.

(** a collection that lost no partition stalls the recovery of a plan that reads it:
    no load is requested for it, so nothing ever takes it out of the set of collections
    that are being recovered, and when every worker has confirmed the new view the recovery
    is still waiting and has sent nothing. *)
Theorem recovery_of_intact_collection_stalls browse get_ip cid url cv dead cb s replies :
  collection_map (elem s) !! cid = Some cv -> started_ (recover_manager s) = false ->
  colm_callbacks_ (collection_manager s) !! cid = None ->
  (forall n, n ∈ v_ (view_mapper cv) -> n ∉ dead) ->
  node_ids (elem s) <> [] -> replies ≡ₚ keys (nodes (elem s)) ->
  exists s1 s2, Recover dead [] [(cid, url)] cb s = Ok (tt, s1, broadcast s (kUpdateCollection cid cv)) /\
    for_each replies (FinishUpdate (invoke browse get_ip) cid) s1 = Ok (tt, s2, []) /\
    started_ (recover_manager s2) = true /\ recovering_collections_ (recover_manager s2) = {[cid]}.
Proof.
  intros Hcv Hst Hcb Hlive Hne Hreplies.
  set (r1 := {| recovering_collections_ := {[cid]}; updating_collections_ := {[cid]};
                started_ := true; recover_callback_ := Some cb |}).
  destruct (wp_none_Ok (Recover dead [] [(cid, url)] cb) s
    (fun _ s1 os => os = broadcast s (kUpdateCollection cid cv) /\ recover_manager s1 = r1 /\
       nodes (elem s1) = nodes (elem s) /\ updating cid (CbRecoverUpdated cid) ∅ s1))
    as ([] & s1 & os & Hrun & -> & Hr & Hn & Hu).
  - unfold Recover, ReplaceDeadnodesAndReturnUpdated, LoadCheckpointPartial, mod_cpl, put_view, mod_recover.
    repeat wstep; [|by rewrite Hst]. cbn [for_each]. repeat wstep. cbn [fst snd app].
    eapply wp_view_of; [exact Hcv|]. repeat wstep. unfold wp at 1.
    rewrite replace_dead_nothing by done. repeat wstep. cbn [fst snd for_each].
    eapply wp_view_of; [cbn; by rewrite lookup_insert_eq|]. repeat wstep. unfold wp at 1.
    match goal with |- context [Update cid ?f ?t] =>
      destruct (Update_updating cid f cv t) as (s1 & -> & Hu & He & Hr) end.
    + cbn. rewrite lookup_insert_eq. f_equal. by destruct cv as [? ? []].
    + done.
    + repeat wstep. cbn. rewrite app_nil_r. split_and!; try done; [|by rewrite He].
      rewrite Hr. unfold r1. cbn. by rewrite !(left_id_L ∅ (∪)).
  - destruct (FinishUpdate_nodes (invoke browse get_ip) cid (CbRecoverUpdated cid) []
      (fun s => recover_manager s = r1)
      (fun s => started_ (recover_manager s) = true /\ recovering_collections_ (recover_manager s) = {[cid]}))
      with (replies := replies) (s := s1) as (s2 & Hrun2 & HQ); try done.
    + intros t Ht. eexists. cbn [invoke]. rewrite RecoverDone_waiting by (rewrite Ht; cbn; set_solver).
      split; [done|]. cbn. by rewrite Ht.
    + unfold node_ids. by rewrite Hn.
    + by rewrite Hn.
    + by exists s1, s2.
Qed.

(** Witness: collection 5 on the nodes 0 and 2 when node 1 dies. *)
Lemma recovery_of_intact_collection_stalls_witness :
  let s := new_scheduler <| elem := {| collection_map := {[ 5 := new_view 5 [0; 2] ]};
             nodes := {[ 0 := small_node 0; 2 := small_node 2 ]} |} |> in
  exists s1 s2, Recover {[ 1 ]} [] [(5, "cp")] CbFinishRecovery s =
      Ok (tt, s1, broadcast s (kUpdateCollection 5 (new_view 5 [0; 2]))) /\
    for_each [2; 0] (FinishUpdate (invoke (fun _ => []) id) 5) s1 = Ok (tt, s2, []) /\
    started_ (recover_manager s2) = true /\ recovering_collections_ (recover_manager s2) = {[5]}.
Proof.
  intros s. apply (recovery_of_intact_collection_stalls (fun _ => []) id 5 "cp" (new_view 5 [0; 2]) {[ 1 ]}).
  - reflexivity.
  - reflexivity.
  - reflexivity.
  - cbn. intros n Hn. set_solver.
  - by vm_compute.
  - assert (keys (nodes (elem s)) = [0; 2]) as -> by (vm_compute; reflexivity). apply perm_swap.
Defined.

(** ** Running a program one plan after another *)

(** Plan [k] of the program with the declarations [ps] is the only running plan. *)
Definition seq_running (ps : list plan_rw) (k : Z) (s : Sch) : Prop :=
  (exists d R, dag_runner_ s = Some (RSequential d) /\ seq_plan_count_ d = k /\ seq_drives ps R {[k]} true d) /\
  length (specs (program_ s)) = length ps /\
  status_ok (collection_status s) /\ exists rw, cur_plans_ (collection_status s) = {[ k := rw ]}.

Lemma on_runner_seq {A} (f : forall D, DagRunner D -> M D Empty_set A) d s (Q : A -> SequentialDagRunner -> list Empty_set -> Prop) :
  dag_runner_ s = Some (RSequential d) -> wp none (f SequentialDagRunner _) d Q ->
  exists a d' os, Q a d' os /\ on_runner f s = Ok (a, s <| dag_runner_ := Some (RSequential d') |>, []).
Proof.
  intros Hd (a & d' & os & Hf & HQ)%wp_none_Ok. exists a, d', os. split; [done|].
  unfold on_runner, bind, get, deref, with_runner. rewrite Hd. unfold ret. by rewrite Hf.
Qed.

Lemma on_status_Ok {A} (m : CSM A) s (Q : A -> CollectionStatus -> list Empty_set -> Prop) :
  wp none m (collection_status s) Q ->
  exists a c os, Q a c os /\ on_status m s = Ok (a, s <| collection_status := c |>, []).
Proof.
  intros (a & c & os & Hm & HQ)%wp_none_Ok. exists a, c, os. split; [done|].
  unfold on_status, zoom. rewrite Hm. by destruct os.
Qed.

(** No plan reads a collection that it writes, so any plan can start when none is running. *)
Lemma first_plan_admissible c k sp : cur_plans_ c = ∅ -> admissible c k (GetReadWrite sp).
Proof.
  intros Hc. unfold admissible, writable, all_reads, all_writes. rewrite Hc, map_to_list_empty. cbn.
  rewrite !app_nil_r. split; [done|].
  destruct sp as [m|w| | | | |]; cbn; try (split; [repeat constructor; set_solver|set_solver]).
  - destruct (Z.eqb_spec (map_collection_id m) (update_collection_id m)); cbn;
      split; try (repeat constructor; set_solver); set_solver.
  - destruct (Z.eqb_spec (map_collection_id (with_base w)) (update_collection_id (with_base w))),
      (Z.eqb_spec (with_collection_id w) (update_collection_id (with_base w))); cbn;
      split; try (repeat constructor; set_solver); set_solver.
Qed.

(** What a scheduler step leaves alone: everything but the runner and the status. *)
Definition same_but_plans (s s1 : Sch) : Prop :=
  exists r c, s1 = s <| dag_runner_ := r |> <| collection_status := c |>.

(** The bookkeeping of [RunPlan] when no plan is running never fails. *)
Lemma RunPlan_first browse get_ip ps k s w R d :
  dag_runner_ s = Some (RSequential d) -> seq_plan_count_ d = k -> seq_drives ps R {[k]} true d ->
  length (specs (program_ s)) = length ps ->
  status_ok (collection_status s) -> cur_plans_ (collection_status s) = ∅ ->
  0 <= k -> specs (program_ s) !! Z.to_nat k = Some w ->
  exists s1, seq_running ps k s1 /\ same_but_plans s s1 /\
    sch_RunPlan browse get_ip k s = start_manager browse get_ip w s1.
Proof.
  intros Hr Hk Hd Hlen Hok Hcur H0 Hw. pose proof (lookup_lt_Some _ _ _ Hw).
  destruct (on_status_Ok (AddPlan k (GetReadWrite (spec w))) s
    (fun _ c _ => cur_plans_ c = {[ k := GetReadWrite (spec w) ]} /\ status_ok c)) as ([] & c & os & [Hc1 Hc2] & Hrun).
  { eapply wp_weaken; [by apply AddPlan_spec| |].
    - intros e Hn. apply Hn. by apply first_plan_admissible.
    - intros [] c os (_ & -> & _ & ?). by rewrite Hcur. }
  exists (s <| collection_status := c |>). split_and!.
  - unfold seq_running. cbn. eauto 10.
  - exists (dag_runner_ s), c. by destruct s.
  - unfold sch_RunPlan. rewrite (bind_silent get _ s s s) by done.
    rewrite (bind_silent _ _ s tt s) by (apply check_true, andb_true_iff; split; [apply Z.leb_le|apply Z.ltb_lt]; lia).
    rewrite (bind_silent _ _ s w s).
    2: { unfold at_index. by rewrite (proj2 (Z.leb_le 0 k) H0), Hw. }
    by rewrite (bind_silent _ _ _ _ _ Hrun).
Qed.

Lemma TryRunPlan_seq browse get_ip ps R d s :
  dag_runner_ s = Some (RSequential d) -> seq_drives ps R ∅ false d ->
  length (specs (program_ s)) = length ps ->
  status_ok (collection_status s) -> cur_plans_ (collection_status s) = ∅ ->
  exists s1, same_but_plans s s1 /\
    if bool_decide (seq_plan_count_ d < Z.of_nat (length ps)) then
      exists w, specs (program_ s) !! Z.to_nat (seq_plan_count_ d) = Some w /\
        seq_running ps (seq_plan_count_ d) s1 /\
        TryRunPlan browse get_ip s = start_manager browse get_ip w s1
    else s1 = s /\ TryRunPlan browse get_ip s =
      Ok (tt, s, ((fun n => ToWorker (GetWorkerQid n) kExit) <$> node_ids (elem s)) ++ [ExitPromise]).
Proof.
  intros Hr Hd Hlen Hok Hcur. pose proof (seq_nil_iff _ _ _ Hd) as Hnil. pose proof Hd as (_ & H0 & _).
  pose proof (remaining_ok (D := SequentialDagRunner) _ _ _ _ _ Hd) as Hrem.
  unfold TryRunPlan. rewrite (bind_silent get _ s s s), (bind_silent _ _ s (RSequential d) s) by (done || by rewrite Hr).
  cbn [runner_remaining]. rewrite Hrem. case_bool_decide as Hlt.
  - assert (R <> ∅) as Hne by (rewrite Hnil; lia).
    rewrite (proj2 (Z.eqb_neq _ _)) by (intros Hs; apply Hne, leibniz_equiv, size_empty_inv; lia).
    destruct (on_runner_seq (fun D i => @GetRunnablePlans D i) d s
      (fun l d' _ => l = [seq_plan_count_ d] /\ d' = d /\ seq_drives ps R {[seq_plan_count_ d]} true d) Hr)
      as (l & d' & os & (-> & -> & Hd') & Hrun); [by apply seq_GetRunnablePlans|].
    destruct (lookup_lt_is_Some_2 (specs (program_ s)) (Z.to_nat (seq_plan_count_ d))) as [w Hw]; [lia|].
    rewrite (bind_silent _ _ _ _ _ Hrun). cbn [for_each].
    destruct (RunPlan_first browse get_ip ps (seq_plan_count_ d) (s <| dag_runner_ := Some (RSequential d) |>) w R d)
      as (s1 & H1 & (r & c & ->) & H2); [done..|].
    eexists. split; [by exists r, c|]. exists w. split; [done|]. split; [exact H1|].
    unfold bind. rewrite H2. destruct (start_manager _ _ _ _) as [[[[] s2] o2]|e]; [|done].
    cbn. unfold ret. by rewrite app_nil_r.
  - exists s. split; [by exists (dag_runner_ s), (collection_status s); destruct s|].
    rewrite (proj2 Hnil), size_empty by lia. done.
Qed.

(** C10: in the sequential mode the end of plan [k] is handled without a failed check: the
    status and the runner are updated and the next plan of the program is handed to the
    manager of its type as the only running plan, or, after the last plan, the workers are
    told to exit. *)
Theorem sequential_scheduler_step browse get_ip ps k s :
  seq_running ps k s -> k < kRecoverMagic ->
  exists s1, same_but_plans s s1 /\
    if bool_decide (k + 1 < Z.of_nat (length ps)) then
      exists w, specs (program_ s) !! Z.to_nat (k + 1) = Some w /\ seq_running ps (k + 1) s1 /\
        sch_FinishPlan browse get_ip k s = start_manager browse get_ip w s1
    else cur_plans_ (collection_status s1) = ∅ /\
      sch_FinishPlan browse get_ip k s =
        Ok (tt, s1, ((fun n => ToWorker (GetWorkerQid n) kExit) <$> node_ids (elem s)) ++ [ExitPromise]).
Proof.
  intros ((d & R & Hr & Hk & Hd) & Hlen & Hok & rw & Hcur) Hlt.
  pose proof Hd as (_ & H0 & _). rewrite Hk in H0.
  subst k. destruct (on_runner_seq (fun D i => @FinishRun D i (seq_plan_count_ d)) d s
    (fun _ d' _ => seq_drives ps (R ∖ {[seq_plan_count_ d]}) ∅ false d' /\ seq_plan_count_ d' = seq_plan_count_ d + 1)
    Hr (seq_Finish _ _ _ Hd)) as ([] & d1 & os1 & [Hd1 Hk1] & Hrun1).
  set (s1 := s <| dag_runner_ := Some (RSequential d1) |>) in *.
  destruct (on_status_Ok (FinishPlan (seq_plan_count_ d)) s1
    (fun _ c _ => cur_plans_ c = ∅ /\ status_ok c)) as ([] & c & os2 & [Hc1 Hc2] & Hrun2).
  { eapply wp_mono; [apply (FinishPlan_spec _ _ rw); cbn; [done|by rewrite Hcur, lookup_singleton_eq]|].
    intros [] c os (-> & _ & ?). cbn. by rewrite Hcur, delete_singleton_eq. }
  set (s2 := s1 <| collection_status := c |>) in *.
  assert (sch_FinishPlan browse get_ip (seq_plan_count_ d) s = TryRunPlan browse get_ip s2) as ->.
  { unfold sch_FinishPlan, IsRecoverPlan. rewrite (proj2 (Z.leb_gt _ _) Hlt).
    by rewrite (bind_silent _ _ _ _ _ Hrun1), (bind_silent _ _ _ _ _ Hrun2). }
  destruct (TryRunPlan_seq browse get_ip ps (R ∖ {[seq_plan_count_ d]}) d1 s2) as (s3 & Hs3 & H3); [done..|].
  exists s3. rewrite <- Hk1. split.
  { destruct Hs3 as (r' & c' & ->). by exists r', c'. }
  case_bool_decide; [done|]. by destruct H3 as [-> ->].
Qed.

(** Witness: a load followed by a write; the load ends and the write starts. *)
Definition two_plans : list plan_rw := [([], [5]); ([5], [])].
Definition two_specs : list SpecWrapper :=
  [{| spec_id := 0; spec_type := TLoad; spec_name := "l"; spec := SLoad
        {| load_collection_id := 5; load_url := "in"; is_load_meta := false; is_whole_file := false |} |};
   {| spec_id := 1; spec_type := TWrite; spec_name := "w"; spec := SWrite
        {| write_collection_id := 5; write_url := "out" |} |}].
Definition running_load : Sch := small_scheduler
  <| dag_runner_ := Some (RSequential (make_runner (build two_plans))) |>
  <| program_ := {| specs := two_specs; dag := build two_plans |} |>
  <| collection_status := {| cur_plans_ := {[ 0 := ([], [5]) ]}; read_ids_ := ∅; write_ids_ := {[ 5 := 1 ]};
                             last_cp_ := ∅ |} |>.

Lemma running_load_ok : seq_running two_plans 0 running_load.
Proof.
  split_and!; [|done| |by eexists].
  - eexists _, (all_plans two_plans). split_and!; [done..|].
    assert (well_written two_plans) as Hw by (unfold well_written; repeat constructor; set_solver).
    pose proof (start_ok (D := SequentialDagRunner) two_plans Hw) as Hd. cbn [drives] in Hd.
    apply seq_GetRunnablePlans in Hd; [|by vm_compute]. apply wp_none_Ok in Hd as (l & d & os & _ & _ & _ & Hd).
    exact Hd.
  - apply (status_history_ok [EvStart 0 ([], [5])] _ []). vm_compute. reflexivity.
Qed.

Lemma sequential_scheduler_step_witness : exists s1,
  seq_running two_plans 1 s1 /\
  sch_FinishPlan (fun _ => []) id 0 running_load = Write (nth 1 two_specs small_write) s1.
Proof.
  destruct (sequential_scheduler_step (fun _ => []) id two_plans 0 running_load) as (s1 & _ & w & Hw & H1 & H2).
  - exact running_load_ok.
  - reflexivity.
  - exists s1. split; [exact H1|]. cbn in Hw. injection Hw as <-. exact H2.
Defined.
