(* ===== verification/SchedulerRuns.v ===== *)
(** * Runs of the scheduler on a concrete program

    A program with two distributed collections, a checkpoint of each and an iterative
    mapupdate, on three nodes: the messages of a whole run are processed in turn, which
    exercises every manager, and the run is continued with the death of a node. *)

From S2P Require Import Prelude BinStream Dag DagRunner Specs Program Index Messages Assigner CollectionStatus.
From S2P Require Import SchedulerState Managers ControlManager Scheduler.

Definition run_source : list statement :=
  [SDistributeStmt [] 3 "points"; SDistributeStmt [] 3 "weights"; SCheckpointStmt 0 "cp0" "";
   SCheckpointStmt 1 "cp1" ""; SMapUpdate 0 1; SSetIter 4 2; SSetCheckpointInterval 4 1 "cp"].
Definition run_program_context : ProgramContext :=
  match exec run_source empty_context with
  | Ok (_, cx, _) => get_program cx
  | Err _ => {| specs := []; dag := empty_dag |}
  end.
Definition run_node (i : Z) : Node :=
  {| node_host_id := i; hostname := "host"; node_port := 9000; is_recovery := false |}.

Definition process (m : sched_msg) : SM unit := sch_Process (fun _ => []) id false m.
Definition process_all (l : list sched_msg) : SM unit := for_each l process.

Definition register : list sched_msg :=
  (fun n => kRegisterProgram n 4 run_program_context) <$> [1; 2; 3].
Definition distribute_run (cid pid : Z) : list sched_msg :=
  [kFinishDistribute cid 1 2 pid; kFinishDistribute cid 0 1 pid; kFinishDistribute cid 2 3 pid;
   kUpdateCollectionReply cid 3; kUpdateCollectionReply cid 1; kUpdateCollectionReply cid 2; kFinishPlan pid].
Definition checkpoint_run (cid pid : Z) : list sched_msg :=
  [kFinishCheckpointS 0 cid; kFinishCheckpointS 0 cid; kFinishCheckpointS 0 cid; kFinishPlan pid].
Definition control (f : CtrlFlag) (version node pid part : Z) : sched_msg :=
  kControl {| c_flag := f; c_version := version; c_node_id := node; c_plan_id := pid; c_part_id := part |}.
Definition on_all (ns : list Z) (f : CtrlFlag) (pid : Z) : list sched_msg :=
  (fun n => control f 0 n pid 0) <$> ns.
Definition iteration (v pid : Z) : list sched_msg :=
  ((fun p => control CfMap v (p + 1) pid p) <$> [0; 1; 2]) ++ ((fun p => control CfJoin v (p + 1) pid p) <$> [2; 0; 1]).

Definition until_mapupdate : list sched_msg :=
  register ++ distribute_run 0 0 ++ distribute_run 1 1 ++ checkpoint_run 0 2 ++ checkpoint_run 1 3.

Definition start : SM unit := Ready (run_node <$> [1; 2; 3]).

(** The messages after a failure of node 3 in iteration 2: the remaining nodes end the plan,
    reload the lost data (all of collection 1, partition 2 of collection 0) and confirm
    the new views. *)
Definition recovery_run : list sched_msg :=
  kRecovery {[ 3 ]} :: on_all [1; 2] CfFinish 4 ++
  [kFinishLoadCheckpoint 0 1; kFinishLoadCheckpoint 0 1; kUpdateCollectionReply 0 2; kFinishLoadCheckpoint 0 0;
   kUpdateCollectionReply 0 1; kUpdateCollectionReply 1 1; kFinishLoadCheckpoint 0 1; kUpdateCollectionReply 1 2].
Definition first_iteration : SM unit :=
  start ;;; process_all (until_mapupdate ++ on_all [1; 2; 3] CfSetup 4 ++ iteration 1 4).

Definition to_controllers (os : list sched_out) : list (Z * Z * ctrl_msg) :=
  omap (fun o => match o with ToController q pid m => Some (q, pid, m) | _ => None end) os.

(** Outputs of the messages [l] when they are processed after [m]. *)
Definition outputs_after (m : SM unit) (l : list sched_msg) : res (list sched_out) :=
  match m new_scheduler with
  | Ok (_, s, _) => match process_all l s with Ok (_, _, os) => Ok os | Err e => Err e end
  | Err e => Err e
  end.

(** The plan is run again on the two remaining nodes, under a new id, for the iteration that
    is left: partition 2 is now on node 1. *)
Definition resumed_run : list sched_msg :=
  on_all [1; 2] CfSetup 10004 ++
  ((fun p => control CfMap 1 (p mod 2 + 1) 10004 p) <$> [0; 1; 2]) ++
  ((fun p => control CfJoin 1 (p mod 2 + 1) 10004 p) <$> [2; 0; 1]) ++
  on_all [1; 2] CfFinish 10004 ++ [kFinishPlan 10004].

(** Without a failure: two iterations, then the end. *)
Example undisturbed_run :
  outputs_after first_iteration (iteration 2 4 ++ on_all [1; 2; 3] CfFinish 4 ++ [kFinishPlan 4]) =
  Ok ([ToController 11 4 kTerminatePlan; ToController 19 4 kTerminatePlan; ToController 27 4 kTerminatePlan;
       ToSelf (kFinishPlan 4)] ++ [ToWorker 8 kExit; ToWorker 16 kExit; ToWorker 24 kExit; ExitPromise]).
Proof. vm_compute. reflexivity. Qed.

(** What the workers are told to load after the failure: every partition of the written
    collection from the checkpoint of iteration 1, and the lost partition of the other. *)
Example recovery_loads :
  match outputs_after first_iteration recovery_run with
  | Ok os => omap (fun o => match o with ToWorker q (kLoadCheckpoint c p u) => Some (q, c, p, u) | _ => None end) os
  | Err _ => []
  end = [(8, 1, 0, "cp/cp-1/c1-p0"); (16, 1, 1, "cp/cp-1/c1-p1"); (8, 1, 2, "cp/cp-1/c1-p2");
         (8, 0, 2, "cp0/c0-p2")]%string.
Proof. vm_compute. reflexivity. Qed.


(** only one failure of a plan can be handled: the plan that is run again is registered
    with the control manager under a new id, while a second failure aborts the plan under
    its old id, so the scheduler stops on a failed check. *)
Theorem second_failure_stops_scheduler :
  outputs_after (first_iteration ;;; process_all recovery_run)
    (on_all [1; 2] CfSetup 10004 ++ [kRecovery {[ 2 ]}]) =
  Err (CheckFailed "callbacks_.find(plan_id) != end").
Proof. vm_compute. reflexivity. Qed.
