(* ===== verification/Worker.v ===== *)
(** * The worker (core/scheduler/worker.hpp, worker.cpp, io/hdfs_reader.cpp,
    io/hdfs_writer.cpp, core/partition/block_partition.hpp, file_partition.hpp)

    The worker of a node carries out what the scheduler asks for: it stores collection
    views, creates partitions from distributed data, from files and from blocks of files,
    and writes partitions out and reads them back.  Short requests are handled in the
    actor's thread ([wk_Process]); work on files is submitted to the executor as a task
    ([wk_task], [wk_run_task]).

    The file system is a map from urls to contents ([fs_]); it is one for all nodes.  The
    functions that plans registered, and the block reader, are the class [WorkerCode]. *)

From S2P Require Import Prelude BinStream Specs Index Messages Partition Assigner.
From S2P Require Import CollectionStatus SchedulerState.

(** ** Files *)

Abbreviation FileSystem := (gmap string bytes).

Section Files.
Context {St Out : Type}.
(** How many of the bytes that are left [hdfsRead] returns; at least one before the end of
    the file, never more than there are. *)
Variable hdfsRead : bytes -> nat.

(** [HdfsReader::Init] and [GetFileSize]. *)
Definition reader_Init (url : string) (fs : FileSystem) : M St Out bytes :=
  check (bool_decide (is_Some (fs !! url))) "hdfsExists(fs_, url.c_str()) == 0" ;;;
  deref (fs !! url) "hdfsGetPathInfo".
Definition GetFileSize (file : bytes) : Z := Z.of_nat (length file).

(** The loop of [HdfsReader::Read]: [file] is what is left to read. *)
Fixpoint read_loop (fuel : nat) (file : bytes) (start : bytes) : bytes :=
  match fuel with
  | O => start
  | S fuel' =>
      match file with
      | [] => start
      | _ => read_loop fuel' (drop (hdfsRead file) file) (start ++ take (hdfsRead file) file)
      end
  end.
Definition reader_Read (file : bytes) : M St Out bytes :=
  let got := read_loop (length file) file [] in
  check (bool_decide (length got = length file)) "start == hdfs_file_size_" ;;;
  ret got.

Hypothesis hdfsRead_some : forall file, file <> [] -> (1 <= hdfsRead file <= length file)%nat.

Lemma read_loop_all fuel file start :
  (length file <= fuel)%nat -> read_loop fuel file start = start ++ file.
Proof.
  revert file start. induction fuel as [|fuel IH]; intros file start Hf.
  - destruct file; cbn in *; [by rewrite app_nil_r|lia].
  - destruct file as [|b file]; [by cbn; rewrite app_nil_r|].
    pose proof (hdfsRead_some (b :: file) ltac:(done)) as H. cbn [read_loop].
    rewrite IH; [by rewrite <- app_assoc, take_drop|]. rewrite length_drop. cbn in *. lia.
Qed.

Lemma reader_Read_spec file s : reader_Read file s = Ok (file, s, []).
Proof.
  unfold reader_Read. rewrite read_loop_all by lia. cbn [app].
  rewrite bool_decide_eq_true_2 by done. done.
Qed.
End Files.

(** ** The worker *)

(** A partition: a [BlockPartition] or [FilePartition], which only remember the block they
    stand for, or a partition of objects. *)
Inductive wpart (P : Type) :=
| WBlock (b : AssignedBlock)
| WFile (b : AssignedBlock)
| WPart (p : P).
Arguments WBlock {_} _.
Arguments WFile {_} _.
Arguments WPart {_} _.

Class WorkerCode (P : Type) := {
  wc_ToBin : P -> bytes;
  wc_CreatePart : Z -> option (Reader P);                         (* create, then FromBin *)
  wc_CreatePartFromBin : Z -> option (BinStream -> Z -> Z -> P);  (* data, part id, parts *)
  wc_CreatePartFromString : Z -> option (bytes -> P);
  wc_CreatePartFromBlock : Z -> option (string -> size_t -> P);   (* url, offset *)
  wc_WritePart : Z -> option (wpart P -> string -> FileSystem -> FileSystem);
  wc_hdfsRead : bytes -> nat }.

Section Worker.
Context {P : Type} `{WorkerCode P}.

Record Worker := {
  w_node_id : Z; w_hostname : string; w_num_local_threads : Z;
  w_partition_manager : PartitionManager (wpart P);
  w_collection_map : CollectionMap;
  fs_ : FileSystem;
  w_program_ : ProgramContext; is_program_set_ : bool; ready_ : bool;
  exited_ : bool }.
#[global] Instance eta_Worker : Eta Worker := fun w =>
  {| w_node_id := w_node_id w; w_hostname := w_hostname w;
     w_num_local_threads := w_num_local_threads w;
     w_partition_manager := w_partition_manager w; w_collection_map := w_collection_map w;
     fs_ := fs_ w; w_program_ := w_program_ w; is_program_set_ := is_program_set_ w;
     ready_ := ready_ w; exited_ := exited_ w |}.

Inductive wk_task :=
| TLoadFile (b : AssignedBlock)
| TLoadBlock (b : AssignedBlock)
| TCheckPoint (collection_id part_id : Z) (dest_url : string)
| TLoadCheckPoint (collection_id part_id : Z) (dest_url : string)
| TWritePartition (collection_id part_id : Z) (dest_url : string).

Inductive wk_out :=
| WSend (m : sched_msg)       (* SendMsgToScheduler *)
| WSubmit (t : wk_task).      (* executor->Add *)

Abbreviation WM := (M Worker wk_out).

Definition wQid (w : Worker) : Z := GetWorkerQid (w_node_id w).
Definition on_parts {A} (m : M (PartitionManager (wpart P)) Empty_set A) : WM A :=
  zoom w_partition_manager (fun p w => w <| w_partition_manager := p |>)
    (fun e : Empty_set => match e with end) m.
(** [FunctionStore::Get...] *)
Definition get_func {A} (f : option A) (what : string) : WM A :=
  match f with Some g => ret g | None => throw (CheckFailed what) end.

Definition SetProgram (p : ProgramContext) : WM unit :=
  modify (fun w => w <| w_program_ := p |> <| is_program_set_ := true |>).

Definition wk_RegisterProgram : WM unit :=
  w <-- get ;;
  check (is_program_set_ w) "is_program_set_" ;;;
  modify (fun w => w <| ready_ := true |>) ;;;
  emit (WSend (kRegisterProgram (w_node_id w) (w_num_local_threads w) (w_program_ w))).

Definition UpdateCollection (collection_id : Z) (cv : CollectionView) : WM unit :=
  modify (fun w => w <| w_collection_map ::= cmap_Insert cv |>) ;;;
  w <-- get ;;
  emit (WSend (kUpdateCollectionReply collection_id (w_node_id w))).

Definition send_finish_block (b : AssignedBlock) : WM unit :=
  w <-- get ;;
  emit (WSend (kFinishBlock {| fb_block_id := ab_id b; fb_node_id := w_node_id w;
    fb_qid := wQid w; fb_hostname := w_hostname w; fb_collection_id := ab_collection_id b |})).

Definition LoadBlock (b : AssignedBlock) : WM unit :=
  if ab_is_load_meta b then
    on_parts (pm_Insert (ab_collection_id b) (ab_id b)
                (if ab_is_whole_file b then WFile b else WBlock b)) ;;;
    send_finish_block b
  else if ab_is_whole_file b then emit (WSubmit (TLoadFile b))
  else emit (WSubmit (TLoadBlock b)).

Definition wk_Distribute (part_id plan_id : Z) (spec : DistributeSpec) : WM unit :=
  let cid := dist_collection_id spec in
  func <-- get_func (wc_CreatePartFromBin cid) "create_part_from_bin_.find(id) != end" ;;
  on_parts (pm_Insert cid part_id (WPart (func (dist_data spec) part_id (dist_num_partition spec)))) ;;;
  w <-- get ;;
  emit (WSend (kFinishDistribute cid part_id (w_node_id w) plan_id)).

(** [exit_promise_.set_value]; a promise is set once. *)
Definition wk_Exit : WM unit :=
  w <-- get ;;
  check (negb (exited_ w)) "promise already satisfied" ;;;
  modify (fun w => w <| exited_ := true |>).

Definition wk_Process (m : worker_msg) : WM unit :=
  match m with
  | kUpdateCollection cid cv => UpdateCollection cid cv
  | kLoadBlock b => LoadBlock b
  | kDummy => ret tt
  | kExit => wk_Exit
  | kDistribute part_id plan_id spec => wk_Distribute part_id plan_id spec
  | kCheckpoint cid pid url => emit (WSubmit (TCheckPoint cid pid url))
  | kLoadCheckpoint cid pid url => emit (WSubmit (TLoadCheckPoint cid pid url))
  | kWritePartition cid pid url => emit (WSubmit (TWritePartition cid pid url))
  end.

(** ** Tasks *)

(** The file of a whole-file block or a checkpoint. *)
Definition read_file (url : string) (size_check : Z -> bool) (what : string) : WM bytes :=
  w <-- get ;;
  file <-- reader_Init url (fs_ w) ;;
  check (size_check (GetFileSize file)) what ;;;
  reader_Read wc_hdfsRead file.

Definition run_load_file (b : AssignedBlock) : WM unit :=
  check (size_val (ab_offset b) =? 0) "block.offset == 0" ;;;
  str <-- read_file (ab_url b) (fun n => 0 <? n) "file_size > 0" ;;
  func <-- get_func (wc_CreatePartFromString (ab_collection_id b))
             "create_part_from_string_.find(id) != end" ;;
  on_parts (pm_Insert (ab_collection_id b) (ab_id b) (WPart (func str))) ;;;
  send_finish_block b.

Definition run_load_block (b : AssignedBlock) : WM unit :=
  read_func <-- get_func (wc_CreatePartFromBlock (ab_collection_id b))
                  "create_part_from_block_reader_.find(id) != end" ;;
  on_parts (pm_Insert (ab_collection_id b) (ab_id b)
              (WPart (read_func (ab_url b) (ab_offset b)))) ;;;
  send_finish_block b.

(** [part->ToBin]; a block or file partition does not implement it. *)
Definition part_bin (p : wpart P) : WM bytes :=
  match p with
  | WPart x => ret (wc_ToBin x)
  | _ => throw (CheckFailed "not implemented")
  end.

Definition wk_run_checkpoint (collection_id part_id : Z) (dest_url : string) : WM unit :=
  h <-- on_parts (pm_Has collection_id part_id) ;;
  check h "partition_manager->Has(collection_id, part_id)" ;;;
  part <-- on_parts (pm_Get collection_id part_id) ;;
  bin <-- part_bin part ;;
  modify (fun w => w <| fs_ ::= <[dest_url := bin]> |>) ;;;
  w <-- get ;;
  emit (WSend (kFinishCheckpointS (wQid w) collection_id)).

Definition run_load_checkpoint (collection_id part_id : Z) (dest_url : string) : WM unit :=
  file <-- read_file dest_url (fun n => negb (n =? 0)) "file_size != 0" ;;
  get_part <-- get_func (wc_CreatePart collection_id) "create_part_.find(id) != end" ;;
  p <-- zoom (fun _ => FromSArray file) (fun _ w => w) (fun e : Empty_set => match e with end) get_part ;;
  on_parts (pm_Insert collection_id part_id (WPart p)) ;;;
  w <-- get ;;
  emit (WSend (kFinishLoadCheckpoint (wQid w) collection_id)).

Definition run_write_partition (collection_id part_id : Z) (dest_url : string) : WM unit :=
  h <-- on_parts (pm_Has collection_id part_id) ;;
  check h "partition_manager->Has(collection_id, part_id)" ;;;
  part <-- on_parts (pm_Get collection_id part_id) ;;
  write <-- get_func (wc_WritePart collection_id) "write_part_.find(id) != end" ;;
  modify (fun w => w <| fs_ ::= write part dest_url |>) ;;;
  w <-- get ;;
  emit (WSend (kFinishWritePartition (wQid w) collection_id)).

Definition wk_run_task (t : wk_task) : WM unit :=
  match t with
  | TLoadFile b => run_load_file b
  | TLoadBlock b => run_load_block b
  | TCheckPoint cid pid url => wk_run_checkpoint cid pid url
  | TLoadCheckPoint cid pid url => run_load_checkpoint cid pid url
  | TWritePartition cid pid url => run_write_partition cid pid url
  end.
End Worker.
Arguments Worker : clear implicits.
