(* ===== verification/Cluster.v ===== *)
(** * Scheduler and workers together

    The messages that the scheduler sends are served by the workers, and their answers go
    back to the scheduler.  [serve] delivers one message of the scheduler to its worker and
    runs the task the worker submits for it; messages and tasks of different partitions
    can be served in any order, so the theorems quantify over the permutations of what was
    sent.  The two theorems follow a collection through its life: distributed over the
    nodes, and restored from a checkpoint on other nodes. *)

From S2P Require Import Prelude BinStream Dag Specs Index Messages Partition MapOutput Partitions Assigner.
From S2P Require Import CollectionStatus SchedulerState Managers ControlManager Scheduler SchedulerProofs Worker.

Section Cluster.
Context {P : Type} `{WorkerCode P}.

Record Cluster := { cl_workers : gmap Z (Worker P); cl_fs : FileSystem }.
#[global] Instance eta_Cluster : Eta Cluster := fun c =>
  {| cl_workers := cl_workers c; cl_fs := cl_fs c |}.

Definition sends (o : wk_out) : option sched_msg :=
  match o with WSend m => Some m | WSubmit _ => None end.

(** A message, and the task it submits. *)
Definition run_out (o : wk_out) : M (Worker P) sched_msg unit :=
  match o with
  | WSend m => emit m
  | WSubmit t => fun w =>
      match wk_run_task t w with
      | Ok (_, w', os) => Ok (tt, w', omap sends os)
      | Err e => Err e
      end
  end.
Definition handle (m : worker_msg) : M (Worker P) sched_msg unit := fun w =>
  match wk_Process m w with
  | Ok (_, w', os) => for_each os run_out w'
  | Err e => Err e
  end.

Definition serve (o : sched_out) : M Cluster sched_msg unit := fun c =>
  match o with
  | ToWorker qid m =>
      match cl_workers c !! GetNodeId qid with
      | None => Err (Undefined "no such node")
      | Some w =>
          match handle m (w <| fs_ := cl_fs c |>) with
          | Ok (_, w', ms) =>
              Ok (tt, {| cl_workers := <[GetNodeId qid := w']> (cl_workers c); cl_fs := fs_ w' |}, ms)
          | Err e => Err e
          end
      end
  | _ => Ok (tt, c, [])
  end.

(** Node [n] runs a worker. *)
Definition runs (c : Cluster) (n : Z) : Prop :=
  exists w, cl_workers c !! n = Some w /\ w_node_id w = n /\ 0 <= n.
(** Node [n] stores [x] as partition [p] of collection [cid]. *)
Definition stores (c : Cluster) (n cid p : Z) (x : wpart P) : Prop :=
  exists w, cl_workers c !! n = Some w /\ store_lookup (w_partition_manager w) cid p = Some x.
(** Node [n] knows the view of a collection. *)
Definition knows (c : Cluster) (n cid : Z) (cv : CollectionView) : Prop :=
  exists w, cl_workers c !! n = Some w /\ w_collection_map w !! cid = Some cv.

(** What serving a message for node [n] leaves as it was. *)
Lemma serve_spec n m c (Q : Worker P -> list sched_msg -> Prop) :
  runs c n ->
  (forall w, cl_workers c !! n = Some w ->
     wp none (handle m) (w <| fs_ := cl_fs c |>) (fun _ w' ms => w_node_id w' = w_node_id w /\ Q w' ms)) ->
  wp none (serve (ToWorker (GetWorkerQid n) m)) c (fun _ c' ms =>
    exists w', cl_workers c' = <[n := w']> (cl_workers c) /\ cl_fs c' = fs_ w' /\
      w_node_id w' = n /\ Q w' ms).
Proof.
  intros (w & Hw & Hid & Hn) HQ. specialize (HQ w Hw). unfold serve, wp in *.
  assert (GetNodeId (GetWorkerQid n) = n) as ->.
  { unfold GetWorkerQid. rewrite <- (Z.add_0_r (n * kMagic)). apply GetNodeId_inv; [done|].
    unfold kMagic. lia. }
  rewrite Hw. destruct (handle m (w <| fs_ := cl_fs c |>)) as [[[[] w'] ms]|e]; [|done].
  destruct HQ as [Hid' HQ]. exists w'. cbn. split_and!; try done. congruence.
Qed.

Lemma on_parts_Insert_spec cid p x (w : Worker P) Q :
  (forall m', (forall c' p', store_lookup m' c' p' =
     if decide (c' = cid /\ p' = p) then Some x
     else store_lookup (w_partition_manager w) c' p') ->
     Q tt (w <| w_partition_manager := m' |>) []) ->
  wp none (on_parts (pm_Insert cid p x)) w Q.
Proof. intros HQ. unfold on_parts. apply zoom_wp. apply pm_Insert_spec. intros m' Hm'. by apply HQ. Qed.

Lemma runs_insert c c' n w' k :
  cl_workers c' = <[n := w']> (cl_workers c) -> w_node_id w' = n -> runs c n -> runs c k -> runs c' k.
Proof.
  intros Hc Hid (w & Hw & _ & Hn) Hk. unfold runs. rewrite Hc. destruct (decide (n = k)) as [->|].
  - exists w'. by rewrite lookup_insert_eq.
  - by rewrite lookup_insert_ne.
Qed.

(** ** Distribution *)

Definition distribute_to (pid : Z) (sp : DistributeSpec) (x : Z * Z) : sched_out :=
  ToWorker (GetWorkerQid x.2) (kDistribute x.1 pid sp).
Definition distributed (pid : Z) (sp : DistributeSpec) (x : Z * Z) : sched_msg :=
  kFinishDistribute (dist_collection_id sp) x.1 x.2 pid.

Lemma serve_distribute pid sp func x c :
  wc_CreatePartFromBin (dist_collection_id sp) = Some func -> runs c x.2 ->
  wp none (serve (distribute_to pid sp x)) c (fun _ c' ms =>
    ms = [distributed pid sp x] /\ (forall n, runs c n -> runs c' n) /\
    stores c' x.2 (dist_collection_id sp) x.1
      (WPart (func (dist_data sp) x.1 (dist_num_partition sp))) /\
    (forall n cid p y, (n, cid, p) <> (x.2, dist_collection_id sp, x.1) ->
       stores c n cid p y -> stores c' n cid p y)).
Proof.
  intros Hf Hx. eapply wp_mono.
  - apply (serve_spec _ _ _ (fun w' ms => exists w, cl_workers c !! x.2 = Some w /\
      ms = [distributed pid sp x] /\ forall c' p', store_lookup (w_partition_manager w') c' p' =
        if decide (c' = dist_collection_id sp /\ p' = x.1)
        then Some (WPart (func (dist_data sp) x.1 (dist_num_partition sp)))
        else store_lookup (w_partition_manager w) c' p')); [done|].
    intros w Hw. unfold handle, wp. cbn [wk_Process].
    assert (Hrun : wp none (wk_Distribute x.1 pid sp) (w <| fs_ := cl_fs c |>) (fun _ w' os =>
      w_node_id w' = w_node_id w /\
      os = [WSend (kFinishDistribute (dist_collection_id sp) x.1 (w_node_id w) pid)] /\
      forall c' p', store_lookup (w_partition_manager w') c' p' =
        if decide (c' = dist_collection_id sp /\ p' = x.1)
        then Some (WPart (func (dist_data sp) x.1 (dist_num_partition sp)))
        else store_lookup (w_partition_manager w) c' p')).
    { unfold wk_Distribute, get_func. rewrite Hf. wstep. wstep. wstep.
      apply on_parts_Insert_spec. intros m' Hm'. repeat wstep. cbn. split_and!; done. }
    destruct Hx as (w0 & Hw0 & Hid & _). assert (w0 = w) as -> by congruence.
    unfold wp in Hrun. destruct (wk_Distribute _ _ _ _) as [[[[] w'] os]|e]; [|done].
    destruct Hrun as (Hid' & -> & Hst). cbn. split; [done|]. exists w. rewrite Hid. done.
  - intros [] c' ms (w' & Hc' & Hfs & Hid & w & Hw & -> & Hst). split_and!; [done|..].
    + intros n. by eapply runs_insert.
    + exists w'. rewrite Hc', lookup_insert_eq. split; [done|]. by rewrite Hst, decide_True.
    + intros n cid p y Hne (w1 & Hw1 & Hy). unfold stores. rewrite Hc'.
      destruct (decide (x.2 = n)) as [<-|].
      * exists w'. rewrite lookup_insert_eq, Hst. split; [done|].
        rewrite decide_False by (intros [-> ->]; by destruct x). congruence.
      * exists w1. by rewrite lookup_insert_ne.
Qed.

Lemma serve_distributes pid sp func l c :
  wc_CreatePartFromBin (dist_collection_id sp) = Some func ->
  (forall x, x ∈ l -> runs c x.2) -> NoDup l.*1 ->
  wp none (for_each (distribute_to pid sp <$> l) serve) c (fun _ c' ms =>
    ms = distributed pid sp <$> l /\ (forall n, runs c n -> runs c' n) /\
    forall x, x ∈ l -> stores c' x.2 (dist_collection_id sp) x.1
      (WPart (func (dist_data sp) x.1 (dist_num_partition sp)))).
Proof.
  intros Hf Hruns Hnd. unfold wp. rewrite for_each_fmap.
  change (wp none (for_each l (fun x => serve (distribute_to pid sp x))) c (fun _ c' ms =>
    ms = distributed pid sp <$> l /\ (forall n, runs c n -> runs c' n) /\
    forall x, x ∈ l -> stores c' x.2 (dist_collection_id sp) x.1
      (WPart (func (dist_data sp) x.1 (dist_num_partition sp))))).
  eapply (wp_for_each none (fun l' c' ms => exists k, l = k ++ l' /\ ms = distributed pid sp <$> k /\
    (forall n, runs c n -> runs c' n) /\
    forall x, x ∈ k -> stores c' x.2 (dist_collection_id sp) x.1
      (WPart (func (dist_data sp) x.1 (dist_num_partition sp))))).
  - exists []. split_and!; try done. set_solver.
  - intros x l' c1 ms (k & Hl & -> & Hr & Hst). eapply wp_mono.
    + apply serve_distribute; [done|]. apply Hr, Hruns. rewrite Hl. set_solver.
    + intros [] c2 ms2 (-> & Hr2 & Hnew & Hold). exists (k ++ [x]). rewrite fmap_app. split_and!.
      * by rewrite Hl, <- app_assoc.
      * done.
      * auto.
      * intros y [Hy|Hy%list_elem_of_singleton]%elem_of_app; [|by subst].
        apply Hold; [|by apply Hst]. intros [= Hn Hp].
        rewrite Hl, fmap_app in Hnd. apply NoDup_app in Hnd as (_ & Hdis & _).
        apply (Hdis x.1); [rewrite <- Hp; by apply list_elem_of_fmap_2|cbn; set_solver].
  - intros c' ms (k & Hl & -> & Hr & Hst). rewrite app_nil_r in Hl. subst k. done.
Qed.

Lemma serve_update cid cv n c :
  view_collection_id cv = cid -> runs c n ->
  wp none (serve (ToWorker (GetWorkerQid n) (kUpdateCollection cid cv))) c (fun _ c' ms =>
    ms = [kUpdateCollectionReply cid n] /\ (forall k, runs c k -> runs c' k) /\
    knows c' n cid cv /\ (forall k, knows c k cid cv -> knows c' k cid cv) /\
    (forall k c0 p y, stores c k c0 p y -> stores c' k c0 p y)).
Proof.
  intros Hcv Hn. eapply wp_mono.
  - apply (serve_spec _ _ _ (fun w' ms => exists w, cl_workers c !! n = Some w /\
      ms = [kUpdateCollectionReply cid n] /\ w_partition_manager w' = w_partition_manager w /\
      w_collection_map w' = <[cid := cv]> (w_collection_map w))); [done|].
    intros w Hw. destruct Hn as (w0 & Hw0 & Hid & _). assert (w0 = w) as -> by congruence.
    unfold handle, wp, wk_Process, UpdateCollection, cmap_Insert. cbn. rewrite Hcv.
    split; [done|]. exists w. by rewrite Hid.
  - intros [] c' ms (w' & Hc' & Hfs & Hid & w & Hw & -> & Hpm & Hcm). split_and!; [done|..].
    + intros k. by eapply runs_insert.
    + exists w'. rewrite Hc', lookup_insert_eq, Hcm. by rewrite lookup_insert_eq.
    + intros k (w1 & Hw1 & Hk). unfold knows. rewrite Hc'. destruct (decide (n = k)) as [<-|].
      * exists w'. rewrite lookup_insert_eq, Hcm. by rewrite lookup_insert_eq.
      * exists w1. by rewrite lookup_insert_ne.
    + intros k c0 p y (w1 & Hw1 & Hk). unfold stores. rewrite Hc'. destruct (decide (n = k)) as [<-|].
      * exists w'. rewrite lookup_insert_eq, Hpm. split; [done|]. congruence.
      * exists w1. by rewrite lookup_insert_ne.
Qed.

Lemma serve_updates cid cv ns c :
  view_collection_id cv = cid -> (forall n, n ∈ ns -> runs c n) ->
  wp none (for_each ns (fun n => serve (ToWorker (GetWorkerQid n) (kUpdateCollection cid cv)))) c
    (fun _ c' ms => ms = kUpdateCollectionReply cid <$> ns /\
      (forall n, n ∈ ns -> knows c' n cid cv) /\
      (forall k c0 p y, stores c k c0 p y -> stores c' k c0 p y)).
Proof.
  intros Hcv Hruns.
  eapply (wp_for_each none (fun l' c' ms => exists k, ns = k ++ l' /\
    ms = kUpdateCollectionReply cid <$> k /\ (forall n, runs c n -> runs c' n) /\
    (forall n, n ∈ k -> knows c' n cid cv) /\
    (forall k c0 p y, stores c k c0 p y -> stores c' k c0 p y))).
  - exists []. split_and!; try done. set_solver.
  - intros n l' c1 ms (k & Hl & -> & Hr & Hk & Hst). eapply wp_mono.
    + apply serve_update; [done|]. apply Hr, Hruns. rewrite Hl. set_solver.
    + intros [] c2 ms2 (-> & Hr2 & Hnew & Hold & Hst2). exists (k ++ [n]). rewrite fmap_app.
      split_and!; auto.
      * by rewrite Hl, <- app_assoc.
      * intros y [Hy|Hy%list_elem_of_singleton]%elem_of_app; [auto|by subst].
  - intros c' ms (k & Hl & -> & Hr & Hk & Hst). rewrite app_nil_r in Hl. by subst k.
Qed.

(** Which node each partition is sent to. *)
Definition round_robin (ns : list Z) (n : Z) : list (Z * Z) :=
  (fun i => (i, default 0 (ns !! Z.to_nat (i mod Z.of_nat (length ns))))) <$> seqZ 0 n.

Lemma round_robin_parts ns n : (round_robin ns n).*1 = seqZ 0 n.
Proof.
  unfold round_robin. rewrite <- list_fmap_compose. etrans; [|apply list_fmap_id]. by apply list_fmap_ext.
Qed.

Lemma round_robin_nodes ns n x : ns <> [] -> x ∈ round_robin ns n -> x.2 ∈ ns.
Proof.
  intros Hne (i & -> & Hi)%list_elem_of_fmap. cbn.
  destruct (lookup_lt_is_Some_2 ns (Z.to_nat (i mod Z.of_nat (length ns)))) as [y Hy].
  - destruct ns as [|a l0]; [done|].
    pose proof (Z.mod_pos_bound i (Z.of_nat (length (a :: l0)))). cbn in *. lia.
  - rewrite Hy. by eapply list_elem_of_lookup_2.
Qed.

Lemma Distribute_round_robin w sp s : spec w = SDistribute sp -> node_ids (elem s) <> [] ->
  Distribute w s = Ok (tt,
    s <| distribute_manager ::= fun d => d <| part_expected_map_ ::= <[spec_id w := dist_num_partition sp]> |> |>,
    distribute_to (spec_id w) sp <$> round_robin (node_ids (elem s)) (dist_num_partition sp)).
Proof.
  intros Hs Hne. rewrite (Distribute_sends _ _ _ Hs Hne). unfold round_robin.
  by rewrite <- list_fmap_compose.
Qed.

(** The nodes of the scheduler are where their workers run. *)
Definition nodes_ok (s : Sch) (c : Cluster) : Prop :=
  map_Forall (fun k i => node_host_id (info_node i) = k) (nodes (elem s)) /\
  forall n, n ∈ node_ids (elem s) -> runs c n.

Lemma node_ids_keys s c : nodes_ok s c -> node_ids (elem s) = keys (nodes (elem s)).
Proof.
  intros [Hid _]. unfold node_ids, keys. apply list_fmap_ext. intros j [k i] Hj. cbn.
  apply list_elem_of_lookup_2, elem_of_entries in Hj. by apply Hid.
Qed.

(** C27: Distributing a collection over the cluster.  The scheduler sends every partition to a
    worker, each worker creates its partition with the registered function and reports
    back, the scheduler then sends the new view to all workers, and when they have confirmed
    it reports the plan finished - in whatever order messages of one round are served and
    answered.  In the end every worker knows the same view of the collection, and every
    partition is stored, with the contents made for it, on the node that the view names. *)
Theorem distribute_reaches_workers browse get_ip wide w sp func s c sent s1 order reports :
  spec w = SDistribute sp -> 0 < dist_num_partition sp -> node_ids (elem s) <> [] ->
  distribute_map_ (distribute_manager s) !! dist_collection_id sp = None ->
  colm_callbacks_ (collection_manager s) !! dist_collection_id sp = None ->
  nodes_ok s c -> wc_CreatePartFromBin (dist_collection_id sp) = Some func ->
  Distribute w s = Ok (tt, s1, sent) -> order ≡ₚ sent ->
  exists c1 done1, for_each order serve c = Ok (tt, c1, done1) /\
    (reports ≡ₚ done1 ->
     exists s2 updates, for_each reports (sch_Process browse get_ip wide) s1 = Ok (tt, s2, updates) /\
       forall order2 confirms, order2 ≡ₚ updates ->
       exists c2 done2, for_each order2 serve c1 = Ok (tt, c2, done2) /\
         (confirms ≡ₚ done2 ->
          exists s3, for_each confirms (sch_Process browse get_ip wide) s2 =
              Ok (tt, s3, [ToSelf (kFinishPlan (spec_id w))]) /\
            exists cv, (forall n, n ∈ node_ids (elem s) -> knows c2 n (dist_collection_id sp) cv) /\
              forall p, 0 <= p < dist_num_partition sp -> exists n,
                n ∈ node_ids (elem s) /\ v_ (view_mapper cv) !! Z.to_nat p = Some n /\
                stores c2 n (dist_collection_id sp) p
                  (WPart (func (dist_data sp) p (dist_num_partition sp))))).
Proof.
  intros Hs Hn Hne Hd Hcb Hok Hf Hsent Horder.
  rewrite (Distribute_round_robin _ _ _ Hs Hne) in Hsent. injection Hsent as Hs1 <-.
  set (n := dist_num_partition sp) in *. set (cid := dist_collection_id sp) in *.
  destruct (permuted_fmap _ _ _ Horder) as (l & -> & Hl).
  assert (Hl1 : l.*1 ≡ₚ seqZ 0 n) by (by rewrite Hl, round_robin_parts).
  assert (Hnode : forall x, x ∈ l -> x.2 ∈ node_ids (elem s)).
  { intros x. rewrite Hl. by apply round_robin_nodes. }
  destruct (wp_none_Ok _ _ _ (serve_distributes (spec_id w) sp func l c Hf
    (fun x Hx => proj2 Hok _ (Hnode x Hx)) ltac:(rewrite Hl1; apply NoDup_seqZ)))
    as ([] & c1 & ms & Hrun1 & -> & Hruns & Hst).
  exists c1, (distributed (spec_id w) sp <$> l). split; [done|]. intros Hrep.
  destruct (permuted_fmap _ _ _ Hrep) as (parts & -> & Hparts').
  assert (Hparts : parts.*1 ≡ₚ seqZ 0 n) by (by rewrite Hparts').
  destruct (FinishDistribute_complete cid (spec_id w) n parts s1) as (s2 & cv & Hrun & Hcv & H1 & H2 & H3);
    [|done..|].
  { rewrite <- Hs1. unfold distributing. cbn. rewrite lookup_or_insert. by rewrite lookup_or_None. }
  exists s2, (broadcast s1 (kUpdateCollection cid cv)).
  split; [by rewrite for_each_fmap|]. intros order2 confirms Ho2.
  assert (Hns : node_ids (elem s1) = node_ids (elem s)) by (by subst s1).
  unfold broadcast in Ho2. rewrite Hns in Ho2.
  destruct (permuted_fmap _ _ _ Ho2) as (ns & -> & Hns').
  destruct (wp_none_Ok _ _ _ (serve_updates cid cv ns c1 ltac:(by rewrite Hcv)
    (fun k Hk => Hruns _ (proj2 Hok _ ltac:(rewrite <- Hns'; exact Hk)))))
    as ([] & c2 & ms2 & Hrun2 & -> & Hknows & Hst2).
  exists c2, (kUpdateCollectionReply cid <$> ns). split; [by rewrite for_each_fmap|].
  intros Hconf. destruct (permuted_fmap _ _ _ Hconf) as (replies & -> & Hreplies).
  destruct (FinishUpdate_ends_plan browse get_ip cid (spec_id w) replies s2) as (s3 & Hrun3); [done|..].
  - unfold node_ids in *. rewrite H2. subst s1. done.
  - rewrite H2, Hreplies, Hns', (node_ids_keys _ _ Hok). by subst s1.
  - exists s3. split; [by rewrite for_each_fmap|]. exists cv. split.
    + intros k Hk. apply Hknows. by rewrite Hns'.
    + intros p Hp.
      assert (exists m, (p, m) ∈ parts) as [m Hm].
      { assert (p ∈ parts.*1) as Hin by (rewrite Hparts; apply elem_of_seqZ; lia).
        apply list_elem_of_fmap in Hin as ([? m] & -> & Hin). by exists m. }
      assert ((p, m) ∈ l) as Hml by (by rewrite <- Hparts').
      exists m. split_and!.
      * by apply (Hnode (p, m)).
      * rewrite Hcv. by apply view_of_reports.
      * apply Hst2. by apply (Hst (p, m)).
Qed.

(** ** Checkpoints *)

Lemma on_parts_Has_spec cid p (w : Worker P) Q :
  Q (bool_decide (is_Some (store_lookup (w_partition_manager w) cid p))) w [] ->
  wp none (on_parts (pm_Has cid p)) w Q.
Proof.
  intros HQ. unfold on_parts. apply zoom_wp. apply pm_Has_spec. cbn. by destruct w.
Qed.

Lemma on_parts_Get_spec cid p x (w : Worker P) Q :
  store_lookup (w_partition_manager w) cid p = Some x ->
  (forall m', same_store m' (w_partition_manager w) -> Q x (w <| w_partition_manager := m' |>) []) ->
  wp none (on_parts (pm_Get cid p)) w Q.
Proof.
  intros Hx HQ. unfold on_parts. apply zoom_wp. apply pm_Get_spec; [|by rewrite Hx].
  intros y m' Hy Hm'. cbn. assert (y = x) as -> by congruence. by apply HQ.
Qed.

Definition checkpoint_of (cid : Z) (url : string) (x : Z * Z) : sched_out :=
  ToWorker (GetWorkerQid x.2) (kCheckpoint cid x.1 (GetCheckpointUrl url cid x.1)).
Definition load_of (cid : Z) (url : string) (x : Z * Z) : sched_out :=
  ToWorker (GetWorkerQid x.2) (kLoadCheckpoint cid x.1 (GetCheckpointUrl url cid x.1)).

Lemma serve_checkpoint cid url y x c :
  runs c x.2 -> stores c x.2 cid x.1 (WPart y) ->
  wp none (serve (checkpoint_of cid url x)) c (fun _ c' ms =>
    ms = [kFinishCheckpointS (GetWorkerQid x.2) cid] /\
    cl_fs c' = <[GetCheckpointUrl url cid x.1 := wc_ToBin y]> (cl_fs c) /\
    (forall n, runs c n -> runs c' n) /\
    (forall n c0 p z, stores c n c0 p z -> stores c' n c0 p z)).
Proof.
  intros Hr (w & Hw & Hy). eapply wp_mono.
  - apply (serve_spec _ _ _ (fun w' ms => ms = [kFinishCheckpointS (GetWorkerQid x.2) cid] /\
      fs_ w' = <[GetCheckpointUrl url cid x.1 := wc_ToBin y]> (cl_fs c) /\
      same_store (w_partition_manager w') (w_partition_manager w))); [done|].
    intros w0 Hw0. assert (w0 = w) as -> by congruence. destruct Hr as (w0 & ? & Hid & _).
    assert (w0 = w) as -> by congruence. unfold handle, wp. cbn [wk_Process].
    unfold emit at 1. cbn [for_each run_out wk_run_task].
    assert (Hrun : wp none (wk_run_checkpoint cid x.1 (GetCheckpointUrl url cid x.1))
      (w <| fs_ := cl_fs c |>) (fun _ w' os => os = [WSend (kFinishCheckpointS (GetWorkerQid x.2) cid)] /\
        w_node_id w' = w_node_id w /\
        fs_ w' = <[GetCheckpointUrl url cid x.1 := wc_ToBin y]> (cl_fs c) /\
        same_store (w_partition_manager w') (w_partition_manager w))).
    { unfold wk_run_checkpoint. wstep. apply on_parts_Has_spec. cbn [w_partition_manager]. wstep.
      apply wp_check.
      - intros _. wstep. eapply on_parts_Get_spec; [exact Hy|]. intros m' Hm'. repeat wstep. cbn.
        unfold wQid. cbn. rewrite Hid. split_and!; done.
      - cbn. rewrite Hy. by rewrite bool_decide_eq_true_2. }
    unfold wp in Hrun. unfold bind. destruct (wk_run_checkpoint _ _ _ _) as [[[[] w'] os]|e]; [|done].
    destruct Hrun as (-> & Hid' & Hfs & Hsame). cbn. done.
  - intros [] c' ms (w' & Hc' & Hfs & Hid & -> & Hfs' & Hsame). split_and!; [done|congruence|..].
    + intros n. by eapply runs_insert.
    + intros n c0 p z (w1 & Hw1 & Hz). unfold stores. rewrite Hc'. destruct (decide (x.2 = n)) as [<-|].
      * exists w'. rewrite lookup_insert_eq, (Hsame c0 p). split; [done|]. congruence.
      * exists w1. by rewrite lookup_insert_ne.
Qed.

Lemma GetCheckpointUrl_inj url cid p p' :
  GetCheckpointUrl url cid p = GetCheckpointUrl url cid p' -> p = p'.
Proof. unfold GetCheckpointUrl. intros Heq. by repeat apply (inj _) in Heq. Qed.

Lemma serve_checkpoints cid url (y : Z -> P) l c :
  (forall x, x ∈ l -> runs c x.2 /\ stores c x.2 cid x.1 (WPart (y x.1))) ->
  wp none (for_each l (fun x => serve (checkpoint_of cid url x))) c (fun _ c' ms =>
    ms = (fun x => kFinishCheckpointS (GetWorkerQid x.2) cid) <$> l /\
    forall x, x ∈ l -> cl_fs c' !! GetCheckpointUrl url cid x.1 = Some (wc_ToBin (y x.1))).
Proof.
  intros Hl.
  eapply (wp_for_each none (fun l' c' ms => exists k, l = k ++ l' /\
    ms = (fun x => kFinishCheckpointS (GetWorkerQid x.2) cid) <$> k /\
    (forall n, runs c n -> runs c' n) /\
    (forall n c0 p z, stores c n c0 p z -> stores c' n c0 p z) /\
    forall x, x ∈ k -> cl_fs c' !! GetCheckpointUrl url cid x.1 = Some (wc_ToBin (y x.1)))).
  - exists []. split_and!; try done. set_solver.
  - intros x l' c1 ms (k & Hk & -> & Hr & Hst & Hfs).
    destruct (Hl x ltac:(rewrite Hk; set_solver)) as [Hx1 Hx2]. eapply wp_mono.
    + apply (serve_checkpoint cid url (y x.1)); auto.
    + intros [] c2 ms2 (-> & Hfs2 & Hr2 & Hst2). exists (k ++ [x]). rewrite fmap_app. split_and!; auto.
      * by rewrite Hk, <- app_assoc.
      * intros z Hz. rewrite Hfs2.
        destruct (decide (x.1 = z.1)) as [<-|Hne]; [by rewrite lookup_insert_eq|].
        rewrite lookup_insert_ne by (by intros ?%GetCheckpointUrl_inj). apply Hfs.
        apply elem_of_app in Hz as [Hz|Hz%list_elem_of_singleton]; [done|by subst].
  - intros c' ms (k & Hk & -> & Hr & Hst & Hfs). rewrite app_nil_r in Hk. by subst k.
Qed.

(** [hdfsRead] returns something before the end of a file. *)
Definition hdfsRead_ok : Prop :=
  forall file : bytes, file <> [] -> (1 <= wc_hdfsRead file <= length file)%nat.

(** The checkpoint file of a partition can be read back. *)
Definition restorable (cr : Reader P) (y : P) : Prop := wc_ToBin y <> [] /\ reads cr (wc_ToBin y) y.

Lemma read_file_spec url sc what file (w : Worker P) :
  hdfsRead_ok -> fs_ w !! url = Some file -> sc (GetFileSize file) = true ->
  read_file url sc what w = Ok (file, w, []).
Proof.
  intros Hrd Hf Hsc. unfold read_file, reader_Init, get, check, deref, bind, ret. cbn.
  rewrite Hf, bool_decide_eq_true_2 by done. cbn. rewrite Hsc. cbn.
  by rewrite (reader_Read_spec _ Hrd).
Qed.

Lemma serve_load cid url cr y x c :
  hdfsRead_ok -> wc_CreatePart cid = Some cr -> restorable cr y -> runs c x.2 ->
  cl_fs c !! GetCheckpointUrl url cid x.1 = Some (wc_ToBin y) ->
  wp none (serve (load_of cid url x)) c (fun _ c' ms =>
    ms = [kFinishLoadCheckpoint (GetWorkerQid x.2) cid] /\ cl_fs c' = cl_fs c /\
    (forall n, runs c n -> runs c' n) /\ stores c' x.2 cid x.1 (WPart y) /\
    (forall n c0 p z, (n, c0, p) <> (x.2, cid, x.1) -> stores c n c0 p z -> stores c' n c0 p z)).
Proof.
  intros Hrd Hcr [Hne Hread] Hr Hfile. eapply wp_mono.
  - apply (serve_spec _ _ _ (fun w' ms => exists w, cl_workers c !! x.2 = Some w /\
      ms = [kFinishLoadCheckpoint (GetWorkerQid x.2) cid] /\ fs_ w' = cl_fs c /\
      forall c' p', store_lookup (w_partition_manager w') c' p' =
        if decide (c' = cid /\ p' = x.1) then Some (WPart y)
        else store_lookup (w_partition_manager w) c' p')); [done|].
    intros w Hw. destruct Hr as (w0 & ? & Hid & _). assert (w0 = w) as -> by congruence.
    unfold handle, wp. cbn [wk_Process]. unfold emit at 1. cbn [for_each run_out wk_run_task].
    assert (Hrun : wp none (run_load_checkpoint cid x.1 (GetCheckpointUrl url cid x.1))
      (w <| fs_ := cl_fs c |>) (fun _ w' os => os = [WSend (kFinishLoadCheckpoint (GetWorkerQid x.2) cid)] /\
        w_node_id w' = w_node_id w /\ fs_ w' = cl_fs c /\
        forall c' p', store_lookup (w_partition_manager w') c' p' =
          if decide (c' = cid /\ p' = x.1) then Some (WPart y)
          else store_lookup (w_partition_manager w) c' p')).
    { unfold run_load_checkpoint, get_func. rewrite Hcr. wstep. unfold wp at 1.
      assert (Hfile' : fs_ (w <| fs_ := cl_fs c |>) !! GetCheckpointUrl url cid x.1 = Some (wc_ToBin y)) by done.
      rewrite (read_file_spec _ _ _ _ _ Hrd Hfile') by (by destruct (wc_ToBin y)).
      wstep. wstep. wstep. apply zoom_wp. unfold wp at 1.
      pose proof (Hread [] []) as Hrd1. rewrite app_nil_r in Hrd1. cbn in Hrd1.
      unfold FromSArray. rewrite Hrd1. wstep. apply on_parts_Insert_spec. intros m' Hm'.
      repeat wstep. unfold wQid. cbn. rewrite Hid. split_and!; done. }
    unfold wp in Hrun. unfold bind. destruct (run_load_checkpoint _ _ _ _) as [[[[] w'] os]|e]; [|done].
    destruct Hrun as (-> & Hid' & Hfs & Hsame). cbn. split; [done|]. by exists w.
  - intros [] c' ms (w' & Hc' & Hfs & Hid & w & Hw & -> & Hfs' & Hst). split_and!; [done|congruence|..].
    + intros n. by eapply runs_insert.
    + exists w'. rewrite Hc', lookup_insert_eq. split; [done|]. by rewrite Hst, decide_True.
    + intros n c0 p z Hdiff (w1 & Hw1 & Hz). unfold stores. rewrite Hc'.
      destruct (decide (x.2 = n)) as [<-|].
      * exists w'. rewrite lookup_insert_eq, Hst. split; [done|].
        rewrite decide_False by (intros [-> ->]; by destruct x). congruence.
      * exists w1. by rewrite lookup_insert_ne.
Qed.

Lemma serve_loads cid url cr (y : Z -> P) l c :
  hdfsRead_ok -> wc_CreatePart cid = Some cr -> NoDup l.*1 ->
  (forall x, x ∈ l -> runs c x.2 /\ restorable cr (y x.1) /\
     cl_fs c !! GetCheckpointUrl url cid x.1 = Some (wc_ToBin (y x.1))) ->
  wp none (for_each l (fun x => serve (load_of cid url x))) c (fun _ c' ms =>
    ms = (fun x => kFinishLoadCheckpoint (GetWorkerQid x.2) cid) <$> l /\
    forall x, x ∈ l -> stores c' x.2 cid x.1 (WPart (y x.1))).
Proof.
  intros Hrd Hcr Hnd Hl.
  eapply (wp_for_each none (fun l' c' ms => exists k, l = k ++ l' /\
    ms = (fun x => kFinishLoadCheckpoint (GetWorkerQid x.2) cid) <$> k /\
    cl_fs c' = cl_fs c /\ (forall n, runs c n -> runs c' n) /\
    forall x, x ∈ k -> stores c' x.2 cid x.1 (WPart (y x.1)))).
  - exists []. split_and!; try done. set_solver.
  - intros x l' c1 ms (k & Hk & -> & Hfs & Hr & Hst).
    destruct (Hl x ltac:(rewrite Hk; set_solver)) as (Hx1 & Hx2 & Hx3). eapply wp_mono.
    + apply (serve_load cid url cr (y x.1)); auto. by rewrite Hfs.
    + intros [] c2 ms2 (-> & Hfs2 & Hr2 & Hnew & Hold). exists (k ++ [x]). rewrite fmap_app.
      split_and!; auto; [by rewrite Hk, <- app_assoc|congruence|].
      intros z [Hz|Hz%list_elem_of_singleton]%elem_of_app; [|by subst].
      apply Hold; [|by apply Hst]. intros [= Hn Hp]. rewrite Hk, fmap_app in Hnd.
      apply NoDup_app in Hnd as (_ & Hdis & _).
      apply (Hdis x.1); [rewrite <- Hp; by apply list_elem_of_fmap_2|cbn; set_solver].
  - intros c' ms (k & Hk & -> & _ & _ & Hst). rewrite app_nil_r in Hk. by subst k.
Qed.

(** The partitions of a view with their nodes. *)
Definition owners (cv : CollectionView) : list (Z * Z) :=
  zip (seqZ 0 (Z.of_nat (length (v_ (view_mapper cv))))) (v_ (view_mapper cv)).

Lemma owners_parts cv : (owners cv).*1 = seqZ 0 (Z.of_nat (length (v_ (view_mapper cv)))).
Proof. unfold owners. rewrite fst_zip; [done|]. rewrite length_seqZ. lia. Qed.

Lemma to_owners_fmap cv msg :
  to_owners cv msg = (fun x => ToWorker (GetWorkerQid x.2) (msg x.1)) <$> owners cv.
Proof.
  unfold to_owners, owners. generalize (seqZ 0 (Z.of_nat (length (v_ (view_mapper cv))))).
  induction (v_ (view_mapper cv)) as [|x l IH]; intros [|i js]; cbn; try done. by rewrite IH.
Qed.

Lemma elem_of_owners cv p n :
  (p, n) ∈ owners cv <-> 0 <= p /\ v_ (view_mapper cv) !! Z.to_nat p = Some n.
Proof.
  unfold owners. rewrite list_elem_of_lookup. split.
  - intros (i & (Hi & Hn)%lookup_zip_Some). cbn in *. apply lookup_seqZ in Hi as [-> Hi].
    split; [lia|]. by replace (Z.to_nat (0 + Z.of_nat i)) with i by lia.
  - intros [Hp Hn]. exists (Z.to_nat p). apply lookup_zip_Some. cbn. split; [|done].
    pose proof (lookup_lt_Some _ _ _ Hn). apply lookup_seqZ. lia.
Qed.

(** C28: A checkpoint restores a collection.  The workers serve the messages of a checkpoint
    plan, in any order; later - on a cluster that has nothing in common with the first one
    but the file system, under a view that may place the partitions on other nodes - they
    serve the messages with which the scheduler loads that checkpoint, in any order.
    Nothing fails, every partition reports both times, and every partition is then stored
    on the node its new view names with the contents it had when it was written. *)
Theorem checkpoint_restores_collection w sp cv cv' f (y : Z -> P) cr s s1 s2 s3 sent sent2 c c2 order order2 :
  spec_type w = TCheckpoint -> spec w = SCheckpoint sp ->
  collection_map (elem s) !! cp_cid sp = Some cv -> Checkpoint w s = Ok (tt, s1, sent) ->
  hdfsRead_ok -> wc_CreatePart (cp_cid sp) = Some cr ->
  (forall p n, (p, n) ∈ owners cv -> runs c n /\ restorable cr (y p) /\
     stores c n (cp_cid sp) p (WPart (y p))) ->
  order ≡ₚ sent ->
  collection_map (elem s2) !! cp_cid sp = Some cv' -> length (v_ (view_mapper cv')) = length (v_ (view_mapper cv)) ->
  LoadCheckpoint (cp_cid sp) (cp_url sp) f s2 = Ok (tt, s3, sent2) ->
  (forall p n, (p, n) ∈ owners cv' -> runs c2 n) -> order2 ≡ₚ sent2 ->
  exists c1 done1, for_each order serve c = Ok (tt, c1, done1) /\
    done1 ≡ₚ (fun x => kFinishCheckpointS (GetWorkerQid x.2) (cp_cid sp)) <$> owners cv /\
    (cl_fs c2 = cl_fs c1 ->
     exists c3 done2, for_each order2 serve c2 = Ok (tt, c3, done2) /\
       done2 ≡ₚ (fun x => kFinishLoadCheckpoint (GetWorkerQid x.2) (cp_cid sp)) <$> owners cv' /\
       forall p n, (p, n) ∈ owners cv' -> stores c3 n (cp_cid sp) p (WPart (y p))).
Proof.
  intros Ht Hsp Hcv Hcp Hrd Hcr Hst Horder Hcv' Hlen Hld Hruns Horder2.
  rewrite (Checkpoint_sends _ _ _ _ Ht Hsp Hcv) in Hcp. injection Hcp as _ <-.
  destruct (LoadCheckpoint_sends (cp_cid sp) (cp_url sp) f _ _ Hcv') as [s3' Hld'].
  rewrite Hld' in Hld. injection Hld as _ <-. rewrite to_owners_fmap in Horder, Horder2.
  destruct (permuted_fmap _ _ _ Horder) as (l & -> & Hl).
  destruct (permuted_fmap _ _ _ Horder2) as (l2 & -> & Hl2).
  destruct (wp_none_Ok _ _ _ (serve_checkpoints (cp_cid sp) (cp_url sp) y l c
    ltac:(intros [p n] Hx; rewrite Hl in Hx; destruct (Hst p n Hx) as (? & ? & ?); done)))
    as ([] & c1 & ms & Hrun1 & -> & Hfiles).
  eexists c1, _. split; [by rewrite for_each_fmap|]. split; [by rewrite Hl|]. intros Hfs.
  assert (Hpart : forall x, x ∈ l2 -> exists n, (x.1, n) ∈ owners cv).
  { intros [p n] Hx. rewrite Hl2 in Hx. assert (p ∈ (owners cv').*1) as Hin
      by (by apply (list_elem_of_fmap_2 fst _ (p, n))).
    rewrite owners_parts, Hlen, <- owners_parts in Hin.
    apply list_elem_of_fmap in Hin as ([? m] & -> & Hin). by exists m. }
  destruct (wp_none_Ok _ _ _ (serve_loads (cp_cid sp) (cp_url sp) cr y l2 c2 Hrd Hcr
    ltac:(rewrite Hl2, owners_parts; apply NoDup_seqZ)
    ltac:(intros x Hx; destruct (Hpart x Hx) as [m Hm]; destruct (Hst _ _ Hm) as (_ & Hres & _);
          split; [rewrite Hl2 in Hx; destruct x as [p n]; by apply (Hruns p n)|]; split; [done|];
          rewrite Hfs; apply (Hfiles (x.1, m)); by rewrite Hl)))
    as ([] & c3 & ms2 & Hrun2 & -> & Hstored).
  eexists c3, _. split; [by rewrite for_each_fmap|]. split; [by rewrite Hl2|].
  intros p n Hp. apply (Hstored (p, n)). by rewrite Hl2.
Qed.
End Cluster.
Arguments Cluster : clear implicits.

(** ** A small cluster: partitions of integers, two or three nodes *)

Definition int_code : WorkerCode (list Z) :=
  {| wc_ToBin := seq_ToBin; wc_CreatePart := fun _ => Some seq_FromBin;
     wc_CreatePartFromBin := fun cid => if cid =? 7 then Some (fun _ p _ => [p]) else None;
     wc_CreatePartFromString := fun _ => None; wc_CreatePartFromBlock := fun _ => None;
     wc_WritePart := fun _ => None; wc_hdfsRead := fun file => Nat.min 3 (length file) |}.

Definition idle_worker (n : Z) (pm : PartitionManager (wpart (list Z))) : Worker (list Z) :=
  {| w_node_id := n; w_hostname := "h"; w_num_local_threads := 1; w_partition_manager := pm;
     w_collection_map := ∅; fs_ := ∅; w_program_ := {| specs := []; dag := {| nodes_ := ∅; cols_ := ∅ |} |};
     is_program_set_ := false; ready_ := false; exited_ := false |}.
#[local] Existing Instance int_code.

Definition two_nodes : Cluster (list Z) :=
  {| cl_workers := {[ 0 := idle_worker 0 empty_pm; 2 := idle_worker 2 empty_pm ]}; cl_fs := ∅ |}.
Definition distribute_wrapper : SpecWrapper :=
  {| spec_id := 1; spec_type := TDistribute; spec_name := "d"; spec := SDistribute small_distribute |}.

Lemma two_nodes_run n (c : Cluster (list Z)) :
  cl_workers c = cl_workers two_nodes -> n = 0 \/ n = 2 -> runs c n.
Proof.
  intros Hc [->| ->]; (eexists; split; [rewrite Hc; reflexivity|]); cbn; lia.
Qed.

Lemma small_nodes : node_ids (elem small_scheduler) = [0; 2].
Proof. vm_compute. reflexivity. Qed.

Lemma distribute_reaches_workers_witness : exists c2 cv n,
  knows c2 0 7 cv /\ knows c2 2 7 cv /\ v_ (view_mapper cv) !! 1%nat = Some n /\
  stores (P := list Z) c2 n 7 1 (WPart [1]).
Proof.
  destruct (Distribute distribute_wrapper small_scheduler) as [[[[] s1] sent]|e] eqn:Hd;
    [|by vm_compute in Hd].
  destruct (distribute_reaches_workers (fun _ => []) id false distribute_wrapper small_distribute
    (fun _ p _ => [p]) small_scheduler two_nodes sent s1 sent
    (match for_each sent serve two_nodes with Ok (_, _, ms) => ms | Err _ => [] end))
    as (c1 & done1 & Hrun1 & H1).
  - reflexivity.
  - cbn. lia.
  - rewrite small_nodes. done.
  - reflexivity.
  - reflexivity.
  - split.
    + apply map_Forall_to_list. vm_compute. by repeat constructor.
    + rewrite small_nodes. intros n Hn. apply two_nodes_run; [done|]. set_solver.
  - reflexivity.
  - exact Hd.
  - reflexivity.
  - rewrite Hrun1 in H1. destruct (H1 ltac:(reflexivity)) as (s2 & updates & _ & H2).
    destruct (H2 updates (match for_each updates serve c1 with Ok (_, _, ms) => ms | Err _ => [] end)
      ltac:(reflexivity)) as (c2 & done2 & Hrun2 & H3).
    rewrite Hrun2 in H3. destruct (H3 ltac:(reflexivity)) as (s3 & _ & cv & Hk & Hp).
    destruct (Hp 1 ltac:(cbn; lia)) as (n & _ & Hv & Hst). exists c2, cv, n.
    rewrite small_nodes in Hk. split_and!; [apply Hk; set_solver..|exact Hv|exact Hst].
Defined.

(** The collection of [small_scheduler] on three nodes; later its nodes are 2, 0 and 2. *)
Definition part_at (p : Z) : PartitionManager (wpart (list Z)) :=
  {| partitions_ := {[ 5 := {[ p := WPart [p; 10 * p] ]} ]} |}.
Definition three_nodes : Cluster (list Z) :=
  {| cl_workers := {[ 0 := idle_worker 0 (part_at 0); 1 := idle_worker 1 (part_at 1);
                      2 := idle_worker 2 (part_at 2) ]}; cl_fs := ∅ |}.
Definition recovered : Sch :=
  small_scheduler <| elem ::= fun e => e <| collection_map := {[ 5 := new_view 5 [2; 0; 2] ]} |> |>.

Lemma small_restorable p : 0 <= p < 3 -> restorable seq_FromBin [p; 10 * p].
Proof.
  intros Hp. split; [done|]. apply dec_enc. split; [unfold length_fits; cbn; lia|].
  repeat constructor; unfold storable; cbn; unfold in_int; lia.
Qed.

Lemma checkpoint_restores_collection_witness :
  exists c3, stores (P := list Z) c3 0 5 1 (WPart [1; 10]) /\ stores c3 2 5 0 (WPart [0; 0]).
Proof.
  destruct (Checkpoint small_checkpoint small_scheduler) as [[[[] s1] sent]|e] eqn:Hcp;
    [|by vm_compute in Hcp].
  destruct (LoadCheckpoint 5 "cp" (CbRecoverLoaded 5) recovered) as [[[[] s3] sent2]|e] eqn:Hld;
    [|by vm_compute in Hld].
  set (fs := match for_each sent serve three_nodes with Ok (_, c1, _) => cl_fs c1 | Err _ => ∅ end).
  destruct (checkpoint_restores_collection small_checkpoint {| cp_cid := 5; cp_url := "cp" |}
    (new_view 5 [0; 1; 2]) (new_view 5 [2; 0; 2]) (CbRecoverLoaded 5) (fun p => [p; 10 * p]) seq_FromBin
    small_scheduler s1 recovered s3 sent sent2 three_nodes (two_nodes <| cl_fs := fs |>) sent sent2)
    as (c1 & done1 & Hrun1 & _ & H1).
  - reflexivity.
  - reflexivity.
  - reflexivity.
  - exact Hcp.
  - intros [|b l] Hf; [done|]. change (1 <= Nat.min 3 (S (length l)) <= S (length l))%nat. lia.
  - reflexivity.
  - intros p n Hp. assert (0 <= p < 3 /\ n = p) as [Hr ->].
    { revert Hp. change (owners (new_view 5 [0; 1; 2])) with [(0, 0); (1, 1); (2, 2)].
      rewrite !elem_of_cons, elem_of_nil. intros [[= -> ->]|[[= -> ->]|[[= -> ->]|[]]]]; lia. }
    assert (p = 0 \/ p = 1 \/ p = 2) as Hc by lia.
    split; [|split; [by apply small_restorable|]].
    + destruct Hc as [->|[->| ->]]; (eexists; split; [reflexivity|]); cbn; lia.
    + destruct Hc as [->|[->| ->]]; (eexists; split; [reflexivity|]); vm_compute; reflexivity.
  - reflexivity.
  - reflexivity.
  - reflexivity.
  - exact Hld.
  - intros p n Hp. apply two_nodes_run; [done|]. revert Hp.
    change (owners (new_view 5 [2; 0; 2])) with [(0, 2); (1, 0); (2, 2)]. rewrite !elem_of_cons, elem_of_nil. intros [[= -> ->]|[[= -> ->]|[[= -> ->]|[]]]]; lia.
  - reflexivity.
  - destruct H1 as (c3 & done2 & _ & _ & Hst).
    + unfold fs. rewrite Hrun1. reflexivity.
    + exists c3. change (owners (new_view 5 [2; 0; 2])) with [(0, 2); (1, 0); (2, 2)] in Hst.
      split; [apply (Hst 1 0)|apply (Hst 0 2)]; set_solver.
Defined.
