(* ===== verification/Mailbox.v ===== *)
(** * The mailboxes (comm/basic_mailbox.hpp, basic_mailbox.cpp, scheduler_mailbox.hpp,
    scheduler_mailbox.cpp, worker_mailbox.hpp, worker_mailbox.cpp, base/node.cpp)

    A mailbox connects the queues of a process to the other processes.  The workers
    register with the mailbox of the scheduler, which numbers them when all are there and
    sends everybody the list of nodes; after that every mailbox can send to every node.

    Messages are the bytes that are sent.  A socket is the address it is connected to, and
    sending through it emits [Wire address message]; zmq delivers without errors.  The
    iterations of a [Receiving] thread are [sm_Receive] and [wm_Receive]; [time(NULL)] is
    an argument. *)

From S2P Require Import Prelude BinStream Specs Index Messages.

(** ** Messages *)

Definition kEmpty : Z := 2 ^ 31 - 1.

#[export] Instance eta_Node : Eta Node := fun n =>
  {| node_host_id := node_host_id n; hostname := hostname n; node_port := node_port n;
     is_recovery := is_recovery n |}.
#[export] Instance Serial_Node : Serial Node.
Proof.
  refine {| enc := fun n => enc (node_host_id n) ++ enc (hostname n) ++ enc (node_port n) ++
                            enc (is_recovery n);
            dec := (a <-- dec ;; b <-- dec ;; c <-- dec ;; d <-- dec ;;
                    ret {| node_host_id := a; hostname := b; node_port := c; is_recovery := d |});
            storable := fun n => storable (node_host_id n) /\ storable (hostname n) /\
              storable (node_port n) /\ storable (is_recovery n) |}.
  solve_reads.
Defined.

Inductive Flag := kMailboxControl | kActorExit | kOthers.
#[export] Instance Flag_eq_dec : EqDecision Flag.
Proof. solve_decision. Defined.
Record Meta := { sender : Z; recver : Z; flag : Flag }.
Record Message := { meta : Meta; data : list bytes }.

(** [MailboxFlag]: an enumeration over [char], of which any value may be received. *)
Abbreviation MailboxFlag := Byte.byte.
Definition mf_Exit : MailboxFlag := Byte.x00.
Definition mf_Barrier : MailboxFlag := Byte.x01.
Definition mf_Register : MailboxFlag := Byte.x02.
Definition mf_Heartbeat : MailboxFlag := Byte.x03.
Definition is_flag (a b : MailboxFlag) : bool := Byte.eqb a b.

Record Control := { ct_flag : MailboxFlag; ct_node : Node; ct_is_recovery : bool }.
#[export] Instance Serial_Control : Serial Control.
Proof.
  refine {| enc := fun c => enc (ct_flag c) ++ enc (ct_node c) ++ enc (ct_is_recovery c);
            dec := (a <-- dec ;; b <-- dec ;; c <-- dec ;;
                    ret {| ct_flag := a; ct_node := b; ct_is_recovery := c |});
            storable := fun c => storable (ct_flag c) /\ storable (ct_node c) /\
              storable (ct_is_recovery c) |}.
  solve_reads.
Defined.

Definition part {A} `{Serial A} (x : A) : bytes := ToSArray (empty_stream << x).

(** ** State *)

(** [senders_] maps a node to the address its socket is connected to, [queue_map_] a queue
    to what was pushed into it.  The members of [SchedulerMailbox], the variable
    [recovery_node] of its [Receiving] and whether [Receiving] has ended come last. *)
Record Mailbox := {
  mb_ready_ : bool; scheduler_node_ : Node; my_node_ : Node; nodes_ : list Node;
  connected_nodes_ : gmap string Z; shared_node_mapping_ : gmap Z Z;
  queue_map_ : gmap Z (list Message); senders_ : gmap Z string;
  start_time_ : Z; barrier_finish_ : bool; barrier_count_ : Z;
  num_workers_ : Z; heartbeats_ : gmap Z Z; recovery_node_ : Node; stopped_ : bool }.
#[export] Instance eta_Mailbox : Eta Mailbox := fun m =>
  {| mb_ready_ := mb_ready_ m; scheduler_node_ := scheduler_node_ m; my_node_ := my_node_ m;
     nodes_ := nodes_ m; connected_nodes_ := connected_nodes_ m;
     shared_node_mapping_ := shared_node_mapping_ m; queue_map_ := queue_map_ m;
     senders_ := senders_ m; start_time_ := start_time_ m;
     barrier_finish_ := barrier_finish_ m; barrier_count_ := barrier_count_ m;
     num_workers_ := num_workers_ m; heartbeats_ := heartbeats_ m;
     recovery_node_ := recovery_node_ m; stopped_ := stopped_ m |}.

Inductive wire := Wire (address : string) (msg : Message).
Abbreviation MM := (M Mailbox wire).

Definition addr_str (n : Node) : string := hostname n +:+ ":" +:+ pretty (node_port n).
Definition tcp (n : Node) : string := "tcp://" +:+ addr_str n.

(** [std::unordered_map<std::string, int>] iterates in an unspecified order. *)
Class AddrOrder := {
  addr_iter : gmap string Z -> list (string * Z);
  addr_iter_perm : forall m, addr_iter m ≡ₚ map_to_list m }.

Section Mailbox.
Context `{AddrOrder}.
(** What members of a [Node] and a [Meta] hold that are not initialized. *)
Variable garbage : Node.

Definition new_mailbox (scheduler_node : Node) (num_workers : Z) : Mailbox :=
  {| mb_ready_ := false; scheduler_node_ := scheduler_node; my_node_ := garbage; nodes_ := [];
     connected_nodes_ := ∅; shared_node_mapping_ := ∅; queue_map_ := ∅; senders_ := ∅;
     start_time_ := 0; barrier_finish_ := false; barrier_count_ := 0;
     num_workers_ := num_workers; heartbeats_ := ∅; recovery_node_ := garbage;
     stopped_ := false |}.

(** ** BasicMailbox *)

Definition RegisterQueue (queue_id : Z) : MM unit :=
  s <-- get ;;
  check (bool_decide (queue_map_ s !! queue_id = None)) "queue_map_.find(queue_id) == end" ;;;
  modify (fun s => s <| queue_map_ ::= <[queue_id := []]> |>).
Definition DeregisterQueue (queue_id : Z) : MM unit :=
  s <-- get ;;
  check (bool_decide (is_Some (queue_map_ s !! queue_id))) "queue_map_.find(queue_id) != end" ;;;
  modify (fun s => s <| queue_map_ ::= delete queue_id |>).

(** [sizeof(Meta)] *)
Definition meta_size : Z := 12.
Definition mb_Send (msg : Message) : MM Z :=
  s <-- get ;;
  let recver_id := if decide (flag (meta msg) = kOthers) then GetNodeId (recver (meta msg))
                   else recver (meta msg) in
  match senders_ s !! recver_id with
  | None => ret (-1)
  | Some socket =>
      emit (Wire socket msg) ;;;
      ret (meta_size + Z.of_nat (sum_list_with length (data msg)))
  end.

Definition Connect (node : Node) : MM unit :=
  check (negb (node_host_id node =? kEmpty)) "node.id != node.kEmpty" ;;;
  check (negb (node_port node =? kEmpty)) "node.port != node.kEmpty" ;;;
  modify (fun s => s <| senders_ ::= <[node_host_id node := tcp node]> |>).

Definition control (f : MailboxFlag) (node : Node) : Control :=
  {| ct_flag := f; ct_node := node; ct_is_recovery := false |}.
Definition control_msg (from to : Z) (c : Control) : Message :=
  {| meta := {| sender := from; recver := to; flag := kMailboxControl |}; data := [part c] |}.

(** [Barrier] up to its wait for [barrier_finish_]. *)
Definition Barrier : MM unit :=
  s <-- get ;;
  modify (fun s => s <| barrier_finish_ := false |>) ;;;
  mb_Send (control_msg (node_host_id (my_node_ s)) (node_host_id (scheduler_node_ s))
             (control mf_Barrier garbage)) ;;;
  ret tt.

(** [Stop] up to joining the threads. *)
Definition Stop : MM unit :=
  s <-- get ;;
  r <-- mb_Send (control_msg (node_host_id garbage) (node_host_id (my_node_ s))
                   (control mf_Exit garbage)) ;;
  check (negb (r =? -1)) "ret != -1".

Definition my_node : MM Node :=
  s <-- get ;; check (mb_ready_ s) "call Start() first" ;;; ret (my_node_ s).
Definition GetNodes : MM (list Node) := gets nodes_.

(** [bin.FromSArray(msg.data[i]); bin >> x] *)
Definition from_data {A} `{Serial A} (msg : Message) (i : nat) : MM A :=
  bs <-- deref (data msg !! i) "msg.data[i]" ;;
  zoom (fun _ => FromSArray bs) (fun _ s => s) (fun e : Empty_set => match e with end) dec.

(** [queue_map_[recver]->Push(msg)] *)
Definition push_queue (msg : Message) : MM unit :=
  s <-- get ;;
  check (bool_decide (is_Some (queue_map_ s !! recver (meta msg))))
    "queue_map_.find(msg.meta.recver) != end" ;;;
  modify (fun s => s <| queue_map_ ::= alter (fun q => q ++ [msg]) (recver (meta msg)) |>).

(** ** SchedulerMailbox *)

Definition kHeartbeatTimeout : Z := 3.

(** [Start] up to the start of [Receiving], and after the wait for [ready_]. *)
Definition sm_Start : MM unit :=
  modify (fun s => s <| my_node_ := scheduler_node_ s |>) ;;;
  s <-- get ;;
  Connect (scheduler_node_ s).
Definition sm_Started (now : Z) : MM unit := modify (fun s => s <| start_time_ := now |>).

Definition GetNodeIDs : MM (list Z) := s <-- get ;; ret (addr_iter (connected_nodes_ s)).*2.

Definition UpdateHeartbeat (now node_id : Z) : MM unit :=
  modify (fun s => s <| heartbeats_ ::= <[node_id := now]> |>).

Definition is_dead (s : Mailbox) (timeout now r : Z) : Prop :=
  match heartbeats_ s !! r with None => True | Some t => t + timeout < now end /\
  start_time_ s + timeout < now.
#[export] Instance is_dead_dec s timeout now r : Decision (is_dead s timeout now r).
Proof. unfold is_dead. destruct (heartbeats_ s !! r); apply _. Defined.

Definition GetDeadNodes (now timeout : Z) : MM (gset Z) :=
  s <-- get ;;
  if negb (mb_ready_ s) || (timeout =? 0) then ret ∅
  else nodes <-- GetNodeIDs ;; ret (list_to_set (filter (is_dead s timeout now) nodes)).

Definition sm_UpdateID (msg : Message) (deadnodes : gset Z) : MM unit :=
  check (sender (meta msg) =? kEmpty) "msg->meta.sender == Node::kEmpty" ;;;
  ctrl <-- from_data msg 0 ;;
  s <-- get ;;
  if Z.of_nat (length (nodes_ s)) <? num_workers_ s then
    modify (fun s => s <| nodes_ ::= fun l => l ++ [ct_node ctrl] |>)
  else
    check (mb_ready_ s) "ready_.load()" ;;;
    match list_find (fun n => node_host_id n ∈ deadnodes)
            (take (length (nodes_ s) - 1) (nodes_ s)) with
    | None => ret tt
    | Some (i, node) =>
        let temp_node := (ct_node ctrl) <| node_host_id := node_host_id node |>
                                      <| is_recovery := true |> in
        modify (fun s => s <| nodes_ ::= <[i := temp_node]> |> <| recovery_node_ := temp_node |>)
    end.

(** The loop body of the numbering; [i] counts from 0, [id] is one more. *)
Definition number_node (now : Z) (i : nat) : MM unit :=
  s <-- get ;;
  let id := Z.of_nat i + 1 in
  node <-- deref (nodes_ s !! i) "nodes_[i]" ;;
  match connected_nodes_ s !! addr_str node with
  | None =>
      check (node_host_id node =? kEmpty) "node.id == Node::kEmpty" ;;;
      let node' := node <| node_host_id := id |> in
      modify (fun s => s <| nodes_ ::= <[i := node']> |>) ;;;
      Connect node' ;;;
      UpdateHeartbeat now id ;;;
      modify (fun s => s <| connected_nodes_ ::= <[addr_str node := id]> |>)
  | Some first =>
      modify (fun s => s <| shared_node_mapping_ ::= <[id := first]> |>
                         <| nodes_ ::= <[i := node <| node_host_id := first |>]> |>)
  end.

Definition nodes_msg (to : Z) (nodes : list Node) : Message :=
  {| meta := {| sender := node_host_id garbage; recver := to; flag := kMailboxControl |};
     data := [part (control mf_Register garbage); part nodes] |}.

Definition send_nodes (nodes : list Node) (r : Z) : MM unit :=
  s <-- get ;;
  when (bool_decide (shared_node_mapping_ s !! r = None)) (mb_Send (nodes_msg r nodes) ;;; ret tt).

Definition send_recovery (recovery_node : Node) (deadnodes : gset Z) (r : Z) : MM unit :=
  if bool_decide (r <> node_host_id recovery_node /\ r ∈ deadnodes) then ret tt
  else s <-- get ;;
       mb_Send (nodes_msg r (if decide (r = node_host_id recovery_node) then nodes_ s
                             else [recovery_node])) ;;;
       ret tt.

Definition answer_register (now : Z) : MM unit :=
  s <-- get ;;
  if Z.of_nat (length (nodes_ s)) =? num_workers_ s then
    for_each (seq 0 (length (nodes_ s))) (number_node now) ;;;
    s <-- get ;;
    ids <-- GetNodeIDs ;;
    for_each ids (send_nodes (nodes_ s)) ;;;
    modify (fun s => s <| mb_ready_ := true |>)
  else if is_recovery (recovery_node_ s) then
    deadnodes <-- GetDeadNodes now kHeartbeatTimeout ;;
    Connect (recovery_node_ s) ;;;
    UpdateHeartbeat now (node_host_id (recovery_node_ s)) ;;;
    ids <-- GetNodeIDs ;;
    for_each ids (send_recovery (recovery_node_ s) deadnodes)
  else ret tt.

Definition sm_HandleRegisterMsg (now : Z) (msg : Message) : MM unit :=
  deadnodes <-- GetDeadNodes now kHeartbeatTimeout ;;
  sm_UpdateID msg deadnodes ;;;
  answer_register now.

Definition sm_HandleBarrierMsg : MM unit :=
  modify (fun s => s <| barrier_count_ ::= Z.succ |>) ;;;
  s <-- get ;;
  when (barrier_count_ s =? Z.of_nat (length (nodes_ s)))
    (modify (fun s => s <| barrier_count_ := 0 |>) ;;;
     for_each (nodes_ s) (fun node =>
       mb_Send (control_msg (node_host_id (my_node_ s)) (node_host_id node)
                  (control mf_Barrier garbage)) ;;;
       ret tt)).

(** The loop of [CheckHeartbeat] is left by its first statement. *)
Definition CheckHeartbeat : MM unit := ret tt.

(** One iteration of [Receiving]. *)
Definition sm_Receive (now : Z) (msg : Message) : MM unit :=
  if decide (flag (meta msg) = kMailboxControl) then
    ctrl <-- from_data msg 0 ;;
    if is_flag (ct_flag ctrl) mf_Exit then
      modify (fun s => s <| mb_ready_ := false |> <| stopped_ := true |>)
    else if is_flag (ct_flag ctrl) mf_Barrier then sm_HandleBarrierMsg
    else if is_flag (ct_flag ctrl) mf_Register then sm_HandleRegisterMsg now msg
    else when (is_flag (ct_flag ctrl) mf_Heartbeat) (UpdateHeartbeat now (sender (meta msg)))
  else push_queue msg.

(** ** WorkerMailbox *)

(** [Start] up to the wait for [ready_], with the address found, and after it. *)
Definition wm_Start (ip : string) (port : Z) : MM unit :=
  modify (fun s => s <| my_node_ ::= fun n =>
    n <| hostname := ip |> <| node_port := port |> <| node_host_id := kEmpty |> |>) ;;;
  s <-- get ;;
  Connect (scheduler_node_ s) ;;;
  mb_Send (control_msg (node_host_id (my_node_ s)) (node_host_id (scheduler_node_ s))
             (control mf_Register (my_node_ s))) ;;;
  ret tt.
Definition wm_Started (now : Z) : MM unit := modify (fun s => s <| start_time_ := now |>).

(** One report of [Heartbeat]. *)
Definition Heartbeat : MM unit :=
  s <-- get ;;
  when (mb_ready_ s)
    (mb_Send (control_msg (node_host_id (my_node_ s)) (node_host_id (scheduler_node_ s))
                (control mf_Heartbeat garbage)) ;;;
     ret tt).

Definition wm_HandleBarrierMsg : MM unit := modify (fun s => s <| barrier_finish_ := true |>).

(** The last node of the list with my address. *)
Definition find_me (me : Node) (nodes : list Node) : Node :=
  foldl (fun me n => if bool_decide (hostname me = hostname n /\ node_port me = node_port n)
                     then n else me) me nodes.
Definition wm_UpdateID (msg : Message) : MM unit :=
  nodes <-- from_data msg 1 ;;
  modify (fun s => s <| nodes_ := nodes |> <| my_node_ ::= fun me => find_me me nodes |>).

Definition connect_new (node : Node) : MM unit :=
  s <-- get ;;
  when (bool_decide (connected_nodes_ s !! addr_str node = None))
    (Connect node ;;;
     modify (fun s => s <| connected_nodes_ ::= <[addr_str node := node_host_id node]> |>)).
Definition wm_HandleRegisterMsg (msg : Message) : MM unit :=
  wm_UpdateID msg ;;;
  s <-- get ;;
  for_each (nodes_ s) connect_new ;;;
  modify (fun s => s <| mb_ready_ := true |>).

Definition wm_Receive (msg : Message) : MM unit :=
  if decide (flag (meta msg) = kMailboxControl) then
    ctrl <-- from_data msg 0 ;;
    if is_flag (ct_flag ctrl) mf_Exit then
      modify (fun s => s <| mb_ready_ := false |> <| stopped_ := true |>)
    else if is_flag (ct_flag ctrl) mf_Barrier then wm_HandleBarrierMsg
    else when (is_flag (ct_flag ctrl) mf_Register) (wm_HandleRegisterMsg msg)
  else push_queue msg.
End Mailbox.

(** ** Sending and receiving *)

Section basics.
Context (E : err -> Prop).

Lemma wp_from_data {A} `{Serial A} msg i (x : A) s Q :
  data msg !! i = Some (part x) -> storable x -> Q x s [] -> wp E (from_data msg i) s Q.
Proof.
  intros Hd Hx HQ. unfold from_data. rewrite Hd. wstep. wstep; [|done]. apply zoom_wp.
  unfold wp. simplify_eq. unfold part. by rewrite round_trip.
Qed.

Lemma wp_Send msg a s Q :
  flag (meta msg) <> kOthers -> senders_ s !! recver (meta msg) = Some a ->
  (forall z, Q z s [Wire a msg]) -> wp E (mb_Send msg) s Q.
Proof.
  intros Hf Ha HQ. unfold mb_Send. rewrite decide_False by done. wstep. wstep. rewrite Ha.
  wstep. wstep. wstep. apply HQ.
Qed.

Lemma wp_Connect node s Q :
  node_host_id node <> kEmpty -> node_port node <> kEmpty ->
  Q tt (s <| senders_ ::= <[node_host_id node := tcp node]> |>) [] -> wp E (Connect node) s Q.
Proof.
  intros Hi Hp HQ. unfold Connect. wstep. wstep; [|by intros; lia].
  wstep. wstep; [|by intros; lia]. by wstep.
Qed.
End basics.

(** A message for a queue of node [dest] goes to the address of [dest]. *)
Definition reaches (s : Mailbox) (dest : Node) : Prop :=
  forall msg, flag (meta msg) = kOthers -> GetNodeId (recver (meta msg)) = node_host_id dest ->
    exists z, mb_Send msg s = Ok (z, s, [Wire (tcp dest) msg]).

Lemma reaches_intro s dest : senders_ s !! node_host_id dest = Some (tcp dest) -> reaches s dest.
Proof.
  intros Hs msg Hf Hq. unfold mb_Send, bind, get, emit, ret. rewrite decide_True by done.
  rewrite Hq, Hs. eauto.
Qed.

(** ** Registration *)

Definition assign (ws : list Node) : list Node :=
  imap (fun i w => w <| node_host_id := Z.of_nat i + 1 |>) ws.

Lemma assign_snoc ws w :
  assign (ws ++ [w]) = assign ws ++ [w <| node_host_id := Z.of_nat (length ws) + 1 |>].
Proof. unfold assign. rewrite imap_app. cbn. by rewrite Nat.add_0_r. Qed.

Lemma assign_lookup ws i n :
  assign ws !! i = Some n -> exists w, ws !! i = Some w /\ n = w <| node_host_id := Z.of_nat i + 1 |>.
Proof. unfold assign. rewrite list_lookup_imap. intros (w & Hw & ->)%fmap_Some. eauto. Qed.

Lemma length_assign ws : length (assign ws) = length ws.
Proof. apply length_imap. Qed.

Definition address_id (n : Node) : string * Z := (addr_str n, node_host_id n).

Lemma assign_addrs ws : (address_id <$> assign ws).*1 = addr_str <$> ws.
Proof.
  apply list_eq. intros i. rewrite !list_lookup_fmap. unfold assign. rewrite list_lookup_imap.
  by destruct (ws !! i).
Qed.

Section registration.
Context `{AddrOrder} (garbage : Node).

Definition register_msg (sched w : Node) : Message :=
  control_msg kEmpty (node_host_id sched) (control mf_Register w).

(** What a worker reports when it starts. *)
Definition fresh_worker (w : Node) : Prop :=
  node_host_id w = kEmpty /\ node_port w <> kEmpty /\ storable w.

Lemma storable_control f w : storable w -> storable (control f w).
Proof. intros Hw. by split_and!. Qed.

(** Before the cluster is ready, a worker that registers is appended to the nodes. *)
Lemma register_step E now sched w s Q :
  fresh_worker w -> mb_ready_ s = false -> Z.of_nat (length (nodes_ s)) < num_workers_ s ->
  wp E (answer_register garbage now) (s <| nodes_ ::= fun l => l ++ [w] |>) Q ->
  wp E (sm_Receive garbage now (register_msg sched w)) s Q.
Proof.
  intros (_ & _ & Hw) Hr Hn HQ. unfold sm_Receive. rewrite decide_True by done. wstep.
  eapply (wp_from_data _ _ _ (control mf_Register w)); [done|by apply storable_control|]. cbn.
  unfold sm_HandleRegisterMsg, GetDeadNodes, sm_UpdateID. do 3 wstep. rewrite Hr. cbn.
  do 3 wstep. wstep; [|done]. wstep.
  eapply (wp_from_data _ _ _ (control mf_Register w)); [done|by apply storable_control|].
  wstep. wstep. apply Z.ltb_lt in Hn. rewrite Hn. by wstep.
Qed.

Lemma register_waits now sched w s :
  fresh_worker w -> mb_ready_ s = false -> is_recovery (recovery_node_ s) = false ->
  Z.of_nat (length (nodes_ s)) + 1 < num_workers_ s ->
  sm_Receive garbage now (register_msg sched w) s = Ok (tt, s <| nodes_ ::= fun l => l ++ [w] |>, []).
Proof.
  intros Hw Hr Hrec Hn. apply wp_exact. apply register_step; [done..|lia|].
  unfold answer_register. wstep. wstep. cbn. rewrite length_app, Hrec. cbn [length].
  rewrite (proj2 (Z.eqb_neq _ _)) by lia. by wstep.
Qed.

Lemma registers_wait sched ws : forall arrivals s,
  arrivals.*2 = register_msg sched <$> ws -> Forall fresh_worker ws -> mb_ready_ s = false ->
  is_recovery (recovery_node_ s) = false ->
  Z.of_nat (length (nodes_ s) + length ws) < num_workers_ s ->
  for_each arrivals (fun a => sm_Receive garbage a.1 a.2) s =
    Ok (tt, s <| nodes_ ::= fun l => l ++ ws |>, []).
Proof.
  induction ws as [|w ws IH]; intros [|[t m] arrivals] s Ha Hws Hr Hrec Hn; try done.
  { cbn. unfold ret. destruct s. cbn. by rewrite app_nil_r. }
  injection Ha as -> Ha. apply Forall_cons in Hws as [Hw Hws]. cbn [for_each].
  cbn in Hn. rewrite (bind_silent _ _ _ _ _ (register_waits t sched w s Hw Hr Hrec ltac:(lia))).
  rewrite IH; cbn; rewrite ?length_app; cbn; try done; [|lia].
  by rewrite <- app_assoc.
Qed.

(** The numbering has reached the [k]-th node. *)
Record numbering (ws : list Node) (s0 : Mailbox) (k : nat) (s : Mailbox) : Prop := {
  num_nodes : nodes_ s = assign (take k ws) ++ drop k ws;
  num_connected : connected_nodes_ s = list_to_map (address_id <$> assign (take k ws));
  num_shared : shared_node_mapping_ s = ∅;
  num_sockets : forall n, n ∈ assign (take k ws) -> senders_ s !! node_host_id n = Some (tcp n);
  num_other : forall i, i <= 0 -> senders_ s !! i = senders_ s0 !! i;
  num_me : my_node_ s = my_node_ s0 }.

Lemma number_node_ok ws s0 k s w now :
  numbering ws s0 k s -> ws !! k = Some w -> fresh_worker w -> NoDup (addr_str <$> ws) ->
  Z.of_nat (length ws) < kEmpty ->
  wp none (number_node now k) s (fun _ s' os => numbering ws s0 (S k) s' /\ os = []).
Proof.
  intros [Hn Hc Hsh Hsk Ho Hm] Hw (Hid & Hp & _) Hnd Hlen.
  pose proof (lookup_lt_Some _ _ _ Hw) as Hk.
  assert (length (assign (take k ws)) = k) as Hlk by (rewrite length_assign, length_take; lia).
  assert (take (S k) ws = take k ws ++ [w]) as Htk by (by apply take_S_r).
  assert (assign (take (S k) ws) = assign (take k ws) ++ [w <| node_host_id := Z.of_nat k + 1 |>])
    as Has by (rewrite Htk, assign_snoc, length_take, Nat.min_l by lia; done).
  assert (addr_str w ∉ (address_id <$> assign (take k ws)).*1) as Hfresh.
  { rewrite assign_addrs. intros (v & Hv & Hin)%list_elem_of_fmap.
    apply elem_of_take in Hin as (i & Hi & Hik).
    assert (i = k); [|lia]. eapply NoDup_lookup; [exact Hnd| |].
    - rewrite list_lookup_fmap, Hi. cbn. by rewrite <- Hv.
    - by rewrite list_lookup_fmap, Hw. }
  unfold number_node. wstep. wstep. wstep.
  assert (nodes_ s !! k = Some w) as Hnk.
  { rewrite Hn, lookup_app_r, Hlk, Nat.sub_diag, lookup_drop, Nat.add_0_r by lia. done. }
  rewrite Hnk. wstep; [|done]. injection Hx as <-.
  rewrite Hc, (not_elem_of_list_to_map_1 _ _ Hfresh).
  wstep. wstep; [|by intros; lia]. wstep. wstep. wstep. apply wp_Connect; [cbn; lia|done|].
  unfold UpdateHeartbeat. wstep. wstep. wstep. split; [|done]. split; cbn.
  - rewrite Hn, Has, insert_app_r_alt, Hlk, Nat.sub_diag by lia.
    rewrite (drop_S _ w) by done. cbn. by rewrite <- app_assoc.
  - rewrite Hc, Has, fmap_app. symmetry. by apply list_to_map_snoc.
  - done.
  - intros n. rewrite Has, elem_of_app, list_elem_of_singleton. intros [Hin| ->].
    + rewrite lookup_insert_ne; [by apply Hsk|].
      apply list_elem_of_lookup in Hin as (i & Hi). pose proof (lookup_lt_Some _ _ _ Hi).
      apply assign_lookup in Hi as (v & _ & ->). cbn. lia.
    + cbn. by rewrite lookup_insert_eq.
  - intros i Hi. rewrite lookup_insert_ne by lia. by apply Ho.
  - done.
Qed.

Lemma number_all ws s0 s now :
  numbering ws s0 0 s -> Forall fresh_worker ws -> NoDup (addr_str <$> ws) ->
  Z.of_nat (length ws) < kEmpty ->
  wp none (for_each (seq 0 (length ws)) (number_node now)) s
    (fun _ s' os => numbering ws s0 (length ws) s' /\ os = []).
Proof.
  intros H0 Hws Hnd Hlen.
  apply (wp_for_each _ (fun l s' os => exists k, l = seq k (length ws - k) /\
    (k <= length ws)%nat /\ numbering ws s0 k s' /\ os = [])).
  - exists 0%nat. rewrite Nat.sub_0_r. split_and!; [done|lia|done..].
  - intros x l s1 os (k & Hl & Hk & Hs & ->).
    destruct (length ws - k)%nat as [|d] eqn:Hd; [done|]. injection Hl as -> ->.
    destruct (lookup_lt_is_Some_2 ws k ltac:(lia)) as [w Hw].
    eapply wp_mono; [by eapply number_node_ok; eauto; eapply (proj1 (Forall_lookup _ _) Hws)|].
    intros [] s2 os [Hs2 ->]. exists (S k). split_and!; [f_equal; lia|lia|done..].
  - intros s' os (k & Hl & Hk & Hs & ->). split; [|done].
    destruct (length ws - k)%nat eqn:Hd; [|done]. by replace (length ws) with k by lia.
Qed.

Lemma send_nodes_all nodes s (ids : list Z) (to : Z -> string) :
  shared_node_mapping_ s = ∅ -> (forall r, r ∈ ids -> senders_ s !! r = Some (to r)) ->
  for_each ids (send_nodes garbage nodes) s =
    Ok (tt, s, (fun r => Wire (to r) (nodes_msg garbage r nodes)) <$> ids).
Proof.
  intros Hsh Hto. induction ids as [|r ids IH]; [done|]. cbn [for_each].
  assert (send_nodes garbage nodes r s = Ok (tt, s, [Wire (to r) (nodes_msg garbage r nodes)])) as E.
  { apply wp_exact. unfold send_nodes. wstep. wstep. rewrite Hsh, lookup_empty. wstep; [|done].
    wstep. eapply wp_Send; [done|apply Hto; set_solver|]. intros z. by wstep. }
  unfold bind. rewrite E, IH; [done|]. set_solver.
Qed.

(** The last worker registers: everybody is numbered and told. *)
Lemma register_last ws now sched w s :
  nodes_ s ++ [w] = ws -> Forall fresh_worker ws -> NoDup (addr_str <$> ws) ->
  Z.of_nat (length ws) < kEmpty -> num_workers_ s = Z.of_nat (length ws) -> mb_ready_ s = false ->
  connected_nodes_ s = ∅ -> shared_node_mapping_ s = ∅ ->
  wp none (sm_Receive garbage now (register_msg sched w)) s (fun _ s' sent =>
    mb_ready_ s' = true /\ nodes_ s' = assign ws /\
    sent ≡ₚ (fun n => Wire (tcp n) (nodes_msg garbage (node_host_id n) (assign ws))) <$> assign ws /\
    (forall n, n ∈ assign ws -> senders_ s' !! node_host_id n = Some (tcp n)) /\
    (forall i, i <= 0 -> senders_ s' !! i = senders_ s !! i)).
Proof.
  intros Hws Hall Hnd Hlen Hnum Hr Hc Hsh.
  assert (length ws = S (length (nodes_ s))) as Hl by (rewrite <- Hws, length_app; cbn; lia).
  apply register_step; [|done|lia|].
  { rewrite <- Hws in Hall. apply Forall_app in Hall as [_ Hall]. by inversion Hall. }
  unfold answer_register. wstep. wstep. cbn [nodes_ num_workers_ upd]. cbn. rewrite Hws.
  rewrite Hnum, Z.eqb_refl. wstep.
  eapply wp_mono; [apply (number_all ws s); [|done..]|].
  { split; cbn; try done. intros n. rewrite take_0. by intros ?%elem_of_nil. }
  intros [] s1 os ([Hn1 Hc1 Hsh1 Hsk1 Ho1 Hm1] & ->). rewrite firstn_all in *.
  rewrite drop_ge, app_nil_r in Hn1 by lia.
  unfold GetNodeIDs. do 6 wstep. wstep.
  set (to := fun r => default "" (senders_ s1 !! r)).
  assert (forall n, n ∈ assign ws -> to (node_host_id n) = tcp n) as Hto
    by (intros n Hin; unfold to; by rewrite Hsk1).
  assert ((addr_iter (connected_nodes_ s1)).*2 ≡ₚ node_host_id <$> assign ws) as Hids.
  { rewrite addr_iter_perm, Hc1, map_to_list_to_map by (by rewrite assign_addrs).
    by rewrite <- list_fmap_compose. }
  unfold wp at 1. rewrite (send_nodes_all _ _ _ to); [|done|].
  - cbn. split_and!; [done|done| |done|done]. rewrite Hids, <- list_fmap_compose.
    rewrite app_nil_r. apply reflexive_eq, list_fmap_ext. intros i n Hn. cbn. rewrite Hn1.
    by rewrite Hto by (by eapply list_elem_of_lookup_2).
  - intros r. rewrite Hids. intros (n & -> & Hin)%list_elem_of_fmap. by rewrite Hto, Hsk1.
Qed.

(** ** What a worker learns *)

Lemma find_me_spec me n nodes :
  (forall m, m ∈ nodes -> hostname me = hostname m /\ node_port me = node_port m -> m = n) ->
  n ∈ nodes /\ hostname me = hostname n /\ node_port me = node_port n \/ me = n ->
  find_me me nodes = n.
Proof.
  revert me. induction nodes as [|m nodes IH]; intros me Hall Hme.
  { destruct Hme as [[?%elem_of_nil _]| ->]; done. }
  cbn. case_bool_decide as Hb.
  - apply IH; [|right; by apply Hall; [left|]].
    intros m' Hm' Hp. apply Hall; [by right|]. intuition congruence.
  - apply IH; [intros m' Hm'; apply Hall; by right|].
    destruct Hme as [(Hin & Hh)| ->]; [|by right].
    apply elem_of_cons in Hin as [->|Hin]; [done|by left].
Qed.

Lemma assign_addr_unique ws n m :
  NoDup (addr_str <$> ws) -> n ∈ assign ws -> m ∈ assign ws -> addr_str n = addr_str m -> m = n.
Proof.
  intros Hnd (i & Hi)%list_elem_of_lookup (j & Hj)%list_elem_of_lookup Ha.
  destruct (assign_lookup _ _ _ Hi) as (v & Hv & ->), (assign_lookup _ _ _ Hj) as (u & Hu & ->).
  assert (i = j) as ->; [|congruence]. eapply NoDup_lookup; [exact Hnd| |].
  - by rewrite list_lookup_fmap, Hv.
  - rewrite list_lookup_fmap, Hu. cbn. f_equal. symmetry. exact Ha.
Qed.

Lemma connect_all nodes s :
  NoDup (addr_str <$> nodes) -> NoDup (node_host_id <$> nodes) ->
  Forall (fun n => node_host_id n <> kEmpty /\ node_port n <> kEmpty) nodes ->
  connected_nodes_ s = ∅ ->
  wp none (for_each nodes connect_new) s (fun _ s' os => os = [] /\ my_node_ s' = my_node_ s /\
    (forall n, n ∈ nodes -> senders_ s' !! node_host_id n = Some (tcp n)) /\
    (forall i, i ∉ node_host_id <$> nodes -> senders_ s' !! i = senders_ s !! i)).
Proof.
  intros Hnd Hids Hok Hc.
  apply (wp_for_each _ (fun l s' os => exists before, before ++ l = nodes /\ os = [] /\
    my_node_ s' = my_node_ s /\
    (forall n, n ∈ before -> senders_ s' !! node_host_id n = Some (tcp n)) /\
    (forall i, i ∉ node_host_id <$> before -> senders_ s' !! i = senders_ s !! i) /\
    (forall a, a ∉ addr_str <$> before -> connected_nodes_ s' !! a = None))).
  - exists []. split_and!; try done; [by intros n ?%elem_of_nil|]. intros a _. rewrite Hc. apply lookup_empty.
  - intros n l s1 os (before & Hb & -> & Hm & Hin & Hout & Hconn).
    rewrite <- Hb, fmap_app in Hnd. rewrite <- Hb, fmap_app in Hids. apply NoDup_app in Hnd as (_ & Hnd & _).
    apply NoDup_app in Hids as (_ & Hids & _).
    assert (addr_str n ∉ addr_str <$> before) as Hn.
    { intros Hx. apply (Hnd _ Hx). left. }
    assert (n ∈ nodes) as Hnn by set_solver.
    rewrite Forall_forall in Hok. destruct (Hok n Hnn) as [Hi Hp].
    unfold connect_new. wstep. wstep. wstep; [|by rewrite Hconn in Hif].
    wstep. apply wp_Connect; [done..|]. wstep. cbn. exists (before ++ [n]).
    split_and!; [by rewrite <- app_assoc|done|done| | |].
    + intros m [Hmb| ->%list_elem_of_singleton]%elem_of_app; [|by rewrite lookup_insert_eq].
      rewrite lookup_insert_ne; [by apply Hin|]. intros He.
      apply (Hids (node_host_id n)); [rewrite He; by apply list_elem_of_fmap_2|left].
    + intros i. rewrite fmap_app, not_elem_of_app. intros [Hi1 Hi2].
      rewrite lookup_insert_ne; [by apply Hout|]. set_solver.
    + intros a. rewrite fmap_app, not_elem_of_app. intros [Ha1 Ha2].
      rewrite lookup_insert_ne; [by apply Hconn|]. set_solver.
  - intros s' os (before & Hb & -> & Hm & Hin & Hout & _). rewrite app_nil_r in Hb. by subst.
Qed.

Lemma NoDup_assign_ids ws : NoDup (node_host_id <$> assign ws).
Proof.
  apply NoDup_alt. intros i j x. rewrite !list_lookup_fmap.
  intros (n & (v & _ & ->)%assign_lookup & ->)%fmap_Some (m & (u & _ & ->)%assign_lookup & He)%fmap_Some.
  cbn in He. lia.
Qed.

Lemma assign_ok ws n :
  Forall fresh_worker ws -> Z.of_nat (length ws) < kEmpty -> n ∈ assign ws ->
  0 < node_host_id n < kEmpty /\ node_port n <> kEmpty /\ storable n.
Proof.
  intros Hws Hlen (i & Hi)%list_elem_of_lookup. pose proof (lookup_lt_Some _ _ _ Hi) as Hlt.
  rewrite length_assign in Hlt. apply assign_lookup in Hi as (w & Hw & ->).
  destruct (proj1 (Forall_lookup _ _) Hws _ _ Hw) as (Hid & Hp & Hs). cbn.
  unfold kEmpty in *. split_and!; [lia|lia|done|]. destruct Hs as (_ & Hs).
  split; [|exact Hs]. unfold storable. cbn. unfold in_int. lia.
Qed.

Lemma worker_learns sched ws w n :
  node_host_id sched = 0 -> node_port sched <> kEmpty -> storable garbage ->
  Forall fresh_worker ws -> NoDup (addr_str <$> ws) -> Z.of_nat (length ws) < kEmpty ->
  w ∈ ws -> n ∈ assign ws -> hostname n = hostname w -> node_port n = node_port w ->
  wp none (wm_Start (hostname w) (node_port w) ;;;
           wm_Receive (nodes_msg garbage (node_host_id n) (assign ws))) (new_mailbox w sched 0)
    (fun _ s os => os = [Wire (tcp sched) (register_msg sched w)] /\ my_node_ s = n /\
       mb_ready_ s = true /\ forall dest, dest ∈ sched :: assign ws -> reaches s dest).
Proof.
  intros Hs0 Hsp Hg Hws Hnd Hlen Hw Hn Hh Hp.
  destruct (proj1 (Forall_forall _ _) Hws w Hw) as (Hid & Hwp & _).
  assert ({| node_host_id := kEmpty; hostname := hostname w; node_port := node_port w;
             is_recovery := is_recovery w |} = w) as Hme by (destruct w; cbn in *; by rewrite Hid).
  wstep. unfold wm_Start. do 4 wstep. cbn. rewrite Hme. wstep.
  apply wp_Connect; [rewrite Hs0; done|done|]. wstep.
  eapply (wp_Send _ _ (tcp sched)); [done|cbn; by rewrite lookup_insert_eq|]. intros z. wstep.
  unfold wm_Receive. rewrite decide_True by done. wstep.
  eapply (wp_from_data _ _ _ (control mf_Register garbage)); [done|by apply storable_control|]. cbn.
  wstep; [|done]. unfold wm_HandleRegisterMsg, wm_UpdateID. do 2 wstep.
  eapply (wp_from_data _ _ _ (assign ws)); [done| |].
  { split; [unfold length_fits; rewrite length_assign; unfold kEmpty in Hlen; lia|].
    apply Forall_forall. intros m Hm. by apply (assign_ok ws m). }
  do 3 wstep. cbn. wstep. eapply wp_mono; [apply connect_all|].
  - rewrite <- assign_addrs, <- list_fmap_compose in Hnd. exact Hnd.
  - apply NoDup_assign_ids.
  - apply Forall_forall. intros m Hm. destruct (assign_ok ws m Hws Hlen Hm) as (? & ? & _).
    split; [lia|done].
  - done.
  - intros [] s os (-> & Hmy & Hin & Hout). wstep. cbn. split_and!.
    + done.
    + rewrite Hmy. cbn. apply find_me_spec; [|left; by split_and!].
      intros m Hm [Hmh Hmp]. eapply (assign_addr_unique ws); eauto.
      unfold addr_str. congruence.
    + done.
    + intros dest Hdest. apply reaches_intro. cbn.
      apply elem_of_cons in Hdest as [->|Hd]; [|by apply Hin].
      rewrite Hout; [cbn; by rewrite lookup_insert_eq|].
      intros (m & Hm0 & Hm)%list_elem_of_fmap. destruct (assign_ok ws m Hws Hlen Hm). lia.
Qed.

Definition listening (sched : Node) (n : Z) : Mailbox :=
  (new_mailbox garbage sched n) <| my_node_ := sched |> <| senders_ := {[0 := tcp sched]} |>.

Lemma sm_Start_spec sched n s :
  node_host_id sched = 0 -> node_port sched <> kEmpty ->
  sm_Start (new_mailbox garbage sched n) = Ok (tt, s, []) -> s = listening sched n.
Proof.
  intros Hs0 Hsp Hst. eapply (wp_Ok none _ _ _ _ _ (fun _ s _ => s = _) Hst).
  unfold sm_Start. do 4 wstep. apply wp_Connect; [cbn; rewrite Hs0; done|done|].
  cbn. rewrite Hs0. done.
Qed.

(** C29: The registration of the workers connects everybody.  The workers, at different
    addresses, start and report to the mailbox of the scheduler, in any order; the cluster
    is ready when the last report has been handled.  The nodes are then numbered from 1 in
    the order of their reports, and each is sent the list; a worker that gets the list
    knows its number.  From then on a message that the scheduler or any worker sends to a
    queue of any node goes to the address of that node.  ([garbage] is what uninitialized
    variables hold; for its [is_recovery] see [uninitialized_recovery_node] below.) *)
Theorem registration_connects_all sched ws s0 arrivals :
  node_host_id sched = 0 -> node_port sched <> kEmpty -> storable garbage ->
  is_recovery garbage = false ->
  Forall fresh_worker ws -> ws <> [] -> NoDup (addr_str <$> ws) -> Z.of_nat (length ws) < kEmpty ->
  sm_Start (new_mailbox garbage sched (Z.of_nat (length ws))) = Ok (tt, s0, []) ->
  arrivals.*2 = register_msg sched <$> ws ->
  exists s sent, for_each arrivals (fun a => sm_Receive garbage a.1 a.2) s0 = Ok (tt, s, sent) /\
    mb_ready_ s = true /\ nodes_ s = assign ws /\
    sent ≡ₚ (fun n => Wire (tcp n) (nodes_msg garbage (node_host_id n) (assign ws))) <$> assign ws /\
    (forall dest, dest ∈ sched :: assign ws -> reaches s dest) /\
    forall i w n, ws !! i = Some w -> assign ws !! i = Some n ->
      exists sw, (wm_Start (hostname w) (node_port w) ;;;
          wm_Receive (nodes_msg garbage (node_host_id n) (assign ws))) (new_mailbox w sched 0) =
        Ok (tt, sw, [Wire (tcp sched) (register_msg sched w)]) /\
        my_node_ sw = n /\ mb_ready_ sw = true /\
        forall dest, dest ∈ sched :: assign ws -> reaches sw dest.
Proof.
  intros Hs0 Hsp Hg Hrec Hws Hne Hnd Hlen Hst Harr.
  destruct (exists_last Hne) as (ws' & w & Hlast). rewrite Hlast, fmap_app in Harr. cbn in Harr.
  destruct (fmap_app_inv _ _ _ _ Harr) as (a1 & a2 & H1 & H2 & ->).
  destruct a2 as [|[now m] [|]]; cbn in H2; try done. injection H2 as <-.
  apply sm_Start_spec in Hst as ->; [|done..].
  assert (length ws = S (length ws')) as Hl by (rewrite Hlast, length_app; cbn; lia).
  assert (Forall fresh_worker ws') as Hws' by (rewrite Hlast, Forall_app in Hws; apply Hws).
  pose proof (registers_wait sched ws' a1 (listening sched (Z.of_nat (length ws))) ltac:(done)
    Hws' ltac:(done) Hrec ltac:(cbn; lia)) as Hpre. cbn [nodes_] in Hpre.
  assert (wp none (for_each (a1 ++ [(now, register_msg sched w)])
    (fun a => sm_Receive garbage a.1 a.2)) (listening sched (Z.of_nat (length ws))) (fun _ s sent =>
      mb_ready_ s = true /\ nodes_ s = assign ws /\
      sent ≡ₚ (fun n => Wire (tcp n) (nodes_msg garbage (node_host_id n) (assign ws))) <$> assign ws /\
      forall dest, dest ∈ sched :: assign ws -> reaches s dest)) as Hrun.
  { apply for_each_app. unfold wp at 1. rewrite Hpre. cbn [for_each fst snd]. wstep.
    eapply wp_mono; [by apply (register_last ws)|].
    intros [] s sent (Hr & Hn & Hsent & Hin & Hout). wstep. cbn. rewrite app_nil_r.
    split_and!; [done..|]. intros dest [->|Hd]%elem_of_cons; apply reaches_intro; [|by apply Hin].
    rewrite Hs0, Hout by lia. done. }
  apply wp_none_Ok in Hrun as ([] & s & sent & E & Hr & Hn & Hsent & Hreach).
  exists s, sent. split_and!; [done..|]. intros i v n Hv Hni.
  pose proof (assign_lookup _ _ _ Hni) as (v' & Hv' & ->).
  rewrite Hv in Hv'. injection Hv' as <-.
  destruct (wp_none_Ok _ _ _ (worker_learns sched ws v _ Hs0 Hsp Hg Hws Hnd Hlen
    (list_elem_of_lookup_2 _ _ _ Hv) (list_elem_of_lookup_2 _ _ _ Hni) eq_refl eq_refl))
    as ([] & sw & os & Esw & -> & Hrest). eauto.
Qed.
End registration.

(** ** Barriers *)

Section barrier.
Context `{AddrOrder} (garbage : Node).

(** A barrier message, from whoever sent it. *)
Definition barrier_from (g : Node) (from to : Z) : Message :=
  control_msg from to (control mf_Barrier g).
Definition is_barrier (msg : Message) : Prop :=
  exists g from to, storable g /\ msg = barrier_from g from to.

Definition release (s : Mailbox) : list wire :=
  (fun n => Wire (tcp n) (barrier_from garbage (node_host_id (my_node_ s)) (node_host_id n)))
  <$> nodes_ s.

Lemma succ_div_mod k n : (0 < n)%nat ->
  (S (k mod n) = n /\ S k mod n = 0 /\ S k / n = S (k / n) \/
   S (k mod n) <> n /\ S k mod n = S (k mod n) /\ S k / n = k / n)%nat.
Proof.
  intros Hn. pose proof (Nat.div_mod_eq k n). pose proof (Nat.mod_upper_bound k n ltac:(lia)).
  destruct (decide (S (k mod n) = n)%nat) as [He|He]; [left|right]; (split; [done|]).
  - split; [symmetry; apply (Nat.mod_unique _ _ (S (k / n)))|
            symmetry; apply (Nat.div_unique _ _ _ 0)]; nia.
  - split; [symmetry; apply (Nat.mod_unique _ _ (k / n))|
            symmetry; apply (Nat.div_unique _ _ _ (S (k mod n)))]; nia.
Qed.

Lemma barrier_step now msg s k :
  is_barrier msg -> nodes_ s <> [] ->
  (forall n, n ∈ nodes_ s -> senders_ s !! node_host_id n = Some (tcp n)) ->
  barrier_count_ s = Z.of_nat (k mod length (nodes_ s)) ->
  sm_Receive garbage now msg s =
    Ok (tt, s <| barrier_count_ := Z.of_nat (S k mod length (nodes_ s)) |>,
        concat (replicate (S k / length (nodes_ s) - k / length (nodes_ s)) (release s))).
Proof.
  intros (g & from & to & Hg & ->) Hne Hs Hc. apply wp_exact. unfold sm_Receive.
  rewrite decide_True by done. wstep.
  eapply (wp_from_data _ _ _ (control mf_Barrier g)); [done|by apply storable_control|]. cbn.
  unfold sm_HandleBarrierMsg. do 4 wstep. cbn. rewrite Hc.
  destruct (succ_div_mod k (length (nodes_ s))) as [(H1 & -> & ->)|(H1 & -> & ->)].
  { destruct (nodes_ s); [done|cbn; lia]. }
  - rewrite Nat.sub_succ_l, Nat.sub_diag by lia. cbn [replicate concat]. rewrite app_nil_r.
    wstep; [|apply Z.eqb_neq in Hif; by rewrite <- Nat2Z.inj_succ, H1 in Hif]. do 2 wstep. cbn.
    apply (wp_for_each _ (fun l s' os => exists before, before ++ l = nodes_ s /\
      s' = s <| barrier_count_ := 0 |> /\ os = (fun n => Wire (tcp n) (barrier_from garbage
        (node_host_id (my_node_ s)) (node_host_id n))) <$> before)).
    + by exists [].
    + intros n l s1 os (before & Hb & -> & ->). wstep.
      eapply (wp_Send _ _ (tcp n)); [done|cbn; apply Hs; rewrite <- Hb; set_solver|]. intros z. wstep.
      exists (before ++ [n]). by rewrite <- app_assoc, fmap_app.
    + intros s' os (before & Hb & -> & ->). rewrite app_nil_r in Hb. subst. done.
  - rewrite Nat.sub_diag. wstep; [|by rewrite Nat2Z.inj_succ].
    apply Z.eqb_eq in Hif. by rewrite <- Nat2Z.inj_succ, Nat2Z.inj_iff in Hif.
Qed.

(** C30: The barrier.  A worker that enters it tells the scheduler and waits.  Of any number
    of barrier messages every n-th, n the number of nodes, makes the scheduler release all
    nodes, each by one message that ends its wait, and no other message releases anybody;
    so nobody leaves a barrier before all have entered it, and the next round starts from
    zero. *)
Theorem barrier_releases_all sched msgs s sw :
  storable garbage -> Forall (fun a => is_barrier a.2) msgs -> nodes_ s <> [] ->
  (forall n, n ∈ nodes_ s -> senders_ s !! node_host_id n = Some (tcp n)) ->
  barrier_count_ s = 0 ->
  scheduler_node_ sw = sched -> senders_ sw !! node_host_id sched = Some (tcp sched) ->
  Barrier garbage sw = Ok (tt, sw <| barrier_finish_ := false |>,
    [Wire (tcp sched) (barrier_from garbage (node_host_id (my_node_ sw)) (node_host_id sched))]) /\
  for_each msgs (fun a => sm_Receive garbage a.1 a.2) s =
    Ok (tt, s <| barrier_count_ := Z.of_nat (length msgs mod length (nodes_ s)) |>,
        concat (replicate (length msgs / length (nodes_ s)) (release s))) /\
  forall addr msg, Wire addr msg ∈ release s ->
    wm_Receive msg sw = Ok (tt, sw <| barrier_finish_ := true |>, []).
Proof.
  intros Hg Hm Hne Hs Hc Hsch Hsk. split_and!.
  - apply wp_exact. unfold Barrier. do 4 wstep. wstep. rewrite Hsch.
    eapply (wp_Send _ _ (tcp sched)); [done..|]. intros z. by wstep.
  - induction msgs as [|[now msg] msgs IH] using rev_ind.
    { cbn. rewrite Nat.Div0.mod_0_l, Nat.Div0.div_0_l. destruct s. cbn in *. by subst. }
    apply Forall_app in Hm as [Hm1 Hm2]. apply wp_exact, for_each_app. unfold wp at 1.
    rewrite IH by done. cbn [for_each fst snd]. unfold wp, bind.
    rewrite (barrier_step now msg _ (length msgs)); [|by inversion Hm2|done..].
    unfold ret. cbn. rewrite length_app, Nat.add_comm. cbn [length Nat.add].
    rewrite app_nil_r, <- concat_app. split_and!; [done|done|].
    change (_ <$> nodes_ s) with (release s). rewrite <- replicate_add. do 2 f_equal.
    pose proof (Nat.Div0.div_le_mono (length msgs) (S (length msgs)) (length (nodes_ s)) ltac:(lia)).
    lia.
  - intros addr msg (n & [= -> ->] & _)%list_elem_of_fmap. apply wp_exact. unfold wm_Receive.
    rewrite decide_True by done. wstep.
    eapply (wp_from_data _ _ _ (control mf_Barrier garbage)); [done|by apply storable_control|].
    cbn. unfold wm_HandleBarrierMsg. by wstep.
Qed.
End barrier.

(** ** Registrations after the start *)

Section late.
Context `{AddrOrder} (garbage : Node).

(** All workers have registered. *)
Record ready_cluster (s : Mailbox) : Prop := {
  rc_ready : mb_ready_ s = true;
  rc_size : Z.of_nat (length (nodes_ s)) = num_workers_ s;
  rc_num : num_workers_ s < kEmpty;
  rc_connected : forall a i, connected_nodes_ s !! a = Some i -> 1 <= i <= num_workers_ s;
  rc_ids : Forall (fun n => node_host_id n <> kEmpty) (nodes_ s) }.

Lemma wp_GetDeadNodes E now timeout s Q :
  (forall d, Q d s []) -> wp E (GetDeadNodes now timeout) s Q.
Proof. intros HQ. unfold GetDeadNodes, GetNodeIDs. by repeat wstep. Qed.

Definition replace_failed (e : err) : Prop := e = CheckFailed "node.id == Node::kEmpty".

(** Numbering nodes that all have a number: each is taken for one that shares the address
    of an earlier node. *)
Lemma renumber s now :
  ready_cluster s ->
  wp replace_failed (for_each (seq 0 (length (nodes_ s))) (number_node now)) s (fun _ s' os =>
    os = [] /\ connected_nodes_ s' = connected_nodes_ s /\
    forall i, 1 <= i <= num_workers_ s -> is_Some (shared_node_mapping_ s' !! i)).
Proof.
  intros [Hr Hn Hlt Hc Hids].
  apply (wp_for_each _ (fun l s' os => exists k, l = seq k (length (nodes_ s) - k) /\ os = [] /\
    (k <= length (nodes_ s))%nat /\ length (nodes_ s') = length (nodes_ s) /\
    connected_nodes_ s' = connected_nodes_ s /\
    Forall (fun n => node_host_id n <> kEmpty) (nodes_ s') /\
    forall i, 1 <= i <= Z.of_nat k -> is_Some (shared_node_mapping_ s' !! i))).
  - exists 0%nat. rewrite Nat.sub_0_r. split_and!; try done; lia.
  - intros x l s1 os (k & Hl & -> & Hk & Hlen & Hcs & Hid & Hsh).
    destruct (length (nodes_ s) - k)%nat as [|d] eqn:Hd; [done|]. injection Hl as -> ->.
    unfold number_node. wstep. wstep. destruct (lookup_lt_is_Some_2 (nodes_ s1) k) as [n Hnk]; [lia|].
    rewrite Hnk. wstep. wstep; [|done]. injection Hx as <-.
    pose proof (proj1 (Forall_lookup _ _) Hid _ _ Hnk) as Hne.
    destruct (connected_nodes_ s1 !! addr_str n) as [first|] eqn:Hf.
    + wstep. cbn. exists (S k). rewrite Hcs in Hf. apply Hc in Hf.
      split_and!; try done; [f_equal; lia|lia|by rewrite length_insert| |].
      * apply Forall_insert; [done|cbn; lia].
      * intros i Hi. destruct (decide (i = Z.of_nat k + 1)) as [->|];
          [by rewrite lookup_insert_eq|]. rewrite lookup_insert_ne by done. apply Hsh. lia.
    + wstep. wstep; [exfalso; by apply Z.eqb_eq in Hck|done].
  - intros s' os (k & Hl & -> & Hk & Hlen & Hcs & Hid & Hsh). split_and!; [done|done|].
    intros i Hi. apply Hsh. destruct (length (nodes_ s) - k)%nat eqn:Hd; [|done]. lia.
Qed.

Lemma late_answer s now :
  ready_cluster s ->
  wp replace_failed (answer_register garbage now) s (fun _ _ sent => sent = []).
Proof.
  intros Hs. unfold answer_register. wstep. wstep. rewrite (rc_size s Hs), Z.eqb_refl. wstep.
  eapply wp_mono; [by apply renumber|]. intros [] s1 os (-> & Hcs & Hsh).
  unfold GetNodeIDs. do 6 wstep. wstep. cbn.
  apply (wp_for_each _ (fun l s' os => (forall r, r ∈ l -> is_Some (shared_node_mapping_ s1 !! r)) /\
    s' = s1 /\ os = [])).
  - split_and!; [|done..]. intros r. rewrite Hcs, addr_iter_perm.
    intros ([a i] & -> & Hin)%list_elem_of_fmap. apply elem_of_map_to_list in Hin.
    by apply Hsh, (rc_connected s Hs a).
  - intros r l s2 os (Hl & -> & ->). unfold send_nodes. wstep. wstep.
    destruct (Hl r) as [x Hx]; [by left|]. rewrite Hx. wstep; [done|].
    split_and!; [|done..]. intros r' Hr'. apply Hl. by right.
  - intros s' os (_ & -> & ->). by wstep.
Qed.

(** A worker that registers when the cluster is already running - one that was
    restarted, say - is never answered.  Either the address is known, then the scheduler
    takes every node for one that shares the address of another and sends the list to
    nobody; or it replaces a dead node, then the numbering finds a node that has a number
    but no connection and the scheduler aborts.  The branch that sends the nodes to the
    recovered worker is not reached. *)
Theorem late_registration_is_not_answered now sched w s :
  ready_cluster s -> fresh_worker w ->
  match sm_Receive garbage now (register_msg sched w) s with
  | Ok (_, _, sent) => sent = []
  | Err e => e = CheckFailed "node.id == Node::kEmpty"
  end.
Proof.
  intros Hs (Hid & Hp & Hw).
  change (wp replace_failed (sm_Receive garbage now (register_msg sched w)) s (fun _ _ sent => sent = [])).
  unfold sm_Receive. rewrite decide_True by done. wstep.
  eapply (wp_from_data _ _ _ (control mf_Register w)); [done|by apply storable_control|]. cbn.
  unfold sm_HandleRegisterMsg. wstep. apply wp_GetDeadNodes. intros dead.
  wstep. unfold sm_UpdateID. wstep. wstep; [|done]. wstep.
  eapply (wp_from_data _ _ _ (control mf_Register w)); [done|by apply storable_control|].
  wstep. wstep. rewrite (rc_size s Hs), Z.ltb_irrefl. wstep. wstep; [|by rewrite (rc_ready s Hs)].
  destruct (list_find _ _) as [[i n]|] eqn:Hf.
  - wstep. eapply wp_mono; [apply late_answer|by intros [] ? ? ->].
    destruct Hs as [Hr Hn Hlt Hc Hids]. split; cbn; try done; [by rewrite length_insert|].
    apply list_find_Some in Hf as (Hi & _ & _). apply lookup_take_Some in Hi as [Hi _].
    apply Forall_insert; [done|]. cbn. by apply (proj1 (Forall_lookup _ _) Hids i n).
  - wstep. eapply wp_mono; [by apply late_answer|by intros [] ? ? ->].
Qed.
End late.

(** ** Examples *)

#[export] Instance addr_order : AddrOrder := {| addr_iter := map_to_list; addr_iter_perm m := reflexivity _ |}.

Definition node_at (id : Z) (host : string) (port : Z) (rec : bool) : Node :=
  {| node_host_id := id; hostname := host; node_port := port; is_recovery := rec |}.
Definition zeros : Node := node_at 0 "" 0 false.
Definition sched0 : Node := node_at 0 "proj99" 9999 false.
Definition two_workers : list Node := [node_at kEmpty "w1" 700 false; node_at kEmpty "w2" 700 true].

Lemma fresh_node host port rec :
  length_fits (String.list_byte_of_string host) -> 0 <= port < kEmpty -> fresh_worker (node_at kEmpty host port rec).
Proof.
  intros Hh Hp. split_and!; [done|cbn; lia|]. unfold kEmpty in Hp. split_and!; try done.
  unfold storable. cbn. unfold in_int. lia.
Qed.
Lemma two_workers_fresh : Forall fresh_worker two_workers.
Proof. repeat constructor; apply fresh_node; done. Qed.

Lemma storable_zeros : storable zeros.
Proof. by split_and!. Qed.

Definition running : Mailbox :=
  match for_each (zip [5; 7] (register_msg sched0 <$> two_workers)) (fun a => sm_Receive zeros a.1 a.2)
          (listening zeros sched0 2) with
  | Ok (_, s, _) => s <| start_time_ := 7 |>
  | Err _ => listening zeros sched0 2
  end.

Lemma registration_connects_all_witness : exists s sent,
  for_each (zip [5; 7] (register_msg sched0 <$> two_workers)) (fun a => sm_Receive zeros a.1 a.2)
    (listening zeros sched0 2) = Ok (tt, s, sent) /\
  reaches s (node_at 2 "w2" 700 true).
Proof.
  destruct (registration_connects_all zeros sched0 two_workers (listening zeros sched0 2)
    (zip [5; 7] (register_msg sched0 <$> two_workers))) as (s & sent & E & _ & _ & _ & Hr & _).
  1-2: done.
  1: apply storable_zeros.
  1: done.
  1: apply two_workers_fresh.
  1: done.
  1: apply (bool_decide_eq_true_1 _); by vm_compute.
  1-3: done.
  exists s, sent. split; [exact E|]. apply Hr. right. right. left.
Defined.

Lemma running_nodes : nodes_ running = assign two_workers.
Proof. by vm_compute. Qed.

Lemma barrier_releases_all_witness :
  for_each [(8, barrier_from zeros 1 0); (9, barrier_from zeros 2 0); (9, barrier_from zeros 1 0)]
    (fun a => sm_Receive zeros a.1 a.2) running =
  Ok (tt, running <| barrier_count_ := 1 |>,
      [Wire "tcp://w1:700" (barrier_from zeros 0 1); Wire "tcp://w2:700" (barrier_from zeros 0 2)]).
Proof.
  destruct (barrier_releases_all zeros sched0
    [(8, barrier_from zeros 1 0); (9, barrier_from zeros 2 0); (9, barrier_from zeros 1 0)]
    running (listening zeros sched0 0)) as (_ & E & _).
  - apply storable_zeros.
  - repeat constructor; eexists _, _, _; (split; [apply storable_zeros|done]).
  - by rewrite running_nodes.
  - rewrite running_nodes. intros n Hn. unfold two_workers in Hn. cbn in Hn.
    repeat (apply elem_of_cons in Hn as [->|Hn]; [by vm_compute|]). by apply elem_of_nil in Hn.
  - by vm_compute.
  - done.
  - by vm_compute.
  - rewrite E, running_nodes. by vm_compute.
Defined.

Lemma running_ready : ready_cluster running.
Proof.
  split; try by vm_compute.
  - intros a i Hi. change (num_workers_ running) with 2.
    assert (connected_nodes_ running = {["w1:700" := 1; "w2:700" := 2]}) as E by (by vm_compute).
    rewrite E in Hi. apply lookup_insert_Some in Hi as [[_ <-]|[_ Hi]]; [lia|].
    apply lookup_singleton_Some in Hi as [_ <-]. lia.
  - rewrite running_nodes. repeat constructor; done.
Qed.

(** A worker restarted at its old address, and one that replaces a dead node from a new
    address. *)
Lemma late_registration_is_not_answered_witness :
  (exists s, sm_Receive zeros 9 (register_msg sched0 (node_at kEmpty "w1" 700 false)) running = Ok (tt, s, [])) /\
  sm_Receive zeros 90 (register_msg sched0 (node_at kEmpty "w3" 700 false)) running =
    Err (CheckFailed "node.id == Node::kEmpty").
Proof.
  assert (forall host, length_fits (String.list_byte_of_string host) ->
    fresh_worker (node_at kEmpty host 700 false)) as Hf by (intros host Hh; by apply fresh_node).
  split.
  - pose proof (late_registration_is_not_answered zeros 9 sched0 (node_at kEmpty "w1" 700 false)
      running running_ready (Hf "w1" ltac:(done))) as H1.
    destruct (sm_Receive zeros 9 _ running) as [[[[] s] sent]|e] eqn:E.
    + exists s. by rewrite H1.
    + by vm_compute in E.
  - pose proof (late_registration_is_not_answered zeros 90 sched0 (node_at kEmpty "w3" 700 false)
      running running_ready (Hf "w3" ltac:(done))) as H2.
    destruct (sm_Receive zeros 90 _ running) as [[[[] s] sent]|e] eqn:E.
    + by vm_compute in E.
    + by rewrite H2.
Defined.

(** [recovery_node] of [Receiving] is not initialized, but its [is_recovery] is read at every
    registration but the last: when it happens to hold true, the scheduler connects to a
    node that does not exist, or aborts. *)
Lemma uninitialized_recovery_node :
  sm_Receive (node_at kEmpty "" 0 true) 5 (register_msg sched0 (node_at kEmpty "w1" 700 false))
    (listening (node_at kEmpty "" 0 true) sched0 2) = Err (CheckFailed "node.id != node.kEmpty").
Proof. by vm_compute. Qed.

(** The dead node that is last in the list is not found. *)
Lemma last_node_not_replaced :
  match sm_UpdateID (register_msg sched0 (node_at kEmpty "w3" 700 false)) {[2]} running with
  | Ok (_, s, _) => nodes_ s = nodes_ running
  | Err _ => False
  end.
Proof. by vm_compute. Qed.
