(* ===== verification/Engine.v ===== *)
(** * The engine (core/engine.cpp, core/engine.hpp, core/engine_elem.hpp, core/plan/runner.cpp)

    The engine of a worker process: it creates the parts of the process, starts the mailbox,
    which blocks until the scheduler has given the node its id, registers the queues of the
    three actors with the mailbox and then lets the worker tell the scheduler that it is
    ready.  The function store is a parameter [FS], which plans and collections change when
    they are added, and [files] is the file system; sockets, threads and actors are those of [Mailbox] and [Actors]. *)

From S2P Require Import Prelude BinStream Dag Specs Program Index Messages Partition Assigner.
From S2P Require Import CollectionStatus SchedulerState Worker Cluster Mailbox.

Section Engine.
Context `{AddrOrder} (garbage : Node) {P : Type} `{WorkerCode P} {FS : Type} (new_functions : FS) (files : FileSystem).

Record Config := {
  scheduler_host : string; scheduler_port : Z; cf_num_local_threads : Z;
  cf_num_update_threads : Z; cf_num_combine_threads : Z; cf_namenode : string; cf_port : Z }.

(** The pool of threads and the stores are created empty; of [executor] the number of threads
    is kept.  The sender and the intermediate store forward to the mailbox. *)
Record EngineElem := {
  ee_node : Node; executor_threads : Z; ee_partition_manager : PartitionManager (wpart P);
  function_store : FS; ee_collection_map : CollectionMap; has_sender : bool; ee_fetcher : option Z;
  namenode : string; ee_port : Z; ee_num_local_threads : Z; num_update_threads : Z; num_combine_threads : Z }.
#[global] Instance eta_EngineElem : Eta EngineElem := fun e =>
  {| ee_node := ee_node e; executor_threads := executor_threads e; ee_partition_manager := ee_partition_manager e;
     function_store := function_store e; ee_collection_map := ee_collection_map e; has_sender := has_sender e;
     ee_fetcher := ee_fetcher e; namenode := namenode e; ee_port := ee_port e; ee_num_local_threads := ee_num_local_threads e;
     num_update_threads := num_update_threads e; num_combine_threads := num_combine_threads e |}.

(** [fetcher_] and [controller_] are the ids of the actors. *)
Record Engine := {
  e_program_ : ProgramContext; engine_elem_ : EngineElem; config_ : Config;
  mailbox_ : option Mailbox; worker_ : option (Worker P); fetcher_ : option Z; controller_ : option Z }.
#[global] Instance eta_Engine : Eta Engine := fun e =>
  {| e_program_ := e_program_ e; engine_elem_ := engine_elem_ e; config_ := config_ e; mailbox_ := mailbox_ e;
     worker_ := worker_ e; fetcher_ := fetcher_ e; controller_ := controller_ e |}.

(** What leaves the process: messages of the mailbox and of the worker. *)
Inductive engine_out :=
| OnWire (w : wire)
| OfWorker (o : wk_out).
Abbreviation EM := (M Engine engine_out).

(** ** Operations *)

Definition RegisterProgram (program : ProgramContext) : EM unit := modify (fun e => e <| e_program_ := program |>).
Definition AddFunc (register : FS -> FS) : EM unit :=
  modify (fun e => e <| engine_elem_ ::= fun el => el <| function_store ::= register |> |>).

Definition engine_Init (config : Config) : EM unit :=
  modify (fun e => e <| engine_elem_ ::= fun el => el
      <| executor_threads := cf_num_local_threads config |> <| ee_partition_manager := {| partitions_ := ∅ |} |>
      <| ee_collection_map := ∅ |> <| function_store := new_functions |>
      <| namenode := cf_namenode config |> <| ee_port := cf_port config |>
      <| ee_num_local_threads := cf_num_local_threads config |> <| num_update_threads := cf_num_update_threads config |>
      <| num_combine_threads := cf_num_combine_threads config |> |>
    <| config_ := config |>).

(** A computation of the mailbox, which exists. *)
Definition on_mailbox {A} (m : M Mailbox wire A) : EM A := fun e =>
  match mailbox_ e with
  | Some mb => match m mb with Ok (a, mb', os) => Ok (a, e <| mailbox_ := Some mb' |>, OnWire <$> os) | Err err => Err err end
  | None => Err (Undefined "*mailbox_")
  end.
Definition on_worker {A} (m : M (Worker P) wk_out A) : EM A := fun e =>
  match worker_ e with
  | Some w => match m w with Ok (a, w', os) => Ok (a, e <| worker_ := Some w' |>, OfWorker <$> os) | Err err => Err err end
  | None => Err (Undefined "*worker_")
  end.
Definition mod_elem (f : EngineElem -> EngineElem) : EM unit := modify (fun e => e <| engine_elem_ ::= f |>).

(** [Start] up to the wait of the mailbox for the answer of the scheduler, with the address
    that the mailbox finds. *)
Definition engine_Start (ip : string) (port : Z) : EM unit :=
  e <-- get ;;
  let scheduler_node := {| node_host_id := 0; hostname := scheduler_host (config_ e);
    node_port := scheduler_port (config_ e); is_recovery := false |} in
  modify (fun e => e <| mailbox_ := Some (new_mailbox garbage scheduler_node 0) |>) ;;;
  on_mailbox (wm_Start ip port).

Definition new_worker (elem : EngineElem) : Worker P :=
  {| w_node_id := node_host_id (ee_node elem); w_hostname := hostname (ee_node elem);
     w_num_local_threads := ee_num_local_threads elem; w_partition_manager := ee_partition_manager elem;
     w_collection_map := ee_collection_map elem; fs_ := files;
     w_program_ := {| specs := []; dag := empty_dag |}; is_program_set_ := false; ready_ := false; exited_ := false |}.
(** The rest of [Start], up to the wait for the worker's end. *)
Definition engine_Started (now : Z) : EM unit :=
  on_mailbox (wm_Started now) ;;;
  mod_elem (fun el => el <| has_sender := true |>) ;;;
  n <-- on_mailbox my_node ;;
  mod_elem (fun el => el <| ee_node := n |>) ;;;
  let fetcher_id := GetFetcherQid (node_host_id n) in
  modify (fun e => e <| fetcher_ := Some fetcher_id |>) ;;;
  on_mailbox (RegisterQueue fetcher_id) ;;;
  mod_elem (fun el => el <| ee_fetcher := Some fetcher_id |>) ;;;
  let controller_id := GetControllerActorQid (node_host_id n) in
  modify (fun e => e <| controller_ := Some controller_id |>) ;;;
  on_mailbox (RegisterQueue controller_id) ;;;
  let worker_id := GetWorkerQid (node_host_id n) in
  modify (fun e => e <| worker_ := Some (new_worker (engine_elem_ e)) |>) ;;;
  e <-- get ;;
  on_worker (SetProgram (e_program_ e)) ;;;
  on_mailbox (RegisterQueue worker_id) ;;;
  on_worker wk_RegisterProgram.

(** [Stop] up to joining the threads. *)
Definition engine_Stop : EM unit :=
  on_mailbox (Stop garbage) ;;;
  modify (fun e => e <| worker_ := None |> <| fetcher_ := None |> <| controller_ := None |>).

(** [Runner::Run] up to [Engine::Start]: [registers] are the [Register] functions of the
    collections and then of the plans. *)
Definition Run (config : Config) (program : ProgramContext) (collections plans : list (FS -> FS)) : EM unit :=
  check (bool_decide (scheduler_host config <> "")) "!FLAGS_scheduler.empty()" ;;;
  engine_Init config ;;;
  RegisterProgram program ;;;
  for_each collections AddFunc ;;;
  for_each plans AddFunc.

(** ** The queues of the process *)

#[local] Arguments wp : simpl never.
#[local] Arguments bind : simpl never.
#[local] Arguments modify : simpl never.
#[local] Arguments get : simpl never.
#[local] Arguments ret : simpl never.
#[local] Arguments check : simpl never.

Definition actor_queues (id : Z) : list Z := [GetWorkerQid id; GetFetcherQid id; GetControllerActorQid id].

Lemma on_mailbox_spec {A} E (m : M Mailbox wire A) e mb Q : mailbox_ e = Some mb ->
  wp E m mb (fun a mb' os => Q a (e <| mailbox_ := Some mb' |>) (OnWire <$> os)) -> wp E (on_mailbox m) e Q.
Proof. intros Hm. unfold wp, on_mailbox. rewrite Hm. by destruct (m mb) as [[[a mb'] os]|err]. Qed.
Lemma on_worker_spec {A} E (m : M (Worker P) wk_out A) e w Q : worker_ e = Some w ->
  wp E m w (fun a w' os => Q a (e <| worker_ := Some w' |>) (OfWorker <$> os)) -> wp E (on_worker m) e Q.
Proof. intros Hw. unfold wp, on_worker. rewrite Hw. by destruct (m w) as [[[a w'] os]|err]. Qed.
Lemma RegisterQueue_spec E q mb Q : queue_map_ mb !! q = None -> Q tt (mb <| queue_map_ ::= <[q := []]> |>) [] -> wp E (RegisterQueue q) mb Q.
Proof. intros Hq HQ. unfold RegisterQueue. wstep. wstep. rewrite bool_decide_eq_true_2 by done. by wsteps. Qed.

(** What the rest of [Start] leaves: the worker has told the scheduler that it is ready, and
    there is a queue for each actor. *)
Definition serving (e : Engine) (n : Node) : Prop := exists mb w,
  mailbox_ e = Some mb /\ worker_ e = Some w /\ is_program_set_ w = true /\ ready_ w = true /\
  ee_node (engine_elem_ e) = n /\ fetcher_ e = Some (GetFetcherQid (node_host_id n)) /\
  controller_ e = Some (GetControllerActorQid (node_host_id n)) /\
  forall q, queue_map_ mb !! q = if bool_decide (q ∈ actor_queues (node_host_id n)) then Some [] else None.

Lemma engine_Started_spec now e mb : mailbox_ e = Some mb -> mb_ready_ mb = true -> queue_map_ mb = ∅ ->
  wp none (engine_Started now) e (fun _ e' os => serving e' (my_node_ mb) /\
    function_store (engine_elem_ e') = function_store (engine_elem_ e) /\
    os = [OfWorker (WSend (kRegisterProgram (node_host_id (my_node_ mb)) (ee_num_local_threads (engine_elem_ e)) (e_program_ e)))]).
Proof.
  intros Hm Hr Hq. destruct e as [pr el cf mb0 wk fe co], el, mb as [rd sn me ns cn sm qs se tm bf bc nw hb rn sd]. cbn in Hm, Hr, Hq. subst mb0 rd qs.
  unfold engine_Started, mod_elem. cbn [ee_num_local_threads engine_elem_ e_program_ my_node_ function_store].
  wstep. eapply on_mailbox_spec; [reflexivity|]. unfold wm_Started. apply wp_modify. cbn.
  apply wp_bind, wp_modify. cbn. wstep. eapply on_mailbox_spec; [reflexivity|]. unfold my_node. apply wp_bind, wp_get. cbn. apply wp_bind, wp_check; [intros _|done]. apply wp_ret. cbn.
  apply wp_bind, wp_modify. cbn. apply wp_bind, wp_modify. cbn. wstep.
  eapply on_mailbox_spec; [reflexivity|]. apply RegisterQueue_spec; [done|]. cbn. apply wp_bind, wp_modify. cbn. apply wp_bind, wp_modify. cbn. wstep.
  eapply on_mailbox_spec; [reflexivity|]. apply RegisterQueue_spec.
  { cbn. rewrite lookup_insert_ne; [done|]. unfold GetFetcherQid, GetControllerActorQid. lia. }
  cbn. apply wp_bind, wp_modify. cbn. apply wp_bind, wp_get. cbn. wstep. eapply on_worker_spec; [reflexivity|]. apply wp_modify. cbn. wstep.
  eapply on_mailbox_spec; [reflexivity|]. apply RegisterQueue_spec.
  { cbn. rewrite !lookup_insert_ne; [done|..]; unfold GetFetcherQid, GetControllerActorQid, GetWorkerQid; lia. }
  cbn. eapply on_worker_spec; [reflexivity|]. apply wp_bind, wp_get. cbn. apply wp_bind, wp_ret. apply wp_bind, wp_modify, wp_emit. cbn.
  split_and!; [|done|done]. eexists _, _. split_and!; try reflexivity. intros q. cbn [queue_map_]. unfold actor_queues. cbn [node_host_id].
  rewrite !lookup_insert, lookup_empty. destruct (bool_decide_reflect (q ∈ [GetWorkerQid (node_host_id me); GetFetcherQid (node_host_id me);
    GetControllerActorQid (node_host_id me)])) as [Hin|Hout]; repeat case_decide; try done; set_solver.
Qed.

(** A process that serves takes every message for its actors. *)
Lemma serving_accepts e n msg : serving e n -> flag (meta msg) = kOthers -> recver (meta msg) ∈ actor_queues (node_host_id n) ->
  wp none (on_mailbox (wm_Receive msg)) e (fun _ e' os => os = [] /\ exists mb, mailbox_ e' = Some mb /\
    forall q, queue_map_ mb !! q = if bool_decide (q ∈ actor_queues (node_host_id n))
      then Some (if decide (q = recver (meta msg)) then [msg] else []) else None).
Proof.
  intros (mb & w & Hm & _ & _ & _ & _ & _ & _ & Hq) Hf Hr. eapply on_mailbox_spec; [done|]. unfold wm_Receive.
  rewrite decide_False by (by rewrite Hf). unfold push_queue. wstep. wstep.
  rewrite bool_decide_eq_true_2 by (rewrite Hq, bool_decide_eq_true_2 by done; by eexists). wsteps; [|done]. split; [done|]. eexists. split; [done|].
  intros q. cbn. destruct (decide (q = recver (meta msg))) as [->|Hne].
  - rewrite lookup_alter_eq, Hq. by rewrite bool_decide_eq_true_2 by done.
  - rewrite lookup_alter_ne by done. apply Hq.
Qed.

Lemma for_each_AddFunc_spec E fs e Q :
  Q tt (e <| engine_elem_ ::= fun el => el <| function_store ::= fun s => foldl (fun s f => f s) s fs |> |>) [] ->
  wp E (for_each fs AddFunc) e Q.
Proof.
  revert e Q. induction fs as [|f fs IH]; intros e Q HQ; cbn [for_each].
  - wstep. destruct e as [p el c m w fe co]. by destruct el.
  - wstep. unfold AddFunc. wstep. apply IH. exact HQ.
Qed.

(** [Run] on the engine of a new process. *)
Lemma Run_spec config program cs ps e : scheduler_host config <> "" ->
  wp none (Run config program cs ps) e (fun _ e' os => os = [] /\ config_ e' = config /\ e_program_ e' = program /\
    mailbox_ e' = mailbox_ e /\ ee_num_local_threads (engine_elem_ e') = cf_num_local_threads config /\
    function_store (engine_elem_ e') = foldl (fun s f => f s) new_functions (cs ++ ps)).
Proof.
  intros Hs. unfold Run, engine_Init, RegisterProgram. wstep. wstep; [|by rewrite bool_decide_eq_true_2].
  wstep. wstep. wstep. wstep. wstep. apply for_each_AddFunc_spec. apply for_each_AddFunc_spec. cbn. by rewrite foldl_app.
Qed.
End Engine.

(** ** Mailboxes and their queues *)

Section queues.
Context `{AddrOrder} (garbage : Node).
Definition keeps_queues {A} (m : M Mailbox wire A) : Prop := forall s, wp any m s (fun _ s' _ => queue_map_ s' = queue_map_ s).
Lemma connect_new_keeps n : keeps_queues (connect_new n).
Proof. intros s. unfold connect_new, Connect. by repeat wstep. Qed.
Lemma from_data_state {A} `{Serial A} msg i s : wp any (from_data (A := A) msg i) s (fun _ s' _ => s' = s).
Proof. unfold from_data. wstep. apply wp_deref; [intros bs _|done]. apply zoom_wp. unfold wp. by destruct (dec _) as [[[? ?] ?]|]. Qed.
Lemma wm_Receive_keeps msg : flag (meta msg) = kMailboxControl -> keeps_queues (wm_Receive msg).
Proof.
  intros Hf s. unfold wm_Receive, wm_HandleBarrierMsg, wm_HandleRegisterMsg, wm_UpdateID. rewrite decide_True by done.
  wstep. eapply wp_mono; [apply from_data_state|]. intros c s1 os1 ->. wstep; [by wsteps|]. wstep; [by wsteps|]. wstep; [|done].
  wstep. wstep. eapply wp_mono; [apply from_data_state|]. intros nodes s2 os2 ->. wstep. wstep. wstep. wstep.
  apply (wp_for_each_state any (fun s' => queue_map_ s' = queue_map_ s)); [done| |intros s3 os3 Hs; by wsteps].
  intros n s3 _ <-. apply connect_new_keeps.
Qed.
Lemma wm_Start_keeps ip port : keeps_queues (wm_Start ip port).
Proof. intros s. unfold wm_Start, Connect, mb_Send. by repeat wstep. Qed.
End queues.

(** ** A worker process starts *)

Section starting.
Context `{AddrOrder} (garbage : Node) {P : Type} `{WorkerCode P} {FS : Type} (new_functions : FS) (files : FileSystem).

Lemma on_mailbox_seq {A B} E (m1 : M Mailbox wire A) (m2 : M Mailbox wire B) (e : Engine (P := P) (FS := FS)) mb Q : mailbox_ e = Some mb ->
  wp E (m1 ;;; m2) mb (fun a mb' os => Q a (e <| mailbox_ := Some mb' |>) (OnWire <$> os)) -> wp E (on_mailbox m1 ;;; on_mailbox m2) e Q.
Proof.
  intros Hm. unfold wp, bind, on_mailbox. rewrite Hm. destruct (m1 mb) as [[[a mb1] os1]|err]; [|done]. cbn.
  destruct (m2 mb1) as [[[b mb2] os2]|err]; [|done]. by rewrite fmap_app.
Qed.

Definition scheduler_of (config : Config) : Node :=
  {| node_host_id := 0; hostname := scheduler_host config; node_port := scheduler_port config; is_recovery := false |}.
Lemma boot_spec w ip port msg (e : Engine (P := P) (FS := FS)) Q :
  wp none (wm_Start ip port ;;; wm_Receive msg) (new_mailbox w (scheduler_of (config_ e)) 0)
    (fun a mb os => Q a (e <| mailbox_ := Some mb |>) (OnWire <$> os)) ->
  wp none (engine_Start w ip port ;;; on_mailbox (wm_Receive msg)) e Q.
Proof.
  intros Hwp. set (e1 := e <| mailbox_ := Some (new_mailbox w (scheduler_of (config_ e)) 0) |>).
  assert (wp none (on_mailbox (wm_Start ip port) ;;; on_mailbox (wm_Receive msg)) e1 Q) as H1 by by eapply on_mailbox_seq.
  unfold wp in *. unfold bind at 1 in H1. unfold bind at 1, engine_Start, bind, get, modify. cbn [app].
  fold (scheduler_of (config_ e)). fold e1. by destruct (on_mailbox (wm_Start ip port) e1) as [[[a e2] os]|].
Qed.
Lemma wp_assoc {S O A B C} E (m1 : M S O A) (m2 : M S O B) (m3 : M S O C) s Q : wp E ((m1 ;;; m2) ;;; m3) s Q -> wp E (m1 ;;; m2 ;;; m3) s Q.
Proof.
  unfold wp, bind. destruct (m1 s) as [[[a s1] os1]|err]; [|done]. destruct (m2 s1) as [[[b s2] os2]|err]; [|done].
  destruct (m3 s2) as [[[c s3] os3]|err]; [|done]. by rewrite app_assoc.
Qed.
Lemma booted_queues w ip port msg sched mb os : flag (meta msg) = kMailboxControl ->
  (wm_Start ip port ;;; wm_Receive msg) (new_mailbox w sched 0) = Ok (tt, mb, os) -> queue_map_ mb = ∅.
Proof.
  intros Hf Hrun. refine (wp_Ok any _ _ _ _ _ (fun _ s _ => queue_map_ s = ∅) Hrun _). wstep.
  eapply wp_mono; [apply wm_Start_keeps|]. intros [] s1 os1 E1. eapply wp_mono; [by apply wm_Receive_keeps|].
  intros [] s2 os2 ->. by rewrite E1.
Qed.

End starting.

(** ** A process of two workers *)

#[local] Existing Instance int_code.

Definition idle_engine : Engine (P := list Z) (FS := list Z) :=
  {| e_program_ := {| specs := []; dag := empty_dag |};
     engine_elem_ := {| ee_node := zeros; executor_threads := 0; ee_partition_manager := {| partitions_ := ∅ |};
       function_store := []; ee_collection_map := ∅; has_sender := false; ee_fetcher := None; namenode := ""; ee_port := 0;
       ee_num_local_threads := 0; num_update_threads := 0; num_combine_threads := 0 |};
     config_ := {| scheduler_host := ""; scheduler_port := 0; cf_num_local_threads := 0; cf_num_update_threads := 0;
       cf_num_combine_threads := 0; cf_namenode := ""; cf_port := 0 |};
     mailbox_ := None; worker_ := None; fetcher_ := None; controller_ := None |}.
Definition small_config : Config :=
  {| scheduler_host := "proj99"; scheduler_port := 9999; cf_num_local_threads := 20; cf_num_update_threads := 20;
     cf_num_combine_threads := 20; cf_namenode := "proj10"; cf_port := 9000 |}.

